(* ===== verification/_CoqProject ===== *)
-Q . S2P
Prelude.v
Partition.v
Ring.v
Float64.v
Strategy.v
Labels.v
Nats.v
LabelPipeline.v
Emergency.v
CalcFSM.v
ManagerState.v
Degraded.v
KV.v
Lease.v
Claimer.v
Election.v
Wire.v
Publisher.v
CommitGC.v
CommitSafety.v
CommitSystem.v
Handoff.v
HandoffSafety.v
HandoffSweep.v
HandoffGate.v
HandoffApply.v
Dispatcher.v
Pattern.v
ApplyPipeline.v
ApplyOrder.v
ApplyRetry.v
Watch.v
CommitRead.v
Resolver.v
ResolverSafety.v
Retry.v
ManagerConfig.v
Rebalance.v
RebalanceSafety.v
Source.v
SourceSafety.v
Effects.v
Recovery.v
PartitionConsumer.v
ConsumerSystem.v
ConsumerSafety.v
ConsumerLoop.v
Subjects.v
WorkerConsumer.v
WorkerMonitor.v
Provision.v
ProvisionSafety.v
ProvisionConvergence.v
