(* ===== verification/Prelude.v ===== *)
(** * Parti verification library

    Parti assigns the partitions of a message stream to a fleet of workers that
    coordinate through NATS JetStream key-value buckets. Every worker runs the
    same library. It claims a stable ID (internal/stableid), publishes heartbeats
    and takes part in the election of a leader (internal/election). The leader
    watches heartbeats and the partition source, computes an assignment (strategy/,
    internal/assignment) and publishes it as one commit that refers to a payload
    per worker. Every worker watches the commit, fetches its payload, hands the
    partitions over from their former owners through claims in a bucket
    (internal/assignment/handoff) and updates its consumers, whose messages pass a
    gate on those claims (internal/durable). A worker that loses the buckets
    becomes degraded and recovers (manager_degraded.go). The package partition/
    with internal/ipartition and internal/partutil is a second, static scheme:
    subjects are hashed to partitions and messages dispatched per key.

    ** Conventions

    Go strings are byte strings, a Go [int] or [int64] is a [Z] that wraps
    ([wrap64]) where the code computes with it, times and durations are
    nanoseconds in [Z], float64 is the Standard Library's executable IEEE
    specification. A function that returns an error has type [res E A] with the
    errors its code can build; a panic is [None]. Maps are [gmap]s, whose order
    stands for Go's unspecified iteration order only where the order cannot be
    observed. Logging and metrics are left out everywhere.

    Code that is not in the repository is an interface: [Xxh3] (hashing), [SortFunc]
    (the unstable sort of the standard library), [Wire], [ClaimWire], [PayloadWire],
    [PartCodec] (JSON, gzip, SHA-256 and their round trips), [TagLibrary] (the struct-tag
    libraries), [SubjectTemplate] (text/template), the key-value buckets of
    JetStream ([KV.spec]) and what JetStream stores for a declared configuration ([Server]). Each law states documented behaviour, and each is met by
    a concrete instance in the witnesses.

    Concurrency is modelled in three ways. Goroutines of one process that share
    memory are program counters: [exec] is one atomic action, [step] picks any
    goroutine, and a theorem about [reachable] states holds in every interleaving
    (CalcFSM, ManagerState, Dispatcher, ApplyPipeline, Resolver, Rebalance, Source).
    Processes that share a bucket are programs over its operations: the bucket is
    an append-only stream of messages, a failed call may still have written, any
    process may crash, and [KV.wp] is a rely-guarantee logic with an adequacy
    theorem for all schedules (Claimer, Election, Publisher, CommitGC, Handoff).
    A long sequential goroutine that calls out at every turn is a program over an
    interface of its own (Effects): [Effects.wp] proves what holds whatever other
    goroutines do in between, [always] what holds of every run by itself, and [run]
    executes it against a handler (Recovery, PartitionConsumer, Provision).

    ** Files

    - Prelude: results, generic lemmas on lists, maps and counting of goroutines,
      the tactics and hint databases.
    - Partition, Ring, Float64, Strategy: types/partition.go, types/labels.go,
      internal/hash, and the strategies of strategy/ behind the class [Strategy].
      Round robin is balanced; consistent hashing moves only what it must; the
      weighted strategy covers every partition once, its cache is invisible and
      its soft cap holds.
    - Labels, LabelPipeline: internal/assignment/labels.go, labels_state.go and the
      label reading of calculator.go. Routing conserves partitions for every
      lawful strategy; disruptive decisions need consecutive observations and the
      grace period; read failures never become decisions.
    - Emergency, CalcFSM, Rebalance, RebalanceSafety: emergency.go,
      state_machine.go and calculator.go of internal/assignment. A death is
      confirmed exactly after continuous absence; the state machine is stuck only
      by the cancelled context of one of its own calls; one rebalance at a time;
      every published batch has passed the credibility checks; a change of the
      partition source is not forgotten while the source is watched, up to the
      endings named there. The executions at the end of CalcFSM and RebalanceSafety
      show the exceptions: the timer of a tail check, a closed watch, failed or
      skipped rebalances, a drop right after an accepted one.
    - WorkerMonitor: worker_monitor.go of internal/assignment. The watcher of the
      heartbeats calls for a check exactly when the fleet or its labels may have
      changed, and every such change is checked after the debounce.
    - ManagerState, Degraded: manager_state.go, manager_degraded.go,
      manager_startup_async.go, kv_error_classify.go. State changes follow the
      table; the error circuit trips exactly at its threshold; recovery waits for
      its own signal.
    - Nats, KV, Lease: internal/natsutil, kvutil/ops.go, the buckets and the lease
      discipline. A process reads the server's time up to a bounded skew where its
      theorems depend on it ([Within]), and any time at all elsewhere ([WallClock]).
      Claimer, Election: one holder per ID for a bounded skew, one leader per lease,
      and what the leadership fence excludes, worker IDs that are used again
      included.
    - Wire, Publisher, CommitGC, CommitSafety, CommitSystem, CommitRead:
      types/assignment_commit.go, assignment_publisher.go, commit_gc.go,
      commit_payload_fetch.go. Whatever publishers and collectors do, versions
      increase, a successful publish is committed, and, if publishes, sweeps and
      clock skew together stay within the retention, everything the current commit
      refers to stays readable with its digest.
    - Handoff, HandoffSafety, HandoffSweep, HandoffGate, HandoffApply:
      internal/assignment/handoff and manager_handoff.go. [claim_step] is the
      abstract protocol; every write refines it; epochs order the claims and an
      epoch has one owner; a claim is reaped only after continuous vouched
      absence; a gated sweep works on the current claims; an undisturbed [Apply]
      takes ownership.
    - ApplyPipeline, ApplyOrder, ApplyRetry, Watch: manager_assignment.go,
      manager_select_authority.go, manager_election.go. A worker applies targets
      one at a time and in order and does not forget the newest, an alias its startup
      stored apart; the debounce of the commit watcher drops no change of its own assignment.
    - Resolver, ResolverSafety, Retry: claim_resolver.go and processing_gate.go of
      internal/durable, internal/retry. The cache follows the bucket, a
      reconciliation repairs it, and together with the handoff no two workers
      process a partition under one epoch of a claim that was not reaped; retries
      end within their budget.
    - Source, SourceSafety: source/nats_kv.go, internal/partcodec. The partition
      source serves what its bucket held, over any number of recreations of the
      bucket ([lives]), [Modify] loses no update, listeners are signalled, and a
      reconciliation converges, also after the bucket was replaced; the executions at the end name the races in which [Update] breaks
      this.
    - Effects, Recovery, PartitionConsumer, ConsumerSystem, ConsumerSafety,
      ConsumerLoop: internal/recovery, partition_consumer.go and backoff.go of
      internal/durable. In every interleaving with late acknowledgements and
      replaced streams a recreated consumer resumes after something processed in a
      stream the loop has not left; consumers are recreated only when gone; a lost
      stream is reported within the budget, once. The executions at the end of
      ConsumerSafety show where messages are skipped all the same.
    - Subjects, WorkerConsumer: internal/dynamicbuild, worker_consumer.go of
      internal/durable. Subjects, partition keys and durable names correspond; the
      loops not told to stop are exactly those of the assigned subjects, those that
      gave up by themselves included, and a failed update can be repeated.
    - Provision, ProvisionSafety, ProvisionConvergence: validation, markers, drift,
      [Plan] and [Apply] of provision/ for buckets and streams. Whatever the server
      answers, [Apply] writes only what its policy allows; on a server that carries
      out its requests it executes its plan and leaves nothing to plan. The
      executions at the end of both files show where a marker is not looked at
      again, and what two components in one bucket do.
    - ManagerConfig: config.go. A validated configuration is well formed.
    - Dispatcher, Pattern: internal/ipartition/key_dispatcher.go,
      internal/partutil, partition/. Messages of a key are handled in order; a
      published subject reaches exactly its partition, unless its key has a dot that
      the pattern repeats; patterns round trip.

    ** Fuel

    Loops of the code that are not structural run on fuel that is shown to
    suffice: [Retry.run_loop] and [envelope_loop] have one unit per attempt of the
    budget, [ensureConsumer_loop] three, [search] (a binary search) and [sanitize]
    one per element, [Pattern.parse_loop] three rounds, because a pattern has two
    placeholders, and compare-and-swap retries are bounded by the attempts the code allows. A
    fuelled function returns [None] when fuel runs out and theorems state that it
    does not. Schedules of witnesses are finite lists of actions; the theorems are
    about executions of any length.

    ** Not modelled

    The assembly of the manager and its ticker loops (manager.go,
    manager_setup.go, options.go): construction and goroutine lifecycle around the
    modelled operations. The broadcast, queue and in-partition consumers
    (broadcast_consumer.go, consumer/, internal/ipartition/consumer.go): pull loops
    of the shape of the partition consumer's. Draining an iterator before its
    subject is removed. The partition records, dynamic consumers and inventory of
    provision/ and its live probe, which only reads; the command line tools (cmd/,
    k8s/); metrics and logging, tests and examples. *)

From stdpp Require Export gmap strings list sorting pretty fin_maps relations.
From Stdlib Require Export ZArith Lia Ascii.

(** ** Results of fallible Go functions

    A Go function returning [(T, error)] is modelled by [res E T]: the error
    type of each component enumerates the errors its code can build. *)
Inductive res (E A : Type) : Type :=
| Ok (a : A)
| Err (e : E).
Arguments Ok {E A} a.
Arguments Err {E A} e.

#[export] Instance res_ret E : MRet (res E) := λ A a, Ok a.
#[export] Instance res_bind E : MBind (res E) := λ A B f r,
  match r with Ok a => f a | Err e => Err e end.
#[export] Instance res_fmap E : FMap (res E) := λ A B f r,
  match r with Ok a => Ok (f a) | Err e => Err e end.

Lemma res_bind_Ok {E A B} (r : res E A) (f : A -> res E B) y :
  r ≫= f = Ok y <-> exists x, r = Ok x /\ f x = Ok y.
Proof. destruct r; naive_solver. Qed.

Lemma res_fmap_Ok {E A B} (r : res E A) (f : A -> B) y :
  f <$> r = Ok y <-> exists x, r = Ok x /\ y = f x.
Proof. destruct r; naive_solver. Qed.

(** Split every successful monadic computation in the context. *)
Ltac inv_ok :=
  repeat match goal with
  | H : (_ ≫= _) = Some _ |- _ => apply bind_Some in H as (? & ? & ?)
  | H : (_ <$> _) = Some _ |- _ => apply fmap_Some in H as (? & ? & ?)
  | H : (_ ≫= _) = Ok _ |- _ => apply res_bind_Ok in H as (? & ? & ?)
  | H : (_ <$> _) = Ok _ |- _ => apply res_fmap_Ok in H as (? & ? & ?)
  end; simplify_eq.

Create HintDb parti.

(** ** Integer widths *)

Definition wrap64 (z : Z) : Z := (z + 2 ^ 63) `mod` 2 ^ 64 - 2 ^ 63.
Definition uwrap64 (z : Z) : Z := z `mod` 2 ^ 64.

Definition int64 (z : Z) : Prop := (- 2 ^ 63 <= z < 2 ^ 63)%Z.

Lemma wrap64_id z : (- 2 ^ 63 <= z < 2 ^ 63)%Z -> wrap64 z = z.
Proof. intros H. unfold wrap64. rewrite Z.mod_small; lia. Qed.

Lemma wrap64_range z : (- 2 ^ 63 <= wrap64 z < 2 ^ 63)%Z.
Proof. unfold wrap64. pose proof (Z.mod_pos_bound (z + 2 ^ 63) (2 ^ 64)). lia. Qed.

(** Adding one goes up, except at the largest value. *)
Lemma wrap64_succ z : int64 z -> (z < wrap64 (z + 1))%Z \/ wrap64 (z + 1) = (- 2 ^ 63)%Z.
Proof.
  unfold int64. intros Hz. destruct (decide (z = 2 ^ 63 - 1)%Z) as [->|N]; [by right|].
  left. rewrite wrap64_id; lia.
Qed.

Lemma wrap64_add_l a b : wrap64 (wrap64 a + b) = wrap64 (a + b).
Proof.
  unfold wrap64. f_equal.
  replace ((a + 2 ^ 63) `mod` 2 ^ 64 - 2 ^ 63 + b + 2 ^ 63)%Z
    with ((a + 2 ^ 63) `mod` 2 ^ 64 + b)%Z by lia.
  rewrite Z.add_mod_idemp_l by lia. f_equal. lia.
Qed.

Lemma wrap64_add_r a b : wrap64 (a + wrap64 b) = wrap64 (a + b).
Proof. rewrite Z.add_comm, wrap64_add_l. f_equal. lia. Qed.

(** Instants and durations are nanoseconds; [Time.Sub] saturates. *)
Definition time_sub (a b : Z) : Z := Z.max (- 2 ^ 63) (Z.min (2 ^ 63 - 1) (a - b)).

(** ** Strings *)

(** [strings.Contains(s, c)] for a one-byte separator. *)
Fixpoint contains_char (c : ascii) (s : string) : bool :=
  match s with
  | EmptyString => false
  | String a s' => bool_decide (a = c) || contains_char c s'
  end.

(** [strings.ContainsAny(s, chars)] for single-byte characters. *)
Definition contains_any (cs : list ascii) (s : string) : bool :=
  existsb (λ c, contains_char c s) cs.
#[global] Arguments contains_any : simpl never.

Lemma string_app_cons a s1 s2 : String a s1 +:+ s2 = String a (s1 +:+ s2).
Proof. done. Qed.

Lemma string_app_nil_l s : "" +:+ s = s.
Proof. done. Qed.

Lemma contains_char_app c s1 s2 :
  contains_char c (s1 +:+ s2) = contains_char c s1 || contains_char c s2.
Proof.
  induction s1 as [|a s1 IH]; [done|]. rewrite string_app_cons. simpl.
  by rewrite IH, orb_assoc.
Qed.

Lemma string_app_assoc s1 s2 s3 : (s1 +:+ s2) +:+ s3 = s1 +:+ (s2 +:+ s3).
Proof. induction s1 as [|a s1 IH]; [done|]. rewrite !string_app_cons. by f_equal. Qed.

Lemma string_app_nil_r s : s +:+ "" = s.
Proof. induction s as [|a s IH]; [done|]. rewrite string_app_cons. by f_equal. Qed.

Lemma string_length_app s1 s2 :
  String.length (s1 +:+ s2) = String.length s1 + String.length s2.
Proof. induction s1 as [|a s1 IH]; [done|]. rewrite string_app_cons. simpl. by f_equal. Qed.

Lemma string_prefix_app s a b : String.prefix (s +:+ a) (s +:+ b) = String.prefix a b.
Proof.
  induction s as [|c s IH]; [done|]. rewrite !string_app_cons. cbn. by destruct (ascii_dec c c).
Qed.

(** Two concatenations whose left parts have the same length agree part-wise. *)
Lemma string_app_inj_length s1 s2 r1 r2 :
  String.length s1 = String.length s2 ->
  s1 +:+ r1 = s2 +:+ r2 -> s1 = s2 /\ r1 = r2.
Proof.
  revert s2. induction s1 as [|a s1 IH]; intros [|b s2] Hl He; simpl in Hl; try done.
  rewrite !string_app_cons in He. injection He as -> He. injection Hl as Hl.
  destruct (IH s2 Hl He) as [-> ->]. done.
Qed.

(** Two texts cut at the first occurrence of a separator agree part-wise. *)
Lemma string_app_inj_sep c s1 s2 r1 r2 :
  contains_char c s1 = false -> contains_char c s2 = false ->
  s1 +:+ String c r1 = s2 +:+ String c r2 -> s1 = s2 /\ r1 = r2.
Proof.
  revert s2. induction s1 as [|a s1 IH]; intros [|b s2] H1 H2 He;
    rewrite ?string_app_nil_l, ?string_app_cons in He; simpl in *.
  - by injection He as ->.
  - injection He as -> He. case_bool_decide; done.
  - injection He as -> He. case_bool_decide; done.
  - injection He as -> He. case_bool_decide; [done|].
    destruct (IH s2 H1 H2 He) as [-> ->]. done.
Qed.

Lemma string_compare_refl s : String.compare s s = Eq.
Proof.
  induction s as [|a s IH]; simpl; [done|]. unfold Ascii.compare. by rewrite N.compare_refl.
Qed.

(** Byte-wise string comparison [<]. *)
Lemma string_ltb_le x y : String.ltb x y = true <-> String.le x y /\ x <> y.
Proof.
  unfold String.ltb, String.le, String.leb.
  destruct (String.compare x y) eqn:E; split; try done.
  - intros [_ H]. by apply String.compare_eq_iff in E.
  - intros _. split; [done|]. intros ->.
    rewrite string_compare_refl in E. congruence.
  - by intros [H _].
Qed.

Lemma string_ltb_trans x y z : String.ltb x y = true -> String.ltb y z = true -> String.ltb x z = true.
Proof.
  rewrite !string_ltb_le. intros [H1 N1] [H2 N2]. split; [by etrans|].
  intros ->. apply N2. by apply (anti_symm String.le).
Qed.

Lemma string_ltb_false x y : String.ltb x y = false -> x = y \/ String.ltb y x = true.
Proof.
  intros H. destruct (decide (x = y)) as [|N]; [by left|]. right. apply string_ltb_le.
  split; [|done]. destruct (total String.le x y) as [L|L]; [|done].
  assert (String.ltb x y = true) by by apply string_ltb_le. congruence.
Qed.

Lemma string_ltb_asym x y : String.ltb x y = true -> String.ltb y x = false.
Proof.
  intros H. destruct (String.ltb y x) eqn:E; [|done].
  pose proof (string_ltb_trans _ _ _ H E) as HH. by apply string_ltb_le in HH as [_ ?].
Qed.

(** ** List filters *)

Section filter_facts.
Context {A : Type} (P Q : A -> Prop) `{forall x, Decision (P x)} `{forall x, Decision (Q x)}.

Lemma filter_comm (l : list A) : filter P (filter Q l) = filter Q (filter P l).
Proof.
  rewrite !list_filter_filter. apply list_filter_iff. tauto.
Qed.

Lemma filter_all (l : list A) : Forall P l -> filter P l = l.
Proof.
  induction 1 as [|x l Hx _ IH]; [done|]. rewrite filter_cons_True by done. by rewrite IH.
Qed.

Lemma filter_none (l : list A) : Forall (λ x, ~ P x) l -> filter P l = [].
Proof.
  induction 1 as [|x l Hx _ IH]; [done|]. by rewrite filter_cons_False.
Qed.

Lemma filter_ext_in (l : list A) :
  (forall x, x ∈ l -> P x <-> Q x) -> filter P l = filter Q l.
Proof.
  induction l as [|a l IH]; intros HPQ; [done|]. rewrite !filter_cons, IH by (intros; apply HPQ; by right).
  pose proof (HPQ a ltac:(left)). repeat case_decide; tauto || done.
Qed.

Lemma StronglySorted_filter (R : relation A) (l : list A) :
  StronglySorted R l -> StronglySorted R (filter P l).
Proof.
  induction 1 as [|x l HS IH HF]; [constructor|]. rewrite filter_cons.
  case_decide; [|done]. constructor; [done|]. rewrite Forall_forall in HF |- *.
  intros y [_ Hy]%list_elem_of_filter. by apply HF.
Qed.
End filter_facts.

Lemma StronglySorted_snoc {A} (R : relation A) l x :
  StronglySorted R (l ++ [x]) <-> StronglySorted R l /\ Forall (λ y, R y x) l.
Proof.
  induction l as [|y l IH]; cbn.
  { split; [by split; constructor|]. intros _. by repeat constructor. }
  split.
  - inversion_clear 1 as [|? ? S F]. apply Forall_app in F as [F Fx]. rewrite Forall_singleton in Fx.
    apply IH in S as [S F']. split; by constructor.
  - intros [S F]. inversion_clear S as [|? ? S' Fy]. inversion_clear F as [|? ? Hy Fl].
    constructor; [by apply IH|]. rewrite Forall_app, Forall_singleton. done.
Qed.

(** ** Sorting

    [slices.Sort] on strings: byte-wise lexicographic order is total, so every
    sorting algorithm returns the same list and a merge sort stands for it. *)
Definition sort_strings (l : list string) : list string := merge_sort String.le l.

(** [slices.Compact]: collapse each run of equal elements to one. *)
Fixpoint compact {A} `{EqDecision A} (l : list A) : list A :=
  match l with
  | x :: l' =>
      match l' with
      | y :: _ => if decide (x = y) then compact l' else x :: compact l'
      | [] => [x]
      end
  | [] => []
  end.

(** Sort then compact: the canonical form of a set of strings. *)
Definition sorted_set (l : list string) : list string := compact (sort_strings l).

Lemma sort_strings_perm l : sort_strings l ≡ₚ l.
Proof. apply merge_sort_Permutation. Qed.

Lemma sort_strings_sorted l : Sorted String.le (sort_strings l).
Proof. apply Sorted_merge_sort, _. Qed.

Lemma elem_of_sort_strings x l : x ∈ sort_strings l <-> x ∈ l.
Proof. by rewrite sort_strings_perm. Qed.

Lemma length_sort_strings l : length (sort_strings l) = length l.
Proof. by rewrite sort_strings_perm. Qed.

(** The sorted arrangement of a list of strings is unique. *)
Lemma sort_strings_nonempty l : l <> [] -> sort_strings l <> [].
Proof. intros H E%length_zero_iff_nil. by rewrite length_sort_strings, length_zero_iff_nil in E. Qed.

Lemma sort_strings_unique l1 l2 : l1 ≡ₚ l2 -> sort_strings l1 = sort_strings l2.
Proof.
  intros H. apply (Sorted_unique String.le); [apply sort_strings_sorted..|].
  by rewrite !sort_strings_perm.
Qed.

Section compact.
Context {A : Type} `{EqDecision A}.

Lemma compact_cons x y (l : list A) :
  compact (x :: y :: l) = if decide (x = y) then compact (y :: l) else x :: compact (y :: l).
Proof. done. Qed.

Lemma elem_of_compact x (l : list A) : x ∈ compact l <-> x ∈ l.
Proof.
  induction l as [|y [|z l] IH]; [done..|].
  rewrite compact_cons. case_decide; subst.
  - rewrite IH, !elem_of_cons. tauto.
  - by rewrite elem_of_cons, IH, (elem_of_cons _ _ y).
Qed.

Lemma compact_head (l : list A) : head (compact l) = head l.
Proof.
  induction l as [|y [|z l] IH]; [done..|].
  rewrite compact_cons. case_decide as E; [|done]. rewrite IH. by rewrite E.
Qed.

Lemma length_compact (l : list A) : length (compact l) <= length l.
Proof.
  induction l as [|y [|z l] IH]; [done..|].
  rewrite compact_cons. case_decide; simpl in *; lia.
Qed.

(** On a sorted list, compaction removes every duplicate. *)
Lemma compact_NoDup (R : relation A) `{!Transitive R, !AntiSymm (=) R} (l : list A) :
  StronglySorted R l -> NoDup (compact l).
Proof.
  induction l as [|y [|z l] IH]; intros HS; [constructor|repeat constructor; set_solver|].
  apply StronglySorted_inv in HS as [HS Hy].
  rewrite compact_cons. case_decide as E; [by apply IH|].
  constructor; [|by apply IH].
  rewrite elem_of_compact. intros Hin.
  apply Forall_cons in Hy as [Hyz _].
  apply StronglySorted_inv in HS as [_ Hz].
  apply elem_of_cons in Hin as [|Hin]; [done|].
  apply E, (anti_symm R); [done|].
  rewrite Forall_forall in Hz. by apply Hz.
Qed.

Lemma compact_sorted (R : relation A) (l : list A) :
  StronglySorted R l -> StronglySorted R (compact l).
Proof.
  induction l as [|y [|z l] IH]; intros HS; [done..|].
  apply StronglySorted_inv in HS as [HS Hy].
  rewrite compact_cons. case_decide as E; [by apply IH|].
  constructor; [by apply IH|]. rewrite Forall_forall in Hy |- *.
  intros x. rewrite elem_of_compact. apply Hy.
Qed.

Lemma compact_id (l : list A) : NoDup l -> compact l = l.
Proof.
  induction l as [|y [|z l] IH]; intros HN; [done..|].
  apply NoDup_cons in HN as [Hy HN].
  rewrite compact_cons. rewrite decide_False by set_solver. by rewrite IH.
Qed.
End compact.

Lemma sort_strings_ssorted l : StronglySorted String.le (sort_strings l).
Proof. apply Sorted_StronglySorted; [apply _|apply sort_strings_sorted]. Qed.

Lemma elem_of_sorted_set x l : x ∈ sorted_set l <-> x ∈ l.
Proof. unfold sorted_set. by rewrite elem_of_compact, elem_of_sort_strings. Qed.

Lemma sorted_set_NoDup l : NoDup (sorted_set l).
Proof. eapply (compact_NoDup String.le), sort_strings_ssorted. Qed.

Lemma sorted_set_ssorted l : StronglySorted String.le (sorted_set l).
Proof. apply compact_sorted, sort_strings_ssorted. Qed.

(** Two sorted duplicate-free lists with the same elements are the same list. *)
Lemma sorted_NoDup_ext (l1 l2 : list string) :
  StronglySorted String.le l1 -> StronglySorted String.le l2 ->
  NoDup l1 -> NoDup l2 -> (forall x, x ∈ l1 <-> x ∈ l2) -> l1 = l2.
Proof.
  intros S1 S2 N1 N2 H. apply (StronglySorted_unique String.le); [done..|].
  by apply NoDup_Permutation.
Qed.

(** [sorted_set] is a canonical form: equal exactly when the sets are equal. *)
Lemma sorted_set_eq l1 l2 :
  sorted_set l1 = sorted_set l2 <-> (forall x, x ∈ l1 <-> x ∈ l2).
Proof.
  split.
  - intros E x. by rewrite <- elem_of_sorted_set, E, elem_of_sorted_set.
  - intros H. apply sorted_NoDup_ext; auto using sorted_set_ssorted, sorted_set_NoDup.
    intros x. by rewrite !elem_of_sorted_set.
Qed.

Lemma length_sorted_set l : length (sorted_set l) <= length l.
Proof. etrans; [apply length_compact|]. by rewrite length_sort_strings. Qed.

(** A list has as many elements as its set exactly when it has no duplicate. *)
Lemma length_sorted_set_NoDup l : length (sorted_set l) = length l <-> NoDup l.
Proof.
  split.
  - intros H. assert (sorted_set l ≡ₚ l) as <-; [|apply sorted_set_NoDup].
    apply submseteq_length_Permutation; [|lia].
    apply NoDup_submseteq; [apply sorted_set_NoDup|]. intros x. apply elem_of_sorted_set.
  - intros H. unfold sorted_set. rewrite compact_id; [apply length_sort_strings|].
    by rewrite sort_strings_perm.
Qed.

(** [slices.SortFunc] is documented as sorting in ascending order of [cmp]
    without being stable: elements that compare equal may come out in any
    order. It is therefore an interface, and every theorem about code that
    calls it holds for each implementation of the interface. *)
Definition cmp_order {A} (cmp : A -> A -> Z) : Prop :=
  (forall x y, cmp x y < 0 <-> 0 < cmp y x)%Z /\
  (forall x y z, cmp x y <= 0 -> cmp y z <= 0 -> cmp x z <= 0)%Z.

Class SortFunc := {
  sort_func : forall {A}, (A -> A -> Z) -> list A -> list A;
  sort_func_perm : forall A (cmp : A -> A -> Z) l, sort_func cmp l ≡ₚ l;
  sort_func_sorted : forall A (cmp : A -> A -> Z) l,
    cmp_order cmp -> Sorted (λ x y, cmp x y <= 0)%Z (sort_func cmp l);
}.

Definition cmp_le {A} (cmp : A -> A -> Z) : relation A := λ x y, (cmp x y <= 0)%Z.
#[export] Instance cmp_le_dec {A} (cmp : A -> A -> Z) : RelDecision (cmp_le cmp).
Proof. intros x y. unfold cmp_le. apply _. Defined.

Lemma cmp_le_total {A} (cmp : A -> A -> Z) : cmp_order cmp -> Total (cmp_le cmp).
Proof. intros [H _] x y. unfold cmp_le. specialize (H y x). lia. Qed.

(** The stable merge sort is one such implementation. *)
Program Definition stable_sort : SortFunc :=
  {| sort_func A cmp l := merge_sort (cmp_le cmp) l |}.
Next Obligation. intros. apply merge_sort_Permutation. Qed.
Next Obligation.
  intros A cmp l H. pose proof (cmp_le_total cmp H). apply (Sorted_merge_sort (cmp_le cmp)).
Qed.

Section sort_func_facts.
Context `{SortFunc} {A : Type} (cmp : A -> A -> Z).

Lemma elem_of_sort_func x l : x ∈ sort_func cmp l <-> x ∈ l.
Proof. by rewrite sort_func_perm. Qed.

Lemma length_sort_func l : length (sort_func cmp l) = length l.
Proof. by rewrite sort_func_perm. Qed.

Lemma sort_func_ssorted l :
  cmp_order cmp -> StronglySorted (cmp_le cmp) (sort_func cmp l).
Proof.
  intros [H1 H2]. apply Sorted_StronglySorted; [|by apply sort_func_sorted].
  intros x y z. apply H2.
Qed.
End sort_func_facts.

(** ** Go maps from strings to integers: an absent key reads as zero. *)
Definition zget {K} `{Countable K} (m : gmap K Z) (k : K) : Z := default 0%Z (m !! k).

Lemma zget_insert {K} `{Countable K} (m : gmap K Z) k k' v :
  zget (<[k := v]> m) k' = if decide (k = k') then v else zget m k'.
Proof. unfold zget. rewrite lookup_insert. by case_decide. Qed.

Lemma zget_empty {K} `{Countable K} (k : K) : zget ∅ k = 0%Z.
Proof. unfold zget. by rewrite lookup_empty. Qed.

(** ** Go maps from strings to slices

    [m[k] = append(m[k], x)]; an absent key reads as the nil slice. *)
Definition map_append {A} (k : string) (x : A) (m : gmap string (list A)) :
    gmap string (list A) :=
  <[k := (m !!! k) ++ [x]]> m.

(** All the elements stored in the map, key by key. *)
Definition flat {A} (m : gmap string (list A)) : list A := map_to_list m ≫= snd.

Section flat.
Context {A : Type}.
Implicit Types m : gmap string (list A).

Lemma flat_empty : flat (∅ : gmap string (list A)) = [].
Proof. unfold flat. by rewrite map_to_list_empty. Qed.

Lemma flat_insert_None m k l : m !! k = None -> flat (<[k := l]> m) ≡ₚ l ++ flat m.
Proof. intros H. unfold flat. by rewrite map_to_list_insert by done. Qed.

Lemma flat_insert m k l : flat (<[k := l]> m) ≡ₚ l ++ flat (delete k m).
Proof.
  rewrite <- insert_delete_eq. by rewrite flat_insert_None by apply lookup_delete_eq.
Qed.

Lemma flat_delete m k : flat m ≡ₚ (m !!! k) ++ flat (delete k m).
Proof.
  rewrite lookup_total_alt. destruct (m !! k) as [l|] eqn:E; simpl.
  - rewrite <- flat_insert. by rewrite insert_id.
  - by rewrite delete_id.
Qed.

Lemma flat_append m k x : flat (map_append k x m) ≡ₚ x :: flat m.
Proof.
  unfold map_append. rewrite flat_insert, (flat_delete m k).
  rewrite <- app_assoc. symmetry. apply Permutation_middle.
Qed.

Lemma elem_of_flat m x : x ∈ flat m <-> exists k l, m !! k = Some l /\ x ∈ l.
Proof.
  unfold flat. rewrite list_elem_of_bind. split.
  - intros ([k l] & Hx & Hk). apply elem_of_map_to_list in Hk. eauto.
  - intros (k & l & Hk & Hx). exists (k, l). by rewrite elem_of_map_to_list.
Qed.

Lemma lookup_append m k k' x :
  map_append k x m !! k' = if decide (k = k') then Some ((m !!! k) ++ [x]) else m !! k'.
Proof. unfold map_append. by rewrite lookup_insert. Qed.

Lemma lookup_total_append m k k' x :
  map_append k x m !!! k' = (m !!! k') ++ (if decide (k = k') then [x] else []).
Proof.
  unfold map_append. rewrite !lookup_total_alt, lookup_insert.
  case_decide; simpl; subst; [done|]. by rewrite app_nil_r.
Qed.

Lemma elem_of_total_dom m k x : x ∈ m !!! k -> k ∈ dom m.
Proof.
  rewrite lookup_total_alt. intros Hx. apply elem_of_dom. destruct (m !! k); [eauto|].
  by apply not_elem_of_nil in Hx.
Qed.
End flat.

Lemma size_list_to_set_le (l : list string) : size (list_to_set l : gset string) <= length l.
Proof.
  induction l as [|x l IH]; cbn [list_to_set length]; [done|].
  rewrite size_union_alt, size_singleton. 
  assert (size ((list_to_set l : gset string) ∖ {[x]}) <= size (list_to_set l : gset string)).
  { apply subseteq_size. set_solver. }
  lia.
Qed.

(** ** Folds that touch one key at a time *)

(** A loop over distinct keys whose step changes the view of its own key by
    [F] and of no other key: afterwards each visited key has been through [F]
    once. *)
Lemma fold_view {A B V} `{EqDecision B} (step : A -> B -> A) (view : B -> A -> V) (F : B -> V -> V) :
  (forall a x, view x (step a x) = F x (view x a)) ->
  (forall a x y, x <> y -> view y (step a x) = view y a) ->
  forall l a y, NoDup l ->
  view y (fold_left step l a) = if decide (y ∈ l) then F y (view y a) else view y a.
Proof.
  intros HE HNE l a y HN. revert a. induction HN as [|x l Hx HN IH]; intros a; cbn [fold_left].
  { by rewrite decide_False by apply not_elem_of_nil. }
  rewrite IH. destruct (decide (y = x)) as [->|N].
  - rewrite decide_False, decide_True by (done || left). apply HE.
  - rewrite HNE by done. destruct (decide (y ∈ l)).
    + by rewrite decide_True by by right.
    + by rewrite decide_False by (rewrite elem_of_cons; tauto).
Qed.

(** A flag such a loop raises depends only on the initial views. *)
Lemma fold_flag {A B V} (step : A -> B -> A) (view : B -> A -> V) (flag : A -> bool) (P : V -> bool) :
  (forall a x y, x <> y -> view y (step a x) = view y a) ->
  (forall a x, flag (step a x) = flag a || P (view x a)) ->
  forall l a, NoDup l -> flag (fold_left step l a) = flag a || existsb (λ x, P (view x a)) l.
Proof.
  intros HNE HF l a HN. revert a. induction HN as [|x l Hx HN IH]; intros a; cbn [fold_left existsb].
  { by rewrite orb_false_r. }
  rewrite IH, HF, <- orb_assoc. do 2 f_equal.
  clear -HNE Hx. induction l as [|y l IH]; [done|]. apply not_elem_of_cons in Hx as [Hxy Hx].
  simpl. by rewrite HNE, IH.
Qed.

Lemma lookup_fold_delete {A} ls (m : gmap string A) l :
  fold_left (λ m l, delete l m) ls m !! l = if decide (l ∈ ls) then None else m !! l.
Proof.
  revert m. induction ls as [|x ls IH]; intros m; cbn [fold_left].
  { by rewrite decide_False by apply not_elem_of_nil. }
  rewrite IH. destruct (decide (l = x)) as [->|N].
  - rewrite (decide_True (P := x ∈ x :: ls)) by left. rewrite lookup_delete_eq. by case_decide.
  - rewrite lookup_delete_ne by done. destruct (decide (l ∈ ls)).
    + by rewrite decide_True by by right.
    + by rewrite decide_False by (rewrite elem_of_cons; tauto).
Qed.

(** ** Threads

    A pool of goroutines is the list of their program counters. *)
Section threads.
Context {A : Type}.

Definition has (f : A -> bool) (ts : list A) : Prop := exists p, p ∈ ts /\ f p = true.

Lemma has_nil f : ~ has f [].
Proof. by intros (p & ?%not_elem_of_nil & _). Qed.

Lemma has_middle f ts1 p ts2 : has f (ts1 ++ p :: ts2) <-> f p = true \/ has f (ts1 ++ ts2).
Proof. unfold has. set_solver. Qed.

Lemma has_cons f p ts : has f (p :: ts) <-> f p = true \/ has f ts.
Proof. unfold has. set_solver. Qed.

Lemma has_spawn f ts1 p new ts2 :
  has f (ts1 ++ p :: new ++ ts2) <-> f p = true \/ has f new \/ has f (ts1 ++ ts2).
Proof. unfold has. set_solver. Qed.

(** How many threads satisfy a predicate. *)
Definition count (f : A -> bool) (ts : list A) : nat := length (filter (λ p, f p = true) ts).

Lemma count_cons f p ts : count f (p :: ts) = (if f p then 1 else 0) + count f ts.
Proof. unfold count. rewrite filter_cons. by destruct (f p). Qed.

Lemma count_app f ts ts' : count f (ts ++ ts') = count f ts + count f ts'.
Proof. unfold count. by rewrite filter_app, length_app. Qed.

Lemma count_middle f ts1 p ts2 :
  count f (ts1 ++ p :: ts2) = (if f p then 1 else 0) + count f (ts1 ++ ts2).
Proof. rewrite !count_app, count_cons. lia. Qed.

Lemma count_spawn f ts1 p new ts2 :
  count f (ts1 ++ p :: new ++ ts2) = (if f p then 1 else 0) + count f new + count f (ts1 ++ ts2).
Proof. rewrite !count_app, count_cons, count_app. lia. Qed.

Lemma has_count f ts : has f ts <-> 0 < count f ts.
Proof.
  induction ts as [|p ts IH]; [split; [by intros ?%has_nil|unfold count; simpl; lia]|].
  rewrite has_cons, count_cons, IH. destruct (f p); intuition lia.
Qed.

Lemma no_count f ts : count f ts = 0 -> Forall (λ p, f p = false) ts.
Proof.
  intros E. apply Forall_forall. intros p Hp. destruct (f p) eqn:Ep; [|done].
  assert (0 < count f ts) by (apply has_count; by exists p). lia.
Qed.

Lemma Forall_middle (P : A -> Prop) ts1 p ts2 : Forall P (ts1 ++ p :: ts2) <-> P p /\ Forall P (ts1 ++ ts2).
Proof. rewrite !Forall_app, Forall_cons. tauto. Qed.

Lemma Forall_spawn (P : A -> Prop) ts1 p new ts2 :
  Forall P (ts1 ++ p :: new ++ ts2) <-> P p /\ Forall P new /\ Forall P (ts1 ++ ts2).
Proof. rewrite !Forall_app, Forall_cons, Forall_app. tauto. Qed.

Lemma middle_singleton ts1 (p q : A) ts2 : ts1 ++ p :: ts2 = [q] -> ts1 = [] /\ ts2 = [] /\ p = q.
Proof. intros E. apply app_singleton in E as [ [-> E]|[-> E] ]; by simplify_eq. Qed.
End threads.
Arguments count {A} f ts : simpl never.

(** ** Numbers as texts

    With the [Countable] instances this encodes any record as a 7-bit text; the
    concrete encodings that instantiate the wire formats use it. *)
Fixpoint bits_of (p : positive) : string :=
  match p with xH => "" | xO p => String "0" (bits_of p) | xI p => String "1" (bits_of p) end.

Fixpoint of_bits (s : string) : positive :=
  match s with
  | EmptyString => xH
  | String a s => if decide (a = "1"%char) then xI (of_bits s) else xO (of_bits s)
  end.

Lemma of_bits_of p : of_bits (bits_of p) = p.
Proof. induction p; simpl; by f_equal. Qed.
