(* ===== verification/Partition.v ===== *)
(** * Partitions (types/partition.go, types/labels.go)

    The unit of assignment: its identity ([CanonicalID]), its order
    ([Compare]), its validation, the digest of a partition set, and the
    label-merging primitive. The xxh3 hash is third-party code and enters as
    the interface [Xxh3]. *)
From S2P Require Import Prelude.

(** The functions of github.com/zeebo/xxh3 the code calls. [Sum64] is the value
    of a streaming hasher after the given bytes were written to it. *)
Class Xxh3 := {
  HashString : string -> Z;
  HashStringSeed : string -> Z -> Z;
  HashSeed : string -> Z -> Z;
  Sum64 : string -> Z;
}.

Record Partition := mkPartition {
  Keys : list string;
  Weight : Z;
  Label : string;
}.

#[export] Instance Partition_eq_dec : EqDecision Partition.
Proof. solve_decision. Defined.

#[export] Instance Partition_inhabited : Inhabited Partition :=
  populate (mkPartition [] 0 "").

(** ** Validation *)

Inductive part_err :=
| ErrNoKeys
| ErrEmptyKey
| ErrKeyDot (index : nat)
| ErrKeyWhitespace (index : nat)
| ErrLabelTooLong
| ErrLabelDot
| ErrLabelWhitespace.

#[export] Instance part_err_eq_dec : EqDecision part_err.
Proof. solve_decision. Defined.

Definition whitespace : list ascii := [" "; "009"; "010"; "013"]%char.

Definition ValidateLabel (s : string) : option part_err :=
  if decide (64 < String.length s) then Some ErrLabelTooLong
  else if contains_char "." s then Some ErrLabelDot
  else if contains_any whitespace s then Some ErrLabelWhitespace
  else None.

Fixpoint validate_keys (i : nat) (ks : list string) : option part_err :=
  match ks with
  | [] => None
  | key :: ks' =>
      if decide (key = "") then Some ErrEmptyKey
      else if contains_char "." key then Some (ErrKeyDot i)
      else if contains_any whitespace key then Some (ErrKeyWhitespace i)
      else validate_keys (S i) ks'
  end.

Definition Validate (p : Partition) : option part_err :=
  if decide (length (Keys p) = 0) then Some ErrNoKeys
  else match validate_keys 0 (Keys p) with
       | Some e => Some e
       | None => ValidateLabel (Label p)
       end.

(** The key tuples of a list of partitions. *)
Definition keys_of (ps : list Partition) : list (list string) := Keys <$> ps.

(** ** Identifiers *)

Definition SubjectKey (p : Partition) : string :=
  if decide (length (Keys p) = 0) then "" else String.concat "." (Keys p).

Definition ID (p : Partition) : string :=
  if decide (length (Keys p) = 0) then "" else String.concat "-" (Keys p).

(** The builder loop of [CanonicalID]: per key ["<len>:<key bytes>"], with a
    ['/'] before every key but the first. *)
Fixpoint canonical_loop (i : nat) (ks : list string) : string :=
  match ks with
  | [] => ""
  | k :: ks' =>
      (if decide (0 < i) then "/" else "") +:+
      (pretty (String.length k) +:+ ":" +:+ k) +:+ canonical_loop (S i) ks'
  end.

Definition CanonicalID (p : Partition) : string :=
  if decide (length (Keys p) = 0) then "" else canonical_loop 0 (Keys p).

Inductive set_err :=
| InvalidAt (index : nat) (e : part_err)
| DuplicateAt (index : nat) (cid : string).

Fixpoint validate_from (i : nat) (seen : gset string) (ps : list Partition) : option set_err :=
  match ps with
  | [] => None
  | p :: ps' =>
      match Validate p with
      | Some e => Some (InvalidAt i e)
      | None =>
          let cid := CanonicalID p in
          if decide (cid ∈ seen) then Some (DuplicateAt i cid)
          else validate_from (S i) ({[cid]} ∪ seen) ps'
      end
  end.

Definition ValidatePartitions (ps : list Partition) : option set_err := validate_from 0 ∅ ps.

(** ** Order *)

Fixpoint compare_keys (a b : list string) : Z :=
  match a, b with
  | x :: a', y :: b' =>
      if decide (x = y) then compare_keys a' b'
      else if String.ltb x y then (-1)%Z else 1%Z
  | [], [] => 0%Z
  | [], _ => (-1)%Z
  | _, [] => 1%Z
  end.

Definition Compare (p q : Partition) : Z := compare_keys (Keys p) (Keys q).

(** ** Hashes and digests *)

Section hashing.
Context `{Xxh3}.

Definition HashID (p : Partition) : Z :=
  match Keys p with
  | [] => 0%Z
  | k :: ks => fold_left (λ h k, HashStringSeed k h) ks (HashString k)
  end.

Definition HashIDSeed (p : Partition) (seed : Z) : Z :=
  match Keys p with
  | [] => 0%Z
  | k :: ks =>
      fold_left (λ h k, HashStringSeed k h) ks
        (if decide (seed = 0%Z) then HashString k else HashStringSeed k seed)
  end.

(** The bytes written to the streaming hasher for a list of ids. *)
Fixpoint digest_stream (i : nat) (ids : list string) : string :=
  match ids with
  | [] => ""
  | id :: ids' => (if decide (0 < i) then String "010" "" else "") +:+ id +:+ digest_stream (S i) ids'
  end.

Definition digest_ids (parts : list Partition) : list string :=
  sorted_set (CanonicalID <$> parts).

Definition PartitionSetDigest (parts : list Partition) : Z :=
  if decide (length parts = 0) then 0%Z
  else Sum64 (digest_stream 0 (digest_ids parts)).
End hashing.

(** ** Identity: [CanonicalID] is injective on key tuples *)

Lemma pretty_N_go_char c x s :
  (forall d, pretty_N_char d <> c) ->
  contains_char c s = false -> contains_char c (pretty_N_go x s) = false.
Proof.
  intros Hc. revert s. induction (N.lt_wf_0 x) as [x _ IH]; intros s Hs.
  assert (x = 0 ∨ 0 < x)%N as [->|?] by lia; [by rewrite pretty_N_go_0|].
  rewrite pretty_N_go_step by done. apply IH; [by apply N.div_lt|].
  simpl. rewrite bool_decide_false; [done|]. apply Hc.
Qed.

(** Decimal numerals contain digits only. *)
Lemma pretty_nat_char c (n : nat) :
  (forall d, pretty_N_char d <> c) -> contains_char c (pretty n) = false.
Proof.
  intros Hc. unfold pretty, pretty_nat, pretty, pretty_N. case_decide.
  - simpl. rewrite bool_decide_false; [done|]. apply (Hc 0%N).
  - by apply pretty_N_go_char.
Qed.

Lemma colon_not_digit d : pretty_N_char d <> ":"%char.
Proof. unfold pretty_N_char. repeat case_match; done. Qed.

Lemma newline_not_digit d : pretty_N_char d <> "010"%char.
Proof. unfold pretty_N_char. repeat case_match; done. Qed.

(** What may follow a canonical id in a digest stream. *)
Definition stream_stop (r : string) : Prop := r = "" \/ exists r', r = String "010" r'.

Lemma key_head_not_stop (n : nat) r : ~ stream_stop (pretty n +:+ ":" +:+ r).
Proof.
  pose proof (pretty_nat_char "010" n newline_not_digit) as H.
  destruct (pretty n) as [|a s]; rewrite ?string_app_cons.
  - intros [?|[r' ?]]; done.
  - simpl in H. intros [?|[r' E]]; [done|]. injection E as -> _. by rewrite bool_decide_true in H.
Qed.

Lemma canonical_loop_inj i ks1 ks2 r1 r2 :
  stream_stop r1 -> stream_stop r2 ->
  canonical_loop i ks1 +:+ r1 = canonical_loop i ks2 +:+ r2 -> ks1 = ks2 /\ r1 = r2.
Proof.
  intros S1 S2. revert i ks2. induction ks1 as [|k1 ks1 IH]; intros i [|k2 ks2]; [done| | |].
  - simpl. rewrite !string_app_assoc, string_app_nil_l. intros ->. exfalso. revert S1.
    case_decide; [by intros [?|[? ?]]|]. apply key_head_not_stop.
  - simpl. rewrite !string_app_assoc, string_app_nil_l. intros <-. exfalso. revert S2.
    case_decide; [by intros [?|[? ?]]|]. apply key_head_not_stop.
  - simpl. rewrite !string_app_assoc. intros E.
    apply (inj (String.app _)) in E.
    rewrite !string_app_cons, !string_app_nil_l in E.
    apply string_app_inj_sep in E as [EL E];
      [|by apply pretty_nat_char, colon_not_digit..].
    apply (inj pretty) in EL. apply string_app_inj_length in E as [-> E]; [|done].
    apply IH in E as [-> ->]. done.
Qed.

Lemma CanonicalID_loop p : CanonicalID p = canonical_loop 0 (Keys p).
Proof. unfold CanonicalID. case_decide as E; [|done]. by destruct (Keys p). Qed.

Lemma CanonicalID_inj p q : CanonicalID p = CanonicalID q <-> Keys p = Keys q.
Proof.
  rewrite !CanonicalID_loop. split; [|by intros ->].
  intros E. apply (canonical_loop_inj 0 _ _ "" ""); [by left|by left|].
  by rewrite !string_app_nil_r.
Qed.

Lemma digest_stream_stop i ids : stream_stop (digest_stream (S i) ids).
Proof. destruct ids; simpl; [by left|]. right. eauto. Qed.

(** The digest preimage determines the list of ids it was built from. *)
Lemma digest_stream_inj i (l1 l2 : list Partition) :
  (l1 = [] <-> l2 = []) \/ 0 < i ->
  digest_stream i (CanonicalID <$> l1) = digest_stream i (CanonicalID <$> l2) ->
  CanonicalID <$> l1 = CanonicalID <$> l2.
Proof.
  revert i l2. induction l1 as [|p1 l1 IH]; intros i [|p2 l2] Hi; simpl; [done| | |].
  - destruct Hi as [Hi|Hi]; [destruct Hi as [Hi _]; by specialize (Hi eq_refl)|].
    rewrite decide_True by done. done.
  - destruct Hi as [Hi|Hi]; [destruct Hi as [_ Hi]; by specialize (Hi eq_refl)|].
    rewrite decide_True by done. done.
  - rewrite !CanonicalID_loop. intros E. apply (inj (String.app _)) in E.
    apply canonical_loop_inj in E as [-> E]; [|apply digest_stream_stop..].
    f_equal. apply (IH (S i)); [right; lia|done].
Qed.

(** ** Order *)

Lemma compare_keys_eq a b : compare_keys a b = 0%Z <-> a = b.
Proof.
  revert b. induction a as [|x a IH]; intros [|y b]; simpl; try done.
  case_decide as E; subst; [rewrite IH; split; [by intros ->|by intros [= ->]]|].
  split; [by case_match|]. by intros [= ??].
Qed.

Lemma compare_keys_antisym a b : compare_keys b a = (- compare_keys a b)%Z.
Proof.
  revert b. induction a as [|x a IH]; intros [|y b]; simpl; try done.
  destruct (decide (x = y)) as [->|N]; [rewrite decide_True by done; apply IH|].
  rewrite decide_False by done.
  destruct (String.ltb x y) eqn:E1, (String.ltb y x) eqn:E2; try done.
  - apply string_ltb_asym in E1. congruence.
  - apply string_ltb_false in E1 as [|]; congruence.
Qed.

Lemma compare_keys_lt_trans a b c :
  (compare_keys a b < 0)%Z -> (compare_keys b c < 0)%Z -> (compare_keys a c < 0)%Z.
Proof.
  revert b c. induction a as [|x a IH]; intros [|y b] [|z c]; simpl; try done.
  destruct (decide (x = y)) as [->|N1]; [case_decide; eauto|].
  destruct (decide (y = z)) as [->|N2]; [rewrite decide_False by done; done|].
  destruct (String.ltb x y) eqn:E1; [|done]. destruct (String.ltb y z) eqn:E2; [|done].
  pose proof (string_ltb_trans _ _ _ E1 E2) as E3. intros _ _.
  rewrite decide_False; [by rewrite E3|]. intros ->.
  apply string_ltb_asym in E1. congruence.
Qed.

Lemma Compare_order : cmp_order Compare.
Proof.
  unfold Compare. split.
  - intros x y. rewrite (compare_keys_antisym (Keys x)). lia.
  - intros x y z H1 H2.
    destruct (decide (compare_keys (Keys x) (Keys y) = 0%Z)) as [E1|N1].
    { apply compare_keys_eq in E1. by rewrite E1. }
    destruct (decide (compare_keys (Keys y) (Keys z) = 0%Z)) as [E2|N2].
    { apply compare_keys_eq in E2. by rewrite <- E2. }
    pose proof (compare_keys_lt_trans (Keys x) (Keys y) (Keys z)). lia.
Qed.

(** The three notions of partition identity agree: the canonical id, the
    order and the key tuple identify the same partitions (labels and weights
    never take part), so a canonical id can stand for a key tuple. *)
Theorem partition_identity (p q : Partition) :
  (CanonicalID p = CanonicalID q <-> Keys p = Keys q) /\
  (Compare p q = 0%Z <-> CanonicalID p = CanonicalID q) /\
  (Compare p q < 0 <-> 0 < Compare q p)%Z.
Proof.
  split_and!; [apply CanonicalID_inj| |apply Compare_order].
  rewrite CanonicalID_inj. apply compare_keys_eq.
Qed.

(** ** Set digest *)

Lemma digest_ids_nil parts : digest_ids parts = [] <-> parts = [].
Proof.
  unfold digest_ids. split; [|by intros ->]. intros E. destruct parts as [|p parts]; [done|].
  assert (CanonicalID p ∈ sorted_set (CanonicalID <$> p :: parts)) as H.
  { apply elem_of_sorted_set. simpl. left. }
  rewrite E in H. by apply not_elem_of_nil in H.
Qed.

(** The ids of a digest are themselves canonical ids of partitions. *)
Lemma digest_ids_canonical parts :
  exists qs, digest_ids parts = CanonicalID <$> qs.
Proof.
  assert (Forall (λ id, exists q, id = CanonicalID q) (digest_ids parts)) as H.
  { apply Forall_forall. intros id. unfold digest_ids. rewrite elem_of_sorted_set.
    rewrite list_elem_of_fmap. intros (q & -> & _). eauto. }
  induction H as [|id ids [q ->] _ [qs ->]]; [by exists []|by exists (q :: qs)].
Qed.

Lemma digest_preimage_ids ps1 ps2 :
  ps1 <> [] -> ps2 <> [] ->
  digest_stream 0 (digest_ids ps1) = digest_stream 0 (digest_ids ps2) ->
  digest_ids ps1 = digest_ids ps2.
Proof.
  intros N1 N2 E. pose proof (digest_ids_nil ps1) as D1. pose proof (digest_ids_nil ps2) as D2.
  destruct (digest_ids_canonical ps1) as [q1 E1], (digest_ids_canonical ps2) as [q2 E2].
  rewrite E1 in *. rewrite E2 in *. apply (digest_stream_inj 0); [|done].
  left. destruct q1, q2; naive_solver.
Qed.

Lemma digest_ids_ext ps1 ps2 :
  digest_ids ps1 = digest_ids ps2 <->
  (forall ks, ks ∈ keys_of ps1 <-> ks ∈ keys_of ps2).
Proof.
  unfold digest_ids. rewrite sorted_set_eq.
  assert (forall (ps : list Partition) p, CanonicalID p ∈ CanonicalID <$> ps <-> Keys p ∈ keys_of ps) as K.
  { intros ps p. unfold keys_of. rewrite !list_elem_of_fmap. split; intros (q & E & Hq); exists q.
    - by rewrite <- CanonicalID_inj.
    - by rewrite CanonicalID_inj. }
  split.
  - intros H ks. pose proof (K ps1 (mkPartition ks 0 "")). pose proof (K ps2 (mkPartition ks 0 "")).
    specialize (H (CanonicalID (mkPartition ks 0 ""))). simpl in *. tauto.
  - intros H id. assert (forall ps : list Partition, id ∈ CanonicalID <$> ps -> exists p, id = CanonicalID p) as C.
    { intros ps. rewrite list_elem_of_fmap. naive_solver. }
    split; intros Hin; destruct (C _ Hin) as [p ->]; apply K, H, K; done.
Qed.

(** The set digest identifies a partition set: it ignores order, duplicates,
    weights and labels, and it separates two non-empty sets of key tuples
    unless xxh3 collides on their two preimages. *)
Theorem set_digest_iff `{Xxh3} (ps1 ps2 : list Partition)
    (N1 : ps1 <> []) (N2 : ps2 <> [])
    (no_collision : Sum64 (digest_stream 0 (digest_ids ps1)) = Sum64 (digest_stream 0 (digest_ids ps2)) ->
                    digest_stream 0 (digest_ids ps1) = digest_stream 0 (digest_ids ps2)) :
  PartitionSetDigest ps1 = PartitionSetDigest ps2 <->
  (forall ks, ks ∈ keys_of ps1 <-> ks ∈ keys_of ps2).
Proof.
  rewrite <- digest_ids_ext. unfold PartitionSetDigest.
  rewrite !decide_False by by rewrite length_zero_iff_nil. split.
  - intros E. by apply digest_preimage_ids, no_collision.
  - by intros ->.
Qed.

(** A concrete polynomial hash, to run the definitions on examples. *)
Fixpoint poly_hash (h : Z) (s : string) : Z :=
  match s with
  | EmptyString => h
  | String a s' => poly_hash ((h * 131 + Z.of_N (N_of_ascii a) + 7) `mod` 2 ^ 64)%Z s'
  end.

Definition toy_xxh3 : Xxh3 := {|
  HashString s := poly_hash 0 s;
  HashStringSeed s h := poly_hash h s;
  HashSeed s h := poly_hash h s;
  Sum64 s := poly_hash 0 s;
|}.

Lemma set_digest_iff_witness :
  let ps1 := [mkPartition ["a-b"; "c"] 3 ""; mkPartition ["d"] 0 "vip"] in
  let ps2 := [mkPartition ["d"] 1 ""; mkPartition ["a-b"; "c"] 0 ""; mkPartition ["d"] 0 ""] in
  @PartitionSetDigest toy_xxh3 ps1 = @PartitionSetDigest toy_xxh3 ps2.
Proof.
  intros ps1 ps2. apply (@set_digest_iff toy_xxh3 ps1 ps2); [done|done| |].
  - intros _. vm_compute. reflexivity.
  - intros ks. unfold ps1, ps2, keys_of. set_solver.
Defined.

(** ** Validation *)

Definition valid_key (k : string) : Prop :=
  k <> "" /\ contains_char "." k = false /\ contains_any whitespace k = false.

Lemma validate_keys_ok i ks : validate_keys i ks = None <-> Forall valid_key ks.
Proof.
  revert i. induction ks as [|k ks IH]; intros i; simpl; [done|].
  rewrite Forall_cons. unfold valid_key at 1. case_decide; [split; [done|]; tauto|].
  destruct (contains_char "." k); [split; [done|]; by intros [(? & ? & ?) ?]|].
  destruct (contains_any whitespace k); [split; [done|]; by intros [(? & ? & ?) ?]|].
  rewrite IH. tauto.
Qed.

Lemma Validate_ok p :
  Validate p = None <->
  Keys p <> [] /\ Forall valid_key (Keys p) /\ ValidateLabel (Label p) = None.
Proof.
  unfold Validate. case_decide as E.
  - rewrite length_zero_iff_nil in E. naive_solver.
  - rewrite length_zero_iff_nil in E. rewrite <- (validate_keys_ok 0).
    destruct (validate_keys 0 (Keys p)); naive_solver.
Qed.

Lemma validate_from_ok i seen ps :
  validate_from i seen ps = None <->
  Forall (λ p, Validate p = None) ps /\ NoDup (CanonicalID <$> ps) /\
  Forall (λ p, CanonicalID p ∉ seen) ps.
Proof.
  revert i seen. induction ps as [|p ps IH]; intros i seen; simpl.
  { repeat split; try constructor. }
  rewrite !Forall_cons, NoDup_cons. destruct (Validate p) eqn:EV; [naive_solver|].
  case_decide as ED; [naive_solver|]. rewrite IH.
  rewrite !Forall_forall, list_elem_of_fmap. set_solver.
Qed.

(** The first problem of a list, if [validate_from] reports one: everything
    before it is fine. *)
Lemma validate_from_first i seen ps e :
  validate_from i seen ps = Some e ->
  exists l p r, ps = l ++ p :: r /\ validate_from i seen l = None /\
    match e with
    | InvalidAt j pe => j = i + length l /\ Validate p = Some pe
    | DuplicateAt j cid => j = i + length l /\ Validate p = None /\ cid = CanonicalID p /\
                           (cid ∈ seen \/ cid ∈ CanonicalID <$> l)
    end.
Proof.
  revert i seen. induction ps as [|p ps IH]; intros i seen; simpl; [done|].
  destruct (Validate p) eqn:EV.
  { intros [= <-]. exists [], p, ps. simpl. repeat split; [lia|done]. }
  case_decide as ED.
  { intros [= <-]. exists [], p, ps. simpl. repeat split; [lia|done|by left]. }
  intros HE. destruct (IH _ _ HE) as (l & q & r & -> & HL & Hm).
  exists (p :: l), q, r. simpl. rewrite EV, decide_False by done. repeat split; [done|].
  destruct e; destruct_and?; repeat split; try done; try lia. set_solver.
Qed.

#[export] Instance canonical_loop_Inj i : Inj (=) (=) (canonical_loop i).
Proof.
  intros ks1 ks2 E. apply (canonical_loop_inj i _ _ "" ""); [by left|by left|].
  by rewrite !string_app_nil_r.
Qed.

Lemma canonical_ids ps : CanonicalID <$> ps = canonical_loop 0 <$> keys_of ps.
Proof.
  unfold keys_of. rewrite <- list_fmap_compose. apply list_fmap_ext. intros i p _.
  apply CanonicalID_loop.
Qed.

Lemma NoDup_canonical_keys ps : NoDup (CanonicalID <$> ps) <-> NoDup (keys_of ps).
Proof. rewrite canonical_ids. apply (NoDup_fmap (canonical_loop 0)). Qed.

(** [ValidatePartitions] accepts exactly the sets of individually valid
    partitions with pairwise distinct key tuples, and otherwise reports the
    first index at which the accepted prefix breaks, with the reason. *)
Theorem ValidatePartitions_first_problem (ps : list Partition) :
  match ValidatePartitions ps with
  | None => Forall (λ p, Validate p = None) ps /\ NoDup (keys_of ps)
  | Some (InvalidAt i e) =>
      ValidatePartitions (take i ps) = None /\
      exists p, ps !! i = Some p /\ Validate p = Some e
  | Some (DuplicateAt i cid) =>
      ValidatePartitions (take i ps) = None /\
      exists p q j, j < i /\ ps !! j = Some q /\ ps !! i = Some p /\
                    Keys q = Keys p /\ Validate p = None
  end.
Proof.
  unfold ValidatePartitions. destruct (validate_from 0 ∅ ps) as [e|] eqn:E.
  - apply validate_from_first in E as (l & p & r & -> & HL & He).
    destruct e as [j pe|j cid]; simpl in He; destruct_and!; subst; rewrite take_app_length.
    + split; [done|]. exists p. by rewrite lookup_app_r, Nat.sub_diag by done.
    + split; [done|]. destruct_or!; [set_solver|].
      match goal with H : _ ∈ _ <$> l |- _ => apply list_elem_of_fmap in H as (q & Eq & Hq) end.
      apply list_elem_of_lookup in Hq as [j Hj]. exists p, q, j.
      apply CanonicalID_inj in Eq. pose proof (lookup_lt_Some _ _ _ Hj).
      rewrite lookup_app_l, lookup_app_r, Nat.sub_diag by lia. done.
  - apply validate_from_ok in E as (HV & HN & _). by rewrite <- NoDup_canonical_keys.
Qed.

(** ** MergeLabels (types/labels.go) *)

Inductive merge_err := ErrIDCollision (id : string) (n : nat).

(** [idx[id] = append(idx[id], i)] over the partitions in order. *)
Fixpoint index_by_id (i : nat) (ps : list Partition) (idx : gmap string (list nat)) :
    gmap string (list nat) :=
  match ps with
  | [] => idx
  | p :: ps' => index_by_id (S i) ps' (map_append (ID p) i idx)
  end.

(** The first pass: refuse an intent whose id matches several partitions,
    collect the ids that match none. *)
Fixpoint classify_intents (idx : gmap string (list nat)) (ids : list string)
    (unmatched : list string) : res merge_err (list string) :=
  match ids with
  | [] => Ok unmatched
  | id :: ids' =>
      match length (idx !!! id) with
      | 0 => classify_intents idx ids' (unmatched ++ [id])
      | 1 => classify_intents idx ids' unmatched
      | n => Err (ErrIDCollision id n)
      end
  end.

Definition set_label (v : option string) (p : Partition) : Partition :=
  mkPartition (Keys p) (Weight p) (match v with None => "" | Some s => s end).

(** The second pass: apply each unambiguous intent to its one partition. *)
Definition apply_intent (idx : gmap string (list nat)) (result : list Partition)
    (intent : string * option string) : list Partition :=
  match idx !!! (intent.1) with
  | [i] => alter (set_label intent.2) i result
  | _ => result
  end.

Definition MergeLabels (current : list Partition) (intents : gmap string (option string)) :
    res merge_err (list Partition * list string) :=
  let idx := index_by_id 0 current ∅ in
  match classify_intents idx (map_to_list intents).*1 [] with
  | Err e => Err e
  | Ok unmatched =>
      let result := fold_left (apply_intent idx) (map_to_list intents) current in
      Ok (result, sort_strings unmatched)
  end.

(** The indices, from [i] on, of the partitions of [ps] whose [ID] is [id]. *)
Fixpoint positions (id : string) (i : nat) (ps : list Partition) : list nat :=
  match ps with
  | [] => []
  | p :: ps' => (if decide (ID p = id) then [i] else []) ++ positions id (S i) ps'
  end.

Lemma index_by_id_lookup id i ps idx :
  index_by_id i ps idx !!! id = (idx !!! id) ++ positions id i ps.
Proof.
  revert i idx. induction ps as [|p ps IH]; intros i idx; simpl; [by rewrite app_nil_r|].
  by rewrite IH, lookup_total_append, <- app_assoc.
Qed.

Lemma elem_of_positions id i ps k :
  k ∈ positions id i ps <-> exists p, i <= k /\ ps !! (k - i) = Some p /\ ID p = id.
Proof.
  revert i. induction ps as [|p ps IH]; intros i; simpl.
  { setoid_rewrite lookup_nil. split; [by intros ?%not_elem_of_nil|naive_solver]. }
  rewrite elem_of_app, IH. split.
  - intros [H|(q & Hk & Hq & E)].
    + case_decide; [|by apply not_elem_of_nil in H].
      apply list_elem_of_singleton in H as ->. exists p. by rewrite Nat.sub_diag.
    + exists q. split_and!; [lia| |done]. by replace (k - i) with (S (k - S i)) by lia.
  - intros (q & Hk & Hq & E). destruct (decide (k = i)) as [->|N].
    + rewrite Nat.sub_diag in Hq. injection Hq as ->. left.
      rewrite decide_True by done. by apply list_elem_of_singleton.
    + right. exists q. split_and!; [lia| |done].
      by replace (k - i) with (S (k - S i)) in Hq by lia.
Qed.

Lemma classify_intents_ok idx ids un un' :
  classify_intents idx ids un = Ok un' ->
  (forall id, id ∈ ids -> length (idx !!! id) <= 1) /\
  (forall id, id ∈ un' <-> id ∈ un \/ (id ∈ ids /\ idx !!! id = [])).
Proof.
  revert un. induction ids as [|id ids IH]; intros un; simpl.
  { intros [= <-]. set_solver. }
  destruct (idx !!! id) as [|k [|]] eqn:E; simpl; [| |done]; intros (HL & HU)%IH; split.
  - intros id' [->|]%elem_of_cons; [rewrite E; simpl; lia|auto].
  - intros id'. rewrite HU, elem_of_app, !elem_of_cons, elem_of_nil. naive_solver.
  - intros id' [->|]%elem_of_cons; [rewrite E; simpl; lia|auto].
  - intros id'. rewrite HU, elem_of_cons. split; [tauto|].
    intros [?|[[->|?] E']]; [tauto|congruence|tauto].
Qed.

Lemma classify_intents_err idx ids un id n :
  classify_intents idx ids un = Err (ErrIDCollision id n) ->
  id ∈ ids /\ length (idx !!! id) = n /\ 1 < n.
Proof.
  revert un. induction ids as [|id' ids IH]; intros un; simpl; [done|].
  destruct (idx !!! id') as [|k [|k' ks]] eqn:E; simpl.
  - intros H%IH. set_solver.
  - intros H%IH. set_solver.
  - intros [= -> <-]. rewrite E. simpl. split_and!; [left|done|lia].
Qed.

Section apply_intents.
Context (idx : gmap string (list nat)) (j : nat).
Implicit Types L : list (string * option string).

Lemma apply_intents_other L cur :
  (forall id v, (id, v) ∈ L -> idx !!! id <> [j]) ->
  fold_left (apply_intent idx) L cur !! j = cur !! j.
Proof.
  revert cur. induction L as [|[id v] L IH]; intros cur HL; simpl; [done|].
  rewrite IH by (intros id' v' H'; apply (HL id' v'); by right).
  unfold apply_intent. simpl. destruct (idx !!! id) as [|k [|]] eqn:E; [done| |done].
  apply list_lookup_alter_ne. intros ->. by apply (HL id v); [left|].
Qed.

Lemma apply_intents_hit L cur id v :
  NoDup L.*1 -> (id, v) ∈ L -> idx !!! id = [j] ->
  (forall id', idx !!! id' = [j] -> id' = id) ->
  fold_left (apply_intent idx) L cur !! j = set_label v <$> cur !! j.
Proof.
  intros HN Hin Hj Hu. revert cur HN Hin.
  induction L as [|[id' v'] L IH]; intros cur HN Hin; [by apply not_elem_of_nil in Hin|].
  apply NoDup_cons in HN as [Hf HN]. simpl in Hf |- *. apply elem_of_cons in Hin as [[= <- <-]|Hin].
  - rewrite apply_intents_other.
    + unfold apply_intent. simpl. rewrite Hj. apply list_lookup_alter_eq.
    + intros id'' v'' H'' E. apply Hu in E as ->. apply Hf. apply list_elem_of_fmap. by exists (id, v'').
  - rewrite IH by done. f_equal. unfold apply_intent. simpl.
    destruct (idx !!! id') as [|k [|]] eqn:E; [done| |done].
    apply list_lookup_alter_ne. intros ->. apply Hu in E as ->.
    apply Hf. apply list_elem_of_fmap. by exists (id, v).
Qed.
End apply_intents.

Lemma index_current_lookup id current :
  index_by_id 0 current ∅ !!! id = positions id 0 current.
Proof. by rewrite index_by_id_lookup, lookup_total_empty. Qed.

Lemma positions_singleton id ps j :
  positions id 0 ps = [j] -> exists p, ps !! j = Some p /\ ID p = id.
Proof.
  intros E. assert (j ∈ positions id 0 ps) as H by (rewrite E; by apply list_elem_of_singleton).
  apply elem_of_positions in H as (p & _ & Hp & <-). rewrite Nat.sub_0_r in Hp. eauto.
Qed.

Lemma positions_unique id ps j p :
  length (positions id 0 ps) <= 1 -> ps !! j = Some p -> ID p = id -> positions id 0 ps = [j].
Proof.
  intros HL Hp E. assert (j ∈ positions id 0 ps) as H.
  { apply elem_of_positions. exists p. rewrite Nat.sub_0_r. split_and!; [lia|done..]. }
  destruct (positions id 0 ps) as [|k [|]]; [by apply not_elem_of_nil in H| |simpl in HL; lia].
  by apply list_elem_of_singleton in H as ->.
Qed.

(** [MergeLabels] relabels exactly the targeted partitions: a successful
    merge keeps every partition at its place with its keys and weight, takes
    the label from its intent (a nil intent clears it) or keeps it when no
    intent names its id, and returns the sorted ids that matched nothing. It
    fails exactly on an intent whose id several partitions share. *)
Theorem MergeLabels_relabels (current : list Partition) (intents : gmap string (option string)) :
  match MergeLabels current intents with
  | Ok (result, unmatched) =>
      (forall i, result !! i =
         (λ p, match intents !! ID p with Some v => set_label v p | None => p end) <$> current !! i) /\
      Sorted String.le unmatched /\
      (forall id, id ∈ unmatched <-> is_Some (intents !! id) /\ id ∉ ID <$> current)
  | Err (ErrIDCollision id n) =>
      is_Some (intents !! id) /\ 1 < n /\ length (positions id 0 current) = n
  end.
Proof.
  unfold MergeLabels. set (idx := index_by_id 0 current ∅).
  assert (forall id, idx !!! id = positions id 0 current) as HI by apply (λ id, index_current_lookup id current).
  assert (forall id, id ∈ (map_to_list intents).*1 <-> is_Some (intents !! id)) as HD.
  { intros id. rewrite list_elem_of_fmap. split.
    - intros ([id' v] & -> & H%elem_of_map_to_list). simpl. eauto.
    - intros [v H%elem_of_map_to_list]. by exists (id, v). }
  destruct (classify_intents idx _ []) as [un|[id n]] eqn:EC.
  - apply classify_intents_ok in EC as [HL HU]. split_and!.
    + intros i. destruct (current !! i) as [p|] eqn:Ep; simpl.
      * destruct (intents !! ID p) as [v|] eqn:Ev.
        -- rewrite (apply_intents_hit idx i _ current (ID p) v), Ep; [done|apply NoDup_fst_map_to_list| | |].
           ++ by apply elem_of_map_to_list.
           ++ rewrite HI. apply (positions_unique _ _ i p); [|done..]. rewrite <- HI. apply HL, HD. eauto.
           ++ intros id' E. rewrite HI in E. apply positions_singleton in E as (q & Eq & <-). congruence.
        -- rewrite apply_intents_other; [done|]. intros id v Hin%elem_of_map_to_list E.
           rewrite HI in E. apply positions_singleton in E as (q & Eq & <-). congruence.
      * rewrite apply_intents_other; [done|]. intros id v _ E.
        rewrite HI in E. apply positions_singleton in E as (q & Eq & _). congruence.
    + apply sort_strings_sorted.
    + intros id. rewrite elem_of_sort_strings, HU, HD, HI. split.
      * intros [?%not_elem_of_nil|[Hs Hp]]; [done|]. split; [done|].
        rewrite list_elem_of_fmap. intros (p & -> & [j Hj]%list_elem_of_lookup).
        assert (j ∈ positions (ID p) 0 current) as HH.
        { apply elem_of_positions. exists p. rewrite Nat.sub_0_r. split_and!; [lia|done..]. }
        rewrite Hp in HH. by apply not_elem_of_nil in HH.
      * intros [Hs Hn]. right. split; [done|]. destruct (positions id 0 current) as [|k ks] eqn:E; [done|].
        exfalso. apply Hn. assert (k ∈ positions id 0 current) as HH by (rewrite E; left).
        apply elem_of_positions in HH as (p & _ & Hp & <-). apply list_elem_of_fmap.
        exists p. split; [done|]. apply list_elem_of_lookup. eauto.
  - apply classify_intents_err in EC as (Hin & Hn & Hlt). rewrite HI in Hn. by rewrite <- HD.
Qed.
