(* ===== verification/Ring.v ===== *)
(** * Consistent hash ring (internal/hash/ring.go)

    Virtual nodes sorted by hash, binary search for the clockwise successor,
    and the weight-aware variant. An index that the Go code would read out of
    range is a panic, modelled as [None]. *)
From S2P Require Import Prelude Partition.

Record virtualNode := mkNode {
  hash : Z;
  workerID : string;
  workerIdx : nat;
}.

Record Ring := mkRing {
  nodes : list virtualNode;
  workers : list string;
  seed : Z;
}.

#[export] Instance virtualNode_eq_dec : EqDecision virtualNode.
Proof. solve_decision. Defined.

(** [binary.LittleEndian.PutUint64]: the eight bytes of a [uint64]. *)
Fixpoint le_bytes (n : nat) (z : Z) : string :=
  match n with
  | 0 => ""
  | S n' => String (ascii_of_N (Z.to_N (z `mod` 256))) (le_bytes n' (z `div` 256))
  end.

(** Deduplicate workers while preserving order. *)
Fixpoint dedup_workers (seen : gset string) (ws : list string) : list string :=
  match ws with
  | [] => []
  | w :: ws' =>
      if decide (w ∈ seen) then dedup_workers seen ws'
      else w :: dedup_workers ({[w]} ∪ seen) ws'
  end.

Definition cmp_hash (a b : virtualNode) : Z :=
  if (hash a <? hash b)%Z then -1 else if (hash a >? hash b)%Z then 1 else 0.

Section ring.
Context `{Xxh3} `{SortFunc}.

Definition vnode_hash (sd : Z) (w : string) (i : nat) : Z :=
  let h := if decide (sd = 0%Z) then HashString w else HashStringSeed w sd in
  HashSeed (le_bytes 8 (Z.of_nat i)) h.

Definition addWorker (sd : Z) (w : string) (idx : nat) (virtualNodes : Z) : list virtualNode :=
  (λ i, mkNode (vnode_hash sd w i) w idx) <$> seq 0 (Z.to_nat virtualNodes).

Fixpoint add_workers (sd : Z) (virtualNodes : Z) (i : nat) (ws : list string) : list virtualNode :=
  match ws with
  | [] => []
  | w :: ws' => addWorker sd w i virtualNodes ++ add_workers sd virtualNodes (S i) ws'
  end.

Definition NewRing (ws : list string) (virtualNodesPerWorker : Z) (sd : Z) : Ring :=
  let uniq := dedup_workers ∅ ws in
  {| nodes := sort_func cmp_hash (add_workers sd virtualNodesPerWorker 0 uniq);
     workers := uniq;
     seed := sd |}.

(** [slices.BinarySearchFunc]: the loop halves [j - i], so fuel [j - i] suffices. *)
Fixpoint bsearch (fuel : nat) (ns : list virtualNode) (target : Z) (i j : nat) : nat :=
  match fuel with
  | 0 => i
  | S fuel' =>
      if decide (i < j) then
        let h := (i + j) `div` 2 in
        match ns !! h with
        | Some node =>
            if (hash node <? target)%Z then bsearch fuel' ns target (h + 1) j
            else bsearch fuel' ns target i h
        | None => i
        end
      else i
  end.

Definition BinarySearch (ns : list virtualNode) (target : Z) : nat * bool :=
  let n := length ns in
  let i := bsearch n ns target 0 n in
  (i, match ns !! i with Some node => (hash node =? target)%Z | None => false end).

Definition search_index (ns : list virtualNode) (target : Z) : nat :=
  let '(idx, found) := BinarySearch ns target in
  if negb found && bool_decide (length ns <= idx) then 0 else idx.

Definition getNodeByHash (r : Ring) (target : Z) : option string :=
  workerID <$> nodes r !! search_index (nodes r) target.

Definition ring_hash (r : Ring) (key : string) : Z :=
  if decide (seed r = 0%Z) then HashString key else HashStringSeed key (seed r).

Definition GetNode (r : Ring) (key : string) : option string :=
  if decide (length (nodes r) = 0) then Some "" else getNodeByHash r (ring_hash r key).

Definition GetNodeForPartition (r : Ring) (p : Partition) : option string :=
  if decide (length (Keys p) = 0) then Some ""
  else getNodeByHash r (HashIDSeed p (seed r)).

Definition GetNodeIndexForPartition (r : Ring) (p : Partition) : option Z :=
  if decide (length (Keys p) = 0 \/ length (nodes r) = 0) then Some (-1)%Z
  else (λ n, Z.of_nat (workerIdx n)) <$>
       nodes r !! search_index (nodes r) (HashIDSeed p (seed r)).

Definition Size (r : Ring) : nat := length (nodes r).
End ring.

(** ** Binary search finds the clockwise successor *)

(** Reference definition: the first node at or after [target] in ring order,
    wrapping around to the first node. *)
Definition successor {A} (key : A -> Z) (target : Z) (l : list A) : option A :=
  match filter (λ n, target <= key n)%Z l with
  | n :: _ => Some n
  | [] => head l
  end.

Definition by_hash (a b : virtualNode) : Prop := (hash a <= hash b)%Z.

Lemma cmp_hash_order : cmp_order cmp_hash.
Proof. unfold cmp_order, cmp_hash. split; intros; repeat case_match; lia. Qed.

Lemma cmp_hash_le a b : cmp_le cmp_hash a b <-> by_hash a b.
Proof. unfold cmp_le, cmp_hash, by_hash. repeat case_match; lia. Qed.

Lemma sorted_lookup_le (ns : list virtualNode) i j a b :
  StronglySorted by_hash ns -> ns !! i = Some a -> ns !! j = Some b -> i <= j -> (hash a <= hash b)%Z.
Proof.
  intros HS. revert i j. induction HS as [|x l HS IH HF]; intros [|i] [|j] Ha Hb Hij; simplify_eq/=;
    try lia; [|by eapply IH; eauto; lia].
  rewrite Forall_lookup in HF. by apply (HF j).
Qed.

Lemma bsearch_spec fuel ns t i j :
  StronglySorted by_hash ns -> j - i <= fuel -> i <= j <= length ns ->
  (forall m n, ns !! m = Some n -> m < i -> (hash n < t)%Z) ->
  (forall m n, ns !! m = Some n -> j <= m -> (t <= hash n)%Z) ->
  let k := bsearch fuel ns t i j in
  k <= length ns /\
  (forall m n, ns !! m = Some n -> m < k -> (hash n < t)%Z) /\
  (forall m n, ns !! m = Some n -> k <= m -> (t <= hash n)%Z).
Proof.
  intros HS. revert i j. induction fuel as [|fuel IH]; intros i j Hf Hij HL HR; cbn [bsearch].
  { assert (i = j) as -> by lia. split_and!; [lia|eauto..]. }
  case_decide as Hlt; [|assert (i = j) as -> by lia; split_and!; [lia|eauto..]].
  pose proof (Nat.div_mod_eq (i + j) 2). pose proof (Nat.mod_upper_bound (i + j) 2).
  set (h := (i + j) `div` 2) in *.
  destruct (lookup_lt_is_Some_2 ns h) as [node Hn]; [lia|]. rewrite Hn.
  destruct (Z.ltb_spec (hash node) t).
  - apply IH; [lia|lia| |done]. intros m n Hm Hmh.
    pose proof (sorted_lookup_le ns m h n node HS Hm Hn). lia.
  - apply IH; [lia|lia|done|]. intros m n Hm Hmh.
    pose proof (sorted_lookup_le ns h m node n HS Hn Hm). lia.
Qed.

Lemma filter_split {A} (P : A -> Prop) `{forall x, Decision (P x)} (l : list A) k :
  (forall m x, l !! m = Some x -> m < k -> ~ P x) ->
  (forall m x, l !! m = Some x -> k <= m -> P x) ->
  filter P l = drop k l.
Proof.
  revert k. induction l as [|a l IH]; intros k HL HR; [by rewrite drop_nil|].
  destruct k as [|k]; simpl.
  - rewrite filter_cons_True by by apply (HR 0). f_equal. rewrite <- (drop_0 l) at 2.
    apply IH; [lia|]. intros m x Hm _. apply (HR (S m)); [done|lia].
  - rewrite filter_cons_False by (apply (HL 0); [done|lia]). apply IH.
    + intros m x Hm Hk. apply (HL (S m)); [done|lia].
    + intros m x Hm Hk. apply (HR (S m)); [done|lia].
Qed.

Lemma search_index_successor ns t :
  StronglySorted by_hash ns -> ns !! search_index ns t = successor hash t ns.
Proof.
  intros HS. unfold search_index, BinarySearch.
  destruct (bsearch_spec (length ns) ns t 0 (length ns)) as (Hk & HL & HR); [done|lia|lia| | |].
  { intros; lia. }
  { intros m n Hm ?. apply lookup_lt_Some in Hm. lia. }
  set (k := bsearch (length ns) ns t 0 (length ns)) in *.
  unfold successor. rewrite (filter_split _ ns k); [| |done].
  2:{ intros m n Hm Hmk. specialize (HL m n Hm Hmk). lia. }
  destruct (ns !! k) as [node|] eqn:En.
  - pose proof (lookup_lt_Some _ _ _ En).
    rewrite bool_decide_false, andb_false_r by lia. rewrite En. by rewrite (drop_S _ _ _ En).
  - apply lookup_ge_None in En as Hge. rewrite drop_ge by done.
    rewrite bool_decide_true by done. simpl. by destruct ns.
Qed.

(** ** Ring construction *)

Record ring_wf (r : Ring) : Prop := {
  wf_sorted : StronglySorted by_hash (nodes r);
  wf_workers : NoDup (workers r);
  wf_index : forall n, n ∈ nodes r -> workers r !! workerIdx n = Some (workerID n);
}.

Lemma elem_of_dedup_workers seen ws w : w ∈ dedup_workers seen ws <-> w ∈ ws /\ w ∉ seen.
Proof.
  revert seen. induction ws as [|x ws IH]; intros seen; simpl; [set_solver|].
  destruct (decide (w = x)) as [->|]; case_decide; rewrite ?elem_of_cons, IH; set_solver.
Qed.

Lemma dedup_workers_NoDup seen ws : NoDup (dedup_workers seen ws).
Proof.
  revert seen. induction ws as [|x ws IH]; intros seen; simpl; [constructor|].
  case_decide; [done|]. constructor; [|done]. rewrite elem_of_dedup_workers. set_solver.
Qed.

Lemma dedup_workers_id seen ws :
  NoDup ws -> (forall w, w ∈ ws -> w ∉ seen) -> dedup_workers seen ws = ws.
Proof.
  revert seen. induction ws as [|x ws IH]; intros seen HN HS; simpl; [done|].
  apply NoDup_cons in HN as [Hx HN]. rewrite decide_False by (apply HS; left).
  f_equal. apply IH; [done|]. intros w Hw. specialize (HS w). set_solver.
Qed.

(** Deduplication commutes with dropping a class of workers. *)
Lemma dedup_workers_filter (P : string -> Prop) `{forall x, Decision (P x)} s1 s2 ws :
  (forall x, P x -> x ∈ s1 <-> x ∈ s2) ->
  dedup_workers s1 (filter P ws) = filter P (dedup_workers s2 ws).
Proof.
  revert s1 s2. induction ws as [|x ws IH]; intros s1 s2 HS; simpl; [done|].
  rewrite filter_cons. case_decide as HP; simpl.
  - destruct (decide (x ∈ s2)) as [Hx|Hx].
    + rewrite decide_True by by apply HS. by apply IH.
    + rewrite decide_False by by rewrite HS. rewrite filter_cons_True by done.
      f_equal. apply IH. set_solver.
  - destruct (decide (x ∈ s2)) as [Hx|Hx]; [by apply IH|].
    rewrite filter_cons_False by done. apply IH. set_solver.
Qed.

Section ring_facts.
Context `{Xxh3} `{SortFunc}.

Lemma add_workers_index sd vn i ws n :
  n ∈ add_workers sd vn i ws -> exists k, ws !! k = Some (workerID n) /\ workerIdx n = i + k.
Proof.
  revert i. induction ws as [|w ws IH]; intros i; simpl; [by intros ?%not_elem_of_nil|].
  intros [Hn|Hn]%elem_of_app.
  - unfold addWorker in Hn. apply list_elem_of_fmap in Hn as (m & -> & _). exists 0. simpl. split; [done|lia].
  - apply IH in Hn as (k & Hk & E). exists (S k). simpl. split; [done|lia].
Qed.

Lemma length_add_workers sd vn i ws :
  length (add_workers sd vn i ws) = length ws * Z.to_nat vn.
Proof.
  revert i. induction ws as [|w ws IH]; intros i; simpl; [done|].
  unfold addWorker. by rewrite length_app, length_fmap, length_seq, IH.
Qed.

Lemma NewRing_sorted ws vn sd : StronglySorted by_hash (nodes (NewRing ws vn sd)).
Proof.
  simpl. pose proof (sort_func_ssorted cmp_hash (add_workers sd vn 0 (dedup_workers ∅ ws)) cmp_hash_order) as HS.
  induction HS as [|x l HS IH HF]; constructor; [done|].
  eapply Forall_impl; [exact HF|]. intros y. apply cmp_hash_le.
Qed.

Lemma NewRing_wf ws vn sd : ring_wf (NewRing ws vn sd).
Proof.
  split; [apply NewRing_sorted|apply dedup_workers_NoDup|].
  intros n. simpl. rewrite elem_of_sort_func.
  intros (k & Hk & ->)%add_workers_index. done.
Qed.

Lemma NewRing_workers ws vn sd w : w ∈ workers (NewRing ws vn sd) <-> w ∈ ws.
Proof. simpl. rewrite elem_of_dedup_workers. set_solver. Qed.

Lemma NewRing_size ws vn sd :
  Size (NewRing ws vn sd) = length (workers (NewRing ws vn sd)) * Z.to_nat vn.
Proof. unfold Size. simpl. by rewrite length_sort_func, length_add_workers. Qed.

Lemma NewRing_nonempty ws vn sd : ws <> [] -> (0 < vn)%Z -> nodes (NewRing ws vn sd) <> [].
Proof.
  intros Hne Hvn E. pose proof (NewRing_size ws vn sd) as HS. unfold Size in HS. rewrite E in HS.
  destruct ws as [|w ws]; [done|]. assert (w ∈ workers (NewRing (w :: ws) vn sd)) as Hw.
  { apply NewRing_workers. left. }
  destruct (workers _); [by apply not_elem_of_nil in Hw|]. simpl in HS. lia.
Qed.

Lemma successor_is_Some {A} (key : A -> Z) t (l : list A) : l <> [] -> is_Some (successor key t l).
Proof. intros. unfold successor. destruct (filter _ l); [|eauto]. destruct l; [done|]. simpl. eauto. Qed.

Lemma successor_elem_of {A} (key : A -> Z) t (l : list A) n : successor key t l = Some n -> n ∈ l.
Proof.
  unfold successor. destruct (filter _ l) as [|m ms] eqn:E.
  - destruct l; [done|]. intros [= ->]. left.
  - intros [= ->]. assert (n ∈ filter (λ n, t <= key n)%Z l) as Hn by (rewrite E; left).
    by apply list_elem_of_filter in Hn as [_ ?].
Qed.

(** The owner of a position is the worker of its clockwise successor. *)
Lemma getNodeByHash_successor r t :
  ring_wf r -> getNodeByHash r t = workerID <$> successor hash t (nodes r).
Proof. intros [HS _ _]. unfold getNodeByHash. by rewrite search_index_successor. Qed.

Lemma getNodeByHash_worker r t w : ring_wf r -> getNodeByHash r t = Some w -> w ∈ workers r.
Proof.
  intros Hwf. rewrite getNodeByHash_successor by done. intros (n & Hn & ->)%fmap_Some.
  apply successor_elem_of in Hn. apply (wf_index r Hwf) in Hn.
  by eapply list_elem_of_lookup_2.
Qed.

(** The two lookups agree: the index names the worker. *)
Lemma node_index_worker r p i :
  ring_wf r -> Keys p <> [] -> nodes r <> [] ->
  GetNodeIndexForPartition r p = Some (Z.of_nat i) <->
  exists w, GetNodeForPartition r p = Some w /\ workers r !! i = Some w.
Proof.
  intros Hwf Hk Hn. unfold GetNodeIndexForPartition, GetNodeForPartition, getNodeByHash.
  rewrite !decide_False by (rewrite ?length_zero_iff_nil; tauto).
  rewrite search_index_successor by apply Hwf.
  destruct (successor_is_Some hash (HashIDSeed p (seed r)) (nodes r) Hn) as [n E].
  rewrite E. simpl. apply successor_elem_of, (wf_index r Hwf) in E. split.
  - intros [= ?]. exists (workerID n). assert (workerIdx n = i) as <- by lia. done.
  - intros (w & [= <-] & Hi). do 2 f_equal.
    by apply (NoDup_lookup _ _ _ _ (wf_workers r Hwf) E).
Qed.

Lemma ring_owner ws vn sd p :
  ws <> [] -> (0 < vn)%Z -> Keys p <> [] ->
  let r := NewRing ws vn sd in
  exists w i, GetNodeForPartition r p = Some w /\ w ∈ ws /\
    GetNodeIndexForPartition r p = Some (Z.of_nat i) /\ workers r !! i = Some w.
Proof.
  intros Hws Hvn Hk r. pose proof (NewRing_wf ws vn sd) as Hwf. fold r in Hwf.
  assert (nodes r <> []) as Hn by by apply NewRing_nonempty.
  assert (exists w, GetNodeForPartition r p = Some w /\ w ∈ workers r) as (w & Hw & Hin).
  { unfold GetNodeForPartition. rewrite decide_False by by rewrite length_zero_iff_nil.
    destruct (getNodeByHash r (HashIDSeed p (seed r))) as [w|] eqn:E.
    - exists w. eauto using getNodeByHash_worker.
    - rewrite getNodeByHash_successor in E by done.
      by destruct (successor_is_Some hash (HashIDSeed p (seed r)) (nodes r) Hn) as [? Hs]; rewrite Hs in E. }
  apply list_elem_of_lookup in Hin as [i Hi]. exists w, i. split_and!; [done| | |done].
  - apply list_elem_of_lookup_2, NewRing_workers in Hi. done.
  - apply node_index_worker; eauto.
Qed.
End ring_facts.

(** On a ring over a non-empty worker list with at least one virtual node
    each, the binary search returns for every keyed partition the worker of the
    first virtual node clockwise from its hash, that worker is one of the given
    workers, and the index lookup names the same worker; neither panics. *)
Theorem ring_lookup_clockwise `{Xxh3} `{SortFunc} ws vn sd p
    (Hws : ws <> []) (Hvn : (0 < vn)%Z) (Hk : Keys p <> []) :
  let r := NewRing ws vn sd in
  exists n i,
    successor hash (HashIDSeed p sd) (nodes r) = Some n /\
    GetNodeForPartition r p = Some (workerID n) /\
    workerID n ∈ ws /\
    GetNodeIndexForPartition r p = Some (Z.of_nat i) /\
    workers r !! i = Some (workerID n).
Proof.
  intros r. pose proof (NewRing_wf ws vn sd) as Hwf. fold r in Hwf.
  pose proof (NewRing_nonempty ws vn sd Hws Hvn) as Hne. fold r in Hne.
  destruct (successor_is_Some hash (HashIDSeed p sd) (nodes r) Hne) as [n En].
  assert (GetNodeForPartition r p = Some (workerID n)) as EG.
  { unfold GetNodeForPartition. rewrite decide_False by by rewrite length_zero_iff_nil.
    rewrite getNodeByHash_successor by done. change (seed r) with sd. by rewrite En. }
  assert (n ∈ nodes r) as Hn by by eapply successor_elem_of.
  apply (wf_index r Hwf) in Hn. exists n, (workerIdx n).
  split_and!; [done|done| |by apply node_index_worker; eauto|done].
  eapply NewRing_workers, list_elem_of_lookup_2, Hn.
Qed.

Lemma ring_lookup_clockwise_witness :
  let p := mkPartition ["topic"; "7"] 1 "" in
  exists n i,
    successor hash (@HashIDSeed toy_xxh3 p 0)
      (nodes (@NewRing toy_xxh3 stable_sort ["w-1"; "w-0"; "w-1"] 2 0)) = Some n /\
    @GetNodeForPartition toy_xxh3 (@NewRing toy_xxh3 stable_sort ["w-1"; "w-0"; "w-1"] 2 0) p
      = Some (workerID n) /\
    workerID n ∈ ["w-1"; "w-0"; "w-1"] /\
    @GetNodeIndexForPartition toy_xxh3 (@NewRing toy_xxh3 stable_sort ["w-1"; "w-0"; "w-1"] 2 0) p
      = Some (Z.of_nat i) /\
    workers (@NewRing toy_xxh3 stable_sort ["w-1"; "w-0"; "w-1"] 2 0) !! i = Some (workerID n).
Proof.
  intros p. apply (@ring_lookup_clockwise toy_xxh3 stable_sort ["w-1"; "w-0"; "w-1"] 2 0 p); [done|lia|done].
Defined.

(** ** Affinity: removing (or adding) a worker moves only its own partitions *)

Definition node_pair (n : virtualNode) : Z * string := (hash n, workerID n).

Lemma successor_fmap {A B} (f : A -> B) (kA : A -> Z) (kB : B -> Z) t l :
  (forall a, kB (f a) = kA a) -> successor kB t (f <$> l) = f <$> successor kA t l.
Proof.
  intros Hf. unfold successor.
  assert (filter (λ b, t <= kB b)%Z (f <$> l) = f <$> filter (λ a, t <= kA a)%Z l) as ->.
  { induction l as [|a l IH]; [done|]. rewrite fmap_cons, !filter_cons, Hf.
    case_decide; [rewrite fmap_cons; by f_equal|done]. }
  destruct (filter _ l); [|done]. by destruct l.
Qed.

(** Dropping elements that are not the successor leaves the successor in place. *)
Lemma successor_filter {A} (key : A -> Z) (P : A -> Prop) `{forall x, Decision (P x)} t l n :
  successor key t l = Some n -> P n -> successor key t (filter P l) = Some n.
Proof.
  unfold successor. intros Hs HP. rewrite filter_comm.
  destruct (filter (λ n, t <= key n)%Z l) as [|m ms] eqn:E.
  - rewrite filter_nil. destruct l as [|a l]; [done|]. simpl in Hs. injection Hs as ->.
    by rewrite filter_cons_True.
  - injection Hs as ->. by rewrite filter_cons_True.
Qed.

Section affinity.
Context `{Xxh3} `{SortFunc}.

Lemma add_workers_pairs sd vn i ws :
  node_pair <$> add_workers sd vn i ws =
  ws ≫= (λ w, (λ k, (vnode_hash sd w k, w)) <$> seq 0 (Z.to_nat vn)).
Proof.
  revert i. induction ws as [|w ws IH]; intros i; simpl; [done|].
  rewrite fmap_app, IH. unfold addWorker. by rewrite <- list_fmap_compose.
Qed.

Lemma bind_filter_worker sd vn w ws :
  filter (λ x : Z * string, x.2 <> w) (ws ≫= (λ v, (λ k, (vnode_hash sd v k, v)) <$> seq 0 (Z.to_nat vn))) =
  filter (λ v, v <> w) ws ≫= (λ v, (λ k, (vnode_hash sd v k, v)) <$> seq 0 (Z.to_nat vn)).
Proof.
  induction ws as [|v ws IH]; [done|].
  rewrite bind_cons, filter_app, IH, filter_cons.
  case_decide as E; rewrite ?bind_cons.
  - f_equal. rewrite filter_all; [done|]. apply Forall_fmap, Forall_true. done.
  - rewrite filter_none; [done|]. apply Forall_fmap, Forall_true. naive_solver.
Qed.

Lemma remaining_pairs ws w vn sd :
  node_pair <$> nodes (NewRing (filter (λ v, v <> w) ws) vn sd) ≡ₚ
  filter (λ x : Z * string, x.2 <> w) (node_pair <$> nodes (NewRing ws vn sd)).
Proof.
  simpl. rewrite !sort_func_perm, !add_workers_pairs, bind_filter_worker.
  by rewrite (dedup_workers_filter (λ v, v <> w) ∅ ∅).
Qed.

Definition pair_le (x y : Z * string) : Prop := (x.1 <= y.1)%Z.

Lemma pairs_ssorted ws vn sd :
  StronglySorted pair_le (node_pair <$> nodes (NewRing ws vn sd)).
Proof.
  pose proof (NewRing_sorted ws vn sd) as HS.
  induction HS as [|x l HS IH HF]; constructor; [done|]. by apply Forall_fmap.
Qed.

(** Without hash collisions the reduced ring is the original ring with the
    removed worker's virtual nodes deleted. *)
Lemma remaining_pairs_eq ws w vn sd :
  NoDup (hash <$> nodes (NewRing ws vn sd)) ->
  node_pair <$> nodes (NewRing (filter (λ v, v <> w) ws) vn sd) =
  filter (λ x : Z * string, x.2 <> w) (node_pair <$> nodes (NewRing ws vn sd)).
Proof.
  intros HN. apply (StronglySorted_unique_strong pair_le);
    [|apply pairs_ssorted|apply StronglySorted_filter, pairs_ssorted|apply remaining_pairs].
  intros x y Hx Hy Hxy Hyx. rewrite remaining_pairs in Hx.
  apply list_elem_of_filter in Hx as [_ Hx]. apply list_elem_of_filter in Hy as [_ Hy].
  apply list_elem_of_fmap in Hx as (n1 & -> & [i Hi]%list_elem_of_lookup).
  apply list_elem_of_fmap in Hy as (n2 & -> & [j Hj]%list_elem_of_lookup).
  assert (i = j) as ->; [|congruence]. unfold pair_le, node_pair in Hxy, Hyx. cbn [fst] in Hxy, Hyx.
  eapply (NoDup_lookup (hash <$> nodes (NewRing ws vn sd))); [done| |].
  - by rewrite list_lookup_fmap, Hi.
  - rewrite list_lookup_fmap, Hj. cbn. f_equal. lia.
Qed.

Lemma owner_pairs ws vn sd t :
  getNodeByHash (NewRing ws vn sd) t =
  snd <$> successor fst t (node_pair <$> nodes (NewRing ws vn sd)).
Proof.
  rewrite getNodeByHash_successor by apply NewRing_wf.
  rewrite (successor_fmap node_pair hash) by done. by destruct (successor hash t _).
Qed.
End affinity.

(** Minimal movement, the point of consistent hashing: when no two virtual
    nodes collide, taking worker [w] out of the ring (read the other way:
    adding it) changes the owner of a partition only if [w] was its owner. *)
Lemma ring_affinity `{Xxh3} `{SortFunc} ws w vn sd p
    (no_collision : NoDup (hash <$> nodes (NewRing ws vn sd))) :
  GetNodeForPartition (NewRing ws vn sd) p = Some w \/
  GetNodeForPartition (NewRing (filter (λ v, v <> w) ws) vn sd) p =
  GetNodeForPartition (NewRing ws vn sd) p.
Proof.
  unfold GetNodeForPartition. case_decide; [by right|].
  change (seed (NewRing _ vn sd)) with sd. rewrite !owner_pairs, remaining_pairs_eq by done.
  generalize (node_pair <$> nodes (NewRing ws vn sd)). intros L.
  destruct (successor fst _ L) as [[h v]|] eqn:E; simpl.
  - destruct (decide (v = w)) as [->|N]; [by left|]. right.
    by erewrite (successor_filter fst (λ x : Z * string, x.2 <> w)); [|exact E|].
  - right. destruct L as [|x l]; [done|].
    destruct (successor_is_Some fst (HashIDSeed p sd) (x :: l)); [done|congruence].
Qed.

(** ** Weighted ring *)

Record WeightedRing := mkWeightedRing {
  base_ring : Ring;
  workerWeights : gmap string Z;
}.

Definition default_partition_weight (p : Partition) : Z :=
  if decide (Weight p = 0%Z) then 100%Z else Weight p.

(** [findLightestWorker]: the first worker of minimal current weight. *)
Fixpoint lightest_from (weights : gmap string Z) (minWorker : string) (minWeight : Z)
    (ws : list string) : string :=
  match ws with
  | [] => minWorker
  | w :: ws' =>
      if (zget weights w <? minWeight)%Z
      then lightest_from weights w (zget weights w) ws'
      else lightest_from weights minWorker minWeight ws'
  end.

Definition findLightestWorker (wr : WeightedRing) : string :=
  match workers (base_ring wr) with
  | [] => ""
  | w :: ws => lightest_from (workerWeights wr) w (zget (workerWeights wr) w) ws
  end.

Section weighted_ring.
Context `{Xxh3} `{SortFunc}.

Definition NewWeighted (ws : list string) (vn sd : Z) : WeightedRing :=
  mkWeightedRing (NewRing ws vn sd) ∅.

Definition total_weight (ps : list Partition) : Z :=
  fold_left (λ t p, wrap64 (t + default_partition_weight p)) ps 0%Z.

(** One iteration of the assignment loop; [None] is the panic of an empty ring. *)
Definition assign_one (maxWeight : Z)
    (st : option (WeightedRing * gmap string (list Partition))) (p : Partition) :
    option (WeightedRing * gmap string (list Partition)) :=
  '(wr, assignments) ← st;
  let weight := default_partition_weight p in
  w ← GetNodeForPartition (base_ring wr) p;
  let w' := if (wrap64 (zget (workerWeights wr) w + weight) >? maxWeight)%Z
            then findLightestWorker wr else w in
  Some (mkWeightedRing (base_ring wr)
          (<[w' := wrap64 (zget (workerWeights wr) w' + weight)]> (workerWeights wr)),
        map_append w' p assignments).

Definition AssignPartitions (wr : WeightedRing) (ps : list Partition) :
    option (WeightedRing * gmap string (list Partition)) :=
  let wr0 := mkWeightedRing (base_ring wr) ∅ in
  if decide (length ps = 0) then Some (wr0, ∅)
  else
    let totalWeight := total_weight ps in
    let ws := workers (base_ring wr) in
    if decide (length ws = 0) then Some (wr0, ∅)
    else
      let avgWeight := (totalWeight `quot` Z.of_nat (length ws))%Z in
      let maxWeight := (wrap64 (avgWeight * 115) `quot` 100)%Z in
      fold_left (assign_one maxWeight) ps (Some (wr0, ∅)).

Definition GetWorkerWeight (wr : WeightedRing) (w : string) : Z := zget (workerWeights wr) w.
End weighted_ring.

Section weighted_facts.
Context `{Xxh3} `{SortFunc}.

Definition weight_sum (ps : list Partition) : Z := foldr (λ p t, default_partition_weight p + t)%Z 0%Z ps.

Lemma weight_sum_app l1 l2 : weight_sum (l1 ++ l2) = (weight_sum l1 + weight_sum l2)%Z.
Proof. induction l1 as [|p l1 IH]; simpl; [done|]. unfold weight_sum in *. simpl in *. lia. Qed.

(** The books balance: each worker's recorded weight is the (64-bit) sum of
    the weights of the partitions recorded for it. *)
Definition books (wr : WeightedRing) (m : gmap string (list Partition)) : Prop :=
  forall w, GetWorkerWeight wr w = wrap64 (weight_sum (m !!! w)).

Lemma GetNodeForPartition_defined r p : nodes r <> [] -> ring_wf r -> is_Some (GetNodeForPartition r p).
Proof.
  intros Hn Hwf. unfold GetNodeForPartition. case_decide; [eauto|].
  rewrite getNodeByHash_successor by done. apply fmap_is_Some. by apply successor_is_Some.
Qed.

Lemma assign_one_step mx wr m p :
  nodes (base_ring wr) <> [] -> ring_wf (base_ring wr) -> books wr m ->
  exists wr' m', assign_one mx (Some (wr, m)) p = Some (wr', m') /\
    base_ring wr' = base_ring wr /\ books wr' m' /\ flat m' ≡ₚ p :: flat m.
Proof.
  intros Hn Hwf HB. unfold assign_one. simpl.
  destruct (GetNodeForPartition_defined (base_ring wr) p Hn Hwf) as [w ->]. simpl.
  eexists _, _. split; [done|]. split; [done|]. split; [|apply flat_append].
  intros w'. unfold GetWorkerWeight. simpl. rewrite zget_insert, lookup_total_append.
  case_decide as E; [|rewrite app_nil_r; apply HB]. subst w'.
  rewrite weight_sum_app. unfold books, GetWorkerWeight in HB. rewrite HB, wrap64_add_l.
  simpl. f_equal. lia.
Qed.

Lemma assign_all_steps mx ps wr m :
  nodes (base_ring wr) <> [] -> ring_wf (base_ring wr) -> books wr m ->
  exists wr' m', fold_left (assign_one mx) ps (Some (wr, m)) = Some (wr', m') /\
    books wr' m' /\ flat m' ≡ₚ ps ++ flat m.
Proof.
  revert wr m. induction ps as [|p ps IH]; intros wr m Hn Hwf HB; [by exists wr, m|].
  destruct (assign_one_step mx wr m p Hn Hwf HB) as (wr1 & m1 & E & Er & HB1 & HF1).
  cbn [fold_left]. rewrite E. destruct (IH wr1 m1) as (wr2 & m2 & E2 & HB2 & HF2); [by rewrite Er..|done|].
  exists wr2, m2. split_and!; [done|done|]. rewrite HF2, HF1. simpl. symmetry. apply Permutation_middle.
Qed.
End weighted_facts.

(** Weighted ring assignment is total and conservative: over a non-empty
    worker list it never panics, gives out every partition exactly once, and
    its per-worker weights are the 64-bit sums of what each worker received. *)
Theorem weighted_ring_conserves `{Xxh3} `{SortFunc} ws vn sd ps
    (Hws : ws <> []) (Hvn : (0 < vn)%Z) :
  exists wr m, AssignPartitions (NewWeighted ws vn sd) ps = Some (wr, m) /\
    flat m ≡ₚ ps /\ forall w, GetWorkerWeight wr w = wrap64 (weight_sum (m !!! w)).
Proof.
  assert (books (mkWeightedRing (NewRing ws vn sd) ∅) ∅) as HB.
  { intros w. unfold GetWorkerWeight. simpl. by rewrite zget_empty, lookup_total_empty. }
  unfold AssignPartitions. case_decide as E.
  { apply length_zero_iff_nil in E as ->. eexists _, _. by split_and!. }
  case_decide as E2.
  { apply length_zero_iff_nil in E2. exfalso. destruct ws as [|w ws]; [done|].
    assert (w ∈ workers (NewRing (w :: ws) vn sd)) as Hw by (apply NewRing_workers; left).
    simpl in E2, Hw. rewrite E2 in Hw. by apply not_elem_of_nil in Hw. }
  match goal with |- context [fold_left (assign_one ?mx) _ _] =>
    destruct (assign_all_steps mx ps (mkWeightedRing (NewRing ws vn sd) ∅) ∅ (NewRing_nonempty ws vn sd Hws Hvn) (NewRing_wf ws vn sd) HB)
      as (wr & m & Ef & HB' & HF) end.
  exists wr, m. split_and!; [done| |done]. by rewrite HF, flat_empty, app_nil_r.
Qed.

Lemma weighted_ring_conserves_witness :
  let ps := [mkPartition ["a"] 300 ""; mkPartition ["b"] 0 ""; mkPartition [] 7 ""] in
  exists wr m, @AssignPartitions toy_xxh3 (@NewWeighted toy_xxh3 stable_sort ["w-1"; "w-0"] 2 0) ps = Some (wr, m) /\
    flat m ≡ₚ ps /\ forall w, GetWorkerWeight wr w = wrap64 (weight_sum (m !!! w)).
Proof.
  intros ps. apply (@weighted_ring_conserves toy_xxh3 stable_sort ["w-1"; "w-0"] 2 0 ps); [done|lia].
Defined.
