(* ===== verification/Float64.v ===== *)
(** * IEEE-754 double precision

    Go's [float64] on the executable specification floats of the Standard
    Library: 53 bits of precision, maximal exponent 1024, round to nearest
    even. No axiom is involved. *)
From S2P Require Import Prelude.
From Stdlib Require Export SpecFloat.

Notation float64 := spec_float.

Definition prec64 : Z := 53.
Definition emax64 : Z := 1024.

(** [float64(z)] for an integer. *)
Definition f64_of_Z (z : Z) : float64 := binary_normalize prec64 emax64 z 0 false.

Definition f64_mul (x y : float64) : float64 := SFmul prec64 emax64 x y.
Definition f64_div (x y : float64) : float64 := SFdiv prec64 emax64 x y.
Definition f64_add (x y : float64) : float64 := SFadd prec64 emax64 x y.
Definition f64_sub (x y : float64) : float64 := SFsub prec64 emax64 x y.
Definition f64_ltb (x y : float64) : bool := SFltb x y.
Definition f64_leb (x y : float64) : bool := SFleb x y.

(** The double nearest to the decimal constant [n / d]. *)
Definition f64_const (n d : Z) : float64 := f64_div (f64_of_Z n) (f64_of_Z d).

(** Truncation toward zero of a finite double. *)
Definition f64_trunc (x : float64) : option Z :=
  match x with
  | S754_zero _ => Some 0%Z
  | S754_finite s m e =>
      let a := (if e >=? 0 then Zpos m * 2 ^ e else Zpos m / 2 ^ (- e))%Z in
      Some (if s then - a else a)%Z
  | _ => None
  end.

(** The conversion [int64(x)]: truncation when the result fits. For NaN,
    infinities and values out of range the language leaves the result to the
    implementation, which is the argument [impl]. *)
Definition f64_to_int64 (impl : float64 -> Z) (x : float64) : Z :=
  match f64_trunc x with
  | Some z => if decide (- 2 ^ 63 <= z < 2 ^ 63)%Z then z else impl x
  | None => impl x
  end.

Example f64_sum : f64_trunc (f64_mul (f64_const 12 10) (f64_of_Z 100)) = Some 120%Z.
Proof. reflexivity. Qed.

Example f64_third : f64_trunc (f64_mul (f64_div (f64_of_Z 10) (f64_of_Z 3)) (f64_const 3 10)) = Some 1%Z.
Proof. reflexivity. Qed.
