(* ===== verification/Strategy.v ===== *)
(** * Assignment strategies (strategy/)

    Round robin, consistent hashing and weighted consistent hashing, and the
    contract they promise to the calculator: every partition goes to exactly
    one of the given workers and every worker has an entry. *)
From S2P Require Import Prelude Partition Ring Float64.

Abbreviation assignment := (gmap string (list Partition)).

(** Errors a strategy returns; [Panicked] stands for an index out of range. *)
Inductive strategy_err := ErrNoWorkers | ErrEmptyWorker | Panicked.

(** ** The interface [types.AssignmentStrategy]

    [Assign] threads the strategy's own state (the ring cache). *)
Class Strategy (S : Type) :=
  Assign : S -> list string -> list Partition -> res strategy_err assignment * S.

Definition keyed (p : Partition) : Prop := Keys p <> [].

(** What a strategy promises, as long as its own invariant [inv] holds. *)
Class StrategyLaws (S : Type) `{Strategy S} (inv : S -> Prop) := {
  assign_inv s ws ps : inv s -> inv (Assign s ws ps).2;
  assign_empty s ps : (Assign s [] ps).1 = Err ErrNoWorkers;
  assign_complete s ws ps :
    inv s -> ws <> [] -> NoDup ws -> "" ∉ ws -> Forall keyed ps ->
    exists m, (Assign s ws ps).1 = Ok m /\ flat m ≡ₚ ps /\ dom m = list_to_set ws;
}.

(** [assignments[w] = []] for every worker. *)
Definition empty_assignments (ws : list string) : assignment :=
  fold_left (λ m w, <[w := []]> m) ws ∅.

(** ** Round robin *)

Inductive RoundRobin := NewRoundRobin.

Fixpoint distribute (ws : list string) (i : nat) (ps : list Partition) (m : assignment) :
    option assignment :=
  match ps with
  | [] => Some m
  | p :: ps' =>
      w ← ws !! (i `mod` length ws);
      distribute ws (S i) ps' (map_append w p m)
  end.

Section round_robin.
Context `{SortFunc}.

Definition round_robin_assign (ws : list string) (ps : list Partition) :
    res strategy_err assignment :=
  if decide (length ws = 0) then Err ErrNoWorkers
  else
    let sortedWorkers := sort_strings ws in
    let sortedPartitions := sort_func Compare ps in
    match distribute sortedWorkers 0 sortedPartitions (empty_assignments sortedWorkers) with
    | Some m => Ok m
    | None => Err Panicked
    end.

#[export] Instance RoundRobin_strategy : Strategy RoundRobin :=
  λ rr ws ps, (round_robin_assign ws ps, rr).
End round_robin.

(** ** Consistent hashing *)

Record ConsistentHash := mkConsistentHash {
  virtualNodes : Z;
  hashSeed : Z;
}.

Inductive ConsistentHashOption :=
| WithVirtualNodes (n : Z)
| WithHashSeed (sd : Z).

Definition apply_ch_option (ch : ConsistentHash) (o : ConsistentHashOption) : ConsistentHash :=
  match o with
  | WithVirtualNodes n => mkConsistentHash (if (n <? 1)%Z then 1 else n) (hashSeed ch)
  | WithHashSeed sd => mkConsistentHash (virtualNodes ch) sd
  end.

Definition NewConsistentHash (opts : list ConsistentHashOption) : ConsistentHash :=
  fold_left apply_ch_option opts (mkConsistentHash 150 0).

Section consistent_hash.
Context `{Xxh3} `{SortFunc}.

Fixpoint hash_distribute (r : Ring) (ps : list Partition) (m : assignment) :
    res strategy_err assignment :=
  match ps with
  | [] => Ok m
  | p :: ps' =>
      match GetNodeForPartition r p with
      | None => Err Panicked
      | Some w => if decide (w = "") then Err ErrEmptyWorker
                  else hash_distribute r ps' (map_append w p m)
      end
  end.

Definition consistent_hash_assign (ch : ConsistentHash) (ws : list string) (ps : list Partition) :
    res strategy_err assignment :=
  if decide (length ws = 0) then Err ErrNoWorkers
  else hash_distribute (NewRing ws (virtualNodes ch) (hashSeed ch)) ps (empty_assignments ws).

#[export] Instance ConsistentHash_strategy : Strategy ConsistentHash :=
  λ ch ws ps, (consistent_hash_assign ch ws ps, ch).
End consistent_hash.

(** ** Weighted consistent hashing *)

Definition defaultVirtualNodes : Z := 150.
Definition defaultOverloadThreshold : float64 := f64_const 12 10.
Definition defaultExtremeThreshold : float64 := f64_of_Z 20.
Definition defaultMinPartitionCountFactor : float64 := f64_const 3 10.
Definition minOverloadThreshold : float64 := f64_const 11 10.
Definition minExtremeThreshold : float64 := f64_const 15 10.
Definition f64_zero : float64 := S754_zero false.

(** The ring cache: [cachedWorkers], [cachedVirtual], [cachedSeed] and
    [cachedRing], absent while [cachedRing] is nil. *)
Record ring_cache := mkCache {
  cachedWorkers : list string;
  cachedVirtual : Z;
  cachedSeed : Z;
  cachedRing : Ring;
}.

Record WeightedConsistentHash := mkWCH {
  wch_virtualNodes : Z;
  wch_hashSeed : Z;
  overloadThreshold : float64;
  extremeThreshold : float64;
  minPartitionCountFactor : float64;
  defaultWeight : Z;
  cache : option ring_cache;
}.

Inductive WeightedConsistentHashOption :=
| WithWeightedVirtualNodes (n : Z)
| WithWeightedHashSeed (sd : Z)
| WithOverloadThreshold (x : float64)
| WithExtremeThreshold (x : float64)
| WithDefaultWeight (w : Z)
| WithMinPartitionCount (x : float64).

Definition apply_wch_option (c : WeightedConsistentHash) (o : WeightedConsistentHashOption) :
    WeightedConsistentHash :=
  let '(mkWCH vn sd ot et mf dw ca) := c in
  match o with
  | WithWeightedVirtualNodes n => mkWCH n sd ot et mf dw ca
  | WithWeightedHashSeed sd' => mkWCH vn sd' ot et mf dw ca
  | WithOverloadThreshold x => mkWCH vn sd x et mf dw ca
  | WithExtremeThreshold x => mkWCH vn sd ot x mf dw ca
  | WithDefaultWeight w => mkWCH vn sd ot et mf w ca
  | WithMinPartitionCount x => mkWCH vn sd ot et x dw ca
  end.

Definition normalizeConfig (c : WeightedConsistentHash) : WeightedConsistentHash :=
  let '(mkWCH vn sd ot et mf dw ca) := c in
  mkWCH (if (vn <? 1)%Z then 1 else vn) sd
    (if f64_ltb ot minOverloadThreshold then minOverloadThreshold else ot)
    (if f64_ltb et minExtremeThreshold then minExtremeThreshold else et)
    mf
    (if (dw <? 1)%Z then 1 else dw) ca.

Definition NewWeightedConsistentHash (opts : list WeightedConsistentHashOption) :
    WeightedConsistentHash :=
  normalizeConfig
    (fold_left apply_wch_option opts
      (mkWCH defaultVirtualNodes 0 defaultOverloadThreshold defaultExtremeThreshold
         defaultMinPartitionCountFactor 1 None)).

Definition effectiveWeight (c : WeightedConsistentHash) (weight : Z) : Z :=
  if (weight >? 0)%Z then weight else defaultWeight c.

Record partitionEntry := mkEntry {
  partition : Partition;
  weight : Z;
}.

Record distributionThresholds := mkThresholds {
  extremeCutoff : float64;
  maxWorkerWeight : float64;
}.

(** Working state of an assignment: [buckets] and [workerLoad], by worker index. *)
Record working := mkWorking {
  buckets : list (list Partition);
  workerLoad : list Z;
}.

Definition prepare (ws : list string) : list string * working :=
  let sortedWorkers := sort_strings ws in
  (sortedWorkers,
   mkWorking (replicate (length sortedWorkers) []) (replicate (length sortedWorkers) 0%Z)).

Fixpoint analyze_rest (c : WeightedConsistentHash) (first : Z) (ps : list Partition)
    (total : Z) (allEqual : bool) : Z * bool :=
  match ps with
  | [] => (total, allEqual)
  | p :: ps' =>
      let w := effectiveWeight c (Weight p) in
      analyze_rest c first ps' (wrap64 (total + w)) (if (w =? first)%Z then allEqual else false)
  end.

Definition analyzeWeights (c : WeightedConsistentHash) (ps : list Partition) : Z * bool :=
  match ps with
  | [] => (0%Z, true)
  | p :: ps' =>
      let w := effectiveWeight c (Weight p) in analyze_rest c w ps' (wrap64 (0 + w)) true
  end.

Definition computeThresholds (totalWeight : Z) (partitionCount workerCount : nat)
    (extremeMultiplier overloadMultiplier : float64) : distributionThresholds :=
  let avgPartitionWeight :=
    if decide (0 < partitionCount)
    then f64_div (f64_of_Z totalWeight) (f64_of_Z (Z.of_nat partitionCount)) else f64_zero in
  let avgWorkerWeight :=
    if decide (0 < workerCount)
    then f64_div (f64_of_Z totalWeight) (f64_of_Z (Z.of_nat workerCount)) else f64_zero in
  mkThresholds (f64_mul avgPartitionWeight extremeMultiplier)
               (f64_mul avgWorkerWeight overloadMultiplier).

Definition is_extreme (cutoff : float64) (e : partitionEntry) : bool :=
  f64_ltb f64_zero cutoff && f64_ltb cutoff (f64_of_Z (weight e)).

Fixpoint splitPartitions (c : WeightedConsistentHash) (ps : list Partition) (cutoff : float64) :
    list partitionEntry * list partitionEntry :=
  match ps with
  | [] => ([], [])
  | p :: ps' =>
      let entry := mkEntry p (effectiveWeight c (Weight p)) in
      let '(extremes, normals) := splitPartitions c ps' cutoff in
      if is_extreme cutoff entry then (entry :: extremes, normals) else (extremes, entry :: normals)
  end.

(** [buckets[idx] = append(buckets[idx], p)] alone, and together with
    [workerLoad[idx] += w]; an index out of range panics. *)
Definition push (idx : nat) (p : Partition) (st : working) : option working :=
  b ← buckets st !! idx;
  Some (mkWorking (<[idx := b ++ [p]]> (buckets st)) (workerLoad st)).

Definition place (idx : nat) (e : partitionEntry) (st : working) : option working :=
  st' ← push idx (partition e) st;
  l ← workerLoad st' !! idx;
  Some (mkWorking (buckets st') (<[idx := wrap64 (l + weight e)]> (workerLoad st'))).

(** Heaviest first, ties by partition order. *)
Definition cmp_entry (a b : partitionEntry) : Z :=
  if (weight a =? weight b)%Z then Compare (partition a) (partition b)
  else if (weight a >? weight b)%Z then -1 else 1.

Fixpoint place_extremes (n i : nat) (es : list partitionEntry) (st : working) : option working :=
  match es with
  | [] => Some st
  | e :: es' => st' ← place (i `mod` n) e st; place_extremes n (S i) es' st'
  end.

Fixpoint lightest_indexed (i : nat) (loads : list Z) (lightestIdx : nat) (minLoad : Z) : nat :=
  match loads with
  | [] => lightestIdx
  | load :: loads' =>
      if (load <? minLoad)%Z then lightest_indexed (S i) loads' i load
      else lightest_indexed (S i) loads' lightestIdx minLoad
  end.

Definition findLightestWorkerIndexed (loads : list Z) : option nat :=
  match loads with
  | [] => None
  | l0 :: loads' => Some (lightest_indexed 1 loads' 0 l0)
  end.

(** [maxWorkerWeight > 0 && float64(load + w) > maxWorkerWeight]. *)
Definition over_cap (cap : float64) (load w : Z) : bool :=
  f64_ltb f64_zero cap && f64_ltb cap (f64_of_Z (wrap64 (load + w))).

Fixpoint fill_map (ws : list string) (bs : list (list Partition)) (m : assignment) :
    option assignment :=
  match ws, bs with
  | [], _ => Some m
  | w :: ws', b :: bs' => fill_map ws' bs' (<[w := b]> m)
  | _ :: _, [] => None
  end.

Definition convertBucketsToMap (ws : list string) (bs : list (list Partition)) : option assignment :=
  fill_map ws bs ∅.

Definition or_panic {A} (o : option A) : res strategy_err A :=
  match o with Some x => Ok x | None => Err Panicked end.

Section weighted.
Context `{Xxh3} `{SortFunc} (float_to_int : float64 -> Z).

Definition getOrBuildRing (c : WeightedConsistentHash) (sortedWorkers : list string) :
    Ring * WeightedConsistentHash :=
  let build :=
    let r := NewRing sortedWorkers (wch_virtualNodes c) (wch_hashSeed c) in
    (r, mkWCH (wch_virtualNodes c) (wch_hashSeed c) (overloadThreshold c) (extremeThreshold c)
          (minPartitionCountFactor c) (defaultWeight c)
          (Some (mkCache sortedWorkers (wch_virtualNodes c) (wch_hashSeed c) r))) in
  match cache c with
  | Some k =>
      if decide (cachedVirtual k = wch_virtualNodes c /\ cachedSeed k = wch_hashSeed c /\
                 cachedWorkers k = sortedWorkers)
      then (cachedRing k, c) else build
  | None => build
  end.

Fixpoint assignEqualWeightPartitionsByRingIndex (r : Ring) (ps : list Partition) (st : working) :
    res strategy_err working :=
  match ps with
  | [] => Ok st
  | p :: ps' =>
      idx ← or_panic (GetNodeIndexForPartition r p);
      if (idx <? 0)%Z then Err ErrNoWorkers
      else st' ← or_panic (push (Z.to_nat idx) p st);
           assignEqualWeightPartitionsByRingIndex r ps' st'
  end.

Definition assignExtremePartitionsIndexed (extremes : list partitionEntry) (ws : list string)
    (st : working) : option working :=
  if decide (length extremes = 0) then Some st
  else place_extremes (length ws) 0 (sort_func cmp_entry extremes) st.

(** The worker index chosen for one normal partition, and whether the soft
    cap was exceeded there. *)
Definition choose_worker (st : working) (cap : float64) (minPartitionCount : Z) (idx : nat)
    (e : partitionEntry) : option (nat * bool) :=
  load ← workerLoad st !! idx;
  bucket ← buckets st !! idx;
  if over_cap cap load (weight e) && (minPartitionCount <=? Z.of_nat (length bucket))%Z then
    idx' ← findLightestWorkerIndexed (workerLoad st);
    load' ← workerLoad st !! idx';
    Some (idx', over_cap cap load' (weight e))
  else Some (idx, false).

Fixpoint assignNormalPartitionsByRingIndex (es : list partitionEntry) (r : Ring) (st : working)
    (cap : float64) (minPartitionCount : Z) (overflowCount : nat) :
    res strategy_err (working * nat) :=
  match es with
  | [] => Ok (st, overflowCount)
  | e :: es' =>
      idx ← or_panic (GetNodeIndexForPartition r (partition e));
      if (idx <? 0)%Z then Err ErrNoWorkers
      else
        '(idx', over) ← or_panic (choose_worker st cap minPartitionCount (Z.to_nat idx) e);
        st' ← or_panic (place idx' e st);
        assignNormalPartitionsByRingIndex es' r st' cap minPartitionCount
          (if over : bool then S overflowCount else overflowCount)
  end.

Definition min_partition_count (c : WeightedConsistentHash) (np nw : nat) : Z :=
  if f64_ltb f64_zero (minPartitionCountFactor c) && bool_decide (0 < nw) then
    f64_to_int64 float_to_int
      (f64_mul (f64_div (f64_of_Z (Z.of_nat np)) (f64_of_Z (Z.of_nat nw)))
         (minPartitionCountFactor c))
  else 0.

(** Steps 7 to 9 of [Assign]: the two-phase path for unequal weights. *)
Definition assign_two_phase (c : WeightedConsistentHash) (r : Ring) (sortedWorkers : list string)
    (ps : list Partition) (totalWeight : Z) (st : working) : res strategy_err (working * nat) :=
  let th := computeThresholds totalWeight (length ps) (length sortedWorkers)
              (extremeThreshold c) (overloadThreshold c) in
  let '(extremes, normals) := splitPartitions c ps (extremeCutoff th) in
  st1 ← or_panic (assignExtremePartitionsIndexed extremes sortedWorkers st);
  assignNormalPartitionsByRingIndex normals r st1 (maxWorkerWeight th)
    (min_partition_count c (length ps) (length sortedWorkers)) 0.

Definition weighted_assign (c : WeightedConsistentHash) (ws : list string) (ps : list Partition) :
    res strategy_err assignment * WeightedConsistentHash :=
  if decide (length ws = 0) then (Err ErrNoWorkers, c)
  else
    let '(sortedWorkers, st) := prepare ws in
    if decide (length ps = 0) then (or_panic (convertBucketsToMap sortedWorkers (buckets st)), c)
    else
      let '(totalWeight, allEqual) := analyzeWeights c ps in
      let '(r, c') := getOrBuildRing c sortedWorkers in
      ((st' ← (if allEqual : bool then assignEqualWeightPartitionsByRingIndex r ps st
               else fst <$> assign_two_phase c r sortedWorkers ps totalWeight st);
        or_panic (convertBucketsToMap sortedWorkers (buckets st'))), c').

#[export] Instance WeightedConsistentHash_strategy : Strategy WeightedConsistentHash :=
  weighted_assign.
End weighted.

(** ** Facts shared by the strategies *)

Lemma fold_empty_lookup ws (m : assignment) w :
  fold_left (λ m w, <[w := []]> m) ws m !! w = if decide (w ∈ ws) then Some [] else m !! w.
Proof.
  revert m. induction ws as [|x ws IH]; intros m; simpl; [done|]. rewrite IH, lookup_insert.
  repeat case_decide; subst; try done; set_solver.
Qed.

Lemma empty_assignments_lookup ws w :
  empty_assignments ws !! w = if decide (w ∈ ws) then Some [] else None.
Proof. unfold empty_assignments. by rewrite fold_empty_lookup, lookup_empty. Qed.

Lemma dom_empty_assignments ws : dom (empty_assignments ws) = list_to_set ws.
Proof.
  apply set_eq. intros w. rewrite elem_of_dom, elem_of_list_to_set, empty_assignments_lookup.
  case_decide; split; try done; eauto.
Qed.

Lemma flat_empty_assignments ws : flat (empty_assignments ws) = [].
Proof.
  destruct (flat _) as [|x l] eqn:E; [done|]. exfalso.
  assert (x ∈ flat (empty_assignments ws)) as Hx by (rewrite E; left).
  apply elem_of_flat in Hx as (k & l' & Hk & Hx). rewrite empty_assignments_lookup in Hk.
  case_decide; simplify_eq. by apply not_elem_of_nil in Hx.
Qed.

Lemma dom_append (m : assignment) w p : w ∈ dom m -> dom (map_append w p m) = dom m.
Proof. intros. unfold map_append. rewrite dom_insert_L. set_solver. Qed.

(** ** Round robin facts *)

Section round_robin_facts.
Context (ws : list string) (Hws : ws <> []) (HN : NoDup ws).

Let n := length ws.

Lemma rr_index i : i `mod` n < n.
Proof using Hws. apply Nat.mod_upper_bound. unfold n. by rewrite length_zero_iff_nil. Qed.

Lemma distribute_spec i ps (m : assignment) :
  dom m = list_to_set ws ->
  exists m', distribute ws i ps m = Some m' /\ flat m' ≡ₚ ps ++ flat m /\ dom m' = list_to_set ws.
Proof using Hws.
  revert i m. induction ps as [|p ps IH]; intros i m Hd; cbn [distribute]; [by eauto|].
  destruct (lookup_lt_is_Some_2 ws (i `mod` n) (rr_index i)) as [w Hw].
  fold n. rewrite Hw. simpl.
  destruct (IH (S i) (map_append w p m)) as (m' & E & HP & HD).
  { rewrite dom_append; [done|]. rewrite Hd, elem_of_list_to_set. by eapply list_elem_of_lookup_2. }
  exists m'. split_and!; [done| |done]. rewrite HP, flat_append. symmetry. apply Permutation_middle.
Qed.

(** How many of the first [i] items a worker index has received. *)
Definition rr_share (i k : nat) : nat := i / n + (if decide (k < i `mod` n) then 1 else 0).

Lemma rr_share_S i k :
  k < n -> rr_share (S i) k = rr_share i k + (if decide (k = i `mod` n) then 1 else 0).
Proof.
  intros Hk. unfold rr_share. pose proof (rr_index i). pose proof (rr_index (S i)).
  pose proof (Nat.div_mod_eq i n). pose proof (Nat.div_mod_eq (S i) n).
  destruct (decide (i `mod` n = n - 1)).
  - assert (S i `div` n = S (i `div` n)) by nia.
    assert (S i `mod` n = 0) by nia. repeat case_decide; lia.
  - assert (S i `div` n = i `div` n) by nia.
    assert (S i `mod` n = S (i `mod` n)) by nia. repeat case_decide; lia.
Qed.

Lemma distribute_share i ps (m m' : assignment) :
  distribute ws i ps m = Some m' ->
  (forall k w, ws !! k = Some w -> length (m !!! w) = rr_share i k) ->
  forall k w, ws !! k = Some w -> length (m' !!! w) = rr_share (i + length ps) k.
Proof.
  revert i m. induction ps as [|p ps IH]; intros i m; cbn [distribute]; intros E Hm k w Hk.
  { simplify_eq. rewrite Nat.add_0_r. by apply Hm. }
  fold n in E. inv_ok. rename x into v. simpl length. replace (i + S (length ps)) with (S i + length ps) by lia.
  eapply IH; [done| |done]. clear k w Hk. intros k w Hk.
  rewrite lookup_total_append, length_app, (Hm k w Hk).
  rewrite rr_share_S by by apply lookup_lt_Some in Hk. f_equal.
  case_decide; case_decide; simplify_eq; try done.
  all: exfalso; eauto using NoDup_lookup.
Qed.

Lemma distribute_balanced ps m v w :
  distribute ws 0 ps (empty_assignments ws) = Some m -> v ∈ ws -> w ∈ ws ->
  length (m !!! v) <= S (length (m !!! w)).
Proof.
  intros E [i Hi]%list_elem_of_lookup [j Hj]%list_elem_of_lookup.
  assert (forall k u, ws !! k = Some u -> length (empty_assignments ws !!! u) = rr_share 0 k) as H0.
  { intros k u Hk%list_elem_of_lookup_2. rewrite lookup_total_alt, empty_assignments_lookup.
    rewrite decide_True by done. unfold rr_share. rewrite Nat.Div0.div_0_l, Nat.Div0.mod_0_l.
    by case_decide; [lia|]. }
  rewrite (distribute_share 0 ps _ m E H0 i v Hi), (distribute_share 0 ps _ m E H0 j w Hj).
  unfold rr_share. repeat case_decide; lia.
Qed.
End round_robin_facts.

Lemma sort_partitions_unique `{SortFunc} ps ps' :
  ps' ≡ₚ ps -> NoDup (keys_of ps) -> sort_func Compare ps' = sort_func Compare ps.
Proof.
  intros HP HN. apply (StronglySorted_unique_strong (cmp_le Compare));
    [|by apply sort_func_ssorted, Compare_order..|by rewrite !sort_func_perm].
  intros x y Hx Hy. rewrite elem_of_sort_func, HP in Hx. rewrite elem_of_sort_func in Hy.
  intros Hxy Hyx. unfold cmp_le, Compare in *.
  assert (compare_keys (Keys x) (Keys y) = 0%Z) as E%compare_keys_eq.
  { rewrite compare_keys_antisym in Hyx. lia. }
  apply list_elem_of_lookup in Hx as [i Hi]. apply list_elem_of_lookup in Hy as [j Hj].
  assert (i = j) as ->; [|congruence].
  apply (NoDup_lookup (keys_of ps) i j (Keys x)); [done|unfold keys_of; rewrite list_lookup_fmap..].
  - by rewrite Hi.
  - by rewrite Hj, E.
Qed.

#[export] Instance RoundRobin_laws `{SortFunc} : StrategyLaws RoundRobin (λ _, True).
Proof.
  split; [done|done|]. intros s ws ps _ Hws _ _ _.
  unfold Assign, RoundRobin_strategy, round_robin_assign. simpl.
  rewrite decide_False by by rewrite length_zero_iff_nil.
  destruct (distribute_spec (sort_strings ws)) with (i := 0) (ps := sort_func Compare ps)
    (m := empty_assignments (sort_strings ws)) as (m & -> & HP & HD).
  { by apply sort_strings_nonempty. }
  { apply dom_empty_assignments. }
  exists m. rewrite HD, HP, sort_func_perm, flat_empty_assignments, app_nil_r. split_and!; [done..|].
  apply set_eq. intros w. by rewrite !elem_of_list_to_set, elem_of_sort_strings.
Qed.

(** Round robin over distinct workers succeeds, gives every partition to
    exactly one of them, lists every worker, keeps any two workers within one
    partition of each other, and depends only on the sets of workers and
    partitions, not on the order in which they were discovered. *)
Theorem round_robin_balanced `{SortFunc} ws ps (Hws : ws <> []) (HN : NoDup ws) :
  exists m,
    (Assign NewRoundRobin ws ps).1 = Ok m /\ flat m ≡ₚ ps /\ dom m = list_to_set ws /\
    (forall v w, v ∈ ws -> w ∈ ws -> length (m !!! v) <= S (length (m !!! w))) /\
    (forall ws' ps', ws' ≡ₚ ws -> ps' ≡ₚ ps -> NoDup (keys_of ps) ->
       (Assign NewRoundRobin ws' ps').1 = Ok m).
Proof.
  pose proof (sort_strings_nonempty ws Hws) as Hne.
  unfold Assign, RoundRobin_strategy, round_robin_assign. simpl.
  rewrite decide_False by by rewrite length_zero_iff_nil.
  destruct (distribute_spec (sort_strings ws) Hne 0 (sort_func Compare ps)
    (empty_assignments (sort_strings ws))) as (m & E & HP & HD); [apply dom_empty_assignments|].
  exists m. rewrite E, HD, HP, sort_func_perm, flat_empty_assignments, app_nil_r. split_and!; [done..| | |].
  - apply set_eq. intros w. by rewrite !elem_of_list_to_set, elem_of_sort_strings.
  - intros v w Hv Hw. eapply distribute_balanced; [done| |done|by apply elem_of_sort_strings..].
    by rewrite sort_strings_perm.
  - intros ws' ps' HPw HPp HNk. rewrite decide_False by by rewrite HPw, length_zero_iff_nil.
    by rewrite (sort_strings_unique ws' ws), (sort_partitions_unique ps ps'), E.
Qed.

Lemma round_robin_balanced_witness :
  let ws := ["w-1"; "w-0"] in
  let ps := [mkPartition ["c"] 0 ""; mkPartition ["a"] 5 ""; mkPartition ["b"] 0 ""] in
  exists m,
    (@Assign _ (@RoundRobin_strategy stable_sort) NewRoundRobin ws ps).1 = Ok m /\ flat m ≡ₚ ps /\
    dom m = list_to_set ws /\
    (forall v w, v ∈ ws -> w ∈ ws -> length (m !!! v) <= S (length (m !!! w))) /\
    (forall ws' ps', ws' ≡ₚ ws -> ps' ≡ₚ ps -> NoDup (keys_of ps) ->
       (@Assign _ (@RoundRobin_strategy stable_sort) NewRoundRobin ws' ps').1 = Ok m).
Proof.
  intros ws ps. apply (@round_robin_balanced stable_sort ws ps); [done|].
  apply (bool_decide_unpack _). vm_compute. exact I.
Defined.

(** ** Consistent hash facts *)

Section consistent_hash_facts.
Context `{Xxh3} `{SortFunc}.

(** Partitions a ring gives to one worker. *)
Definition owned_by (r : Ring) (w : string) (ps : list Partition) : list Partition :=
  filter (λ p, GetNodeForPartition r p = Some w) ps.

Lemma hash_distribute_spec ws vn sd ps (m : assignment) :
  ws <> [] -> (0 < vn)%Z -> "" ∉ ws -> Forall keyed ps -> dom m = list_to_set ws ->
  let r := NewRing ws vn sd in
  exists m', hash_distribute r ps m = Ok m' /\ flat m' ≡ₚ ps ++ flat m /\
    dom m' = list_to_set ws /\ forall w, m' !!! w = (m !!! w) ++ owned_by r w ps.
Proof.
  intros Hws Hvn He HF Hd r. revert m Hd. induction HF as [|p ps Hp HF IH]; intros m Hd; cbn [hash_distribute].
  { exists m. split_and!; [done..|]. intros w. by rewrite app_nil_r. }
  destruct (ring_owner ws vn sd p) as (w & _ & Hw & Hww & _); [done..|].
  fold r in Hw. rewrite Hw. rewrite decide_False by (intros ->; done).
  destruct (IH (map_append w p m)) as (m' & E & HP & HD & HL).
  { rewrite dom_append; [done|]. by rewrite Hd, elem_of_list_to_set. }
  exists m'. split_and!; [done| |done|].
  - rewrite HP, flat_append. symmetry. apply Permutation_middle.
  - intros v. rewrite HL, lookup_total_append, <- app_assoc. f_equal.
    unfold owned_by. rewrite filter_cons, Hw. repeat case_decide; naive_solver.
Qed.

Lemma consistent_hash_spec ch ws ps :
  (0 < virtualNodes ch)%Z -> ws <> [] -> "" ∉ ws -> Forall keyed ps ->
  exists m, consistent_hash_assign ch ws ps = Ok m /\ flat m ≡ₚ ps /\ dom m = list_to_set ws /\
    forall w, m !!! w = owned_by (NewRing ws (virtualNodes ch) (hashSeed ch)) w ps.
Proof.
  intros Hvn Hws He HF. unfold consistent_hash_assign.
  rewrite decide_False by by rewrite length_zero_iff_nil.
  destruct (hash_distribute_spec ws (virtualNodes ch) (hashSeed ch) ps (empty_assignments ws))
    as (m & E & HP & HD & HL); [done..|apply dom_empty_assignments|].
  exists m. split_and!; [done| |done|].
  - by rewrite HP, flat_empty_assignments, app_nil_r.
  - intros w. rewrite HL, lookup_total_alt, empty_assignments_lookup. by case_decide.
Qed.

#[export] Instance ConsistentHash_laws :
  StrategyLaws ConsistentHash (λ ch, 0 < virtualNodes ch)%Z.
Proof.
  split; [done|done|]. intros ch ws ps Hvn Hws _ He HF.
  destruct (consistent_hash_spec ch ws ps) as (m & E & HP & HD & _); eauto.
Qed.

Lemma apply_ch_options_positive opts ch :
  (0 < virtualNodes ch)%Z -> (0 < virtualNodes (fold_left apply_ch_option opts ch))%Z.
Proof.
  revert ch. induction opts as [|o opts IH]; intros ch Hvn; simpl; [done|]. apply IH.
  destruct o as [n|sd]; simpl; [|done]. destruct (Z.ltb_spec n 1); lia.
Qed.
End consistent_hash_facts.

(** C37. Minimal movement: for any options, when no two virtual nodes collide,
    removing worker [w] (read backwards: adding it) keeps on every other worker
    all the partitions it had, in the same order, so only the partitions of the
    removed worker move; both assignments are complete. *)
Theorem consistent_hash_minimal_movement `{Xxh3} `{SortFunc} opts ws w ps
    (ch := NewConsistentHash opts) (ws' := filter (λ v, v <> w) ws)
    (Hws : ws' <> []) (He : "" ∉ ws) (Hps : Forall keyed ps)
    (no_collision : NoDup (hash <$> nodes (NewRing ws (virtualNodes ch) (hashSeed ch)))) :
  exists m m',
    (Assign ch ws ps).1 = Ok m /\ (Assign ch ws' ps).1 = Ok m' /\
    flat m ≡ₚ ps /\ flat m' ≡ₚ ps /\
    forall v, v <> w -> m !!! v `sublist_of` m' !!! v.
Proof.
  assert (0 < virtualNodes ch)%Z as Hvn by by apply apply_ch_options_positive.
  destruct (consistent_hash_spec ch ws ps) as (m & E & HP & _ & HL); [done| |done..|].
  { by intros ->. }
  destruct (consistent_hash_spec ch ws' ps) as (m' & E' & HP' & _ & HL'); [done|done| |done|].
  { intros Hin. by apply list_elem_of_filter in Hin as [_ ?]. }
  exists m, m'. split_and!; [done..|]. intros v Hv. rewrite HL, HL'. unfold owned_by.
  clear -no_collision Hv. induction ps as [|p ps IH]; [done|]. rewrite !filter_cons.
  destruct (ring_affinity ws w (virtualNodes ch) (hashSeed ch) p no_collision) as [E|E].
  - rewrite (decide_False (P := GetNodeForPartition (NewRing ws _ _) p = _)) by congruence.
    case_decide; [by apply sublist_cons|done].
  - fold ws' in E. rewrite E. case_decide; [by apply sublist_skip|done].
Qed.

Lemma consistent_hash_minimal_movement_witness :
  let ws := ["w-0"; "w-1"; "w-2"] in
  let ps := [mkPartition ["a"] 0 ""; mkPartition ["b"] 5 ""; mkPartition ["c"; "d"] 0 ""] in
  let ch := NewConsistentHash [WithVirtualNodes 3; WithHashSeed 5] in
  let assign := @Assign _ (@ConsistentHash_strategy toy_xxh3 stable_sort) in
  exists m m',
    (assign ch ws ps).1 = Ok m /\ (assign ch ["w-0"; "w-2"] ps).1 = Ok m' /\
    flat m ≡ₚ ps /\ flat m' ≡ₚ ps /\
    forall v, v <> "w-1" -> m !!! v `sublist_of` m' !!! v.
Proof.
  intros ws ps ch assign.
  apply (@consistent_hash_minimal_movement toy_xxh3 stable_sort
           [WithVirtualNodes 3; WithHashSeed 5] ws "w-1" ps).
  - done.
  - apply (bool_decide_unpack _). vm_compute. exact I.
  - repeat constructor; done.
  - apply (bool_decide_unpack _). vm_compute. exact I.
Defined.

(** ** Weighted consistent hash facts *)

(** [n] workers, and [l] the partitions placed so far. *)
Definition holds (n : nat) (l : list Partition) (st : working) : Prop :=
  length (buckets st) = n /\ length (workerLoad st) = n /\ concat (buckets st) ≡ₚ l.

Lemma concat_insert {A} (bs : list (list A)) i b x :
  bs !! i = Some b -> concat (<[i := b ++ [x]]> bs) ≡ₚ x :: concat bs.
Proof.
  intros Hi. rewrite <- (take_drop_middle bs i b Hi) at 2.
  rewrite insert_take_drop by by eapply lookup_lt_Some. rewrite !concat_app, !concat_cons.
  rewrite <- !app_assoc. simpl. rewrite Permutation_middle. f_equiv. by rewrite Permutation_middle.
Qed.

Lemma push_holds n l st idx p :
  holds n l st -> idx < n -> exists st', push idx p st = Some st' /\ holds n (p :: l) st'.
Proof.
  intros (Hb & Hw & HP) Hi. unfold push.
  destruct (lookup_lt_is_Some_2 (buckets st) idx) as [b Eb]; [lia|]. rewrite Eb. simpl.
  eexists. split; [done|]. split_and!; simpl; [by rewrite length_insert|done|].
  by rewrite concat_insert, HP.
Qed.

Lemma place_holds n l st idx e :
  holds n l st -> idx < n -> exists st', place idx e st = Some st' /\ holds n (partition e :: l) st'.
Proof.
  intros Hh Hi. unfold place. destruct (push_holds n l st idx (partition e) Hh Hi) as (st1 & -> & Hb & Hw & HP).
  simpl. destruct (lookup_lt_is_Some_2 (workerLoad st1) idx) as [x Ex]; [lia|]. rewrite Ex. simpl.
  eexists. split; [done|]. split_and!; simpl; [done|by rewrite length_insert|done].
Qed.

Lemma place_extremes_holds n l i es st :
  0 < n -> holds n l st ->
  exists st', place_extremes n i es st = Some st' /\ holds n ((partition <$> es) ++ l) st'.
Proof.
  intros Hn. revert l i st. induction es as [|e es IH]; intros l i st Hh; cbn [place_extremes]; [by eauto|].
  destruct (place_holds n l st (i `mod` n) e Hh) as (st1 & -> & H1); [apply Nat.mod_upper_bound; lia|].
  simpl. destruct (IH _ (S i) st1 H1) as (st' & -> & Hb & Hw & HP). eexists. split; [done|].
  split_and!; [done..|]. rewrite HP. symmetry. apply Permutation_middle.
Qed.

(** The lightest worker is a worker of minimal load, the first such. *)
Lemma lightest_indexed_spec pre loads i m :
  pre !! i = Some m ->
  (forall j l, pre !! j = Some l -> (m <= l)%Z) ->
  (forall j l, pre !! j = Some l -> j < i -> (m < l)%Z) ->
  exists m', (pre ++ loads) !! lightest_indexed (length pre) loads i m = Some m' /\
    (forall j l, (pre ++ loads) !! j = Some l -> (m' <= l)%Z) /\
    (forall j l, (pre ++ loads) !! j = Some l -> j < lightest_indexed (length pre) loads i m -> (m' < l)%Z).
Proof.
  revert pre i m. induction loads as [|x loads IH]; intros pre i m Hi Hm Hf; cbn [lightest_indexed].
  { rewrite app_nil_r. eauto. }
  replace (pre ++ x :: loads) with ((pre ++ [x]) ++ loads) by by rewrite <- app_assoc.
  replace (S (length pre)) with (length (pre ++ [x])) by (rewrite length_app; simpl; lia).
  assert (forall j l, (pre ++ [x]) !! j = Some l -> pre !! j = Some l \/ (j = length pre /\ l = x)) as Hsnoc.
  { intros j l [?|[? Hj]]%lookup_app_Some; [by left|]. apply list_lookup_singleton_Some in Hj. right. lia. }
  pose proof (lookup_lt_Some _ _ _ Hi).
  destruct (Z.ltb_spec x m); apply IH.
  - apply list_lookup_middle. done.
  - intros j l [Hj|[_ ->]]%Hsnoc; [|lia]. specialize (Hm _ _ Hj). lia.
  - intros j l [Hj|[-> _]]%Hsnoc Hlt; [|lia]. specialize (Hm _ _ Hj). lia.
  - by rewrite lookup_app_l.
  - intros j l [Hj|[_ ->]]%Hsnoc; [by eapply Hm|lia].
  - intros j l [Hj|[-> _]]%Hsnoc Hlt; [by eapply Hf|lia].
Qed.

Lemma findLightestWorkerIndexed_spec loads :
  loads <> [] -> exists i m, findLightestWorkerIndexed loads = Some i /\ loads !! i = Some m /\
    forall j l, loads !! j = Some l -> (m <= l)%Z.
Proof.
  destruct loads as [|l0 loads]; [done|]. intros _. simpl.
  destruct (lightest_indexed_spec [l0] loads 0 l0) as (m & Hi & Hm & _); [done| | |].
  - intros [|j] l Hj; simplify_eq/=; lia.
  - intros; lia.
  - eauto.
Qed.

Lemma fill_map_spec ws bs (m0 : assignment) :
  NoDup ws -> length ws = length bs -> (forall w, w ∈ ws -> m0 !! w = None) ->
  exists m, fill_map ws bs m0 = Some m /\ flat m ≡ₚ concat bs ++ flat m0 /\
    dom m = list_to_set ws ∪ dom m0 /\ (forall w, w ∉ ws -> m !! w = m0 !! w) /\
    forall i w b, ws !! i = Some w -> bs !! i = Some b -> m !!! w = b.
Proof.
  intros HN. revert bs m0. induction HN as [|w ws Hw HN IH]; intros [|b bs] m0 HL Hm; simplify_eq/=.
  { exists m0. split_and!; [done..|set_solver|done|done]. }
  destruct (IH bs (<[w := b]> m0)) as (m & E & HP & HD & Ho & Hi); [done| |].
  { intros v Hv. rewrite lookup_insert_ne by (intros ->; done). apply Hm. by right. }
  exists m. split_and!; [done| | | |].
  - rewrite HP, flat_insert_None by (apply Hm; left).
    by rewrite (assoc_L (++)), (comm (++) (concat bs)), <- app_assoc.
  - rewrite HD, dom_insert_L. set_solver.
  - intros v Hv. rewrite Ho by set_solver. rewrite lookup_insert_ne by set_solver. done.
  - intros [|i] v b' Hv Hb; simplify_eq/=; [|by eapply Hi].
    rewrite lookup_total_alt, Ho by done. by rewrite lookup_insert_eq.
Qed.

Lemma convertBucketsToMap_spec ws bs :
  NoDup ws -> length ws = length bs ->
  exists m, convertBucketsToMap ws bs = Some m /\ flat m ≡ₚ concat bs /\ dom m = list_to_set ws /\
    forall i w b, ws !! i = Some w -> bs !! i = Some b -> m !!! w = b.
Proof.
  intros HN HL. destruct (fill_map_spec ws bs ∅) as (m & E & HP & HD & _ & Hi); [done..|]. exists m.
  rewrite flat_empty, app_nil_r in HP. split_and!; [done..| |done]. rewrite HD. set_solver.
Qed.

Section weighted_facts.
Context `{Xxh3} `{SortFunc} (float_to_int : float64 -> Z).

(** Every keyed partition has an owner index among [n] workers. *)
Definition indexed (n : nat) (r : Ring) : Prop :=
  forall p, keyed p -> exists i, GetNodeIndexForPartition r p = Some (Z.of_nat i) /\ i < n.

Lemma NewRing_indexed ws vn sd :
  ws <> [] -> NoDup ws -> (0 < vn)%Z -> indexed (length ws) (NewRing ws vn sd).
Proof.
  intros Hws HN Hvn p Hp. destruct (ring_owner ws vn sd p Hws Hvn Hp) as (w & i & _ & _ & Hi & Hw).
  exists i. split; [done|]. apply lookup_lt_Some in Hw. simpl in Hw. by rewrite dedup_workers_id in Hw.
Qed.

Lemma assign_equal_holds n l r ps st :
  indexed n r -> Forall keyed ps -> holds n l st ->
  exists st', assignEqualWeightPartitionsByRingIndex r ps st = Ok st' /\ holds n (ps ++ l) st'.
Proof.
  intros Hr HF. revert l st. induction HF as [|p ps Hp HF IH]; intros l st Hh; [by eexists|].
  cbn [assignEqualWeightPartitionsByRingIndex]. destruct (Hr p Hp) as (i & -> & Hi). simpl.
  destruct (Z.ltb_spec (Z.of_nat i) 0); [lia|]. rewrite Nat2Z.id.
  destruct (push_holds n l st i p Hh Hi) as (st1 & -> & Hst1). simpl.
  destruct (IH _ st1 Hst1) as (st' & -> & Hb & Hw & HP). eexists. split; [done|].
  split_and!; [done..|]. rewrite HP. symmetry. apply Permutation_middle.
Qed.

Lemma choose_worker_bound n l st cap mn idx e :
  holds n l st -> idx < n -> exists idx' over, choose_worker st cap mn idx e = Some (idx', over) /\ idx' < n.
Proof.
  intros (Hb & Hw & _) Hi. unfold choose_worker.
  destruct (lookup_lt_is_Some_2 (workerLoad st) idx) as [x Ex]; [lia|].
  destruct (lookup_lt_is_Some_2 (buckets st) idx) as [b Eb]; [lia|]. rewrite Ex, Eb. simpl.
  case_match; [|by eauto].
  destruct (findLightestWorkerIndexed_spec (workerLoad st)) as (j & m & -> & Hj & _).
  { intros E. by rewrite E in Ex. }
  simpl. rewrite Hj. simpl. eexists _, _. split; [done|]. apply lookup_lt_Some in Hj. lia.
Qed.

Lemma assign_normal_holds n l es r st cap mn k :
  indexed n r -> Forall (λ e, keyed (partition e)) es -> holds n l st ->
  exists st' k', assignNormalPartitionsByRingIndex es r st cap mn k = Ok (st', k') /\
    holds n ((partition <$> es) ++ l) st'.
Proof.
  intros Hr HF. revert l st k. induction HF as [|e es He HF IH]; intros l st k Hh; [by eexists _, _|].
  cbn [assignNormalPartitionsByRingIndex]. destruct (Hr _ He) as (i & -> & Hi). simpl.
  destruct (Z.ltb_spec (Z.of_nat i) 0); [lia|]. rewrite Nat2Z.id.
  destruct (choose_worker_bound n l st cap mn i e Hh Hi) as (j & over & -> & Hj). simpl.
  destruct (place_holds n l st j e Hh Hj) as (st1 & -> & Hst1). simpl.
  destruct (IH _ st1 (if over then S k else k) Hst1) as (st' & k' & -> & Hb & Hw & HP).
  eexists _, _. split; [done|]. split_and!; [done..|]. rewrite HP. symmetry. apply Permutation_middle.
Qed.

Lemma splitPartitions_spec c ps cut :
  let '(ex, no) := splitPartitions c ps cut in
  (partition <$> ex) ++ (partition <$> no) ≡ₚ ps /\
  Forall (λ e, is_extreme cut e = true /\ weight e = effectiveWeight c (Weight (partition e))) ex /\
  Forall (λ e, weight e = effectiveWeight c (Weight (partition e))) no.
Proof.
  induction ps as [|p ps IH]; cbn [splitPartitions]; [done|].
  destruct (splitPartitions c ps cut) as [ex no]. destruct IH as (HP & HE & HNo).
  destruct (is_extreme cut _) eqn:E.
  - split_and!; [csimpl; by rewrite HP|by constructor|done].
  - split_and!; [csimpl; by rewrite <- Permutation_middle, HP|done|by constructor].
Qed.

Lemma assign_two_phase_holds c r n ws ps tot st :
  indexed n r -> length ws = n -> 0 < n -> Forall keyed ps -> holds n [] st ->
  exists st' k, assign_two_phase float_to_int c r ws ps tot st = Ok (st', k) /\ holds n ps st'.
Proof.
  intros Hr <- Hn HF Hh. unfold assign_two_phase. set (th := computeThresholds _ _ _ _ _).
  pose proof (splitPartitions_spec c ps (extremeCutoff th)) as HS.
  destruct (splitPartitions c ps _) as [ex no]. destruct HS as (HP & _ & _).
  assert (exists st1, assignExtremePartitionsIndexed ex ws st = Some st1 /\ holds (length ws) (partition <$> ex) st1)
    as (st1 & -> & Hst1).
  { unfold assignExtremePartitionsIndexed. case_decide as E.
    - apply length_zero_iff_nil in E as ->. by exists st.
    - destruct (place_extremes_holds (length ws) [] 0 (sort_func cmp_entry ex) st) as (st1 & -> & Hb & Hw & HP1); [done..|].
      exists st1. split; [done|]. split_and!; [done..|]. by rewrite HP1, app_nil_r, sort_func_perm. }
  cbn [or_panic mbind res_bind]. destruct (assign_normal_holds (length ws) (partition <$> ex) no r st1 (maxWorkerWeight th)
    (min_partition_count float_to_int c (length ps) (length ws)) 0 Hr) as (st' & k & -> & Hb & Hw & HP2); [|done|].
  - rewrite <- HP in HF. apply Forall_app in HF as [_ HF]. exact (proj1 (Forall_fmap partition keyed no) HF).
  - eexists _, _. split; [done|]. split_and!; [done..|]. by rewrite HP2, (comm (++)), HP.
Qed.

Definition weighted_inv (c : WeightedConsistentHash) : Prop :=
  (0 < wch_virtualNodes c)%Z /\
  forall k, cache c = Some k -> cachedRing k = NewRing (cachedWorkers k) (cachedVirtual k) (cachedSeed k).

(** The configuration without the cache. *)
Definition fresh (c : WeightedConsistentHash) : WeightedConsistentHash :=
  mkWCH (wch_virtualNodes c) (wch_hashSeed c) (overloadThreshold c) (extremeThreshold c)
    (minPartitionCountFactor c) (defaultWeight c) None.

Lemma getOrBuildRing_spec c ws :
  weighted_inv c ->
  exists c', getOrBuildRing c ws = (NewRing ws (wch_virtualNodes c) (wch_hashSeed c), c') /\
    weighted_inv c' /\ fresh c' = fresh c.
Proof.
  intros [Hvn Hc]. unfold getOrBuildRing. destruct (cache c) as [k|] eqn:E.
  - case_decide as Hd; [|by (eexists; split_and!; [done|split; [done|by intros ? [= <-]]|done])].
    destruct Hd as (E1 & E2 & E3). exists c. rewrite (Hc k), E1, E2, E3 by done.
    split_and!; [done| |done]. split; [done|]. rewrite E. apply Hc.
  - eexists. split_and!; [done|split; [done|by intros ? [= <-]]|done].
Qed.

Lemma prepare_holds ws : holds (length ws) [] (prepare ws).2.
Proof.
  unfold holds. simpl. rewrite !length_replicate, length_sort_strings. split_and!; [done..|].
  generalize (length ws) as n. by induction n.
Qed.

Lemma analyze_rest_fresh c f ps t b : analyze_rest (fresh c) f ps t b = analyze_rest c f ps t b.
Proof. revert t b. induction ps as [|q ps IH]; intros t b; [done|]. cbn [analyze_rest]. by rewrite IH. Qed.

Lemma analyzeWeights_fresh c ps : analyzeWeights (fresh c) ps = analyzeWeights c ps.
Proof. destruct ps as [|p ps]; [done|]. unfold analyzeWeights. by rewrite analyze_rest_fresh. Qed.

Lemma splitPartitions_fresh c ps cut : splitPartitions (fresh c) ps cut = splitPartitions c ps cut.
Proof. induction ps as [|p ps IH]; [done|]. cbn [splitPartitions]. by rewrite IH. Qed.

Lemma assign_two_phase_fresh c r ws ps tot st :
  assign_two_phase float_to_int (fresh c) r ws ps tot st = assign_two_phase float_to_int c r ws ps tot st.
Proof. unfold assign_two_phase. by rewrite splitPartitions_fresh. Qed.

Lemma weighted_spec c ws ps :
  weighted_inv c -> ws <> [] -> NoDup ws -> Forall keyed ps ->
  exists m, (weighted_assign float_to_int c ws ps).1 = Ok m /\
    (weighted_assign float_to_int (fresh c) ws ps).1 = Ok m /\
    flat m ≡ₚ ps /\ dom m = list_to_set ws.
Proof.
  intros Hc Hws HN HF. unfold weighted_assign.
  rewrite !(decide_False (P := length ws = 0)) by by rewrite length_zero_iff_nil.
  pose proof (prepare_holds ws) as Hh. unfold prepare in *. cbn [snd] in Hh.
  assert (NoDup (sort_strings ws)) as HNs by by rewrite sort_strings_perm.
  assert (forall st, holds (length ws) ps st -> exists m, convertBucketsToMap (sort_strings ws) (buckets st) = Some m /\
    flat m ≡ₚ ps /\ dom m = list_to_set ws) as Hconv.
  { intros st (Hb & _ & HP).
    destruct (convertBucketsToMap_spec (sort_strings ws) (buckets st)) as (m & E & HP' & HD & _); [done| |].
    { by rewrite length_sort_strings, Hb. }
    exists m. split_and!; [done|by rewrite HP'|]. rewrite HD. apply set_eq. intros w.
    by rewrite !elem_of_list_to_set, elem_of_sort_strings. }
  destruct (decide (length ps = 0)) as [Hlen|Hlen].
  { apply length_zero_iff_nil in Hlen as ->. destruct (Hconv _ Hh) as (m & E & HP & HD).
    exists m. cbn [buckets fst] in *. by rewrite E. }
  destruct (getOrBuildRing_spec c (sort_strings ws) Hc) as (c' & -> & _ & _).
  unfold getOrBuildRing. cbn [cache fresh wch_virtualNodes wch_hashSeed].
  rewrite analyzeWeights_fresh. destruct (analyzeWeights c ps) as [tot eq].
  assert (indexed (length ws) (NewRing (sort_strings ws) (wch_virtualNodes c) (wch_hashSeed c))) as Hr.
  { rewrite <- (length_sort_strings ws). apply NewRing_indexed; [by apply sort_strings_nonempty|done|apply Hc]. }
  destruct eq; cbn [fst snd].
  - destruct (assign_equal_holds (length ws) [] _ ps _ Hr HF Hh) as (st & -> & Hst).
    rewrite app_nil_r in Hst. destruct (Hconv st Hst) as (m & E & HP & HD). exists m. simpl. by rewrite E.
  - rewrite assign_two_phase_fresh. set (st0 := mkWorking _ _) in *.
    destruct (assign_two_phase_holds c _ (length ws) (sort_strings ws) ps tot st0 Hr) as (st & k & E2 & Hst);
      [by rewrite length_sort_strings|destruct ws; simpl; [done|lia]|done|exact Hh|].
    destruct (Hconv st Hst) as (m & E & HP & HD). exists m. rewrite E2. simpl. by rewrite E.
Qed.

Lemma weighted_assign_inv c ws ps :
  weighted_inv c ->
  weighted_inv (weighted_assign float_to_int c ws ps).2 /\
  fresh (weighted_assign float_to_int c ws ps).2 = fresh c.
Proof.
  intros Hc. unfold weighted_assign. case_decide; [done|]. simpl. case_decide; [done|].
  destruct (analyzeWeights c ps). destruct (getOrBuildRing_spec c (sort_strings ws) Hc) as (c' & -> & ? & ?). done.
Qed.

#[export] Instance WeightedConsistentHash_laws :
  @StrategyLaws WeightedConsistentHash (WeightedConsistentHash_strategy float_to_int) weighted_inv.
Proof.
  split; [intros; by apply weighted_assign_inv|done|]. intros c ws ps Hc Hws HN _ HF.
  destruct (weighted_spec c ws ps) as (m & E & _ & HP & HD); eauto.
Qed.

Lemma NewWeightedConsistentHash_inv opts :
  weighted_inv (NewWeightedConsistentHash opts) /\
  fresh (NewWeightedConsistentHash opts) = NewWeightedConsistentHash opts.
Proof.
  unfold NewWeightedConsistentHash. set (c0 := mkWCH _ _ _ _ _ _ _).
  assert (cache c0 = None) as Hc0 by done. clearbody c0.
  assert (cache (fold_left apply_wch_option opts c0) = None) as Hc.
  { revert c0 Hc0. induction opts as [|o opts IH]; intros c0 Hc0; [done|]. simpl. apply IH. by destruct c0, o. }
  destruct (fold_left _ _ _) as [vn sd ot et mf dw ca]. simpl in Hc. subst. simpl.
  split; [|done]. split; [|done]. simpl. destruct (Z.ltb_spec vn 1); lia.
Qed.

(** Weighing a bucket the way [analyzeWeights] and [assign...] do. *)
Definition bucket_weight (c : WeightedConsistentHash) (b : list Partition) : Z :=
  foldr (λ p acc, effectiveWeight c (Weight p) + acc)%Z 0%Z b.

Definition beyond_cap (cap : float64) (load : Z) : bool :=
  f64_ltb f64_zero cap && f64_ltb cap (f64_of_Z load).

(** [workerLoad] is the weight of the bucket, modulo [int64], and a worker
    beyond the cap has at most [mn] partitions or only extreme ones. *)
Definition capped (c : WeightedConsistentHash) (cut cap : float64) (mn : Z) (st : working) : Prop :=
  forall i b x, buckets st !! i = Some b -> workerLoad st !! i = Some x ->
    x = wrap64 (bucket_weight c b) /\
    (Forall (λ p, is_extreme cut (mkEntry p (effectiveWeight c (Weight p))) = true) b \/
     beyond_cap cap x = false \/ (Z.of_nat (length b) <= mn)%Z).

Lemma bucket_weight_snoc c b p : bucket_weight c (b ++ [p]) = (bucket_weight c b + effectiveWeight c (Weight p))%Z.
Proof. induction b as [|q b IH]; simpl; [lia|]. unfold bucket_weight in *. lia. Qed.

Lemma place_Some idx e st st' :
  place idx e st = Some st' ->
  exists b x, buckets st !! idx = Some b /\ workerLoad st !! idx = Some x /\
    st' = mkWorking (<[idx := b ++ [partition e]]> (buckets st))
                    (<[idx := wrap64 (x + weight e)]> (workerLoad st)).
Proof. unfold place, push. intros. inv_ok. simpl in *. eauto. Qed.

(** One placement keeps the invariant if the new bucket satisfies it. *)
Lemma capped_place c cut cap mn idx e st st' :
  capped c cut cap mn st -> weight e = effectiveWeight c (Weight (partition e)) ->
  place idx e st = Some st' ->
  (forall b x, buckets st !! idx = Some b -> workerLoad st !! idx = Some x ->
     Forall (λ p, is_extreme cut (mkEntry p (effectiveWeight c (Weight p))) = true) (b ++ [partition e]) \/
     beyond_cap cap (wrap64 (x + weight e)) = false \/ (Z.of_nat (S (length b)) <= mn)%Z) ->
  capped c cut cap mn st'.
Proof.
  intros HC Hw (b & x & Hb & Hx & ->)%place_Some Hnew j b' x'. cbn [buckets workerLoad].
  destruct (decide (idx = j)) as [<-|N].
  - rewrite !list_lookup_insert_eq by by eapply lookup_lt_Some. intros [= <-] [= <-].
    destruct (HC idx b x Hb Hx) as [-> _]. split.
    + by rewrite wrap64_add_l, bucket_weight_snoc, Hw.
    + rewrite length_app. simpl. rewrite Nat.add_1_r. by apply Hnew.
  - rewrite !list_lookup_insert_ne by done. apply HC.
Qed.

Lemma capped_extremes c cut cap mn n i es st st' :
  Forall (λ e, is_extreme cut e = true /\ weight e = effectiveWeight c (Weight (partition e))) es ->
  (forall b, b ∈ buckets st ->
     Forall (λ p, is_extreme cut (mkEntry p (effectiveWeight c (Weight p))) = true) b) ->
  capped c cut cap mn st -> place_extremes n i es st = Some st' -> capped c cut cap mn st'.
Proof.
  intros HF. revert i st. induction HF as [|e es [He Hw] HF IH]; intros i st Hb HC; cbn [place_extremes];
    [by intros [= <-]|]. intros E. inv_ok. rename x into st1.
  assert (forall b, buckets st !! (i `mod` n) = Some b ->
    Forall (λ p, is_extreme cut (mkEntry p (effectiveWeight c (Weight p))) = true) (b ++ [partition e])) as Hsnoc.
  { intros b Eb. apply Forall_app. split; [by eapply Hb, list_elem_of_lookup_2|].
    constructor; [|done]. rewrite <- Hw. by destruct e. }
  eapply IH; [|eapply capped_place; eauto|done]. intros b [j Hj]%list_elem_of_lookup.
  apply place_Some in H1 as (b0 & x & Hb0 & Hx & ->). cbn [buckets] in Hj.
  apply list_lookup_insert_Some in Hj as [(<- & <- & _)|(_ & Hj)]; [by apply Hsnoc|].
  by eapply Hb, list_elem_of_lookup_2.
Qed.

Lemma choose_worker_cap cut c st cap mn idx e idx' st' :
  capped c cut cap mn st -> weight e = effectiveWeight c (Weight (partition e)) ->
  choose_worker st cap mn idx e = Some (idx', false) -> place idx' e st = Some st' ->
  capped c cut cap mn st'.
Proof.
  intros HC Hw Hch Hp. eapply capped_place; eauto. intros b x Hb Hx. right.
  unfold choose_worker in Hch. inv_ok. unfold over_cap in *. unfold beyond_cap.
  destruct (_ && _ && _) eqn:E; inv_ok; [by left|].
  apply andb_false_iff in E as [E|E]; [by left|]. right. apply Z.leb_gt in E. lia.
Qed.

(** One round of the normal phase. *)
Lemma assign_normal_step e es r st cap mn k st' k' :
  assignNormalPartitionsByRingIndex (e :: es) r st cap mn k = Ok (st', k') ->
  exists idx idx' over st1,
    choose_worker st cap mn idx e = Some (idx', over) /\ place idx' e st = Some st1 /\
    assignNormalPartitionsByRingIndex es r st1 cap mn (if over then S k else k) = Ok (st', k').
Proof.
  cbn [assignNormalPartitionsByRingIndex]. intros E.
  apply res_bind_Ok in E as (idx & Ei & E). case_match; [done|].
  apply res_bind_Ok in E as ([idx' over] & Ec & E). apply res_bind_Ok in E as (st1 & Ep & E).
  destruct (choose_worker _ _ _ _ _) as [[? ?]|] eqn:Ech; simplify_eq/=.
  destruct (place _ _ _) as [?|] eqn:Epl; simplify_eq/=. eauto 10.
Qed.

Lemma overflow_monotone es r st cap mn k st' k' :
  assignNormalPartitionsByRingIndex es r st cap mn k = Ok (st', k') -> k <= k'.
Proof.
  revert st k. induction es as [|e es IH]; intros st k; [by intros [= -> ->]|].
  intros (? & ? & over & ? & _ & _ & E)%assign_normal_step. apply IH in E. destruct over; lia.
Qed.

Lemma assign_normal_capped c cut es r st cap mn k st' :
  Forall (λ e, weight e = effectiveWeight c (Weight (partition e))) es ->
  assignNormalPartitionsByRingIndex es r st cap mn k = Ok (st', 0) ->
  capped c cut cap mn st -> capped c cut cap mn st'.
Proof.
  intros HF. revert st k. induction HF as [|e es He HF IH]; intros st k E HC; [by simplify_eq/=|].
  apply assign_normal_step in E as (idx & idx' & over & st1 & Ech & Epl & E).
  destruct over; [apply overflow_monotone in E; lia|]. eapply IH; eauto using choose_worker_cap.
Qed.

Lemma prepare_capped c cut cap mn ws : capped c cut cap mn (prepare ws).2.
Proof.
  intros i b x Hb Hx. simpl in *. apply lookup_replicate_1 in Hb as [-> _].
  apply lookup_replicate_1 in Hx as [-> _]. split; [done|]. left. constructor.
Qed.
End weighted_facts.

(** C35. Weighted consistent hashing is complete and its ring cache is
    invisible: after any history of assignments, over distinct workers, a call
    gives every partition to exactly one worker, lists every worker, and
    returns what a freshly configured strategy would return. *)
Theorem weighted_complete_cache_transparent `{Xxh3} `{SortFunc} float_to_int opts
    (history : list (list string * list Partition)) ws ps
    (c := fold_left (λ c q, (weighted_assign float_to_int c q.1 q.2).2) history
            (NewWeightedConsistentHash opts))
    (Hws : ws <> []) (HN : NoDup ws) (Hps : Forall keyed ps) :
  exists m,
    (weighted_assign float_to_int c ws ps).1 = Ok m /\
    (weighted_assign float_to_int (NewWeightedConsistentHash opts) ws ps).1 = Ok m /\
    flat m ≡ₚ ps /\ dom m = list_to_set ws.
Proof.
  destruct (NewWeightedConsistentHash_inv opts) as [Hi Hf].
  assert (weighted_inv c /\ fresh c = NewWeightedConsistentHash opts) as [Hc Hfc].
  { unfold c. clear c. rewrite <- Hf at 3. clear Hf. revert Hi. generalize (NewWeightedConsistentHash opts) as c0.
    induction history as [|q history IH]; intros c0 Hc0; [done|]. simpl.
    destruct (weighted_assign_inv float_to_int c0 q.1 q.2 Hc0) as [H1 <-]. by apply IH. }
  rewrite <- Hfc. by apply weighted_spec.
Qed.

Lemma weighted_complete_cache_transparent_witness :
  let ws := ["w-1"; "w-0"] in
  let ps := [mkPartition ["a"] 100 ""; mkPartition ["b"] 0 ""; mkPartition ["c"] 3 ""] in
  let assign := @weighted_assign toy_xxh3 stable_sort (λ _, 0%Z) in
  let s := NewWeightedConsistentHash [WithWeightedVirtualNodes 2] in
  exists m,
    (assign (assign s ["w-9"] ps).2 ws ps).1 = Ok m /\ (assign s ws ps).1 = Ok m /\
    flat m ≡ₚ ps /\ dom m = list_to_set ws.
Proof.
  intros ws ps assign s.
  apply (@weighted_complete_cache_transparent toy_xxh3 stable_sort (λ _, 0%Z)
           [WithWeightedVirtualNodes 2] [(["w-9"], ps)] ws ps); [done| |by repeat constructor].
  apply (bool_decide_unpack _). vm_compute. exact I.
Defined.

(** C36. The soft load cap: when the two-phase assignment reports no overflow,
    every worker's recorded load is the weight of its bucket (modulo the
    [int64] width), and a worker whose load is above
    [avgWorkerWeight * overloadThreshold] holds only extreme partitions or no
    more than the minimum partition count. *)
Theorem weighted_soft_cap `{Xxh3} `{SortFunc} float_to_int c r ws ps total st'
    (th := computeThresholds total (length ps) (length ws) (extremeThreshold c) (overloadThreshold c))
    (HE : assign_two_phase float_to_int c r (sort_strings ws) ps total (prepare ws).2 = Ok (st', 0))
    i b load (Hb : buckets st' !! i = Some b) (Hl : workerLoad st' !! i = Some load) :
  load = wrap64 (bucket_weight c b) /\
  (Forall (λ p, is_extreme (extremeCutoff th) (mkEntry p (effectiveWeight c (Weight p))) = true) b \/
   beyond_cap (maxWorkerWeight th) load = false \/
   (Z.of_nat (length b) <= min_partition_count float_to_int c (length ps) (length ws))%Z).
Proof.
  unfold assign_two_phase in HE. rewrite length_sort_strings in HE. fold th in HE. clearbody th.
  pose proof (splitPartitions_spec c ps (extremeCutoff th)) as HS.
  destruct (splitPartitions c ps _) as [ex no]. destruct HS as (_ & Hex & Hno).
  apply res_bind_Ok in HE as (st1 & E1 & HE).
  destruct (assignExtremePartitionsIndexed _ _ _) as [st1'|] eqn:E; cbn [or_panic] in E1; simplify_eq.
  revert i b load Hb Hl. change (capped c (extremeCutoff th) (maxWorkerWeight th)
    (min_partition_count float_to_int c (length ps) (length ws)) st').
  eapply assign_normal_capped; [done|done|]. unfold assignExtremePartitionsIndexed in E.
  destruct (decide (length ex = 0)); [injection E as <-; apply prepare_capped|].
  eapply capped_extremes; [| |apply prepare_capped|exact E]; [by rewrite sort_func_perm|].
  intros b Hb. simpl in Hb. apply elem_of_replicate in Hb as [-> _]. constructor.
Qed.

Lemma weighted_soft_cap_witness :
  let c := NewWeightedConsistentHash [WithWeightedVirtualNodes 2] in
  let ws := ["w-1"; "w-0"] in
  let ps := [mkPartition ["a"] 4 ""; mkPartition ["b"] 0 ""; mkPartition ["c"] 3 ""] in
  let r := @NewRing toy_xxh3 stable_sort ["w-0"; "w-1"] 2 0 in
  let th := computeThresholds 8 3 2 (extremeThreshold c) (overloadThreshold c) in
  exists b load,
    load = wrap64 (bucket_weight c b) /\
    (Forall (λ p, is_extreme (extremeCutoff th) (mkEntry p (effectiveWeight c (Weight p))) = true) b \/
     beyond_cap (maxWorkerWeight th) load = false \/
     (Z.of_nat (length b) <= min_partition_count (λ _, 0%Z) c 3 2)%Z).
Proof.
  intros c ws ps r th.
  destruct (@assign_two_phase toy_xxh3 stable_sort (λ _, 0%Z) c r (sort_strings ws) ps 8 (prepare ws).2)
    as [[st k]|] eqn:E; [|vm_compute in E; discriminate E].
  assert (k = 0) as -> by (vm_compute in E; congruence).
  destruct (buckets st !! 0) as [b|] eqn:Eb; [|vm_compute in E; simplify_eq; discriminate Eb].
  destruct (workerLoad st !! 0) as [x|] eqn:Ex; [|vm_compute in E; simplify_eq; discriminate Ex].
  exists b, x. exact (@weighted_soft_cap toy_xxh3 stable_sort (λ _, 0%Z) c r ws ps 8 st E 0 b x Eb Ex).
Defined.
