(* ===== verification/Labels.v ===== *)
(** * Label pipeline (internal/assignment/labels.go, labels_state.go)

    Workers are split into label pools and partitions into label groups; the
    strategy runs once per group and the results are merged. [labelState]
    decides, from consecutive observations, whether the partitions of a label
    without workers wait (park) or spill onto other workers. *)
From S2P Require Import Prelude Partition Strategy.

(** ** Topology *)

(** [Unknown] is the set of keys of the source's [map[string]bool], whose
    values are all [true]. *)
Record topologyInput := mkTopologyInput {
  Workers : list string;
  Labels : gmap string (list string);
  Unknown : gset string;
  Partitions : list Partition;
  Policy : string;
}.

Record labelTopology := mkTopology {
  Pools : gmap string (list string);
  Groups : gmap string (list Partition);
  SortedLabels : list string;
  EmptyLabels : list string;
  GeneralPool : list string;
  FallbackPool : list string;
  AllWorkers : list string;
  UnknownSet : gset string;
}.

Inductive emptyPoolAction := emptyPoolPark | emptyPoolSpill.

#[export] Instance emptyPoolAction_eq_dec : EqDecision emptyPoolAction.
Proof. solve_decision. Defined.

Definition labels_of (i : topologyInput) (w : string) : list string := default [] (Labels i !! w).

(** One pass over the active workers: pools in discovery order. *)
Definition add_to_pools (ls : list string) (w : string) (pools : gmap string (list string)) :
    gmap string (list string) :=
  fold_left (λ m l, map_append l w m) ls pools.

Definition raw_pools (i : topologyInput) : gmap string (list string) :=
  fold_left (λ m w, add_to_pools (labels_of i w) w m) (filter (λ w, w ∉ Unknown i) (Workers i)) ∅.

Definition group_by_label (ps : list Partition) : gmap string (list Partition) :=
  fold_left (λ m p, map_append (Label p) p m) ps ∅.

Definition map_keys {A} (m : gmap string A) : list string := fst <$> map_to_list m.

Definition buildLabelTopology (i : topologyInput) : labelTopology :=
  let known := filter (λ w, w ∉ Unknown i) (Workers i) in
  let all := sort_strings known in
  let fallback := sort_strings (filter (λ w, length (labels_of i w) = 0) known) in
  let pools := sort_strings <$> raw_pools i in
  let groups := group_by_label (Partitions i) in
  let labels := filter (λ l, l <> "") (map_keys groups) in
  {| Pools := pools;
     Groups := groups;
     SortedLabels := sort_strings labels;
     EmptyLabels := sort_strings (filter (λ l, length (pools !!! l) = 0) labels);
     GeneralPool := if decide (Policy i = "shared") then all else fallback;
     FallbackPool := fallback;
     AllWorkers := all;
     UnknownSet := Unknown i |}.

(** ** Assignment per pool *)

Inductive label_err :=
| NoWorkersFor (what : string)
| StrategyFailed (what : string) (e : strategy_err).

(** [merged[w] = append(merged[w], ps...)] for every entry of the strategy's
    result; a nil and an empty slice are not distinguished. *)
Definition merge_into (merged out : assignment) : assignment :=
  union_with (λ cur ps, Some (cur ++ ps)) merged out.

Section compute.
Context {S : Type} `{Strategy S}.

Definition assignGroup (topo : labelTopology) (pool : list string) (group : list Partition)
    (what : string) (st : S * assignment) : res label_err (S * assignment) :=
  let '(s, merged) := st in
  if decide (length group = 0) then Ok (s, merged)
  else
    let pool := if decide (length pool = 0) then AllWorkers topo else pool in
    if decide (length pool = 0) then Err (NoWorkersFor what)
    else
      match Assign s pool group with
      | (Ok out, s') => Ok (s', merge_into merged out)
      | (Err e, _) => Err (StrategyFailed what e)
      end.

Definition action_of (actions : gmap string emptyPoolAction) (l : string) : emptyPoolAction :=
  default emptyPoolPark (actions !! l).

Fixpoint assign_labels (topo : labelTopology) (actions : gmap string emptyPoolAction)
    (ls : list string) (st : S * assignment) (parked : list Partition) :
    res label_err (S * assignment * list Partition) :=
  match ls with
  | [] => Ok (st, parked)
  | l :: ls' =>
      let pool := Pools topo !!! l in
      let group := Groups topo !!! l in
      if decide (0 < length pool) then
        st' ← assignGroup topo pool group ("label " +:+ l) st;
        assign_labels topo actions ls' st' parked
      else
        match action_of actions l with
        | emptyPoolSpill =>
            st' ← assignGroup topo (FallbackPool topo) group ("spilled label " +:+ l) st;
            assign_labels topo actions ls' st' parked
        | emptyPoolPark => assign_labels topo actions ls' st (parked ++ group)
        end
  end.

Definition add_missing (ws : list string) (merged : assignment) : assignment :=
  fold_left (λ m w, match m !! w with Some _ => m | None => <[w := []]> m end) ws merged.

Definition computeLabelAssignments (s : S) (topo : labelTopology)
    (actions : gmap string emptyPoolAction) :
    res label_err (S * assignment * list Partition) :=
  st ← assignGroup topo (GeneralPool topo) (Groups topo !!! "") "unlabeled group" (s, ∅);
  '(s', merged, parked) ← assign_labels topo actions (SortedLabels topo) st [];
  let merged := add_missing (AllWorkers topo) merged in
  let merged := set_fold (λ w m, <[w := []]> m) merged (UnknownSet topo) in
  Ok (s', merged, parked).
End compute.

(** ** Grace clocks and confirmation streaks *)

Record labelState := mkLabelState {
  grace : Z;
  emptySince : gmap string Z;
  emptyStreak : gmap string nat;
  unknownStreak : gmap string nat;
}.

Definition newLabelState (g : Z) : labelState := mkLabelState g ∅ ∅ ∅.

Definition streak (m : gmap string nat) (k : string) : nat := default 0 (m !! k).

(** The local state of the loop of [observeEmptyPools]. *)
Record empty_loop := mkEmptyLoop {
  el_since : gmap string Z;
  el_streak : gmap string nat;
  el_actions : gmap string emptyPoolAction;
  el_deferred : bool;
}.

Definition observe_empty_one (g now : Z) (st : empty_loop) (l : string) : empty_loop :=
  let '(mkEmptyLoop since streaks actions deferred) := st in
  let since := match since !! l with Some _ => since | None => <[l := now]> since end in
  let n := S (streak streaks l) in
  let streaks := <[l := n]> streaks in
  if decide (n < 2) then mkEmptyLoop since streaks actions true
  else
    let t0 := default now (since !! l) in
    let a := if decide (time_sub now t0 < g)%Z then emptyPoolPark else emptyPoolSpill in
    mkEmptyLoop since streaks (<[l := a]> actions) deferred.

Definition observeEmptyPools (now : Z) (empty : list string) (s : labelState) :
    labelState * gmap string emptyPoolAction * bool :=
  let st := fold_left (observe_empty_one (grace s) now) empty
              (mkEmptyLoop (emptySince s) (emptyStreak s) ∅ false) in
  (mkLabelState (grace s) (el_since st) (el_streak st) (unknownStreak s),
   el_actions st, el_deferred st).

Definition observeNonEmpty (labels : list string) (s : labelState) : labelState :=
  mkLabelState (grace s)
    (fold_left (λ m l, delete l m) labels (emptySince s))
    (fold_left (λ m l, delete l m) labels (emptyStreak s))
    (unknownStreak s).

Definition observe_unknown_one (st : gmap string nat * bool) (w : string) : gmap string nat * bool :=
  let n := S (streak st.1 w) in
  (<[w := n]> st.1, if decide (n < 2) then true else st.2).

Definition observeUnknownWorkers (unknown : list string) (s : labelState) : labelState * bool :=
  if decide (length unknown = 0) then
    (mkLabelState (grace s) (emptySince s) (emptyStreak s) ∅, false)
  else
    let '(streaks, deferred) := fold_left observe_unknown_one unknown (unknownStreak s, false) in
    let streaks := filter (λ kv : string * nat, kv.1 ∈ unknown) streaks in
    (mkLabelState (grace s) (emptySince s) (emptyStreak s) streaks, deferred).

(** Only keys of [emptySince] are visited; both entries of such a key go. *)
Definition prune (current : gset string) (s : labelState) : labelState :=
  let gone := filter (λ l, l ∉ current) (dom (emptySince s)) in
  mkLabelState (grace s)
    (filter (λ kv : string * Z, kv.1 ∉ gone) (emptySince s))
    (filter (λ kv : string * nat, kv.1 ∉ gone) (emptyStreak s))
    (unknownStreak s).

Definition minRemainingGrace (now : Z) (s : labelState) : option Z :=
  map_fold (λ _ since acc,
    let left := Z.max 0 (wrap64 (grace s - time_sub now since)) in
    match acc with
    | None => Some left
    | Some m => if decide (left < m)%Z then Some left else Some m
    end) None (emptySince s).

(** ** Merging strategy results *)

Lemma lookup_merge_into m out k :
  merge_into m out !! k = union_with (λ cur ps, Some (cur ++ ps)) (m !! k) (out !! k).
Proof. apply lookup_union_with. Qed.

Lemma lookup_total_merge_into m out k : merge_into m out !!! k = (m !!! k) ++ (out !!! k).
Proof.
  rewrite !lookup_total_alt, lookup_merge_into.
  destruct (m !! k), (out !! k); simpl; by rewrite ?app_nil_r.
Qed.

Lemma dom_merge_into m out : dom (merge_into m out) = dom m ∪ dom out.
Proof.
  apply set_eq. intros k. rewrite elem_of_union, !elem_of_dom, lookup_merge_into.
  rewrite <- !not_eq_None_Some. destruct (m !! k), (out !! k); simpl; intuition congruence.
Qed.

Lemma flat_merge_into m out : flat (merge_into m out) ≡ₚ flat m ++ flat out.
Proof.
  induction out as [|k ps out Hk IH] using map_ind.
  { unfold merge_into. by rewrite (right_id_L ∅ (union_with _)), flat_empty, app_nil_r. }
  assert (merge_into m (<[k := ps]> out) = <[k := (merge_into m out !!! k) ++ ps]> (merge_into m out)) as ->.
  { apply map_eq. intros j. rewrite lookup_merge_into, !lookup_insert.
    rewrite lookup_total_alt, !lookup_merge_into. case_decide; [subst|done]. rewrite Hk.
    by destruct (m !! j). }
  rewrite flat_insert, (flat_insert_None out), <- app_assoc by done.
  rewrite (Permutation_app_comm ps), app_assoc, <- flat_delete, IH.
  rewrite <- app_assoc. f_equiv. apply Permutation_app_comm.
Qed.

(** ** Grouping *)

Lemma group_by_label_lookup ps l : group_by_label ps !!! l = filter (λ p, Label p = l) ps.
Proof.
  unfold group_by_label. rewrite <- (app_nil_l (filter _ ps)).
  assert ((∅ : gmap string (list Partition)) !!! l = []) as <- by done.
  generalize (∅ : gmap string (list Partition)) as m.
  induction ps as [|p ps IH]; intros m; simpl; [by rewrite app_nil_r|].
  rewrite IH, lookup_total_append, filter_cons. repeat case_decide; simplify_eq; rewrite <- ?app_assoc; done.
Qed.

Lemma elem_of_group_keys ps l : l ∈ map_keys (group_by_label ps) <-> l ∈ Label <$> ps.
Proof.
  assert (forall m : gmap string (list Partition),
    l ∈ dom (fold_left (λ m p, map_append (Label p) p m) ps m) <-> l ∈ dom m \/ l ∈ Label <$> ps) as Hd.
  { induction ps as [|p ps IH]; intros m; cbn [fold_left]; [set_solver|].
    rewrite IH. unfold map_append. rewrite dom_insert_L, fmap_cons. set_solver. }
  specialize (Hd ∅). fold (group_by_label ps) in Hd. rewrite dom_empty_L in Hd.
  rewrite elem_of_dom in Hd. unfold map_keys. rewrite list_elem_of_fmap. split.
  - intros ([k v] & -> & Hk%elem_of_map_to_list). simpl in *. set_solver.
  - intros Hl. destruct Hd as [_ Hd]. destruct Hd as [v Hv]; [by right|].
    exists (l, v). split; [done|]. by apply elem_of_map_to_list.
Qed.

Lemma NoDup_map_keys {A} (m : gmap string A) : NoDup (map_keys m).
Proof. apply NoDup_fst_map_to_list. Qed.

(** Splitting a list of partitions along distinct labels loses nothing. *)
Lemma groups_perm ls ps :
  NoDup ls -> ls ≫= (λ l, filter (λ p, Label p = l) ps) ≡ₚ filter (λ p, Label p ∈ ls) ps.
Proof.
  induction 1 as [|l ls Hl HN IH].
  { clear. induction ps as [|p ps IH]; [done|]. by rewrite filter_cons_False by apply not_elem_of_nil. }
  rewrite bind_cons, IH. clear IH HN. induction ps as [|p ps IH]; [done|]. rewrite !filter_cons.
  destruct (decide (Label p = l)) as [<-|N].
  - rewrite (decide_False (P := _ ∈ ls)), decide_True by (by apply Hl) || by left.
    simpl. by rewrite IH.
  - destruct (decide (Label p ∈ ls)).
    + rewrite decide_True by by right. by rewrite <- Permutation_middle, IH.
    + rewrite decide_False by (rewrite elem_of_cons; tauto). done.
Qed.

(** ** Well-formed topologies *)

(** What the pipeline needs of its input: distinct non-empty worker IDs,
    distinct labels per worker, and partitions with keys. *)
Record input_ok (i : topologyInput) : Prop := {
  in_workers : NoDup (Workers i);
  in_named : "" ∉ Workers i;
  in_labels : forall w, NoDup (labels_of i w);
  in_keyed : Forall keyed (Partitions i);
}.

Definition known_workers (i : topologyInput) : list string := filter (λ w, w ∉ Unknown i) (Workers i).

(** Workers eligible for a label. *)
Definition pool_of (i : topologyInput) (l : string) : list string :=
  filter (λ w, l ∈ labels_of i w) (known_workers i).

Lemma add_to_pools_lookup ls w m l :
  NoDup ls -> add_to_pools ls w m !!! l = (m !!! l) ++ (if decide (l ∈ ls) then [w] else []).
Proof.
  unfold add_to_pools. intros HN. revert m. induction HN as [|x ls Hx HN IH]; intros m; cbn [fold_left].
  { rewrite decide_False by apply not_elem_of_nil. by rewrite app_nil_r. }
  rewrite IH, lookup_total_append, <- app_assoc. f_equal.
  destruct (decide (x = l)) as [->|N].
  - rewrite (decide_False (P := _ ∈ ls)), decide_True by (done || by left). done.
  - destruct (decide (l ∈ ls)); [by rewrite decide_True by by right|].
    rewrite decide_False by (rewrite elem_of_cons; naive_solver). done.
Qed.

Lemma raw_pools_lookup i l : (forall w, NoDup (labels_of i w)) -> raw_pools i !!! l = pool_of i l.
Proof.
  intros HN. unfold raw_pools, pool_of. fold (known_workers i).
  rewrite <- (app_nil_l (filter _ (known_workers i))).
  assert ((∅ : gmap string (list string)) !!! l = []) as <- by done.
  generalize (∅ : gmap string (list string)) as m.
  induction (known_workers i) as [|w ws IH]; intros m; simpl; [by rewrite app_nil_r|].
  rewrite IH, add_to_pools_lookup, filter_cons by done.
  case_decide; rewrite <- app_assoc; done.
Qed.

Lemma Pools_lookup i l :
  (forall w, NoDup (labels_of i w)) -> Pools (buildLabelTopology i) !!! l = sort_strings (pool_of i l).
Proof.
  intros HN. simpl. rewrite <- raw_pools_lookup by done.
  rewrite !lookup_total_alt, lookup_fmap. by destruct (raw_pools i !! l).
Qed.

Record topo_ok (ps : list Partition) (t : labelTopology) : Prop := {
  ok_all : NoDup (AllWorkers t) /\ "" ∉ AllWorkers t;
  ok_pools : forall l, NoDup (Pools t !!! l) /\ Pools t !!! l ⊆ AllWorkers t;
  ok_fallback : NoDup (FallbackPool t) /\ FallbackPool t ⊆ AllWorkers t;
  ok_general : NoDup (GeneralPool t) /\ GeneralPool t ⊆ AllWorkers t;
  ok_groups : forall l, Groups t !!! l = filter (λ p, Label p = l) ps;
  ok_sorted : NoDup (SortedLabels t) /\ forall l, l ∈ SortedLabels t <-> l <> "" /\ l ∈ Label <$> ps;
  ok_unknown : forall w, w ∈ AllWorkers t -> w ∉ UnknownSet t;
  ok_keyed : Forall keyed ps;
}.

Lemma buildLabelTopology_ok i : input_ok i -> topo_ok (Partitions i) (buildLabelTopology i).
Proof.
  intros [HW HE HL HK].
  assert (NoDup (known_workers i)) as HNk by by apply NoDup_filter.
  assert (forall w, w ∈ known_workers i <-> w ∉ Unknown i /\ w ∈ Workers i) as Hkn
    by (intros; unfold known_workers; by rewrite list_elem_of_filter).
  assert (forall P `{forall w, Decision (P w)}, NoDup (sort_strings (filter P (known_workers i))) /\
    sort_strings (filter P (known_workers i)) ⊆ sort_strings (known_workers i)) as Hsub.
  { intros P ?. rewrite sort_strings_perm. split; [by apply NoDup_filter|].
    intros w. rewrite !elem_of_sort_strings, list_elem_of_filter. tauto. }
  split.
  - simpl. fold (known_workers i). rewrite sort_strings_perm, Hkn. tauto.
  - intros l. rewrite Pools_lookup by done. apply Hsub.
  - apply (Hsub (λ w, length (labels_of i w) = 0)).
  - simpl. fold (known_workers i). case_decide; [|apply Hsub]. split; [by rewrite sort_strings_perm|done].
  - apply group_by_label_lookup.
  - simpl. rewrite sort_strings_perm. split; [apply NoDup_filter, NoDup_map_keys|].
    intros l. by rewrite elem_of_sort_strings, list_elem_of_filter, elem_of_group_keys.
  - simpl. fold (known_workers i). intros w. rewrite elem_of_sort_strings, Hkn. tauto.
  - done.
Qed.

(** ** Routing *)

Definition ladder (pool all : list string) : list string :=
  if decide (length pool = 0) then all else pool.

(** The workers a label's partitions may go to; [None] when they are parked. *)
Definition route (t : labelTopology) (actions : gmap string emptyPoolAction) (l : string) :
    option (list string) :=
  if decide (l = "") then Some (ladder (GeneralPool t) (AllWorkers t))
  else if decide (0 < length (Pools t !!! l)) then Some (Pools t !!! l)
  else match action_of actions l with
       | emptyPoolSpill => Some (ladder (FallbackPool t) (AllWorkers t))
       | emptyPoolPark => None
       end.

Section compute_facts.
Context {S : Type} `{Strategy S} {inv : S -> Prop} `{!StrategyLaws S inv}.
Context (ps : list Partition) (t : labelTopology) (actions : gmap string emptyPoolAction).
Context (Hok : topo_ok ps t) (Hw : AllWorkers t <> []).

(** Every partition placed so far sits on a worker its label is routed to. *)
Definition routed (m : assignment) : Prop :=
  dom m ⊆@{gset string} list_to_set (AllWorkers t) /\
  forall w p, p ∈ m !!! w -> exists pool, route t actions (Label p) = Some pool /\ w ∈ pool.

Lemma assignGroup_spec l pool what s m :
  inv s -> NoDup pool -> pool ⊆ AllWorkers t ->
  route t actions l = Some (ladder pool (AllWorkers t)) -> routed m ->
  exists s' m', assignGroup t pool (filter (λ p, Label p = l) ps) what (s, m) = Ok (s', m') /\
    inv s' /\ flat m' ≡ₚ flat m ++ filter (λ p, Label p = l) ps /\ routed m'.
Proof.
  intros Hs HN Hsub HR [Hd Hm]. unfold assignGroup. fold (ladder pool (AllWorkers t)).
  case_decide as Hg.
  { apply length_zero_iff_nil in Hg. rewrite Hg, app_nil_r. eexists _, _. split_and!; done. }
  assert (NoDup (ladder pool (AllWorkers t)) /\ ladder pool (AllWorkers t) ⊆ AllWorkers t /\
    ladder pool (AllWorkers t) <> []) as (HNl & Hls & Hln).
  { unfold ladder. case_decide as E; [by split_and!; [apply Hok|..]|].
    split_and!; [done..|]. by rewrite length_zero_iff_nil in E. }
  rewrite decide_False by by rewrite length_zero_iff_nil.
  destruct (assign_complete s (ladder pool (AllWorkers t)) (filter (λ p, Label p = l) ps))
    as (out & E & HP & HD); [done..| | |].
  { intros Hin%Hls. by apply (ok_all _ _ Hok) in Hin. }
  { apply Forall_forall. intros p [_ Hp]%list_elem_of_filter. by eapply Forall_forall; [apply Hok|]. }
  pose proof (assign_inv s (ladder pool (AllWorkers t)) (filter (λ p, Label p = l) ps) Hs) as Hs'.
  destruct (Assign _ _ _) as [r s'] eqn:EA. simpl in *. subst r. eexists _, _. split_and!; [done|done| |].
  - by rewrite flat_merge_into, HP.
  - split.
    + rewrite dom_merge_into, HD. set_solver.
    + intros w p. rewrite lookup_total_merge_into. intros [Hp|Hp]%elem_of_app; [by apply Hm|].
      rewrite lookup_total_alt in Hp. destruct (out !! w) as [ps'|] eqn:Ew; [|by apply not_elem_of_nil in Hp].
      assert (p ∈ flat out) as Hpf by (apply elem_of_flat; eauto).
      rewrite HP in Hpf. apply list_elem_of_filter in Hpf as [<- _]. eexists. split; [done|].
      assert (w ∈ dom out) as Hdw by (apply elem_of_dom; eauto). rewrite HD in Hdw.
      by apply elem_of_list_to_set in Hdw.
Qed.

Definition parked_labels (ls : list string) : list string := filter (λ l, route t actions l = None) ls.

Lemma assign_labels_spec ls s m parked :
  inv s -> routed m -> "" ∉ ls ->
  exists s' m' parked', assign_labels t actions ls (s, m) parked = Ok (s', m', parked') /\
    inv s' /\ routed m' /\
    flat m' ++ parked' ≡ₚ flat m ++ parked ++ (ls ≫= λ l, filter (λ p, Label p = l) ps) /\
    parked' = parked ++ (parked_labels ls ≫= λ l, filter (λ p, Label p = l) ps).
Proof.
  revert s m parked. induction ls as [|l ls IH]; intros s m parked Hs Hm Hl; cbn [assign_labels].
  { eexists _, _, _. split_and!; [done..| |]; simpl; by rewrite app_nil_r. }
  apply not_elem_of_cons in Hl as [Hl0 Hl]. rewrite (ok_groups _ _ Hok).
  unfold parked_labels. rewrite filter_cons, bind_cons.
  assert (forall pool what, NoDup pool -> pool ⊆ AllWorkers t ->
    route t actions l = Some (ladder pool (AllWorkers t)) ->
    exists s' m' parked', (st' ← assignGroup t pool (filter (λ p, Label p = l) ps) what (s, m);
       assign_labels t actions ls st' parked) = Ok (s', m', parked') /\ inv s' /\ routed m' /\
      flat m' ++ parked' ≡ₚ flat m ++ parked ++ filter (λ p, Label p = l) ps ++
         (ls ≫= λ l, filter (λ p, Label p = l) ps) /\
      parked' = parked ++ (parked_labels ls ≫= λ l, filter (λ p, Label p = l) ps)) as Hassign.
  { intros pool what HN Hsub HR.
    destruct (assignGroup_spec l pool what s m) as (s1 & m1 & -> & Hs1 & HP1 & Hm1); [done..|].
    simpl. destruct (IH s1 m1 parked Hs1 Hm1 Hl) as (s' & m' & parked' & -> & ? & ? & HP & ?).
    eexists _, _, _. split_and!; [done..| |done]. rewrite HP, HP1, <- app_assoc. f_equiv.
    rewrite !app_assoc. f_equiv. apply Permutation_app_comm. }
  destruct (decide (0 < length (Pools t !!! l))) as [Hp|Hp].
  - assert (route t actions l = Some (ladder (Pools t !!! l) (AllWorkers t))) as HR.
    { unfold route, ladder. by rewrite decide_False, decide_True, decide_False by (done || lia). }
    rewrite decide_False by by rewrite HR. by apply Hassign; [apply Hok..|].
  - destruct (action_of actions l) eqn:Ea.
    + rewrite decide_True by by unfold route; rewrite decide_False, decide_False, Ea. rewrite bind_cons.
      destruct (IH s m (parked ++ filter (λ p, Label p = l) ps) Hs Hm Hl) as (s' & m' & parked' & -> & ? & ? & HP & ->).
      eexists _, _, _. split_and!; [done..| |by rewrite app_assoc]. by rewrite HP, <- app_assoc.
    + assert (route t actions l = Some (ladder (FallbackPool t) (AllWorkers t))) as HR.
      { unfold route. by rewrite decide_False, decide_False, Ea by done. }
      rewrite decide_False by by rewrite HR. by apply Hassign; [apply Hok..|].
Qed.
End compute_facts.

(** ** Empty entries for idle and unreadable workers *)

Lemma add_missing_lookup ws m w :
  add_missing ws m !! w = match m !! w with
                          | Some l => Some l
                          | None => if decide (w ∈ ws) then Some [] else None
                          end.
Proof.
  unfold add_missing. revert m. induction ws as [|x ws IH]; intros m; cbn [fold_left].
  { rewrite decide_False by apply not_elem_of_nil. by destruct (m !! w). }
  rewrite IH. destruct (decide (w = x)) as [->|N].
  - rewrite (decide_True (P := x ∈ x :: ws)) by left. destruct (m !! x) eqn:E; [by rewrite E|].
    by rewrite lookup_insert_eq.
  - assert ((match m !! x with Some _ => m | None => <[x := []]> m end) !! w = m !! w) as ->.
    { destruct (m !! x); [done|]. by rewrite lookup_insert_ne. }
    destruct (m !! w); [done|]. destruct (decide (w ∈ ws)).
    + by rewrite decide_True by by right.
    + by rewrite decide_False by (rewrite elem_of_cons; tauto).
Qed.

Lemma flat_add_missing ws m : flat (add_missing ws m) ≡ₚ flat m.
Proof.
  unfold add_missing. revert m. induction ws as [|x ws IH]; intros m; cbn [fold_left]; [done|].
  rewrite IH. destruct (m !! x) eqn:E; [done|]. by rewrite flat_insert_None.
Qed.

Lemma clear_unknown (u : gset string) (m : assignment) :
  let m' := set_fold (λ w m, <[w := []]> m) m u in
  (forall w, w ∈ u -> m' !! w = Some []) /\ (forall w, w ∉ u -> m' !! w = m !! w) /\
  ((forall w, w ∈ u -> m !! w = None) -> flat m' ≡ₚ flat m).
Proof.
  apply (set_fold_ind_L (λ (m' : assignment) (u : gset string),
    (forall w, w ∈ u -> m' !! w = Some []) /\ (forall w, w ∉ u -> m' !! w = m !! w) /\
    ((forall w, w ∈ u -> m !! w = None) -> flat m' ≡ₚ flat m))).
  - split_and!; [set_solver|done|done].
  - intros x u' m' Hx (IH1 & IH2 & IH3). split_and!.
    + intros w Hw. rewrite lookup_insert. case_decide; [done|]. apply IH1. set_solver.
    + intros w Hw. rewrite lookup_insert_ne by set_solver. apply IH2. set_solver.
    + intros Hn. rewrite flat_insert_None, IH3; [done|set_solver|].
      rewrite IH2 by done. apply Hn. set_solver.
Qed.

Section conserve.
Context {S : Type} `{Strategy S} {inv : S -> Prop} `{!StrategyLaws S inv}.

Lemma computeLabelAssignments_spec ps t actions s :
  topo_ok ps t -> AllWorkers t <> [] -> inv s ->
  exists s' m parked, computeLabelAssignments s t actions = Ok (s', m, parked) /\ inv s' /\
    flat m ++ parked ≡ₚ ps /\
    dom m = list_to_set (AllWorkers t) ∪ UnknownSet t /\
    (forall w p, p ∈ m !!! w -> w ∉ UnknownSet t /\ exists pool, route t actions (Label p) = Some pool /\ w ∈ pool) /\
    (forall p, p ∈ parked -> p ∈ ps /\ route t actions (Label p) = None).
Proof.
  intros Hok Hw Hs. unfold computeLabelAssignments. rewrite (ok_groups _ _ Hok).
  destruct (assignGroup_spec ps t actions Hok Hw "" (GeneralPool t) "unlabeled group" s ∅)
    as (s1 & m1 & -> & Hs1 & HP1 & Hm1); [done|apply Hok..|done| |].
  { split; [set_solver|]. intros w p Hp. by apply not_elem_of_nil in Hp. }
  cbn [mbind res_bind].
  destruct (assign_labels_spec ps t actions Hok Hw (SortedLabels t) s1 m1 [] Hs1 Hm1)
    as (s' & m & parked & -> & Hs' & [Hd Hm] & HP & Hpk).
  { intros [E _]%(proj2 (ok_sorted _ _ Hok)). done. }
  destruct (clear_unknown (UnknownSet t) (add_missing (AllWorkers t) m)) as (Hlu & Hlk & Hfl).
  assert (forall w, w ∈ UnknownSet t -> m !! w = None) as Hun.
  { intros w Hu. apply eq_None_not_Some. intros Hs''%elem_of_dom. apply Hd, elem_of_list_to_set in Hs''.
    by eapply (ok_unknown _ _ Hok). }
  eexists _, _, _. cbn [mbind res_bind]. split; [done|]. split_and!; [done| | | |].
  - rewrite Hfl, flat_add_missing, HP, HP1, flat_empty; [simpl|].
    + rewrite groups_perm by apply Hok. rewrite <- (filter_app_complement (λ p, Label p = "") ps) at 3.
      f_equiv. erewrite filter_ext_in; [done|].
      intros p Hp. rewrite (proj2 (ok_sorted _ _ Hok)). set_solver.
    + intros w Hu. rewrite add_missing_lookup, Hun by done. rewrite decide_False; [done|].
      intros Ha. by apply (ok_unknown _ _ Hok) in Ha.
  - apply set_eq. intros w. rewrite elem_of_dom, elem_of_union, elem_of_list_to_set.
    destruct (decide (w ∈ UnknownSet t)); [rewrite Hlu by done; naive_solver|].
    rewrite Hlk, add_missing_lookup by done.
    destruct (m !! w) eqn:E; [|case_decide; naive_solver]. 
    assert (w ∈ dom m) as Hdm%Hd by (apply elem_of_dom; eauto). rewrite elem_of_list_to_set in Hdm. naive_solver.
  - intros w p. rewrite lookup_total_alt.
    destruct (decide (w ∈ UnknownSet t)); [rewrite Hlu by done; by intros ?%not_elem_of_nil|].
    rewrite Hlk, add_missing_lookup by done.
    intros Hp. split; [done|]. apply Hm. rewrite lookup_total_alt.
    destruct (m !! w); [done|]. case_decide; by apply not_elem_of_nil in Hp.
  - intros p. rewrite Hpk. simpl. intros (l & [<- Hp]%list_elem_of_filter & Hl)%list_elem_of_bind.
    apply list_elem_of_filter in Hl as [Hl _]. done.
Qed.
End conserve.

Lemma route_labelled i actions l pool w :
  (forall w, NoDup (labels_of i w)) -> l <> "" -> pool_of i l <> [] ->
  route (buildLabelTopology i) actions l = Some pool -> w ∈ pool -> l ∈ labels_of i w.
Proof.
  intros HN Hl Hp. unfold route. rewrite decide_False by done. rewrite Pools_lookup by done.
  rewrite decide_True; [|rewrite length_sort_strings; destruct (pool_of i l); simpl; [done|lia]].
  intros [= <-] Hw. apply elem_of_sort_strings, list_elem_of_filter in Hw. tauto.
Qed.

Lemma route_unlabelled i actions pool w v :
  Policy i <> "shared" -> v ∈ known_workers i -> labels_of i v = [] ->
  route (buildLabelTopology i) actions "" = Some pool -> w ∈ pool -> labels_of i w = [].
Proof.
  intros HP Hv Hlv. unfold route. rewrite decide_True by done. simpl. fold (known_workers i).
  rewrite (decide_False (P := Policy i = _)) by done.
  assert (v ∈ filter (λ w, length (labels_of i w) = 0) (known_workers i)) as Hvf.
  { apply list_elem_of_filter. split; [by rewrite Hlv|done]. }
  unfold ladder. rewrite decide_False.
  - intros [= <-] Hw. apply elem_of_sort_strings, list_elem_of_filter in Hw as [Hw _].
    by apply length_zero_iff_nil.
  - rewrite length_sort_strings, length_zero_iff_nil. intros E. rewrite E in Hvf. by apply not_elem_of_nil in Hvf.
Qed.

(** C33. Label routing loses and duplicates nothing and keeps labels apart. For
    any strategy satisfying the contract, with at least one worker whose labels
    are readable: the assigned and the parked partitions together are exactly
    the input; every active worker has an entry and a worker with unreadable
    labels an empty one; a labelled partition with a matching worker runs only
    on matching workers; under the dedicated policy an unlabelled partition runs
    on an unlabelled worker whenever there is one; and a partition is parked
    only if no worker carries its label and the decision was not to spill. *)
Theorem label_routing_conserves {S} `{Strategy S} {inv} `{!StrategyLaws S inv} s i actions
    (Hi : input_ok i) (Hw : known_workers i <> []) (Hs : inv s) :
  exists s' m parked,
    computeLabelAssignments s (buildLabelTopology i) actions = Ok (s', m, parked) /\ inv s' /\
    flat m ++ parked ≡ₚ Partitions i /\
    dom m = list_to_set (Workers i) ∪ Unknown i /\
    (forall w p, p ∈ m !!! w -> w ∈ known_workers i /\
       (Label p <> "" -> pool_of i (Label p) <> [] -> Label p ∈ labels_of i w) /\
       (Label p = "" -> Policy i <> "shared" ->
        (exists v, v ∈ known_workers i /\ labels_of i v = []) -> labels_of i w = [])) /\
    (forall p, p ∈ parked -> pool_of i (Label p) = [] /\ action_of actions (Label p) = emptyPoolPark).
Proof.
  destruct (computeLabelAssignments_spec (inv := inv) (Partitions i) (buildLabelTopology i) actions s)
    as (s' & m & parked & E & Hs' & HP & HD & Hr & Hpk); [by apply buildLabelTopology_ok| |done|].
  { by apply sort_strings_nonempty. }
  pose proof (in_labels _ Hi) as HL.
  exists s', m, parked. split_and!; [done..| | |].
  - rewrite HD. simpl. apply set_eq. intros w.
    rewrite !elem_of_union, !elem_of_list_to_set, elem_of_sort_strings, list_elem_of_filter.
    destruct (decide (w ∈ Unknown i)); tauto.
  - intros w p Hp. assert (w ∈ dom m) as Hd by by eapply elem_of_total_dom.
    apply Hr in Hp as (Hu & pool & HR & Hin). split_and!.
    + rewrite HD in Hd. simpl in Hd, Hu.
      rewrite elem_of_union, elem_of_list_to_set, elem_of_sort_strings in Hd. tauto.
    + intros Hl Hpool. by eapply route_labelled.
    + intros El Hpol (v & Hv & Hlv). rewrite El in HR. by eapply route_unlabelled.
  - intros p [_ HR]%Hpk. unfold route in HR. do 2 (case_decide; [done|]).
    rewrite Pools_lookup, length_sort_strings in * by done. split.
    + apply length_zero_iff_nil. lia.
    + by destruct (action_of actions (Label p)).
Qed.

Lemma label_routing_conserves_witness :
  let i := mkTopologyInput ["w-0"; "w-1"; "w-2"] {["w-0" := ["gpu"]]} {["w-2"]}
             [mkPartition ["a"] 0 "gpu"; mkPartition ["b"] 0 ""; mkPartition ["c"] 0 "ssd"] "dedicated" in
  exists s' m parked,
    @computeLabelAssignments RoundRobin (@RoundRobin_strategy stable_sort) NewRoundRobin
      (buildLabelTopology i) ∅ = Ok (s', m, parked) /\ True /\
    flat m ++ parked ≡ₚ Partitions i /\
    dom m = list_to_set (Workers i) ∪ Unknown i /\
    (forall w p, p ∈ m !!! w -> w ∈ known_workers i /\
       (Label p <> "" -> pool_of i (Label p) <> [] -> Label p ∈ labels_of i w) /\
       (Label p = "" -> Policy i <> "shared" ->
        (exists v, v ∈ known_workers i /\ labels_of i v = []) -> labels_of i w = [])) /\
    (forall p, p ∈ parked -> pool_of i (Label p) = [] /\ action_of ∅ (Label p) = emptyPoolPark).
Proof.
  intros i. apply (@label_routing_conserves RoundRobin (@RoundRobin_strategy stable_sort) (λ _, True)
    (@RoundRobin_laws stable_sort) NewRoundRobin i ∅); [split| |done].
  - apply (bool_decide_unpack _). vm_compute. exact I.
  - apply (bool_decide_unpack _). vm_compute. exact I.
  - intros w. unfold labels_of. simpl. destruct (decide (w = "w-0")) as [->|].
    + rewrite lookup_singleton_eq. apply NoDup_singleton.
    + rewrite lookup_singleton_ne by done. constructor.
  - by repeat constructor.
  - vm_compute. discriminate.
Defined.
