(* ===== verification/Nats.v ===== *)
(** * NATS error classification and stream positions (internal/natsutil)

    An error is the set of sentinels its chain wraps, as [errors.Is] sees it,
    and its message. *)
From S2P Require Import Prelude.

Inductive sentinel :=
| ErrConnectivity
| NatsErrTimeout | NatsErrNoServers | NatsErrDisconnected | NatsErrConnectionClosed
| NatsErrConnectionDraining | NatsErrConnectionReconnecting
| NatsErrConsumerNotFound | NatsErrStreamNotFound | NatsErrBadSubscription
| JsErrNoStreamResponse | JsErrBucketNotFound | JsErrStreamNotFound | JsErrConsumerNotFound
| JsErrConsumerDeleted | JsErrKeyNotFound | JsErrKeyExists | JsErrNoKeysFound
| ContextCanceled | ContextDeadlineExceeded
| NatsErrNoResponders | ErrStreamMissing | ErrKVUnavailable
| JsErrMsgIteratorClosed | JsErrNoHeartbeat
| JsErrBucketExists | JsErrStreamNameAlreadyInUse | ErrRecreateInterrupted | ErrInvalidConfig.

#[export] Instance sentinel_eq_dec : EqDecision sentinel.
Proof. solve_decision. Defined.

Record go_error := mkError {
  wraps : list sentinel;
  message : string;
}.

#[export] Instance go_error_eq_dec : EqDecision go_error.
Proof. solve_decision. Defined.

(** [errors.Is] *)
Definition Is (e : go_error) (s : sentinel) : bool := bool_decide (s ∈ wraps e).

(** [strings.Contains] *)
Fixpoint contains (s sub : string) : bool :=
  String.prefix sub s ||
  match s with
  | EmptyString => false
  | String _ s' => contains s' sub
  end.

Definition IsConsumerGone (e : option go_error) : bool :=
  match e with Some e => Is e JsErrConsumerDeleted | None => false end.

Definition IsConsumerNotFound (e : option go_error) : bool :=
  match e with
  | Some e => Is e NatsErrConsumerNotFound || Is e JsErrConsumerNotFound
  | None => false
  end.

Definition IsBenignWatcherStopErr (e : option go_error) : bool :=
  match e with
  | None => true
  | Some e' => IsConsumerNotFound e || Is e' NatsErrBadSubscription
  end.

Definition IsStreamNotFound (e : option go_error) : bool :=
  match e with
  | Some e => Is e NatsErrStreamNotFound || Is e JsErrStreamNotFound
  | None => false
  end.

Definition IsDegradingJetStreamError (e : option go_error) : bool :=
  match e with
  | None => false
  | Some e' => Is e' JsErrBucketNotFound || IsStreamNotFound e || IsConsumerNotFound e
  end.

Definition IsConnectivityError (e : option go_error) : bool :=
  match e with
  | None => false
  | Some e =>
      if Is e ErrConnectivity || Is e NatsErrTimeout || Is e NatsErrNoServers ||
         Is e NatsErrDisconnected || Is e NatsErrConnectionClosed ||
         Is e NatsErrConnectionDraining || Is e NatsErrConnectionReconnecting ||
         Is e JsErrNoStreamResponse
      then true
      else contains (message e) "connection refused" || contains (message e) "i/o timeout"
  end.

(** ** Stream positions (internal/natsutil/kvstreampos.go, scangate.go) *)

Record KVStreamPos := mkPos {
  Created : Z;
  LastSeq : Z;
  Msgs : Z;
  MaxAge : Z;
  AllowMsgTTL : bool;
  SubjectDeleteMarkerTTL : Z;
}.

Definition Same (p o : KVStreamPos) : bool :=
  bool_decide (Created p = Created o) && bool_decide (LastSeq p = LastSeq o) && bool_decide (Msgs p = Msgs o).

Definition UnsafeConfig (p : KVStreamPos) : bool :=
  bool_decide (MaxAge p <> 0%Z) || AllowMsgTTL p || bool_decide (SubjectDeleteMarkerTTL p <> 0%Z).

Definition ScanGateMaxSkippedPasses : Z := 19.
Definition ScanGateDefaultConfirmGap : Z := 2000000000.

Record ScanGateConfigGuard := mkGuard { unsafeSeen : bool }.

Definition ConfigGuard_Check (g : ScanGateConfigGuard) (pos : KVStreamPos) : ScanGateConfigGuard * bool :=
  if UnsafeConfig pos then (mkGuard true, false) else (mkGuard false, true).

Lemma Same_LastSeq p o : Same p o = true -> LastSeq p = LastSeq o.
Proof. unfold Same. rewrite !andb_true_iff, !bool_decide_eq_true. naive_solver. Qed.
