(* ===== verification/LabelPipeline.v ===== *)
(** * Label decisions of a rebalance (internal/assignment/calculator.go,
      labels_state.go)

    Reading the workers' labels, the confirmation state machine over
    consecutive rebalances, and the pipeline that joins them with the topology. *)
From S2P Require Import Prelude Partition Strategy Labels Nats.

(** ** Reading labels *)

(** A heartbeat as this component uses it: only its labels. *)
Record Heartbeat := mkHeartbeat { hb_labels : list string }.

(** One per-worker [Get] and decode, or the context ending before it. *)
Inductive reading :=
| ReadOk (hb : Heartbeat)
| ReadFail (e : go_error)
| ReadAbort.

(** [GetHeartbeatsFor]: [read] is the environment's answer per worker. *)
Fixpoint GetHeartbeatsFor (read : string -> reading) (ws : list string)
    (out : gmap string Heartbeat) (fails : gmap string go_error) :
    gmap string Heartbeat * gmap string go_error * bool :=
  match ws with
  | [] => (out, fails, true)
  | w :: ws' =>
      match read w with
      | ReadAbort => (out, fails, false)
      | ReadFail e => GetHeartbeatsFor read ws' out (<[w := e]> fails)
      | ReadOk hb => GetHeartbeatsFor read ws' (<[w := hb]> out) fails
      end
  end.

Definition missingWorkers (ws : list string) (hbs : gmap string Heartbeat) : list string :=
  sort_strings (filter (λ w, hbs !! w = None) ws).

Inductive read_err := BroadAborted | BroadClass (w : string) | BroadCount (missing total : nat).

Definition broad_class (e : option go_error) : bool :=
  IsConnectivityError e || IsDegradingJetStreamError e.

(** The first read and one inline retry for the stragglers; [None] when the
    first read was aborted. *)
Definition read_with_retry (read1 read2 : string -> reading) (ws : list string) :
    option (gmap string Heartbeat * gmap string go_error * list string) :=
  let '(hbs, fails, ok) := GetHeartbeatsFor read1 ws ∅ ∅ in
  if negb ok then None
  else
    let missing := missingWorkers ws hbs in
    if decide (0 < length missing) then
      let '(retry, retryFails, rok) := GetHeartbeatsFor read2 missing ∅ ∅ in
      let '(hbs, fails) := if rok : bool then (retry ∪ hbs, retryFails) else (hbs, fails) in
      Some (hbs, fails, missingWorkers ws hbs)
    else Some (hbs, fails, missing).

Definition readWorkerLabels (read1 read2 : string -> reading) (ws : list string) :
    res read_err (gmap string (list string) * gset string) :=
  match read_with_retry read1 read2 ws with
  | None => Err BroadAborted
  | Some (hbs, fails, missing) =>
      match filter (λ w, broad_class (fails !! w) = true) missing with
      | w :: _ => Err (BroadClass w)
      | [] =>
          if decide (Nat.max 1 (length ws / 10) < length missing)
          then Err (BroadCount (length missing) (length ws))
          else Ok (hb_labels <$> hbs, list_to_set missing)
      end
  end.

(** ** The pipeline *)

Inductive pipeline_err :=
| ReadFailed (e : read_err)
| CalculationFailed (e : label_err).

Record labelPipelineResult := mkPipelineResult {
  r_assignments : assignment;
  r_parked : list Partition;
  r_labels : gmap string (list string);
  r_topo : labelTopology;
  r_actions : gmap string emptyPoolAction;
}.

(** The state a run changes: the strategy and [labelState]. *)
Record pipeline_state (S : Type) := mkPipelineState {
  p_strategy : S;
  p_labels : labelState;
}.
Arguments mkPipelineState {S}.
Arguments p_strategy {S}.
Arguments p_labels {S}.

(** What one observation does to [labelState], and its decision: the actions
    for empty pools and whether the run is deferred. *)
Definition observe (now : Z) (unknown : gset string) (topo : labelTopology) (s : labelState) :
    labelState * gmap string emptyPoolAction * bool :=
  let '(s, unknownDeferred) := observeUnknownWorkers (sort_strings (elements unknown)) s in
  let nonEmpty := filter (λ l, 0 < length (Pools topo !!! l)) (SortedLabels topo) in
  let s := observeNonEmpty nonEmpty s in
  let '(s, actions, emptyDeferred) := observeEmptyPools now (EmptyLabels topo) s in
  let s := prune (list_to_set (SortedLabels topo)) s in
  (s, actions, unknownDeferred || emptyDeferred).

Section pipeline.
Context {S : Type} `{Strategy S}.

Definition labelRoutedAssignments (now : Z) (policy : string) (read1 read2 : string -> reading)
    (ws : list string) (ps : list Partition) (st : pipeline_state S) :
    pipeline_state S * res pipeline_err (option labelPipelineResult) :=
  match readWorkerLabels read1 read2 ws with
  | Err e => (st, Err (ReadFailed e))
  | Ok (labels, unknown) =>
      let topo := buildLabelTopology (mkTopologyInput ws labels unknown ps policy) in
      let '(ls, actions, deferred) := observe now unknown topo (p_labels st) in
      if deferred : bool then (mkPipelineState (p_strategy st) ls, Ok None)
      else
        match computeLabelAssignments (p_strategy st) topo actions with
        | Err e => (mkPipelineState (p_strategy st) ls, Err (CalculationFailed e))
        | Ok (s', m, parked) =>
            (mkPipelineState s' ls,
             Ok (Some (mkPipelineResult m parked labels topo actions)))
        end
  end.
End pipeline.

(** ** Label reads *)

Lemma GetHeartbeatsFor_ok read ws out fails out' fails' :
  GetHeartbeatsFor read ws out fails = (out', fails', true) ->
  (forall w, w ∈ ws -> read w <> ReadAbort) /\
  (forall w, out' !! w = if decide (w ∈ ws)
     then match read w with ReadOk hb => Some hb | _ => out !! w end else out !! w) /\
  (forall w, fails' !! w = if decide (w ∈ ws)
     then match read w with ReadFail e => Some e | _ => fails !! w end else fails !! w).
Proof.
  revert out fails. induction ws as [|x ws IH]; intros out fails; cbn [GetHeartbeatsFor].
  { intros [= <- <-]. split_and!; [set_solver|..]; intros w; by rewrite decide_False by apply not_elem_of_nil. }
  destruct (read x) as [hb|e|] eqn:Ex; [| |done]; intros (HA & HO & HF)%IH; (split_and!;
    [intros w [->|]%elem_of_cons; [by rewrite Ex|by apply HA]|intros w; rewrite ?HO, ?HF..]);
    destruct (decide (w = x)) as [->|N].
  all: rewrite ?(decide_True (P := x ∈ x :: ws)) by left.
  all: rewrite ?Ex, ?lookup_insert_eq, ?lookup_insert_ne by done.
  all: destruct (decide (_ ∈ ws)); try done.
  all: rewrite ?(decide_True (P := w ∈ x :: ws)) by by right.
  all: rewrite ?(decide_False (P := w ∈ x :: ws)) by (rewrite elem_of_cons; tauto).
  all: done.
Qed.

Lemma elem_of_missingWorkers ws hbs w : w ∈ missingWorkers ws hbs <-> w ∈ ws /\ hbs !! w = None.
Proof. unfold missingWorkers. rewrite elem_of_sort_strings, list_elem_of_filter. tauto. Qed.

Lemma read_with_retry_spec read1 read2 ws hbs fails missing :
  read_with_retry read1 read2 ws = Some (hbs, fails, missing) ->
  missing = missingWorkers ws hbs /\
  (forall w hb, hbs !! w = Some hb -> read1 w = ReadOk hb \/ read2 w = ReadOk hb) /\
  (forall w, w ∈ missing -> (exists e, read1 w = ReadFail e) /\
     ((forall v, read2 v <> ReadAbort) -> exists e, read2 w = ReadFail e /\ fails !! w = Some e)).
Proof.
  unfold read_with_retry.
  destruct (GetHeartbeatsFor read1 ws ∅ ∅) as [[h1 f1] ok] eqn:E1. destruct ok; [|done]. simpl negb. cbv iota.
  apply GetHeartbeatsFor_ok in E1 as (HA1 & HO1 & _).
  assert (forall w hb, h1 !! w = Some hb -> read1 w = ReadOk hb) as Hsome1.
  { intros w hb. rewrite HO1, lookup_empty. case_decide; [|done]. destruct (read1 w); naive_solver. }
  assert (forall w, w ∈ missingWorkers ws h1 -> exists e, read1 w = ReadFail e) as Hnone1.
  { intros w [Hw Hn]%elem_of_missingWorkers. rewrite HO1, lookup_empty, decide_True in Hn by done.
    specialize (HA1 w Hw). destruct (read1 w); naive_solver. }
  case_decide as Hlen.
  - destruct (GetHeartbeatsFor read2 _ ∅ ∅) as [[h2 f2] rok] eqn:E2. destruct rok; intros [= <- <- <-].
    + apply GetHeartbeatsFor_ok in E2 as (HA2 & HO2 & HF2).
      split_and!; [done| |].
      * intros w hb [Hh|[_ Hh]]%lookup_union_Some_raw; [|by left; apply Hsome1]. right.
        rewrite HO2, lookup_empty in Hh. case_decide; [|done]. destruct (read2 w); naive_solver.
      * intros w [Hw [Hn2 Hn1]%lookup_union_None]%elem_of_missingWorkers.
        assert (w ∈ missingWorkers ws h1) as Hm by by apply elem_of_missingWorkers.
        split; [by apply Hnone1|]. intros _. rewrite HO2, decide_True, lookup_empty in Hn2 by done.
        rewrite HF2, decide_True by done. specialize (HA2 w Hm). destruct (read2 w); naive_solver.
    + split_and!; [done|naive_solver|]. intros w Hw. split; [by apply Hnone1|]. intros HA.
      exfalso. clear -E2 HA. revert E2. generalize (∅ : gmap string Heartbeat) (∅ : gmap string go_error).
      induction (missingWorkers ws h1) as [|x l IH]; intros o f; cbn [GetHeartbeatsFor]; [done|].
      specialize (HA x). destruct (read2 x); [apply IH..|done].
  - intros [= <- <- <-]. split_and!; [done|naive_solver|]. intros w Hw. exfalso.
    destruct (missingWorkers ws h1); [by apply not_elem_of_nil in Hw|simpl in Hlen; lia].
Qed.

(** A broad read failure never becomes a label decision. When the labels
    are accepted, every worker is either read, with labels that one of the two
    attempts returned, or unknown; an unknown worker failed both attempts and,
    if the retry ran to its end, its last error was neither a connectivity nor
    a missing-JetStream-state error; and at most one worker or a tenth of the
    fleet is unknown. *)
Theorem readWorkerLabels_never_launders read1 read2 ws labels unknown
    (HE : readWorkerLabels read1 read2 ws = Ok (labels, unknown)) :
  (forall w, w ∈ unknown <-> w ∈ ws /\ labels !! w = None) /\
  (forall w ls, labels !! w = Some ls ->
     read1 w = ReadOk (mkHeartbeat ls) \/ read2 w = ReadOk (mkHeartbeat ls)) /\
  (forall w, w ∈ unknown ->
     (exists e, read1 w = ReadFail e) /\
     ((forall v, read2 v <> ReadAbort) ->
      exists e, read2 w = ReadFail e /\
        IsConnectivityError (Some e) = false /\ IsDegradingJetStreamError (Some e) = false)) /\
  size unknown <= Nat.max 1 (length ws / 10).
Proof.
  unfold readWorkerLabels in HE.
  destruct (read_with_retry read1 read2 ws) as [[[hbs fails] missing]|] eqn:E; [|done].
  apply read_with_retry_spec in E as (Hm & Hs & Hf).
  destruct (filter _ missing) as [|] eqn:EF; [|done]. case_decide; [done|]. injection HE as <- <-.
  split_and!.
  - intros w. rewrite elem_of_list_to_set, Hm, elem_of_missingWorkers, lookup_fmap, fmap_None. done.
  - intros w ls. rewrite lookup_fmap. intros ([l] & Hl & ->)%fmap_Some. by apply Hs.
  - intros w Hw%elem_of_list_to_set. destruct (Hf w Hw) as [? Hlast]. split; [done|].
    intros (e & He & Hfw)%Hlast. exists e. split; [done|].
    assert (broad_class (fails !! w) <> true) as Hb.
    { intros Hb. apply (not_elem_of_nil w). rewrite <- EF. by apply list_elem_of_filter. }
    rewrite Hfw in Hb. unfold broad_class in Hb. destruct (IsConnectivityError _), (IsDegradingJetStreamError _); done.
  - rewrite size_list_to_set_le. lia.
Qed.

Lemma readWorkerLabels_never_launders_witness :
  let lost := mkError [JsErrKeyNotFound] "nats: key not found" in
  let read := λ w, if decide (w = "w-1") then ReadFail lost else ReadOk (mkHeartbeat ["gpu"]) in
  exists (labels : gmap string (list string)) (unknown : gset string),
  (forall w, w ∈ unknown <-> w ∈ ["w-0"; "w-1"; "w-2"] /\ labels !! w = None) /\
  (forall w ls, labels !! w = Some ls ->
     read w = ReadOk (mkHeartbeat ls) \/ read w = ReadOk (mkHeartbeat ls)) /\
  (forall w, w ∈ unknown ->
     (exists e, read w = ReadFail e) /\
     ((forall v, read v <> ReadAbort) ->
      exists e, read w = ReadFail e /\
        IsConnectivityError (Some e) = false /\ IsDegradingJetStreamError (Some e) = false)) /\
  size unknown <= Nat.max 1 (length ["w-0"; "w-1"; "w-2"] / 10).
Proof.
  intros lost read. eexists _, _.
  apply (readWorkerLabels_never_launders read read ["w-0"; "w-1"; "w-2"]). vm_compute. reflexivity.
Defined.

(** ** Grace clocks count consecutive observations *)

(** Specification: over the observations so far, newest first, how many in a
    row had a condition, and when that run began. *)
Fixpoint run_length {O} (P : O -> bool) (h : list O) : nat :=
  match h with
  | [] => 0
  | o :: h' => if P o then S (run_length P h') else 0
  end.

Fixpoint run_start {O} (P : O -> bool) (at_ : O -> Z) (h : list O) : option Z :=
  match h with
  | [] => None
  | o :: h' => if P o then Some (default (at_ o) (run_start P at_ h')) else None
  end.

Definition some_pos (n : nat) : option nat := if decide (n = 0) then None else Some n.

Lemma streak_some_pos (m : gmap string nat) k n : m !! k = some_pos n -> streak m k = n.
Proof. unfold streak, some_pos. intros ->. case_decide; simpl; lia. Qed.

Lemma run_start_None {O} (P : O -> bool) at_ h : run_start P at_ h = None <-> run_length P h = 0.
Proof. destruct h as [|o h]; simpl; [done|]. by destruct (P o). Qed.

Definition empty_view (l : string) (st : empty_loop) : option Z * option nat * option emptyPoolAction :=
  (el_since st !! l, el_streak st !! l, el_actions st !! l).

(** What one observation does to a label. *)
Definition empty_update (g now : Z) (l : string) (v : option Z * option nat * option emptyPoolAction) :
    option Z * option nat * option emptyPoolAction :=
  let '(since, n, a) := v in
  let t0 := default now since in
  (Some t0, Some (S (default 0 n)),
   if decide (default 0 n = 0) then a
   else Some (if decide (time_sub now t0 < g)%Z then emptyPoolPark else emptyPoolSpill)).

Lemma empty_view_eq g now st x :
  empty_view x (observe_empty_one g now st x) = empty_update g now x (empty_view x st).
Proof.
  destruct st as [since streaks actions d]. unfold observe_empty_one, empty_view, empty_update. simpl.
  unfold streak. set (since1 := match since !! x with Some _ => since | None => _ end).
  assert (since1 !! x = Some (default now (since !! x))) as E.
  { unfold since1. destruct (since !! x) eqn:Ex; [done|by rewrite lookup_insert_eq]. }
  destruct (decide (default 0 (streaks !! x) = 0)) as [H0|H0]; case_decide; try lia; simpl;
    by rewrite E, ?lookup_insert_eq.
Qed.

Lemma empty_view_ne g now st x y :
  x <> y -> empty_view y (observe_empty_one g now st x) = empty_view y st.
Proof.
  intros N. destruct st as [since streaks actions d]. unfold observe_empty_one, empty_view. simpl.
  assert ((match since !! x with Some _ => since | None => <[x := now]> since end) !! y = since !! y) as E.
  { destruct (since !! x); [done|by rewrite lookup_insert_ne]. }
  case_decide; simpl; by rewrite E, !lookup_insert_ne.
Qed.

Lemma empty_flag g now st x :
  el_deferred (observe_empty_one g now st x) =
  el_deferred st || bool_decide (default 0 (empty_view x st).1.2 = 0).
Proof.
  destruct st as [since streaks actions d]. unfold observe_empty_one, empty_view, streak. simpl.
  case_decide; simpl.
  - by rewrite bool_decide_true, orb_true_r by lia.
  - by rewrite bool_decide_false, orb_false_r by lia.
Qed.

Lemma unknown_view_flag w st x :
  (x = w -> (observe_unknown_one st x).1 !! w = Some (S (default 0 (st.1 !! w)))) /\
  (x <> w -> (observe_unknown_one st x).1 !! w = st.1 !! w) /\
  (observe_unknown_one st x).2 = st.2 || bool_decide (default 0 (st.1 !! x) = 0).
Proof.
  unfold observe_unknown_one, streak. simpl. split_and!.
  - intros ->. by rewrite lookup_insert_eq.
  - intros. by rewrite lookup_insert_ne.
  - case_decide.
    + by rewrite bool_decide_true, orb_true_r by lia.
    + by rewrite bool_decide_false, orb_false_r by lia.
Qed.

(** One trusted observation of the fleet and the source. *)
Record observation := mkObservation {
  o_now : Z;
  o_input : topologyInput;
}.

Definition observe_input (o : observation) (s : labelState) :
    labelState * gmap string emptyPoolAction * bool :=
  observe (o_now o) (Unknown (o_input o)) (buildLabelTopology (o_input o)) s.

Definition empty_at (l : string) (o : observation) : bool :=
  bool_decide (l ∈ EmptyLabels (buildLabelTopology (o_input o))).

Definition unknown_at (w : string) (o : observation) : bool := bool_decide (w ∈ Unknown (o_input o)).

(** The state after a history (newest observation first) is its run lengths. *)
Record implements (g : Z) (h : list observation) (s : labelState) : Prop := {
  im_grace : grace s = g;
  im_since l : emptySince s !! l = run_start (empty_at l) o_now h;
  im_streak l : emptyStreak s !! l = some_pos (run_length (empty_at l) h);
  im_unknown w : unknownStreak s !! w = some_pos (run_length (unknown_at w) h);
}.

Lemma default_some_pos n : default 0 (some_pos n) = n.
Proof. unfold some_pos. case_decide; simpl; lia. Qed.

Lemma some_pos_S n : some_pos (S n) = Some (S n).
Proof. done. Qed.

Lemma existsb_bool_decide {A} (P : A -> Prop) `{forall x, Decision (P x)} (l : list A) :
  existsb (λ x, bool_decide (P x)) l = true <-> exists x, x ∈ l /\ P x.
Proof.
  rewrite existsb_exists. split.
  - intros (x & Hx & HP%bool_decide_eq_true). exists x. by rewrite list_elem_of_In.
  - intros (x & Hx & HP). exists x. rewrite <- list_elem_of_In. by rewrite bool_decide_true.
Qed.

Lemma observeUnknownWorkers_spec g h s o :
  implements g h s ->
  let '(s', deferred) := observeUnknownWorkers (sort_strings (elements (Unknown (o_input o)))) s in
  (grace s' = grace s /\ emptySince s' = emptySince s /\ emptyStreak s' = emptyStreak s) /\
  (forall w, unknownStreak s' !! w = some_pos (run_length (unknown_at w) (o :: h))) /\
  (deferred = true <-> exists w, w ∈ Unknown (o_input o) /\ run_length (unknown_at w) h = 0).
Proof.
  intros Him. set (u := sort_strings (elements (Unknown (o_input o)))).
  assert (forall w, w ∈ u <-> w ∈ Unknown (o_input o)) as Hu.
  { intros w. unfold u. by rewrite elem_of_sort_strings, elem_of_elements. }
  assert (NoDup u) as HN. { unfold u. rewrite sort_strings_perm. apply NoDup_elements. }
  unfold observeUnknownWorkers. cbn [run_length]. case_decide as Hlen.
  - apply length_zero_iff_nil in Hlen. split_and!; [done..| |].
    + intros w. cbn [unknownStreak]. unfold unknown_at at 1.
      rewrite bool_decide_false by (rewrite <- Hu, Hlen; apply not_elem_of_nil). done.
    + split; [done|]. intros (w & Hw%Hu & _). rewrite Hlen in Hw. by apply not_elem_of_nil in Hw.
  - destruct (fold_left observe_unknown_one u (unknownStreak s, false)) as [k d] eqn:E.
    split_and!; [done..| |].
    + intros w. cbn [unknownStreak]. unfold unknown_at at 1.
      pose proof (fold_view observe_unknown_one (λ w st, st.1 !! w) (λ _ v, Some (S (default 0 v)))
        (λ a x, proj1 (unknown_view_flag x a x) eq_refl)
        (λ a x y, proj1 (proj2 (unknown_view_flag y a x))) u (unknownStreak s, false) w HN) as HV.
      rewrite E in HV. cbn [fst] in HV. rewrite (im_unknown _ _ _ Him), default_some_pos in HV.
      destruct (decide (w ∈ u)) as [Hw|Hw].
      * rewrite bool_decide_true, some_pos_S by by apply Hu. by apply map_lookup_filter_Some.
      * rewrite bool_decide_false by by rewrite <- Hu. apply map_lookup_filter_None. naive_solver.
    + pose proof (fold_flag observe_unknown_one (λ w st, st.1 !! w) snd (λ v, bool_decide (default 0 v = 0))
        (λ a x y, proj1 (proj2 (unknown_view_flag y a x)))
        (λ a x, proj2 (proj2 (unknown_view_flag x a x))) u (unknownStreak s, false) HN) as HF.
      rewrite E in HF. cbn [fst snd] in HF. rewrite HF, orb_false_l.
      rewrite (existsb_bool_decide (λ w, default 0 (unknownStreak s !! w) = 0)).
      setoid_rewrite Hu. setoid_rewrite (im_unknown _ _ _ Him). by setoid_rewrite default_some_pos.
Qed.

Lemma elem_of_EmptyLabels i l :
  l ∈ EmptyLabels (buildLabelTopology i) <->
  l ∈ SortedLabels (buildLabelTopology i) /\ length (Pools (buildLabelTopology i) !!! l) = 0.
Proof. simpl. rewrite !elem_of_sort_strings, !list_elem_of_filter. tauto. Qed.

Lemma NoDup_EmptyLabels i : NoDup (EmptyLabels (buildLabelTopology i)).
Proof. simpl. rewrite sort_strings_perm. repeat apply NoDup_filter. apply NoDup_map_keys. Qed.

Lemma prune_lookup cur s l :
  (emptySince s !! l = None -> emptyStreak s !! l = None) ->
  emptySince (prune cur s) !! l = (if decide (l ∈ cur) then emptySince s !! l else None) /\
  emptyStreak (prune cur s) !! l = (if decide (l ∈ cur) then emptyStreak s !! l else None).
Proof.
  intros Hd. unfold prune. cbn [emptySince emptyStreak]. rewrite !map_lookup_filter.
  set (gone := filter _ (dom _)).
  assert (l ∈ gone <-> l ∉ cur /\ is_Some (emptySince s !! l)) as Hgone.
  { unfold gone. by rewrite elem_of_filter, elem_of_dom. }
  destruct (decide (l ∈ cur)) as [Hc|Hc].
  - assert (l ∉ gone) by tauto. split; [destruct (emptySince s !! l)|destruct (emptyStreak s !! l)]; simpl;
      try done; by rewrite option_guard_True.
  - destruct (emptySince s !! l) as [x|] eqn:E; simpl.
    + assert (l ∈ gone) as Hg by (apply Hgone; eauto). split; [by rewrite option_guard_False by tauto|].
      destruct (emptyStreak s !! l); simpl; [|done]. by rewrite option_guard_False by tauto.
    + by rewrite Hd.
Qed.

Definition decide_empty (g now t0 : Z) : emptyPoolAction :=
  if decide (time_sub now t0 < g)%Z then emptyPoolPark else emptyPoolSpill.

(** The loop of an observation, label by label. *)
Lemma empty_views g h s0 s o (t := buildLabelTopology (o_input o))
    (s1 := observeNonEmpty (filter (λ l, 0 < length (Pools t !!! l)) (SortedLabels t)) s)
    (st := fold_left (observe_empty_one g (o_now o)) (EmptyLabels t)
             (mkEmptyLoop (emptySince s1) (emptyStreak s1) ∅ false)) :
  implements g h s0 -> emptySince s = emptySince s0 -> emptyStreak s = emptyStreak s0 ->
  (forall l, l ∈ EmptyLabels t -> empty_view l st =
     (Some (default (o_now o) (run_start (empty_at l) o_now h)), Some (S (run_length (empty_at l) h)),
      decide_empty g (o_now o) <$> run_start (empty_at l) o_now h)) /\
  (forall l, l ∉ EmptyLabels t -> empty_view l st = if decide (l ∈ SortedLabels t) then (None, None, None)
     else (run_start (empty_at l) o_now h, some_pos (run_length (empty_at l) h), None)) /\
  (el_deferred st = true <-> exists l, l ∈ EmptyLabels t /\ run_length (empty_at l) h = 0).
Proof.
  intros Him Es Ek. set (st0 := mkEmptyLoop _ _ _ _) in st.
  assert (forall l, l ∈ filter (λ l, 0 < length (Pools t !!! l)) (SortedLabels t) <->
    l ∈ SortedLabels t /\ l ∉ EmptyLabels t) as Hne.
  { intros l. unfold t. rewrite list_elem_of_filter, elem_of_EmptyLabels. intuition lia. }
  assert (forall l, empty_view l st0 = if decide (l ∈ SortedLabels t /\ l ∉ EmptyLabels t) then (None, None, None)
     else (run_start (empty_at l) o_now h, some_pos (run_length (empty_at l) h), None)) as Hv0.
  { intros l. unfold empty_view, st0, s1, observeNonEmpty. simpl. rewrite !lookup_fold_delete, Es, Ek.
    rewrite (im_since _ _ _ Him), (im_streak _ _ _ Him). specialize (Hne l). simpl in Hne.
    repeat case_decide; tauto || done. }
  assert (forall l, empty_view l st = if decide (l ∈ EmptyLabels t)
     then empty_update g (o_now o) l (empty_view l st0) else empty_view l st0) as Hv.
  { intros l. apply (fold_view (observe_empty_one g (o_now o)) empty_view (empty_update g (o_now o)));
      [apply empty_view_eq|apply empty_view_ne|apply NoDup_EmptyLabels]. }
  split_and!.
  - intros l Hl. rewrite Hv, decide_True, Hv0, decide_False by tauto.
    unfold empty_update. rewrite default_some_pos. f_equal.
    pose proof (run_start_None (empty_at l) o_now h).
    destruct (run_start (empty_at l) o_now h); simpl; case_decide; naive_solver.
  - intros l Hl. rewrite Hv, decide_False, Hv0 by done. repeat case_decide; tauto || done.
  - unfold st. rewrite (fold_flag _ empty_view el_deferred (λ v, bool_decide (default 0 v.1.2 = 0)));
      [|apply empty_view_ne|apply empty_flag|apply NoDup_EmptyLabels].
    simpl el_deferred. rewrite orb_false_l, (existsb_bool_decide (λ l, default 0 (empty_view l st0).1.2 = 0)).
    f_equiv. intros l. rewrite Hv0. split; intros [Hl E]; (split; [done|]);
      rewrite decide_False in * by tauto; cbn in *; by rewrite default_some_pos in *.
Qed.

Lemma observe_implements g h s o :
  implements g h s ->
  let '(s', actions, deferred) := observe_input o s in
  implements g (o :: h) s' /\
  (forall l, actions !! l = if empty_at l o then decide_empty g (o_now o) <$> run_start (empty_at l) o_now h else None) /\
  (deferred = true <->
     (exists w, unknown_at w o = true /\ run_length (unknown_at w) h = 0) \/
     (exists l, empty_at l o = true /\ run_length (empty_at l) h = 0)).
Proof.
  intros Him. unfold observe_input, observe.
  pose proof (observeUnknownWorkers_spec g h s o Him) as HU.
  destruct (observeUnknownWorkers _ s) as [s1 ud]. destruct HU as ((Eg & Es & Ek) & HU & Hud).
  unfold observeEmptyPools. cbn [grace observeNonEmpty]. rewrite Eg, (im_grace _ _ _ Him).
  pose proof (empty_views g h s s1 o Him Es Ek) as HE. cbn zeta in HE.
  set (st := fold_left _ _ _) in *. set (t := buildLabelTopology (o_input o)) in *.
  destruct HE as (HE & HN & HD).
  assert (forall l, empty_view l st = (el_since st !! l, el_streak st !! l, el_actions st !! l)) as Hview by done.
  assert (forall l, l ∈ EmptyLabels t -> l ∈ SortedLabels t) as Hsub.
  { intros l. unfold t. rewrite elem_of_EmptyLabels. tauto. }
  set (s2 := mkLabelState _ _ _ _).
  assert (forall l, emptySince s2 !! l = None -> emptyStreak s2 !! l = None) as Hdom.
  { intros l. destruct (decide (l ∈ EmptyLabels t)) as [Hl|Hl].
    - specialize (HE l Hl). rewrite Hview in HE. simplify_eq. unfold s2. simpl. congruence.
    - specialize (HN l Hl). rewrite Hview in HN. unfold s2. simpl. case_decide; injection HN as -> -> _; [done|].
      by intros ->%run_start_None. }
  split_and!.
  - split; [done| | |apply HU]; intros l;
      destruct (prune_lookup (list_to_set (SortedLabels t)) s2 l (Hdom l)) as [Hp1 Hp2];
      rewrite ?Hp1, ?Hp2; clear Hp1 Hp2; cbn [run_start run_length]; unfold empty_at at 1; fold t;
      destruct (decide (l ∈ EmptyLabels t)) as [Hl|Hl].
    all: try (rewrite decide_True by (apply elem_of_list_to_set; auto);
              rewrite bool_decide_true by done; specialize (HE l Hl); rewrite Hview in HE; by simplify_eq).
    all: rewrite bool_decide_false by done; case_decide as Hc; [|done].
    all: apply elem_of_list_to_set in Hc; specialize (HN l Hl); rewrite Hview, decide_True in HN by done.
    all: by simplify_eq.
  - intros l. unfold empty_at at 1. fold t. destruct (decide (l ∈ EmptyLabels t)) as [Hl|Hl].
    + rewrite bool_decide_true by done. specialize (HE l Hl). rewrite Hview in HE. by simplify_eq.
    + rewrite bool_decide_false by done. specialize (HN l Hl). rewrite Hview in HN. case_decide; by simplify_eq.
  - rewrite orb_true_iff, Hud, HD. unfold unknown_at at 3, empty_at at 3. fold t.
    by setoid_rewrite bool_decide_eq_true.
Qed.

(** C34. Confirmation before disruption. After any history of trusted
    observations, the next one is deferred exactly when some label's pool is
    empty, or some worker's labels are unreadable, for the first time in a row;
    and a label without workers is spilled exactly when the observations before
    this one already form an unbroken run of empty observations that began at
    least the grace period ago, and parked exactly when such a run is younger. *)
Theorem label_decisions_confirmed g (h : list observation) o
    (s := foldr (λ o s, (observe_input o s).1.1) (newLabelState g) h) :
  let '(_, actions, deferred) := observe_input o s in
  (deferred = true <->
     (exists w, unknown_at w o = true /\ run_length (unknown_at w) h = 0) \/
     (exists l, empty_at l o = true /\ run_length (empty_at l) h = 0)) /\
  (forall l, actions !! l = Some emptyPoolSpill <->
     empty_at l o = true /\
     exists t0, run_start (empty_at l) o_now h = Some t0 /\ (g <= time_sub (o_now o) t0)%Z) /\
  (forall l, actions !! l = Some emptyPoolPark <->
     empty_at l o = true /\
     exists t0, run_start (empty_at l) o_now h = Some t0 /\ (time_sub (o_now o) t0 < g)%Z).
Proof.
  assert (implements g h s) as Him.
  { unfold s. induction h as [|o' h IH]; [by split|]. simpl.
    pose proof (observe_implements g h _ o' IH) as HO. destruct (observe_input o' _) as [[] ?]. apply HO. }
  pose proof (observe_implements g h s o Him) as HO.
  destruct (observe_input o s) as [[s' actions] deferred]. destruct HO as (_ & HA & HD).
  split_and!; [done|..]; intros l; rewrite HA; unfold decide_empty;
    (destruct (empty_at l o); [|naive_solver]);
    (destruct (run_start (empty_at l) o_now h) as [t0|]; simpl; [|naive_solver]);
    case_decide; naive_solver lia.
Qed.

(** ** The re-check timer *)

(** [pendingLabelRecheck], the capacity-1 [labelRecheckCh] and the instant at
    which [labelRecheckTimer] fires, if armed. *)
Record recheck := mkRecheck {
  pendingLabelRecheck : bool;
  labelRecheckCh : bool;
  labelRecheckTimer : option Z;
}.

Definition reasonNonFreshObservation : string := "non_fresh_observation".

Definition requestLabelRecheck (reason : string) (r : recheck) : recheck :=
  if decide (reason = reasonNonFreshObservation)
  then mkRecheck true (labelRecheckCh r) (labelRecheckTimer r)
  else mkRecheck true true (labelRecheckTimer r).

Definition recheck_slack : Z := 50 * 1000000.

Definition armLabelRecheckAfterRebalance (now : Z) (parkedCount : nat) (s : labelState) (r : recheck) :
    recheck :=
  if decide (parkedCount = 0) then
    if pendingLabelRecheck r then r
    else mkRecheck (pendingLabelRecheck r) (labelRecheckCh r) None
  else
    let timer := (λ left, now + left + recheck_slack)%Z <$> minRemainingGrace now s in
    mkRecheck (pendingLabelRecheck r) (labelRecheckCh r) timer.

Lemma minRemainingGrace_spec now s :
  match minRemainingGrace now s with
  | None => emptySince s = ∅
  | Some d =>
      (exists l t0, emptySince s !! l = Some t0 /\ d = Z.max 0 (wrap64 (grace s - time_sub now t0))) /\
      (forall l t0, emptySince s !! l = Some t0 -> d <= Z.max 0 (wrap64 (grace s - time_sub now t0)))%Z
  end.
Proof.
  unfold minRemainingGrace.
  apply (map_fold_weak_ind (λ acc (m : gmap string Z), match acc with
    | None => m = ∅
    | Some d => (exists l t0, m !! l = Some t0 /\ d = Z.max 0 (wrap64 (grace s - time_sub now t0))) /\
        (forall l t0, m !! l = Some t0 -> d <= Z.max 0 (wrap64 (grace s - time_sub now t0)))%Z
    end)); [done|].
  intros l t0 m acc Hl IH. destruct acc as [mn|].
  - destruct IH as [(l1 & t1 & Hl1 & ->) Hmin]. case_decide as Hlt.
    + split; [exists l, t0; by rewrite lookup_insert_eq|].
      intros l2 t2 [[<- <-]|[_ Hm]]%lookup_insert_Some; [done|]. specialize (Hmin _ _ Hm). lia.
    + split; [exists l1, t1; rewrite lookup_insert_ne by congruence; done|].
      intros l2 t2 [[<- <-]|[_ Hm]]%lookup_insert_Some; [lia|eauto].
  - subst m. split; [exists l, t0; by rewrite lookup_insert_eq|].
    intros l2 t2 [[<- <-]|[_ Hm]]%lookup_insert_Some; [done|]. by rewrite lookup_empty in Hm.
Qed.

(** The re-check timer wakes the leader for the spill: after a rebalance
    that parked something, with a grace clock running and instants within the
    range of a duration, the timer is armed; when it fires, some label's grace
    has expired so that it will be spilled; and it does not fire before the
    first expiry, nor more than 50ms after it. *)
Theorem recheck_timer_fires_after_grace now parked s r l0
    (Hparked : 0 < parked) (Hclock : is_Some (emptySince s !! l0)) (Hg : (0 <= grace s < 2 ^ 62)%Z)
    (Hpast : forall l t0, emptySince s !! l = Some t0 -> (0 <= now - t0 < 2 ^ 62)%Z) :
  exists fire, labelRecheckTimer (armLabelRecheckAfterRebalance now parked s r) = Some fire /\
    (exists l t0, emptySince s !! l = Some t0 /\
       fire = (Z.max now (t0 + grace s) + recheck_slack)%Z /\
       (forall t, fire <= t < now + 2 ^ 62 -> decide_empty (grace s) t t0 = emptyPoolSpill)%Z) /\
    (forall l t0, emptySince s !! l = Some t0 -> fire <= Z.max now (t0 + grace s) + recheck_slack)%Z.
Proof.
  unfold armLabelRecheckAfterRebalance. rewrite decide_False by lia. simpl.
  pose proof (minRemainingGrace_spec now s) as HM. destruct (minRemainingGrace now s) as [d|].
  2:{ rewrite HM, lookup_empty in Hclock. by destruct Hclock. }
  destruct HM as [(l & t0 & Hl & ->) Hmin].
  assert (forall l t0, emptySince s !! l = Some t0 ->
    Z.max 0 (wrap64 (grace s - time_sub now t0)) = Z.max 0 (t0 + grace s - now))%Z as Hleft.
  { intros l1 t1 H1%Hpast. unfold time_sub. rewrite wrap64_id by lia. lia. }
  eexists. split; [done|]. split.
  - exists l, t0. split_and!; [done| |].
    + rewrite (Hleft l) by done. unfold recheck_slack. lia.
    + intros t Ht. unfold decide_empty, time_sub. pose proof (Hpast _ _ Hl). rewrite (Hleft l) in Ht by done.
      unfold recheck_slack in Ht. rewrite decide_False by lia. done.
  - intros l1 t1 Hl1. specialize (Hmin _ _ Hl1). rewrite (Hleft l), (Hleft l1) in Hmin by done.
    rewrite (Hleft l) by done. lia.
Qed.

Lemma recheck_timer_fires_after_grace_witness :
  let s := mkLabelState 30000000000 {["gpu" := 5%Z]} {["gpu" := 2]} ∅ in
  exists fire, labelRecheckTimer (armLabelRecheckAfterRebalance 10 1 s (mkRecheck false false None)) = Some fire /\
    (exists l t0, emptySince s !! l = Some t0 /\
       fire = (Z.max 10 (t0 + grace s) + recheck_slack)%Z /\
       (forall t, fire <= t < 10 + 2 ^ 62 -> decide_empty (grace s) t t0 = emptyPoolSpill)%Z) /\
    (forall l t0, emptySince s !! l = Some t0 -> fire <= Z.max 10 (t0 + grace s) + recheck_slack)%Z.
Proof.
  intros s. apply (recheck_timer_fires_after_grace 10 1 s (mkRecheck false false None) "gpu").
  - lia.
  - by eexists.
  - simpl. lia.
  - intros l t0 Hl. simpl in Hl. apply lookup_singleton_Some in Hl as [_ <-]. lia.
Defined.
