(* ===== verification/Emergency.v ===== *)
(** * Emergency detection (internal/assignment/emergency.go)

    A worker missing from the live set is reported dead only after it has been
    absent from every leader observation for the grace period. *)
From S2P Require Import Prelude Labels.

Record EmergencyDetector := mkDetector {
  disappearedWorkers : gmap string Z;
  gracePeriod : Z;
}.

Definition NewEmergencyDetector (g : Z) : EmergencyDetector := mkDetector ∅ g.

Definition ObserveAlive (alive : list string) (d : EmergencyDetector) : EmergencyDetector :=
  mkDetector (fold_left (λ m w, delete w m) alive (disappearedWorkers d)) (gracePeriod d).

(** The four phases, on the worker sets that the source keeps as maps. *)
Definition clear_seen (curr : gset string) (m : gmap string Z) : gmap string Z :=
  filter (λ kv, kv.1 ∉ curr) m.

Definition track_missing (now : Z) (prev curr : gset string) (m : gmap string Z) : gmap string Z :=
  m ∪ gset_to_gmap now (prev ∖ curr).

Definition drop_stranded (now g : Z) (prev : gset string) (m : gmap string Z) : gmap string Z :=
  filter (λ kv, ~ (kv.1 ∉ prev /\ wrap64 (10 * g) < time_sub now kv.2)%Z) m.

Definition CheckEmergency (now : Z) (prev curr : gset string) (d : EmergencyDetector) :
    EmergencyDetector * (bool * list string * bool) :=
  let m := clear_seen curr (disappearedWorkers d) in
  let m := track_missing now prev curr m in
  let m := drop_stranded now (gracePeriod d) prev m in
  let tracked := filter (λ kv : string * Z, kv.1 ∈ prev) (map_to_list m) in
  let confirmed := fst <$> filter (λ kv : string * Z, gracePeriod d <= time_sub now kv.2)%Z tracked in
  (mkDetector m (gracePeriod d),
   (bool_decide (0 < length confirmed), confirmed, bool_decide (tracked <> []))).

(** ** Observation traces *)

(** Every use of the detector: a poll that compares worker sets, or a side
    observation of live workers. *)
Inductive event :=
| Poll (now : Z) (prev curr : gset string)
| Alive (now : Z) (ws : list string).

Definition ev_time (e : event) : Z :=
  match e with Poll now _ _ => now | Alive now _ => now end.

Definition step (e : event) (d : EmergencyDetector) : EmergencyDetector :=
  match e with
  | Poll now prev curr => (CheckEmergency now prev curr d).1
  | Alive _ ws => ObserveAlive ws d
  end.

Definition seen_alive (w : string) (e : event) : Prop :=
  match e with
  | Poll _ _ curr => w ∈ curr
  | Alive _ ws => w ∈ ws
  end.

(** The detector after a trace, newest event first. *)
Definition detector (g : Z) (h : list event) : EmergencyDetector :=
  foldr step (NewEmergencyDetector g) h.

(** In trace [h] (newest first), [w] went missing at instant [t] and no
    observation has seen it since. *)
Definition absent_since (w : string) (t : Z) (h : list event) : Prop :=
  exists h1 h2 prev curr, h = h1 ++ Poll t prev curr :: h2 /\ w ∈ prev /\ w ∉ curr /\
    Forall (λ e, ~ seen_alive w e) h1.

(** Polls keep the worker in their previous set, so it stays tracked. *)
Definition expected (w : string) (e : event) : Prop :=
  match e with Poll _ prev _ => w ∈ prev | Alive _ _ => True end.

Lemma lookup_ObserveAlive ws d w :
  disappearedWorkers (ObserveAlive ws d) !! w =
  if decide (w ∈ ws) then None else disappearedWorkers d !! w.
Proof. apply lookup_fold_delete. Qed.

Lemma lookup_CheckEmergency now prev curr d w :
  disappearedWorkers (CheckEmergency now prev curr d).1 !! w =
  if decide (w ∈ curr) then None
  else t ← (match disappearedWorkers d !! w with
            | Some t => Some t
            | None => if decide (w ∈ prev) then Some now else None
            end);
       if decide (w ∉ prev /\ wrap64 (10 * gracePeriod d) < time_sub now t)%Z then None else Some t.
Proof.
  unfold CheckEmergency, drop_stranded, track_missing, clear_seen. cbn [fst disappearedWorkers].
  rewrite map_lookup_filter, lookup_union, map_lookup_filter, lookup_gset_to_gmap.
  assert (w ∈ prev ∖ curr <-> w ∈ prev /\ w ∉ curr) as Hd by set_solver.
  destruct (disappearedWorkers d !! w) as [t|]; cbn;
    repeat (case_guard; cbn in * ); repeat (case_decide; cbn in * ); done || tauto.
Qed.

Arguments CheckEmergency now prev curr d : simpl never.
Arguments ObserveAlive alive d : simpl never.

Lemma detector_cons g e h : detector g (e :: h) = step e (detector g h).
Proof. done. Qed.

Lemma detector_grace g h : gracePeriod (detector g h) = g.
Proof. by induction h as [|[] h IH]; simpl. Qed.

(** A tracked worker has been absent since its recorded instant. *)
Lemma tracked_absent g h w t :
  disappearedWorkers (detector g h) !! w = Some t -> absent_since w t h.
Proof.
  revert t. induction h as [|e h IH]; intros t; simpl; [by rewrite lookup_empty|].
  assert (disappearedWorkers (detector g h) !! w = Some t -> ~ seen_alive w e -> absent_since w t (e :: h)) as Hold.
  { intros (h1 & h2 & prev & curr & -> & Hp & Hc & HF)%IH Hs. exists (e :: h1), h2, prev, curr. by auto. }
  destruct e as [now prev curr|now ws]; cbn [step].
  - rewrite lookup_CheckEmergency. case_decide as Hc; [done|]. fold (detector g h).
    destruct (disappearedWorkers (detector g h) !! w) as [t'|] eqn:E; simpl.
    + case_decide; [done|]. intros [= ->]. by apply Hold.
    + case_decide; simpl; [|done]. case_decide; [done|]. intros [= ->].
      by exists [], h, prev, curr.
  - rewrite lookup_ObserveAlive. case_decide; [done|]. intros E. by apply Hold.
Qed.

(** A worker that stays expected and unseen stays tracked, with an instant no
    later than its disappearance. *)
Lemma absent_tracked g h w t h1 h2 prev curr :
  h = h1 ++ Poll t prev curr :: h2 -> w ∈ prev -> w ∉ curr ->
  Forall (λ e, ~ seen_alive w e /\ expected w e) h1 ->
  StronglySorted (λ e e', ev_time e' <= ev_time e)%Z h ->
  exists t', disappearedWorkers (detector g h) !! w = Some t' /\ (t' <= t)%Z.
Proof.
  intros ->. revert h2. induction h1 as [|e h1 IH]; intros h2 Hp Hc HF HS;
    rewrite ?app_nil_l, <- ?app_comm_cons, detector_cons.
  - cbn [step]. rewrite lookup_CheckEmergency, decide_False by done.
    destruct (disappearedWorkers (detector g h2) !! w) as [t'|] eqn:E; simpl.
    + rewrite decide_False by tauto. exists t'. split; [done|].
      apply tracked_absent in E as (k1 & k2 & p' & c' & -> & _).
      apply StronglySorted_inv in HS as [_ HS]. rewrite Forall_forall in HS.
      apply (HS (Poll t' p' c')). set_solver.
    + rewrite decide_True by done. simpl. rewrite decide_False by tauto. exists t. split; [done|lia].
  - apply Forall_cons in HF as [[Hs He] HF]. apply StronglySorted_inv in HS as [HS _].
    destruct (IH h2 Hp Hc HF HS) as (t' & E & Ht).
    exists t'. split; [|done]. destruct e as [now p' c'|now ws]; cbn [step seen_alive expected] in *.
    + rewrite lookup_CheckEmergency, decide_False, E by done. simpl. by rewrite decide_False by tauto.
    + by rewrite lookup_ObserveAlive, decide_False.
Qed.

Lemma elem_of_confirmed now prev curr d w :
  w ∈ (CheckEmergency now prev curr d).2.1.2 <->
  w ∈ prev /\ exists t, disappearedWorkers (CheckEmergency now prev curr d).1 !! w = Some t /\
    (gracePeriod d <= time_sub now t)%Z.
Proof.
  unfold CheckEmergency. cbn [fst snd disappearedWorkers]. rewrite list_elem_of_fmap. split.
  - intros ([w' t] & -> & Hin). rewrite !list_elem_of_filter, elem_of_map_to_list in Hin. naive_solver.
  - intros (Hp & t & Ht & Hg). exists (w, t). split; [done|].
    by rewrite !list_elem_of_filter, elem_of_map_to_list.
Qed.

(** Death is confirmed exactly after continuous absence. In any trace of
    observations, a poll confirms only workers of its previous set that went
    missing in some poll at least the grace period ago and that no observation
    has seen alive since; conversely, on a clock that does not run backwards, a
    worker that stayed expected and unseen for the grace period is confirmed. *)
Theorem emergency_confirms_continuous_absence g h now prev curr w
    (e := Poll now prev curr) (confirmed := (CheckEmergency now prev curr (detector g h)).2.1.2) :
  (w ∈ confirmed ->
     w ∈ prev /\ w ∉ curr /\ exists t, absent_since w t (e :: h) /\ (g <= time_sub now t)%Z) /\
  (forall t h1 h2 p0 c0,
     e :: h = h1 ++ Poll t p0 c0 :: h2 -> w ∈ p0 -> w ∉ c0 -> w ∈ prev ->
     Forall (λ e, ~ seen_alive w e /\ expected w e) h1 ->
     StronglySorted (λ e e', ev_time e' <= ev_time e)%Z (e :: h) ->
     (g <= time_sub now t)%Z -> w ∈ confirmed).
Proof.
  assert (w ∈ confirmed <-> w ∈ prev /\ exists t,
    disappearedWorkers (detector g (e :: h)) !! w = Some t /\ (g <= time_sub now t)%Z) as Hconf.
  { unfold confirmed. by rewrite elem_of_confirmed, detector_grace. }
  rewrite Hconf. split.
  - intros (Hp & t & Ht & Hg). split_and!; [done| |eauto using tracked_absent].
    intros Hc. rewrite detector_cons in Ht. unfold e in Ht. cbn [step] in Ht. by rewrite lookup_CheckEmergency, decide_True in Ht.
  - intros t h1 h2 p0 c0 E Hp0 Hc0 Hp HF HS Hg. apply Hconf. split; [done|].
    destruct (absent_tracked g (e :: h) w t h1 h2 p0 c0) as (t' & Ht' & Hle); [done..|].
    exists t'. split; [done|]. unfold time_sub in *. lia.
Qed.
