(* ===== verification/CalcFSM.v ===== *)
(** * Calculator state machine (internal/assignment/state_machine.go)

    The goroutines that drive the state machine, interleaved one atomic
    operation at a time: a load, a store under the mutex, a compare-and-swap, a
    channel poll. A thread is its program counter; the shared state is what the
    source keeps in [StateMachine]. Each call of [EnterScaling] has a context of
    its own, which its timer waits on and which its caller may cancel at any time. *)
From S2P Require Import Prelude.

Inductive CalculatorState := CalcStateIdle | CalcStateScaling | CalcStateRebalancing | CalcStateEmergency.

#[export] Instance CalculatorState_eq_dec : EqDecision CalculatorState.
Proof. solve_decision. Defined.

(** Contexts, by the order of their creation. *)
Definition context : Type := nat.

Record StateMachine := mkSM {
  current : CalculatorState;
  scalingReason : string;
  stopping : bool;
  stopCh : bool;   (* closed *)
  cancelled : gset context;
  notified : list CalculatorState;   (* notifications fanned out, newest first *)
}.

Definition NewStateMachine : StateMachine := mkSM CalcStateIdle "" false false ∅ [].

Definition set_current (s : CalculatorState) (sm : StateMachine) : StateMachine :=
  mkSM s (scalingReason sm) (stopping sm) (stopCh sm) (cancelled sm) (notified sm).
Definition set_reason (r : string) (sm : StateMachine) : StateMachine :=
  mkSM (current sm) r (stopping sm) (stopCh sm) (cancelled sm) (notified sm).
Definition notifyStateChange (s : CalculatorState) (sm : StateMachine) : StateMachine :=
  mkSM (current sm) (scalingReason sm) (stopping sm) (stopCh sm) (cancelled sm) (s :: notified sm).

(** [sync/atomic] compare-and-swap. *)
Definition compareAndSwapState (from to : CalculatorState) (sm : StateMachine) : StateMachine * bool :=
  if decide (current sm = from) then (set_current to sm, true) else (sm, false).

(** Where a goroutine stands. [Sc...] is [EnterScaling], [Tm...] its timer and
    [EnterRebalancing], [Em...] is [TryClaimEmergency], [Pt...] is
    [TryClaimRebalancing], [Running] the rebalance callback, [Rt...] is
    [ReturnToIdle] with the loop of [emitStateChange]. A timer that its context
    ended stays as [TmCancelled]. *)
Inductive pc :=
| ScStopping (x : context) (r : string) | ScStopCh (x : context) (r : string) | ScCheck (x : context) (r : string)
| ScReason (x : context) (r : string)
| ScEmitLoad (x : context) | ScEmitCas (x : context) (old : CalculatorState) | ScEmitNotify (x : context)
| ScStopping2 (x : context) | ScStopCh2 (x : context)
| TmWait (x : context) | TmCancelled (x : context) | TmCas | TmNotify | TmReadReason
| EmCasIdle | EmCasScaling | EmReason | EmNotify
| PtCas (r : string) | PtReason (r : string) | PtNotify (r : string)
| Running (r : string)
| RtReason | RtEmitLoad | RtEmitCas (old : CalculatorState) | RtNotify
| Done.

(** The next atomic operation of a goroutine: its effect, where it continues,
    and the goroutine it starts, if any. [None] when it has to wait: a timer
    that has not fired, a callback that has not returned. One definition per
    method, on the program counters inside it. *)
Definition emitStateChange (to : CalculatorState) (load : pc) (cas : CalculatorState -> pc) (notify done : pc)
    (p : option CalculatorState) (sm : StateMachine) : StateMachine * pc :=
  match p with
  | None => (sm, if decide (current sm = to) then done else cas (current sm))
  | Some old =>
      let '(sm', ok) := compareAndSwapState old to sm in
      (sm', if ok : bool then notify else load)
  end.

Definition EnterScaling (p : pc) (sm : StateMachine) : option (StateMachine * pc * list pc) :=
  match p with
  | ScStopping x r => Some (sm, if stopping sm then Done else ScStopCh x r, [])
  | ScStopCh x r => Some (sm, if stopCh sm then Done else ScCheck x r, [])
  | ScCheck x r => Some (sm, if decide (current sm = CalcStateIdle) then ScReason x r else Done, [])
  | ScReason x r => Some (set_reason r sm, ScEmitLoad x, [])
  | ScEmitLoad x =>
      Some (emitStateChange CalcStateScaling (ScEmitLoad x) (ScEmitCas x) (ScEmitNotify x) (ScStopping2 x) None sm, [])
  | ScEmitCas x old =>
      Some (emitStateChange CalcStateScaling (ScEmitLoad x) (ScEmitCas x) (ScEmitNotify x) (ScStopping2 x) (Some old) sm, [])
  | ScEmitNotify x => Some (notifyStateChange CalcStateScaling sm, ScStopping2 x, [])
  | ScStopping2 x => Some (sm, if stopping sm then Done else ScStopCh2 x, [])
  | ScStopCh2 x => if stopCh sm then Some (sm, Done, []) else Some (sm, Done, [TmWait x])
  | _ => None
  end.

(** Called by the timer when the scaling window has passed. *)
Definition EnterRebalancing (p : pc) (sm : StateMachine) : option (StateMachine * pc * list pc) :=
  match p with
  | TmCas =>
      let '(sm', ok) := compareAndSwapState CalcStateScaling CalcStateRebalancing sm in
      Some (sm', if ok : bool then TmNotify else Done, [])
  | TmNotify => Some (notifyStateChange CalcStateRebalancing sm, TmReadReason, [])
  | TmReadReason => Some (sm, Running (scalingReason sm), [])
  | _ => None
  end.

Definition tryClaimEmergencyFrom (from : CalculatorState) (lost : pc) (sm : StateMachine) : StateMachine * pc :=
  let '(sm', ok) := compareAndSwapState from CalcStateEmergency sm in
  (sm', if ok : bool then EmReason else lost).

Definition TryClaimEmergency (p : pc) (sm : StateMachine) : option (StateMachine * pc * list pc) :=
  match p with
  | EmCasIdle => Some (tryClaimEmergencyFrom CalcStateIdle EmCasScaling sm, [])
  | EmCasScaling => Some (tryClaimEmergencyFrom CalcStateScaling Done sm, [])
  | EmReason => Some (set_reason "emergency" sm, EmNotify, [])
  | EmNotify => Some (notifyStateChange CalcStateEmergency sm, Running "emergency", [])
  | _ => None
  end.

Definition TryClaimRebalancing (p : pc) (sm : StateMachine) : option (StateMachine * pc * list pc) :=
  match p with
  | PtCas r =>
      let '(sm', ok) := compareAndSwapState CalcStateIdle CalcStateRebalancing sm in
      Some (sm', if ok : bool then PtReason r else Done, [])
  | PtReason r => Some (set_reason r sm, PtNotify r, [])
  | PtNotify r => Some (notifyStateChange CalcStateRebalancing sm, Running r, [])
  | _ => None
  end.

Definition ReturnToIdle (p : pc) (sm : StateMachine) : option (StateMachine * pc * list pc) :=
  match p with
  | RtReason => Some (set_reason "" sm, RtEmitLoad, [])
  | RtEmitLoad => Some (emitStateChange CalcStateIdle RtEmitLoad RtEmitCas RtNotify Done None sm, [])
  | RtEmitCas old => Some (emitStateChange CalcStateIdle RtEmitLoad RtEmitCas RtNotify Done (Some old) sm, [])
  | RtNotify => Some (notifyStateChange CalcStateIdle sm, Done, [])
  | _ => None
  end.

Definition exec (p : pc) (sm : StateMachine) : option (StateMachine * pc * list pc) :=
  match p with
  | ScStopping _ _ | ScStopCh _ _ | ScCheck _ _ | ScReason _ _ | ScEmitLoad _ | ScEmitCas _ _ | ScEmitNotify _
  | ScStopping2 _ | ScStopCh2 _ => EnterScaling p sm
  | TmCas | TmNotify | TmReadReason => EnterRebalancing p sm
  | EmCasIdle | EmCasScaling | EmReason | EmNotify => TryClaimEmergency p sm
  | PtCas _ | PtReason _ | PtNotify _ => TryClaimRebalancing p sm
  | RtReason | RtEmitLoad | RtEmitCas _ | RtNotify => ReturnToIdle p sm
  | TmWait _ | TmCancelled _ | Running _ | Done => None
  end.

(** All outcomes of one atomic operation. *)
Ltac exec_cases E :=
  cbn in E; unfold emitStateChange, tryClaimEmergencyFrom, compareAndSwapState in E; cbn in E;
  repeat case_match; simplify_eq.

(** Entry points a caller may start at any time. *)
Inductive entry : pc -> Prop :=
| entry_scaling x r : entry (ScStopping x r)
| entry_emergency : entry EmCasIdle
| entry_partition r : entry (PtCas r).

Definition config : Type := StateMachine * list pc.

(** One step of the whole program. *)
Inductive step : config -> config -> Prop :=
| step_exec sm ts1 p ts2 sm' p' new :
    exec p sm = Some (sm', p', new) ->
    step (sm, ts1 ++ p :: ts2) (sm', ts1 ++ p' :: new ++ ts2)
| step_call sm ts p : entry p -> step (sm, ts) (sm, p :: ts)
| step_timer sm ts1 x ts2 : step (sm, ts1 ++ TmWait x :: ts2) (sm, ts1 ++ TmCas :: ts2)
| step_timer_stop sm ts1 x ts2 : stopCh sm = true -> step (sm, ts1 ++ TmWait x :: ts2) (sm, ts1 ++ Done :: ts2)
| step_timer_cancel sm ts1 x ts2 :
    x ∈ cancelled sm -> step (sm, ts1 ++ TmWait x :: ts2) (sm, ts1 ++ TmCancelled x :: ts2)
| step_callback sm ts1 r ts2 : step (sm, ts1 ++ Running r :: ts2) (sm, ts1 ++ RtReason :: ts2)
| step_stop sm ts :
    step (sm, ts) (mkSM (current sm) (scalingReason sm) true (stopCh sm) (cancelled sm) (notified sm), ts)
| step_close sm ts :
    step (sm, ts) (mkSM (current sm) (scalingReason sm) (stopping sm) true (cancelled sm) (notified sm), ts)
| step_ctx sm ts x :
    step (sm, ts) (mkSM (current sm) (scalingReason sm) (stopping sm) (stopCh sm) ({[x]} ∪ cancelled sm) (notified sm), ts).

Definition initial : config := (NewStateMachine, []).
Definition reachable (c : config) : Prop := rtc step initial c.

(** ** The machine is never stuck *)

Definition shutting_down (sm : StateMachine) : bool := stopping sm || stopCh sm.

Definition busy (s : CalculatorState) : bool :=
  match s with CalcStateRebalancing | CalcStateEmergency => true | _ => false end.

(** The thread holds a claimed lifecycle it has not given back. *)
Definition claimed (p : pc) : bool :=
  match p with
  | TmNotify | TmReadReason | EmReason | EmNotify | PtReason _ | PtNotify _ | Running _
  | RtReason | RtEmitLoad | RtEmitCas _ => true
  | _ => false
  end.

(** The thread will start the scaling timer, or is that timer. *)
Definition scaling_pending (p : pc) : bool :=
  match p with
  | ScEmitNotify _ | ScStopping2 _ | ScStopCh2 _ | TmWait _ | TmCas => true
  | _ => false
  end.

(** The thread was a scaling timer until the context of its call was cancelled. *)
Definition abandoned (p : pc) : bool := match p with TmCancelled _ => true | _ => false end.

Record unstuck (c : config) : Prop := {
  un_busy : busy (current c.1) = true -> has claimed c.2;
  un_scaling : current c.1 = CalcStateScaling ->
    shutting_down c.1 = true \/ has scaling_pending c.2 \/ has abandoned c.2;
  un_abandoned : Forall (λ p, match p with TmCancelled x => x ∈ cancelled c.1 | _ => True end) c.2;
}.

Lemma exec_unstuck sm p sm' p' new ts1 ts2 :
  exec p sm = Some (sm', p', new) ->
  unstuck (sm, ts1 ++ p :: ts2) -> unstuck (sm', ts1 ++ p' :: new ++ ts2).
Proof.
  intros E [HB HS HA]. cbn [fst snd] in *. rewrite has_middle in HB. rewrite (has_middle scaling_pending), (has_middle abandoned) in HS. rewrite Forall_middle in HA.
  split; cbn [fst snd]; rewrite ?(has_spawn claimed), ?(has_spawn scaling_pending), ?(has_spawn abandoned), ?Forall_spawn; destruct sm as [cur r st ch cd nt]; cbn in HB, HS.
  all: destruct p; exec_cases E; cbn in *; intros; simplify_eq; unfold shutting_down in *; cbn in *;
    intuition (try done; try congruence).
  - left. apply orb_true_r.
  - right. left. right. left. eexists. split; [left|done].
  - by repeat constructor.
Qed.

Lemma step_unstuck c c' : step c c' -> unstuck c -> unstuck c'.
Proof.
  destruct 1 as [sm ts1 p ts2 sm' p' new E|sm ts p Hp|sm ts1 x ts2|sm ts1 x ts2 Hc|sm ts1 x ts2 Hx|sm ts1 r ts2|sm ts|sm ts|sm ts x].
  - by apply exec_unstuck.
  - intros [HB HS HA]; split; cbn in *; rewrite ?(has_cons claimed), ?(has_cons scaling_pending), ?(has_cons abandoned), ?Forall_cons; [naive_solver..|]. split; [by destruct Hp|done].
  - intros [HB HS HA]; split; cbn in *; rewrite ?(has_middle claimed), ?(has_middle scaling_pending), ?(has_middle abandoned), ?Forall_middle in *; naive_solver.
  - intros [HB HS HA]; split; cbn in *; rewrite ?(has_middle claimed), ?(has_middle scaling_pending), ?(has_middle abandoned), ?Forall_middle in *; [naive_solver| |naive_solver]. intros _. left.
    unfold shutting_down. rewrite Hc. apply orb_true_r.
  - intros [HB HS HA]; split; cbn in *; rewrite ?(has_middle claimed), ?(has_middle scaling_pending), ?(has_middle abandoned), ?Forall_middle in *; naive_solver.
  - intros [HB HS HA]; split; cbn in *; rewrite ?(has_middle claimed), ?(has_middle scaling_pending), ?(has_middle abandoned), ?Forall_middle in *; naive_solver.
  - intros [HB HS HA]; split; cbn in *; [done| |done]. by left.
  - intros [HB HS HA]; split; cbn in *; [done| |done]. left. unfold shutting_down. cbn. by rewrite orb_true_r.
  - intros [HB HS HA]; split; cbn in *; [done..|]. eapply Forall_impl; [exact HA|]. intros []; set_solver.
Qed.

(** C29. The calculator gets stuck only by the context of one of its own calls.
    In every interleaving of scaling requests, timers, emergency and partition
    claims, rebalances, cancellations of any call's context and shutdown signals,
    a machine that is rebalancing or in an emergency has a goroutine that will
    bring it back to Idle; one that is scaling has its timer running or about to
    start, unless shutdown has begun or some timer ended because the context its
    [EnterScaling] call was given was cancelled. So with no goroutine left, no
    shutdown and no timer so abandoned it is Idle. The exception is real:
    [tail_check_strands_scaling]. *)
Theorem calculator_never_stuck c (Hreach : reachable c) :
  (busy (current c.1) = true -> has claimed c.2) /\
  (current c.1 = CalcStateScaling ->
    shutting_down c.1 = true \/ has scaling_pending c.2 \/ exists x, TmCancelled x ∈ c.2 /\ x ∈ cancelled c.1) /\
  (Forall (λ p, p = Done) c.2 -> shutting_down c.1 = false -> current c.1 = CalcStateIdle).
Proof.
  assert (unstuck c) as [HB HS HA].
  { unfold reachable in Hreach. revert Hreach. apply rtc_ind_r; [by split|].
    intros c1 c2 _ Hs Hu. by eapply step_unstuck. }
  split_and!; [done|..].
  { intros E. destruct (HS E) as [?|[?|(p & Hp & Ep)] ]; [by left|by right; left|right; right].
    destruct p; try discriminate Ep. rewrite Forall_forall in HA. eexists. split; [exact Hp|apply (HA _ Hp)]. }
  intros HF Hsd.
  assert (forall f, f Done = false -> ~ has f c.2) as Hno.
  { intros f Hf (p & Hp & E). rewrite Forall_forall in HF. rewrite (HF p Hp) in E. congruence. }
  destruct (current c.1) eqn:E; [done|..]; exfalso.
  - destruct HS as [|[Hh|Hh] ]; [done|congruence|by apply (Hno scaling_pending)|by apply (Hno abandoned)].
  - by apply (Hno claimed), HB.
  - by apply (Hno claimed), HB.
Qed.

Lemma calculator_never_stuck_witness :
  let sm := set_current CalcStateRebalancing (set_reason "x" NewStateMachine) in
  (busy (current sm) = true -> has claimed [PtNotify "x"]) /\
  (current sm = CalcStateScaling ->
    shutting_down sm = true \/ has scaling_pending [PtNotify "x"] \/
    exists x, TmCancelled x ∈ [PtNotify "x"] /\ x ∈ cancelled sm) /\
  (Forall (λ p, p = Done) [PtNotify "x"] -> shutting_down sm = false -> current sm = CalcStateIdle).
Proof.
  intros sm. apply (calculator_never_stuck (sm, [PtNotify "x"])).
  eapply rtc_l; [apply (step_call _ [] (PtCas "x")); constructor|].
  eapply rtc_l; [apply (step_exec _ [] _ []); reflexivity|].
  eapply rtc_l; [apply (step_exec _ [] _ []); reflexivity|]. apply rtc_refl.
Defined.

(** The tail check of a partition rebalance runs [EnterScaling] on a context that
    [triggerPartitionRebalance] cancels when it returns, and the timer of that call
    waits on it: the machine is left Scaling, no goroutine is running, no shutdown
    has begun, and a later partition claim or scaling request finds no Idle machine. *)
Theorem tail_check_strands_scaling :
  exists c, reachable c /\ current c.1 = CalcStateScaling /\ shutting_down c.1 = false /\
    Forall (λ p, p = Done \/ p = TmCancelled 0) c.2 /\
    (forall x r, exec (ScCheck x r) c.1 = Some (c.1, Done, [])) /\
    (forall l, exec (PtCas l) c.1 = Some (c.1, Done, [])).
Proof.
  eexists (_, [Done; TmCancelled 0; Done]). split.
  - eapply rtc_l; [apply (step_call _ [] (PtCas "partition_update")); constructor|].
    do 3 (eapply rtc_l; [apply (step_exec _ [] _ []); reflexivity|]).
    eapply rtc_l; [apply (step_callback _ [] _ [])|].
    do 4 (eapply rtc_l; [apply (step_exec _ [] _ []); reflexivity|]).
    eapply rtc_l; [apply (step_call _ [_] (ScStopping 0 "planned_scale")); constructor|].
    do 9 (eapply rtc_l; [apply (step_exec _ [] _ [_]); reflexivity|]).
    eapply rtc_l; [apply (step_ctx _ _ 0)|].
    eapply rtc_l; [apply (step_timer_cancel _ [_] 0 [_]); set_solver|]. apply rtc_refl.
  - split_and!; try reflexivity. by repeat (apply Forall_cons; split; [auto|]).
Qed.

(** ** At most one rebalance lifecycle *)

(** [EnterScaling] between its Idle check and its transition. *)
Definition in_window (p : pc) : bool :=
  match p with ScReason _ _ | ScEmitLoad _ | ScEmitCas _ _ => true | _ => false end.

(** Steps in which no lifecycle is claimed while a scaling request is between
    its check and its transition. *)
Definition undisturbed (c c' : config) : Prop :=
  step c c' /\ (busy (current c.1) = false -> busy (current c'.1) = true -> ~ has in_window c.2).

Definition n_claimed (ts : list pc) : nat := count claimed ts.

Arguments n_claimed ts : simpl never.

Record exclusive (c : config) : Prop := {
  ex_count : n_claimed c.2 = if busy (current c.1) then 1 else 0;
  ex_window : has in_window c.2 -> busy (current c.1) = false;
}.

(** The only goroutine an operation starts is a waiting timer. *)
Lemma exec_spawns p sm sm' p' new :
  exec p sm = Some (sm', p', new) -> ~ has in_window new /\ n_claimed new = 0.
Proof.
  intros E. assert (new = [] \/ exists x, new = [TmWait x]) as [-> | [x ->] ].
  { destruct p; exec_cases E; eauto. }
  - split; [by intros (q & ?%not_elem_of_nil & _)|done].
  - split; [|done]. intros (q & ->%list_elem_of_singleton & Hq). done.
Qed.

Lemma step_exclusive c c' : undisturbed c c' -> exclusive c -> exclusive c'.
Proof.
  intros [Hs Hg].
  destruct Hs as [sm ts1 p ts2 sm' p' new E|sm ts p Hp|sm ts1 x ts2|sm ts1 x ts2 Hc|sm ts1 x ts2 Hc|sm ts1 r ts2|sm ts|sm ts|sm ts x].
  - intros [HC HW]. cbn [fst snd] in *. rewrite has_middle in HW, Hg. unfold n_claimed in HC. rewrite count_middle in HC.
    destruct (exec_spawns _ _ _ _ _ E) as [Hnew Hn0].
    unfold n_claimed in *; split; cbn [fst snd]; unfold n_claimed; rewrite ?has_spawn, ?count_spawn, ?Hn0; clear Hn0; destruct sm as [cur r st ch cd nt].
    all: destruct p; exec_cases E; cbn in *; simplify_eq; try done; try (intuition congruence); try lia.
    all: try (destruct cur; cbn in *; simplify_eq; intuition (congruence || lia)).
  - intros [HC HW]; split; cbn [fst snd] in *.
    + rewrite <- HC. destruct Hp; done.
    + rewrite has_cons. intros [Hw|Hw]; [by destruct Hp|auto].
  - intros [HC HW]; split; cbn [fst snd] in *; unfold n_claimed in *; rewrite ?count_middle, ?has_middle in *; [done|by apply HW].
  - intros [HC HW]; split; cbn [fst snd] in *; unfold n_claimed in *; rewrite ?count_middle, ?has_middle in *; [done|by apply HW].
  - intros [HC HW]; split; cbn [fst snd] in *; unfold n_claimed in *; rewrite ?count_middle, ?has_middle in *; [done|by apply HW].
  - intros [HC HW]; split; cbn [fst snd] in *; unfold n_claimed in *; rewrite ?count_middle, ?has_middle in *; [done|by apply HW].
  - intros [HC HW]; by split.
  - intros [HC HW]; by split.
  - intros [HC HW]; by split.
Qed.

(** One lifecycle at a time: in every interleaving in which no lifecycle is
    claimed while a scaling request stands between its Idle check and its
    transition, at most one goroutine holds a claimed rebalance, and one does
    exactly when the state is Rebalancing or Emergency. *)
Theorem one_rebalance_at_a_time c (Hreach : rtc undisturbed initial c) :
  n_claimed c.2 <= 1 /\ (busy (current c.1) = true <-> n_claimed c.2 = 1).
Proof.
  assert (exclusive c) as [HC _].
  { revert Hreach. apply rtc_ind_r; [split; [done|by intros (p & ?%not_elem_of_nil & _)]|].
    intros c1 c2 _ Hs He. by eapply step_exclusive. }
  rewrite HC. by destruct (busy _); split; auto with lia; split.
Qed.

Lemma one_rebalance_at_a_time_witness :
  let sm := set_current CalcStateRebalancing NewStateMachine in
  n_claimed [PtReason "x"] <= 1 /\ (busy (current sm) = true <-> n_claimed [PtReason "x"] = 1).
Proof.
  intros sm. apply (one_rebalance_at_a_time (sm, [PtReason "x"])).
  eapply rtc_l; [split; [apply (step_call _ [] (PtCas "x")); constructor|done]|].
  eapply rtc_l; [split; [apply (step_exec _ [] _ []); reflexivity|]|apply rtc_refl].
  intros _ _ (p & Hp & E). apply list_elem_of_singleton in Hp as ->. discriminate E.
Defined.

(** Without that proviso two rebalances can be in flight at once: a partition
    update claims the Idle machine after [EnterScaling] checked it, the scaling
    transition overwrites Rebalancing, and the timer then claims a second one. *)
Theorem enter_scaling_overwrites_claim :
  exists c, reachable c /\ n_claimed c.2 = 2.
Proof.
  eexists (_, [Done; TmNotify; Running "partition_update"]). split; [|reflexivity].
  eapply rtc_l; [apply (step_call _ [] (PtCas "partition_update")); constructor|].
  eapply rtc_l; [apply (step_call _ [_] (ScStopping 0 "planned_scale")); constructor|].
  do 3 (eapply rtc_l; [apply (step_exec _ [] _ [_]); reflexivity|]).
  do 3 (eapply rtc_l; [apply (step_exec _ [_] _ []); reflexivity|]).
  do 6 (eapply rtc_l; [apply (step_exec _ [] _ [_]); reflexivity|]).
  eapply rtc_l; [apply (step_timer _ [_] 0 [_])|].
  eapply rtc_l; [apply (step_exec _ [_] _ [_]); reflexivity|]. apply rtc_refl.
Qed.
