(* ===== verification/ManagerState.v ===== *)
(** * Manager state and degraded mode (manager_state.go, manager_degraded.go,
      manager_startup_async.go)

    The worker's lifecycle state and the degraded record are two atomics that
    many goroutines change. Each goroutine is a program counter; one step is one
    atomic operation of the source. [effects] lists the transitions in the order of
    their compare-and-swaps; the source reports each right after its own, so reports
    of different goroutines may arrive in another order. *)
From S2P Require Import Prelude CalcFSM.

Inductive State :=
| StateInit | StateClaimingID | StateElection | StateWaitingAssignment | StateStable
| StateScaling | StateRebalancing | StateEmergency | StateDegraded | StateShutdown.

#[export] Instance State_eq_dec : EqDecision State.
Proof. solve_decision. Defined.

Definition validTransitions (from : State) : list State :=
  match from with
  | StateInit => [StateClaimingID; StateShutdown]
  | StateClaimingID => [StateElection; StateShutdown]
  | StateElection => [StateWaitingAssignment; StateShutdown]
  | StateWaitingAssignment =>
      [StateStable; StateScaling; StateRebalancing; StateEmergency; StateDegraded; StateShutdown]
  | StateStable => [StateScaling; StateRebalancing; StateEmergency; StateDegraded; StateShutdown]
  | StateScaling => [StateRebalancing; StateWaitingAssignment; StateStable; StateDegraded; StateShutdown]
  | StateRebalancing => [StateStable; StateWaitingAssignment; StateDegraded; StateShutdown]
  | StateEmergency => [StateStable; StateWaitingAssignment; StateDegraded; StateShutdown]
  | StateDegraded => [StateStable; StateShutdown]
  | StateShutdown => []
  end.

Definition isValidTransition (from to : State) : bool := bool_decide (to ∈ validTransitions from).

Definition isCalculatorOwnedActiveState (s : State) : bool :=
  match s with StateScaling | StateRebalancing | StateEmergency => true | _ => false end.

Record degradedRecord := mkDegradedRecord { since : Z; reason : string }.

Record Manager := mkManager {
  state : State;
  degraded : option degradedRecord;
  startupAssignmentApplied : bool;
  effects : list (State * State);   (* emitTransitionEffects, newest first *)
}.

Definition NewManager : Manager := mkManager StateInit None false [].

Definition set_state (to : State) (m : Manager) : Manager :=
  mkManager to (degraded m) (startupAssignmentApplied m) ((state m, to) :: effects m).
Definition set_degraded (r : option degradedRecord) (m : Manager) : Manager :=
  mkManager (state m) r (startupAssignmentApplied m) (effects m).

(** What [transitionState] returns to: [enterDegraded] rolls its record back
    when the transition is refused. *)
Inductive kont := KReturn | KEnterDegraded.

(** [Tr...] is [transitionState], [Sy...] is [syncStateFromCalculator], [StopCalc]
    the state check of [stopCalculator], [Cw...] is
    [casToStableFromWaitingAssignment], [Mk...] is [markStartupAssignmentApplied],
    [Ed...] is [enterDegraded] and [Ex...] is [exitDegraded]. *)
Inductive goroutine :=
| TrLoad (to : State) (tries : nat) (k : kont)
| TrCas (from to : State) (tries : nat) (k : kont)
| SyLoad (cs : CalculatorState)
| SyApplied
| StopCalc (hasAssignment : bool)
| CwCas
| MkApplied (calcIdle : bool) | MkCas (calcIdle : bool) | MkLoad (calcIdle : bool)
| EdLoad (rec : degradedRecord) | EdPublish (rec : degradedRecord) | EdClear
| ExLoad | ExCas | ExClear
| Finished.

Definition maxRetries : nat := 16.

Definition after (k : kont) (ok : bool) : goroutine :=
  match k with
  | KReturn => Finished
  | KEnterDegraded => if ok then Finished else EdClear
  end.

Definition transitionState (to : State) (k : kont) : goroutine := TrLoad to maxRetries k.

(** The target of [syncStateFromCalculator] for a non-idle calculator. *)
Definition sync_target (cs : CalculatorState) : State :=
  match cs with
  | CalcStateIdle => StateStable
  | CalcStateScaling => StateScaling
  | CalcStateRebalancing => StateRebalancing
  | CalcStateEmergency => StateEmergency
  end.

Definition sync_decide (cs : CalculatorState) (cur : State) : goroutine :=
  match cur with
  | StateInit | StateClaimingID | StateElection | StateShutdown => Finished
  | _ =>
      match cs with
      | CalcStateIdle => if isCalculatorOwnedActiveState cur then SyApplied else Finished
      | _ => if decide (cur = sync_target cs) then Finished
             else transitionState (sync_target cs) KReturn
      end
  end.

(** The next atomic operation of a goroutine, one definition per method. *)
Definition transitionState_run (g : goroutine) (m : Manager) : option (Manager * goroutine) :=
  match g with
  | TrLoad to tries k =>
      match tries with
      | 0 => Some (m, after k false)
      | S tries' =>
          if decide (state m = to) then Some (m, after k true)
          else if isValidTransition (state m) to then Some (m, TrCas (state m) to tries' k)
          else Some (m, after k false)
      end
  | TrCas from to tries k =>
      if decide (state m = from) then Some (set_state to m, after k true)
      else Some (m, TrLoad to tries k)
  | _ => None
  end.

Definition syncStateFromCalculator (g : goroutine) (m : Manager) : option (Manager * goroutine) :=
  match g with
  | SyLoad cs => Some (m, sync_decide cs (state m))
  | SyApplied =>
      Some (m, if startupAssignmentApplied m then transitionState StateStable KReturn else Finished)
  | _ => None
  end.

(** The state restored by [stopCalculator]. *)
Definition stopCalculator_state (hasAssignment : bool) (m : Manager) : Manager * goroutine :=
  (m, if isCalculatorOwnedActiveState (state m)
      then transitionState (if hasAssignment then StateStable else StateWaitingAssignment) KReturn
      else Finished).

Definition casToStableFromWaitingAssignment (next : goroutine) (m : Manager) : Manager * goroutine :=
  if decide (state m = StateWaitingAssignment) then (set_state StateStable m, next) else (m, next).

Definition markStartupAssignmentApplied (g : goroutine) (m : Manager) : option (Manager * goroutine) :=
  match g with
  | MkApplied calcIdle =>
      if startupAssignmentApplied m then Some (m, Finished)
      else Some (mkManager (state m) (degraded m) true (effects m), MkCas calcIdle)
  | MkCas calcIdle => Some (casToStableFromWaitingAssignment (MkLoad calcIdle) m)
  | MkLoad calcIdle =>
      Some (m, if isCalculatorOwnedActiveState (state m) && calcIdle
               then transitionState StateStable KReturn else Finished)
  | _ => None
  end.

Definition enterDegraded (g : goroutine) (m : Manager) : option (Manager * goroutine) :=
  match g with
  | EdLoad rec => Some (m, if decide (state m = StateShutdown) then Finished else EdPublish rec)
  | EdPublish rec =>
      match degraded m with
      | None => Some (set_degraded (Some rec) m, transitionState StateDegraded KEnterDegraded)
      | Some _ => Some (m, Finished)
      end
  | EdClear => Some (set_degraded None m, Finished)
  | _ => None
  end.

Definition casToStableFromDegraded (won lost : goroutine) (m : Manager) : Manager * goroutine :=
  if decide (state m = StateDegraded) then (set_state StateStable m, won) else (m, lost).

Definition exitDegraded (g : goroutine) (m : Manager) : option (Manager * goroutine) :=
  match g with
  | ExLoad => Some (m, match degraded m with None => Finished | Some _ => ExCas end)
  | ExCas => Some (casToStableFromDegraded ExClear Finished m)
  | ExClear => Some (set_degraded None m, Finished)
  | _ => None
  end.

Definition run (g : goroutine) (m : Manager) : option (Manager * goroutine) :=
  match g with
  | TrLoad _ _ _ | TrCas _ _ _ _ => transitionState_run g m
  | SyLoad _ | SyApplied => syncStateFromCalculator g m
  | StopCalc hasAssignment => Some (stopCalculator_state hasAssignment m)
  | CwCas => Some (casToStableFromWaitingAssignment Finished m)
  | MkApplied _ | MkCas _ | MkLoad _ => markStartupAssignmentApplied g m
  | EdLoad _ | EdPublish _ | EdClear => enterDegraded g m
  | ExLoad | ExCas | ExClear => exitDegraded g m
  | Finished => None
  end.

(** The methods that both loops share, opened up in a hypothesis on [run]. *)
Ltac open_run E :=
  cbn in E;
  unfold casToStableFromWaitingAssignment, casToStableFromDegraded, stopCalculator_state in E; cbn in E.

(** The operations other goroutines may start at any time: the startup and
    shutdown transitions, and the operations above. *)
Inductive op : goroutine -> Prop :=
| op_start to : to ∈ [StateClaimingID; StateElection; StateWaitingAssignment] -> op (transitionState to KReturn)
| op_shutdown : op (transitionState StateShutdown KReturn)
| op_sync cs : op (SyLoad cs)
| op_stop_calculator b : op (StopCalc b)
| op_cas_waiting : op CwCas
| op_mark b : op (MkApplied b)
| op_enter rec : op (EdLoad rec)
| op_exit : op ExLoad.

Definition world : Type := Manager * list goroutine.

Inductive mstep : world -> world -> Prop :=
| mstep_run m ts1 g ts2 m' g' :
    run g m = Some (m', g') -> mstep (m, ts1 ++ g :: ts2) (m', ts1 ++ g' :: ts2)
| mstep_op m ts g : op g -> mstep (m, ts) (m, g :: ts).

Definition start : world := (NewManager, []).

(** ** Every change follows the table *)

(** A pending compare-and-swap was validated, and only [enterDegraded] asks for
    the degraded state. *)
Definition sane (g : goroutine) : Prop :=
  match g with
  | TrCas from to _ k => isValidTransition from to = true /\ (to = StateDegraded -> k = KEnterDegraded)
  | TrLoad to _ k => to = StateDegraded -> k = KEnterDegraded
  | _ => True
  end.

Lemma sane_after k ok : sane (after k ok).
Proof. by destruct k, ok. Qed.

Lemma sane_op g : op g -> sane g.
Proof. destruct 1 as [to Hto| | | | | | |]; simpl; try done. intros ->. set_solver. Qed.

Lemma run_sane g m m' g' : run g m = Some (m', g') -> sane g -> sane g'.
Proof.
  intros E Hs. destruct g; open_run E; unfold transitionState, sync_decide, sync_target in *;
    repeat case_match; simplify_eq; cbn in *; auto using sane_after; try (intros; congruence);
    intuition congruence.
Qed.

Lemma run_valid g m m' g' :
  run g m = Some (m', g') -> sane g ->
  (state m' = state m /\ effects m' = effects m) \/
  (isValidTransition (state m) (state m') = true /\ effects m' = (state m, state m') :: effects m).
Proof.
  intros E Hs. destruct g; open_run E; repeat case_match; simplify_eq; cbn; auto.
  all: right; split; [|done].
  all: first [by destruct Hs | by match goal with H : state _ = _ |- _ => rewrite H end].
Qed.

Lemma reachable_sane w : rtc mstep start w -> Forall sane w.2.
Proof.
  apply (rtc_ind_r (λ w, Forall sane w.2)); [constructor|]. intros w1 w2 _ Hs HF.
  destruct Hs as [m ts1 g ts2 m' g' E|m ts g Ho]; cbn [snd] in *.
  - rewrite !Forall_app, !Forall_cons in *. destruct HF as (? & ? & ?). eauto using run_sane.
  - constructor; [by apply sane_op|done].
Qed.

(** C30. The state table is never bypassed. In every interleaving of the
    manager's goroutines, each change of the state is a transition of the table
    and is reported exactly once to the observers; so Shutdown is final, and
    Degraded is left only for Stable or Shutdown. *)
Theorem state_changes_follow_table w w' (Hreach : rtc mstep start w) (Hstep : mstep w w') :
  ((state w'.1 = state w.1 /\ effects w'.1 = effects w.1) \/
   (isValidTransition (state w.1) (state w'.1) = true /\
    effects w'.1 = (state w.1, state w'.1) :: effects w.1)) /\
  (state w.1 = StateShutdown -> state w'.1 = StateShutdown) /\
  (state w.1 = StateDegraded -> state w'.1 ∈ [StateDegraded; StateStable; StateShutdown]).
Proof.
  pose proof (reachable_sane w Hreach) as HF.
  assert ((state w'.1 = state w.1 /\ effects w'.1 = effects w.1) \/
    (isValidTransition (state w.1) (state w'.1) = true /\
     effects w'.1 = (state w.1, state w'.1) :: effects w.1)) as Hv.
  { destruct Hstep as [m ts1 g ts2 m' g' E|m ts g Ho]; cbn [fst snd] in *; [|by left].
    rewrite Forall_app, Forall_cons in HF. eapply run_valid; [done|apply HF]. }
  split_and!; [done|..]; intros Es; destruct Hv as [[-> _]|[Hv _]]; rewrite ?Es in *; try done;
    try set_solver; apply bool_decide_eq_true in Hv; set_solver.
Qed.

Lemma state_changes_follow_table_witness :
  let w := (NewManager, [TrCas StateInit StateShutdown 15 KReturn]) in
  let w' := (set_state StateShutdown NewManager, [Finished]) in
  ((state w'.1 = state w.1 /\ effects w'.1 = effects w.1) \/
   (isValidTransition (state w.1) (state w'.1) = true /\
    effects w'.1 = (state w.1, state w'.1) :: effects w.1)) /\
  (state w.1 = StateShutdown -> state w'.1 = StateShutdown) /\
  (state w.1 = StateDegraded -> state w'.1 ∈ [StateDegraded; StateStable; StateShutdown]).
Proof.
  intros w w'. apply (state_changes_follow_table w w').
  - eapply rtc_l; [apply (mstep_op _ [] (transitionState StateShutdown KReturn)), op_shutdown|].
    eapply rtc_l; [apply (mstep_run _ [] _ []); reflexivity|]. apply rtc_refl.
  - apply (mstep_run _ [] _ []). reflexivity.
Defined.

(** ** The degraded record *)

(** An [enterDegraded] that owns the record it published and has not finished. *)
Definition entering (g : goroutine) : bool :=
  match g with
  | TrLoad _ _ KEnterDegraded | TrCas _ _ _ KEnterDegraded | EdClear => true
  | _ => false
  end.

(** An [exitDegraded] that left the state and still has to clear the record. *)
Definition exiting (g : goroutine) : bool := match g with ExClear => true | _ => false end.

Definition owns (g : goroutine) : bool := entering g || exiting g.

Definition enters_degraded (g : goroutine) : Prop :=
  match g with
  | TrLoad to _ KEnterDegraded => to = StateDegraded
  | TrCas from to _ KEnterDegraded => to = StateDegraded /\ from <> StateDegraded
  | _ => True
  end.

(** Shared facts: at most one goroutine owns the record, ownership implies a
    record, and while it is owned the state is not Degraded. *)
Record record_inv (w : world) : Prop := {
  ri_sane : Forall sane w.2;
  ri_enters : Forall enters_degraded w.2;
  ri_degraded : state w.1 = StateDegraded -> degraded w.1 <> None;
  ri_one : count owns w.2 <= 1;
  ri_owned : has owns w.2 -> degraded w.1 <> None /\ state w.1 <> StateDegraded;
}.

Lemma run_enters g m m' g' : run g m = Some (m', g') -> enters_degraded g -> sane g -> enters_degraded g'.
Proof.
  intros E He Hs. destruct g; open_run E; unfold transitionState, sync_decide in *;
    repeat case_match; simplify_eq; cbn in *; auto;
    repeat match goal with k : kont |- _ => destruct k end; cbn in *;
    repeat case_match; simplify_eq; auto; intuition congruence.
Qed.

(** The effect of one operation on the record, given who owns it. *)
Lemma run_record g m m' g' :
  run g m = Some (m', g') -> sane g -> enters_degraded g ->
  (state m = StateDegraded -> degraded m <> None) ->
  (owns g = true -> degraded m <> None /\ state m <> StateDegraded) ->
  (state m' = StateDegraded -> degraded m' <> None) /\
  (owns g' = true -> degraded m' <> None /\ state m' <> StateDegraded) /\
  (* a goroutine becomes an owner only when there is none, and a change of the
     record or into Degraded is made by the owner *)
  (owns g = false -> owns g' = true -> degraded m = None \/ state m = StateDegraded) /\
  (owns g = false -> (degraded m <> None -> degraded m' = degraded m) /\
                     (state m <> StateDegraded -> state m' <> StateDegraded)).
Proof.
  intros E Hs He HD HO. destruct g; open_run E; unfold transitionState, sync_decide, owns in *;
    repeat case_match; simplify_eq; cbn in *;
    repeat match goal with k : kont |- _ => destruct k; cbn in * end; simplify_eq; cbn in *;
    intuition (try congruence).
Qed.

Lemma mstep_record_inv w w' : mstep w w' -> record_inv w -> record_inv w'.
Proof.
  destruct 1 as [m ts1 g ts2 m' g' E|m ts g Ho]; intros [HS HE HD H1 HO]; cbn [fst snd] in *.
  - rewrite Forall_app, Forall_cons in HS, HE. rewrite count_middle in H1. rewrite has_middle in HO.
    destruct HS as (HS1 & HSg & HS2), HE as (HE1 & HEg & HE2).
    destruct (run_record g m m' g' E HSg HEg HD) as (HD' & HO' & Hnew & Hkeep); [auto|].
    assert (0 < count owns (ts1 ++ ts2) -> owns g = false) as Hother.
    { destruct (owns g); [lia|done]. }
    split; cbn [fst snd]; rewrite ?Forall_app, ?Forall_cons, ?count_middle, ?has_middle.
    + split_and!; [done|by eapply run_sane|done].
    + split_and!; [done|by eapply run_enters|done].
    + done.
    + destruct (owns g) eqn:Eg, (owns g') eqn:Eg'; try lia.
      destruct (decide (0 < count owns (ts1 ++ ts2))) as [Hc|]; [|lia].
      apply has_count in Hc. destruct (HO (or_intror Hc)). destruct (Hnew eq_refl eq_refl); done.
    + intros [Hg|Hh]; [by apply HO'|]. apply has_count in Hh as Hc. specialize (Hother Hc).
      destruct (HO (or_intror Hh)) as [Hd Hs]. destruct (Hkeep Hother) as [Hk1 Hk2].
      rewrite Hk1 by done. auto.
  - assert (owns g = false) as Eg by by destruct Ho.
    split; cbn [fst snd]; rewrite ?Forall_cons, ?count_cons, ?has_cons, ?Eg.
    + split; [by apply sane_op|done].
    + split; [by destruct Ho|done].
    + done.
    + done.
    + intros [?|?]; [done|auto].
Qed.

Lemma reachable_record_inv w : rtc mstep start w -> record_inv w.
Proof.
  apply (rtc_ind_r record_inv); [|intros; by eapply mstep_record_inv].
  split; cbn; [constructor|constructor|done|unfold count; simpl; lia|by intros ?%has_nil].
Qed.

(** How a record can be left without a Degraded or stopped worker. *)
Lemma run_kept g m m' g' :
  run g m = Some (m', g') -> sane g -> enters_degraded g -> degraded m' <> None ->
  owns g' = true \/ state m' = StateDegraded \/ state m' = StateShutdown \/
  (degraded m <> None /\ owns g = false /\
     (state m' = state m \/ (state m <> StateDegraded /\ state m <> StateShutdown) \/
      (state m = StateDegraded /\ state m' = StateStable))).
Proof.
  intros E Hs He Hd. destruct g; open_run E; unfold transitionState, sync_decide, owns in *;
    repeat case_match; simplify_eq; cbn in *;
    repeat match goal with k : kont |- _ => destruct k; cbn in * end; simplify_eq; cbn in *;
    try (intuition congruence).
  all: destruct Hs as [Hv%bool_decide_eq_true _]; destruct (state m) eqn:Es; cbn in Hv; try (intuition congruence).
  all: set_solver.
Qed.

Lemma exiting_owns ts : has exiting ts -> has owns ts.
Proof. intros (g & Hg & E). exists g. split; [done|]. unfold owns. rewrite E. apply orb_true_r. Qed.

(** No other goroutine takes the worker out of Degraded into Stable than
    [exitDegraded]. *)
Definition exits_properly (w w' : world) : Prop :=
  mstep w w' /\ (state w.1 = StateDegraded -> state w'.1 = StateStable -> has exiting w'.2).

(** The degraded record and the degraded state belong together. In every
    interleaving a Degraded worker has a record, so that recovery can find it;
    and as long as Degraded is left for Stable only by [exitDegraded], a worker
    with a record and no degraded transition in flight is Degraded or shut
    down, so that the next fault can degrade it again. *)
Theorem degraded_record_matches_state :
  (forall w, rtc mstep start w -> state w.1 = StateDegraded -> degraded w.1 <> None) /\
  (forall w, rtc exits_properly start w -> ~ has owns w.2 ->
     degraded w.1 <> None -> state w.1 = StateDegraded \/ state w.1 = StateShutdown).
Proof.
  split; [intros w Hr; by apply reachable_record_inv|].
  intros w Hr Hno Hd.
  assert (record_inv w /\ (degraded w.1 <> None ->
    has owns w.2 \/ state w.1 = StateDegraded \/ state w.1 = StateShutdown)) as [_ H]; [|tauto].
  clear Hno Hd. revert Hr. apply (rtc_ind_r (λ w, record_inv w /\ (degraded w.1 <> None ->
    has owns w.2 \/ state w.1 = StateDegraded \/ state w.1 = StateShutdown))).
  { split; [apply reachable_record_inv, rtc_refl|done]. }
  intros w1 w2 _ [Hs Hx] [Hi IH]. split; [by eapply mstep_record_inv|].
  destruct Hs as [m ts1 g ts2 m' g' E|m ts g Ho]; cbn [fst snd] in *.
  2:{ rewrite has_cons. tauto. }
  assert (sane g /\ enters_degraded g) as [HSg HEg].
  { destruct Hi as [HS HE _ _ _]. cbn in HS, HE. rewrite Forall_app, Forall_cons in HS, HE. tauto. }
  rewrite has_middle in IH, Hx. rewrite has_middle. intros Hd.
  destruct (run_kept g m m' g' E HSg HEg Hd) as [?|[?|[?|(Hdm & Hg & Hst)]]]; [auto..|].
  pose proof (exiting_owns (ts1 ++ ts2)) as Hex.
  assert (exiting g' = true -> owns g' = true) as Hexg.
  { unfold owns. intros ->. apply orb_true_r. }
  rewrite Hg in IH. destruct Hst as [->|[[? ?]|[Hsd Hss]]]; intuition congruence.
Qed.

(** Schedules, to run the program on a concrete interleaving. *)
Inductive sched := Call (g : goroutine) | Run (i : nat).

Definition is_op (g : goroutine) : bool :=
  match g with
  | TrLoad to tries KReturn =>
      bool_decide (tries = maxRetries) &&
      bool_decide (to ∈ [StateClaimingID; StateElection; StateWaitingAssignment; StateShutdown])
  | SyLoad _ | StopCalc _ | CwCas | MkApplied _ | EdLoad _ | ExLoad => true
  | _ => false
  end.

Definition run_sched (s : sched) (w : world) : option world :=
  match s with
  | Call g => if is_op g then Some (w.1, g :: w.2) else None
  | Run i =>
      g ← w.2 !! i;
      '(m', g') ← run g w.1;
      Some (m', <[i := g']> w.2)
  end.

Lemma run_sched_step s w w' : run_sched s w = Some w' -> mstep w w'.
Proof.
  destruct w as [m ts]. destruct s as [g|i]; cbn [run_sched fst snd]; intros E.
  - destruct (is_op g) eqn:Eo; [|done]. injection E as <-. apply mstep_op.
    destruct g as [to tries []| | | | | | | | | | | | | | |]; try done; try constructor.
    apply andb_true_iff in Eo as [->%bool_decide_eq_true Hto%bool_decide_eq_true].
    destruct (decide (to = StateShutdown)) as [->|]; [apply op_shutdown|apply (op_start to); set_solver].
  - destruct (ts !! i) as [g|] eqn:Ei; [|done]. cbn in E.
    destruct (run g m) as [[m' g']|] eqn:Er; [|done]. injection E as <-.
    rewrite <- (take_drop_middle ts i g Ei) at 1.
    rewrite insert_take_drop by by eapply lookup_lt_Some. by apply mstep_run.
Qed.

Lemma run_scheds_steps ss w w' :
  foldl (λ ow s, ow ≫= run_sched s) (Some w) ss = Some w' -> rtc mstep w w'.
Proof.
  revert w. induction ss as [|s ss IH]; intros w; cbn; [intros [= ->]; apply rtc_refl|].
  destruct (run_sched s w) as [w1|] eqn:E.
  - intros Hf. eapply rtc_l; [by eapply run_sched_step|by apply IH].
  - intros Hf. exfalso. clear -Hf. induction ss as [|s ss IH]; cbn in Hf; [discriminate Hf|auto].
Qed.

(** A worker that is not Degraded but keeps a record nobody owns: no goroutine
    will ever clear it or enter Degraded. *)
Lemma disarmed_forever w r :
  record_inv w -> ~ has owns w.2 -> degraded w.1 = Some r -> state w.1 <> StateDegraded ->
  forall w', rtc mstep w w' -> degraded w'.1 = Some r /\ state w'.1 <> StateDegraded.
Proof.
  intros Hi Hn Hd Hs w' Hr.
  assert (record_inv w' /\ ~ has owns w'.2 /\ degraded w'.1 = Some r /\ state w'.1 <> StateDegraded); [|tauto].
  revert Hr. apply (rtc_ind_r (λ w', record_inv w' /\ ~ has owns w'.2 /\ degraded w'.1 = Some r /\
    state w'.1 <> StateDegraded)); [done|]. clear.
  intros w1 w2 _ Hst (Hi & Hn & Hd & Hs). split; [by eapply mstep_record_inv|].
  destruct Hst as [m ts1 g ts2 m' g' E|m ts g Ho]; cbn [fst snd] in *.
  - destruct Hi as [HS HE HD _ _]; cbn [fst snd] in *. rewrite Forall_app, Forall_cons in HS, HE.
    rewrite has_middle in Hn |- *.
    assert (owns g = false) as Hg by (destruct (owns g); tauto).
    destruct (run_record g m m' g' E) as (_ & _ & Hnew & Hkeep); [tauto..|congruence|].
    destruct (Hkeep Hg) as [Hk1 Hk2]. rewrite Hk1 by congruence. split_and!; [|done|auto].
    intros [Hg'|?]; [|tauto]. destruct (Hnew Hg Hg'); congruence.
  - rewrite has_cons. split_and!; [|done..]. intros [Hg|?]; [|done]. by destruct Ho.
Qed.

(** A calculator update that read the state before a fault degraded the worker
    moves Degraded to Stable through the generic transition, which does not
    clear the record: from then on the worker can neither recover the record
    nor enter Degraded again. *)
Theorem calculator_sync_disarms_degraded :
  exists w, rtc mstep start w /\ state w.1 = StateStable /\
    forall w', rtc mstep w w' -> degraded w'.1 = Some (mkDegradedRecord 1 "kv-unavailable") /\
      state w'.1 <> StateDegraded.
Proof.
  set (rec := mkDegradedRecord 1 "kv-unavailable").
  set (ss := [Call (transitionState StateClaimingID KReturn); Run 0; Run 0;
    Call (transitionState StateElection KReturn); Run 0; Run 0;
    Call (transitionState StateWaitingAssignment KReturn); Run 0; Run 0;
    Call (MkApplied true); Run 0; Run 0; Run 0;
    Call (SyLoad CalcStateRebalancing); Run 0; Run 0; Run 0;
    (* the rebalance is over: the update for Idle reads the state ... *)
    Call (SyLoad CalcStateIdle); Run 0;
    (* ... a fault degrades the worker ... *)
    Call (EdLoad rec); Run 0; Run 0; Run 0; Run 0;
    (* ... and the update continues *)
    Run 1; Run 1; Run 1]).
  destruct (foldl (λ ow s, ow ≫= run_sched s) (Some start) ss) as [w|] eqn:E; [|vm_compute in E; discriminate E].
  exists w. pose proof (run_scheds_steps ss start w E) as Hr. vm_compute in E. injection E as <-.
  split_and!; [done|done|]. apply disarmed_forever; [by apply reachable_record_inv| |done|done].
  intros (g & Hg & Ho). repeat (apply elem_of_cons in Hg as [->|Hg]; [done|]). by apply not_elem_of_nil in Hg.
Qed.
