(* ===== verification/Degraded.v ===== *)
(** * The degraded-mode circuit (manager_degraded.go, kv_error_classify.go)

    Which KV errors count, how they accumulate in the sliding window, what
    clears them, and when a degraded worker may recover. The atomicity of the
    transition itself is the subject of ManagerState. *)
From S2P Require Import Prelude Nats.

(** ** Classification *)

Definition isWholeBucketLoss (e : option go_error) : bool :=
  IsConnectivityError e || IsDegradingJetStreamError e.

Inductive kvErrorRoute := kvRouteDrop | kvRouteStreamMissing | kvRouteWindow.

Record kvErrorDecision := mkDecision { d_route : kvErrorRoute; d_transient : bool }.

Definition classifyKVError (err : option go_error) : kvErrorDecision :=
  match err with
  | None => mkDecision kvRouteDrop false
  | Some e =>
      if Is e ErrStreamMissing then mkDecision kvRouteStreamMissing false
      else
        let kvUnavailable := Is e ErrKVUnavailable in
        if negb (isWholeBucketLoss err) && negb kvUnavailable then mkDecision kvRouteDrop false
        else mkDecision kvRouteWindow kvUnavailable
  end.

(** [errors.Join(ErrKVUnavailable, err)] *)
Definition join_unavailable (e : go_error) : go_error :=
  mkError (ErrKVUnavailable :: wraps e) ("kv unavailable" +:+ String "010" (message e)).

Definition markKVUnavailable (err : option go_error) : option go_error :=
  match err with
  | None => None
  | Some e =>
      if isWholeBucketLoss err then err
      else if Is e ContextDeadlineExceeded || Is e NatsErrNoResponders then Some (join_unavailable e)
      else err
  end.

(** ** The window *)

Record kvErrorEvent := mkEvent { ev_at : Z; ev_transient : bool }.

Record circuit_config := mkCircuitConfig { KVErrorThreshold : Z; KVErrorWindow : Z }.

Inductive degrade_reason :=
| DegradeReasonKVUnavailable
| DegradeReasonKVErrorThreshold
| DegradeReasonEnumerationStall
| DegradeReasonStreamMissingRecoveryExhausted
| DegradeReasonNATSConnectionDown
| DegradeReasonOther (reason : string).

#[export] Instance degrade_reason_eq_dec : EqDecision degrade_reason.
Proof. solve_decision. Defined.

Record degraded_record := mkDegraded { since : Z; reason : degrade_reason }.

Record circuit := mkCircuit {
  kvErrorWindow : list kvErrorEvent;
  kvErrorCount : Z;
  degraded : option degraded_record;
  lastHeartbeatSuccessAt : Z;
}.

Definition circuit_start : circuit := mkCircuit [] 0 None 0.

Definition windowLenInt32 (n : nat) : Z :=
  if decide (Z.of_nat n > 2 ^ 31 - 1)%Z then 2 ^ 31 - 1 else Z.of_nat n.

(** The scan for the first entry after [windowStart]; 0 when there is none. *)
Fixpoint first_valid (windowStart : Z) (i : nat) (w : list kvErrorEvent) : nat :=
  match w with
  | [] => 0
  | e :: w' => if decide (ev_at e > windowStart)%Z then i else first_valid windowStart (S i) w'
  end.

(** [enterDegraded]: the slot is claimed only when it is free. *)
Definition enter_degraded (now : Z) (r : degrade_reason) (c : circuit) : circuit :=
  match degraded c with
  | Some _ => c
  | None => mkCircuit (kvErrorWindow c) (kvErrorCount c) (Some (mkDegraded now r)) (lastHeartbeatSuccessAt c)
  end.

Definition recordKVError (cfg : circuit_config) (now : Z) (err : option go_error) (c : circuit) : circuit :=
  let decision := classifyKVError err in
  match d_route decision with
  | kvRouteWindow =>
      match degraded c with
      | Some _ => c
      | None =>
          let window := kvErrorWindow c ++ [mkEvent now (d_transient decision)] in
          let windowStart := (now - KVErrorWindow cfg)%Z in
          let window := drop (first_valid windowStart 0 window) window in
          let count := windowLenInt32 (length window) in
          let c := mkCircuit window count None (lastHeartbeatSuccessAt c) in
          if decide (count >= KVErrorThreshold cfg)%Z then
            enter_degraded now (if d_transient decision then DegradeReasonKVUnavailable
                                else DegradeReasonKVErrorThreshold) c
          else c
      end
  | _ => c
  end.

Definition recordKVOpError (cfg : circuit_config) (now : Z) (err : option go_error) : circuit -> circuit :=
  recordKVError cfg now (markKVUnavailable err).

(** [fmt.Errorf] with two [%w] verbs. *)
Definition wrap_label_read (e : go_error) : go_error :=
  mkError (ErrKVUnavailable :: wraps e) ("kv unavailable: broad worker label read failure: " +:+ message e).

Definition recordLabelReadFailure (cfg : circuit_config) (now : Z) (err : option go_error) (c : circuit) : circuit :=
  match err with
  | None => c
  | Some e =>
      match d_route (classifyKVError err) with
      | kvRouteDrop => recordKVError cfg now (Some (wrap_label_read e)) c
      | _ => recordKVError cfg now err c
      end
  end.

Definition recordKVSuccess (c : circuit) : circuit :=
  mkCircuit [] 0 (degraded c) (lastHeartbeatSuccessAt c).

Definition recordKVHealthyOp (now : Z) (c : circuit) : circuit :=
  let c := mkCircuit (kvErrorWindow c) (kvErrorCount c) (degraded c) now in
  match degraded c with
  | Some _ => c
  | None =>
      if decide (length (kvErrorWindow c) = 0) then c
      else
        let kept := filter (λ e, ev_transient e = false) (kvErrorWindow c) in
        mkCircuit kept (windowLenInt32 (length kept)) None now
  end.

(** ** Histories *)

Inductive circuit_event :=
| EvError (t : Z) (e : go_error)
| EvOpError (t : Z) (e : go_error)
| EvLabelRead (t : Z) (e : go_error)
| EvHealthy (t : Z)
| EvSuccess (t : Z).

Definition ev_time (ev : circuit_event) : Z :=
  match ev with EvError t _ | EvOpError t _ | EvLabelRead t _ | EvHealthy t | EvSuccess t => t end.

Definition circuit_step (cfg : circuit_config) (c : circuit) (ev : circuit_event) : circuit :=
  match ev with
  | EvError t e => recordKVError cfg t (Some e) c
  | EvOpError t e => recordKVOpError cfg t (Some e) c
  | EvLabelRead t e => recordLabelReadFailure cfg t (Some e) c
  | EvHealthy t => recordKVHealthyOp t c
  | EvSuccess _ => recordKVSuccess c
  end.

Definition circuit_after (cfg : circuit_config) (h : list circuit_event) : circuit :=
  fold_left (circuit_step cfg) h circuit_start.

(** The error an event hands to the circuit. *)
Definition reported (ev : circuit_event) : option go_error :=
  match ev with
  | EvError _ e => Some e
  | EvOpError _ e => markKVUnavailable (Some e)
  | EvLabelRead _ e =>
      match d_route (classifyKVError (Some e)) with kvRouteDrop => Some (wrap_label_read e) | _ => Some e end
  | _ => None
  end.

(** The entry an event contributes, if it is admitted. *)
Definition admitted (ev : circuit_event) : option kvErrorEvent :=
  let d := classifyKVError (reported ev) in
  match d_route d with kvRouteWindow => Some (mkEvent (ev_time ev) (d_transient d)) | _ => None end.

(** Reference: the admitted errors that still stand after a history. A healthy
    operation strikes out the transient ones, a recovery all of them. No
    windows here. *)
Definition standing_step (acc : list kvErrorEvent) (ev : circuit_event) : list kvErrorEvent :=
  match ev with
  | EvHealthy _ => filter (λ e, ev_transient e = false) acc
  | EvSuccess _ => []
  | _ => acc ++ option_list (admitted ev)
  end.

Definition standing (h : list circuit_event) : list kvErrorEvent := fold_left standing_step h [].

(** Those inside the window that ends at [now]. *)
Definition recent (cfg : circuit_config) (now : Z) (l : list kvErrorEvent) : list kvErrorEvent :=
  filter (λ e, (ev_at e > now - KVErrorWindow cfg)%Z) l.

(** ** The window counts what stands *)

#[local] Arguments recent : simpl never.

Definition at_le : relation kvErrorEvent := λ a b, (ev_at a <= ev_at b)%Z.

Lemma first_valid_shift ws i w :
  (exists e, e ∈ w /\ (ev_at e > ws)%Z) -> first_valid ws (S i) w = S (first_valid ws i w).
Proof.
  revert i. induction w as [|e w IH]; intros i (x & Hx & V); [set_solver|]. cbn. case_decide; [done|].
  apply IH. exists x. split; [|done]. apply elem_of_cons in Hx as [->|]; [lia|done].
Qed.

Lemma drop_first_valid ws w :
  StronglySorted at_le w -> (exists e, e ∈ w /\ (ev_at e > ws)%Z) ->
  drop (first_valid ws 0 w) w = filter (λ e, (ev_at e > ws)%Z) w.
Proof.
  intros S. induction S as [|e w S IH F]; intros (x & Hx & V); [set_solver|]. cbn [first_valid].
  rewrite filter_cons. case_decide as D.
  - cbn. f_equal. symmetry. apply filter_all. eapply Forall_impl; [exact F|].
    intros y Hy. unfold at_le in Hy. lia.
  - assert (exists e', e' ∈ w /\ (ev_at e' > ws)%Z) as Ex.
    { exists x. split; [|done]. apply elem_of_cons in Hx as [->|]; [lia|done]. }
    rewrite first_valid_shift by done. cbn. by apply IH.
Qed.

Lemma recent_recent cfg now now' l :
  (now <= now')%Z -> recent cfg now' (recent cfg now l) = recent cfg now' l.
Proof.
  intros Hn. unfold recent. rewrite list_filter_filter. apply list_filter_iff. intros x. split; [by intros []|]. intros; lia.
Qed.

Lemma recent_app cfg now l1 l2 : recent cfg now (l1 ++ l2) = recent cfg now l1 ++ recent cfg now l2.
Proof. apply filter_app. Qed.

Lemma SS_filter (P : kvErrorEvent -> Prop) `{forall x, Decision (P x)} l :
  StronglySorted at_le l -> StronglySorted at_le (filter P l).
Proof. apply StronglySorted_filter. Qed.

Lemma Forall_filter (P Q : kvErrorEvent -> Prop) `{forall x, Decision (P x)} l :
  Forall Q l -> Forall Q (filter P l).
Proof. rewrite !Forall_forall. intros F x [_ Hx]%list_elem_of_filter. by apply F. Qed.

(** A circuit that has not tripped, and the history behind it up to [t]. *)
Definition tracks (cfg : circuit_config) (t : Z) (c : circuit) (h : list circuit_event) : Prop :=
  StronglySorted at_le (kvErrorWindow c) /\ Forall (λ e, ev_at e <= t)%Z (kvErrorWindow c) /\
  (forall now, (t <= now)%Z -> recent cfg now (kvErrorWindow c) = recent cfg now (standing h)).

Lemma standing_snoc h ev : standing (h ++ [ev]) = standing_step (standing h) ev.
Proof. unfold standing. by rewrite fold_left_app. Qed.

Lemma circuit_after_snoc cfg h ev : circuit_after cfg (h ++ [ev]) = circuit_step cfg (circuit_after cfg h) ev.
Proof. unfold circuit_after. by rewrite fold_left_app. Qed.

(** Every error report is [recordKVError] of the reported error. *)
Lemma circuit_step_report cfg c ev :
  circuit_step cfg c ev =
  match ev with
  | EvHealthy t => recordKVHealthyOp t c
  | EvSuccess _ => recordKVSuccess c
  | _ => recordKVError cfg (ev_time ev) (reported ev) c
  end.
Proof.
  destruct ev as [t e|t e|t e|t|t]; try done. unfold circuit_step, recordLabelReadFailure, reported, ev_time.
  by destruct (d_route (classifyKVError (Some e))).
Qed.

Definition is_report (ev : circuit_event) : bool :=
  match ev with EvHealthy _ | EvSuccess _ => false | _ => true end.

(** The effect of one report on a circuit that has not tripped. *)
Lemma report_effect cfg c h t ev :
  (0 < KVErrorWindow cfg)%Z -> degraded c = None -> tracks cfg t c h -> (t <= ev_time ev)%Z ->
  is_report ev = true ->
  let c' := circuit_step cfg c ev in
  match admitted ev with
  | None => c' = c
  | Some e =>
      kvErrorWindow c' = recent cfg (ev_time ev) (standing (h ++ [ev])) /\
      degraded c' =
        (if decide (windowLenInt32 (length (recent cfg (ev_time ev) (standing (h ++ [ev])))) >= KVErrorThreshold cfg)%Z
         then Some (mkDegraded (ev_time ev) (if ev_transient e then DegradeReasonKVUnavailable
                                             else DegradeReasonKVErrorThreshold))
         else None)
  end.
Proof.
  intros HW Hd (S & F & R) Ht Rep. cbn zeta. rewrite circuit_step_report, standing_snoc.
  replace (match ev with EvHealthy _ => _ | EvSuccess _ => _ | _ => _ end)
    with (recordKVError cfg (ev_time ev) (reported ev) c) by by destruct ev.
  replace (standing_step (standing h) ev) with (standing h ++ option_list (admitted ev)) by by destruct ev.
  unfold recordKVError, admitted. destruct (d_route (classifyKVError (reported ev))); try done. rewrite Hd.
  cbn [option_list]. set (e := mkEvent (ev_time ev) (d_transient (classifyKVError (reported ev)))).
  assert (drop (first_valid (ev_time ev - KVErrorWindow cfg) 0 (kvErrorWindow c ++ [e])) (kvErrorWindow c ++ [e])
    = recent cfg (ev_time ev) (standing h ++ [e])) as ->.
  { rewrite drop_first_valid.
    - change (recent cfg (ev_time ev) (kvErrorWindow c ++ [e]) = recent cfg (ev_time ev) (standing h ++ [e])).
      rewrite !recent_app, R by done. done.
    - apply StronglySorted_snoc. split; [done|]. eapply Forall_impl; [exact F|]. intros x Hx. unfold at_le. cbn in *. lia.
    - exists e. split; [set_solver|]. cbn. lia. }
  cbn. case_decide; done.
Qed.

Lemma recent_filter_comm cfg now (P : kvErrorEvent -> Prop) `{forall x, Decision (P x)} l :
  recent cfg now (filter P l) = filter P (recent cfg now l).
Proof. apply filter_comm. Qed.

Lemma tracks_step cfg c h t ev :
  (0 < KVErrorWindow cfg)%Z -> degraded c = None -> degraded (circuit_step cfg c ev) = None ->
  tracks cfg t c h -> (t <= ev_time ev)%Z -> tracks cfg (ev_time ev) (circuit_step cfg c ev) (h ++ [ev]).
Proof.
  intros HW Hd Hd' T Ht. pose proof T as (S & F & R).
  assert (tracks cfg (ev_time ev) c h) as T'.
  { split_and!; [done| |intros now Hn; apply R; lia]. eapply Forall_impl; [exact F|]. intros x Hx. cbn in *. lia. }
  destruct (is_report ev) eqn:Rep.
  - pose proof (report_effect cfg c h t ev HW Hd T Ht Rep) as E. cbn zeta in E.
    destruct (admitted ev) as [e|] eqn:A.
    + destruct E as [Ew _]. unfold tracks. rewrite Ew, standing_snoc.
      assert (standing_step (standing h) ev = standing h ++ [e]) as Es by (destruct ev; cbn [standing_step]; by rewrite ?A).
      rewrite Es, recent_app, <-R by done. split_and!.
      * unfold recent at 2. rewrite filter_cons, filter_nil.
        assert (ev_at e = ev_time ev) as Ea.
        { unfold admitted in A. destruct (d_route _); by simplify_eq. }
        case_decide; [|rewrite app_nil_r; by apply SS_filter].
        apply StronglySorted_snoc. split; [by apply SS_filter|]. apply Forall_filter. unfold at_le. rewrite Ea. by apply T'.
      * rewrite Forall_app. split; [by apply Forall_filter, T'|]. apply Forall_filter, Forall_singleton.
        unfold admitted in A. destruct (d_route _); by simplify_eq.
      * intros now Hn. rewrite R by done. by rewrite <-recent_app, recent_recent.
    + rewrite E. destruct T' as (? & ? & R'). split_and!; [done..|]. intros now Hn. rewrite R' by done.
      rewrite standing_snoc. f_equal. destruct ev; cbn [standing_step]; rewrite ?A; cbn; by rewrite ?app_nil_r.
  - destruct ev as [| | |t'|t']; try done.
    + cbn. unfold recordKVHealthyOp. cbn. rewrite Hd. unfold tracks. rewrite standing_snoc. cbn [standing_step].
      case_decide as Z0; cbn.
      * apply length_zero_iff_nil in Z0. destruct T' as (? & ? & R'). split_and!; [done..|].
        intros now Hn. rewrite recent_filter_comm, <-R' by done. by rewrite Z0.
      * split_and!; [by apply SS_filter|by apply Forall_filter, T'|].
        intros now Hn. rewrite !recent_filter_comm. f_equal. by apply T'.
    + cbn. unfold tracks. rewrite standing_snoc. cbn. split_and!; [constructor|done|done].
Qed.

Lemma tripped_stays cfg c ev : degraded c <> None -> degraded (circuit_step cfg c ev) <> None.
Proof.
  intros Hd. rewrite circuit_step_report. destruct ev; try done.
  all: unfold recordKVError, recordKVHealthyOp; cbn; destruct (degraded c) eqn:E; cbn; repeat case_match; congruence.
Qed.

Lemma circuit_tracks cfg h t :
  (0 < KVErrorWindow cfg)%Z -> StronglySorted Z.le (ev_time <$> h) -> Forall (λ ev, ev_time ev <= t)%Z h ->
  degraded (circuit_after cfg h) = None -> tracks cfg t (circuit_after cfg h) h.
Proof.
  intros HW. revert t. induction h as [|ev h IH] using rev_ind; intros t So F Hd.
  { split_and!; [constructor|constructor|done]. }
  rewrite circuit_after_snoc in *. rewrite fmap_app in So. apply Forall_app in F as [F Ft].
  rewrite Forall_singleton in Ft.
  assert (degraded (circuit_after cfg h) = None) as Hd0.
  { destruct (degraded (circuit_after cfg h)) eqn:E; [|done]. exfalso. by eapply tripped_stays; [rewrite E|exact Hd]. }
  assert (StronglySorted Z.le (ev_time <$> h) /\ Forall (λ x, ev_time x <= ev_time ev)%Z h) as [So' F'].
  { apply StronglySorted_snoc in So as [? F']. split; [done|]. rewrite Forall_fmap in F'. exact F'. }
  pose proof (tracks_step cfg _ h (ev_time ev) ev HW Hd0 Hd (IH _ So' F' Hd0) ltac:(done)) as (S & Fw & R).
  split_and!; [done| |intros now Hn; apply R; lia]. eapply Forall_impl; [exact Fw|]. intros x Hx. cbn in *. lia.
Qed.

(** The KV-error circuit, run over any history of reports, healthy
    operations and recoveries with a clock that does not go back, trips on a
    report exactly when the errors that still stand and lie inside the window
    reach the threshold: errors outside the window, transient errors followed by
    a healthy operation, errors before a recovery and errors of other classes do
    not count, and no others are forgotten. The recorded reason is the
    whole-bucket one unless the tripping error is a marked timeout. *)
Theorem kv_circuit_trips_exactly (cfg : circuit_config) (h : list circuit_event) (ev : circuit_event)
    (Hwindow : (0 < KVErrorWindow cfg)%Z)
    (Hclock : StronglySorted Z.le (ev_time <$> h ++ [ev]))
    (Hclosed : degraded (circuit_after cfg h) = None) :
  degraded (circuit_after cfg (h ++ [ev])) =
  match admitted ev with
  | None => None
  | Some e =>
      if decide (windowLenInt32 (length (recent cfg (ev_time ev) (standing (h ++ [ev])))) >= KVErrorThreshold cfg)%Z
      then Some (mkDegraded (ev_time ev) (if ev_transient e then DegradeReasonKVUnavailable
                                          else DegradeReasonKVErrorThreshold))
      else None
  end.
Proof.
  rewrite fmap_app in Hclock. apply StronglySorted_snoc in Hclock as [So F]. rewrite Forall_fmap in F.
  rewrite circuit_after_snoc. pose proof (circuit_tracks cfg h (ev_time ev) Hwindow So F Hclosed) as T.
  destruct (is_report ev) eqn:Rep.
  - pose proof (report_effect cfg _ h _ ev Hwindow Hclosed T ltac:(done) Rep) as E. cbn zeta in E.
    destruct (admitted ev); [apply E|by rewrite E].
  - destruct ev as [| | |t|t]; try done. cbn. unfold recordKVHealthyOp. cbn. rewrite Hclosed. by case_decide.
Qed.

Definition demo_circuit : circuit_config := mkCircuitConfig 2 100.
Definition demo_timeout : go_error := mkError [ContextDeadlineExceeded] "context deadline exceeded".
Definition demo_bucket_lost : go_error := mkError [JsErrBucketNotFound] "bucket not found".

(** A timeout struck out by a healthy operation, then two bucket losses. *)
Lemma kv_circuit_trips_exactly_witness :
  degraded (circuit_after demo_circuit
    [EvOpError 10 demo_timeout; EvHealthy 20; EvError 30 demo_bucket_lost; EvOpError 40 demo_bucket_lost]) =
  Some (mkDegraded 40 DegradeReasonKVErrorThreshold) /\
  degraded (circuit_after demo_circuit [EvOpError 10 demo_timeout; EvHealthy 20; EvError 30 demo_bucket_lost]) = None.
Proof.
  split.
  - refine (eq_trans (kv_circuit_trips_exactly demo_circuit
      [EvOpError 10 demo_timeout; EvHealthy 20; EvError 30 demo_bucket_lost] (EvOpError 40 demo_bucket_lost)
      eq_refl _ eq_refl) eq_refl).
    repeat constructor; done.
  - reflexivity.
Defined.

(** ** Leaving degraded mode *)

(** What an attempt finds: the refresh of the assignment, whether the current
    assignment is applied, the latch of the stream-missing observer, the two
    bucket probes, leadership and the last successful enumeration. *)
Record recovery_env := mkRecoveryEnv {
  re_refresh : option go_error;
  re_currentAssignmentApplied : bool;
  re_streamMissingExhausted : bool;
  re_epochMismatchOutstanding : bool;
  re_heartbeatBucketUnavailable : bool;
  re_isLeader : bool;
  re_lastEnumerationSuccessAt : Z;
}.

Definition recoverySignalStalled (r scopedReason : degrade_reason) (signalAt since : Z)
    (leaderOnly isLeader : bool) : bool :=
  if negb (bool_decide (r = scopedReason)) then false
  else if leaderOnly && negb isLeader then false
  else bool_decide (signalAt = 0)%Z || bool_decide (signalAt <= since)%Z.

(** [exitDegraded] when the compare-and-swap to Stable succeeds. *)
Definition exit_degraded (c : circuit) : circuit :=
  mkCircuit (kvErrorWindow c) (kvErrorCount c) None (lastHeartbeatSuccessAt c).

Definition attemptRecoveryFromDegraded (cfg : circuit_config) (now : Z) (env : recovery_env) (c : circuit) : circuit :=
  match degraded c with
  | None => c
  | Some rec =>
      match re_refresh env with
      | Some e => recordKVError cfg now (Some e) c
      | None =>
          let c := recordKVSuccess c in
          if negb (re_currentAssignmentApplied env) then c
          else if bool_decide (reason rec = DegradeReasonStreamMissingRecoveryExhausted) || re_streamMissingExhausted env
          then c
          else if recoverySignalStalled (reason rec) DegradeReasonKVUnavailable (lastHeartbeatSuccessAt c) (since rec)
                    false (re_isLeader env) then c
          else if re_epochMismatchOutstanding env then c
          else if re_heartbeatBucketUnavailable env then c
          else if recoverySignalStalled (reason rec) DegradeReasonEnumerationStall (re_lastEnumerationSuccessAt env)
                    (since rec) true (re_isLeader env) then c
          else exit_degraded c
      end
  end.

Inductive manager_event :=
| MCircuit (ev : circuit_event)
| MEnter (t : Z) (r : degrade_reason)
| MAttempt (t : Z) (env : recovery_env).

Definition manager_step (cfg : circuit_config) (c : circuit) (ev : manager_event) : circuit :=
  match ev with
  | MCircuit ev => circuit_step cfg c ev
  | MEnter t r => enter_degraded t r c
  | MAttempt t env => attemptRecoveryFromDegraded cfg t env c
  end.

(** A degraded circuit keeps its record, except for a successful attempt; only
    a healthy operation moves the heartbeat stamp. *)
Lemma circuit_step_degraded cfg c ev rec :
  degraded c = Some rec ->
  degraded (circuit_step cfg c ev) = Some rec /\
  lastHeartbeatSuccessAt (circuit_step cfg c ev) =
    (match ev with EvHealthy t => t | _ => lastHeartbeatSuccessAt c end).
Proof.
  intros Hd. rewrite circuit_step_report. destruct ev; try done.
  all: unfold recordKVError, recordKVHealthyOp; cbn; rewrite Hd; cbn; by repeat case_match.
Qed.

Lemma attempt_degraded cfg t env c rec :
  degraded c = Some rec ->
  lastHeartbeatSuccessAt (attemptRecoveryFromDegraded cfg t env c) = lastHeartbeatSuccessAt c /\
  (degraded (attemptRecoveryFromDegraded cfg t env c) = Some rec \/
   (degraded (attemptRecoveryFromDegraded cfg t env c) = None /\ re_refresh env = None /\
    re_currentAssignmentApplied env = true /\ re_streamMissingExhausted env = false /\
    re_epochMismatchOutstanding env = false /\ re_heartbeatBucketUnavailable env = false /\
    reason rec <> DegradeReasonStreamMissingRecoveryExhausted /\
    (reason rec = DegradeReasonKVUnavailable -> (since rec < lastHeartbeatSuccessAt c)%Z) /\
    (reason rec = DegradeReasonEnumerationStall -> re_isLeader env = true ->
       (since rec < re_lastEnumerationSuccessAt env)%Z))).
Proof.
  intros Hd. unfold attemptRecoveryFromDegraded. rewrite Hd. destruct (re_refresh env) as [e|].
  { destruct (circuit_step_degraded cfg c (EvError t e) rec Hd) as [H1 H2]. split; [exact H2|left; exact H1]. }
  unfold recoverySignalStalled. cbn.
  destruct (re_currentAssignmentApplied env); cbn; [|by split; [|left]].
  destruct (bool_decide _ || re_streamMissingExhausted env) eqn:E1; [by split; [|left]|].
  apply orb_false_iff in E1 as [E1 E1']. apply bool_decide_eq_false in E1.
  destruct (if negb _ then false else _) eqn:E2; [by split; [|left]|].
  destruct (re_epochMismatchOutstanding env); [by split; [|left]|].
  destruct (re_heartbeatBucketUnavailable env); [by split; [|left]|].
  destruct (if negb (bool_decide (reason rec = DegradeReasonEnumerationStall)) then false else _) eqn:E3; [by split; [|left]|].
  split; [done|]. right. split_and!; try done.
  - intros Hr. rewrite bool_decide_eq_true_2 in E2 by done. cbn in E2.
    apply orb_false_iff in E2 as [_ E2]. apply bool_decide_eq_false in E2. lia.
  - intros Hr Hl. rewrite bool_decide_eq_true_2 in E3 by done. rewrite Hl in E3. cbn in E3.
    apply orb_false_iff in E3 as [_ E3]. apply bool_decide_eq_false in E3. lia.
Qed.

(** What an attempt that leaves degraded mode found. *)
Definition healthy_attempt (rec : degraded_record) (ev : manager_event) : Prop :=
  exists t env, ev = MAttempt t env /\ re_refresh env = None /\ re_currentAssignmentApplied env = true /\
    re_streamMissingExhausted env = false /\ re_epochMismatchOutstanding env = false /\
    re_heartbeatBucketUnavailable env = false /\
    (reason rec = DegradeReasonEnumerationStall -> re_isLeader env = true ->
       (since rec < re_lastEnumerationSuccessAt env)%Z).

Lemma manager_step_degraded cfg c ev rec :
  degraded c = Some rec ->
  lastHeartbeatSuccessAt (manager_step cfg c ev) =
    (match ev with MCircuit (EvHealthy t) => t | _ => lastHeartbeatSuccessAt c end) /\
  (degraded (manager_step cfg c ev) = Some rec \/
   (healthy_attempt rec ev /\ reason rec <> DegradeReasonStreamMissingRecoveryExhausted /\
    (reason rec = DegradeReasonKVUnavailable -> (since rec < lastHeartbeatSuccessAt c)%Z))).
Proof.
  intros Hd. destruct ev as [ev|t r|t env]; cbn.
  - destruct (circuit_step_degraded cfg c ev rec Hd) as [H1 H2]. split; [by destruct ev|by left].
  - unfold enter_degraded. rewrite Hd. split; [done|by left].
  - destruct (attempt_degraded cfg t env c rec Hd) as [H1 [H2|(H2 & ? & ? & ? & ? & ? & ? & ? & ?)]];
      (split; [done|]); [by left|]. right. split; [|done]. exists t, env. by split_and!.
Qed.

(** Once degraded, whatever follows, the worker keeps its record, or one
    attempt found everything healthy: the assignment refreshed and applied, no
    exhausted stream, no recreated or unreachable bucket, and for an enumeration
    stall of a leader an enumeration after the degrade. A kv-unavailable record
    is kept until a heartbeat was written after the degrade; a stream-missing
    record is kept for good. *)
Theorem recovery_waits_for_its_signal (cfg : circuit_config) (c : circuit) (rec : degraded_record)
    (evs : list manager_event)
    (Hdegraded : degraded c = Some rec) (Hstamp : (lastHeartbeatSuccessAt c <= since rec)%Z) :
  let c' := fold_left (manager_step cfg) evs c in
  degraded c' = Some rec \/
  reason rec <> DegradeReasonStreamMissingRecoveryExhausted /\
  (exists ev, ev ∈ evs /\ healthy_attempt rec ev) /\
  (reason rec = DegradeReasonKVUnavailable ->
     exists t, MCircuit (EvHealthy t) ∈ evs /\ (since rec < t)%Z).
Proof.
  cbn zeta.
  enough (forall c, degraded c = Some rec ->
    degraded (fold_left (manager_step cfg) evs c) = Some rec \/
    reason rec <> DegradeReasonStreamMissingRecoveryExhausted /\
    (exists ev, ev ∈ evs /\ healthy_attempt rec ev) /\
    (reason rec = DegradeReasonKVUnavailable -> (since rec < lastHeartbeatSuccessAt c)%Z \/
       exists t, MCircuit (EvHealthy t) ∈ evs /\ (since rec < t)%Z)) as G.
  { destruct (G c Hdegraded) as [?|(? & ? & Hk)]; [by left|]. right. split_and!; [done..|].
    intros Hr. destruct (Hk Hr) as [?|?]; [lia|done]. }
  clear c Hdegraded Hstamp. induction evs as [|ev evs IH]; intros c Hd; [by left|]. cbn.
  destruct (manager_step_degraded cfg c ev rec Hd) as [Hb [Hd'|(Ha & Hn & Hk)]].
  - destruct (IH _ Hd') as [?|(? & (ev' & ? & ?) & Hk)]; [by left|]. right. split_and!; [done|set_solver|].
    intros Hr. destruct (Hk Hr) as [Hs|(t & ? & ?)]; [|right; exists t; set_solver].
    rewrite Hb in Hs. destruct ev as [[| | |t|]| |]; try by left. right. exists t. set_solver.
  - right. split_and!; [done|exists ev; set_solver|]. intros Hr. left. by apply Hk.
Qed.

Definition demo_healthy : recovery_env := mkRecoveryEnv None true false false false true 0.

(** An attempt before any heartbeat keeps the record; one after it does not. *)
Lemma recovery_waits_for_its_signal_witness :
  let c := mkCircuit [] 0 (Some (mkDegraded 50 DegradeReasonKVUnavailable)) 20 in
  let evs := [MAttempt 60 demo_healthy; MCircuit (EvHealthy 70); MAttempt 80 demo_healthy] in
  degraded (fold_left (manager_step demo_circuit) evs c) = None /\
  exists t, MCircuit (EvHealthy t) ∈ evs /\ (50 < t)%Z.
Proof.
  intros c evs. split; [reflexivity|].
  destruct (recovery_waits_for_its_signal demo_circuit c (mkDegraded 50 DegradeReasonKVUnavailable) evs eq_refl
    ltac:(done)) as [E|(_ & _ & Hk)]; [discriminate E|exact (Hk eq_refl)].
Defined.

(** ** Connection monitor and alerts *)

Record conn_state := mkConn { connDownSince : Z; connUpSince : Z }.

Inductive conn_action := ConnNone | ConnEnterDegraded | ConnAttemptRecovery.

Definition checkConnectionHealth (enterThreshold exitThreshold : Z) (isConnected : bool) (now : Z)
    (s : conn_state) : conn_state * conn_action :=
  if negb isConnected then
    if decide (connDownSince s = 0)%Z then (mkConn now 0, ConnNone)
    else (s, if decide (time_sub now (connDownSince s) >= enterThreshold)%Z then ConnEnterDegraded else ConnNone)
  else
    if decide (connUpSince s = 0)%Z then (mkConn 0 now, ConnNone)
    else (s, if decide (time_sub now (connUpSince s) >= exitThreshold)%Z then ConnAttemptRecovery else ConnNone).
