(* ===== verification/KV.v ===== *)
(** * JetStream key-value buckets and the programs that use them

    The bucket is third-party code. What the sources rely on is stated by
    [spec]: the documented effect of each operation on the bucket's stream of
    messages, including a failed call whose write may still have landed. A
    component is a program ([prog]) that performs these operations one at a
    time; [System] interleaves any number of them, with crashes and restarts;
    [wp] is the rely-guarantee reasoning used for their invariants.

    The sources: kvutil/ops.go for the helpers, jetstream.KeyValue for the
    operations. *)
From S2P Require Import Prelude Nats.

(** ** The stream behind a bucket *)

(** A message writes a value, a tombstone, or marks that the server dropped an
    expired entry. [m_by] names the process that wrote it, none for the server; no
    operation reads it. *)
Inductive body := Put (v : string) | Del | Expired.

Record msg := mkMsg {
  m_rev : Z;
  m_key : string;
  m_time : Z;
  m_body : body;
  m_by : option nat;
}.

Record entry := mkEntry { e_value : string; e_revision : Z; e_created : Z }.

Definition last_msg (l : list msg) (k : string) : option msg :=
  last (filter (λ m, m_key m = k) l).

Definition is_put (m : msg) : bool := match m_body m with Put _ => true | _ => false end.

(** The current entry of a key: its last message, unless that is a tombstone or
    the entry has expired. *)
Definition live (l : list msg) (k : string) : option msg :=
  m ← last_msg l k; if is_put m then Some m else None.

(** The revision a conditional write is compared with; an expired entry has left
    the stream. *)
Definition last_rev (l : list msg) (k : string) : Z :=
  match last_msg l k with
  | Some m => match m_body m with Expired => 0 | _ => m_rev m end
  | None => 0
  end.

Definition entry_of (m : msg) : entry :=
  mkEntry (match m_body m with Put v => v | _ => "" end) (m_rev m) (m_time m).

(** What a client can see: the stream, the clock, and the in-flight reference
    set of each process (the [sync.Map] of its publisher). *)
Record view := mkView {
  log : list msg;
  now : Z;
  refs : gmap nat (gset string);
}.

(** The clock a process reads: one about which nothing is assumed, or one that is at
    most [skew] off the server's. *)
Inductive clock := WallClock | Within (skew : N).

(** Operations and the type of their answers. The last group does not touch the
    bucket: the scheduler's choice between two goroutines, the 53 random bits of
    [rand.Float64], the position of the stream, the partition set the caller
    vouches for, its sweep authority, how many false authority samples another
    goroutine recorded since the last question, and the worker's consumer. *)
Inductive op : Type -> Type :=
| KvGet (k : string) : op (res go_error entry)
| KvCreate (k v : string) : op (res go_error Z)
| KvUpdate (k v : string) (rev : Z) : op (res go_error Z)
| KvPut (k v : string) : op (res go_error Z)
| KvDelete (k : string) (rev : option Z) : op (res go_error unit)
| KvKeys : op (res go_error (list string))
| HeartbeatGet (k : string) : op (res go_error string)
| LeaderCheck (claimed : Z) : op (option go_error)
| IsShuttingDown : op bool
| CtxErr : op (option go_error)
| Backoff (d : Z) : op (option go_error)
| Now (c : clock) : op Z
| StoreRef (pid : nat) (k : string) : op unit
| DeleteRef (pid : nat) (k : string) : op unit
| LiveRefs (pid : nat) : op (list string)
| Schedule : op bool
| Random : op Z
| BucketPos : op (res go_error KVStreamPos)
| LivePartitions : op (option (gset string))
| SweepAuthority : op bool
| FalseSamples : op nat
| UpdateConsumer (workerID : string) (subjects : list string) : op (option go_error).

(** The highest sequence assigned so far. *)
Definition last_seq (l : list msg) : Z := foldr (λ m, Z.max (m_rev m)) 0%Z l.

Definition refs_of (v : view) (pid : nat) : gset string := default ∅ (refs v !! pid).

(** One message appended at the server's time, with a revision above all others. *)
Definition appended (by_ : nat) (v : view) (k : string) (b : body) (r : Z) (v' : view) : Prop :=
  log v' = log v ++ [mkMsg r k (now v') b (Some by_)] /\ (0 < r)%Z /\ Forall (λ m, m_rev m < r)%Z (log v).

(** A conditional write. A revision conflict is reported as [ErrKeyExists] and
    changes nothing; any other error leaves it open whether the write landed. *)
Definition write_spec {A} (by_ : nat) (pre : Prop) (k : string) (b : body) (rev : A -> Z -> Prop)
    (v : view) (x : res go_error A) (v' : view) : Prop :=
  match x with
  | Ok a => exists r, pre /\ rev a r /\ appended by_ v k b r v'
  | Err e =>
      (log v' = log v /\ (Is e JsErrKeyExists = true -> ~ pre)) \/
      (Is e JsErrKeyExists = false /\ pre /\ exists r, appended by_ v k b r v')
  end.

Definition effect (by_ : nat) {X} (o : op X) : view -> X -> view -> Prop :=
  match o in op X return view -> X -> view -> Prop with
  | KvGet k => λ v x v',
      log v' = log v /\ refs v' = refs v /\
      match x with
      | Ok e => exists m, live (log v) k = Some m /\ e = entry_of m
      | Err e => Is e JsErrKeyNotFound = true -> live (log v) k = None
      end
  | KvCreate k s => λ v x v', write_spec by_ (live (log v) k = None) k (Put s) eq v x v' /\ refs v' = refs v
  | KvUpdate k s rev => λ v x v',
      write_spec by_ (last_rev (log v) k = rev) k (Put s) eq v x v' /\ refs v' = refs v
  | KvPut k s => λ v x v', write_spec by_ True k (Put s) eq v x v' /\ refs v' = refs v
  | KvDelete k rev => λ v x v',
      write_spec by_ (match rev with Some r => last_rev (log v) k = r | None => True end)
        k Del (λ _ _, True) v x v' /\ refs v' = refs v
  | KvKeys => λ v x v',
      log v' = log v /\ refs v' = refs v /\
      match x with
      | Ok ks => forall k, k ∈ ks <-> is_Some (live (log v) k)
      | Err e => Is e JsErrNoKeysFound = true -> forall k, live (log v) k = None
      end
  | HeartbeatGet _ => λ v _ v', log v' = log v /\ refs v' = refs v
  | LeaderCheck _ => λ v _ v', log v' = log v /\ refs v' = refs v
  | IsShuttingDown => λ v _ v', log v' = log v /\ refs v' = refs v
  | CtxErr => λ v _ v', log v' = log v /\ refs v' = refs v
  | Backoff _ => λ v _ v', log v' = log v /\ refs v' = refs v
  | Now c => λ v x v',
      log v' = log v /\ refs v' = refs v /\
      match c with WallClock => True | Within skew => (now v' - Z.of_N skew <= x <= now v' + Z.of_N skew)%Z end
  | StoreRef pid k => λ v _ v', log v' = log v /\ refs v' = <[pid := {[k]} ∪ refs_of v pid]> (refs v)
  | DeleteRef pid k => λ v _ v', log v' = log v /\ refs v' = <[pid := refs_of v pid ∖ {[k]}]> (refs v)
  | LiveRefs pid => λ v x v', log v' = log v /\ refs v' = refs v /\ x = elements (refs_of v pid)
  | Schedule => λ v _ v', log v' = log v /\ refs v' = refs v
  | Random => λ v _ v', log v' = log v /\ refs v' = refs v
  | BucketPos => λ v x v',
      log v' = log v /\ refs v' = refs v /\
      match x with Ok pos => LastSeq pos = last_seq (log v) | Err _ => True end
  | LivePartitions => λ v _ v', log v' = log v /\ refs v' = refs v
  | SweepAuthority => λ v _ v', log v' = log v /\ refs v' = refs v
  | FalseSamples => λ v _ v', log v' = log v /\ refs v' = refs v
  | UpdateConsumer _ _ => λ v _ v', log v' = log v /\ refs v' = refs v
  end.

(** Time never goes back. *)
Definition spec (by_ : nat) {X} (o : op X) (v : view) (x : X) (v' : view) : Prop :=
  (now v <= now v')%Z /\ effect by_ o v x v'.

(** An entry older than the bucket's [ttl] may be dropped by the server. *)
Definition expires (ttl : option Z) (v v' : view) : Prop :=
  exists d m, ttl = Some d /\ live (log v) (m_key m) = Some m /\
    (now v <= now v')%Z /\ (m_time m + d <= now v')%Z /\ refs v' = refs v /\
    log v' = log v ++ [mkMsg 0 (m_key m) (now v') Expired None].

(** The interface of the environment: any world whose operations have the
    documented effects. *)
Class Env (ttl : option Z) (W : Type) := {
  observe : W -> view;
  perform : forall {X}, nat -> op X -> W -> X -> W -> Prop;
  idle : relation W;
  perform_spec {X} by_ (o : op X) w x w' : perform by_ o w x w' -> spec by_ o (observe w) x (observe w');
  idle_spec w w' : idle w w' -> expires ttl (observe w) (observe w');
}.

(** ** Programs *)

Inductive prog (A : Type) : Type :=
| Ret (a : A)
| Vis {X : Type} (o : op X) (k : X -> prog A).
Arguments Ret {A} a.
Arguments Vis {A X} o k.

Fixpoint bind {A B} (f : A -> prog B) (m : prog A) : prog B :=
  match m with
  | Ret a => f a
  | Vis o k => Vis o (λ x, bind f (k x))
  end.

#[export] Instance prog_ret : MRet prog := λ A, Ret.
#[export] Instance prog_bind : MBind prog := λ A B f m, bind f m.

Definition trigger {X} (o : op X) : prog X := Vis o Ret.

(** [_, err := f()] *)
Definition discard {E A} (r : res E A) : res E unit :=
  match r with Ok _ => Ok () | Err e => Err e end.

(** A loop over a list that threads an accumulator. *)
Fixpoint for_each {A S} (l : list A) (s : S) (f : A -> S -> prog S) : prog S :=
  match l with
  | [] => Ret s
  | x :: l' => s' ← f x s; for_each l' s' f
  end.

(** The same, left early with an error. *)
Fixpoint for_each_err {A S E} (l : list A) (s : S) (f : A -> S -> prog (res E S)) : prog (res E S) :=
  match l with
  | [] => Ret (Ok s)
  | x :: l' =>
      r ← f x s;
      match r with
      | Ok s' => for_each_err l' s' f
      | Err e => Ret (Err e)
      end
  end.

(** Goroutines of an [errgroup.Group]: their operations interleave as the
    scheduler decides, [Wait] returns when both have, with the error of the one
    that failed first. *)
Fixpoint group {E} (m : prog (res E unit)) : prog (res E unit) -> prog (res E unit) :=
  fix group_m n :=
    match m with
    | Ret (Ok _) => n
    | Ret (Err e) => bind (λ _, Ret (Err e)) n
    | Vis o k =>
        match n with
        | Ret (Ok _) => m
        | Ret (Err e) => bind (λ _, Ret (Err e)) m
        | Vis o' k' =>
            Vis Schedule (λ first : bool,
              if first then Vis o (λ x, group (k x) n) else Vis o' (λ x, group_m (k' x)))
        end
    end.

Definition group_all {E} (ms : list (prog (res E unit))) : prog (res E unit) := foldr group (Ret (Ok ())) ms.

(** ** kvutil/ops.go *)

(** [strings.CutPrefix] *)
Fixpoint CutPrefix (s prefix : string) : option string :=
  match prefix, s with
  | EmptyString, _ => Some s
  | String a p', String b s' => if decide (a = b) then CutPrefix s' p' else None
  | String _ _, EmptyString => None
  end.

Definition GetJSON {T} (unmarshal : string -> option T) (key : string) :
    prog (res (option go_error) (option (T * Z))) :=
  x ← trigger (KvGet key);
  Ret match x with
      | Err e => if Is e JsErrKeyNotFound then Ok None else Err (Some e)
      | Ok e =>
          match unmarshal (e_value e) with
          | None => Err None
          | Some t => Ok (Some (t, e_revision e))
          end
      end.

Definition PutJSON {T} (marshal : T -> string) (key : string) (value : T) : prog (res go_error Z) :=
  trigger (KvPut key (marshal value)).

Definition UpdateJSON {T} (marshal : T -> string) (key : string) (value : T) (rev : Z) :
    prog (res go_error Z) :=
  trigger (KvUpdate key (marshal value) rev).

Definition ListKeys (prefix : string) (stripPrefix : bool) : prog (res go_error (list string)) :=
  x ← trigger KvKeys;
  Ret match x with
      | Err e => if Is e JsErrNoKeysFound then Ok [] else Err e
      | Ok keys =>
          if decide (prefix = "") then Ok keys
          else Ok (omap (λ k, after ← CutPrefix k prefix; Some (if stripPrefix then after else k)) keys)
      end.

Definition DeleteKey (key : string) : prog (res go_error unit) :=
  x ← trigger (KvDelete key None);
  Ret match x with
      | Err e => if Is e JsErrKeyNotFound then Ok () else Err e
      | Ok _ => Ok ()
      end.

Lemma CutPrefix_app s p r : CutPrefix s p = Some r <-> s = p +:+ r.
Proof.
  revert s. induction p as [|a p IH]; intros s.
  { rewrite string_app_nil_l. destruct s; cbn; (split; [by intros [= ->]|by intros ->]). }
  rewrite string_app_cons. destruct s as [|b s]; [done|]. cbn. case_decide as E; [|split; [done|congruence]].
  rewrite IH. subst b. split; [by intros ->|by intros [= ->]].
Qed.

(** ** Streams *)

Lemma last_msg_snoc l m k :
  last_msg (l ++ [m]) k = if decide (m_key m = k) then Some m else last_msg l k.
Proof.
  unfold last_msg. rewrite filter_app, filter_cons, filter_nil.
  case_decide; [by rewrite last_snoc|by rewrite app_nil_r].
Qed.

Lemma live_snoc l m k :
  live (l ++ [m]) k =
  if decide (m_key m = k) then match m_body m with Put _ => Some m | _ => None end else live l k.
Proof. unfold live, is_put. rewrite last_msg_snoc. case_decide; [|done]. cbn. by destruct (m_body m). Qed.

Lemma last_msg_elem l k m : last_msg l k = Some m -> m ∈ l /\ m_key m = k.
Proof. intros H. apply last_Some_elem_of, list_elem_of_filter in H. naive_solver. Qed.

Lemma live_elem l k m : live l k = Some m -> m ∈ l /\ m_key m = k.
Proof. unfold live. intros H. inv_ok. case_match; simplify_eq. by apply last_msg_elem. Qed.

Lemma live_put l k m : live l k = Some m -> exists s, m_body m = Put s.
Proof.
  unfold live, is_put. intros H. inv_ok. case_match; simplify_eq. destruct (m_body m); simplify_eq. eauto.
Qed.

Lemma live_last_rev l k m : live l k = Some m -> last_rev l k = m_rev m.
Proof. unfold live, last_rev, is_put. by destruct (last_msg l k) as [[? ? ? [] ?]|]; intros; simplify_eq/=. Qed.

Lemma last_msg_app l1 l2 k :
  last_msg (l1 ++ l2) k = match last_msg l2 k with Some m => Some m | None => last_msg l1 k end.
Proof. unfold last_msg. by rewrite filter_app, last_app. Qed.

Lemma last_msg_exists l k m : m ∈ l -> m_key m = k -> exists m', last_msg l k = Some m'.
Proof.
  intros Hm K. destruct (last_msg l k) as [m'|] eqn:E; [by eauto|]. apply last_None in E. exfalso.
  apply (not_elem_of_nil m). rewrite <-E. by apply list_elem_of_filter.
Qed.

(** ** Rely-guarantee reasoning

    [Inv] is an invariant of the stream and the clock. A program of process
    [me] is verified for every interleaving: between two of its operations the
    stream may grow by messages of others and time may pass, as long as [Inv]
    still holds; each of its own operations has to preserve [Inv]. [t0] is when
    the program was started, and [deadline o] bounds, for the operations that
    have a bound, how long after [t0] they are performed. *)
Definition grows (by_ : msg -> Prop) (v v' : view) : Prop :=
  (exists l, log v' = log v ++ l /\ Forall (λ m, (now v <= m_time m)%Z /\ by_ m) l) /\ (now v <= now v')%Z.

Definition anyone (m : msg) : Prop := True.
Definition not_by (me : nat) (m : msg) : Prop := m_by m <> Some me.
Definition later : relation view := grows anyone.
Definition others (me : nat) : relation view := grows (not_by me).

#[export] Instance grows_po by_ : PreOrder (grows by_).
Proof.
  split; [intros v; split; [exists []; by rewrite app_nil_r|done]|].
  intros v1 v2 v3 [(l1 & E1 & F1) T1] [(l2 & E2 & F2) T2]. split; [|lia]. exists (l1 ++ l2).
  rewrite E2, E1, app_assoc, Forall_app. split_and!; [done..|].
  eapply Forall_impl; [exact F2|]. intros m [Hm ?]. simpl in Hm. split; [lia|done].
Qed.

#[export] Instance later_po : PreOrder later.
Proof. apply grows_po. Qed.

#[export] Instance others_po me : PreOrder (others me).
Proof. apply grows_po. Qed.

Lemma grows_impl (P Q : msg -> Prop) v v' : (forall m, P m -> Q m) -> grows P v v' -> grows Q v v'.
Proof.
  intros PQ [(l & E & F) T]. split; [|done]. exists l. split; [done|]. eapply Forall_impl; [exact F|]. naive_solver.
Qed.

Lemma grows_later P v v' : grows P v v' -> later v v'.
Proof. by apply grows_impl. Qed.

(** An operation of one process only adds messages of that process. *)
Lemma spec_grows by_ {X} (o : op X) v x v' : spec by_ o v x v' -> grows (λ m, m_by m = Some by_) v v'.
Proof.
  intros [T E]. split; [|done].
  set (G := exists l, log v' = log v ++ l /\ Forall (λ m, (now v <= m_time m)%Z /\ m_by m = Some by_) l).
  assert (log v' = log v -> G) as Same.
  { intros E0. unfold G. exists []. by rewrite E0, app_nil_r. }
  assert (forall k b r, appended by_ v k b r v' -> G) as App.
  { intros k b r (E0 & _). unfold G. rewrite E0. eexists. split; [done|]. by apply Forall_singleton. }
  assert (forall A pre k b rev (y : res go_error A), write_spec by_ pre k b rev v y v' -> G) as Wr.
  { unfold write_spec. intros A pre k b rev [a|e]; [|intros [[? _]|(_ & _ & r & ?)]; eauto].
    intros (r & _ & _ & ?). eauto. }
  destruct o; simpl in E; destruct_and?; first [by eapply Wr|by apply Same].
Qed.

Lemma spec_later by_ {X} (o : op X) v x v' : spec by_ o v x v' -> later v v'.
Proof. intros S%spec_grows. by eapply grows_impl. Qed.

Lemma spec_others me by_ {X} (o : op X) v x v' : me <> by_ -> spec by_ o v x v' -> others me v v'.
Proof. intros N S%spec_grows. eapply grows_impl; [|done]. intros m Hm. unfold not_by. congruence. Qed.

Lemma expires_others ttl me v v' : expires ttl v v' -> others me v v'.
Proof.
  intros (d & m & _ & _ & T & _ & _ & E). split; [|done]. eexists. split; [done|]. by apply Forall_singleton.
Qed.

Lemma grows_same by_ v v' : log v' = log v -> (now v <= now v')%Z -> grows by_ v v'.
Proof. intros E T. split; [|done]. exists []. by rewrite app_nil_r. Qed.

Section wp.
Context (Inv : view -> Prop) (deadline : forall X, op X -> option Z) (me : nat).
Context (from : msg -> Prop).   (* whose messages may appear in between *)
Local Notation rely := (grows from).

Definition timely {X} (t0 : Z) (o : op X) (v : view) : Prop :=
  match deadline X o with Some d => (now v <= t0 + d)%Z | None => True end.

Fixpoint wp {A} (t0 : Z) (m : prog A) (Φ : A -> view -> Prop) (v : view) : Prop :=
  match m with
  | Ret a => forall v1, rely v v1 -> Inv v1 -> Φ a v1
  | Vis o k => forall v1 x v2,
      rely v v1 -> Inv v1 -> spec me o v1 x v2 -> timely t0 o v2 ->
      Inv v2 /\ wp t0 (k x) Φ v2
  end.

Lemma wp_rely {A} t0 (m : prog A) Φ v v' : wp t0 m Φ v -> rely v v' -> wp t0 m Φ v'.
Proof.
  destruct m as [a|X o k]; cbn [wp].
  - intros H L v1 L1. apply H. by etrans.
  - intros H L v1 x v2 L1. apply H. by etrans.
Qed.

Lemma wp_bind {A B} t0 (m : prog A) (f : A -> prog B) Φ v :
  wp t0 m (λ a v1, wp t0 (f a) Φ v1) v -> Inv v -> wp t0 (m ≫= f) Φ v.
Proof.
  revert v. induction m as [a|X o k IH]; intros v H I; cbn [wp] in H.
  - by apply H.
  - intros v1 x v2 L I1 S T. destruct (H v1 x v2 L I1 S T) as [I2 W].
    split; [done|]. by apply IH.
Qed.

Lemma wp_mono {A} t0 (m : prog A) (Φ Ψ : A -> view -> Prop) v :
  wp t0 m Φ v -> (forall a v1, later v v1 -> Inv v1 -> Φ a v1 -> Ψ a v1) -> wp t0 m Ψ v.
Proof.
  revert v. induction m as [a|X o k IH]; intros v H M; cbn [wp] in *.
  - intros v1 L I. apply M; [by eapply grows_later|done|by apply H].
  - intros v1 x v2 L I1 S T. destruct (H v1 x v2 L I1 S T) as [I2 W]. split; [done|].
    apply (IH x v2 W). intros a v3 L3. apply M. trans v1; [by eapply grows_later|].
    trans v2; [by eapply spec_later|done].
Qed.

(** Loops: an assertion on what is left to do and on the accumulator, which
    every iteration maintains. *)
Lemma wp_for_each {A S} t0 (l : list A) (s : S) f (J : list A -> S -> view -> Prop) v :
  (forall l s v1 v2, rely v1 v2 -> J l s v1 -> J l s v2) ->
  (forall x l' s v1, later v v1 -> Inv v1 -> J (x :: l') s v1 -> wp t0 (f x s) (J l') v1) ->
  J l s v -> Inv v -> wp t0 (for_each l s f) (J []) v.
Proof.
  intros St. revert s v. induction l as [|x l IH]; intros s v Hf Hs I; cbn [for_each].
  - intros v1 L _. by eapply St.
  - apply wp_bind; [|done]. eapply wp_mono; [by apply Hf|].
    intros s' v1 L I1 Hs'. cbn beta in *. apply IH; [|done..].
    intros y l' s2 v2 L2. apply Hf. by etrans.
Qed.

(** The same with an early exit. *)
Lemma wp_for_each_err {A S E} t0 (l : list A) (s : S) f (J : list A -> S -> view -> Prop)
    (K : E -> view -> Prop) v :
  (forall l s v1 v2, rely v1 v2 -> J l s v1 -> J l s v2) ->
  (forall e v1 v2, rely v1 v2 -> K e v1 -> K e v2) ->
  (forall x l' s v1, later v v1 -> Inv v1 -> J (x :: l') s v1 ->
     wp t0 (f x s) (λ r v2, match r with Ok s' => J l' s' v2 | Err e => K e v2 end) v1) ->
  J l s v -> Inv v ->
  wp t0 (for_each_err l s f) (λ r v2, match r with Ok s' => J [] s' v2 | Err e => K e v2 end) v.
Proof.
  intros St St'. revert s v. induction l as [|x l IH]; intros s v Hf Hs I; cbn [for_each_err].
  - intros v1 L _. by eapply St.
  - apply wp_bind; [|done]. eapply wp_mono; [by apply Hf|].
    intros [s'|e] v1 L I1 Hs'; cbn beta iota in *.
    + apply IH; [|done..]. intros y l' s2 v2 L2. apply Hf. by etrans.
    + intros v2 L2 _. by eapply St'.
Qed.

(** An operation in front of a program. *)
Lemma wp_op {X A} t0 (o : op X) (f : X -> prog A) Φ v :
  (forall v1 x v2, rely v v1 -> later v1 v2 -> Inv v1 -> effect me o v1 x v2 -> timely t0 o v2 -> Inv v2) ->
  (forall v1 x v2, rely v v1 -> later v1 v2 -> Inv v1 -> effect me o v1 x v2 -> timely t0 o v2 -> Inv v2 ->
     wp t0 (f x) Φ v2) ->
  wp t0 (trigger o ≫= f) Φ v.
Proof.
  intros HI HW v1 x v2 L I S T. pose proof (spec_later _ _ _ _ _ S) as L2. destruct S as [Ht E].
  assert (Inv v2) by by eapply HI. split; [done|]. by eapply HW.
Qed.

(** Operations that leave the stream alone. *)
Definition quiet {X} (o : op X) : bool :=
  match o with KvCreate _ _ | KvUpdate _ _ _ | KvPut _ _ | KvDelete _ _ => false | _ => true end.

Lemma quiet_log {X} (o : op X) v x v' : quiet o = true -> effect me o v x v' -> log v' = log v.
Proof. destruct o; try done; by intros _ (? & _). Qed.

Lemma wp_quiet {X A} t0 (o : op X) (f : X -> prog A) Φ v :
  (forall v v', Inv v -> log v' = log v -> (now v <= now v')%Z -> Inv v') ->
  quiet o = true ->
  (forall x v2, rely v v2 -> Inv v2 ->
     (exists v1, rely v v1 /\ Inv v1 /\ effect me o v1 x v2 /\ timely t0 o v2) ->
     wp t0 (f x) Φ v2) ->
  wp t0 (trigger o ≫= f) Φ v.
Proof.
  intros Same Q HW. apply wp_op.
  - intros v1 x v2 L L2 I E _. eapply Same; [done|by eapply quiet_log|by apply L2].
  - intros v1 x v2 L L2 I E T I2. apply HW; [|done|by exists v1]. trans v1; [done|].
    apply grows_same; [by eapply quiet_log|by apply L2].
Qed.

End wp.

(** ** Programs that keep the invariant, whatever their results *)
Section safe.
Context (Inv : view -> Prop) (deadline : forall X, op X -> option Z) (me : nat).
Context (Inv_same : forall v v', Inv v -> log v' = log v -> (now v <= now v')%Z -> Inv v').

Definition safe {A} (m : prog A) : Prop :=
  forall t0 v, Inv v -> wp Inv deadline me anyone t0 m (λ _ _, True) v.

Lemma wp_safe {A} (m : prog A) t0 v : safe m -> Inv v -> wp Inv deadline me anyone t0 m (λ _ _, True) v.
Proof. intros S I. by apply S. Qed.

Lemma safe_ret {A} (a : A) : safe (Ret a).
Proof. by intros t0 v _ v1 _ _. Qed.

Lemma safe_bind {A B} (m : prog A) (f : A -> prog B) : safe m -> (forall a, safe (f a)) -> safe (m ≫= f).
Proof. intros Hm Hf t0 v I. apply wp_bind; [|done]. eapply wp_mono; [by apply Hm|]. intros a v1 _ I1 _. by apply Hf. Qed.

Lemma safe_quiet {X} (o : op X) : quiet o = true -> safe (trigger o).
Proof using Inv_same.
  intros Q t0 v I v1 x v2 L I1 S T. split; [|done]. destruct S as [Ht E]. eapply Inv_same; [done| |done].
  by eapply quiet_log.
Qed.

Lemma safe_for_each {A S} (l : list A) (s : S) f : (forall x s, safe (f x s)) -> safe (for_each l s f).
Proof.
  intros Hf. induction l as [|x l IH] in s |- *; cbn [for_each]; [apply safe_ret|]. by apply safe_bind.
Qed.

Lemma safe_for_each_err {A S E} (l : list A) (s : S) (f : A -> S -> prog (res E S)) :
  (forall x s, safe (f x s)) -> safe (for_each_err l s f).
Proof.
  intros Hf. induction l as [|x l IH] in s |- *; cbn [for_each_err]; [apply safe_ret|].
  apply safe_bind; [done|]. intros [s'|e]; [done|apply safe_ret].
Qed.

Lemma wp_group {E} t0 (m n : prog (res E unit)) v :
  wp Inv deadline me anyone t0 m (λ _ _, True) v -> wp Inv deadline me anyone t0 n (λ _ _, True) v -> Inv v ->
  wp Inv deadline me anyone t0 (group m n) (λ _ _, True) v.
Proof using Inv_same.
  assert (forall (m : prog (res E unit)) e v, Inv v -> wp Inv deadline me anyone t0 m (λ _ _, True) v ->
    wp Inv deadline me anyone t0 (bind (λ _, Ret (Err e : res E unit)) m) (λ _ _, True) v) as Rest.
  { intros m' e v' I' W. apply (wp_bind _ _ _ _ _ m' (λ _, Ret (Err e))); [|done]. eapply wp_mono; [exact W|].
    by intros a v1 _ _ _ v2 _ _. }
  revert n v. induction m as [[[]|e]|X o k IHm].
  { by intros [] v _ ? _. }
  { intros [] v _ ? ?; by apply (Rest _ e). }
  induction n as [[[]|e]|Y o' k' IHn]; intros v Hm Hn I.
  { done. }
  { by apply (Rest (Vis o k) e). }
  cbn [group]. intros v1 b v2 L1 I1 [Ht [El _]] T. split; [by eapply Inv_same|].
  assert (later v v2) as L2. { etrans; [exact L1|]. by apply grows_same. }
  destruct b; intros v3 x v4 L3 I3 S3 T3; pose proof (spec_later _ _ _ _ _ S3) as L4.
  - destruct (Hm v3 x v4) as [I4 W4]; [by etrans|done..|]. split; [done|]. apply IHm; [done| |done].
    eapply (wp_rely _ _ _ _ t0 (Vis o' k')); [exact Hn|]. etrans; [exact L2|]. by etrans.
  - destruct (Hn v3 x v4) as [I4 W4]; [by etrans|done..|]. split; [done|]. apply IHn; [|done..].
    eapply (wp_rely _ _ _ _ t0 (Vis o k)); [exact Hm|]. etrans; [exact L2|]. by etrans.
Qed.

Lemma safe_group_all {E} (ms : list (prog (res E unit))) : Forall safe ms -> safe (group_all ms).
Proof using Inv_same.
  induction 1 as [|m ms Hm _ IH]; cbn; [apply safe_ret|]. intros t0 v I. apply wp_group; [by apply Hm|by apply IH|done].
Qed.
End safe.

(** What a program returns, whatever the answers. *)
Fixpoint returns {A} (P : A -> Prop) (m : prog A) : Prop :=
  match m with
  | Ret a => P a
  | Vis o k => forall x, returns P (k x)
  end.

Lemma returns_bind {A B} (P : A -> Prop) (Q : B -> Prop) (m : prog A) (f : A -> prog B) :
  returns P m -> (forall a, P a -> returns Q (f a)) -> returns Q (m ≫= f).
Proof. intros Pm Qf. induction m as [a|X o k IH]; [by apply Qf|]. intros x. apply IH, Pm. Qed.

Lemma returns_mono {A} (P Q : A -> Prop) (m : prog A) : returns P m -> (forall a, P a -> Q a) -> returns Q m.
Proof. intros Pm PQ. induction m as [a|X o k IH]; [by apply PQ|]. intros x. apply IH, Pm. Qed.

Lemma returns_any {A} (m : prog A) : returns (λ _, True) m.
Proof. induction m as [a|X o k IH]; [done|]. intros x. apply IH. Qed.

Lemma returns_for_each {A S} (P : S -> Prop) (l : list A) (s : S) f :
  P s -> (forall x s, P s -> returns P (f x s)) -> returns P (for_each l s f).
Proof.
  intros Ps Pf. induction l as [|x l IH] in s, Ps |- *; cbn [for_each]; [done|].
  eapply returns_bind; [by apply Pf|]. intros s' Ps'. by apply IH.
Qed.

Lemma wp_returns Inv deadline me from {A} t0 (P : A -> Prop) (m : prog A) Φ v :
  wp Inv deadline me from t0 m Φ v -> returns P m -> wp Inv deadline me from t0 m (λ a v', P a /\ Φ a v') v.
Proof.
  revert v. induction m as [a|X o k IH]; intros v; cbn [wp returns].
  - intros W Pa v1 L I. split; [done|by apply W].
  - intros W Pk v1 x v2 L I S T. destruct (W v1 x v2 L I S T) as [I2 W2]. split; [done|]. by apply IH.
Qed.

(** A program verified against every growth of the stream is verified against
    the steps of others. *)
Lemma wp_weaken Inv deadline me {A} t0 (m : prog A) Φ v :
  wp Inv deadline me anyone t0 m Φ v -> wp Inv deadline me (not_by me) t0 m Φ v.
Proof.
  revert v. induction m as [a|X o k IH]; intros v; cbn [wp].
  - intros H v1 L. by apply H, (grows_later (not_by me)).
  - intros H v1 x v2 L I S T. destruct (H v1 x v2) as [I2 W]; [by eapply grows_later|done..|].
    split; [done|by apply IH].
Qed.

(** Every execution of one program, with anything the documentation allows
    happening in between. *)
Inductive runs (me : nat) {A} : prog A -> view -> A -> view -> Prop :=
| runs_ret a v v' : later v v' -> runs me (Ret a) v a v'
| runs_op {X} (o : op X) k x v v1 v2 a v' :
    later v v1 -> spec me o v1 x v2 -> runs me (k x) v2 a v' -> runs me (Vis o k) v a v'.

Lemma wp_runs me {A} t0 (m : prog A) Φ v a v' :
  wp (λ _, True) (λ _ _, None) me anyone t0 m Φ v -> runs me m v a v' -> Φ a v'.
Proof.
  intros H R. induction R as [a v v' L|X o k x v v1 v2 a v' L S R IH]; cbn [wp] in H; [by apply H|].
  apply IH. by eapply H.
Qed.

(** ** Systems of processes

    Any number of processes share the bucket. A process is idle in a state, or
    runs one call; it may crash at any point, and new ones may boot under a
    fresh identity. Entries may expire in between. *)
Section system.
Context {ttl : option Z} {W : Type} `{!Env ttl W} {S : Type}.
Context (deadline : forall X, op X -> option Z) (boot : nat -> S -> Prop) (call : S -> prog S -> Prop).

Inductive activity := Idle (s : S) | Run (t0 : Z) (m : prog S).

Definition process : Type := nat * activity.

Inductive sys_step : relation (W * list process) :=
| sys_call w ps1 ps2 i s m :
    call s m -> sys_step (w, ps1 ++ (i, Idle s) :: ps2) (w, ps1 ++ (i, Run (now (observe w)) m) :: ps2)
| sys_op w w' ps1 ps2 i t0 X (o : op X) k x :
    perform i o w x w' -> timely deadline t0 o (observe w') ->
    sys_step (w, ps1 ++ (i, Run t0 (Vis o k)) :: ps2) (w', ps1 ++ (i, Run t0 (k x)) :: ps2)
| sys_return w ps1 ps2 i t0 s :
    sys_step (w, ps1 ++ (i, Run t0 (Ret s)) :: ps2) (w, ps1 ++ (i, Idle s) :: ps2)
| sys_crash w ps1 ps2 p : sys_step (w, ps1 ++ p :: ps2) (w, ps1 ++ ps2)
| sys_boot w ps i s :
    boot i s -> i ∉ ps.*1 -> Forall (λ m, m_by m <> Some i) (log (observe w)) ->
    sys_step (w, ps) (w, (i, Idle s) :: ps)
| sys_idle w w' ps : idle w w' -> sys_step (w, ps) (w', ps).

(** The stream only grows. *)
Lemma sys_steps_later c c' : rtc sys_step c c' -> later (observe c.1) (observe c'.1).
Proof.
  induction 1 as [|c1 c2 c3 St _ IH]; [done|]. etrans; [|exact IH]. destruct St; cbn [fst]; try done.
  - by eapply spec_later, perform_spec.
  - eapply grows_later, (expires_others _ 0). by apply idle_spec.
Qed.

Section adequacy.
Context (Inv : view -> Prop) (ok : nat -> S -> view -> Prop).
Context (ok_others : forall i s v v', others i v v' -> ok i s v -> ok i s v').
Context (ok_boot : forall i s v, boot i s -> Forall (λ m, m_by m <> Some i) (log v) -> ok i s v).
Context (ok_call : forall i s m v, call s m -> ok i s v -> Inv v -> wp Inv deadline i (not_by i) (now v) m (ok i) v).
Context (Inv_expires : forall v v', expires ttl v v' -> Inv v -> Inv v').

Definition process_ok (v : view) (p : process) : Prop :=
  match p.2 with Idle s => ok p.1 s v | Run t0 m => wp Inv deadline p.1 (not_by p.1) t0 m (ok p.1) v end.

Lemma process_ok_others v v' p : others p.1 v v' -> process_ok v p -> process_ok v' p.
Proof using ok_others.
  destruct p as [i [s|t0 m]]; unfold process_ok; cbn; [by apply ok_others|]. intros. by eapply (wp_rely _ _ _ _).
Qed.

Definition sys_inv (c : W * list process) : Prop :=
  Inv (observe c.1) /\ NoDup (c.2.*1) /\ Forall (process_ok (observe c.1)) c.2.

Lemma processes_others v v' i ps :
  (forall j, j <> i -> others j v v') -> i ∉ ps.*1 -> Forall (process_ok v) ps -> Forall (process_ok v') ps.
Proof using ok_others.
  intros O N F. rewrite Forall_forall in F |- *. intros p Hp. apply (process_ok_others v); [|by apply F].
  apply O. intros E. apply N. rewrite <-E. by apply (list_elem_of_fmap_2 fst).
Qed.

Lemma sys_step_inv c c' : sys_step c c' -> sys_inv c -> sys_inv c'.
Proof using All.
  intros St (I & N & F). unfold sys_inv.
  destruct St as [w ps1 ps2 i s m C|w w' ps1 ps2 i t0 X o k x P T|w ps1 ps2 i t0 s|w ps1 ps2 p|w ps i s B Ni Nl|w w' ps Ex];
    cbn [fst snd] in *.
  - rewrite fmap_app in N |- *. split_and!; [done..|]. rewrite Forall_app, Forall_cons in F |- *.
    destruct F as (F1 & Fp & F2). split_and!; [done| |done]. by eapply ok_call.
  - rewrite fmap_app, fmap_cons in N. cbn [fst] in N. rewrite Forall_app, Forall_cons in F.
    destruct F as (F1 & Fp & F2). apply perform_spec in P.
    destruct (Fp (observe w) x (observe w') ltac:(done) I P T) as [I' W'].
    apply NoDup_app in N as N'. destruct N' as (_ & N1 & N2). apply NoDup_cons in N2 as [N2 _].
    assert (forall j, j <> i -> others j (observe w) (observe w')) as O by (intros j Hj; by eapply spec_others).
    split_and!; [done|by rewrite fmap_app, fmap_cons|]. rewrite Forall_app, Forall_cons. split_and!.
    + apply (processes_others (observe w) _ i); [done| |done]. intros Hi. apply (N1 i Hi). by left.
    + exact W'.
    + by apply (processes_others (observe w) _ i).
  - rewrite fmap_app in N |- *. split_and!; [done..|]. rewrite Forall_app, Forall_cons in F |- *.
    destruct F as (F1 & Fp & F2). split_and!; [done| |done]. by apply Fp.
  - rewrite fmap_app, fmap_cons in N. rewrite fmap_app. split_and!; [done| |].
    + apply NoDup_app in N as (N1 & N2 & N3). apply NoDup_cons in N3 as [_ N3]. apply NoDup_app.
      split_and!; [done| |done]. intros j Hj Hj'. apply (N2 j Hj). by right.
    + rewrite Forall_app, Forall_cons in F. rewrite Forall_app. naive_solver.
  - split_and!; [done|by constructor|]. constructor; [|done]. by apply ok_boot.
  - apply idle_spec in Ex. split_and!; [by eapply Inv_expires|done|].
    rewrite Forall_forall in F |- *. intros p Hp. apply (process_ok_others (observe w)); [|by apply F].
    by eapply expires_others.
Qed.

(** Every reachable state of the system satisfies the invariant. *)
Lemma adequacy w0 c : Inv (observe w0) -> rtc sys_step (w0, []) c -> sys_inv c.
Proof using All.
  intros I. apply (rtc_ind_r sys_inv); [by split_and!; [|constructor|]|]. intros c1 c2 _. apply sys_step_inv.
Qed.
End adequacy.
End system.
Arguments activity S : clear implicits.
Arguments process S : clear implicits.

(** ** A concrete environment

    No faults, one tick per operation, revisions counted from 1. *)
Definition tick (v : view) (l : list msg) (r : gmap nat (gset string)) : view := mkView l (now v + 1) r.

Definition next_rev (l : list msg) : Z := (last_seq l + 1)%Z.

Definition do_write (by_ : nat) (v : view) (k : string) (b : body) : Z * view :=
  let r := next_rev (log v) in (r, tick v (log v ++ [mkMsg r k (now v + 1) b (Some by_)]) (refs v)).

Definition err_exists : go_error := mkError [JsErrKeyExists] "wrong last sequence".
Definition err_not_found : go_error := mkError [JsErrKeyNotFound] "key not found".

Definition cond_write (by_ : nat) (c : bool) (v : view) (k : string) (b : body) : res go_error Z * view :=
  if c then let '(r, v') := do_write by_ v k b in (Ok r, v')
  else (Err err_exists, tick v (log v) (refs v)).

Definition simulate (by_ : nat) {X} (o : op X) : view -> X * view :=
  match o in op X return view -> X * view with
  | KvGet k => λ v,
      (match live (log v) k with Some m => Ok (entry_of m) | None => Err err_not_found end,
       tick v (log v) (refs v))
  | KvCreate k s => λ v, cond_write by_ (bool_decide (live (log v) k = None)) v k (Put s)
  | KvUpdate k s rev => λ v, cond_write by_ (bool_decide (last_rev (log v) k = rev)) v k (Put s)
  | KvPut k s => λ v, cond_write by_ true v k (Put s)
  | KvDelete k rev => λ v,
      let '(x, v') :=
        cond_write by_ (match rev with Some r => bool_decide (last_rev (log v) k = r) | None => true end)
          v k Del in
      ((λ _, ()) <$> x, v')
  | KvKeys => λ v,
      (Ok (filter (λ k, is_Some (live (log v) k)) (remove_dups (m_key <$> log v))), tick v (log v) (refs v))
  | HeartbeatGet _ => λ v, (Err err_not_found, tick v (log v) (refs v))
  | LeaderCheck _ => λ v, (None, tick v (log v) (refs v))
  | IsShuttingDown => λ v, (false, tick v (log v) (refs v))
  | CtxErr => λ v, (None, tick v (log v) (refs v))
  | Backoff _ => λ v, (None, tick v (log v) (refs v))
  | Now _ => λ v, ((now v + 1)%Z, tick v (log v) (refs v))
  | StoreRef pid k => λ v, ((), tick v (log v) (<[pid := {[k]} ∪ refs_of v pid]> (refs v)))
  | DeleteRef pid k => λ v, ((), tick v (log v) (<[pid := refs_of v pid ∖ {[k]}]> (refs v)))
  | LiveRefs pid => λ v, (elements (refs_of v pid), tick v (log v) (refs v))
  | Schedule => λ v, (true, tick v (log v) (refs v))
  | Random => λ v, (0%Z, tick v (log v) (refs v))
  | BucketPos => λ v,
      (Ok (mkPos 0 (last_seq (log v)) (Z.of_nat (length (log v))) 0 false 0), tick v (log v) (refs v))
  | LivePartitions => λ v, (None, tick v (log v) (refs v))
  | SweepAuthority => λ v, (true, tick v (log v) (refs v))
  | FalseSamples => λ v, (0%nat, tick v (log v) (refs v))
  | UpdateConsumer _ _ => λ v, (None, tick v (log v) (refs v))
  end.

Lemma next_rev_above l : (0 < next_rev l)%Z /\ Forall (λ m, m_rev m < next_rev l)%Z l.
Proof.
  unfold next_rev, last_seq. enough (0 <= foldr (λ m, Z.max (m_rev m)) 0 l /\
    Forall (λ m, m_rev m <= foldr (λ m, Z.max (m_rev m)) 0 l) l)%Z as [P F].
  { split; [lia|]. eapply Forall_impl; [exact F|]. intros m Hm. simpl in Hm. lia. }
  induction l as [|m l [P F]]; [by split|]. cbn [foldr]. split; [lia|].
  constructor; [lia|]. eapply Forall_impl; [exact F|]. intros m' Hm. simpl in Hm. lia.
Qed.

Lemma do_write_appended by_ v k b r v' :
  do_write by_ v k b = (r, v') -> appended by_ v k b r v' /\ refs v' = refs v.
Proof. intros [= <- <-]. destruct (next_rev_above (log v)). done. Qed.

Lemma cond_write_spec by_ (c : bool) (pre : Prop) v k b x v' :
  (c = true <-> pre) -> cond_write by_ c v k b = (x, v') ->
  write_spec by_ pre k b eq v x v' /\ refs v' = refs v /\ now v' = (now v + 1)%Z.
Proof.
  unfold cond_write. intros Hc. destruct c.
  - destruct (do_write by_ v k b) as [r v1] eqn:E. intros [= <- <-]. split_and!; [|by eapply do_write_appended|].
    + exists r. split_and!; [by apply Hc|done|by apply do_write_appended].
    + by injection E as <- <-.
  - intros [= <- <-]. split_and!; [|done..]. left. split; [done|]. intros _ P. by apply Hc in P.
Qed.

Lemma simulate_spec by_ {X} (o : op X) v x v' : simulate by_ o v = (x, v') -> spec by_ o v x v'.
Proof.
  unfold spec. destruct o; cbn [simulate effect]; intros E; try (injection E as <- <-; cbn; split_and!; [lia|done..]).
  - injection E as <- <-. cbn. split_and!; [lia|done..|]. destruct (live _ _); [by eauto|done].
  - eapply cond_write_spec in E as (? & ? & ->); [|by rewrite bool_decide_eq_true]. split_and!; [lia|done..].
  - eapply cond_write_spec in E as (? & ? & ->); [|by rewrite bool_decide_eq_true]. split_and!; [lia|done..].
  - eapply (cond_write_spec _ _ True) in E as (? & ? & ->); [|done]. split_and!; [lia|done..].
  - destruct (cond_write _ _ _ _ _) as [y v1] eqn:E'. injection E as <- <-.
    eapply cond_write_spec in E' as (Hw & ? & ->).
    2: { instantiate (1 := match rev with Some r => last_rev (log v) k = r | None => True end).
         destruct rev; [by rewrite bool_decide_eq_true|done]. }
    split_and!; [lia| |done]. destruct y as [r|e]; cbn in *; [|done]. destruct Hw as (r' & ? & -> & ?). by exists r'.
  - injection E as <- <-. cbn. split_and!; [lia|done..|]. intros k.
    rewrite list_elem_of_filter, elem_of_remove_dups. split; [by intros []|].
    intros [m Hm]. split; [by exists m|]. apply live_elem in Hm as [Hm <-]. by apply list_elem_of_fmap_2.
  - injection E as <- <-. cbn. split_and!; [lia|done..|]. destruct c; [done|lia].
Qed.

(** The environment with every behaviour the documentation allows. *)
#[export] Instance permissive ttl : Env ttl view := {|
  observe := λ v, v;
  perform := λ X by_ o v x v', spec by_ o v x v';
  idle := expires ttl;
  perform_spec := λ X by_ o v x v' H, H;
  idle_spec := λ v v' H, H;
|}.

(** A program run alone in the concrete environment, with every deadline checked. *)
Fixpoint run_timely (deadline : forall X, op X -> option Z) (by_ : nat) (t0 : Z) {A} (m : prog A) (v : view) :
    option (A * view) :=
  match m with
  | Ret a => Some (a, v)
  | Vis o k =>
      let '(x, v') := simulate by_ o v in
      if match deadline _ o with Some d => bool_decide (now v' <= t0 + d)%Z | None => true end
      then run_timely deadline by_ t0 (k x) v' else None
  end.

Lemma run_timely_steps {ttl S} deadline (boot : nat -> S -> Prop) call i t0 (m : prog S) v s v' ps1 ps2 :
  run_timely deadline i t0 m v = Some (s, v') ->
  rtc (sys_step (ttl := ttl) (W := view) deadline boot call)
    (v, ps1 ++ (i, Run t0 m) :: ps2) (v', ps1 ++ (i, Idle s) :: ps2).
Proof.
  revert v. induction m as [a|X o k IH]; intros v; cbn [run_timely].
  - intros [= <- <-]. apply rtc_once, sys_return.
  - destruct (simulate i o v) as [x v1] eqn:E.
    set (b := match deadline X o with Some d => bool_decide (now v1 <= t0 + d)%Z | None => true end).
    destruct b eqn:D; [|done].
    intros R. eapply rtc_l; [|by apply (IH x v1)]. apply sys_op; [by apply simulate_spec|].
    unfold timely. subst b. destruct (deadline X o); [by apply bool_decide_eq_true in D|done].
Qed.

(** The same, with a delay before the first operation. *)
Definition advance (d : Z) (v : view) : view := mkView (log v) (now v + d) (refs v).

Definition run_after (d : Z) (deadline : forall X, op X -> option Z) (by_ : nat) (t0 : Z) {A} (m : prog A)
    (v : view) : option (A * view) :=
  match m with
  | Ret a => Some (a, v)
  | Vis o k => run_timely deadline by_ t0 (Vis o k) (advance d v)
  end.

Lemma spec_advance d by_ {X} (o : op X) v x v' : (0 <= d)%Z -> spec by_ o (advance d v) x v' -> spec by_ o v x v'.
Proof. intros Hd [T E]. split; [cbn in T; lia|]. by destruct o. Qed.

Lemma run_after_steps {ttl S} d deadline (boot : nat -> S -> Prop) call i t0 (m : prog S) v s v' ps1 ps2 :
  (0 <= d)%Z -> run_after d deadline i t0 m v = Some (s, v') ->
  rtc (sys_step (ttl := ttl) (W := view) deadline boot call)
    (v, ps1 ++ (i, Run t0 m) :: ps2) (v', ps1 ++ (i, Idle s) :: ps2).
Proof.
  intros Hd. destruct m as [a|X o k]; [by apply (run_timely_steps deadline boot call i t0 (Ret a))|].
  cbn [run_after run_timely]. destruct (simulate i o (advance d v)) as [x v1] eqn:E.
  set (b := match deadline X o with Some d => bool_decide (now v1 <= t0 + d)%Z | None => true end).
  destruct b eqn:D; [|done]. intros R. eapply rtc_l; [|by eapply run_timely_steps].
  apply sys_op; [by eapply spec_advance, simulate_spec|].
  unfold timely. subst b. destruct (deadline X o); [by apply bool_decide_eq_true in D|done].
Qed.

(** ** Schedules

    Executable interleavings: start a process, start a call, run some operations
    of a process and return when its program has ended. Every schedule that can
    be executed is an execution of the system. *)
Section schedule.
Context {ttl : option Z} {S : Type}.
Context (env : forall X, nat -> op X -> view -> X * view).
Context (env_spec : forall X i (o : op X) v x v', env X i o v = (x, v') -> spec i o v x v').
Context (boot : nat -> S -> Prop) (call : S -> prog S -> Prop).

Inductive sched := SBoot (i : nat) (s : S) | SCall (i : nat) (m : S -> prog S) | SRun (i n : nat).

Definition lawful_sched (a : sched) : Prop :=
  match a with
  | SBoot i s => boot i s
  | SCall _ m => forall s, call s (m s)
  | SRun _ _ => True
  end.

Fixpoint run_some (i n : nat) (m : prog S) (v : view) : prog S * view :=
  match n, m with
  | Datatypes.S n', Vis o k => let '(x, v') := env _ i o v in run_some i n' (k x) v'
  | _, _ => (m, v)
  end.

Definition act (v : view) (i : nat) (a : sched) (p : activity S) : option (view * activity S) :=
  match a, p with
  | SCall _ m, Idle s => Some (v, Run (now v) (m s))
  | SRun _ n, Run t0 m =>
      let '(m', v') := run_some i n m v in
      Some (v', match m' with Ret s => Idle s | _ => Run t0 m' end)
  | _, _ => None
  end.

Fixpoint on_process (i : nat) (f : activity S -> option (view * activity S)) (ps : list (process S)) :
    option (view * list (process S)) :=
  match ps with
  | [] => None
  | (j, p) :: ps =>
      if decide (j = i) then r ← f p; Some (r.1, (j, r.2) :: ps)
      else r ← on_process i f ps; Some (r.1, (j, p) :: r.2)
  end.

Definition sched_step (c : view * list (process S)) (a : sched) : option (view * list (process S)) :=
  let '(v, ps) := c in
  match a with
  | SBoot i s =>
      if bool_decide (i ∉ ps.*1) && bool_decide (Forall (λ m, m_by m <> Some i) (log v))
      then Some (v, (i, Idle s) :: ps) else None
  | SCall i _ | SRun i _ => on_process i (act v i a) ps
  end.

Fixpoint run_sched (as_ : list sched) (c : view * list (process S)) : option (view * list (process S)) :=
  match as_ with
  | [] => Some c
  | a :: as_ => sched_step c a ≫= run_sched as_
  end.

Local Notation steps := (rtc (sys_step (ttl := ttl) (W := view) (λ _ _, None) boot call)).

Lemma run_some_steps i t0 n m v ps1 ps2 :
  steps (v, ps1 ++ (i, Run t0 m) :: ps2) ((run_some i n m v).2, ps1 ++ (i, Run t0 (run_some i n m v).1) :: ps2).
Proof using env_spec.
  revert m v. induction n as [|n IH]; intros m v; [done|]. destruct m as [a|X o k]; [done|].
  cbn [run_some]. destruct (env X i o v) as [x v'] eqn:E. eapply rtc_l; [|apply (IH (k x) v')].
  apply sys_op; [by apply env_spec|done].
Qed.

Lemma on_process_split i f ps r :
  on_process i f ps = Some r ->
  exists ps1 p p' ps2, ps = ps1 ++ (i, p) :: ps2 /\ f p = Some (r.1, p') /\ r.2 = ps1 ++ (i, p') :: ps2.
Proof.
  revert r. induction ps as [|[j p] ps IH]; intros r E; cbn [on_process] in E; [done|].
  case_decide as D; apply bind_Some in E as (r' & E & [= <-]); cbn.
  - subst j. destruct r' as [v' p']. by exists [], p, p', ps.
  - destruct (IH _ E) as (ps1 & q & q' & ps2 & -> & Ef & Er). exists ((j, p) :: ps1), q, q', ps2.
    split_and!; [done..|]. exact (f_equal (cons (j, p)) Er).
Qed.

Lemma sched_step_steps c a c' : lawful_sched a -> sched_step c a = Some c' -> steps c c'.
Proof using env_spec.
  destruct c as [v ps], c' as [v' ps']. intros La E. destruct a as [i s|i m|i n]; cbn in E, La.
  - destruct (bool_decide _) eqn:B1; [|done]. destruct (bool_decide (Forall _ _)) eqn:B2; [|done].
    injection E as <- <-. apply bool_decide_eq_true in B1, B2. by apply rtc_once, sys_boot.
  - apply on_process_split in E as (ps1 & p & p' & ps2 & -> & Ef & Er). cbn in *. subst ps'.
    destruct p as [s|t0 m']; simplify_eq. apply rtc_once.
    exact (sys_call (W := view) (ttl := ttl) (λ _ _, None) boot call v' ps1 ps2 i s (m s) (La s)).
  - apply on_process_split in E as (ps1 & p & p' & ps2 & -> & Ef & Er). cbn in *. subst ps'.
    destruct p as [s|t0 m]; [done|]. pose proof (run_some_steps i t0 n m v ps1 ps2) as R.
    destruct (run_some i n m v) as [m' v1]. injection Ef as <- <-. destruct m' as [s|X o k]; [|done].
    eapply rtc_r; [exact R|]. apply sys_return.
Qed.

Lemma run_sched_steps as_ c c' : Forall lawful_sched as_ -> run_sched as_ c = Some c' -> steps c c'.
Proof using env_spec.
  intros F. revert c. induction F as [|a as_ La F IH]; intros c E; cbn [run_sched] in E; [by simplify_eq|].
  apply bind_Some in E as (c1 & E1 & E2). etrans; [by eapply sched_step_steps|by apply IH].
Qed.
End schedule.
Arguments sched S : clear implicits.
