(* ===== verification/Lease.v ===== *)
(** * Leases on the keys of a bucket

    What the stable-ID claimer and the leader election share: a key is held by
    the process whose entry is current, for as long as that entry is younger
    than a lease. A discipline on the messages of the stream, the invariant of
    the systems that follow it, and its consequence: two processes do not hold
    one key within the lease. *)
From S2P Require Import Prelude Nats KV.

(** ** Holding a key *)

(** Process [i] wrote the entry of [k] at revision [r]. *)
Definition claims (v : view) (i : nat) (k : string) (r : Z) (m : msg) : Prop :=
  m ∈ log v /\ m_rev m = r /\ m_key m = k /\ m_by m = Some i /\ is_put m = true.

Lemma claims_later v v' i k r m : later v v' -> claims v i k r m -> claims v' i k r m.
Proof. intros [(l & E & _) _] (Hm & R). split; [|done]. rewrite E. set_solver. Qed.

Lemma appended_claims me v k s r v' :
  appended me v k (Put s) r v' -> claims v' me k r (mkMsg r k (now v') (Put s) (Some me)).
Proof. intros (E & _). split_and!; [|done..]. rewrite E. set_solver. Qed.

(** The entry of the writer of [m], no older than [m], was deleted while it was
    current. *)
Definition revoked (l : list msg) (m : msg) : Prop :=
  exists l1 d l2 m0, l = l1 ++ d :: l2 /\ m ∈ l1 /\ m_key d = m_key m /\ m_body d = Del /\
    live l1 (m_key m) = Some m0 /\ m_by m0 = m_by m /\ (m_time m <= m_time m0)%Z.

Lemma revoked_app l l' m : revoked l m -> revoked (l ++ l') m.
Proof.
  intros (l1 & d & l2 & m0 & -> & R). exists l1, d, (l2 ++ l'), m0. by rewrite <-app_assoc.
Qed.

(** The lease discipline: an entry is only replaced by another process, and only
    expires, when it is older than [lease]. *)
Definition respects_lease (lease : Z) (l : list msg) (m : msg) : Prop :=
  match m_body m with
  | Put _ => forall m0, live l (m_key m) = Some m0 -> m_by m0 <> m_by m -> (m_time m0 + lease <= m_time m)%Z
  | Expired => forall m0, live l (m_key m) = Some m0 -> (m_time m0 + lease <= m_time m)%Z
  | Del => True
  end.

(** ** Disciplined streams *)

Section stream.
Context (good : list msg -> msg -> Prop).

(** Messages of processes have fresh positive revisions; the server only
    removes entries; time does not go back; every message is [good] where it
    was appended. *)
Definition numbered (l : list msg) (m : msg) : Prop :=
  match m_by m with
  | Some _ => (0 < m_rev m)%Z /\ Forall (λ m0, m_rev m0 < m_rev m)%Z l /\ m_body m <> Expired
  | None => m_rev m = 0%Z /\ m_body m = Expired
  end.

Inductive stream : list msg -> Prop :=
| stream_nil : stream []
| stream_snoc l m :
    stream l -> numbered l m -> Forall (λ m0, m_time m0 <= m_time m)%Z l -> good l m -> stream (l ++ [m]).

Lemma stream_app l1 l2 : stream (l1 ++ l2) -> stream l1.
Proof.
  induction l2 as [|m l2 IH] using rev_ind; [by rewrite app_nil_r|]. rewrite app_assoc. intros S. apply IH.
  inversion S as [E|l m' S' ? ? ? E]; [by destruct ((l1 ++ l2) ++ [m]) eqn:E'; [destruct (l1 ++ l2)|]|].
  by apply app_inj_2 in E as [-> _].
Qed.

Lemma stream_last l m :
  stream (l ++ [m]) -> numbered l m /\ Forall (λ m0, m_time m0 <= m_time m)%Z l /\ good l m.
Proof.
  intros S. inversion S as [E|l' m' S' ? ? ? E]; [by destruct l|]. by apply app_inj_2 in E as [-> [= ->]].
Qed.

(** What held of a message when it was appended. *)
Lemma stream_at l1 m l2 :
  stream (l1 ++ m :: l2) -> numbered l1 m /\ Forall (λ m0, m_time m0 <= m_time m)%Z l1 /\ good l1 m.
Proof. intros S. apply stream_last, (stream_app _ l2). by rewrite <-app_assoc. Qed.

Lemma stream_pos l m i : stream l -> m ∈ l -> m_by m = Some i -> (0 < m_rev m)%Z.
Proof.
  intros S (l1 & l2 & ->)%list_elem_of_split B. destruct (stream_at _ _ _ S) as (N & _).
  unfold numbered in N. rewrite B in N. by apply N.
Qed.

Lemma stream_rev_unique l m1 m2 :
  stream l -> m1 ∈ l -> m2 ∈ l -> m_rev m1 = m_rev m2 -> (0 < m_rev m1)%Z -> m1 = m2.
Proof.
  induction 1 as [|l m S IH N _ _]; [set_solver|]. rewrite !elem_of_app, !list_elem_of_singleton.
  unfold numbered in N.
  destruct (m_by m); [destruct N as (_ & F & _); rewrite Forall_forall in F|destruct N as [N _]];
    intros [H1| ->] [H2| ->] E P; auto; try lia; exfalso;
    [apply F in H1|apply F in H2]; lia.
Qed.

(** A conditional write that succeeds at a positive revision follows the message
    with that revision. *)
Lemma stream_last_rev l k m :
  stream l -> m ∈ l -> (0 < m_rev m)%Z -> last_rev l k = m_rev m -> last_msg l k = Some m.
Proof.
  intros S Hm P R. unfold last_rev in R. destruct (last_msg l k) as [m'|] eqn:E; [|lia].
  destruct (last_msg_elem _ _ _ E) as [Hm' _]. f_equal.
  assert (m_rev m' = m_rev m) as R' by (destruct (m_body m'); [done..|lia]).
  apply (stream_rev_unique l); [done..|lia].
Qed.

(** Messages of processes in the order of their revisions. *)
Lemma stream_order l1 m l2 m' :
  stream (l1 ++ m :: l2) -> m' ∈ l1 ++ m :: l2 -> (0 < m_rev m)%Z -> (m_rev m <= m_rev m')%Z -> m' ∈ m :: l2.
Proof.
  intros S H P R. apply elem_of_app in H as [H|H]; [|done]. exfalso.
  destruct (stream_at _ _ _ S) as (N & _). unfold numbered in N. destruct (m_by m); [|lia].
  destruct N as (_ & F & _). rewrite Forall_forall in F. apply F in H. lia.
Qed.

(** ** The invariant of a bucket *)

Definition bucket_ok (v : view) : Prop := stream (log v) /\ Forall (λ m, m_time m <= now v)%Z (log v).

Lemma bucket_same v v' : bucket_ok v -> log v' = log v -> (now v <= now v')%Z -> bucket_ok v'.
Proof.
  intros [S T] E Ht. split; rewrite E; [done|]. eapply Forall_impl; [exact T|]. intros m Hm. simpl in *. lia.
Qed.

Lemma bucket_snoc v v' m :
  bucket_ok v -> (now v <= now v')%Z -> log v' = log v ++ [m] -> m_time m = now v' ->
  numbered (log v) m -> good (log v) m -> bucket_ok v'.
Proof.
  intros [S T] Ht E Et N G.
  assert (Forall (λ m0, m_time m0 <= now v')%Z (log v)) as T'.
  { eapply Forall_impl; [exact T|]. intros m0 Hm. simpl in *. lia. }
  split; rewrite E; [constructor; rewrite ?Et; done|]. rewrite Forall_app, Forall_singleton. split; [done|lia].
Qed.

Lemma bucket_write {A} me pre k b (rev : A -> Z -> Prop) v x v' :
  bucket_ok v -> (now v <= now v')%Z -> b <> Expired -> write_spec me pre k b rev v x v' ->
  (pre -> forall r, good (log v) (mkMsg r k (now v') b (Some me))) -> bucket_ok v'.
Proof.
  intros I Ht Nb W G.
  assert (forall r, pre -> appended me v k b r v' -> bucket_ok v') as App.
  { intros r P (E & Pr & R). eapply bucket_snoc; [done..| |by apply G]. by split_and!. }
  destruct x as [a|e]; simpl in W.
  - destruct W as (r & P & _ & Ap). by eapply App.
  - destruct W as [[E _]|(_ & P & r & Ap)]; [by eapply bucket_same|by eapply App].
Qed.

Lemma bucket_expires ttl v v' :
  (forall l m0 t, live l (m_key m0) = Some m0 -> (exists d, ttl = Some d /\ m_time m0 + d <= t)%Z ->
     good l (mkMsg 0 (m_key m0) t Expired None)) ->
  expires ttl v v' -> bucket_ok v -> bucket_ok v'.
Proof.
  intros G (d & m & Ed & L & Ht & Old & _ & E) I. eapply bucket_snoc; [done..|].
  apply G; [done|]. by exists d.
Qed.

(** ** Exclusion *)

Lemma claims_pos v i k r m : bucket_ok v -> claims v i k r m -> (0 < r)%Z.
Proof. intros [S _] (Hm & <- & _ & B & _). by eapply stream_pos. Qed.

Section exclusive.
Context (lease : Z) (good_lease : forall l m, good l m -> respects_lease lease l m).

(** An entry stays with its process, or its lease has run out, or it was deleted. *)
Lemma entry_kept l k i m :
  stream l -> m ∈ l -> m_key m = k -> m_by m = Some i -> is_put m = true ->
  (exists m', live l k = Some m' /\ m_by m' = Some i /\ (m_time m <= m_time m')%Z) \/
  (exists m', m' ∈ l /\ (m_time m + lease <= m_time m')%Z) \/ revoked l m.
Proof using good_lease.
  induction 1 as [|l m' S IH N T G%good_lease]; [set_solver|].
  rewrite elem_of_app, list_elem_of_singleton. intros Hm K B P. rewrite live_snoc.
  destruct Hm as [Hm| ->].
  2: { left. exists m'. rewrite decide_True by done. unfold is_put in P. by destruct (m_body m'). }
  destruct (IH Hm K B P) as [(m0 & L & B0 & T0)|[(m0 & Hm0 & T0)|R]].
  2: { right. left. exists m0. set_solver. }
  2: { right. right. by apply revoked_app. }
  case_decide as E; [|left; by exists m0]. unfold respects_lease in G. rewrite E in G.
  destruct (m_body m') as [s| |] eqn:Eb.
  - destruct (decide (m_by m' = Some i)) as [Bi|Bi].
    + left. exists m'. split_and!; [done..|]. rewrite Forall_forall in T. by apply T.
    + right. left. exists m'. split; [set_solver|]. apply G in L; [lia|congruence].
  - right. right. exists l, m', [], m0. rewrite K, B. by split_and!.
  - right. left. exists m'. split; [set_solver|]. apply G in L. lia.
Qed.

(** Of two entries of different processes, the later one was written when the
    lease of the earlier had run out, or after it was deleted. *)
Lemma entries_exclusive l k i j m1 m2 :
  stream l -> i <> j -> m1 ∈ l -> m_key m1 = k -> m_by m1 = Some i -> is_put m1 = true ->
  m2 ∈ l -> m_key m2 = k -> m_by m2 = Some j -> is_put m2 = true -> (m_rev m1 <= m_rev m2)%Z ->
  (m_time m1 + lease <= m_time m2)%Z \/ revoked l m1.
Proof using good_lease.
  intros S N H1 K1 B1 P1 H2 K2 B2 P2 R.
  apply list_elem_of_split in H2 as (l1 & l2 & ->). destruct (stream_at _ _ _ S) as (Nm & T & G).
  unfold numbered in Nm. rewrite B2 in Nm. destruct Nm as (_ & F & _).
  assert (m1 ∈ l1) as H1'.
  { apply elem_of_app in H1 as [?|H1]; [done|exfalso]. apply elem_of_cons in H1 as [->|H1]; [congruence|].
    apply list_elem_of_split in H1 as (l3 & l4 & ->).
    assert (stream ((l1 ++ m2 :: l3) ++ m1 :: l4)) as S' by by rewrite <-app_assoc.
    destruct (stream_at _ _ _ S') as (Nm & _). unfold numbered in Nm. rewrite B1 in Nm.
    destruct Nm as (_ & F' & _). rewrite Forall_app, Forall_cons in F'. lia. }
  destruct (entry_kept l1 k i m1) as [(m' & L & B' & T')|[(m' & H' & T')|Rv]]; try done.
  - by eapply stream_app.
  - left. apply good_lease in G. unfold respects_lease, is_put in *. destruct (m_body m2); try done.
    rewrite K2 in G. apply G in L; [lia|congruence].
  - left. rewrite Forall_forall in T. apply T in H'. lia.
  - right. by apply revoked_app.
Qed.
End exclusive.

End stream.
