(* ===== verification/Claimer.v ===== *)
(** * Stable-ID claims (internal/stableid/claimer.go)

    Workers share a bucket with one key per worker ID and claim the first free
    one. A claimer is a process of the bucket; its renewal loop and its other
    calls run one after the other, as [Release] waits for the loop; that after five
    seconds it goes on with a renewal still in flight is left out. Ages of entries
    are measured with the worker's own clock, which may be off the server's. *)
From S2P Require Import Prelude Nats KV Lease.

Definition minRenewInterval : Z := 100000000.

Record ClaimerConfig := mkClaimerConfig {
  cl_prefix : string;
  cl_minID : Z;
  cl_maxID : Z;
  cl_ttl : Z;
}.

(** [renewalDone] is the closed [doneCh] of the renewal loop. *)
Record Claimer := mkClaimer {
  cl_workerID : string;
  lastRevision : Z;
  renewStarted : bool;
  closed : bool;
  renewalDone : bool;
}.

Definition NewClaimer : Claimer := mkClaimer "" 0 false false false.

Definition keyForID (workerID : string) : string := workerID.

Definition renewInterval (cfg : ClaimerConfig) : Z := Z.max (cl_ttl cfg ÷ 3) minRenewInterval.
Definition staleThreshold (cfg : ClaimerConfig) : Z := 3 * renewInterval cfg.
Definition isStale (cfg : ClaimerConfig) (now : Z) (e : entry) : bool :=
  bool_decide (time_sub now (e_created e) > staleThreshold cfg)%Z.

Inductive claim_err :=
| ClaimCtx (e : go_error)
| ClaimFailed (workerID : string) (e : go_error)
| TakeoverFailed (workerID : string) (e : go_error)
| ErrNoAvailableID.

Inductive renew_err :=
| RenewNotClaimed
| ErrClaimLost (workerID : string) (bucketMissing : option go_error)
| RenewFailed (workerID : string) (e : go_error).

Inductive release_err := ReleaseNotClaimed | ReleaseCtx (e : go_error) | DeleteFailed (e : go_error).

Inductive start_err := ErrNotClaimed | ErrAlreadyClosed | ErrRenewalAlreadyStarted.

Section claimer.
Context (stamp : Z -> string) (cfg : ClaimerConfig).   (* time.RFC3339 *)
Context (skew : N).   (* how far the worker's clock may be off the server's *)

(** [fmt.Sprintf(%s-%d)] *)
Definition workerID_of (id : Z) : string := cl_prefix cfg +:+ "-" +:+ pretty id.

Definition claimed (workerID : string) (revision : Z) (c : Claimer) : Claimer :=
  mkClaimer workerID revision (renewStarted c) (closed c) (renewalDone c).

(** The retry of [Create] after the key disappeared; [Ok None] moves on. *)
Definition retry_create (workerID value : string) (c : Claimer) : prog (res claim_err (option Claimer)) :=
  x ← trigger (KvCreate (keyForID workerID) value);
  Ret match x with
      | Ok revision => Ok (Some (claimed workerID revision c))
      | Err e => if Is e JsErrKeyExists then Ok None else Err (ClaimFailed workerID e)
      end.

Definition take_over (workerID value : string) (e : entry) (c : Claimer) : prog (res claim_err (option Claimer)) :=
  now ← trigger (Now (Within skew));
  if isStale cfg now e then
    x ← trigger (KvUpdate (keyForID workerID) value (e_revision e));
    Ret match x with
        | Ok revision => Ok (Some (claimed workerID revision c))
        | Err e => if Is e JsErrKeyExists then Ok None else Err (TakeoverFailed workerID e)
        end
  else Ret (Ok None).

(** The body of the loop of [Claim] for one ID. *)
Definition try_id (id : Z) (c : Claimer) : prog (res claim_err (option Claimer)) :=
  ctx ← trigger CtxErr;
  match ctx with
  | Some e => Ret (Err (ClaimCtx e))
  | None =>
      let workerID := workerID_of id in
      t ← trigger (Now (Within skew));
      let value := stamp t in
      x ← trigger (KvCreate (keyForID workerID) value);
      match x with
      | Ok revision => Ret (Ok (Some (claimed workerID revision c)))
      | Err e =>
          if negb (Is e JsErrKeyExists) then Ret (Err (ClaimFailed workerID e))
          else
            g ← trigger (KvGet (keyForID workerID));
            match g with
            | Err _ => retry_create workerID value c
            | Ok entry => take_over workerID value entry c
            end
      end
  end.

Fixpoint claim_loop (ids : list Z) (c : Claimer) : prog (Claimer * res claim_err string) :=
  match ids with
  | [] => Ret (c, Err ErrNoAvailableID)
  | id :: ids' =>
      r ← try_id id c;
      match r with
      | Err e => Ret (c, Err e)
      | Ok (Some c') => Ret (c', Ok (cl_workerID c'))
      | Ok None => claim_loop ids' c
      end
  end.

(** The identifiers from [minID] to [maxID]. *)
Definition Claim (c : Claimer) : prog (Claimer * res claim_err string) :=
  claim_loop (seqZ (cl_minID cfg) (cl_maxID cfg - cl_minID cfg + 1)) c.

Definition StartRenewal (c : Claimer) : Claimer * res start_err unit :=
  if decide (cl_workerID c = "") then (c, Err ErrNotClaimed)
  else if closed c then (c, Err ErrAlreadyClosed)
  else if renewStarted c then (c, Err ErrRenewalAlreadyStarted)
  else (mkClaimer (cl_workerID c) (lastRevision c) true (closed c) (renewalDone c), Ok ()).

Definition renew (c : Claimer) : prog (Claimer * res renew_err unit) :=
  let wid := cl_workerID c in
  if decide (wid = "") then Ret (c, Err RenewNotClaimed)
  else
    t ← trigger (Now (Within skew));
    x ← trigger (KvUpdate (keyForID wid) (stamp t) (lastRevision c));
    Ret match x with
        | Ok newRev => (claimed wid newRev c, Ok ())
        | Err e =>
            (c, Err (if Is e JsErrKeyExists then ErrClaimLost wid None
                     else if Is e JsErrNoStreamResponse || Is e JsErrBucketNotFound || Is e JsErrStreamNotFound
                     then ErrClaimLost wid (Some e) else RenewFailed wid e))
        end.

(** One tick of the renewal loop, which ends when the claim is lost or the
    claimer is closed. *)
Definition renewalLoop_tick (c : Claimer) : prog Claimer :=
  if negb (renewStarted c) || renewalDone c then Ret c
  else if closed c then Ret (mkClaimer (cl_workerID c) (lastRevision c) (renewStarted c) (closed c) true)
  else
    '(c, r) ← renew c;
    Ret match r with
        | Err (ErrClaimLost _ _) => mkClaimer (cl_workerID c) (lastRevision c) (renewStarted c) (closed c) true
        | _ => c
        end.

Definition Close (c : Claimer) : Claimer :=
  mkClaimer (cl_workerID c) (lastRevision c) (renewStarted c) true (renewalDone c).

(** [Backoff] is the wait for the renewal loop, at most five seconds. *)
Definition Release (c : Claimer) : prog (Claimer * res release_err unit) :=
  let wid := cl_workerID c in
  if decide (wid = "") then Ret (c, Err ReleaseNotClaimed)
  else
    let c := Close c in
    w ← (if renewStarted c then trigger (Backoff 5000000000) else Ret None);
    match w with
    | Some e => Ret (c, Err (ReleaseCtx e))
    | None =>
        x ← trigger (KvDelete (keyForID wid) (Some (lastRevision c)));
        Ret match x with
            | Err e =>
                if negb (Is e JsErrKeyExists) then (c, Err (DeleteFailed e))
                else (claimed "" (lastRevision c) c, Ok ())
            | Ok _ => (claimed "" (lastRevision c) c, Ok ())
            end
    end.
End claimer.

(** ** Claimers on one bucket *)

Section system.
Context (stamp : Z -> string) (skew : N) (ttl : option Z) (lease : Z).

(** Entries respect the lease, and a claimer only deletes its own. *)
Definition claim_good (l : list msg) (m : msg) : Prop :=
  respects_lease lease l m /\
  (m_body m = Del -> exists m0, last_msg l (m_key m) = Some m0 /\ m_by m0 = m_by m).

Local Notation Inv := (bucket_ok claim_good).

Definition never_deleted (i : nat) (v : view) : Prop :=
  Forall (λ m, m_by m = Some i -> m_body m <> Del) (log v).

(** What a claimer knows: the entry it wrote, and that it deleted nothing before
    it was closed. *)
Definition claimer_ok (i : nat) (c : Claimer) (v : view) : Prop :=
  (cl_workerID c <> "" -> exists m, claims v i (cl_workerID c) (lastRevision c) m) /\
  (closed c = false -> never_deleted i v).

Lemma claimer_ok_others i c v v' : others i v v' -> claimer_ok i c v -> claimer_ok i c v'.
Proof.
  intros O [H1 H2]. split.
  - intros N. destruct (H1 N) as [m Hm]. exists m. eapply claims_later; [|done]. by eapply grows_later.
  - intros C. specialize (H2 C). destruct O as [(l & E & F) _]. unfold never_deleted in *. rewrite E, Forall_app.
    split; [done|]. eapply Forall_impl; [exact F|]. intros m [_ Nm] Bm. by destruct (Nm Bm).
Qed.

Lemma claims_Inv_same v v' : Inv v -> log v' = log v -> (now v <= now v')%Z -> Inv v'.
Proof. apply bucket_same. Qed.

Section wp.
Context (me : nat) (cfg : ClaimerConfig) (stale : (lease + Z.of_N skew <= staleThreshold cfg)%Z).
Local Notation no_deadline := (λ X (o : op X), @None Z).
Local Notation wp := (wp Inv no_deadline me (not_by me)).

(** A write of this claimer: allowed when it does not replace a young entry of
    another process. *)
Lemma wp_put {A} t0 (o : op (res go_error Z)) k s (pre : view -> Prop) (f : res go_error Z -> prog A) Φ c v :
  (forall v1 x v2, effect me o v1 x v2 -> write_spec me (pre v1) k (Put s) eq v1 x v2) ->
  claimer_ok me c v ->
  (forall v1 t m0, others me v v1 -> Inv v1 -> (now v1 <= t)%Z -> pre v1 -> live (log v1) k = Some m0 ->
     m_by m0 <> Some me -> (m_time m0 + lease <= t)%Z) ->
  (forall v1 x v2, others me v v1 -> later v1 v2 -> Inv v2 -> claimer_ok me c v2 ->
     match x with
     | Ok r => exists m, claims v2 me k r m
     | Err e => Is e JsErrKeyExists = true -> log v2 = log v1 /\ ~ pre v1
     end -> wp t0 (f x) Φ v2) ->
  wp t0 (trigger o ≫= f) Φ v.
Proof.
  intros Hw Hc Hpre Hk.
  assert (forall v1 r v2, claimer_ok me c v1 -> appended me v1 k (Put s) r v2 -> later v1 v2 ->
    claimer_ok me c v2 /\ claims v2 me k r (mkMsg r k (now v2) (Put s) (Some me))) as App.
  { intros v1 r v2 [C1 C2] Ap L. split; [split|by eapply appended_claims].
    - intros N. destruct (C1 N) as [m Hm]. exists m. by eapply claims_later.
    - intros C. specialize (C2 C). unfold never_deleted in *. destruct Ap as [-> _].
      by rewrite Forall_app, Forall_singleton. }
  apply wp_op.
  - intros v1 x v2 O L I W _. apply Hw in W. eapply bucket_write; [done|apply L| |exact W|]; [done|].
    intros P r. split; [|done]. cbn. intros m0 L0 B0. by eapply Hpre; [exact O|exact I|apply L|..].
  - intros v1 x v2 O L I W _ I2. pose proof (claimer_ok_others _ _ _ _ O Hc) as C1. apply Hw in W.
    destruct x as [r|e]; simpl in W.
    + destruct W as (r' & _ & <- & Ap). destruct (App _ _ _ C1 Ap L) as [C2 Cl]. apply (Hk v1); eauto.
    + destruct W as [[E Ne]|(Ne & _ & r & Ap)].
      * apply (Hk v1); [done..| |by auto]. apply (claimer_ok_others _ _ v1); [|done].
        apply grows_same; [done|by apply L].
      * destruct (App _ _ _ C1 Ap L) as [C2 _]. apply (Hk v1); [done..|]. rewrite Ne. done.
Qed.

Lemma claimed_ok c v wid r m : claimer_ok me c v -> claims v me wid r m -> claimer_ok me (claimed wid r c) v.
Proof. intros [_ C2] Cl. split; [|done]. intros _. by exists m. Qed.

(** What one attempt leaves: a claim of this ID, or the claimer as it was. *)
Definition attempt_post (c : Claimer) (wid : string) (r : res claim_err (option Claimer)) (v : view) : Prop :=
  match r with
  | Ok (Some c') => claimer_ok me c' v
  | _ => claimer_ok me c v
  end.

Lemma attempt_written t0 c wid (e : go_error -> claim_err) v1 x v2 (pre : Prop) :
  Inv v2 -> claimer_ok me c v2 ->
  match x with
  | Ok r => exists m, claims v2 me wid r m
  | Err er => Is er JsErrKeyExists = true -> log v2 = log v1 /\ ~ pre
  end ->
  wp t0 (Ret match x with
             | Ok r => Ok (Some (claimed wid r c))
             | Err er => if Is er JsErrKeyExists then Ok None else Err (e er)
             end) (attempt_post c wid) v2.
Proof.
  intros I C Hx v3 O _. apply (claimer_ok_others _ _ _ _ O) in C as C3. destruct x as [r|er]; simpl.
  - destruct Hx as [m Hm]. eapply claimer_ok_others; [done|]. by eapply claimed_ok.
  - by destruct (Is er JsErrKeyExists).
Qed.

Lemma wp_retry_create t0 wid value c v :
  claimer_ok me c v -> wp t0 (retry_create wid value c) (attempt_post c wid) v.
Proof.
  intros C. unfold retry_create, keyForID.
  eapply (wp_put _ _ wid value (λ v1, live (log v1) wid = None)); [by intros ? ? ? [W _]|done| |].
  - intros v1 t m0 _ _ _ L L'. congruence.
  - intros v1 x v2 _ _ I2 C2 Hx. by eapply attempt_written.
Qed.

Lemma stale_old n t : (time_sub n t > staleThreshold cfg)%Z -> (t + lease + Z.of_N skew <= n)%Z.
Proof.
  intros St. assert (0 < staleThreshold cfg)%Z; [|unfold time_sub in St; lia].
  unfold staleThreshold, renewInterval, minRenewInterval. lia.
Qed.

Lemma wp_take_over t0 wid value c v v0 m :
  claimer_ok me c v -> later v0 v -> live (log v0) wid = Some m -> wp t0 (take_over cfg skew wid value (entry_of m) c) (attempt_post c wid) v.
Proof.
  intros C L0 Lv. unfold take_over. apply wp_quiet; [apply claims_Inv_same|done|].
  intros n v1 O1 I1 (v1' & _ & _ & (_ & _ & Hn) & _).
  unfold isStale. case_bool_decide as St.
  2: { intros v2 O2 _. eapply claimer_ok_others; [|done]. by etrans. }
  apply stale_old in St. simpl in St. unfold keyForID.
  eapply (wp_put _ _ wid value (λ v1, last_rev (log v1) wid = m_rev m)); [by intros ? ? ? [W _]| | |].
  - by eapply claimer_ok_others.
  - intros v2 t m0 O2 [S2 _] Ht R L2 B2.
    assert (later v0 v2) as [(l & El & _) _].
    { etrans; [done|]. etrans; eapply grows_later; done. }
    destruct (live_elem _ _ _ Lv) as [Hm Km]. rewrite El in *.
    destruct (list_elem_of_split _ _ Hm) as (l1 & l2 & E12).
    assert (last_msg (log v0 ++ l) wid = Some m) as Lm.
    { apply (stream_last_rev claim_good); [done|set_solver| |done].
      rewrite E12, <-app_assoc in S2. destruct (stream_at _ _ _ _ S2) as (Nm & _). unfold numbered in Nm.
      destruct (live_put _ _ _ Lv) as [s Es]. destruct (m_by m); [by apply Nm|]. destruct Nm as [_ Nm]. congruence. }
    unfold live in L2. rewrite Lm in L2. simpl in L2. destruct (is_put m); simplify_eq.
    destruct O2 as [_ O2]. lia.
  - intros v2 x v3 _ _ I3 C3 Hx. by eapply attempt_written.
Qed.

Lemma wp_try_id t0 id c v : claimer_ok me c v -> wp t0 (try_id stamp cfg skew id c) (attempt_post c (workerID_of cfg id)) v.
Proof.
  intros C. unfold try_id, keyForID. apply wp_quiet; [apply claims_Inv_same|done|]. intros ctx v1 O1 I1 _.
  apply (claimer_ok_others _ _ _ _ O1) in C. destruct ctx as [e|].
  { intros v2 O2 _. by eapply claimer_ok_others. }
  apply wp_quiet; [apply claims_Inv_same|done|]. intros t v2 O2 I2 _. apply (claimer_ok_others _ _ _ _ O2) in C.
  set (wid := workerID_of cfg id).
  eapply (wp_put _ _ wid (stamp t) (λ v1, live (log v1) wid = None)); [by intros ? ? ? [W _]|done| |].
  { intros v3 t' m0 _ _ _ L L'. congruence. }
  intros v3 x v4 _ _ I4 C4 Hx. destruct x as [r|e].
  { destruct Hx as [m Hm]. intros v5 O5 _. eapply claimer_ok_others; [done|]. by eapply claimed_ok. }
  destruct (Is e JsErrKeyExists); cbn [negb]; [|intros v5 O5 _; by eapply claimer_ok_others].
  apply wp_quiet; [apply claims_Inv_same|done|]. intros g v5 O5 I5 (v5' & _ & _ & (El & _ & Hg) & _).
  apply (claimer_ok_others _ _ _ _ O5) in C4. destruct g as [en|e']; [|by apply wp_retry_create].
  destruct Hg as (m & L & ->). apply (wp_take_over _ _ _ _ _ v5); [done..|]. by rewrite El.
Qed.

Lemma wp_Claim t0 c v : claimer_ok me c v -> Inv v -> wp t0 (Claim stamp cfg skew c) (λ r v', claimer_ok me r.1 v') v.
Proof.
  unfold Claim. generalize (seqZ (cl_minID cfg) (cl_maxID cfg - cl_minID cfg + 1)). intros ids C I.
  induction ids as [|id ids IH] in v, C, I |- *; cbn [claim_loop].
  { intros v1 O1 _. by eapply claimer_ok_others. }
  apply wp_bind; [|done]. eapply wp_mono; [by apply wp_try_id|]. intros [[c'|]|e] v1 _ I1 C1; cbn in C1.
  - intros v2 O2 _. by eapply claimer_ok_others.
  - by apply IH.
  - intros v2 O2 _. by eapply claimer_ok_others.
Qed.

(** At the revision this claimer remembers, the entry is its own. *)
Lemma own_entry c v k m0 :
  Inv v -> claimer_ok me c v -> cl_workerID c <> "" -> last_rev (log v) k = lastRevision c ->
  last_msg (log v) k = Some m0 -> m_by m0 = Some me.
Proof.
  intros I [C _] N R L. destruct (C N) as (m & Cl). pose proof (claims_pos _ _ _ _ _ _ I Cl) as P.
  destruct Cl as (Hm & Rm & _ & B & _). destruct I as [S _].
  rewrite (stream_last_rev claim_good _ _ m S Hm) in L by lia. by simplify_eq.
Qed.

Lemma wp_renew t0 c v : claimer_ok me c v -> wp t0 (renew stamp skew c) (λ r v', claimer_ok me r.1 v') v.
Proof.
  intros C. unfold renew, keyForID. case_decide as N; [intros v1 O1 _; by eapply claimer_ok_others|].
  apply wp_quiet; [apply claims_Inv_same|done|]. intros t v1 O1 I1 _. apply (claimer_ok_others _ _ _ _ O1) in C.
  eapply (wp_put _ _ (cl_workerID c) (stamp t) (λ v1, last_rev (log v1) (cl_workerID c) = lastRevision c));
    [by intros ? ? ? [W _]|done| |].
  - intros v2 t' m0 O2 I2 _ R L B. destruct B. unfold live in L. destruct (last_msg _ _) as [m'|] eqn:E; [|done].
    simpl in L. destruct (is_put m'); simplify_eq.
    eapply (own_entry c v2); [done| |done..]. by eapply claimer_ok_others.
  - intros v2 x v3 _ _ I3 C3 Hx v4 O4 _. destruct x as [r|e]; cbn; (eapply claimer_ok_others; [done|]); [|done].
    destruct Hx as [m Hm]. by eapply claimed_ok.
Qed.

Lemma wp_tick t0 c v : claimer_ok me c v -> Inv v -> wp t0 (renewalLoop_tick stamp skew c) (λ c' v', claimer_ok me c' v') v.
Proof.
  intros C I. unfold renewalLoop_tick.
  destruct (negb _ || _); [intros v1 O1 _; by eapply claimer_ok_others|].
  destruct (closed c) eqn:Ec.
  { intros v1 O1 _. apply (claimer_ok_others _ _ _ _ O1) in C. destruct C as [C1 C2]. split; [exact C1|done]. }
  apply wp_bind; [|done]. eapply wp_mono; [by apply wp_renew|]. intros [c' r] v1 _ I1 C1 v2 O2 _. cbn in C1.
  apply (claimer_ok_others _ _ _ _ O2) in C1. destruct r as [?|[| |]]; [done..| |done].
  destruct C1 as [C1 C2]. by split.
Qed.

Lemma wp_Release t0 c v : claimer_ok me c v -> Inv v -> wp t0 (Release c) (λ r v', claimer_ok me r.1 v') v.
Proof.
  intros C I. unfold Release, keyForID. case_decide as N; [intros v1 O1 _; by eapply claimer_ok_others|].
  assert (forall v', others me v v' -> claimer_ok me (Close c) v') as Cl.
  { intros v' O. apply (claimer_ok_others _ _ _ _ O) in C. destruct C as [C1 _]. by split. }
  set (c1 := Close c) in *. assert (closed c1 = true) as Ec by done. assert (cl_workerID c1 <> "") as N1 by done.
  change (lastRevision c) with (lastRevision c1). change (cl_workerID c) with (cl_workerID c1). clearbody c1.
  apply wp_bind; [|done].
  assert (forall v', others me v v' -> Inv v' -> wp t0
    (x ← trigger (KvDelete (cl_workerID c1) (Some (lastRevision c1)));
     Ret match x with
         | Err e => if negb (Is e JsErrKeyExists) then (c1, Err (DeleteFailed e))
                    else (claimed "" (lastRevision c1) c1, Ok ())
         | Ok _ => (claimed "" (lastRevision c1) c1, Ok ())
         end) (λ r v', claimer_ok me r.1 v') v') as Del.
  { intros v1 O1 I1. apply wp_op.
    - intros v2 x v3 O2 L2 I2 [W _] _. eapply bucket_write; [done|apply L2| |exact W|]; [done|]. intros R r.
      split; [done|]. intros _. destruct (last_msg (log v2) (cl_workerID c1)) as [m0|] eqn:E.
      + exists m0. split; [done|]. cbn. eapply (own_entry c1 v2); [done| |done..]. apply Cl. by etrans.
      + exfalso. assert (claimer_ok me c1 v2) as [C2 _] by (apply Cl; by etrans).
        destruct (C2 N1) as (m & (Hm & _ & K & _)). destruct (last_msg_exists _ _ _ Hm K) as [? ?]. congruence.
    - intros v2 x v3 O2 L2 I2 W _ I3 v4 O4 _.
      assert (claimer_ok me c1 v4) as [C4 _].
      { assert (claimer_ok me c1 v2) as [C2 _] by (apply Cl; by etrans). split; [|by rewrite Ec].
        intros _. destruct (C2 N1) as [m Hm]. exists m. eapply claims_later; [|done].
        etrans; [done|]. by eapply grows_later. }
      assert (claimer_ok me c1 v4) by by split; [|rewrite Ec].
      assert (claimer_ok me (claimed "" (lastRevision c1) c1) v4) by by split; [|cbn; rewrite Ec].
      repeat case_match; done. }
  destruct (renewStarted c1).
  - apply wp_quiet; [apply claims_Inv_same|done|]. intros w v1 O1 I1 _ v2 O2 I2. destruct w as [e|].
    + intros v3 O3 _. apply Cl. by do 2 (etrans; [done|]).
    + apply Del; [by etrans|done].
  - intros v1 O1 I1. by apply Del.
Qed.
End wp.

Definition worker : Type := ClaimerConfig * Claimer.

Inductive boot (i : nat) : worker -> Prop :=
| boot_claimer cfg : (lease + Z.of_N skew <= staleThreshold cfg)%Z -> boot i (cfg, NewClaimer).

Inductive call : worker -> prog worker -> Prop :=
| call_claim cfg c : call (cfg, c) (r ← Claim stamp cfg skew c; Ret (cfg, r.1))
| call_start cfg c : call (cfg, c) (Ret (cfg, (StartRenewal c).1))
| call_tick cfg c : call (cfg, c) (c' ← renewalLoop_tick stamp skew c; Ret (cfg, c'))
| call_release cfg c : call (cfg, c) (r ← Release c; Ret (cfg, r.1))
| call_close cfg c : call (cfg, c) (Ret (cfg, Close c)).

Definition worker_ok (i : nat) (s : worker) (v : view) : Prop :=
  (lease + Z.of_N skew <= staleThreshold s.1)%Z /\ claimer_ok i s.2 v.

Lemma worker_ok_call i s m v :
  call s m -> worker_ok i s v -> Inv v -> wp Inv (λ _ _, None) i (not_by i) (now v) m (worker_ok i) v.
Proof.
  intros C [St Ok] I.
  assert (forall {A} (m : prog A) (f : A -> Claimer),
    wp Inv (λ _ _, None) i (not_by i) (now v) m (λ a v', claimer_ok i (f a) v') v ->
    wp Inv (λ _ _, None) i (not_by i) (now v) (a ← m; Ret (s.1, f a)) (worker_ok i) v) as Then.
  { intros A m' f W. apply wp_bind; [|done]. eapply wp_mono; [exact W|]. intros a v1 _ _ Oa v2 O2 _.
    split; [done|]. by eapply claimer_ok_others. }
  destruct C as [cfg c|cfg c|cfg c|cfg c|cfg c]; cbn [fst snd] in *.
  - by apply (Then _ _ fst), (wp_Claim _ _ St).
  - intros v1 O1 _. apply (claimer_ok_others _ _ _ _ O1) in Ok. split; [done|]. cbn. unfold StartRenewal.
    destruct (decide _); [done|]. destruct (closed c) eqn:Ec; [done|]. destruct (renewStarted c); [done|].
    destruct Ok as [C1 C2]. split; [exact C1|]. cbn. by rewrite Ec in C2.
  - by apply (Then _ _ id), wp_tick.
  - by apply (Then _ _ fst), wp_Release.
  - intros v1 O1 _. apply (claimer_ok_others _ _ _ _ O1) in Ok as [C1 _]. split; [done|]. by split.
Qed.

(** Executions from an empty bucket whose entries expire after [ttl], if they do. *)
Definition reaches {W} `{!Env ttl W} (w0 w : W) (ps : list (process worker)) : Prop :=
  log (observe w0) = [] /\ rtc (sys_step (λ _ _, None) boot call) (w0, []) (w, ps).

Lemma claimer_reaches_ok {W} `{!Env ttl W} (w0 w : W) ps :
  (forall d, ttl = Some d -> (lease <= d)%Z) -> reaches w0 w ps ->
  sys_inv (λ _ _, None) Inv worker_ok (w, ps).
Proof.
  intros Ht [E R]. eapply (adequacy (λ _ _, None) boot call); [..|exact R].
  - intros i s v v' O [? ?]. split; [done|by eapply claimer_ok_others].
  - intros i s v [cfg Hcfg] F. split; [done|]. split; [done|]. intros _. unfold never_deleted.
    eapply Forall_impl; [exact F|]. done.
  - apply worker_ok_call.
  - intros v v'. apply bucket_expires. intros l m0 t L (d & Ed & Old). split; [|done]. cbn. intros m1 L1.
    rewrite L in L1. injection L1 as <-. specialize (Ht d Ed). lia.
  - split; rewrite E; [constructor|done].
Qed.
End system.

(** C38. A stable ID has one holder at a time, for workers whose clocks are at most
    [skew] off the server's. Whatever the interleaving of
    claims, takeovers of stale entries, renewals, releases, crashes, expiries and
    failed calls whose writes may have landed: when two claimers that have not
    been closed both carry the same worker ID, the entries they wrote for it are
    at least [lease] apart on the server's clock, where [lease] and the skew together
    are at most the takeover thresholds of all workers, and [lease] at most the expiry
    of the bucket. So at most one of them renewed its claim within the lease; with a
    skew of the whole threshold nothing is left of it. *)
Theorem stable_id_exclusive (stamp : Z -> string) (skew : N) (ttl : option Z) (lease : Z) {W : Type} `{!Env ttl W}
    (w0 w : W) (ps : list (process worker)) i j cfg1 c1 cfg2 c2
    (Httl : forall d, ttl = Some d -> (lease <= d)%Z)
    (Hreach : reaches stamp skew ttl lease w0 w ps)
    (Hi : (i, Idle (cfg1, c1)) ∈ ps) (Hj : (j, Idle (cfg2, c2)) ∈ ps) (Hij : i <> j)
    (Hopen1 : closed c1 = false) (Hopen2 : closed c2 = false)
    (Hsame : cl_workerID c1 = cl_workerID c2) (Hheld : cl_workerID c1 <> "") :
  exists m1 m2, claims (observe w) i (cl_workerID c1) (lastRevision c1) m1 /\
    claims (observe w) j (cl_workerID c1) (lastRevision c2) m2 /\
    (m_time m1 + lease <= m_time m2 \/ m_time m2 + lease <= m_time m1)%Z.
Proof.
  apply claimer_reaches_ok in Hreach as ([S _] & _ & F); [|done]. rewrite Forall_forall in F. cbn [fst snd] in *.
  destruct (F _ Hi) as [_ [C1 D1]], (F _ Hj) as [_ [C2 D2]]. cbn [fst snd] in *.
  rewrite <-Hsame in C2. destruct (C1 Hheld) as [m1 Hm1], (C2 Hheld) as [m2 Hm2]. exists m1, m2.
  split_and!; [done..|].
  assert (forall a m, m_by m = Some a -> Forall (λ m, m_by m = Some a -> m_body m <> Del) (log (observe w)) ->
    ~ revoked (log (observe w)) m) as NoRev.
  { intros a m Ba Fa (l1 & d & l2 & m0 & E & _ & K & B & L & B0 & _). rewrite E in S, Fa.
    destruct (stream_at _ _ _ _ S) as (_ & _ & _ & G). rewrite K in G. destruct (G B) as (m' & L' & B').
    unfold live in L. rewrite L' in L. cbn in L. destruct (is_put m'); simplify_eq.
    rewrite Forall_app, Forall_cons in Fa. destruct Fa as (_ & Fd & _). apply Fd; [congruence|done]. }
  destruct Hm1 as (? & ? & ? & ? & ?), Hm2 as (? & ? & ? & ? & ?).
  assert (forall l m, claim_good lease l m -> respects_lease lease l m) as Gl by by intros ? ? [].
  destruct (Z.le_gt_cases (m_rev m1) (m_rev m2)) as [R|R].
  - left. destruct (entries_exclusive _ lease Gl _ (cl_workerID c1) i j m1 m2 S) as [?|Rv]; try done.
    exfalso. apply (NoRev i m1); [done|by apply D1|done].
  - right. destruct (entries_exclusive _ lease Gl _ (cl_workerID c1) j i m2 m1 S) as [?|Rv]; try done; [lia|].
    exfalso. apply (NoRev j m2); [done|by apply D2|done].
Qed.

(** A claim, and a takeover by a second worker a second later. *)
Definition demo_stamp (t : Z) : string := "t".
Definition demo_skew : N := 50000000.
Definition demo_cfg : ClaimerConfig := mkClaimerConfig "w" 0 0 300000000.

Definition demo_claim (i : nat) (delay : Z) (v : view) : option (worker * view) :=
  run_after delay (λ _ _, None) i (now v) (r ← Claim demo_stamp demo_cfg demo_skew NewClaimer; Ret (demo_cfg, r.1)) v.

Lemma demo_claim_reach w0 v ps i delay s v' :
  (0 <= delay)%Z -> i ∉ ps.*1 -> Forall (λ m, m_by m <> Some i) (log v) ->
  reaches demo_stamp demo_skew (Some 2000000000%Z) 250000000 (W := view) w0 v ps ->
  demo_claim i delay v = Some (s, v') ->
  reaches demo_stamp demo_skew (Some 2000000000%Z) 250000000 (W := view) w0 v' ((i, Idle s) :: ps).
Proof.
  intros Hd Hi F [E R] C. split; [exact E|]. etrans; [exact R|].
  eapply rtc_l; [apply sys_boot; [by apply (boot_claimer _ _ i demo_cfg)|exact Hi|exact F]|].
  eapply rtc_l; [apply (sys_call _ _ _ _ [] ps i (demo_cfg, NewClaimer)); exact (call_claim demo_stamp demo_skew demo_cfg NewClaimer)|].
  exact (run_after_steps delay _ _ _ i (now v) _ v s v' [] ps Hd C).
Qed.

Lemma stable_id_exclusive_witness :
  exists v m1 m2, claims v 1 "w-0" 1 m1 /\ claims v 2 "w-0" 2 m2 /\
    (m_time m1 + 250000000 <= m_time m2 \/ m_time m2 + 250000000 <= m_time m1)%Z.
Proof.
  assert (exists s1 v1 s2 v2, demo_claim 1 0 (mkView [] 0 ∅) = Some (s1, v1) /\
    demo_claim 2 1000000000 v1 = Some (s2, v2) /\
    s1.2 = mkClaimer "w-0" 1 false false false /\ s2.2 = mkClaimer "w-0" 2 false false false /\
    Forall (λ m, m_by m <> Some 2) (log v1)) as (s1 & v1 & s2 & v2 & E1 & E2 & C1 & C2 & F).
  { do 4 eexists. split; [vm_compute; reflexivity|]. split; [vm_compute; reflexivity|].
    split_and!; [reflexivity..|]. by apply Forall_singleton. }
  destruct s1 as [cfg1 c1], s2 as [cfg2 c2]. cbn in C1, C2. subst c1 c2.
  exists v2. refine (stable_id_exclusive demo_stamp demo_skew (Some 2000000000%Z) 250000000 (W := view) (mkView [] 0 ∅) v2
    [(2, Idle (cfg2, mkClaimer "w-0" 2 false false false)); (1, Idle (cfg1, mkClaimer "w-0" 1 false false false))]
    1 2 cfg1 (mkClaimer "w-0" 1 false false false) cfg2 (mkClaimer "w-0" 2 false false false)
    _ _ _ _ _ eq_refl eq_refl eq_refl _).
  - by intros d [= <-].
  - refine (demo_claim_reach _ _ _ _ _ _ _ _ _ F _ E2); [done|set_solver|].
    refine (demo_claim_reach _ _ _ _ _ _ _ _ _ _ _ E1); [done|apply not_elem_of_nil|by constructor|]. by split; [|apply rtc_refl].
  - right. left.
  - left.
  - done.
  - done.
Defined.

(** ** Which ID a claim takes *)

Section first_free.
Context (stamp : Z -> string) (skew : N) (cfg : ClaimerConfig) (me : nat).

(** The ID was held at some instant between [v] and [v']. *)
Definition taken (v v' : view) (id : Z) : Prop :=
  exists v1, later v v1 /\ later v1 v' /\ is_Some (live (log v1) (workerID_of cfg id)).

Lemma taken_mono v0 v v' v1 id : later v0 v -> later v' v1 -> taken v v' id -> taken v0 v1 id.
Proof. intros L1 L2 (u & La & Lb & H). exists u. split_and!; [by etrans..|done]. Qed.

Local Notation wp := (wp (λ _, True) (λ _ _, None) me anyone).

Definition attempt_result (c : Claimer) (id : Z) (v : view) (r : res claim_err (option Claimer)) (v' : view) : Prop :=
  match r with
  | Ok (Some c') =>
      cl_workerID c' = workerID_of cfg id /\ exists m, claims v' me (workerID_of cfg id) (lastRevision c') m
  | Ok None => taken v v' id
  | Err e => e <> ErrNoAvailableID
  end.

Lemma attempt_wrote c id (e : go_error -> claim_err) s k v v0 x v1 (pre : Prop) :
  (forall er, e er <> ErrNoAvailableID) -> k = workerID_of cfg id ->
  write_spec me pre k (Put s) eq v x v1 -> (taken v0 v1 id) ->
  wp 0 (Ret match x with
            | Ok r => Ok (Some (claimed k r c))
            | Err er => if Is er JsErrKeyExists then Ok None else Err (e er)
            end) (attempt_result c id v0) v1.
Proof.
  intros He -> W Tk v2 L2 _. destruct x as [r|er]; cbn.
  - split; [done|]. destruct W as (r' & _ & <- & Ap). eexists. eapply claims_later; [done|]. by eapply appended_claims.
  - destruct (Is er JsErrKeyExists); [|apply He]. eapply taken_mono; [|exact L2|done]. done.
Qed.

Lemma wp_try_id_result c id v : wp 0 (try_id stamp cfg skew id c) (attempt_result c id v) v.
Proof.
  unfold try_id, keyForID. set (wid := workerID_of cfg id).
  apply wp_quiet; [done..|]. intros ctx v1 L1 _ _. destruct ctx as [e|]; [by intros v2 _ _|].
  apply wp_quiet; [done..|]. intros t v2 L2 _ _.
  apply wp_op; [done|]. intros v3 x v4 L3 L4 _ [W _] _ _. destruct x as [r|e].
  { destruct W as (r' & _ & <- & Ap). intros v5 L5 _. split; [done|]. eexists. eapply claims_later; [exact L5|].
    by eapply appended_claims. }
  destruct (Is e JsErrKeyExists) eqn:Ke; cbn [negb]; [|by intros v5 _ _].
  assert (taken v v4 id) as Tk.
  { destruct W as [[E N]|[? _]]; [|congruence]. exists v3. split_and!; [by do 2 (etrans; [done|])|done|].
    destruct (live (log v3) wid) eqn:L; [by eauto|]. by destruct (N Ke). }
  apply wp_quiet; [done..|]. intros g v5 L5 _ (v5' & _ & _ & (El & _ & Hg) & _).
  assert (taken v v5 id) as Tk5 by (eapply taken_mono; [|exact L5|done]; done).
  destruct g as [en|e'].
  - unfold take_over, keyForID. apply wp_quiet; [done..|]. intros n v6 L6 _ _.
    assert (taken v v6 id) as Tk6 by (eapply taken_mono; [|exact L6|done]; done).
    destruct (isStale cfg n en); [|intros v7 L7 _; eapply taken_mono; [|exact L7|done]; done].
    apply wp_op; [done|]. intros v7 x v8 L7 L8 _ [W' _] _ _. eapply attempt_wrote; [done|done|exact W'|].
    eapply taken_mono; [|etrans; [exact L7|exact L8]|done]. done.
  - unfold retry_create, keyForID. apply wp_op; [done|]. intros v7 x v8 L7 L8 _ [W' _] _ _.
    eapply attempt_wrote; [done|done|exact W'|].
    eapply taken_mono; [|etrans; [exact L7|exact L8]|done]. done.
Qed.

Definition claim_result (ids : list Z) (v : view) (r : Claimer * res claim_err string) (v' : view) : Prop :=
  match r.2 with
  | Ok wid =>
      exists ids1 id ids2, ids = ids1 ++ id :: ids2 /\ wid = workerID_of cfg id /\ cl_workerID r.1 = wid /\
        (exists m, claims v' me wid (lastRevision r.1) m) /\ Forall (taken v v') ids1
  | Err ErrNoAvailableID => Forall (taken v v') ids
  | Err _ => True
  end.

Lemma wp_claim_loop_result ids c v : wp 0 (claim_loop stamp cfg skew ids c) (claim_result ids v) v.
Proof.
  induction ids as [|id ids IH] in v |- *; cbn [claim_loop]; [intros v1 _ _; by constructor|].
  apply wp_bind; [|done]. eapply wp_mono; [apply wp_try_id_result|].
  intros [[c'|]|e] v1 L1 _ A; cbn in A.
  - destruct A as [Ew [m Cm]]. intros v2 L2 _. exists [], id, ids. rewrite Ew. cbn. split_and!; try done.
    exists m. by eapply claims_later.
  - eapply wp_mono; [apply IH|]. intros [c2 [wid|e]] v2 L2 _ R; unfold claim_result in *; cbn [fst snd] in *.
    + destruct R as (ids1 & id' & ids2 & -> & ? & ? & ? & F). exists (id :: ids1), id', ids2. split_and!; try done.
      constructor; [by apply (taken_mono v v v1 v2)|]. eapply Forall_impl; [exact F|]. intros a. by apply taken_mono.
    + destruct e; try done. constructor; [by apply (taken_mono v v v1 v2)|].
      eapply Forall_impl; [exact R|]. intros a. by apply taken_mono.
  - intros v2 _ _. unfold claim_result. cbn. by destruct e.
Qed.
End first_free.

(** [Claim] takes the first free ID of the pool: in every execution, with any
    other activity in between, an ID it returns is in the pool, the claimer
    wrote the entry at the revision it remembers, and every smaller ID was held
    at some instant of the call; it reports that no ID is available only when
    every ID of the pool was held at some instant of the call. *)
Theorem Claim_takes_first_free stamp skew cfg me c v c' r v'
    (Hrun : runs me (Claim stamp cfg skew c) v (c', r) v') :
  match r with
  | Ok wid =>
      exists id, (cl_minID cfg <= id <= cl_maxID cfg)%Z /\ wid = workerID_of cfg id /\ cl_workerID c' = wid /\
        (exists m, claims v' me wid (lastRevision c') m) /\
        forall id', (cl_minID cfg <= id' < id)%Z -> taken cfg v v' id'
  | Err ErrNoAvailableID => forall id, (cl_minID cfg <= id <= cl_maxID cfg)%Z -> taken cfg v v' id
  | Err _ => True
  end.
Proof.
  eapply wp_runs in Hrun; [|apply wp_claim_loop_result]. unfold claim_result in Hrun. cbn [fst snd] in Hrun.
  destruct r as [wid|e].
  - destruct Hrun as (ids1 & id & ids2 & E & ? & ? & ? & F). exists id.
    assert (id ∈ seqZ (cl_minID cfg) (cl_maxID cfg - cl_minID cfg + 1)) as Hin by (rewrite E; set_solver).
    rewrite elem_of_seqZ in Hin. split_and!; [lia..|done|done|done|].
    intros id' Hid. rewrite Forall_forall in F. apply F.
    assert (id = cl_minID cfg + Z.of_nat (length ids1))%Z as Ei.
    { assert (seqZ (cl_minID cfg) (cl_maxID cfg - cl_minID cfg + 1) !! length ids1 = Some id) as Hl
        by by rewrite E, list_lookup_middle.
      apply lookup_seqZ in Hl as [? ?]. lia. }
    apply list_elem_of_lookup. exists (Z.to_nat (id' - cl_minID cfg)).
    assert ((ids1 ++ id :: ids2) !! Z.to_nat (id' - cl_minID cfg) = Some id') as Hl.
    { rewrite <-E. apply lookup_seqZ. lia. }
    rewrite lookup_app_l in Hl by lia. done.
  - destruct e; try done. intros id Hid. rewrite Forall_forall in Hrun. apply Hrun. rewrite elem_of_seqZ. lia.
Qed.

Lemma Claim_takes_first_free_witness :
  exists v v', runs 7 (Claim demo_stamp demo_cfg demo_skew NewClaimer) v (mkClaimer "w-0" 1 false false false, Ok "w-0") v' /\
    exists id, (0 <= id <= 0)%Z /\ "w-0" = workerID_of demo_cfg id.
Proof.
  exists (mkView [] 0 ∅), (mkView [mkMsg 1 "w-0" 3 (Put "t") (Some 7)] 3 ∅).
  assert (runs 7 (Claim demo_stamp demo_cfg demo_skew NewClaimer) (mkView [] 0 ∅)
    (mkClaimer "w-0" 1 false false false, Ok "w-0") (mkView [mkMsg 1 "w-0" 3 (Put "t") (Some 7)] 3 ∅)) as R.
  { refine (runs_op 7 CtxErr _ None _ (mkView [] 0 ∅) (mkView [] 1 ∅) _ _ ltac:(done) ltac:(done) _).
    refine (runs_op 7 (Now (Within demo_skew)) _ 2%Z _ (mkView [] 1 ∅) (mkView [] 2 ∅) _ _ ltac:(done) ltac:(done) _).
    refine (runs_op 7 (KvCreate "w-0" "t") _ (Ok 1%Z) _ (mkView [] 2 ∅) _ _ _ ltac:(done) _ (runs_ret _ _ _ _ _));
      [|reflexivity].
    split; [done|]. split; [|done]. exists 1%Z. split_and!; [done..|]. by split_and!. }
  split; [exact R|]. destruct (Claim_takes_first_free _ _ _ _ _ _ _ _ _ R) as (id & Hid & E & _).
  by exists id.
Defined.
