(* ===== verification/Election.v ===== *)
(** * Leader election (internal/election/nats_election.go)

    One key of a bucket with a short time to live names the leader. An election
    agent is a process of the bucket; the methods that change its fields run one at
    a time, and set them when they return (a renewal that fails inside
    [RequestLeadership] clears them before), while [CheckLeadership] reads them at any
    time and may find, when its live read is answered, that all of this has moved on.
    Worker IDs may be used again by later processes. *)
From S2P Require Import Prelude Nats KV Lease.

Record NATSElection := mkElection {
  el_isLeader : bool;
  el_workerID : string;
  el_revision : Z;
  el_termRevision : Z;
}.

Definition NewNATSElection : NATSElection := mkElection false "" 0 0.

Inductive mismatch :=
| ClaimedZero | NotHeld | TermMismatch (claimed term : Z) | KeyAbsent
| LiveBelowClaimed (claimed live : Z) | LiveLeader (value : string).

Inductive election_err :=
| ErrInvalidDuration
| ErrNotLeader
| ErrLeadershipLost (e : go_error)
| CreateFailed (e : go_error)
| DeleteFailed (e : go_error)
| GetFailed (e : go_error)
| ErrLeadershipRevisionMismatch (d : mismatch).

Definition clearLeadership (e : NATSElection) : NATSElection := mkElection false "" 0 0.

(** [<workerID>:<unix seconds>] *)
Definition leader_value (workerID : string) (now : Z) : string :=
  workerID +:+ ":" +:+ pretty (now / 1000000000)%Z.

Definition is_ctx (e : go_error) : bool := Is e ContextCanceled || Is e ContextDeadlineExceeded.

Section election.
Context (key : string).

Definition RenewLeadership (e : NATSElection) : prog (NATSElection * option election_err) :=
  if negb (el_isLeader e) then Ret (e, Some ErrNotLeader)
  else
    t ← trigger (Now WallClock);
    x ← trigger (KvUpdate key (leader_value (el_workerID e) t) (el_revision e));
    Ret match x with
        | Err er => (if negb (is_ctx er) then clearLeadership e else e, Some (ErrLeadershipLost er))
        | Ok newRevision => (mkElection (el_isLeader e) (el_workerID e) newRevision (el_termRevision e), None)
        end.

(** [Create] with the worker's name, after a failed renewal or without one. *)
Definition acquire (workerID : string) (e : NATSElection) : prog (NATSElection * res election_err bool) :=
  t ← trigger (Now WallClock);
  x ← trigger (KvCreate key (leader_value workerID t));
  Ret match x with
      | Err er => (e, if Is er JsErrKeyExists then Ok false else Err (CreateFailed er))
      | Ok revision => (mkElection true workerID revision revision, Ok true)
      end.

Definition RequestLeadership (workerID : string) (leaseDuration : Z) (e : NATSElection) :
    prog (NATSElection * res election_err bool) :=
  if decide (leaseDuration <= 0)%Z then Ret (e, Err ErrInvalidDuration)
  else if el_isLeader e && bool_decide (el_workerID e = workerID) then
    '(e, r) ← RenewLeadership e;
    match r with
    | None => Ret (e, Ok true)
    | Some err =>
        if match err with ErrLeadershipLost er => is_ctx er | _ => false end then Ret (e, Err err)
        else acquire workerID (clearLeadership e)
    end
  else acquire workerID e.

Definition ReleaseLeadership (e : NATSElection) : prog (NATSElection * option election_err) :=
  if negb (el_isLeader e) then Ret (e, Some ErrNotLeader)
  else
    x ← trigger (KvDelete key None);
    Ret match x with
        | Err er => if negb (Is er JsErrKeyNotFound) then (e, Some (DeleteFailed er)) else (clearLeadership e, None)
        | Ok _ => (clearLeadership e, None)
        end.

Definition IsLeader (e : NATSElection) : prog (NATSElection * res election_err bool) :=
  if negb (el_isLeader e) then Ret (e, Ok false)
  else
    x ← trigger (KvGet key);
    Ret match x with
        | Err er =>
            if Is er JsErrKeyNotFound then (clearLeadership e, Ok false) else (e, Err (GetFailed er))
        | Ok entry =>
            if decide (e_revision entry = el_revision e) then (e, Ok true) else (clearLeadership e, Ok false)
        end.

Definition Revision (e : NATSElection) : Z := el_termRevision e.

(** The checks on the cached state, and on the answer of the live read. *)
Definition check_local (claimed : Z) (e : NATSElection) : option mismatch :=
  if decide (claimed = 0)%Z then Some ClaimedZero
  else if bool_decide (el_workerID e = "") || bool_decide (el_termRevision e = 0)%Z then Some NotHeld
  else if decide (claimed <> el_termRevision e) then Some (TermMismatch claimed (el_termRevision e))
  else None.

Definition check_live (claimed : Z) (e : NATSElection) (x : res go_error entry) : option election_err :=
  match x with
  | Err er =>
      Some (if Is er JsErrKeyNotFound then ErrLeadershipRevisionMismatch KeyAbsent else GetFailed er)
  | Ok entry =>
      if decide (e_revision entry < claimed)%Z
      then Some (ErrLeadershipRevisionMismatch (LiveBelowClaimed claimed (e_revision entry)))
      else if String.prefix (el_workerID e +:+ ":") (e_value entry) then None
      else Some (ErrLeadershipRevisionMismatch (LiveLeader (e_value entry)))
  end.

Definition CheckLeadership (claimed : Z) (e : NATSElection) : prog (option election_err) :=
  match check_local claimed e with
  | Some d => Ret (Some (ErrLeadershipRevisionMismatch d))
  | None => x ← trigger (KvGet key); Ret (check_live claimed e x)
  end.
End election.

(** ** Agents on one bucket *)

Section system.
Context (key : string) (name : nat -> string) (ttl : option Z) (lease : Z).

(** Entries name their writer, and only the writer replaces a current one. *)
Definition election_good (l : list msg) (m : msg) : Prop :=
  respects_lease lease l m /\
  (forall s, m_body m = Put s ->
     (exists i t, m_by m = Some i /\ s = leader_value (name i) t) /\
     (forall m0, live l (m_key m) = Some m0 -> m_by m0 = m_by m)).

Local Notation Inv := (bucket_ok election_good).

Definition on_key (l : list msg) : list msg := filter (λ m, m_key m = key) l.
Definition own_put (i : nat) (m : msg) : Prop := m_by m = Some i /\ is_put m = true.

(** The term of agent [i] on the stream: it begins with the entry at the term
    revision, goes on with the agent's own renewals, and none of them comes
    after the first message that is not one. *)
Definition term (i : nat) (e : NATSElection) (l : list msg) : Prop :=
  exists l1 mT l2 own rest,
    l = l1 ++ mT :: l2 /\ m_key mT = key /\ own_put i mT /\ m_rev mT = el_termRevision e /\
    on_key l2 = own ++ rest /\ Forall (own_put i) own /\ Forall (λ m, ~ own_put i m) rest /\
    exists m, m ∈ mT :: own /\ m_rev m = el_revision e.

Lemma term_app i e l l' : Forall (λ m, ~ own_put i m) l' -> term i e l -> term i e (l ++ l').
Proof.
  intros F (l1 & mT & l2 & own & rest & -> & ? & ? & ? & E & ? & Fr & ?).
  exists l1, mT, (l2 ++ l'), own, (rest ++ on_key l'). unfold on_key in *. split_and!; try done.
  - by rewrite <-app_assoc.
  - by rewrite filter_app, E, app_assoc.
  - rewrite Forall_app. split; [done|]. rewrite Forall_forall in F |- *. intros m [_ Hm]%list_elem_of_filter. auto.
Qed.

Lemma last_msg_on_key l1 mT l2 :
  m_key mT = key -> last_msg (l1 ++ mT :: l2) key = last (mT :: on_key l2).
Proof.
  intros K. unfold last_msg, on_key. rewrite filter_app, filter_cons, decide_True by done. by rewrite last_app_cons.
Qed.

(** The entry at the cached revision is the agent's own; when it is current, the
    term is not interrupted. *)
Lemma term_current i e l m0 :
  stream election_good l -> term i e l -> last_rev l key = el_revision e -> last_msg l key = Some m0 ->
  own_put i m0 /\ forall m, m_key m = key -> own_put i m ->
    term i e (l ++ [m]) /\
    term i (mkElection (el_isLeader e) (el_workerID e) (m_rev m) (el_termRevision e)) (l ++ [m]).
Proof.
  intros S (l1 & mT & l2 & own & rest & -> & K & O & R & E & Fo & Fr & m & Hm & Rm) Lr Lm.
  assert (own_put i m) as Om.
  { apply elem_of_cons in Hm as [->|Hm]; [done|]. rewrite Forall_forall in Fo. by apply Fo. }
  assert (m ∈ l1 ++ mT :: l2) as Hin.
  { rewrite elem_of_app. right. apply elem_of_cons in Hm as [->|Hm]; [by left|]. right.
    assert (m ∈ on_key l2) as Hk by (rewrite E; set_solver). by apply list_elem_of_filter in Hk as []. }
  assert (m0 = m) as ->.
  { assert (0 < m_rev m)%Z as P by (eapply stream_pos; [done..|apply Om]).
    rewrite (stream_last_rev election_good _ _ m S Hin P) in Lm by congruence. by simplify_eq. }
  split; [done|]. intros m' K' O'.
  assert (rest = []) as ->.
  { rewrite last_msg_on_key, E, app_comm_cons in Lm by done.
    destruct rest as [|x rest' _] using rev_ind; [done|]. exfalso.
    rewrite app_assoc, last_snoc in Lm. injection Lm as ->. rewrite Forall_app, Forall_singleton in Fr. by destruct Fr. }
  unfold on_key in *. rewrite app_nil_r in E.
  split; exists l1, mT, (l2 ++ [m']), (own ++ [m']), []; (split_and!; try done);
    rewrite ?Forall_app, ?Forall_singleton, <-?app_assoc; try done.
  - unfold on_key. by rewrite filter_app, E, filter_cons, decide_True, filter_nil, app_nil_r.
  - exists m. set_solver.
  - unfold on_key. by rewrite filter_app, E, filter_cons, decide_True, filter_nil, app_nil_r.
  - exists m'. set_solver.
Qed.

Definition election_ok (i : nat) (e : NATSElection) (v : view) : Prop :=
  if el_isLeader e then el_workerID e = name i /\ term i e (log v) else el_termRevision e = 0%Z.

Lemma election_ok_others i e v v' : others i v v' -> election_ok i e v -> election_ok i e v'.
Proof.
  intros [(l & E & F) _]. unfold election_ok. destruct (el_isLeader e); [|done]. intros [? T]. split; [done|].
  rewrite E. apply term_app; [|done]. eapply Forall_impl; [exact F|]. intros m [_ N] [B _]. by apply N.
Qed.

Lemma cleared_ok i e v : election_ok i (clearLeadership e) v.
Proof. done. Qed.

Section wp.
Context (me : nat).
Local Notation wp := (wp Inv (λ _ _, None) me (not_by me)).

Lemma write_good l r t s :
  (forall m0, live l key = Some m0 -> m_by m0 = Some me) ->
  (exists t', s = leader_value (name me) t') ->
  election_good l (mkMsg r key t (Put s) (Some me)).
Proof.
  intros L [t' ->]. split.
  - intros m0 L0 B. by destruct B; apply L.
  - intros s [= <-]. split; [by exists me, t'|done].
Qed.

Lemma wp_RenewLeadership t0 e v :
  election_ok me e v -> wp t0 (RenewLeadership key e) (λ r v', election_ok me r.1 v') v.
Proof.
  intros O. unfold RenewLeadership. destruct (el_isLeader e) eqn:Il; cbn [negb].
  2: { intros v1 O1 _. by eapply election_ok_others. }
  apply wp_quiet; [apply bucket_same|done|]. intros t v1 O1 I1 _. apply (election_ok_others _ _ _ _ O1) in O.
  assert (forall v2 m0, others me v1 v2 -> Inv v2 -> last_rev (log v2) key = el_revision e ->
    last_msg (log v2) key = Some m0 -> own_put me m0 /\
    forall m, m_key m = key -> own_put me m -> term me e (log v2 ++ [m]) /\
      term me (mkElection (el_isLeader e) (el_workerID e) (m_rev m) (el_termRevision e)) (log v2 ++ [m])) as Cur.
  { intros v2 m0 O2 [S2 _] R L. apply (election_ok_others _ _ _ _ O2) in O. unfold election_ok in O. rewrite Il in O.
    apply term_current; [done|apply O|done..]. }
  assert (el_workerID e = name me) as En by (unfold election_ok in O; rewrite Il in O; by apply O).
  apply wp_op.
  - intros v2 x v3 O2 L2 I2 [W _] _. eapply bucket_write; [done|apply L2| |exact W|]; [done|]. intros R r.
    apply write_good; [|rewrite En; by eauto]. intros m0 L0. unfold live in L0.
    destruct (last_msg (log v2) key) as [m1|] eqn:E; [|done]. cbn in L0. destruct (is_put m1) eqn:Ep; simplify_eq.
    by destruct (Cur v2 m0) as [[? _] _].
  - intros v2 x v3 O2 L2 I2 [W _] _ I3 v4 O4 _.
    assert (election_ok me e v2) as O' by by eapply election_ok_others.
    assert (forall r, last_rev (log v2) key = el_revision e -> appended me v2 key (Put (leader_value (el_workerID e) t)) r v3 ->
      election_ok me e v3 /\ election_ok me (mkElection true (el_workerID e) r (el_termRevision e)) v3) as App.
    { intros r R (E & P & _). unfold election_ok in *. cbn. rewrite Il in *. destruct O' as [? T].
      destruct (last_msg (log v2) key) as [m1|] eqn:Lm.
      2: { exfalso. unfold last_rev in R. rewrite Lm in R. destruct T as (l1 & mT & l2 & ? & ? & El & K & _).
           destruct (last_msg_exists (log v2) key mT) as [? ?]; [rewrite El; set_solver|done|]. congruence. }
      destruct (Cur v2 m1) as [_ Snoc]; [done..|]. rewrite E.
      destruct (Snoc (mkMsg r key (now v3) (Put (leader_value (el_workerID e) t)) (Some me))) as [T1 T2]; [done..|].
      split; (split; [done|]); [exact T1|exact T2]. }
    eapply election_ok_others; [exact O4|]. destruct x as [r|er]; cbn [fst].
    + destruct W as (r' & R & <- & Ap). by destruct (App r R Ap).
    + destruct (is_ctx er); cbn [negb]; [|done].
      destruct W as [[E _]|(_ & R & r & Ap)]; [|by destruct (App r R Ap)].
      eapply election_ok_others; [|exact O']. apply grows_same; [done|apply L2].
Qed.

Lemma wp_acquire t0 e v :
  el_isLeader e = false -> election_ok me e v ->
  wp t0 (acquire key (name me) e) (λ r v', election_ok me r.1 v') v.
Proof.
  intros Il O. unfold acquire. apply wp_quiet; [apply bucket_same|done|]. intros t v1 O1 I1 _. apply wp_op.
  - intros v2 x v3 O2 L2 I2 [W _] _. eapply bucket_write; [done|apply L2| |exact W|]; [done|]. intros N r.
    apply write_good; [|by eauto]. intros m0 L0. congruence.
  - intros v2 x v3 O2 L2 I2 [W _] _ I3 v4 O4 _. eapply election_ok_others; [exact O4|].
    unfold election_ok in *. rewrite Il in O. destruct x as [r|er]; cbn; [|by rewrite Il].
    destruct W as (r' & _ & <- & E & _). split; [done|]. rewrite E.
    eexists (log v2), _, [], [], []. split_and!; try done. eexists. split; [by left|done].
Qed.

Lemma wp_RequestLeadership t0 d e v :
  election_ok me e v -> Inv v -> wp t0 (RequestLeadership key (name me) d e) (λ r v', election_ok me r.1 v') v.
Proof.
  intros O I. unfold RequestLeadership. case_decide; [intros v1 O1 _; by eapply election_ok_others|].
  destruct (el_isLeader e) eqn:Il; cbn [andb]; [|by apply wp_acquire].
  case_bool_decide as En; [|unfold election_ok in O; rewrite Il in O; by destruct O].
  apply wp_bind; [|done]. eapply wp_mono; [by apply wp_RenewLeadership|]. intros [e' r] v1 _ I1 O1. cbn [fst] in O1.
  destruct r as [err|]; [|intros v2 O2 _; by eapply election_ok_others].
  destruct err as [| |er| | | |]; try by apply wp_acquire.
  destruct (is_ctx er); [intros v2 O2 _; by eapply election_ok_others|by apply wp_acquire].
Qed.

Lemma wp_ReleaseLeadership t0 e v :
  election_ok me e v -> wp t0 (ReleaseLeadership key e) (λ r v', election_ok me r.1 v') v.
Proof.
  intros O. unfold ReleaseLeadership. destruct (el_isLeader e) eqn:Il; cbn [negb].
  2: { intros v1 O1 _. by eapply election_ok_others. }
  apply wp_op.
  - intros v1 x v2 O1 L1 I1 [W _] _. eapply bucket_write; [done|apply L1| |exact W|]; [done|]. by split.
  - intros v1 x v2 O1 L1 I1 [W _] _ I2 v3 O3 _. apply (election_ok_others _ _ _ _ O1) in O.
    eapply election_ok_others; [exact O3|].
    destruct x as [r|er]; [done|]. destruct (Is er JsErrKeyNotFound); cbn [negb]; [done|].
    unfold election_ok in *. cbn [fst]. rewrite Il in *. destruct O as [? T]. split; [done|].
    destruct W as [[-> _]|(_ & _ & r & -> & _)]; [done|]. apply term_app; [|done].
    apply Forall_singleton. by intros [_ ?].
Qed.

Lemma wp_IsLeader t0 e v : election_ok me e v -> wp t0 (IsLeader key e) (λ r v', election_ok me r.1 v') v.
Proof.
  intros O. unfold IsLeader. destruct (el_isLeader e) eqn:Il; cbn [negb].
  2: { intros v1 O1 _. by eapply election_ok_others. }
  apply wp_quiet; [apply bucket_same|done|]. intros x v1 O1 I1 _ v2 O2 _.
  apply (election_ok_others _ _ _ _ O1), (election_ok_others _ _ _ _ O2) in O. by repeat case_match.
Qed.
End wp.

(** An agent with the worker ID it campaigns under. *)
Definition agent : Type := string * NATSElection.

Inductive boot (i : nat) : agent -> Prop :=
| boot_agent : boot i (name i, NewNATSElection).

Inductive call : agent -> prog agent -> Prop :=
| call_request w d e : call (w, e) (r ← RequestLeadership key w d e; Ret (w, r.1))
| call_renew w e : call (w, e) (r ← RenewLeadership key e; Ret (w, r.1))
| call_release w e : call (w, e) (r ← ReleaseLeadership key e; Ret (w, r.1))
| call_is_leader w e : call (w, e) (r ← IsLeader key e; Ret (w, r.1))
| call_check w claimed e : call (w, e) (_ ← CheckLeadership key claimed e; Ret (w, e)).

Definition agent_ok (i : nat) (s : agent) (v : view) : Prop := s.1 = name i /\ election_ok i s.2 v.

Lemma agent_ok_call i s m v :
  call s m -> agent_ok i s v -> Inv v -> wp Inv (λ _ _, None) i (not_by i) (now v) m (agent_ok i) v.
Proof.
  intros C [Ew Ok] I.
  assert (forall A (m : prog (NATSElection * A)),
    wp Inv (λ _ _, None) i (not_by i) (now v) m (λ r v', election_ok i r.1 v') v ->
    wp Inv (λ _ _, None) i (not_by i) (now v) (r ← m; Ret (s.1, r.1)) (agent_ok i) v) as Then.
  { intros A m' W. apply wp_bind; [|done]. eapply wp_mono; [exact W|]. intros a v1 _ _ Oa v2 O2 _.
    split; [done|]. by eapply election_ok_others. }
  destruct C as [w d e|w e|w e|w e|w claimed e]; cbn [fst snd] in *.
  - subst w. by apply Then, wp_RequestLeadership.
  - by apply Then, wp_RenewLeadership.
  - by apply Then, wp_ReleaseLeadership.
  - by apply Then, wp_IsLeader.
  - unfold CheckLeadership. destruct (check_local claimed e).
    + intros v1 O1 _. split; [done|]. by eapply election_ok_others.
    + apply wp_quiet; [apply bucket_same|done|]. intros x v1 O1 _ _ v2 O2 _. split; [done|].
      by do 2 (eapply election_ok_others; [done|]).
Qed.

(** Executions from an empty bucket. *)
Definition reaches {W} `{!Env ttl W} (w0 w : W) (ps : list (process agent)) : Prop :=
  log (observe w0) = [] /\ rtc (sys_step (λ _ _, None) boot call) (w0, []) (w, ps).

Lemma election_reaches_ok {W} `{!Env ttl W} (w0 w : W) ps :
  (forall d, ttl = Some d -> (lease <= d)%Z) -> reaches w0 w ps ->
  sys_inv (λ _ _, None) Inv agent_ok (w, ps).
Proof.
  intros Ht [E R]. eapply (adequacy (λ _ _, None) boot call); [..|exact R].
  - intros i s v v' O [? ?]. split; [done|by eapply election_ok_others].
  - intros i s v [] _. by split.
  - apply agent_ok_call.
  - intros v v'. apply bucket_expires. intros l m0 t L (d & Ed & Old). split; [|done]. cbn. intros m1 L1.
    rewrite L in L1. injection L1 as <-. specialize (Ht d Ed). lia.
  - split; rewrite E; [constructor|done].
Qed.

Lemma leader_claims i e v :
  el_isLeader e = true -> election_ok i e v -> exists m, claims v i key (el_revision e) m.
Proof.
  unfold election_ok. intros ->. intros (_ & l1 & mT & l2 & own & rest & El & K & Op & _ & E & Fo & _ & m & Hm & R).
  exists m. unfold claims. rewrite El. apply elem_of_cons in Hm as [->|Hm].
  - destruct Op. split_and!; try done. set_solver.
  - assert (m ∈ on_key l2) as Hk by (rewrite E; set_solver). apply list_elem_of_filter in Hk as [? ?].
    rewrite Forall_forall in Fo. destruct (Fo m Hm). split_and!; try done. set_solver.
Qed.
End system.

(** C39. One leader per lease. Whatever the interleaving of requests, renewals,
    releases, crashes and expiries: when two agents both consider themselves
    leader, the entries they last wrote are at least [lease] apart, or the older
    one was deleted by a release after it was written. *)
Theorem leader_exclusive (key : string) (name : nat -> string) (ttl : option Z) (lease : Z)
    {W : Type} `{!Env ttl W} (w0 w : W) (ps : list (process agent)) i j n1 e1 n2 e2
    (Httl : forall d, ttl = Some d -> (lease <= d)%Z)
    (Hreach : reaches key name ttl w0 w ps)
    (Hi : (i, Idle (n1, e1)) ∈ ps) (Hj : (j, Idle (n2, e2)) ∈ ps) (Hij : i <> j)
    (Hl1 : el_isLeader e1 = true) (Hl2 : el_isLeader e2 = true)
    (Holder : (el_revision e1 <= el_revision e2)%Z) :
  exists m1 m2, claims (observe w) i key (el_revision e1) m1 /\ claims (observe w) j key (el_revision e2) m2 /\
    ((m_time m1 + lease <= m_time m2)%Z \/ revoked (log (observe w)) m1).
Proof.
  apply (election_reaches_ok key name ttl lease) in Hreach as ([S _] & _ & F); [|done].
  rewrite Forall_forall in F. cbn [fst snd] in *.
  destruct (F _ Hi) as [_ O1], (F _ Hj) as [_ O2]. cbn [fst snd] in *.
  destruct (leader_claims _ _ _ _ _ Hl1 O1) as [m1 Hm1], (leader_claims _ _ _ _ _ Hl2 O2) as [m2 Hm2].
  exists m1, m2. split_and!; [done..|]. destruct Hm1 as (? & ? & ? & ? & ?), Hm2 as (? & ? & ? & ? & ?).
  eapply (entries_exclusive _ lease _ _ key i j m1 m2 S); try done. lia.
  Unshelve. by intros ? ? [].
Qed.

(** ** The leadership fence *)

Lemma prefix_colon a b t :
  contains_char ":" a = false -> contains_char ":" b = false ->
  String.prefix (a +:+ ":") (b +:+ ":" +:+ t) = true -> a = b.
Proof.
  revert b. induction a as [|x a IH]; intros b Ha Hb P.
  - destruct b as [|y b]; [done|]. simpl in Hb, P. case_match; [|done]. subst. simpl in Hb.
    by rewrite bool_decide_eq_true_2 in Hb || done.
  - simpl in Ha. apply orb_false_iff in Ha as [Hx Ha].
    destruct b as [|y b]; simpl in P; case_match; try done; subst.
    + by rewrite bool_decide_eq_true_2 in Hx || done.
    + simpl in Hb. apply orb_false_iff in Hb as [_ Hb]. f_equal. by apply IH.
Qed.

(** The entry of a worker is recognised by its value. *)
Lemma live_named key name lease l m w :
  (forall i, contains_char ":" (name i) = false) -> contains_char ":" w = false ->
  stream (election_good name lease) l -> live l key = Some m ->
  String.prefix (w +:+ ":") (e_value (entry_of m)) = true -> exists j, own_put j m /\ name j = w.
Proof.
  intros Hc Hw S L P. destruct (live_put _ _ _ L) as [s Es]. cbn in P. rewrite Es in P.
  destruct (live_elem _ _ _ L) as [(l1 & l2 & ->)%list_elem_of_split _].
  destruct (stream_at _ _ _ _ S) as (_ & _ & _ & G). destruct (G s Es) as [(j & t & B & ->) _].
  unfold leader_value in P. apply prefix_colon in P as ->; [|done..].
  exists j. split; [|done]. split; [done|]. unfold is_put. by rewrite Es.
Qed.

(** From an entry of [i] to the current one: either all of it is one term of [i],
    or the writer of the current entry acquired the key in between. *)
Lemma current_term key name lease i j l1 mT l2 m :
  stream (election_good name lease) (l1 ++ mT :: l2) -> m_key mT = key -> own_put i mT ->
  live (l1 ++ mT :: l2) key = Some m -> own_put j m ->
  (forall m', m' ∈ l2 -> m_key m' = key -> own_put i m') /\ j = i \/
  exists l3 m' l4, l2 = l3 ++ m' :: l4 /\ m_key m' = key /\ own_put j m' /\ live (l1 ++ mT :: l3) key = None.
Proof.
  intros S K O. revert m. induction l2 as [|y l2 IH] using rev_ind; intros m.
  { rewrite live_snoc, decide_True by done. intros L Om. left. split; [set_solver|].
    destruct O as [B Pt], Om as [B' _]. unfold is_put in Pt. destruct (m_body mT); simplify_eq. congruence. }
  rewrite app_comm_cons, app_assoc in S |- *. rewrite live_snoc. intros L Om.
  assert (forall m0, live (l1 ++ mT :: l2) key = Some m0 -> own_put j m0 ->
    (m_key y = key -> own_put j y) ->
    (forall m', m' ∈ l2 ++ [y] -> m_key m' = key -> own_put i m') /\ j = i \/
    exists l3 m' l4, l2 ++ [y] = l3 ++ m' :: l4 /\ m_key m' = key /\ own_put j m' /\
      live (l1 ++ mT :: l3) key = None) as Ext.
  { intros m0 L0 O0 Oy. destruct (IH (stream_app _ _ _ S) m0 L0 O0) as [[F ->]|(l3 & m' & l4 & -> & R)].
    - left. split; [|done]. intros m'. rewrite elem_of_app, list_elem_of_singleton. intros [Hm| ->]; auto.
    - right. exists l3, m', (l4 ++ [y]). by rewrite <-app_assoc. }
  case_decide as Ky; [|by apply (Ext m)].
  assert (y = m) as -> by (destruct (m_body y); by simplify_eq).
  destruct (live (l1 ++ mT :: l2) key) as [m0|] eqn:L0; [|right; by exists l2, m, []].
  apply (Ext m0); [done| |done]. destruct (stream_last _ _ _ S) as (_ & _ & _ & G).
  destruct Om as [B Pt]. destruct (m_body m) as [s| |] eqn:Em; [|by simplify_eq..].
  destruct (G s eq_refl) as [_ Own]. rewrite Ky in Own. split; [by rewrite (Own m0 L0)|].
  destruct (live_put _ _ _ L0) as [s0 E0]. unfold is_put. by rewrite E0.
Qed.

Lemma check_local_held claimed e :
  check_local claimed e = None -> claimed = el_termRevision e /\ el_termRevision e <> 0%Z.
Proof.
  unfold check_local. destruct (decide (claimed = 0%Z)); [done|].
  destruct (bool_decide (el_workerID e = "") || bool_decide (el_termRevision e = 0%Z)) eqn:Eb; [done|].
  apply orb_false_iff in Eb as [_ Eb%bool_decide_eq_false].
  destruct (decide (claimed ≠ el_termRevision e)) as [|Ec]; [done|]. by apply dec_stable in Ec.
Qed.

(** C40. The leadership fence. [CheckLeadership] reads the cached fields of its agent,
    and later, after any steps of this agent, of other agents and of the server,
    the leader key. When it accepts the claimed term, then at the instant of the
    live read the entry at the claimed revision is the agent's own and the current
    entry was written by a process that carries the agent's worker ID; and either
    the claimed term is uninterrupted, every message on the leader key from its
    first entry on being a renewal by that agent, or that process acquired the
    leadership anew since, from an absent key: a later process under the same worker
    ID, or the agent itself between the two reads. Worker IDs contain no colon; they
    need not be distinct. *)
Theorem leadership_fence (key : string) (name : nat -> string) (ttl : option Z)
    {W : Type} `{!Env ttl W} (w0 w1 w w' : W) (ps1 ps : list (process agent)) i n e claimed x
    (Hcolon : forall i, contains_char ":" (name i) = false)
    (Hreach : reaches key name ttl w0 w1 ps1)
    (Hi : (i, Idle (n, e)) ∈ ps1)
    (Hlocal : check_local claimed e = None)
    (Hsteps : rtc (sys_step (λ _ _, None) (boot name) (call key)) (w1, ps1) (w, ps))
    (Hget : perform i (KvGet key) w x w')
    (Hlive : check_live claimed e x = None) :
  exists l1 mT l2 m j, log (observe w) = l1 ++ mT :: l2 /\ claims (observe w) i key claimed mT /\
    live (log (observe w)) key = Some m /\ own_put j m /\ name j = name i /\
    ((forall m', m' ∈ l2 -> m_key m' = key -> own_put i m') \/
     exists l3 m' l4, l2 = l3 ++ m' :: l4 /\ m_key m' = key /\ own_put j m' /\ live (l1 ++ mT :: l3) key = None).
Proof.
  assert (reaches key name ttl w0 w ps) as Hreach' by (destruct Hreach as [E R]; split; [done|by etrans]).
  apply (election_reaches_ok key name ttl (default 0 ttl)%Z) in Hreach as (_ & _ & F); [|by intros d ->].
  apply (election_reaches_ok key name ttl (default 0 ttl)%Z) in Hreach' as ([S _] & _); [|by intros d ->].
  rewrite Forall_forall in F. destruct (F _ Hi) as [_ O]. cbn [fst snd] in *. unfold election_ok in O.
  apply check_local_held in Hlocal as [-> Nz]. destruct (el_isLeader e); [|done].
  destruct O as [En (l1 & mT & l2 & own & rest & El & K & Op & R & _)].
  apply sys_steps_later in Hsteps as [(l & El' & _) _]. cbn [fst] in El'. rewrite El, <-app_assoc, <-app_comm_cons in El'.
  apply perform_spec in Hget as (_ & _ & _ & Hx). destruct x as [en|er]; [|done]. destruct Hx as (m & L & ->).
  unfold check_live in Hlive. destruct (decide _) as [|Hge]; [done|]. destruct (String.prefix _ _) eqn:P; [|done].
  rewrite En in P. destruct (live_named _ _ _ _ _ (name i) Hcolon (Hcolon i) S L P) as (j & Om & Ej).
  rewrite El' in S, L. exists l1, mT, (l2 ++ l), m, j. rewrite El'. split_and!; try done.
  - destruct Op. split_and!; try done. rewrite El'. set_solver.
  - destruct (current_term _ _ _ i j _ _ _ m S K Op L Om) as [[? _]|?]; auto.
Qed.

(** ** Concrete executions *)

Fixpoint demo_name (i : nat) : string :=
  match i with 0 => "" | S i' => String "w" (demo_name i') end.

Lemma demo_name_colon i : contains_char ":" (demo_name i) = false.
Proof. induction i; [done|]. simpl. done. Qed.

Definition demo_run (i : nat) (m : prog agent) (v : view) : option (agent * view) :=
  run_timely (λ _ _, None) i (now v) m v.

Definition demo_request (w : string) : prog agent :=
  r ← RequestLeadership "leader" w 10 NewNATSElection; Ret (w, r.1).

Definition demo_release (s : agent) : prog agent := r ← ReleaseLeadership "leader" s.2; Ret (s.1, r.1).

(** The server drops the leader key at time [t]. *)
Definition demo_expire (t : Z) (v : view) : view :=
  mkView (log v ++ [mkMsg 0 "leader" t Expired None]) t (refs v).

Local Notation named_reaches name := (reaches "leader" name (Some 500%Z) (W := view)).
Local Notation demo_reaches := (named_reaches demo_name).

Lemma demo_request_reach name w0 v ps i s v' :
  i ∉ ps.*1 -> Forall (λ m, m_by m <> Some i) (log v) -> named_reaches name w0 v ps ->
  demo_run i (demo_request (name i)) v = Some (s, v') -> named_reaches name w0 v' ((i, Idle s) :: ps).
Proof.
  intros Hi F [E R] C. split; [exact E|]. etrans; [exact R|].
  eapply rtc_l; [apply sys_boot; [apply boot_agent|exact Hi|exact F]|].
  eapply rtc_l; [apply (sys_call _ _ _ _ [] ps i (name i, NewNATSElection));
    exact (call_request "leader" (name i) 10 NewNATSElection)|].
  exact (run_timely_steps _ _ _ i (now v) _ v s v' [] ps C).
Qed.

Lemma demo_expire_reach name w0 v ps t m :
  live (log v) "leader" = Some m -> (now v <= t)%Z -> (m_time m + 500 <= t)%Z ->
  named_reaches name w0 v ps -> named_reaches name w0 (demo_expire t v) ps.
Proof.
  intros L Ht Old [E R]. split; [exact E|]. etrans; [exact R|]. apply rtc_once, sys_idle.
  exists 500%Z, m. destruct (live_elem _ _ _ L) as [_ K]. rewrite K. by split_and!.
Qed.

Lemma demo_release_reach w0 v ps1 ps2 i s s' v' :
  demo_reaches w0 v (ps1 ++ (i, Idle s) :: ps2) -> demo_run i (demo_release s) v = Some (s', v') ->
  demo_reaches w0 v' (ps1 ++ (i, Idle s') :: ps2).
Proof.
  intros [E R] C. split; [exact E|]. etrans; [exact R|]. destruct s as [w e].
  eapply rtc_l; [apply sys_call; exact (call_release "leader" w e)|].
  exact (run_timely_steps _ _ _ i (now v) _ v s' v' ps1 ps2 C).
Qed.

Definition demo_m1 : msg := mkMsg 1 "leader" 2 (Put "w:0") (Some 1).
Definition demo_gone : msg := mkMsg 0 "leader" 1000 Expired None.
Definition demo_m2 : msg := mkMsg 2 "leader" 1002 (Put "ww:0") (Some 2).
Definition demo_del : msg := mkMsg 3 "leader" 1003 Del (Some 1).
Definition demo_m3 : msg := mkMsg 4 "leader" 1005 (Put "www:0") (Some 3).

Lemma demo_one_leader :
  demo_reaches (mkView [] 0 ∅) (mkView [demo_m1] 2 ∅) [(1, Idle ("w", mkElection true "w" 1 1))].
Proof.
  eapply (demo_request_reach _ _ (mkView [] 0 ∅) [] 1);
    [apply not_elem_of_nil|by constructor|by split; [|apply rtc_refl]|vm_compute; reflexivity].
Qed.

(** Two agents in the leader state: the first one's key expired unnoticed. *)
Lemma demo_two_leaders :
  demo_reaches (mkView [] 0 ∅) (mkView [demo_m1; demo_gone; demo_m2] 1002 ∅)
    [(2, Idle ("ww", mkElection true "ww" 2 2)); (1, Idle ("w", mkElection true "w" 1 1))].
Proof.
  eapply (demo_request_reach _ _ (mkView [demo_m1; demo_gone] 1000 ∅) _ 2); [set_solver| | |vm_compute; reflexivity].
  - repeat (constructor; [done|]). constructor.
  - apply (demo_expire_reach _ _ (mkView [demo_m1] 2 ∅) _ 1000 demo_m1); [reflexivity|done|done|].
    apply demo_one_leader.
Qed.

Lemma leader_exclusive_witness :
  exists m1 m2, claims (mkView [demo_m1; demo_gone; demo_m2] 1002 ∅) 1 "leader" 1 m1 /\
    claims (mkView [demo_m1; demo_gone; demo_m2] 1002 ∅) 2 "leader" 2 m2 /\
    ((m_time m1 + 500 <= m_time m2)%Z \/ revoked [demo_m1; demo_gone; demo_m2] m1).
Proof.
  apply (@leader_exclusive "leader" demo_name (Some 500%Z) 500 view (permissive _) (mkView [] 0 ∅)
    (mkView [demo_m1; demo_gone; demo_m2] 1002 ∅)
    [(2, Idle ("ww", mkElection true "ww" 2 2)); (1, Idle ("w", mkElection true "w" 1 1))] 1 2 "w" (mkElection true "w" 1 1) "ww" (mkElection true "ww" 2 2)); try done.
  - by intros d [= <-].
  - apply demo_two_leaders.
  - right. left.
  - left.
Defined.

Lemma leadership_fence_witness :
  exists l1 mT l2 m j, [demo_m1] = l1 ++ mT :: l2 /\ claims (mkView [demo_m1] 2 ∅) 1 "leader" 1 mT /\
    live [demo_m1] "leader" = Some m /\ own_put j m /\ demo_name j = demo_name 1 /\
    ((forall m', m' ∈ l2 -> m_key m' = "leader" -> own_put 1 m') \/
     exists l3 m' l4, l2 = l3 ++ m' :: l4 /\ m_key m' = "leader" /\ own_put j m' /\ live (l1 ++ mT :: l3) "leader" = None).
Proof.
  apply (@leadership_fence "leader" demo_name (Some 500%Z) view (permissive _) (mkView [] 0 ∅) (mkView [demo_m1] 2 ∅)
    (mkView [demo_m1] 2 ∅) (mkView [demo_m1] 3 ∅) [(1, Idle ("w", mkElection true "w" 1 1))]
    [(1, Idle ("w", mkElection true "w" 1 1))] 1 "w" (mkElection true "w" 1 1) 1 (Ok (entry_of demo_m1))).
  - apply demo_name_colon.
  - apply demo_one_leader.
  - left.
  - reflexivity.
  - apply rtc_refl.
  - split; [done|]. split_and!; [done..|]. by exists demo_m1.
  - reflexivity.
Defined.

(** A leader that lost its key without noticing, and then releases, deletes the
    key of its successor, so a third agent is elected while the second still
    holds a fresh lease: the deletion is not conditioned on the revision. *)
Theorem stale_release_elects_second_leader :
  exists v, demo_reaches (mkView [] 0 ∅) v
      [(3, Idle ("www", mkElection true "www" 4 4)); (2, Idle ("ww", mkElection true "ww" 2 2));
       (1, Idle ("w", mkElection false "" 0 0))] /\
    claims v 2 "leader" 2 demo_m2 /\ claims v 3 "leader" 4 demo_m3 /\
    (m_time demo_m3 < m_time demo_m2 + 500)%Z.
Proof.
  exists (mkView [demo_m1; demo_gone; demo_m2; demo_del; demo_m3] 1005 ∅). split_and!.
  2: { split_and!; [set_solver|done..]. }
  2: { split_and!; [set_solver|done..]. }
  2: done.
  eapply (demo_request_reach _ _ (mkView [demo_m1; demo_gone; demo_m2; demo_del] 1003 ∅) _ 3);
    [set_solver| | |vm_compute; reflexivity].
  - repeat (constructor; [done|]). constructor.
  - eapply (demo_release_reach _ _ [_] [] 1); [apply demo_two_leaders|vm_compute; reflexivity].
Qed.

Definition demo_other : msg := mkMsg 2 "leader" 1002 (Put "w:0") (Some 2).

(** A leader whose key expired passes the fence after another process has taken
    over, when that process carries the same worker ID. *)
Theorem namesake_passes_fence :
  exists v x v', named_reaches (λ _, "w") (mkView [] 0 ∅) v
      [(2, Idle ("w", mkElection true "w" 2 2)); (1, Idle ("w", mkElection true "w" 1 1))] /\
    live (log v) "leader" = Some demo_other /\ m_by demo_other = Some 2 /\
    check_local 1 (mkElection true "w" 1 1) = None /\ spec 1 (KvGet "leader") v x v' /\
    check_live 1 (mkElection true "w" 1 1) x = None.
Proof.
  exists (mkView [demo_m1; demo_gone; demo_other] 1002 ∅), (Ok (entry_of demo_other)),
    (mkView [demo_m1; demo_gone; demo_other] 1003 ∅). split_and!; try reflexivity.
  - eapply (demo_request_reach _ _ (mkView [demo_m1; demo_gone] 1000 ∅) _ 2); [set_solver| | |vm_compute; reflexivity].
    { repeat (constructor; [done|]). constructor. }
    apply (demo_expire_reach _ _ (mkView [demo_m1] 2 ∅) _ 1000 demo_m1); [reflexivity|done|done|].
    eapply (demo_request_reach _ _ (mkView [] 0 ∅) [] 1);
      [apply not_elem_of_nil|by constructor|by split; [|apply rtc_refl]|vm_compute; reflexivity].
  - split; [done|]. split_and!; [done..|]. by exists demo_other.
Qed.
