(* ===== verification/Wire.v ===== *)
(** * Records on the wire (types/assignment_commit.go, types/partition.go,
      types/heartbeat.go)

    The records the processes exchange through the buckets. Their byte
    encodings come from the standard library (encoding/json, crypto/sha256,
    compress/gzip); [Wire] names those functions and [WireLaws] the round trips
    the code relies on. *)
From S2P Require Import Prelude Partition.

Record AssignmentPayload := mkPayload {
  SchemaVersion : Z;
  pl_Partitions : list Partition;
  pl_WorkerLabels : list string;
  pl_WorkerLabelsKnown : bool;
}.

Definition AssignmentSchemaVersion : Z := 1.

Record AssignmentPayloadRef := mkRef {
  Key : string;
  PayloadHash : string;
  SetDigest : Z;
  Revision : Z;
}.

#[export] Instance AssignmentPayloadRef_eq_dec : EqDecision AssignmentPayloadRef.
Proof. solve_decision. Defined.

Record AssignmentCommit := mkCommit {
  Version : Z;
  LeaderRevision : Z;
  SourceRevision : Z;
  SourceRevisionKnown : bool;
  PublishedAt : Z;
  Workers : list string;
  Payloads : gmap string AssignmentPayloadRef;
  BatchDigest : Z;
  ParkedCount : Z;
  ParkedDigest : Z;
  PrevCommitRev : Z;
  Lifecycle : string;
}.

Record AssignmentCommitLog := mkCommitLog {
  log_Version : Z;
  log_LeaderRevision : Z;
  log_PublishedAt : Z;
  PayloadKeys : list string;
}.

Record Assignment := mkAssignment {
  a_Version : Z;
  a_Lifecycle : string;
  a_Partitions : list Partition;
  a_LeaderRevision : Z;
  a_SourceRevision : Z;
  a_SourceRevisionKnown : bool;
  TotalWorkers : Z;
  a_WorkerLabels : list string;
  a_WorkerLabelsKnown : bool;
}.

(** [Assignment{}] *)
Definition zero_assignment : Assignment := mkAssignment 0 "" [] 0 0 false 0 [] false.

Record Heartbeat := mkHeartbeat {
  WorkerID : string;
  hb_SchemaVersion : Z;
  Capabilities : Z;
  Labels : list string;
  hb_LeaderRevision : Z;
  AppliedVersion : Z;
  AppliedDigest : Z;
  AppliedSourceRevision : Z;
  AppliedSourceRevKnown : bool;
  AppliedAt : Z;
  Timestamp : Z;
}.

Definition CapAckV1 : Z := Z.shiftl 1 0.
Definition CapTwoPhaseHandoff : Z := Z.shiftl 1 1.
Definition CapProcessingGate : Z := Z.shiftl 1 2.

(** ** Bytes *)

(** encoding/json replaces bytes that are not valid UTF-8; texts of 7-bit
    characters are kept. *)
Fixpoint ascii_text (s : string) : bool :=
  match s with
  | EmptyString => true
  | String (Ascii _ _ _ _ _ _ _ high) s' => negb high && ascii_text s'
  end.

(** Values a commit can have on the wire and keep. *)
Definition commit_text (c : AssignmentCommit) : Prop :=
  int64 (Version c) /\
  Forall (λ s, ascii_text s = true) (Workers c) /\
  map_Forall (λ w ref, ascii_text w = true /\ ascii_text (Key ref) = true /\
    ascii_text (PayloadHash ref) = true) (Payloads c) /\
  ascii_text (Lifecycle c) = true.

Class Wire := {
  marshal_payload : AssignmentPayload -> string;
  marshal_commit : AssignmentCommit -> string;
  unmarshal_commit : string -> option AssignmentCommit;
  marshal_commit_log : AssignmentCommitLog -> string;
  unmarshal_commit_log : string -> option AssignmentCommitLog;
  marshal_assignment : Assignment -> string;
  unmarshal_assignment : string -> option Assignment;
  unmarshal_heartbeat : string -> option Heartbeat;
  parse_RFC3339Nano : string -> option Z;
  parse_RFC3339 : string -> option Z;
  sha256 : string -> string;
  gzip : string -> string;
  gunzip : string -> option string;
}.

Class WireLaws `{Wire} := {
  commit_roundtrip c : commit_text c -> unmarshal_commit (marshal_commit c) = Some c;
  gunzip_gzip s : gunzip (gzip s) = Some s;
  commit_version_int64 s c : unmarshal_commit s = Some c -> int64 (Version c);
  assignment_version_int64 s a : unmarshal_assignment s = Some a -> int64 (a_Version a);
}.

(** encoding/hex *)
Definition hex_digit (n : N) : ascii := ascii_of_N (if N.ltb n 10 then n + 48 else n + 87).

Fixpoint hex (s : string) : string :=
  match s with
  | EmptyString => ""
  | String a s' => String (hex_digit (N_of_ascii a / 16)) (String (hex_digit (N_of_ascii a mod 16)) (hex s'))
  end.

Inductive decode_err := ErrEmptyPayload | ErrV1Parse | ErrLegacyParse.

Definition DecodeHeartbeat `{Wire} (b : string) : res decode_err Heartbeat :=
  match b with
  | EmptyString => Err ErrEmptyPayload
  | String c _ =>
      if decide (c = "{"%char) then
        match unmarshal_heartbeat b with Some hb => Ok hb | None => Err ErrV1Parse end
      else
        match (match parse_RFC3339Nano b with Some t => Some t | None => parse_RFC3339 b end) with
        | None => Err ErrLegacyParse
        | Some ts => Ok (mkHeartbeat "" 0 0 [] 0 0 0 0 false 0 ts)
        end
  end.

(** ** Lemmas *)

Lemma ascii_text_app s t : ascii_text (s +:+ t) = ascii_text s && ascii_text t.
Proof.
  induction s as [|[] s IH]; [done|]. rewrite string_app_cons. cbn [ascii_text]. by rewrite IH, andb_assoc.
Qed.

Lemma hex_digit_text n : (n < 16)%N -> ascii_text (String (hex_digit n) "") = true.
Proof.
  intros Hn. rewrite <-(N2Nat.id n). assert (N.to_nat n < 16) as Hk by lia. revert Hk.
  generalize (N.to_nat n). intros k Hk. do 16 (destruct k as [|k]; [done|]). lia.
Qed.

Lemma hex_text s : ascii_text (hex s) = true.
Proof.
  induction s as [|a s IH]; [done|]. cbn [hex].
  change (String ?x (String ?y ?z)) with (String x "" +:+ (String y "" +:+ z)).
  rewrite !ascii_text_app, !hex_digit_text, IH; [done|..].
  - apply N.mod_lt. done.
  - apply N.Div0.div_lt_upper_bound. pose proof (N_ascii_bounded a). lia.
Qed.
