(* ===== verification/Publisher.v ===== *)
(** * Assignment publisher (internal/assignment/assignment_publisher.go)

    The refs-always commit protocol: per-worker payloads under their content
    address, then one compare-and-swap of the commit that refers to them. Each
    operation is a program over the assignment bucket; the publisher's fields
    are passed as a record: [Publish] and what it calls run under the publisher's
    mutex. [DiscoverHighestVersion] and [BootstrapLastCommit] take the mutex only to
    store what they have read; here they are calls like the others, so a publish of
    the same publisher between their read and their store is left out. Only the
    calculator's [Start] calls them. *)
From S2P Require Import Prelude Partition Nats KV Wire.

(** ** Coverage of a batch *)

(** A nil slice and an empty one are not told apart. *)
Definition canonicalIDSet (parts : list Partition) : list string :=
  if decide (length parts = 0) then [] else compact (sort_strings (CanonicalID <$> parts)).

Definition unionPartitions (assignments : gmap string (list Partition)) : list Partition := flat assignments.

Fixpoint equalStringSlices (a b : list string) : bool :=
  match a, b with
  | [], [] => true
  | x :: a', y :: b' => bool_decide (x = y) && equalStringSlices a' b'
  | _, _ => false
  end.

Fixpoint intersectSortedIDs (a : list string) : list string -> list string :=
  fix go (b : list string) : list string :=
    match a, b with
    | x :: a', y :: b' =>
        if decide (x = y) then x :: intersectSortedIDs a' b'
        else if String.ltb x y then intersectSortedIDs a' b
        else go b'
    | _, _ => []
    end.

Fixpoint merge_loop (a : list string) : list string -> list string :=
  fix go (b : list string) : list string :=
    match a, b with
    | x :: a', y :: b' =>
        if decide (x = y) then x :: merge_loop a' b'
        else if String.ltb x y then x :: merge_loop a' b
        else y :: go b'
    | [], b => b
    | a, [] => a
    end.

Definition mergeSortedIDs (a b : list string) : list string :=
  if decide (length a = 0) then b
  else if decide (length b = 0) then a
  else merge_loop a b.

(** The counts of the diagnostic: source, unique, raw, parked, overlap,
    missing, extra, duplicates. *)
Record coverage_report := mkReport {
  r_source : nat; r_unique : nat; r_raw : nat; r_parked : nat; r_overlap : nat;
  r_missing : nat; r_extra : nat; r_duplicates : Z;
}.

Definition checkCoverage (source : list Partition) (assignments : gmap string (list Partition))
    (parked : list Partition) : res coverage_report unit :=
  let union := unionPartitions assignments in
  let assignedIDs := canonicalIDSet union in
  let parkedIDs := canonicalIDSet parked in
  let expected := canonicalIDSet source in
  let overlap := intersectSortedIDs assignedIDs parkedIDs in
  let got := mergeSortedIDs assignedIDs parkedIDs in
  let rawCount := length union + length parked in
  let setOK := equalStringSlices got expected in
  let multisetOK := bool_decide (rawCount = length expected) in
  if setOK && multisetOK && bool_decide (length overlap = 0) then Ok ()
  else
    let gotSet := list_to_set got : gset string in
    let expSet := list_to_set expected : gset string in
    Err (mkReport (length expected) (length got) rawCount (length parked) (length overlap)
           (size (expSet ∖ gotSet)) (size (gotSet ∖ expSet)) (Z.of_nat rawCount - Z.of_nat (length got))).

(** ** State and inputs *)

Definition commitKeyName : string := "_commit".
Definition commitLogPrefix : string := "_commit_log.".
Definition payloadKeyPrefix : string := "_payload.".
Definition protocolKeyMarker : string := "_".

Definition aliasBarrierMaxAttempts : nat := 3.
Definition aliasBarrierBaseBackoff : Z := 50000000.
Definition payloadAdoptMaxAttempts : nat := 3.
Definition payloadAdoptBaseBackoff : Z := 20000000.

(** The construction-time settings; a callback that is nil is [false] here.
    [cfg_pid] names the process, whose in-flight set its garbage collector reads. *)
Record PublisherConfig := mkPublisherConfig {
  cfg_pid : nat;
  cfg_Prefix : string;
  cfg_HeartbeatPrefix : string;
  cfg_HeartbeatKV : bool;
  cfg_LeaderCheckFn : bool;
  cfg_IsShuttingDown : bool;
}.

Record AssignmentPublisher := mkPublisher {
  currentVersion : Z;
  lastCommitRev : Z;
  lastCommit : option AssignmentCommit;
  lastCommitObservedAtMono : Z;
  commitReseedPending : bool;
  lastRebalance : Z;
}.

Definition NewAssignmentPublisher : AssignmentPublisher := mkPublisher 0 0 None 0 false 0.

Definition keyPrefix (cfg : PublisherConfig) : string := cfg_Prefix cfg +:+ ".".
Definition hbKeyPrefix (cfg : PublisherConfig) : string :=
  (if decide (cfg_HeartbeatPrefix cfg = "") then "heartbeat" else cfg_HeartbeatPrefix cfg) +:+ ".".

Record PublishInput := mkPublishInput {
  in_Workers : list string;
  in_Assignments : gmap string (list Partition);
  in_SourcePartitions : list Partition;
  in_SourceRevision : Z;
  in_SourceRevisionKnown : bool;
  in_LeaderRevision : Z;
  in_Lifecycle : string;
  in_WorkersToRemove : list string;
  in_ParkedPartitions : list Partition;
  in_WorkerLabels : gmap string (list string);
}.

Inductive payload_err :=
| ErrCtx (e : go_error)
| ErrCreatePayload (key : string) (e : go_error)
| ErrAdoptTouch (key : string) (e : go_error)
| ErrPayloadHashCollisionOrCorruption (key : string)
| ErrAdoptExhausted (key : string).

Inductive reseed_err := ErrReadLiveCommit (e : go_error) | ErrUnmarshalLiveCommit.

Inductive publish_err :=
| ErrCoverageMismatch (r : coverage_report)
| ErrWritePayload (worker : string) (e : payload_err)
| ErrLeadershipLostPreAlias (e : go_error)
| ErrAliasBarrierFailed (worker : string) (e : go_error)
| ErrLeadershipLostPostAlias (e : go_error)
| errShuttingDown
| ErrCommitCASFailed (e : go_error)
| ErrCommitReseedPending (e : reseed_err).

Definition isProtocolSubcomponent (sub : string) : bool := String.prefix protocolKeyMarker sub.

Definition sortedLabelsCopy (labels : list string) : list string :=
  if decide (length labels = 0) then [] else compact (sort_strings labels).

(** [cloneAssignmentCommit] copies the slice and the map; values are immutable
    here, so the copy is the commit itself. *)
Definition cloneAssignmentCommit (c : AssignmentCommit) : AssignmentCommit := c.

(** [strings.Compare] on canonical identifiers. *)
Definition cmp_canonical (a b : Partition) : Z :=
  match String.compare (CanonicalID a) (CanonicalID b) with Lt => -1 | Eq => 0 | Gt => 1 end.

Definition buildLegacyAlias (payload : AssignmentPayload) (version leaderRevision : Z)
    (lifecycle : string) (totalWorkers : Z) : Assignment :=
  mkAssignment version lifecycle (pl_Partitions payload) leaderRevision 0 false totalWorkers
    (pl_WorkerLabels payload) (pl_WorkerLabelsKnown payload).

(** ** Publishing *)

Section publisher.
Context `{Wire, Xxh3, SortFunc} (cfg : PublisherConfig).

Definition commitKey : string := keyPrefix cfg +:+ commitKeyName.
Definition payloadKey (hash : string) : string := keyPrefix cfg +:+ (payloadKeyPrefix +:+ hash).
Definition commitLogKey (version : Z) : string := keyPrefix cfg +:+ (commitLogPrefix +:+ pretty version).
Definition aliasKey (worker : string) : string := keyPrefix cfg +:+ worker.

Definition set_commit_view (rev version : Z) (c : AssignmentCommit) (t : Z) (pending : bool)
    (p : AssignmentPublisher) : AssignmentPublisher :=
  mkPublisher version rev (Some c) t pending (lastRebalance p).

(** The revision and the version only move forward; the cached commit is replaced. *)
Definition reseedFromLiveCommitLocked (p : AssignmentPublisher) :
    prog (AssignmentPublisher * option reseed_err) :=
  x ← trigger (KvGet commitKey);
  match x with
  | Err e => Ret (p, Some (ErrReadLiveCommit e))
  | Ok entry =>
      match unmarshal_commit (e_value entry) with
      | None => Ret (p, Some ErrUnmarshalLiveCommit)
      | Some winner =>
          t ← trigger (Now WallClock);
          let rev := if decide (e_revision entry > lastCommitRev p)%Z then e_revision entry else lastCommitRev p in
          let version := if decide (Version winner > currentVersion p)%Z then Version winner else currentVersion p in
          Ret (set_commit_view rev version (cloneAssignmentCommit winner) t false p, None)
      end
  end.

Definition ensureCommitViewCurrentLocked (p : AssignmentPublisher) :
    prog (AssignmentPublisher * option publish_err) :=
  if negb (commitReseedPending p) then Ret (p, None)
  else
    '(p, err) ← reseedFromLiveCommitLocked p;
    Ret (p, option_map ErrCommitReseedPending err).

Definition set_pending (b : bool) (p : AssignmentPublisher) : AssignmentPublisher :=
  mkPublisher (currentVersion p) (lastCommitRev p) (lastCommit p) (lastCommitObservedAtMono p) b
    (lastRebalance p).

Definition reseedAfterCommitCASLossLocked (writeErr : go_error) (p : AssignmentPublisher) :
    prog AssignmentPublisher :=
  if negb (Is writeErr JsErrKeyExists) then Ret p
  else '(p, _) ← reseedFromLiveCommitLocked (set_pending true p); Ret p.

Definition surrenderCommitCASLocked (writeErr : go_error) (p : AssignmentPublisher) :
    prog (AssignmentPublisher * res publish_err unit) :=
  p ← reseedAfterCommitCASLossLocked writeErr p;
  Ret (p, Err (ErrCommitCASFailed writeErr)).

Definition casWriteCommitLocked (commitBytes : string) (p : AssignmentPublisher) : prog (res go_error Z) :=
  if decide (lastCommitRev p = 0%Z) then trigger (KvCreate commitKey commitBytes)
  else trigger (KvUpdate commitKey commitBytes (lastCommitRev p)).

Definition checkLeadership (claimed : Z) (sentinel : go_error -> publish_err) : prog (res publish_err unit) :=
  if negb (cfg_LeaderCheckFn cfg) then Ret (Ok ())
  else
    x ← trigger (LeaderCheck claimed);
    Ret match x with Some e => Err (sentinel e) | None => Ok () end.

Definition abortIfShuttingDown : prog (res publish_err unit) :=
  if negb (cfg_IsShuttingDown cfg) then Ret (Ok ())
  else
    b ← trigger IsShuttingDown;
    Ret (if b : bool then Err errShuttingDown else Ok ()).

(** The stored bytes are hashed after decompression, or as they are when they
    do not decompress. *)
Definition plain_bytes (stored : string) : string :=
  match gunzip stored with Some plain => plain | None => stored end.

(** One attempt of [createOrAdoptPayload]; [Ok None] asks for another one. *)
Definition adopt_attempt (key hash stored : string) : prog (res payload_err (option Z)) :=
  x ← trigger (KvCreate key stored);
  match x with
  | Ok rev => Ret (Ok (Some rev))
  | Err e =>
      if negb (Is e JsErrKeyExists) then Ret (Err (ErrCreatePayload key e))
      else
        g ← trigger (KvGet key);
        match g with
        | Err _ => Ret (Ok None)
        | Ok entry =>
            if negb (bool_decide (sha256 (plain_bytes (e_value entry)) = hash)) then
              Ret (Err (ErrPayloadHashCollisionOrCorruption key))
            else
              u ← trigger (KvUpdate key (e_value entry) (e_revision entry));
              match u with
              | Ok newRev => Ret (Ok (Some newRev))
              | Err ue =>
                  if Is ue JsErrKeyExists then Ret (Ok None) else Ret (Err (ErrAdoptTouch key ue))
              end
        end
  end.

(** The retry loop, [todo] attempts left, [attempt] counting from 0. *)
Fixpoint adopt_loop (todo attempt : nat) (key hash stored : string) : prog (res payload_err Z) :=
  match todo with
  | 0 => Ret (Err (ErrAdoptExhausted key))
  | S todo' =>
      c ← trigger CtxErr;
      match c with
      | Some e => Ret (Err (ErrCtx e))
      | None =>
          r ← adopt_attempt key hash stored;
          match r with
          | Err e => Ret (Err e)
          | Ok (Some rev) => Ret (Ok rev)
          | Ok None =>
              _ ← trigger (Backoff (Z.shiftl payloadAdoptBaseBackoff (Z.of_nat attempt)));
              adopt_loop todo' (S attempt) key hash stored
          end
      end
  end.

Definition createOrAdoptPayload (key hash stored : string) : prog (res payload_err Z) :=
  adopt_loop payloadAdoptMaxAttempts 0 key hash stored.

Definition canonical_payload (parts : list Partition) (labels : list string) : AssignmentPayload :=
  mkPayload AssignmentSchemaVersion (sort_func cmp_canonical parts) (sortedLabelsCopy labels) true.

Definition payload_of (input : PublishInput) (w : string) : AssignmentPayload :=
  canonical_payload (in_Assignments input !!! w) (in_WorkerLabels input !!! w).

Definition write_payload (input : PublishInput) (w : string)
    (acc : gmap string AssignmentPayloadRef * gmap string AssignmentPayload) :
    prog (res publish_err (gmap string AssignmentPayloadRef * gmap string AssignmentPayload)) :=
  let payload := payload_of input w in
  let canonicalBytes := marshal_payload payload in
  let hash := sha256 canonicalBytes in
  let hashHex := hex hash in
  let key := payloadKey hashHex in
  let stored := gzip canonicalBytes in
  let setDigest := PartitionSetDigest (pl_Partitions payload) in
  r ← createOrAdoptPayload key hash stored;
  match r with
  | Err e => Ret (Err (ErrWritePayload w e))
  | Ok rev =>
      Ret (Ok (<[w := mkRef key hashHex setDigest rev]> acc.1, <[w := payload]> acc.2))
  end.

Definition writePayloads (input : PublishInput) :
    prog (res publish_err (gmap string AssignmentPayloadRef * gmap string AssignmentPayload)) :=
  for_each_err (sort_strings (in_Workers input)) (∅, ∅) (write_payload input).

Definition is_legacy (hb : res go_error string) : bool :=
  match hb with
  | Err _ => true
  | Ok b =>
      match DecodeHeartbeat b with
      | Err _ => true
      | Ok h => bool_decide (Z.land (Capabilities h) CapAckV1 = 0%Z)
      end
  end.

Definition classifyLegacyWorkers (workers : list string) : prog (list string) :=
  if negb (cfg_HeartbeatKV cfg) then Ret []
  else
    for_each workers [] (λ w out,
      x ← trigger (HeartbeatGet (hbKeyPrefix cfg +:+ w));
      Ret (if is_legacy x then out ++ [w] else out)).

Definition writeLegacyAliasOnce (w : string) (legacy : Assignment) : prog (res go_error unit) :=
  x ← trigger (KvPut (aliasKey w) (marshal_assignment legacy));
  Ret (discard x).

Fixpoint alias_loop (todo attempt : nat) (w : string) (legacy : Assignment) : prog (res go_error unit) :=
  c ← trigger CtxErr;
  match c with
  | Some e => Ret (Err e)
  | None =>
      r ← writeLegacyAliasOnce w legacy;
      match r, todo with
      | Ok _, _ => Ret (Ok ())
      | Err e, 0 => Ret (Err e)
      | Err _, S todo' =>
          d ← trigger (Backoff (Z.shiftl aliasBarrierBaseBackoff (Z.of_nat attempt)));
          match d with
          | Some e => Ret (Err e)
          | None => alias_loop todo' (S attempt) w legacy
          end
      end
  end.

Definition writeLegacyAliasWithRetry (w : string) (legacy : Assignment) : prog (res go_error unit) :=
  alias_loop (aliasBarrierMaxAttempts - 1) 0 w legacy.

Definition runAliasBarrier (input : PublishInput) (legacyInBatch : list string)
    (payloads : gmap string AssignmentPayload) (proposedVersion : Z) : prog (res publish_err unit) :=
  for_each_err legacyInBatch () (λ w _,
    let payload := default (mkPayload AssignmentSchemaVersion [] [] true) (payloads !! w) in
    let legacy := buildLegacyAlias payload proposedVersion (in_LeaderRevision input) (in_Lifecycle input)
                    (Z.of_nat (length (in_Workers input))) in
    r ← writeLegacyAliasWithRetry w legacy;
    Ret match r with Ok _ => Ok () | Err e => Err (ErrAliasBarrierFailed w e) end).

Definition writeCommitLog (commit : AssignmentCommit) (refs : gmap string AssignmentPayloadRef) :
    prog (res go_error unit) :=
  let keys := compact (sort_strings ((λ kv, Key kv.2) <$> map_to_list refs)) in
  let logEntry := mkCommitLog (Version commit) (LeaderRevision commit) (PublishedAt commit) keys in
  x ← trigger (KvCreate (commitLogKey (Version commit)) (marshal_commit_log logEntry));
  Ret (discard x).

Definition cleanupStaleAssignmentsLocked (workersToRemove : list string) : prog unit :=
  for_each workersToRemove () (λ w _,
    if isProtocolSubcomponent w then Ret ()
    else _ ← DeleteKey (aliasKey w); Ret ()).

(** Steps 10 to 12 and the bookkeeping: nothing here can fail the publish. *)
Definition after_commit (input : PublishInput) (commit : AssignmentCommit)
    (refs : gmap string AssignmentPayloadRef) (payloads : gmap string AssignmentPayload)
    (legacyInBatch : list string) (p : AssignmentPublisher) : prog AssignmentPublisher :=
  _ ← writeCommitLog commit refs;
  _ ← for_each (Workers commit) () (λ w _,
        if decide (w ∈ legacyInBatch) then Ret ()
        else
          let payload := default (mkPayload 0 [] [] false) (payloads !! w) in
          _ ← writeLegacyAliasOnce w
                (buildLegacyAlias payload (Version commit) (LeaderRevision commit) (Lifecycle commit)
                   (Z.of_nat (length (Workers commit))));
          Ret ());
  _ ← cleanupStaleAssignmentsLocked (in_WorkersToRemove input);
  t ← trigger (Now WallClock);
  Ret (mkPublisher (currentVersion p) (lastCommitRev p) (lastCommit p) (lastCommitObservedAtMono p)
         (commitReseedPending p) t).

Definition build_commit (input : PublishInput) (proposedVersion publishedAt : Z)
    (refs : gmap string AssignmentPayloadRef) (p : AssignmentPublisher) : AssignmentCommit :=
  mkCommit proposedVersion (in_LeaderRevision input) (in_SourceRevision input)
    (in_SourceRevisionKnown input) publishedAt (sort_strings (in_Workers input)) refs
    (PartitionSetDigest (in_SourcePartitions input)) (Z.of_nat (length (in_ParkedPartitions input)))
    (PartitionSetDigest (in_ParkedPartitions input)) (lastCommitRev p) (in_Lifecycle input).

(** Steps 5 to 12, between the registration of the in-flight references and
    their removal. *)
Definition commit_batch (input : PublishInput) (proposedVersion : Z)
    (refs : gmap string AssignmentPayloadRef) (payloads : gmap string AssignmentPayload)
    (p : AssignmentPublisher) : prog (AssignmentPublisher * res publish_err unit) :=
  pre ← checkLeadership (in_LeaderRevision input) ErrLeadershipLostPreAlias;
  match pre with
  | Err e => Ret (p, Err e)
  | Ok _ =>
      legacyInBatch ← classifyLegacyWorkers (in_Workers input);
      barrier ← runAliasBarrier input legacyInBatch payloads proposedVersion;
      match barrier with
      | Err e => Ret (p, Err e)
      | Ok _ =>
          post ← checkLeadership (in_LeaderRevision input) ErrLeadershipLostPostAlias;
          match post with
          | Err e => Ret (p, Err e)
          | Ok _ =>
              publishedAt ← trigger (Now WallClock);
              let commit := build_commit input proposedVersion publishedAt refs p in
              shut ← abortIfShuttingDown;
              match shut with
              | Err e => Ret (p, Err e)
              | Ok _ =>
                  cas ← casWriteCommitLocked (marshal_commit commit) p;
                  match cas with
                  | Err e => surrenderCommitCASLocked e p
                  | Ok newCommitRev =>
                      observedAt ← trigger (Now WallClock);
                      let p := set_commit_view newCommitRev proposedVersion (cloneAssignmentCommit commit)
                                 observedAt (commitReseedPending p) p in
                      p ← after_commit input commit refs payloads legacyInBatch p;
                      Ret (p, Ok ())
                  end
              end
          end
      end
  end.

Definition ref_keys (refs : gmap string AssignmentPayloadRef) : list string :=
  (λ kv, Key kv.2) <$> map_to_list refs.

Definition Publish (input : PublishInput) (p : AssignmentPublisher) :
    prog (AssignmentPublisher * res publish_err unit) :=
  if decide (length (in_Workers input) = 0) then Ret (p, Ok ())
  else
    '(p, pending) ← ensureCommitViewCurrentLocked p;
    match pending with
    | Some e => Ret (p, Err e)
    | None =>
        match checkCoverage (in_SourcePartitions input) (in_Assignments input) (in_ParkedPartitions input) with
        | Err r => Ret (p, Err (ErrCoverageMismatch r))
        | Ok _ =>
            let proposedVersion := wrap64 (currentVersion p + 1) in
            written ← writePayloads input;
            match written with
            | Err e => Ret (p, Err e)
            | Ok (refs, payloads) =>
                _ ← for_each (ref_keys refs) () (λ k _, trigger (StoreRef (cfg_pid cfg) k));
                out ← commit_batch input proposedVersion refs payloads p;
                _ ← for_each (ref_keys refs) () (λ k _, trigger (DeleteRef (cfg_pid cfg) k));
                Ret out
            end
        end
    end.

(** ** Taking over from a previous leader *)

Definition seed_commit_rev (entry : entry) (commit : AssignmentCommit) (p : AssignmentPublisher) :
    AssignmentPublisher :=
  mkPublisher (if decide (Version commit > currentVersion p)%Z then Version commit else currentVersion p)
    (e_revision entry) (lastCommit p) (lastCommitObservedAtMono p) (commitReseedPending p) (lastRebalance p).

Definition raise_version (version : Z) (p : AssignmentPublisher) : AssignmentPublisher :=
  mkPublisher (if decide (version > currentVersion p)%Z then version else currentVersion p)
    (lastCommitRev p) (lastCommit p) (lastCommitObservedAtMono p) (commitReseedPending p) (lastRebalance p).

(** [strings.TrimPrefix] *)
Definition TrimPrefix (s prefix : string) : string := default s (CutPrefix s prefix).

Definition scan_alias (commitSeeded : bool) (key : string) (acc : Z * list string) :
    prog (Z * list string) :=
  let '(highestVersion, workerIDs) := acc in
  let sub := TrimPrefix key (keyPrefix cfg) in
  if isProtocolSubcomponent sub then Ret acc
  else if commitSeeded then Ret (highestVersion, workerIDs ++ [sub])
  else
    x ← GetJSON unmarshal_assignment key;
    Ret match x with
        | Ok (Some (asgn, _)) =>
            (if decide (a_Version asgn > highestVersion)%Z then a_Version asgn else highestVersion,
             workerIDs ++ [sub])
        | _ => acc
        end.

Definition DiscoverHighestVersion (p : AssignmentPublisher) :
    prog (AssignmentPublisher * res go_error (list string)) :=
  keys ← ListKeys (keyPrefix cfg) false;
  match keys with
  | Err e => Ret (p, Err e)
  | Ok keys =>
      g ← trigger (KvGet commitKey);
      let '(p, commitSeeded) :=
        match g with
        | Ok entry =>
            match unmarshal_commit (e_value entry) with
            | Some commit => (seed_commit_rev entry commit p, true)
            | None => (p, false)
            end
        | Err _ => (p, false)
        end in
      '(highestVersion, workerIDs) ← for_each keys (0%Z, []) (scan_alias commitSeeded);
      Ret (raise_version highestVersion p, Ok (sort_strings workerIDs))
  end.

Definition BootstrapLastCommit (p : AssignmentPublisher) : prog AssignmentPublisher :=
  x ← trigger (KvGet commitKey);
  match x with
  | Err _ => Ret p
  | Ok entry =>
      match unmarshal_commit (e_value entry) with
      | None => Ret p
      | Some commit =>
          t ← trigger (Now WallClock);
          let rev := if decide (e_revision entry > lastCommitRev p)%Z then e_revision entry else lastCommitRev p in
          let version := if decide (Version commit > currentVersion p)%Z then Version commit else currentVersion p in
          Ret (set_commit_view rev version (cloneAssignmentCommit commit) t (commitReseedPending p) p)
      end
  end.

(** [types.IsNoKeysFoundError], past its nil and sentinel cases. *)
Definition no_keys_found (e : go_error) : bool := Is e JsErrNoKeysFound || contains (message e) "no keys found".

Definition CleanupAllAssignments : prog (res go_error unit) :=
  x ← trigger KvKeys;
  match x with
  | Err e => Ret (if no_keys_found e then Ok () else Err e)
  | Ok keys =>
      let workersToRemove :=
        omap (λ key, sub ← CutPrefix key (keyPrefix cfg);
                     if isProtocolSubcomponent sub then None else Some sub) keys in
      _ ← cleanupStaleAssignmentsLocked workersToRemove;
      Ret (Ok ())
  end.

End publisher.

(** ** The coverage check *)

Lemma equalStringSlices_eq a b : equalStringSlices a b = true <-> a = b.
Proof.
  revert b. induction a as [|x a IH]; intros [|y b]; cbn; try done.
  rewrite andb_true_iff, bool_decide_eq_true, IH. naive_solver.
Qed.

Lemma canonicalIDSet_sorted_set parts : canonicalIDSet parts = sorted_set (CanonicalID <$> parts).
Proof. unfold canonicalIDSet. by destruct parts. Qed.

Lemma mergeSortedIDs_loop a b : mergeSortedIDs a b = merge_loop a b.
Proof. unfold mergeSortedIDs. by destruct a, b. Qed.

Lemma elem_of_merge_loop x a b : x ∈ merge_loop a b <-> x ∈ a \/ x ∈ b.
Proof.
  revert b. induction a as [|y a IHa]; [destruct b; set_solver|].
  induction b as [|z b IHb]; [set_solver|]. cbn [merge_loop].
  repeat case_decide; subst; [|case_match].
  - rewrite elem_of_cons, IHa. set_solver.
  - rewrite elem_of_cons, IHa. set_solver.
  - rewrite elem_of_cons. fold (merge_loop (y :: a)). rewrite IHb. set_solver.
Qed.

(** Strictly sorted lists of strings. *)
Definition string_lt : relation string := λ x y, String.ltb x y = true.

#[export] Instance string_lt_trans : Transitive string_lt.
Proof. intros x y z. apply string_ltb_trans. Qed.

Lemma merge_loop_Forall P a b : Forall P a -> Forall P b -> Forall P (merge_loop a b).
Proof. rewrite !Forall_forall. intros Ha Hb x. rewrite elem_of_merge_loop. naive_solver. Qed.

Lemma lt_Forall_trans x y l : string_lt x y -> Forall (string_lt y) l -> Forall (string_lt x) l.
Proof. intros H F. eapply Forall_impl; [exact F|]. intros z. by apply string_lt_trans. Qed.

Lemma merge_loop_lt a b :
  StronglySorted string_lt a -> StronglySorted string_lt b -> StronglySorted string_lt (merge_loop a b).
Proof.
  intros Ha. revert b. induction Ha as [|x a Ha IHa Fa]; [by destruct b|].
  intros b Hb. induction Hb as [|y b Hb IHb Fb]; [by constructor|]. cbn [merge_loop].
  case_decide as E; [subst|destruct (String.ltb x y) eqn:L].
  - constructor; [by apply IHa|by apply merge_loop_Forall].
  - constructor; [by apply IHa; constructor|]. apply merge_loop_Forall; [done|].
    constructor; [done|by eapply lt_Forall_trans].
  - apply string_ltb_false in L as [|L]; [done|]. constructor; [done|].
    apply (merge_loop_Forall _ (x :: a)); [|done]. constructor; [done|by eapply lt_Forall_trans].
Qed.

Lemma StronglySorted_lt l : StronglySorted string_lt l <-> StronglySorted String.le l /\ NoDup l.
Proof.
  induction l as [|x l IH].
  { split; [split; constructor|constructor]. }
  rewrite NoDup_cons. split.
  - inversion_clear 1 as [|? ? S F]. apply IH in S as [S N].
    rewrite Forall_forall in F. split_and!; [|intros Hx; by apply F, string_ltb_le in Hx as []|done].
    constructor; [done|]. apply Forall_forall. intros y Hy. by apply F, string_ltb_le in Hy as [].
  - intros (S & Hx & N). inversion_clear S as [|? ? S' F]. constructor; [by apply IH|].
    rewrite Forall_forall in F |- *. intros y Hy. apply string_ltb_le. split; [by apply F|congruence].
Qed.

Lemma merge_sorted_sets l1 l2 : merge_loop (sorted_set l1) (sorted_set l2) = sorted_set (l1 ++ l2).
Proof.
  assert (forall l, StronglySorted string_lt (sorted_set l)) as S.
  { intros l. apply StronglySorted_lt. split; [apply sorted_set_ssorted|apply sorted_set_NoDup]. }
  destruct (proj1 (StronglySorted_lt _) (merge_loop_lt _ _ (S l1) (S l2))).
  apply sorted_NoDup_ext; auto using sorted_set_ssorted, sorted_set_NoDup.
  intros x. rewrite elem_of_merge_loop, !elem_of_sorted_set. by rewrite elem_of_app.
Qed.

Lemma elem_of_intersect x a b : x ∈ intersectSortedIDs a b -> x ∈ a /\ x ∈ b.
Proof.
  revert b. induction a as [|y a IHa]; [intros []; cbn; set_solver|].
  induction b as [|z b IHb]; cbn; [set_solver|].
  case_decide as E; [subst|destruct (String.ltb y z)].
  - rewrite elem_of_cons. intros [->|H%IHa]; set_solver.
  - intros H%IHa. set_solver.
  - intros H%IHb. set_solver.
Qed.

Lemma elem_of_ids ks ps : canonical_loop 0 ks ∈ CanonicalID <$> ps <-> ks ∈ keys_of ps.
Proof. rewrite canonical_ids. apply list_elem_of_fmap_inj, _. Qed.

Lemma same_ids ps qs :
  (forall id, id ∈ CanonicalID <$> ps <-> id ∈ CanonicalID <$> qs) <->
  (forall ks, ks ∈ keys_of ps <-> ks ∈ keys_of qs).
Proof.
  split; intros H x.
  - by rewrite <-!elem_of_ids.
  - rewrite !canonical_ids, !list_elem_of_fmap. by setoid_rewrite H.
Qed.

(** C27. The publish-time coverage check accepts a batch exactly when every
    partition of the source is, by its key tuple, in exactly one place: in the
    slice of one worker, once, or in the parked list, once; and nothing else is
    assigned or parked. *)
Theorem checkCoverage_exact (source : list Partition) (assignments : gmap string (list Partition))
    (parked : list Partition) :
  checkCoverage source assignments parked = Ok () <->
  NoDup (keys_of (flat assignments ++ parked)) /\
  (forall ks, ks ∈ keys_of source <-> ks ∈ keys_of (flat assignments ++ parked)).
Proof.
  unfold checkCoverage, unionPartitions. rewrite !canonicalIDSet_sorted_set, mergeSortedIDs_loop, merge_sorted_sets.
  rewrite <-fmap_app, <-same_ids, <-NoDup_canonical_keys, <-length_app. set (U := flat assignments).
  destruct (equalStringSlices _ _ && _ && _) eqn:E; split; try done.
  - intros _. rewrite !andb_true_iff, equalStringSlices_eq, !bool_decide_eq_true in E.
    destruct E as [[E L] _]. rewrite <-E in L.
    pose proof (proj1 (sorted_set_eq _ _) E) as S. split; [|by symmetry]. apply length_sorted_set_NoDup.
    by rewrite <-L, length_fmap.
  - intros [N S]. exfalso. apply not_true_iff_false in E. apply E. clear E.
    apply length_sorted_set_NoDup in N as L. pose proof (proj2 (sorted_set_eq _ _) S) as E.
    rewrite !andb_true_iff, equalStringSlices_eq, !bool_decide_eq_true. split_and!.
    + done.
    + rewrite E, L. by rewrite length_fmap.
    + destruct (intersectSortedIDs _ _) as [|x i] eqn:I; [done|]. exfalso.
      destruct (elem_of_intersect x (sorted_set (CanonicalID <$> U)) (sorted_set (CanonicalID <$> parked)))
        as [H1 H2]; [rewrite I; by left|].
      rewrite elem_of_sorted_set in H1, H2. rewrite fmap_app in N. apply NoDup_app in N as (_ & N & _).
      by apply (N x).
Qed.
