(* ===== verification/CommitGC.v ===== *)
(** * Payload garbage collection (internal/assignment/commit_gc.go)

    One sweep: the keys referenced by the current commit and by the recent
    commit logs, joined with the publisher's in-flight keys, are kept; any other
    payload key older than the retention is deleted, on the condition that its
    revision has not moved since it was read. *)
From S2P Require Import Prelude Partition Nats KV Wire Publisher.

Definition DefaultPayloadGCInterval : Z := 300000000000.
Definition DefaultPayloadGCRetention : Z := 86400000000000.
Definition DefaultPayloadGCKeepCommits : Z := 10.

Record CommitGCConfig := mkGCConfig {
  gc_pid : nat;             (* the process whose publisher provides LiveRefs *)
  gc_Prefix : string;       (* Publisher.Prefix() *)
  Interval : Z;
  Retention : Z;
  KeepCommits : Z;
}.

Definition NewCommitGC (cfg : CommitGCConfig) : CommitGCConfig :=
  mkGCConfig (gc_pid cfg) (gc_Prefix cfg)
    (if decide (Interval cfg <= 0)%Z then DefaultPayloadGCInterval else Interval cfg)
    (if decide (Retention cfg <= 0)%Z then DefaultPayloadGCRetention else Retention cfg)
    (if decide (KeepCommits cfg <= 0)%Z then DefaultPayloadGCKeepCommits else KeepCommits cfg).

Section gc.
Context `{Wire} (cfg : CommitGCConfig).

Definition gc_prefix : string := gc_Prefix cfg +:+ ".".

(** The walk over the last commit logs: [todo] left, [i] done. *)
Fixpoint walk_logs (todo : nat) (i currentVersion : Z) (live : gset string) : prog (gset string) :=
  match todo with
  | 0 => Ret live
  | S todo' =>
      let v := wrap64 (currentVersion - i) in
      if decide (v <= 0)%Z then Ret live
      else
        x ← trigger (KvGet (gc_prefix +:+ (commitLogPrefix +:+ pretty v)));
        let live :=
          match x with
          | Err _ => live
          | Ok entry =>
              match unmarshal_commit_log (e_value entry) with
              | None => live
              | Some logEntry => list_to_set (PayloadKeys logEntry) ∪ live
              end
          end in
        walk_logs todo' (i + 1) currentVersion live
  end.

Definition computeLiveSet : prog (res go_error (gset string)) :=
  x ← trigger (KvGet (gc_prefix +:+ commitKeyName));
  match x with
  | Err e =>
      if Is e JsErrKeyNotFound then
        live ← walk_logs (Z.to_nat (KeepCommits cfg)) 0 0 ∅; Ret (Ok live)
      else Ret (Err e)
  | Ok entry =>
      let '(live, currentVersion) :=
        match unmarshal_commit (e_value entry) with
        | None => (∅, 0%Z)
        | Some commit => (list_to_set (ref_keys (Payloads commit)) : gset string, Version commit)
        end in
      live ← walk_logs (Z.to_nat (KeepCommits cfg)) 0 currentVersion live; Ret (Ok live)
  end.

(** One iteration of the sweep. *)
Definition sweep_key (live : gset string) (sweepNow : Z) (k : string) (_ : unit) : prog unit :=
  if negb (String.prefix (gc_prefix +:+ payloadKeyPrefix) k) then Ret ()
  else if decide (k ∈ live) then Ret ()
  else
    x ← trigger (KvGet k);
    match x with
    | Err _ => Ret ()
    | Ok entry =>
        if decide (Retention cfg > 0 /\ time_sub sweepNow (e_created entry) < Retention cfg)%Z then Ret ()
        else
          inflight ← trigger (LiveRefs (gc_pid cfg));
          if decide (k ∈ inflight) then Ret ()
          else _ ← trigger (KvDelete k (Some (e_revision entry))); Ret ()
    end.

Definition RunOnce (skew : N) : prog (res go_error unit) :=
  l ← computeLiveSet;
  match l with
  | Err e => Ret (Err e)
  | Ok live =>
      inflight ← trigger (LiveRefs (gc_pid cfg));
      let live := list_to_set inflight ∪ live in
      ks ← trigger KvKeys;
      match ks with
      | Err e => Ret (if no_keys_found e then Ok () else Err e)
      | Ok keys =>
          sweepNow ← trigger (Now (Within skew));
          _ ← for_each keys () (sweep_key live sweepNow);
          Ret (Ok ())
      end
  end.

End gc.
