(* ===== verification/CommitSafety.v ===== *)
(** * Safety of commits and payloads

    Any number of publishers and garbage collectors share the assignment
    bucket. This file states what their messages on its stream guarantee, shows
    that every operation of publisher.go and commit_gc.go only appends such
    messages under every interleaving and failure, and derives that versions
    of the commit only grow and that what a commit refers to stays readable. *)
From S2P Require Import Prelude Partition Nats KV Wire Publisher CommitGC.

Section commit_safety.
Context `{Wire}.
Context (prefix : string) (lease slack : Z) (skew : N) (retention : Z).

Definition commit_key : string := (prefix +:+ ".") +:+ commitKeyName.
Definition payload_key (hash : string) : string := (prefix +:+ ".") +:+ (payloadKeyPrefix +:+ hash).

Definition commit_at (m : msg) : option AssignmentCommit :=
  match m_body m with Put s => unmarshal_commit s | _ => None end.

(** The bytes decompress, to bytes whose digest is [hash]. *)
Definition compressed (s hash : string) : Prop :=
  exists plain, gunzip s = Some plain /\ hex (sha256 plain) = hash.

(** The message stores compressed bytes whose digest is [hash]. *)
Definition stores (m : msg) (hash : string) : Prop :=
  exists s, m_body m = Put s /\ compressed s hash.

(** The payload behind a reference was written, with its content, at the
    revision the reference names and not before [since]. *)
Definition written (l : list msg) (since : Z) (ref : AssignmentPayloadRef) : Prop :=
  Key ref = payload_key (PayloadHash ref) /\
  exists m, m ∈ l /\ m_key m = Key ref /\ m_rev m = Revision ref /\
            stores m (PayloadHash ref) /\ (since <= m_time m)%Z.

(** A commit may follow [l]: it goes past the version it replaces, unless the
    64-bit version wrapped around, and its payloads were written recently. *)
Definition good_commit (l : list msg) (t : Z) (b : body) : Prop :=
  exists c, b = Put (marshal_commit c) /\ unmarshal_commit (marshal_commit c) = Some c /\
    (forall m0 c0, live l commit_key = Some m0 -> commit_at m0 = Some c0 ->
       (Version c0 < Version c)%Z \/ Version c = (- 2 ^ 63)%Z) /\
    map_Forall (λ _ ref, written l (t - lease) ref) (Payloads c).

(** A payload may be deleted: what was there is older than the retention at
    some reading [n] of a clock that may be [skew] off, and the current commit does
    not refer to it, unless it was written after [n - slack - skew]. *)
Definition collectable (l : list msg) (k : string) (t : Z) : Prop :=
  exists m n, live l k = Some m /\ (m_time m + retention <= n <= t + Z.of_N skew)%Z /\
    forall mc c, live l commit_key = Some mc -> commit_at mc = Some c ->
      k ∈ ref_keys (Payloads c) -> (n - slack - Z.of_N skew <= m_time mc)%Z.

Definition good (l : list msg) (k : string) (t : Z) (b : body) : Prop :=
  (k = commit_key -> good_commit l t b) /\
  (forall hash, k = payload_key hash ->
     (exists s, b = Put s /\ compressed s hash) \/ (b = Del /\ collectable l k t)).

Inductive lawful : list msg -> Prop :=
| lawful_nil : lawful []
| lawful_snoc l m :
    lawful l -> (0 < m_rev m)%Z -> Forall (λ m0, m_rev m0 < m_rev m /\ m_time m0 <= m_time m)%Z l ->
    good l (m_key m) (m_time m) (m_body m) -> lawful (l ++ [m]).

(** ** What a lawful stream guarantees *)

Lemma payload_key_inj h1 h2 : payload_key h1 = payload_key h2 -> h1 = h2.
Proof. unfold payload_key. intros E. by do 2 apply (inj (String.app _)) in E. Qed.

Lemma payload_not_commit hash : payload_key hash <> commit_key.
Proof. unfold payload_key, commit_key. intros E. by apply (inj (String.app _)) in E. Qed.

Lemma lawful_rev_unique l m1 m2 : lawful l -> m1 ∈ l -> m2 ∈ l -> m_rev m1 = m_rev m2 -> m1 = m2.
Proof.
  induction 1 as [|l m Hl IH Pr F G]; [set_solver|].
  rewrite !elem_of_app, !list_elem_of_singleton. rewrite Forall_forall in F.
  intros [H1'| ->] [H2'| ->] E; [by auto|apply F in H1'; lia|apply F in H2'; lia|done].
Qed.

Lemma lawful_rev_pos l m : lawful l -> m ∈ l -> (0 < m_rev m)%Z.
Proof. induction 1; set_solver. Qed.

Lemma lawful_commit l m c :
  lawful l -> live l commit_key = Some m -> commit_at m = Some c ->
  map_Forall (λ _ ref, written l (m_time m - lease) ref) (Payloads c).
Proof.
  intros Hl. induction Hl as [|l m' Hl IH Pr F G]; [done|]. rewrite live_snoc.
  assert (forall since ref, written l since ref -> written (l ++ [m']) since ref) as Mono.
  { intros since ref (? & m0 & ? & ?). split; [done|]. exists m0. set_solver. }
  case_decide as E.
  - destruct (proj1 G E) as (c' & Eb & D & _ & W). rewrite Eb. intros [= <-].
    unfold commit_at. rewrite Eb, D. intros [= ->]. eapply map_Forall_impl; [exact W|]. naive_solver.
  - intros L C. eapply map_Forall_impl; [by apply IH|]. naive_solver.
Qed.

(** A payload once written is still there, with its content, or so much time
    has passed that it could be collected. *)
Lemma lawful_payload l m hash :
  lawful l -> m ∈ l -> m_key m = payload_key hash -> stores m hash ->
  (exists m', live l (payload_key hash) = Some m' /\ stores m' hash /\ (m_time m <= m_time m')%Z) \/
  (exists m', m' ∈ l /\ (m_time m + retention <= m_time m' + Z.of_N skew)%Z).
Proof.
  intros Hl. induction Hl as [|l m' Hl IH Pr F G]; [set_solver|].
  rewrite elem_of_app, list_elem_of_singleton, live_snoc. intros Hm K St.
  assert (m ∈ l \/ m = m' -> (m_time m <= m_time m')%Z) as T.
  { rewrite Forall_forall in F. intros [Hm'| ->]; [by apply F|done]. }
  case_decide as E.
  - destruct (proj2 G hash E) as [(s & Eb & Es)|(Eb & m0 & n & L & B & _)]; rewrite Eb.
    + left. exists m'. split_and!; [done|by exists s|by apply T].
    + right. exists m'. rewrite elem_of_app, list_elem_of_singleton. split; [by right|].
      destruct Hm as [Hm| ->]; [|by destruct St as (? & ? & ?); congruence].
      rewrite E in L. destruct (IH Hm K St) as [(m1 & L1 & _ & T1)|(m1 & I1 & T1)].
      * simplify_eq. lia.
      * rewrite Forall_forall in F. apply F in I1. lia.
  - destruct Hm as [Hm| ->]; [|congruence]. destruct (IH Hm K St) as [?|(m1 & I1 & T1)]; [by left|].
    right. exists m1. set_solver.
Qed.

(** The payloads of the current commit are readable, with the content their
    references announce. *)
Lemma lawful_refs_readable l mc c w ref :
  (0 <= lease)%Z -> (0 <= slack)%Z -> (lease + slack + Z.of_N skew < retention)%Z ->
  lawful l -> live l commit_key = Some mc -> commit_at mc = Some c -> Payloads c !! w = Some ref ->
  exists m, live l (Key ref) = Some m /\ stores m (PayloadHash ref) /\ (m_time mc - lease <= m_time m)%Z.
Proof.
  intros Hp Hs Hr Hl. revert mc c. induction Hl as [|l m Hl IH Pr F G]; [done|]. intros mc c. rewrite live_snoc.
  case_decide as E.
  - destruct (proj1 G E) as (c' & Eb & D & _ & W). rewrite Eb. intros [= <-].
    unfold commit_at. rewrite Eb, D. intros [= ->] R.
    destruct (W _ _ R) as (K & m0 & I0 & K0 & _ & St & T0).
    rewrite live_snoc, decide_False by (rewrite E, K; intros ?; by eapply payload_not_commit).
    rewrite K in K0 |- *.
    destruct (lawful_payload l m0 _ Hl I0 K0 St) as [(m1 & L1 & S1 & T1)|(m1 & I1 & T1)].
    + exists m1. split_and!; [done..|lia].
    + rewrite Forall_forall in F. apply F in I1. lia.
  - intros L C R. destruct (IH mc c L C R) as (m0 & L0 & S0 & T0). rewrite live_snoc.
    case_decide as E'; [|by exists m0].
    destruct (lawful_commit l mc c Hl L C _ _ R) as (K & _). rewrite K in *.
    apply live_elem in L as Hin. rewrite Forall_forall in F. destruct (F mc) as [_ Ft]; [by apply Hin|].
    destruct (proj2 G _ E') as [(s & Eb & Es)|(Eb & m1 & n & L1 & B & Old)]; rewrite Eb.
    + exists m. split_and!; [done|by exists s|lia].
    + exfalso. rewrite E' in L1. simplify_eq.
      assert (n - slack - Z.of_N skew <= m_time mc)%Z; [|lia]. apply (Old _ _ L C). rewrite E'.
      apply list_elem_of_fmap. exists (w, ref). split; [done|]. by apply elem_of_map_to_list.
Qed.

(** A payload key only ever holds its compressed content. *)
Lemma lawful_payload_live l m hash : lawful l -> live l (payload_key hash) = Some m -> stores m hash.
Proof.
  intros Hl. induction Hl as [|l m' Hl IH Pr F G]; [done|]. rewrite live_snoc. case_decide as E; [|done].
  destruct (proj2 G hash E) as [(s & Eb & Es)|(Eb & _)]; rewrite Eb; [|done]. intros [= <-]. by exists s.
Qed.

(** The commit key only ever holds commits. *)
Lemma lawful_commit_put l m :
  lawful l -> m ∈ l -> m_key m = commit_key -> exists c, commit_at m = Some c.
Proof.
  induction 1 as [|l m' Hl IH Pr F G]; [set_solver|]. rewrite elem_of_app, list_elem_of_singleton.
  intros [Hm| ->] K; [by apply IH|]. destruct (proj1 G K) as (c & Eb & D & _). exists c.
  unfold commit_at. by rewrite Eb.
Qed.

Lemma lawful_commit_live l m :
  lawful l -> m ∈ l -> m_key m = commit_key ->
  exists m', live l commit_key = Some m' /\ (m_rev m <= m_rev m')%Z.
Proof.
  induction 1 as [|l m' Hl IH Pr F G]; [set_solver|]. rewrite elem_of_app, list_elem_of_singleton, live_snoc.
  intros Hm K. case_decide as E.
  - destruct (proj1 G E) as (c & -> & _). exists m'. split; [done|].
    destruct Hm as [Hm| ->]; [|done]. rewrite Forall_forall in F. apply F in Hm. lia.
  - destruct Hm as [Hm| ->]; [by apply IH|done].
Qed.

(** Along the stream, versions of the commit strictly increase, as long as the
    64-bit counter has not wrapped around. *)
Lemma lawful_versions l m1 m2 c1 c2 :
  lawful l -> (forall m c, m ∈ l -> m_key m = commit_key -> commit_at m = Some c -> (- 2 ^ 63 < Version c)%Z) ->
  m1 ∈ l -> m2 ∈ l -> m_key m1 = commit_key -> m_key m2 = commit_key ->
  commit_at m1 = Some c1 -> commit_at m2 = Some c2 -> (m_rev m1 < m_rev m2)%Z -> (Version c1 < Version c2)%Z.
Proof.
  intros Hl. revert m1 m2 c1 c2. induction Hl as [|l m Hl IH Pr F G]; [set_solver|].
  intros m1 m2 c1 c2 NW Hm1 Hm2 K1 K2 C1 C2 R.
  assert (forall m c, m ∈ l -> m_key m = commit_key -> commit_at m = Some c -> (- 2 ^ 63 < Version c)%Z) as NW'.
  { intros m' c' Hm'. apply NW. set_solver. }
  rewrite Forall_forall in F. rewrite elem_of_app, list_elem_of_singleton in Hm1, Hm2.
  destruct Hm2 as [Hm2| ->].
  { destruct Hm1 as [Hm1| ->]; [by apply (IH m1 m2)|]. apply F in Hm2. lia. }
  destruct Hm1 as [Hm1| ->]; [|lia].
  destruct (lawful_commit_live l m1 Hl Hm1 K1) as (m0 & L0 & R0). destruct (live_elem _ _ _ L0) as [Hm0 K0].
  destruct (lawful_commit_put l m0 Hl Hm0 K0) as [c0 C0].
  assert (Version c1 <= Version c0)%Z.
  { destruct (decide (m_rev m1 = m_rev m0)) as [Er|Nr].
    - assert (m1 = m0) as -> by by eapply lawful_rev_unique. simplify_eq. done.
    - assert (Version c1 < Version c0)%Z; [|lia]. apply (IH m1 m0); [done..|lia]. }
  destruct (proj1 G K2) as (c & Eb & D & V & _). unfold commit_at in C2. rewrite Eb, D in C2. simplify_eq.
  destruct (V _ _ L0 C0) as [?|W]; [lia|].
  assert (- 2 ^ 63 < Version c2)%Z; [|lia]. apply (NW m); [set_solver|done|]. unfold commit_at. by rewrite Eb.
Qed.

(** ** The operations keep the stream lawful *)

Context `{!WireLaws, Xxh3, SortFunc} (prefix_text : ascii_text prefix = true).

Definition Inv (v : view) : Prop := lawful (log v) /\ Forall (λ m, m_time m <= now v)%Z (log v).

(** A publish writes its commit within [lease] of its start; a sweep samples
    its clock within [slack] of its start, and that clock is at most [skew] off the
    server's. *)
Definition deadline (X : Type) (o : op X) : option Z :=
  match o with
  | KvCreate k _ | KvUpdate k _ _ => if decide (k = commit_key) then Some lease else None
  | Now (Within _) => Some slack
  | _ => None
  end.

Lemma Inv_same v v' : Inv v -> log v' = log v -> (now v <= now v')%Z -> Inv v'.
Proof.
  intros [L T] E Ht. split; rewrite E; [done|]. eapply Forall_impl; [exact T|]. intros m Hm. simpl in *. lia.
Qed.

Lemma Inv_appended me v v' k b r :
  Inv v -> (now v <= now v')%Z -> appended me v k b r v' -> good (log v) k (now v') b -> Inv v'.
Proof.
  intros [L T] Ht (E & Pr & R) G. split; rewrite E.
  - constructor; [done|done| |done]. rewrite Forall_forall in T, R |- *. intros m Hm.
    split; [by apply R|]. apply T in Hm. simpl. lia.
  - rewrite Forall_app, Forall_singleton. split; [|done].
    eapply Forall_impl; [exact T|]. intros m Hm. simpl in *. lia.
Qed.

Lemma Inv_write {A} me pre k b (rev : A -> Z -> Prop) v x v' :
  Inv v -> (now v <= now v')%Z -> write_spec me pre k b rev v x v' ->
  (pre -> good (log v) k (now v') b) -> Inv v'.
Proof.
  intros I Ht W G. destruct x as [a|e]; simpl in W.
  - destruct W as (r & P & _ & Ap). eapply Inv_appended; [done..|auto].
  - destruct W as [[E _]|(_ & P & r & Ap)]; [by eapply Inv_same|]. eapply Inv_appended; [done..|auto].
Qed.

Lemma good_other l k t b :
  k <> commit_key -> (forall hash, k <> payload_key hash) -> good l k t b.
Proof. intros N1 N2. split; [done|]. intros hash E. by destruct (N2 hash). Qed.

Lemma good_alias l cfg w t b :
  cfg_Prefix cfg = prefix -> isProtocolSubcomponent w = false -> good l (aliasKey cfg w) t b.
Proof.
  intros Ec P. unfold aliasKey, keyPrefix. rewrite Ec. apply good_other; [|intros hash];
    intros E; apply (inj (String.app _)) in E; rewrite E in P; done.
Qed.

Lemma good_commit_log l cfg version t b :
  cfg_Prefix cfg = prefix -> good l (commitLogKey cfg version) t b.
Proof.
  intros Ec. unfold commitLogKey, keyPrefix. rewrite Ec. apply good_other; [|intros hash];
    intros E; by apply (inj (String.app _)) in E.
Qed.

Lemma good_payload l t s hash :
  compressed s hash -> good l (payload_key hash) t (Put s).
Proof.
  intros E. split; [by intros ?%payload_not_commit|]. intros hash' <-%payload_key_inj. left. by exists s.
Qed.

(** The publisher's view of the commit: a revision it knows belongs to a commit
    whose version it has not fallen behind. *)
Definition observed (v : view) (rev : Z) (c : AssignmentCommit) : Prop :=
  exists m, m ∈ log v /\ m_key m = commit_key /\ m_rev m = rev /\ commit_at m = Some c.

Definition knows_commit (p : AssignmentPublisher) (v : view) : Prop :=
  int64 (currentVersion p) /\
  (lastCommitRev p = 0%Z \/
   exists c, observed v (lastCommitRev p) c /\ (Version c <= currentVersion p)%Z).

Lemma observed_later v v' rev c : later v v' -> observed v rev c -> observed v' rev c.
Proof. intros [(l & El & _) _] (m & Hm & R). exists m. rewrite El. set_solver. Qed.

Lemma observed_int64 v rev c : observed v rev c -> int64 (Version c).
Proof. intros (m & _ & _ & _ & C). unfold commit_at in C. destruct (m_body m); [|done..]. by eapply commit_version_int64. Qed.

Lemma knows_later p v v' : later v v' -> knows_commit p v -> knows_commit p v'.
Proof.
  intros L [Hi [E|(c & O & V)]]; (split; [done|]); [by left|]. right. exists c.
  split; [by eapply observed_later|done].
Qed.

Lemma written_later since ref v v' : later v v' -> written (log v) since ref -> written (log v') since ref.
Proof.
  intros [(l & El & _) _] (K & m & Hm & R). split; [done|]. exists m. rewrite El. set_solver.
Qed.

Lemma read_commit me v1 x v2 :
  effect me (KvGet commit_key) v1 x v2 ->
  match x with
  | Ok e => forall c, unmarshal_commit (e_value e) = Some c -> observed v2 (e_revision e) c
  | Err _ => True
  end.
Proof.
  intros (E & _ & R). destruct x as [e|]; [|done]. destruct R as (m & L & ->). intros c D.
  exists m. rewrite E. destruct (live_elem _ _ _ L) as [Hm K]. split_and!; [done..|].
  destruct (live_put _ _ _ L) as [s Eb]. unfold commit_at. simpl in D. by rewrite Eb in D |- *.
Qed.

Lemma knows_reseed p p' v rev c :
  observed v rev c -> knows_commit p v ->
  lastCommitRev p' = (if decide (rev > lastCommitRev p)%Z then rev else lastCommitRev p) ->
  currentVersion p' = (if decide (Version c > currentVersion p)%Z then Version c else currentVersion p) ->
  knows_commit p' v.
Proof.
  intros O [Hi K] Er Ev. unfold knows_commit. rewrite Er, Ev. split.
  { case_decide; [by eapply observed_int64|done]. }
  destruct (decide (rev > lastCommitRev p)%Z).
  - right. exists c. split; [done|]. case_decide; lia.
  - destruct K as [->|(c' & O' & L)]; [by left|]. right. exists c'. split; [done|]. case_decide; lia.
Qed.

Section publisher_wp.
Context (me : nat) (cfg : PublisherConfig) (cfg_prefix : cfg_Prefix cfg = prefix).

Lemma commitKey_eq : commitKey cfg = commit_key.
Proof. unfold commitKey, commit_key, keyPrefix. by rewrite cfg_prefix. Qed.

Lemma payloadKey_eq hash : payloadKey cfg hash = payload_key hash.
Proof. unfold payloadKey, payload_key, keyPrefix. by rewrite cfg_prefix. Qed.

Local Notation wp := (wp Inv deadline me anyone).

Lemma wp_reseed t0 p v :
  knows_commit p v ->
  wp t0 (reseedFromLiveCommitLocked cfg p)
    (λ r v', knows_commit r.1 v' /\ (currentVersion p <= currentVersion r.1)%Z) v.
Proof.
  intros K. unfold reseedFromLiveCommitLocked. rewrite commitKey_eq.
  apply wp_quiet; [apply Inv_same|done|]. intros [e|e] v1 L1 I1 (v0 & _ & _ & R & _).
  2: { intros v2 L2 _. split; [|done]. eapply knows_later; [|done]. by etrans. }
  destruct (unmarshal_commit _) as [c|] eqn:D.
  2: { intros v2 L2 _. split; [|done]. eapply knows_later; [|done]. by etrans. }
  apply read_commit in R. apply wp_quiet; [apply Inv_same|done|]. intros t v2 L2 I2 _ v3 L3 _.
  split; [|simpl; case_decide; lia].
  apply (knows_later _ v1); [by etrans|]. eapply knows_reseed; [by apply R| |done..].
  by eapply knows_later.
Qed.

Lemma wp_ensure_up t0 p v :
  knows_commit p v -> Inv v ->
  wp t0 (ensureCommitViewCurrentLocked cfg p)
    (λ r v', knows_commit r.1 v' /\ (currentVersion p <= currentVersion r.1)%Z) v.
Proof.
  intros K I. unfold ensureCommitViewCurrentLocked. destruct (negb _).
  - intros v1 L _. split; [by eapply knows_later|done].
  - apply wp_bind; [|done]. eapply wp_mono; [by apply wp_reseed|].
    intros [p' e] v1 L1 I1 [K' V'] v2 L2 _. split; [by eapply knows_later|done].
Qed.

Lemma wp_surrender t0 e p v :
  knows_commit p v -> Inv v ->
  wp t0 (surrenderCommitCASLocked cfg e p) (λ r v', knows_commit r.1 v' /\ r.2 = Err (ErrCommitCASFailed e)) v.
Proof.
  intros K I. unfold surrenderCommitCASLocked, reseedAfterCommitCASLossLocked.
  apply wp_bind; [|done]. destruct (negb _).
  - intros v1 L1 _ v2 L2 _. split; [|done]. eapply knows_later; [|done]. by etrans.
  - apply wp_bind; [|done]. eapply wp_mono; [by apply wp_reseed|].
    intros [p' e'] v1 L1 I1 [K' _] v2 L2 _ v3 L3 _. split; [|done]. eapply knows_later; [|done]. by etrans.
Qed.

(** ** Payloads *)

Definition adopted (v : view) (t0 : Z) (hash : string) (rev : Z) : Prop :=
  exists m, m ∈ log v /\ m_key m = payload_key hash /\ m_rev m = rev /\ stores m hash /\ (t0 <= m_time m)%Z.

Lemma adopted_later v v' t0 hash rev : later v v' -> adopted v t0 hash rev -> adopted v' t0 hash rev.
Proof. intros [(l & El & _) _] (m & Hm & R). exists m. rewrite El. set_solver. Qed.

Lemma adopted_write t0 hash s v r v' :
  compressed s hash -> (t0 <= now v')%Z ->
  appended me v (payload_key hash) (Put s) r v' -> adopted v' t0 hash r.
Proof.
  intros E Ht (El & _). exists (mkMsg r (payload_key hash) (now v') (Put s) (Some me)). rewrite El.
  split_and!; [set_solver|done..|by exists s|done].
Qed.

Lemma wp_adopt_attempt t0 hash stored v :
  compressed stored (hex hash) -> (t0 <= now v)%Z ->
  wp t0 (adopt_attempt (payload_key (hex hash)) hash stored)
    (λ r v', match r with Ok (Some rev) => adopted v' t0 (hex hash) rev | _ => True end) v.
Proof.
  intros Es Ht. unfold adopt_attempt. apply wp_op.
  { intros v1 x v2 L1 L2 I1 [E _] _. eapply Inv_write; [done|apply L2|exact E|].
    intros _. by apply good_payload. }
  intros v1 [rev|e] v2 L1 L2 I1 [E _] _ I2.
  { destruct E as (r & _ & -> & Ap). intros v3 L3 _. eapply adopted_later; [done|].
    eapply adopted_write; [done| |done]. destruct L1, L2. lia. }
  destruct (negb _); [done|]. apply wp_quiet; [apply Inv_same|done|]. intros [g|g] v3 L3 I3 (v3' & _ & _ & (El & _ & R) & _); [|done].
  destruct (negb _); [done|].
  assert (compressed (e_value g) (hex hash)) as Eh.
  { destruct R as (m & L & ->). rewrite <-El in L. destruct (lawful_payload_live _ _ _ (proj1 I3) L) as (s & Eb & Es').
    unfold entry_of. simpl. by rewrite Eb. }
  apply wp_op.
  { intros v4 x v5 L4 L5 I4 [E' _] _. eapply Inv_write; [done|apply L5|exact E'|].
    intros _. by apply good_payload. }
  intros v4 [rev|ue] v5 L4 L5 I4 [E' _] _ I5; [|by destruct (Is ue _)].
  destruct E' as (r & _ & -> & Ap). intros v6 L6 _. eapply adopted_later; [done|].
  eapply adopted_write; [done| |done]. destruct L1, L2, L3, L4, L5. lia.
Qed.

Lemma wp_adopt t0 hash stored v :
  compressed stored (hex hash) -> (t0 <= now v)%Z -> Inv v ->
  wp t0 (createOrAdoptPayload (payload_key (hex hash)) hash stored)
    (λ r v', match r with Ok rev => adopted v' t0 (hex hash) rev | Err _ => True end) v.
Proof.
  intros Es Ht I. unfold createOrAdoptPayload. generalize 0 as attempt.
  induction payloadAdoptMaxAttempts as [|n IH] in v, Ht, I |- *; intros attempt; [done|]. cbn [adopt_loop].
  apply wp_quiet; [apply Inv_same|done|]. intros [e|] v1 L1 I1 _; [done|].
  apply wp_bind; [|done]. eapply wp_mono; [apply wp_adopt_attempt; [done|destruct L1; lia]|].
  intros [[rev|]|e] v2 L2 I2 A; [|..|done].
  - intros v3 L3 _. by eapply adopted_later.
  - apply wp_quiet; [apply Inv_same|done|]. intros _ v3 L3 I3 _. apply IH; [|done]. destruct L1, L2, L3. lia.
Qed.

Definition payload_hash (input : PublishInput) (w : string) : string :=
  hex (sha256 (marshal_payload (payload_of input w))).

(** What the calculator passes: worker IDs that are plain text and outside the
    protocol's name space. *)
Definition input_ok (input : PublishInput) : Prop :=
  Forall (λ w, ascii_text w = true /\ isProtocolSubcomponent w = false) (in_Workers input) /\
  ascii_text (in_Lifecycle input) = true.

(** References for the workers of the batch, each to a payload with the
    content computed for that worker, written since [t0]. *)
Definition refs_good (v : view) (t0 : Z) (input : PublishInput) (refs : gmap string AssignmentPayloadRef) : Prop :=
  map_Forall (λ w ref, w ∈ in_Workers input /\ written (log v) t0 ref /\
    PayloadHash ref = payload_hash input w) refs.

Definition refs_complete (input : PublishInput) (refs : gmap string AssignmentPayloadRef) : Prop :=
  forall w, w ∈ in_Workers input -> is_Some (refs !! w).

Lemma refs_good_later v v' t0 input rs : later v v' -> refs_good v t0 input rs -> refs_good v' t0 input rs.
Proof.
  intros L R w ref Hw. destruct (R w ref Hw) as (? & ? & ?). split_and!; [done| |done]. by eapply written_later.
Qed.

Lemma wp_writePayloads t0 input v :
  (t0 <= now v)%Z -> Inv v ->
  wp t0 (writePayloads cfg input)
    (λ r v', match r with
             | Ok (rs, _) => refs_good v' t0 input rs /\ refs_complete input rs
             | Err _ => True
             end) v.
Proof.
  intros Ht I. unfold writePayloads.
  set (J := λ (l : list string) (acc : gmap string AssignmentPayloadRef * gmap string AssignmentPayload) v',
    (t0 <= now v')%Z /\ (forall w, w ∈ l -> w ∈ in_Workers input) /\ refs_good v' t0 input acc.1 /\
    (forall w, w ∈ in_Workers input -> w ∈ l \/ is_Some (acc.1 !! w))).
  eapply wp_mono; [apply (wp_for_each_err Inv deadline me anyone t0 _ _ _ J (λ _ _, True)); [|done|..]|].
  - intros l s v1 v2 L (? & ? & ? & ?). split_and!; [destruct L; lia|done| |done]. by eapply refs_good_later.
  - intros w l [rs ps] v1 L1 I1 (Ht1 & Hl & Hr & Hc). unfold write_payload. rewrite payloadKey_eq.
    apply wp_bind; [|done].
    eapply wp_mono; [apply wp_adopt; [eexists; split; [apply gunzip_gzip|done]|done..]|].
    intros [rev|e] v2 L2 I2 A; [|done]. intros v3 L3 _. split_and!.
    + destruct L2, L3; lia.
    + set_solver.
    + apply map_Forall_insert_2.
      * split_and!; [apply Hl; by left| |done]. split; [done|]. eapply adopted_later in A; [|done].
        destruct A as (m & ? & ? & ? & ? & ?). exists m. by split_and!.
      * eapply refs_good_later; [|done]. by etrans.
    + intros w' Hw'. simpl. destruct (decide (w' = w)) as [->|N]; [rewrite lookup_insert_eq; eauto|].
      rewrite lookup_insert_ne by done. destruct (Hc w' Hw') as [Hin|]; [|by right]. left. set_solver.
  - split_and!; [done|intros w; by rewrite elem_of_sort_strings|apply map_Forall_empty|].
    intros w Hw. left. by rewrite elem_of_sort_strings.
  - done.
  - intros [[rs ps]|e] v1 L1 I1; [|done]. intros (_ & _ & Hr & Hc). split; [done|].
    intros w Hw. destruct (Hc w Hw) as [Hn|]; [by apply not_elem_of_nil in Hn|done].
Qed.

(** ** Aliases, commit logs and clean-up touch no protected key *)

Lemma wp_alias_once t0 w legacy v :
  isProtocolSubcomponent w = false -> wp t0 (writeLegacyAliasOnce cfg w legacy) (λ _ _, True) v.
Proof.
  intros Hw. unfold writeLegacyAliasOnce. apply wp_op; [|done].
  intros v1 x v2 L1 L2 I1 [E _] _. eapply Inv_write; [done|apply L2|exact E|]. intros _. by apply good_alias.
Qed.

Lemma wp_alias_retry t0 w legacy v :
  isProtocolSubcomponent w = false -> wp t0 (writeLegacyAliasWithRetry cfg w legacy) (λ _ _, True) v.
Proof.
  intros Hw. unfold writeLegacyAliasWithRetry. generalize (aliasBarrierMaxAttempts - 1) as n. intros n.
  generalize 0 as attempt. induction n as [|n IH] in v |- *; intros attempt; cbn [alias_loop].
  all: apply wp_quiet; [apply Inv_same|done|]; intros [e|] v1 L1 I1 _; [done|]; apply wp_bind; [|done];
    (eapply wp_mono; [by apply wp_alias_once|]); intros [[]|e] v2 L2 I2 _; try done.
  apply wp_quiet; [apply Inv_same|done|]. intros [e'|] v3 L3 I3 _; [done|]. apply IH.
Qed.

Lemma wp_classify t0 ws v :
  Inv v -> wp t0 (classifyLegacyWorkers cfg ws) (λ out _, forall w, w ∈ out -> w ∈ ws) v.
Proof.
  intros I. unfold classifyLegacyWorkers. destruct (negb _); [set_solver|].
  eapply wp_mono.
  - apply (wp_for_each Inv deadline me anyone t0 _ _ _ (λ (l out : list string) _, forall w, w ∈ l \/ w ∈ out -> w ∈ ws));
      [done| |set_solver|done].
    intros w l out v1 L1 I1 Hs. apply wp_quiet; [apply Inv_same|done|]. intros x v2 L2 I2 _ v3 L3 _. destruct (is_legacy x); set_solver.
  - set_solver.
Qed.

Lemma wp_barrier t0 input legacy payloads version v :
  Inv v -> Forall (λ w, isProtocolSubcomponent w = false) legacy ->
  wp t0 (runAliasBarrier cfg input legacy payloads version) (λ _ _, True) v.
Proof.
  intros I F. unfold runAliasBarrier. eapply wp_mono.
  - apply (wp_for_each_err Inv deadline me anyone t0 _ _ _ (λ l _ _, Forall (λ w, isProtocolSubcomponent w = false) l)
      (λ _ _, True)); [done..| |done|done].
    intros w l s v1 L1 I1 F1. inversion_clear F1 as [|? ? Hw Fl]. apply wp_bind; [|done].
    eapply wp_mono; [by apply wp_alias_retry|]. intros [a|e] v2 L2 I2 _ v3 L3 _; done.
  - done.
Qed.

Lemma wp_commit_log t0 commit rs v : wp t0 (writeCommitLog cfg commit rs) (λ _ _, True) v.
Proof.
  unfold writeCommitLog. apply wp_op; [|done].
  intros v1 x v2 L1 L2 I1 [E _] _. eapply Inv_write; [done|apply L2|exact E|]. intros _. by apply good_commit_log.
Qed.

Lemma wp_cleanup t0 ws v : Inv v -> wp t0 (cleanupStaleAssignmentsLocked cfg ws) (λ _ _, True) v.
Proof.
  intros I. apply (wp_for_each Inv deadline me anyone t0 _ _ _ (λ _ _ _, True)); [done| |done|done].
  intros w l s v1 L1 I1 _. destruct (isProtocolSubcomponent w) eqn:Hw; [done|].
  apply wp_bind; [|done]. unfold DeleteKey. apply wp_op; [|by intros v2 [] v3].
  intros v2 x v3 L2 L3 I2 [E _] _. eapply Inv_write; [done|apply L3|exact E|]. intros _. by apply good_alias.
Qed.

Lemma wp_after_commit t0 input commit rs payloads legacy p v :
  Inv v -> Forall (λ w, isProtocolSubcomponent w = false) (Workers commit) ->
  wp t0 (after_commit cfg input commit rs payloads legacy p)
    (λ p' _, currentVersion p' = currentVersion p /\ lastCommitRev p' = lastCommitRev p /\ lastCommit p' = lastCommit p) v.
Proof.
  intros I F. unfold after_commit. apply wp_bind; [|done]. eapply wp_mono; [apply wp_commit_log|].
  intros _ v1 L1 I1 _. apply wp_bind; [|done]. eapply wp_mono.
  { apply (wp_for_each Inv deadline me anyone t0 _ _ _ (λ l _ _, Forall (λ w, isProtocolSubcomponent w = false) l));
      [done| |done|done].
    intros w l s v2 L2 I2 F2. inversion_clear F2 as [|? ? Hw Fl]. case_decide; [by intros v3 _ _|].
    apply wp_bind; [|done]. eapply wp_mono; [by apply wp_alias_once|]. by intros _ v3 _ _ _ v4 _ _. }
  intros _ v2 L2 I2 _. apply wp_bind; [|done]. eapply wp_mono; [by apply wp_cleanup|].
  intros _ v3 L3 I3 _. by apply wp_quiet; [apply Inv_same|..].
Qed.

(** ** The commit point *)

Lemma written_weaken l since since' ref : (since' <= since)%Z -> written l since ref -> written l since' ref.
Proof. intros Hs (K & m & ? & ? & ? & ? & ?). split; [done|]. exists m. split_and!; [done..|lia]. Qed.

Lemma build_commit_text v t0 input version at' rs p :
  int64 version -> input_ok input -> refs_good v t0 input rs -> commit_text (build_commit input version at' rs p).
Proof.
  intros Hv [Hw Hlc] R. rewrite Forall_forall in Hw. split_and!; [apply Hv..| | |done].
  - apply Forall_forall. intros w. simpl. rewrite elem_of_sort_strings. intros Hin. by apply Hw.
  - intros w ref Hr. simpl in Hr. destruct (R w ref Hr) as (Hin & [K _] & E).
    assert (ascii_text (PayloadHash ref) = true) as Ht by (rewrite E; apply hex_text).
    split_and!; [by apply Hw| |done]. rewrite K. unfold payload_key.
    by rewrite !ascii_text_app, prefix_text, Ht.
Qed.

(** The condition of the compare-and-swap makes the new commit a good one. *)
Lemma good_new_commit v t t0 input at' rs p :
  Inv v -> input_ok input -> refs_good v t0 input rs -> knows_commit p v -> (t <= t0 + lease)%Z ->
  (live (log v) commit_key = None \/ (last_rev (log v) commit_key = lastCommitRev p /\ lastCommitRev p <> 0%Z)) ->
  good (log v) commit_key t
    (Put (marshal_commit (build_commit input (wrap64 (currentVersion p + 1)) at' rs p))).
Proof.
  intros [Hl _] Hi R [H64 K] Ht Pre. split; [|by intros ? ?%symmetry%payload_not_commit].
  intros _. eexists. split_and!; [done|by eapply commit_roundtrip, build_commit_text; [apply wrap64_range|..]| |].
  - intros m0 c0 L C. destruct Pre as [N|[E N]]; [congruence|]. destruct K as [?|(c & (m & Hm & Km & Rm & Cm) & V)]; [done|].
    rewrite (live_last_rev _ _ _ L) in E. apply live_elem in L as [Hm0 _].
    assert (m = m0) as -> by (eapply lawful_rev_unique; [done..|congruence]). simplify_eq. simpl.
    destruct (wrap64_succ _ H64); [left; lia|by right].
  - intros w ref Hr. destruct (R w ref Hr) as (_ & W & _). eapply written_weaken; [|done]. lia.
Qed.

Lemma timely_commit_write t0 s v r :
  timely deadline t0 (KvCreate commit_key s) v \/ timely deadline t0 (KvUpdate commit_key s r) v ->
  (now v <= t0 + lease)%Z.
Proof. unfold timely. cbn. rewrite decide_True by done. by intros [?|?]. Qed.

(** What a successful publish leaves behind. *)
Definition published (v : view) (t0 : Z) (input : PublishInput) (p p' : AssignmentPublisher) : Prop :=
  exists c, observed v (lastCommitRev p') c /\ lastCommit p' = Some c /\
    currentVersion p' = wrap64 (currentVersion p + 1) /\ Version c = currentVersion p' /\
    Workers c = sort_strings (in_Workers input) /\ PrevCommitRev c = lastCommitRev p /\
    refs_good v t0 input (Payloads c) /\ refs_complete input (Payloads c).

Lemma published_later v v' t0 input p p' :
  later v v' -> published v t0 input p p' -> published v' t0 input p p'.
Proof.
  intros L (c & ? & ? & ? & ? & ? & ? & ? & ?). exists c.
  split_and!; [by eapply observed_later|done..|by eapply refs_good_later|done].
Qed.

Lemma wp_cas t0 input at' rs p v :
  input_ok input -> refs_good v t0 input rs -> knows_commit p v -> Inv v ->
  let c := build_commit input (wrap64 (currentVersion p + 1)) at' rs p in
  wp t0 (casWriteCommitLocked cfg (marshal_commit c) p)
    (λ r v', match r with Ok rev => observed v' rev c | Err _ => True end) v.
Proof.
  intros Hi R K I c. unfold casWriteCommitLocked. rewrite commitKey_eq.
  assert (forall v1 v2, later v v1 -> Inv v1 -> (now v2 <= t0 + lease)%Z ->
    (live (log v1) commit_key = None \/ (last_rev (log v1) commit_key = lastCommitRev p /\ lastCommitRev p <> 0%Z)) ->
    good (log v1) commit_key (now v2) (Put (marshal_commit c))) as G.
  { intros v1 v2 L I1 Ht Pre. eapply good_new_commit; [done|done|by eapply refs_good_later|by eapply knows_later|done..]. }
  assert (forall v1 r v2, appended me v1 commit_key (Put (marshal_commit c)) r v2 -> observed v2 r c) as O.
  { intros v1 r v2 (E & _). eexists. rewrite E. split_and!; [by apply elem_of_app; right; left|done..|].
    by eapply commit_roundtrip, build_commit_text; [apply wrap64_range|..]. }
  case_decide as Z0; intros v1 x v2 L I1 [Ht [E _]] T.
  - split.
    + eapply Inv_write; [done|done|exact E|]. intros Pre. apply G; [done..| |by left].
      by apply (timely_commit_write _ (marshal_commit c) _ 0); left.
    + intros v3 L3 _. destruct x as [rev|]; [|done]. destruct E as (r & _ & -> & Ap).
      eapply observed_later; [done|]. by eapply O.
  - split.
    + eapply Inv_write; [done|done|exact E|]. intros Pre. apply G; [done..| |by right].
      by apply (timely_commit_write _ (marshal_commit c) _ (lastCommitRev p)); right.
    + intros v3 L3 _. destruct x as [rev|]; [|done]. destruct E as (r & _ & -> & Ap).
      eapply observed_later; [done|]. by eapply O.
Qed.

(** After a publish: the publisher's knowledge is intact, and success means the
    batch was committed; the in-between states of [v] do not matter. *)
Definition publish_post (t0 : Z) (input : PublishInput) (p : AssignmentPublisher)
    (r : AssignmentPublisher * res publish_err unit) (v : view) : Prop :=
  knows_commit r.1 v /\ (r.2 = Ok () -> published v t0 input p r.1).

Lemma publish_post_later t0 input p r v v' :
  later v v' -> publish_post t0 input p r v -> publish_post t0 input p r v'.
Proof.
  intros L [K P]. split; [by eapply knows_later|]. intros E. eapply published_later; [done|]. by apply P.
Qed.

Lemma publish_fail t0 t1 input p e v : knows_commit p v -> wp t1 (Ret (p, Err e)) (publish_post t0 input p) v.
Proof. intros K v1 L _. split; [by eapply knows_later|done]. Qed.

Lemma wp_commit_batch t0 input rs payloads p v :
  input_ok input -> refs_good v t0 input rs -> refs_complete input rs -> knows_commit p v -> Inv v ->
  wp t0 (commit_batch cfg input (wrap64 (currentVersion p + 1)) rs payloads p) (publish_post t0 input p) v.
Proof.
  intros Hi R Hc K I. unfold commit_batch.
  assert (forall v1 rev sentinel, Inv v1 -> wp t0 (checkLeadership cfg rev sentinel) (λ _ _, True) v1) as Lead.
  { intros v1 rev sn _. unfold checkLeadership. destruct (negb _); [done|]. by apply wp_quiet; [apply Inv_same|..]. }
  apply wp_bind; [|done]. eapply wp_mono; [by apply Lead|]. intros [[]|e] v1 L1 I1 _; [|by apply publish_fail; eapply knows_later].
  apply wp_bind; [|done]. eapply wp_mono; [by apply wp_classify|]. intros legacy v2 L2 I2 Hleg.
  destruct Hi as [Hw Hlc] eqn:Ei. clear Ei.
  assert (Forall (λ w, isProtocolSubcomponent w = false) (in_Workers input)) as Hp.
  { eapply Forall_impl; [exact Hw|]. by intros w []. }
  apply wp_bind; [|done]. eapply wp_mono; [apply wp_barrier; [done|]|].
  { rewrite Forall_forall in Hp |- *. auto. }
  intros [[]|e] v3 L3 I3 _; [|apply publish_fail; eapply knows_later; [|done]; by do 2 (etrans; [done|])].
  apply wp_bind; [|done]. eapply wp_mono; [by apply Lead|].
  intros [[]|e] v4 L4 I4 _; [|apply publish_fail; eapply knows_later; [|done]; by do 3 (etrans; [done|])].
  apply wp_quiet; [apply Inv_same|done|]. intros at' v5 L5 I5 _.
  assert (later v v5) as L by (by do 4 (etrans; [done|])). clear L1 L2 L3 L4 L5.
  apply wp_bind; [|done]. eapply (wp_mono _ _ _ _ _ _ (λ _ _, True)).
  { unfold abortIfShuttingDown. destruct (negb _); [done|]. by apply wp_quiet; [apply Inv_same|..]. }
  intros [[]|e] v6 L6 I6 _; [|apply publish_fail; eapply knows_later; [|done]; by etrans].
  eapply knows_later in K; [|by etrans]. eapply refs_good_later in R; [|by etrans].
  apply wp_bind; [|done]. eapply wp_mono; [by apply wp_cas|]. intros [rev|e] v7 L7 I7 O.
  - apply wp_quiet; [apply Inv_same|done|]. intros obs v8 L8 I8 _. apply wp_bind; [|done]. eapply wp_mono.
    { apply wp_after_commit; [done|]. simpl. by rewrite sort_strings_perm. }
    intros p' v9 L9 I9 (Ev & Er & Ec) v10 L10 _. simpl in *.
    assert (observed v10 rev (build_commit input (wrap64 (currentVersion p + 1)) at' rs p)) as O'.
    { eapply observed_later; [|done]. by do 2 (etrans; [done|]). }
    split.
    + split; simpl; [rewrite Ev; apply wrap64_range|]. right. eexists. rewrite Er, Ev. by split.
    + intros _. eexists. simpl. rewrite Er, Ev, Ec. split_and!; [done..| |done].
      eapply refs_good_later; [|done]. by do 3 (etrans; [done|]).
  - eapply wp_mono; [apply wp_surrender; [by eapply knows_later|done]|].
    intros [p' r] v8 L8 I8 [K' E]. split; [done|]. simpl in *. by rewrite E.
Qed.

Lemma wp_foreach_quiet {A} t0 (o : A -> op unit) (l : list A) v :
  (forall x, quiet (o x) = true) -> Inv v -> wp t0 (for_each l () (λ x _, trigger (o x))) (λ _ _, True) v.
Proof.
  intros Q I. apply (wp_for_each Inv deadline me anyone t0 _ _ _ (λ _ _ _, True)); [done| |done|done].
  intros x l' s v1 L1 I1 _ v2 y v3 L2 I2 S T. split; [|done].
  destruct S as [Ht E]. eapply Inv_same; [done|by eapply quiet_log|done].
Qed.

Lemma wp_Publish t0 input p v :
  input_ok input -> knows_commit p v -> Inv v -> (t0 <= now v)%Z ->
  wp t0 (Publish cfg input p)
    (λ r v', knows_commit r.1 v' /\
       (r.2 = Ok () -> in_Workers input <> [] ->
        exists p1, published v' t0 input p1 r.1 /\ (currentVersion p <= currentVersion p1)%Z)) v.
Proof.
  intros Hi K I Ht. unfold Publish. case_decide as E0.
  { intros v1 L _. split; [by eapply knows_later|]. by destruct (in_Workers input). }
  apply wp_bind; [|done]. eapply wp_mono.
  { by apply (wp_ensure_up t0 p v). }
  intros [p1 [e|]] v1 L1 I1 [K1 V1]; simpl in K1, V1; [intros v2 L2 _; split; [by eapply knows_later|done]|].
  destruct (checkCoverage _ _ _) as [_|rep]; [|intros v2 L2 _; split; [by eapply knows_later|done]].
  apply wp_bind; [|done]. eapply wp_mono; [apply wp_writePayloads; [destruct L1; lia|done]|].
  intros [[rs payloads]|e] v2 L2 I2 W; [|intros v3 L3 _; split; [eapply knows_later; [|done]; by etrans|done]].
  destruct W as [R Hc]. apply wp_bind; [|done]. eapply wp_mono; [by apply wp_foreach_quiet|].
  intros _ v3 L3 I3 _. apply wp_bind; [|done]. eapply wp_mono.
  { apply (wp_commit_batch t0 input rs payloads p1 v3); [done|by eapply refs_good_later|done| |done].
    eapply knows_later; [|done]. by etrans. }
  intros r v4 L4 I4 Po. apply wp_bind; [|done]. eapply wp_mono; [by apply wp_foreach_quiet|].
  intros _ v5 L5 I5 _ v6 L6 _. eapply publish_post_later in Po as [K' P']; [|by etrans].
  split; [done|]. intros E _. exists p1. split; [by apply P'|done].
Qed.

(** ** Takeover *)

Lemma wp_bootstrap t0 p v :
  knows_commit p v -> wp t0 (BootstrapLastCommit cfg p) (λ p' v', knows_commit p' v') v.
Proof.
  intros K. unfold BootstrapLastCommit. rewrite commitKey_eq.
  apply wp_quiet; [apply Inv_same|done|]. intros [e|e] v1 L1 I1 (v0 & _ & _ & R & _).
  2: { intros v2 L2 _. eapply knows_later; [|done]. by etrans. }
  destruct (unmarshal_commit _) as [c|] eqn:D.
  2: { intros v2 L2 _. eapply knows_later; [|done]. by etrans. }
  apply read_commit in R. apply wp_quiet; [apply Inv_same|done|]. intros t v2 L2 I2 _ v3 L3 _.
  apply (knows_later _ v1); [by etrans|]. eapply knows_reseed; [by apply R| |done..]. by eapply knows_later.
Qed.

Lemma wp_scan_alias t0 seeded key acc v :
  int64 acc.1 -> wp t0 (scan_alias cfg seeded key acc) (λ acc' _, int64 acc'.1) v.
Proof.
  intros Hi. unfold scan_alias. destruct acc as [h ws].
  destruct (isProtocolSubcomponent _); [by intros v1 _ _|]. destruct seeded; [by intros v1 _ _|].
  unfold GetJSON. apply wp_quiet; [apply Inv_same|done|]. intros [e|e] v1 L1 I1 _ v2 L2 _.
  - destruct (unmarshal_assignment _) as [a|] eqn:D; [|done]. simpl. case_decide; [|done].
    by eapply assignment_version_int64.
  - by destruct (Is e _).
Qed.

Lemma knows_raise p version v : int64 version -> knows_commit p v -> knows_commit (raise_version version p) v.
Proof.
  intros Hi [H64 K]. split; simpl.
  - by case_decide.
  - destruct K as [?|(c & O & V)]; [by left|]. right. exists c. split; [done|]. case_decide; lia.
Qed.

Lemma wp_discover t0 p v :
  knows_commit p v -> Inv v -> wp t0 (DiscoverHighestVersion cfg p) (λ r v', knows_commit r.1 v') v.
Proof.
  intros K I. unfold DiscoverHighestVersion, ListKeys. rewrite commitKey_eq.
  apply wp_bind; [|done]. apply wp_quiet; [apply Inv_same|done|]. intros ks v1 L1 I1 _ v2 L2 I2.
  match goal with |- wp _ (match ?x with _ => _ end) _ _ => destruct x as [keys|e] end.
  2: { intros v3 L3 _. eapply knows_later; [|done]. by do 2 (etrans; [done|]). }
  apply wp_quiet; [apply Inv_same|done|]. intros g v3 L3 I3 (v0 & _ & _ & R & _). apply read_commit in R.
  assert (knows_commit p v3) as K3 by (eapply knows_later; [|done]; by do 2 (etrans; [done|])).
  match goal with |- wp _ (let '(_, _) := ?x in _) _ _ => set (seed := x) end.
  assert (knows_commit seed.1 v3) as Ks.
  { subst seed. destruct g as [e|]; [|done]. destruct (unmarshal_commit _) as [c|] eqn:D; [|done].
    specialize (R c eq_refl). destruct K3 as [H64 K3]. split; simpl.
    - case_decide; [by eapply observed_int64|done].
    - right. exists c. split; [done|]. case_decide; lia. }
  destruct seed as [p' seeded]. apply wp_bind; [|done].
  eapply wp_mono; [apply (wp_for_each Inv deadline me anyone t0 _ _ _ (λ _ acc _, int64 acc.1)); [done| |done|done]|].
  - intros key l acc v4 L4 I4 Hi. by apply wp_scan_alias.
  - intros [h ws] v4 L4 I4 Hi v5 L5 _. apply knows_raise; [done|]. eapply knows_later; [|done]. by etrans.
Qed.

Lemma wp_cleanup_all t0 v : Inv v -> wp t0 (CleanupAllAssignments cfg) (λ _ _, True) v.
Proof.
  intros I. unfold CleanupAllAssignments. apply wp_quiet; [apply Inv_same|done|]. intros [ks|e] v1 L1 I1 _; [|done].
  apply wp_bind; [|done]. eapply wp_mono; [by apply wp_cleanup|]. done.
Qed.
End publisher_wp.

(** ** Garbage collection *)

Lemma lawful_app_rev l1 l2 m1 m2 : lawful (l1 ++ l2) -> m1 ∈ l1 -> m2 ∈ l2 -> (m_rev m1 < m_rev m2)%Z.
Proof.
  intros Hl. remember (l1 ++ l2) as l eqn:E. revert l1 l2 E.
  induction Hl as [|l m Hl IH _ F _]; intros l1 l2 E H1' H2'.
  { symmetry in E. apply app_eq_nil in E as [-> ->]. set_solver. }
  destruct l2 as [|m' l2 _] using rev_ind; [set_solver|].
  rewrite app_assoc in E. apply app_inj_2 in E as [-> [= ->]]; [|done].
  rewrite Forall_forall in F. rewrite elem_of_app, list_elem_of_singleton in H2'.
  destruct H2' as [H2'| ->]; [by eapply IH|]. apply F. set_solver.
Qed.

(** The current entry of a key was current in every earlier stream that has it. *)
Lemma live_before l1 l2 k m :
  lawful (l1 ++ l2) -> live (l1 ++ l2) k = Some m -> m ∈ l1 -> live l1 k = Some m.
Proof.
  intros Hl L Hm. unfold live in *. rewrite last_msg_app in L.
  destruct (last_msg l2 k) as [m2|] eqn:E; [|done]. simpl in L. exfalso.
  destruct (is_put m2); simplify_eq. apply last_msg_elem in E as [E _].
  pose proof (lawful_app_rev _ _ _ _ Hl Hm E). lia.
Qed.

(** A key still at the revision at which it was read has the entry that was read. *)
Lemma live_at_rev l1 l2 k m :
  lawful (l1 ++ l2) -> live l1 k = Some m -> last_rev (l1 ++ l2) k = m_rev m -> live (l1 ++ l2) k = Some m.
Proof.
  intros Hl L R. destruct (live_elem _ _ _ L) as [Hm K].
  destruct (last_msg_exists (l1 ++ l2) k m) as [m' E]; [set_solver|done|].
  unfold last_rev in R. rewrite E in R. destruct (last_msg_elem _ _ _ E) as [Hm' _].
  assert (0 < m_rev m)%Z as Pr by (eapply lawful_rev_pos; [done|set_solver]).
  assert (m_rev m' = m_rev m) as R' by (destruct (m_body m'); lia).
  assert (m' = m) as -> by (eapply lawful_rev_unique; [done|done|set_solver|done]).
  unfold live, is_put. rewrite E. simpl. by destruct (live_put _ _ _ L) as [s ->].
Qed.

(** [keep] holds every payload of the commit that was current at [v]. *)
Definition keeps (v : view) (keep : gset string) : Prop :=
  forall m c k, live (log v) commit_key = Some m -> commit_at m = Some c -> k ∈ ref_keys (Payloads c) -> k ∈ keep.

Section gc_wp.
Context (me : nat) (cfg : CommitGCConfig) (cfg_prefix : gc_Prefix cfg = prefix) (cfg_retention : (retention <= Retention cfg)%Z).
Context (retention_pos : (0 < retention)%Z).

Local Notation wp := (wp Inv deadline me anyone).

Lemma wp_walk_logs t0 todo i version keep v :
  wp t0 (walk_logs cfg todo i version keep) (λ keep' _, keep ⊆ keep') v.
Proof.
  induction todo as [|todo IH] in i, keep, v |- *; cbn [walk_logs]; [by intros v1 _ _|].
  case_decide; [by intros v1 _ _|]. apply wp_quiet; [apply Inv_same|done|]. intros x v1 L1 I1 _.
  eapply wp_mono; [apply IH|]. intros keep' v2 L2 I2 Sub. simpl in Sub. repeat case_match; set_solver.
Qed.

Lemma wp_live_set t0 v :
  Inv v -> (t0 <= now v)%Z ->
  wp t0 (computeLiveSet cfg)
    (λ r v', match r with
             | Ok keep => exists v0, later v0 v' /\ (t0 <= now v0)%Z /\ keeps v0 keep
             | Err _ => True
             end) v.
Proof.
  intros I Ht. unfold computeLiveSet, gc_prefix. rewrite cfg_prefix. fold commit_key.
  apply wp_op.
  { intros v1 x v2 L1 L2 I1 [E _] _. eapply Inv_same; [done|done|by apply L2]. }
  intros v1 x v2 L1 L2 I1 (El & _ & R) _ I2.
  assert (forall keep version, keeps v2 keep ->
    wp t0 (keep' ← walk_logs cfg (Z.to_nat (KeepCommits cfg)) 0 version keep; Ret (@Ok go_error _ keep'))
      (λ r v', match r with
               | Ok keep => exists v0, later v0 v' /\ (t0 <= now v0)%Z /\ keeps v0 keep
               | Err _ => True
               end) v2) as Walk.
  { intros keep version Hk. apply wp_bind; [|done]. eapply wp_mono; [apply wp_walk_logs|].
    intros keep' v3 L3 I3 Sub v4 L4 _. exists v2. split_and!; [by etrans|destruct L1, L2; lia|].
    intros m c k Lm C Hin. apply Sub. by eapply Hk. }
  destruct x as [e|e].
  - destruct R as (m & L & ->).
    assert (unmarshal_commit (e_value (entry_of m)) = commit_at m) as Ec.
    { destruct (live_put _ _ _ L) as [s Eb]. unfold commit_at. simpl. by rewrite Eb. }
    rewrite Ec. destruct (commit_at m) as [c|] eqn:C; apply Walk; intros m' c' k; rewrite El; intros; simplify_eq.
    by apply elem_of_list_to_set.
  - destruct (Is e JsErrKeyNotFound) eqn:Nf; [|done]. apply Walk. intros m' c' k. rewrite El, (R eq_refl). done.
Qed.

(** A sweep's knowledge: what it keeps was current at [v0], at most [slack] before
    its clock was read, and [n] is the reading it measures ages against. *)
Definition sweeping (keep : gset string) (n : Z) (v : view) : Prop :=
  (n <= now v + Z.of_N skew)%Z /\ exists v0, later v0 v /\ keeps v0 keep /\ (n - slack - Z.of_N skew <= now v0)%Z.

Lemma sweeping_later keep n v v' : later v v' -> sweeping keep n v -> sweeping keep n v'.
Proof. intros L [Hn (v0 & L0 & R)]. split; [destruct L; lia|]. exists v0. split; [by etrans|done]. Qed.

Lemma sweep_collectable keep n v1 v v' k m :
  Inv v -> sweeping keep n v -> later v1 v -> (now v <= now v')%Z ->
  live (log v1) k = Some m -> last_rev (log v) k = m_rev m -> (m_time m + retention <= n)%Z -> k ∉ keep ->
  collectable (log v) k (now v').
Proof.
  intros [Hl _] [Hn (v0 & [(l0 & E0 & F0) _] & Hk & Hs)] [(l1 & E1 & _) _] Ht L R Age Hnot.
  exists m, n. split_and!; [rewrite E1 in *; by apply live_at_rev|done|lia|].
  intros mc c Lc C Hin. destruct (live_elem _ _ _ Lc) as [Hm _].
  rewrite E0, elem_of_app in Hm. destruct Hm as [Hold|Hnew].
  - exfalso. apply Hnot. apply (Hk mc c); [|done..]. rewrite E0 in Hl, Lc. by eapply live_before.
  - rewrite Forall_forall in F0. apply F0 in Hnew. lia.
Qed.

Lemma wp_sweep_key t0 keep n k u v :
  sweeping keep n v -> wp t0 (sweep_key cfg keep n k u) (λ _ v', sweeping keep n v') v.
Proof.
  intros S. unfold sweep_key, gc_prefix. rewrite cfg_prefix.
  destruct (String.prefix _ k) eqn:Ep; [|by intros v1 L _; eapply sweeping_later]. cbn [negb].
  case_decide as Hk; [by intros v1 L _; eapply sweeping_later|].
  apply wp_op.
  { intros v1 x v2 L1 L2 I1 [E _] _. eapply Inv_same; [done|done|by apply L2]. }
  intros v1 x v2 L1 L2 I1 (El & _ & R) _ I2.
  assert (sweeping keep n v2) as S2 by (eapply sweeping_later; [|done]; by etrans).
  destruct x as [e|e]; [|by intros v3 L _; eapply sweeping_later].
  destruct R as (m & L & ->). case_decide as Age; [by intros v3 L' _; eapply sweeping_later|].
  apply wp_quiet; [apply Inv_same|done|]. intros refs' v3 L3 I3 _.
  case_decide; [by intros v4 L4 _; eapply sweeping_later; [|done]; etrans|].
  apply wp_op.
  - intros v4 y v5 L4 L5 I4 [W _] _. eapply Inv_write; [done|apply L5|exact W|]. intros Rev.
    assert (collectable (log v4) k (now v5)) as C.
    { eapply (sweep_collectable keep n v2); [done| |by etrans|apply L5|by rewrite El|done| |done].
      - eapply sweeping_later; [|done]. by etrans.
      - unfold time_sub in Age. simpl in Age. lia. }
    split.
    + intros ->. exfalso. unfold commit_key in Ep. by rewrite string_prefix_app in Ep.
    + intros hash _. by right.
  - intros v4 y v5 L4 L5 I4 _ _ _ v6 L6 _. eapply sweeping_later; [|done]. by do 3 (etrans; [done|]).
Qed.

Lemma wp_RunOnce t0 v : Inv v -> (t0 <= now v)%Z -> wp t0 (RunOnce cfg skew) (λ _ _, True) v.
Proof.
  intros I Ht. unfold RunOnce. apply wp_bind; [|done]. eapply wp_mono; [by apply wp_live_set|].
  intros [keep|e] v1 L1 I1; [|done]. intros (v0 & L0 & Ht0 & Hk).
  apply wp_quiet; [apply Inv_same|done|]. intros inflight v2 L2 I2 _. apply wp_quiet; [apply Inv_same|done|]. intros [keys|e] v3 L3 I3 _; [|done].
  apply wp_quiet; [apply Inv_same|done|]. intros n v4 L4 I4 (v3' & _ & _ & (_ & _ & Hn) & T).
  assert (sweeping (list_to_set inflight ∪ keep) n v4) as S.
  { split; [lia|]. exists v0. split_and!; [by do 3 (etrans; [done|])|intros m c k Lm C Hin; apply elem_of_union; right; by eapply Hk|].
    unfold timely in T. simpl in T. lia. }
  apply wp_bind; [|done]. eapply wp_mono.
  - apply (wp_for_each Inv deadline me anyone t0 _ _ _ (λ _ _ v', sweeping (list_to_set inflight ∪ keep) n v'));
      [|..|done|done].
    + intros ? ? v5 v6. apply sweeping_later.
    + intros k l u v5 L5 I5 S5. by apply wp_sweep_key.
  - done.
Qed.
End gc_wp.

(** ** The system

    Publishers, each with the outcome of its last [Publish] since it last did
    something else, and collectors. *)
Inductive role :=
| RPublisher (cfg : PublisherConfig) (p : AssignmentPublisher)
    (outcome : option (PublishInput * res publish_err unit))
| RCollector (cfg : CommitGCConfig).

Inductive boot (i : nat) : role -> Prop :=
| boot_publisher cfg : cfg_Prefix cfg = prefix -> boot i (RPublisher cfg NewAssignmentPublisher None)
| boot_collector cfg :
    gc_Prefix cfg = prefix -> (retention <= CommitGC.Retention (NewCommitGC cfg))%Z ->
    boot i (RCollector (NewCommitGC cfg)).

Inductive call : role -> prog role -> Prop :=
| call_publish cfg p o input :
    input_ok input ->
    call (RPublisher cfg p o)
      (r ← Publish cfg input p; Ret (RPublisher cfg r.1 (Some (input, r.2))))
| call_discover cfg p o :
    call (RPublisher cfg p o) (r ← DiscoverHighestVersion cfg p; Ret (RPublisher cfg r.1 None))
| call_bootstrap cfg p o :
    call (RPublisher cfg p o) (p' ← BootstrapLastCommit cfg p; Ret (RPublisher cfg p' None))
| call_cleanup cfg p o :
    call (RPublisher cfg p o) (_ ← CleanupAllAssignments cfg; Ret (RPublisher cfg p None))
| call_sweep cfg : call (RCollector cfg) (_ ← RunOnce cfg skew; Ret (RCollector cfg)).

(** A batch is on the stream as a commit, with a payload for each worker. *)
Definition batch_committed (v : view) (input : PublishInput) (p : AssignmentPublisher) : Prop :=
  exists m c, m ∈ log v /\ m_key m = commit_key /\ m_rev m = lastCommitRev p /\ commit_at m = Some c /\
    Version c = currentVersion p /\ Workers c = sort_strings (in_Workers input) /\
    dom (Payloads c) = list_to_set (in_Workers input) /\
    map_Forall (λ w ref, PayloadHash ref = payload_hash input w /\
      exists mp, mp ∈ log v /\ m_key mp = Key ref /\ m_rev mp = Revision ref /\ stores mp (PayloadHash ref))
      (Payloads c).

Definition role_ok (_ : nat) (s : role) (v : view) : Prop :=
  match s with
  | RPublisher cfg p o =>
      cfg_Prefix cfg = prefix /\ knows_commit p v /\
      (forall input, o = Some (input, Ok ()) -> in_Workers input <> [] -> batch_committed v input p)
  | RCollector cfg => gc_Prefix cfg = prefix /\ (retention <= CommitGC.Retention cfg)%Z
  end.

Lemma published_committed v t0 input p p' : published v t0 input p p' -> batch_committed v input p'.
Proof.
  intros (c & (m & ? & ? & ? & ?) & _ & _ & ? & ? & _ & Hr & Hc). exists m, c. split_and!; try done.
  - apply set_eq. intros w. rewrite elem_of_dom, elem_of_list_to_set. split; [|apply Hc].
    intros [ref Hw]. by apply (Hr w ref).
  - intros w ref Hw. destruct (Hr w ref Hw) as (_ & (_ & mp & ? & ? & ? & ? & _) & ?). split; [done|]. by exists mp.
Qed.

Lemma batch_committed_later v v' input p : later v v' -> batch_committed v input p -> batch_committed v' input p.
Proof.
  intros [(l & El & _) _] (m & c & Hm & ? & ? & ? & ? & ? & ? & Hp). exists m, c. rewrite El.
  split_and!; try done; [set_solver|]. intros w ref Hw. destruct (Hp w ref Hw) as (? & mp & ? & ?).
  split; [done|]. exists mp. set_solver.
Qed.

Lemma role_ok_later i s v v' : later v v' -> role_ok i s v -> role_ok i s v'.
Proof.
  intros L. destruct s as [cfg p o|cfg]; [|done]. intros (? & ? & Ho).
  split_and!; [done|by eapply knows_later|]. intros input E N. eapply batch_committed_later; [done|auto].
Qed.

Lemma role_ok_boot i s v : boot i s -> role_ok i s v.
Proof.
  destruct 1 as [cfg E|cfg E R]; [|done]. split_and!; [done| |done]. split; [by split|by left].
Qed.

Lemma role_ok_call i s m v :
  (0 < retention)%Z -> call s m -> role_ok i s v -> Inv v ->
  wp Inv deadline i (not_by i) (now v) m (role_ok i) v.
Proof.
  intros Rp C Ok I. apply wp_weaken. destruct C as [cfg p o input Hi|cfg p o|cfg p o|cfg p o|cfg]; destruct Ok as (E & K);
    apply wp_bind; try done; (try destruct K as [K _]).
  - eapply wp_mono; [by apply wp_Publish|]. intros [p' r] v1 L1 I1 [K' P] v2 L2 I2.
    apply (role_ok_later _ _ v1); [done|]. split_and!; [done..|]. intros input' [= <- ->] N.
    destruct (P eq_refl N) as (p1 & Pu & _). by eapply published_committed.
  - eapply wp_mono; [by apply wp_discover|]. intros [p' r] v1 L1 I1 K' v2 L2 I2.
    split_and!; [done|by eapply knows_later|done].
  - eapply wp_mono; [by apply wp_bootstrap|]. intros p' v1 L1 I1 K' v2 L2 I2.
    split_and!; [done|by eapply knows_later|done].
  - eapply wp_mono; [by apply wp_cleanup_all|]. intros r v1 L1 I1 _ v2 L2 I2.
    split_and!; [done|eapply knows_later; [|done]; by etrans|done].
  - eapply wp_mono; [by apply wp_RunOnce|]. done.
Qed.

(** Executions of the system from an empty bucket that never expires its
    entries. *)
Definition reaches {W} `{!Env None W} (w0 w : W) (ps : list (process role)) : Prop :=
  log (observe w0) = [] /\ rtc (sys_step deadline boot call) (w0, []) (w, ps).

Lemma reaches_ok {W} `{!Env None W} (w0 w : W) ps :
  (0 < retention)%Z -> reaches w0 w ps -> sys_inv deadline Inv role_ok (w, ps).
Proof.
  intros Rp [E R]. eapply (adequacy deadline boot call); [..|exact R].
  - intros i s v v' L. by apply role_ok_later, (grows_later (not_by i)).
  - intros i s v B _. by apply role_ok_boot.
  - intros i s m v. by apply role_ok_call.
  - by intros v v' (d & m & ? & _).
  - unfold Inv. rewrite E. split; [constructor|done].
Qed.

End commit_safety.
