(* ===== verification/CommitSystem.v ===== *)
(** * The assignment bucket as a system

    The theorems about every execution of publishers and collectors on one
    bucket, and a concrete execution. *)
From S2P Require Import Prelude Partition Nats KV Wire Publisher CommitGC CommitSafety.

(** C1. What the current commit refers to can be read, as long as publishes and
    sweeps are quick compared with the retention. Whatever the interleaving of
    publishers and garbage collectors on a bucket that was empty at first, in one
    process or in several, with failed calls whose writes may have landed and
    with crashes: every payload the current commit refers to is stored under its
    content address, compressed, and decompresses to bytes with the digest the
    reference announces, so [FetchAndVerifyCommitPayload] passes its read, its
    decompression and its hash check. It is assumed that a publish commits within
    [lease] of its start, that a sweep samples its clock within [slack] of its own
    start, that this clock is at most [skew] off the server's, and that lease, slack
    and skew together stay below the retention. *)
Theorem committed_payloads_readable `{Wire, !WireLaws, Xxh3, SortFunc} {W : Type} `{!Env None W}
    (prefix : string) (lease slack : Z) (skew : N) (retention : Z) (w0 w : W) (ps : list (process role)) mc
    (Hprefix : ascii_text prefix = true)
    (Hlease : (0 <= lease)%Z) (Hslack : (0 <= slack)%Z) (Hretention : (lease + slack + Z.of_N skew < retention)%Z)
    (Hreach : reaches prefix lease slack skew retention w0 w ps)
    (Hcommit : live (log (observe w)) (commit_key prefix) = Some mc) :
  exists c, commit_at mc = Some c /\
    forall worker ref, Payloads c !! worker = Some ref ->
      Key ref = payload_key prefix (PayloadHash ref) /\
      exists m, live (log (observe w)) (Key ref) = Some m /\ stores m (PayloadHash ref).
Proof.
  apply reaches_ok in Hreach as [[Hl _] _]; [|done|done|lia].
  destruct (live_elem _ _ _ Hcommit) as [Hm K].
  destruct (lawful_commit_put _ _ _ _ _ _ _ Hl Hm K) as [c C]. exists c. split; [done|]. intros worker ref Hr.
  split; [by apply (lawful_commit _ _ _ _ _ _ _ _ Hl Hcommit C worker)|].
  destruct (lawful_refs_readable _ _ _ _ _ _ _ _ _ _ Hlease Hslack Hretention Hl Hcommit C Hr) as (m & L & St & _).
  by exists m.
Qed.

(** C3. Whatever the interleaving, two commits on the stream have versions in
    the order of their revisions: no publisher, however stale its view or
    ambiguous the failure of its last write, overwrites a commit at a version
    already used, unless the 64-bit version counter has wrapped around. *)
Theorem commit_versions_increase `{Wire, !WireLaws, Xxh3, SortFunc} {W : Type} `{!Env None W}
    (prefix : string) (lease slack : Z) (skew : N) (retention : Z) (w0 w : W) (ps : list (process role)) m1 m2 c1 c2
    (Hprefix : ascii_text prefix = true) (Hretention : (0 < retention)%Z)
    (Hreach : reaches prefix lease slack skew retention w0 w ps)
    (Hwrap : forall m c, m ∈ log (observe w) -> m_key m = commit_key prefix -> commit_at m = Some c ->
       (- 2 ^ 63 < Version c)%Z)
    (Hin1 : m1 ∈ log (observe w)) (K1 : m_key m1 = commit_key prefix) (C1 : commit_at m1 = Some c1)
    (Hin2 : m2 ∈ log (observe w)) (K2 : m_key m2 = commit_key prefix) (C2 : commit_at m2 = Some c2)
    (Hlt : (m_rev m1 < m_rev m2)%Z) :
  (Version c1 < Version c2)%Z.
Proof.
  apply reaches_ok in Hreach as [[Hl _] _]; [|done..]. 
  by apply (lawful_versions prefix lease slack skew retention (log (observe w)) m1 m2).
Qed.

(** C2. When [Publish] returns without error for a batch that has workers, the
    batch is on the stream: at the revision the publisher remembers there is a
    commit with the version it remembers, for exactly the workers of the batch,
    and for each of them a stored payload whose content address is that of the
    partitions and labels passed for that worker. *)
Theorem publish_success_committed `{Wire, !WireLaws, Xxh3, SortFunc} {W : Type} `{!Env None W}
    (prefix : string) (lease slack : Z) (skew : N) (retention : Z) (w0 w : W) (ps : list (process role)) i cfg p input
    (Hprefix : ascii_text prefix = true) (Hretention : (0 < retention)%Z)
    (Hreach : reaches prefix lease slack skew retention w0 w ps)
    (Hdone : (i, Idle (RPublisher cfg p (Some (input, Ok ())))) ∈ ps)
    (Hworkers : in_Workers input <> []) :
  batch_committed prefix (observe w) input p.
Proof.
  apply reaches_ok in Hreach as (_ & _ & F); [|done..]. rewrite Forall_forall in F.
  destruct (F _ Hdone) as (_ & _ & Hb). by apply Hb.
Qed.

(** ** Concrete runs *)

(** Records as lists of encoded fields. *)
Definition ref_fields (r : AssignmentPayloadRef) : list positive :=
  [encode (Key r); encode (PayloadHash r); encode (SetDigest r); encode (Revision r)].

Definition ref_of_fields (l : list positive) : option AssignmentPayloadRef :=
  match l with
  | [k; h; d; r] => k ← decode k; h ← decode h; d ← decode d; r ← decode r; Some (mkRef k h d r)
  | _ => None
  end.

#[export] Instance AssignmentPayloadRef_countable : Countable AssignmentPayloadRef.
Proof. refine (inj_countable ref_fields ref_of_fields _). intros []. cbn. by rewrite !decode_encode. Defined.

Definition commit_fields (c : AssignmentCommit) : list positive :=
  [encode (Version c); encode (LeaderRevision c); encode (SourceRevision c); encode (SourceRevisionKnown c);
   encode (PublishedAt c); encode (Workers c); encode ((map_to_list (Payloads c)).*1);
   encode ((map_to_list (Payloads c)).*2); encode (BatchDigest c); encode (ParkedCount c);
   encode (ParkedDigest c); encode (PrevCommitRev c); encode (Lifecycle c)].

Definition commit_of_fields (l : list positive) : option AssignmentCommit :=
  match l with
  | [v; l; s; k; p; w; m1; m2; b; pc; pd; pr; lc] =>
      v ← decode v; l ← decode l; s ← decode s; k ← decode k; p ← decode p; w ← decode w;
      m1 ← decode m1; m2 ← decode m2; b ← decode b; pc ← decode pc; pd ← decode pd; pr ← decode pr;
      lc ← decode lc;
      Some (mkCommit v l s k p w (list_to_map (zip m1 m2)) b pc pd pr lc)
  | _ => None
  end.

Lemma commit_fields_inverse c : commit_of_fields (commit_fields c) = Some c.
Proof.
  destruct c. unfold commit_fields, commit_of_fields. rewrite !decode_encode. cbn.
  by rewrite zip_fst_snd, list_to_map_to_list.
Qed.

(** An encoding that has the laws. *)
Definition toy_wire : Wire := {|
  marshal_payload := λ p, String.concat "," (CanonicalID <$> pl_Partitions p) +:+ "|" +:+
                          String.concat "," (pl_WorkerLabels p);
  marshal_commit := λ c, bits_of (encode (commit_fields c));
  unmarshal_commit := λ s, l ← decode (of_bits s); c ← commit_of_fields l; if decide (int64 (Version c)) then Some c else None;
  marshal_commit_log := λ l, String.concat "," (PayloadKeys l);
  unmarshal_commit_log := λ s, Some (mkCommitLog 0 0 0 [s]);
  marshal_assignment := λ a, pretty (a_Version a);
  unmarshal_assignment := λ _, None;
  unmarshal_heartbeat := λ _, None;
  parse_RFC3339Nano := λ _, None;
  parse_RFC3339 := λ _, None;
  sha256 := λ s, s;
  gzip := λ s, String "z" s;
  gunzip := λ s, match s with String "z" s' => Some s' | _ => None end;
|}.

Lemma toy_wire_laws : @WireLaws toy_wire.
Proof.
  split; cbn.
  - intros c [Hi _]. rewrite of_bits_of, decode_encode. cbn -[commit_of_fields].
    rewrite commit_fields_inverse. cbn. by rewrite decide_True.
  - done.
  - intros s c E. inv_ok. case_decide; by simplify_eq.
  - done.
Qed.

(** Two batches of one publisher, the second with a worker more. *)
Definition demo_cfg : PublisherConfig := mkPublisherConfig 0 "assignment" "" false true true.

Definition demo_part (k : string) : Partition := mkPartition [k] 100 "".

Definition demo_input (workers : list string) (parts : list string) : PublishInput :=
  let asg := list_to_map (zip workers ((λ k, [demo_part k]) <$> parts)) in
  mkPublishInput workers asg (demo_part <$> parts) 0 false 7 "planned_scale" [] [] ∅.

Definition demo_publish (input : PublishInput) (s : role) : prog role :=
  match s with
  | RPublisher cfg p o =>
      r ← @Publish toy_wire toy_xxh3 stable_sort cfg input p; Ret (RPublisher cfg r.1 (Some (input, r.2)))
  | RCollector cfg => Ret (RCollector cfg)
  end.

Definition demo_deadline := deadline "assignment" 1000 1000.
Definition demo_start : role * view := (RPublisher demo_cfg NewAssignmentPublisher None, mkView [] 0 ∅).

Definition demo_step (input : PublishInput) (c : role * view) : option (role * view) :=
  run_timely demo_deadline 1 (now c.2) (demo_publish input c.1) c.2.

Definition demo_end : option (role * view) :=
  demo_step (demo_input ["a"; "b"] ["x"; "y"]) demo_start ≫=
  demo_step (demo_input ["a"; "b"; "c"] ["x"; "y"; "z"]).

Definition demo_role : role := match demo_end with Some (s, _) => s | None => demo_start.1 end.
Definition demo_view : view := match demo_end with Some (_, v) => v | None => demo_start.2 end.

Definition demo_reach : view -> view -> list (process role) -> Prop :=
  @reaches toy_wire "assignment" 1000 1000 100 10000 toy_xxh3 stable_sort view (permissive None).

(** Any batch published in a reachable state leads to a reachable state. *)
Lemma demo_step_reach w0 input c c' :
  input_ok input -> demo_reach w0 c.2 [(1, Idle c.1)] -> demo_step input c = Some c' ->
  demo_reach w0 c'.2 [(1, Idle c'.1)].
Proof.
  destruct c as [[cfg p o|cfg] v], c' as [s' v']; intros Hi [E R] St.
  - split; [exact E|]. etrans; [exact R|].
    eapply rtc_l; [apply (sys_call _ _ _ _ [] []); exact (call_publish 100 cfg p o input Hi)|].
    exact (run_timely_steps demo_deadline _ _ 1 (now v) _ v s' v' [] [] St).
  - injection St as <- <-. by split.
Qed.

Lemma demo_end_some : demo_end = Some (demo_role, demo_view).
Proof.
  assert (bool_decide (is_Some demo_end) = true) as B by (vm_compute; reflexivity).
  apply bool_decide_eq_true in B as [[s v] E]. unfold demo_role, demo_view. by rewrite E.
Qed.

Lemma demo_input_ok ws ks :
  forallb (λ w, ascii_text w && negb (isProtocolSubcomponent w)) ws = true -> input_ok (demo_input ws ks).
Proof.
  intros B. split; [|done]. apply Forall_forall. intros w Hw.
  rewrite forallb_forall in B. specialize (B w). rewrite andb_true_iff, negb_true_iff in B.
  by apply B, list_elem_of_In.
Qed.

Lemma demo_reaches : demo_reach demo_start.2 demo_view [(1, Idle demo_role)].
Proof.
  pose proof demo_end_some as E. unfold demo_end in E. apply bind_Some in E as (c1 & E1 & E2).
  refine (demo_step_reach _ _ _ _ _ _ E2); [by apply demo_input_ok|].
  refine (demo_step_reach _ _ _ _ _ _ E1); [by apply demo_input_ok|].
  clear. split; [done|]. apply rtc_once, sys_boot; [by constructor|apply not_elem_of_nil|by constructor].
Qed.

Lemma committed_payloads_readable_witness :
  exists mc c ref m,
    live (log demo_view) (commit_key "assignment") = Some mc /\ @commit_at toy_wire mc = Some c /\
    Payloads c !! "c" = Some ref /\
    live (log demo_view) (Key ref) = Some m /\ @stores toy_wire m (PayloadHash ref).
Proof.
  assert (match live (log demo_view) (commit_key "assignment") with
          | Some mc => match @commit_at toy_wire mc with
                       | Some c => bool_decide (is_Some (Payloads c !! "c")) | None => false end
          | None => false end = true) as B by (vm_compute; reflexivity).
  destruct (live (log demo_view) (commit_key "assignment")) as [mc|] eqn:Hmc; [|discriminate B].
  destruct (@committed_payloads_readable toy_wire toy_wire_laws toy_xxh3 stable_sort view (permissive None)
    "assignment" 1000 1000 100 10000 demo_start.2 demo_view [(1, Idle demo_role)] mc
    eq_refl ltac:(done) ltac:(done) ltac:(done) demo_reaches Hmc) as (c & C & R).
  rewrite C in B. apply bool_decide_eq_true in B as [ref Hr].
  destruct (R "c" ref Hr) as (_ & m & Hm & Hs). exists mc, c, ref, m.
  exact (conj eq_refl (conj C (conj Hr (conj Hm Hs)))).
Defined.

Lemma commit_versions_increase_witness :
  exists m1 m2 c1 c2, m1 ∈ log demo_view /\ m2 ∈ log demo_view /\
    @commit_at toy_wire m1 = Some c1 /\ @commit_at toy_wire m2 = Some c2 /\
    m_rev m1 = 3%Z /\ m_rev m2 = 10%Z /\ (Version c1 < Version c2)%Z.
Proof.
  assert (match log demo_view !! 2, log demo_view !! 9 with
          | Some m1, Some m2 =>
              match @commit_at toy_wire m1, @commit_at toy_wire m2 with
              | Some _, Some _ => bool_decide (m_key m1 = commit_key "assignment" /\ m_key m2 = commit_key "assignment" /\
                  m_rev m1 = 3%Z /\ m_rev m2 = 10%Z)
              | _, _ => false end
          | _, _ => false end = true) as B by (vm_compute; reflexivity).
  destruct (log demo_view !! 2) as [m1|] eqn:E1; [|discriminate B].
  destruct (log demo_view !! 9) as [m2|] eqn:E2; [|discriminate B].
  destruct (@commit_at toy_wire m1) as [c1|] eqn:C1; [|discriminate B].
  destruct (@commit_at toy_wire m2) as [c2|] eqn:C2; [|discriminate B].
  apply bool_decide_eq_true in B as (K1 & K2 & R1 & R2).
  apply list_elem_of_lookup_2 in E1, E2.
  exists m1, m2, c1, c2.
  refine (conj E1 (conj E2 (conj C1 (conj C2 (conj R1 (conj R2 _)))))).
  refine (@commit_versions_increase toy_wire toy_wire_laws toy_xxh3 stable_sort view (permissive None)
    "assignment" 1000 1000 100 10000 demo_start.2 demo_view [(1, Idle demo_role)] m1 m2 c1 c2
    eq_refl eq_refl demo_reaches _ E1 K1 C1 E2 K2 C2 _).
  - assert (forallb (λ m, match @commit_at toy_wire m with
              | Some c => Z.ltb (- 2 ^ 63) (Version c) | None => true end) (log demo_view) = true) as F
      by (vm_compute; reflexivity).
    rewrite forallb_forall in F. intros m c Hm _ C. apply list_elem_of_In, F in Hm. rewrite C in Hm.
    by apply Z.ltb_lt.
  - lia.
Defined.

Lemma publish_success_committed_witness :
  exists p, demo_role = RPublisher demo_cfg p (Some (demo_input ["a"; "b"; "c"] ["x"; "y"; "z"], Ok ())) /\
    @batch_committed toy_wire "assignment" stable_sort demo_view (demo_input ["a"; "b"; "c"] ["x"; "y"; "z"]) p.
Proof.
  exists (match demo_role with RPublisher _ p _ => p | _ => NewAssignmentPublisher end).
  assert (demo_role = RPublisher demo_cfg (match demo_role with RPublisher _ p _ => p | _ => NewAssignmentPublisher end)
    (Some (demo_input ["a"; "b"; "c"] ["x"; "y"; "z"], Ok ()))) as E by (vm_compute; reflexivity).
  split; [exact E|].
  set (input := demo_input ["a"; "b"; "c"] ["x"; "y"; "z"]) in *.
  set (p := match demo_role with RPublisher _ p _ => p | _ => NewAssignmentPublisher end) in *.
  refine (@publish_success_committed toy_wire toy_wire_laws toy_xxh3 stable_sort view (permissive None)
    "assignment" 1000 1000 100 10000 demo_start.2 demo_view [(1, Idle demo_role)] 1 demo_cfg p input
    eq_refl eq_refl demo_reaches _ _); [|discriminate].
  apply list_elem_of_singleton. exact (f_equal (λ s, (1, Idle s)) (eq_sym E)).
Defined.
