(* ===== verification/Handoff.v ===== *)
(** * Two-phase partition handoff (internal/assignment/handoff)

    The claim record and its transitions (claims.go), the store over the handoff
    bucket (kv_store.go), and the coordinator (coordinator.go, twophase.go,
    direct.go): the phases of [Apply], the claim sweep with its scan gate and
    orphan reaper, and one tick of the background loop. Also the passes the
    manager makes at startup and its removal guard (manager_handoff.go,
    manager_assignment.go).

    The store's key prefix is the one setupHandoff passes. Metrics, logging and the
    test hooks are left out. A [nil] function of the
    configuration is a boolean field that says whether it is set. *)
From S2P Require Import Prelude Partition Float64 Nats KV Wire.

(** ** Claims (claims.go) *)

Definition ClaimStateStable : string := "stable".
Definition ClaimStatePrepare : string := "prepare".
Definition ClaimStateCommit : string := "commit".
Definition ClaimStateAbort : string := "abort".

Record Claim := mkClaim {
  PartitionID : string;
  Owner : string;
  PendingOwner : string;
  ClaimState : string;
  Epoch : Z;
  LastUpdated : Z;
  TTLSeconds : Z;
  ConflictCount : Z;
}.

#[export] Instance Claim_eq_dec : EqDecision Claim.
Proof. solve_decision. Defined.

(** The zero value [Claim{}]. *)
Definition zero_claim : Claim := mkClaim "" "" "" "" 0 0 0 0.

Definition NextPrepare (c : Claim) (pendingOwner : string) (now : Z) : Claim :=
  mkClaim (PartitionID c) (Owner c) pendingOwner ClaimStatePrepare (wrap64 (Epoch c + 1)) now
    (TTLSeconds c) (ConflictCount c).

Definition NextCommit (c : Claim) (now : Z) : Claim :=
  let '(owner, pending) :=
    if decide (PendingOwner c <> "") then (PendingOwner c, "") else (Owner c, PendingOwner c) in
  mkClaim (PartitionID c) owner pending ClaimStateCommit (wrap64 (Epoch c + 1)) now
    (TTLSeconds c) (ConflictCount c).

Definition NextStable (c : Claim) (now : Z) : Claim :=
  mkClaim (PartitionID c) (Owner c) (PendingOwner c) ClaimStateStable (wrap64 (Epoch c + 1)) now
    (TTLSeconds c) (ConflictCount c).

Definition second : Z := 1000000000.

Definition IsExpired (c : Claim) (now : Z) : bool :=
  if decide (TTLSeconds c <= 0)%Z then false
  else bool_decide (LastUpdated c + wrap64 (TTLSeconds c * second) < now)%Z.

(** A claim put back to stable without a pending owner, at its epoch. *)
Definition reset_claim (c : Claim) (now : Z) : Claim :=
  mkClaim (PartitionID c) (Owner c) "" ClaimStateStable (Epoch c) now (TTLSeconds c) (ConflictCount c).

(** ** Configuration (coordinator.go) *)

Record Config := mkConfig {
  HasStore : bool;
  HasUpdater : bool;
  HasLivePartitions : bool;
  HasSweepAuthority : bool;
  HasProber : bool;
  HasLimiter : bool;
  TTL : Z;
  SweepInterval : Z;
  MaxRetries : Z;
  BaseBackoff : Z;
  MaxBackoff : Z;
  Jitter : float64;
  DelayAfterPrepare : Z;
  DelayBeforeStable : Z;
  PhaseConcurrency : Z;
  OrphanGrace : Z;
  SweepPhaseSeed : Z;
}.

Definition millisecond : Z := 1000000.

(** The defaults [New] fills in. *)
Definition normalize (cfg : Config) : Config :=
  mkConfig (HasStore cfg) (HasUpdater cfg) (HasLivePartitions cfg) (HasSweepAuthority cfg) (HasProber cfg)
    (HasLimiter cfg)
    (if HasStore cfg && bool_decide (TTL cfg = 0%Z) then 60 * second else TTL cfg)%Z
    (if decide (SweepInterval cfg = 0) then 30 * second else SweepInterval cfg)%Z
    (if decide (MaxRetries cfg <= 0) then 3 else MaxRetries cfg)%Z
    (if decide (BaseBackoff cfg <= 0) then 50 * millisecond else BaseBackoff cfg)%Z
    (if decide (MaxBackoff cfg <= 0) then 500 * millisecond else MaxBackoff cfg)%Z
    (if f64_ltb (Jitter cfg) (f64_of_Z 0) then f64_of_Z 0 else Jitter cfg)
    (DelayAfterPrepare cfg) (DelayBeforeStable cfg)
    (if decide (PhaseConcurrency cfg <= 0) then 20 else PhaseConcurrency cfg)%Z
    (OrphanGrace cfg) (SweepPhaseSeed cfg).

(** ** The claim store (kv_store.go) *)

(** [json.Marshal] fails on a time outside the years JSON can express. *)
Class ClaimWire := {
  marshal_claim : Claim -> option string;
  unmarshal_claim : string -> option Claim;
}.

Inductive handoff_err :=
| StoreMarshal
| StoreGet (e : option go_error)
| EpochMismatch (expected : Z)
| EpochConflict (have expected : Z)
| StoreCreate (e : go_error)
| StoreUpdate (e : go_error)
| StoreDelete (e : go_error)
| ClaimGet (e : handoff_err)
| LimiterWait (e : go_error)
| UpdateRetries (e : handoff_err)
| HandoffCtx (e : go_error)
| ErrRemovalPending
| GuardCommitRead (e : go_error)
| GuardClaimRead (pid : string) (e : handoff_err)
| UpdaterFailed (e : go_error).

Section store.
Context `{ClaimWire}.

Definition claimsPref : string := "claims/".

Definition key (partitionID : string) : string := claimsPref +:+ partitionID.

(** Without an entry: the zero claim and revision 0. *)
Definition Get (partitionID : string) : prog (res handoff_err (Claim * Z)) :=
  x ← GetJSON unmarshal_claim (key partitionID);
  Ret match x with
      | Err e => Err (StoreGet e)
      | Ok None => Ok (zero_claim, 0%Z)
      | Ok (Some (cl, rev)) => Ok (cl, rev)
      end.

Definition PutIfEpoch (partitionID : string) (expectedEpoch : Z) (next : Claim) : prog (res handoff_err Z) :=
  match marshal_claim next with
  | None => Ret (Err StoreMarshal)
  | Some b =>
      x ← GetJSON unmarshal_claim (key partitionID);
      match x with
      | Err e => Ret (Err (StoreGet e))
      | Ok None =>
          if decide (expectedEpoch <> 0%Z) then Ret (Err (EpochMismatch expectedEpoch))
          else
            r ← trigger (KvCreate (key partitionID) b);
            Ret match r with Ok rev => Ok rev | Err e => Err (StoreCreate e) end
      | Ok (Some (cl, rev)) =>
          if decide (Epoch cl <> expectedEpoch) then Ret (Err (EpochConflict (Epoch cl) expectedEpoch))
          else
            r ← trigger (KvUpdate (key partitionID) b rev);
            Ret match r with Ok rev => Ok rev | Err e => Err (StoreUpdate e) end
      end
  end.

Definition ClaimKeys : prog (res go_error (list string)) := ListKeys claimsPref true.

Definition Delete (partitionID : string) (revision : Z) : prog (res go_error unit) :=
  trigger (KvDelete (key partitionID) (Some revision)).
End store.

(** ** The coordinator (twophase.go) *)

Record orphanClock := mkClock { since : Z; clock_gen : Z }.
Record vouchSnapshot := mkVouch { vouch_now : Z; vouch_gen : Z }.

(** [None] for [lastSweep] is the zero time. *)
Record twoPhaseCoordinator := mkCoordinator {
  lastSweep : option Z;
  unvouchedGen : Z;
  backstopDue : bool;
  orphanAbsentSince : gmap string orphanClock;
  sweepCacheValid : bool;
  sweepCachePos : KVStreamPos;
  sweepCache : gmap string (Claim * Z);
  sweepSkipsSinceFull : Z;
  sweepMaxSkips : Z;
  sweepConfigGuard : ScanGateConfigGuard;
  prober : bool;
}.

Definition zero_pos : KVStreamPos := mkPos 0 0 0 0 false 0.

Definition New (cfg : Config) : twoPhaseCoordinator :=
  mkCoordinator None 0 false ∅ false zero_pos ∅ 0 ScanGateMaxSkippedPasses (mkGuard false) (HasProber cfg).

Definition set_lastSweep (now : Z) (t : twoPhaseCoordinator) : twoPhaseCoordinator :=
  mkCoordinator (Some now) (unvouchedGen t) (backstopDue t) (orphanAbsentSince t) (sweepCacheValid t)
    (sweepCachePos t) (sweepCache t) (sweepSkipsSinceFull t) (sweepMaxSkips t) (sweepConfigGuard t) (prober t).
Definition add_gen (n : Z) (t : twoPhaseCoordinator) : twoPhaseCoordinator :=
  mkCoordinator (lastSweep t) (uwrap64 (unvouchedGen t + n)) (backstopDue t) (orphanAbsentSince t)
    (sweepCacheValid t) (sweepCachePos t) (sweepCache t) (sweepSkipsSinceFull t) (sweepMaxSkips t)
    (sweepConfigGuard t) (prober t).
Definition set_backstopDue (b : bool) (t : twoPhaseCoordinator) : twoPhaseCoordinator :=
  mkCoordinator (lastSweep t) (unvouchedGen t) b (orphanAbsentSince t) (sweepCacheValid t) (sweepCachePos t)
    (sweepCache t) (sweepSkipsSinceFull t) (sweepMaxSkips t) (sweepConfigGuard t) (prober t).
Definition set_orphans (m : gmap string orphanClock) (t : twoPhaseCoordinator) : twoPhaseCoordinator :=
  mkCoordinator (lastSweep t) (unvouchedGen t) (backstopDue t) m (sweepCacheValid t) (sweepCachePos t)
    (sweepCache t) (sweepSkipsSinceFull t) (sweepMaxSkips t) (sweepConfigGuard t) (prober t).
Definition invalidate (t : twoPhaseCoordinator) : twoPhaseCoordinator :=
  mkCoordinator (lastSweep t) (unvouchedGen t) (backstopDue t) (orphanAbsentSince t) false (sweepCachePos t)
    (sweepCache t) (sweepSkipsSinceFull t) (sweepMaxSkips t) (sweepConfigGuard t) (prober t).
Definition latchCache (cache : gmap string (Claim * Z)) (pos : KVStreamPos) (t : twoPhaseCoordinator) :
    twoPhaseCoordinator :=
  mkCoordinator (lastSweep t) (unvouchedGen t) (backstopDue t) (orphanAbsentSince t) true pos
    cache (sweepSkipsSinceFull t) (sweepMaxSkips t) (sweepConfigGuard t) (prober t).
Definition set_skips (n : Z) (t : twoPhaseCoordinator) : twoPhaseCoordinator :=
  mkCoordinator (lastSweep t) (unvouchedGen t) (backstopDue t) (orphanAbsentSince t) (sweepCacheValid t)
    (sweepCachePos t) (sweepCache t) n (sweepMaxSkips t) (sweepConfigGuard t) (prober t).
Definition set_guard (g : ScanGateConfigGuard) (t : twoPhaseCoordinator) : twoPhaseCoordinator :=
  mkCoordinator (lastSweep t) (unvouchedGen t) (backstopDue t) (orphanAbsentSince t) (sweepCacheValid t)
    (sweepCachePos t) (sweepCache t) (sweepSkipsSinceFull t) (sweepMaxSkips t) g (prober t).
Definition drop_prober (t : twoPhaseCoordinator) : twoPhaseCoordinator :=
  mkCoordinator (lastSweep t) (unvouchedGen t) (backstopDue t) (orphanAbsentSince t) (sweepCacheValid t)
    (sweepCachePos t) (sweepCache t) (sweepSkipsSinceFull t) (sweepMaxSkips t) (sweepConfigGuard t) false.

Inductive sweepOrigin := sweepOriginApply | sweepOriginTicker.

#[export] Instance sweepOrigin_eq_dec : EqDecision sweepOrigin.
Proof. solve_decision. Defined.

Definition followerBackstopTarget : Z := 300 * second.

Definition backstopEveryFor (interval : Z) : Z := Z.max 1 (followerBackstopTarget ÷ interval).

Definition transitionVersionAdjacent (previous next : Assignment) : bool :=
  bool_decide (wrap64 (a_Version previous + 1) = a_Version next).

Section coordinator.
Context `{ClaimWire} `{Xxh3} (cfg : Config) (float_to_int : float64 -> Z).
Context (is_no_probe_handle : go_error -> bool).   (* [errors.Is(err, errNoProbeHandle)] *)

(** [int64(ttl.Seconds())] *)
Definition ttl_seconds : Z :=
  f64_to_int64 float_to_int
    (f64_add (f64_of_Z (TTL cfg ÷ second)) (f64_div (f64_of_Z (Z.rem (TTL cfg) second)) (f64_of_Z second))).

Definition NewInitialClaim (partitionID owner : string) (now : Z) : Claim :=
  mkClaim partitionID owner "" ClaimStateStable 1 now ttl_seconds 0.

(** [ratelimit.Wait]: without a limiter there is nothing to wait for. *)
Definition limiter_wait : prog (option go_error) :=
  if HasLimiter cfg then trigger CtxErr else Ret None.

(** The wait before retry [attempt], at least the second one. *)
Definition backoff_for (attempt : Z) : prog Z :=
  let backoff := Z.min (wrap64 (Z.shiftl (BaseBackoff cfg) (attempt - 1))) (MaxBackoff cfg) in
  if f64_ltb (f64_of_Z 0) (Jitter cfg) then
    bits ← trigger Random;
    let f := f64_div (f64_of_Z bits) (f64_of_Z (2 ^ 53)) in
    let low := f64_sub (f64_of_Z 1) (Jitter cfg) in
    let high := f64_add (f64_of_Z 1) (Jitter cfg) in
    Ret (f64_to_int64 float_to_int (f64_mul (f64_of_Z backoff) (f64_add low (f64_mul f (f64_sub high low)))))
  else Ret backoff.

(** One attempt of [updateClaim]; [retry] continues after a lost race. *)
Definition update_attempt (pid : string) (transform : option Claim -> res handoff_err (option Claim))
    (retry : handoff_err -> prog (res handoff_err unit)) : prog (res handoff_err unit) :=
  g ← Get pid;
  match g with
  | Err e => Ret (Err (ClaimGet e))
  | Ok (cur, rev) =>
      match transform (if decide (0 < rev)%Z then Some cur else None) with
      | Err e => Ret (Err e)
      | Ok None => Ret (Ok ())
      | Ok (Some next) =>
          w ← limiter_wait;
          match w with
          | Some e => Ret (Err (LimiterWait e))
          | None =>
              r ← PutIfEpoch pid (if decide (rev = 0%Z) then 0%Z else Epoch cur) next;
              match r with
              | Ok _ => Ret (Ok ())
              | Err casErr => retry casErr
              end
          end
      end
  end.

(** The attempts of [updateClaim], [left] of them after this one. *)
Fixpoint update_loop (left : nat) (attempt : Z) (pid : string)
    (transform : option Claim -> res handoff_err (option Claim)) : prog (res handoff_err unit) :=
  update_attempt pid transform (λ casErr,
    match left with
    | O => Ret (Err (UpdateRetries casErr))
    | S left' =>
        if decide (attempt = 0%Z) then update_loop left' (attempt + 1) pid transform
        else
          d ← backoff_for attempt;
          c ← trigger (Backoff d);
          match c with
          | Some e => Ret (Err (HandoffCtx e))
          | None => update_loop left' (attempt + 1) pid transform
          end
    end).

Definition updateClaim (pid : string) (transform : option Claim -> res handoff_err (option Claim)) :
    prog (res handoff_err unit) :=
  update_loop (Z.to_nat (MaxRetries cfg)) 0 pid transform.

Definition prepare_transform (pid workerID : string) (now : Z) (cur : option Claim) : option Claim :=
  match cur with
  | None => Some (NewInitialClaim pid workerID now)
  | Some cur =>
      if decide (Owner cur <> workerID) then Some (NextPrepare cur workerID now)
      else if decide (ClaimState cur <> ClaimStateStable \/ PendingOwner cur <> "") then
        Some (mkClaim (PartitionID cur) (Owner cur) "" ClaimStateStable (wrap64 (Epoch cur + 1)) now
          (TTLSeconds cur) (ConflictCount cur))
      else None
  end.

Definition preparePhase (workerID : string) (previous next : Assignment) : prog (res handoff_err unit) :=
  if negb (HasStore cfg) then Ret (Ok ())
  else
    now ← trigger (Now WallClock);
    let oldIndex := HashID <$> a_Partitions previous in
    let toPrepare := filter (λ p, HashID p ∉ oldIndex) (a_Partitions next) in
    group_all ((λ p, updateClaim (SubjectKey p) (λ cur, Ok (prepare_transform (SubjectKey p) workerID now cur)))
      <$> toPrepare).

Definition commit_transform (workerID : string) (now : Z) (cur : option Claim) : option Claim :=
  match cur with
  | None => None
  | Some cur =>
      if decide (Owner cur = workerID /\ ClaimState cur = ClaimStateStable) then None
      else if decide (PendingOwner cur = workerID \/ Owner cur <> workerID) then
        Some (if decide (ClaimState cur <> ClaimStateCommit) then NextCommit cur now else cur)
      else None
  end.

Definition commitPhase (workerID : string) (next : Assignment) : prog (res handoff_err unit) :=
  if negb (HasStore cfg) then Ret (Ok ())
  else
    now ← trigger (Now WallClock);
    group_all ((λ p, updateClaim (SubjectKey p) (λ cur, Ok (commit_transform workerID now cur)))
      <$> a_Partitions next).

Definition stable_transform (workerID : string) (now : Z) (cur : option Claim) : option Claim :=
  match cur with
  | None => None
  | Some cur =>
      if decide (Owner cur <> workerID) then None
      else if decide (ClaimState cur <> ClaimStateCommit) then None
      else Some (NextStable cur now)
  end.

Definition stabilizePhase (workerID : string) (next : Assignment) : prog (res handoff_err unit) :=
  if negb (HasStore cfg) then Ret (Ok ())
  else
    now ← trigger (Now WallClock);
    group_all ((λ p, updateClaim (SubjectKey p) (λ cur, Ok (stable_transform workerID now cur)))
      <$> a_Partitions next).

(** An observability delay, cut short when the context ends. *)
Definition delay (d : Z) : prog (res handoff_err unit) :=
  if decide (0 < d)%Z then
    c ← trigger (Backoff d);
    Ret match c with Some e => Err (HandoffCtx e) | None => Ok () end
  else Ret (Ok ()).

(** Run the next step unless this one failed. *)
Definition then_ {A} (m : prog (res handoff_err unit)) (n : prog (res handoff_err A)) :
    prog (res handoff_err A) :=
  r ← m;
  match r with Ok _ => n | Err e => Ret (Err e) end.

Definition update_consumer (workerID : string) (ps : list Partition) : prog (res handoff_err unit) :=
  if HasUpdater cfg then
    x ← trigger (UpdateConsumer workerID (SubjectKey <$> ps));
    Ret match x with Some e => Err (UpdaterFailed e) | None => Ok () end
  else Ret (Ok ()).

(** [Apply] after its opportunistic sweep. *)
Definition apply_phases (guard : option (prog (res handoff_err unit))) (workerID : string)
    (previous next : Assignment) : prog (res handoff_err unit) :=
  let preparePrevious := if transitionVersionAdjacent previous next then previous else zero_assignment in
  then_ (preparePhase workerID preparePrevious next) (
  then_ (delay (DelayAfterPrepare cfg)) (
  then_ (default (Ret (Ok ())) guard) (
  then_ (update_consumer workerID (a_Partitions next)) (
  then_ (commitPhase workerID next) (
  then_ (delay (DelayBeforeStable cfg))
    (stabilizePhase workerID next)))))).

(** *** The claim sweep *)

Definition sweepReconcile (cur : option Claim) (now : Z) : option Claim :=
  match cur with
  | None => None
  | Some cur =>
      if decide (ClaimState cur = ClaimStateStable \/ ClaimState cur = ClaimStateAbort) then None
      else if decide (ClaimState cur = ClaimStateCommit /\ PendingOwner cur = "") then Some (NextStable cur now)
      else if IsExpired cur now then Some (reset_claim cur now)
      else None
  end.

(** The live set of the pass, when the caller vouches for it. *)
Definition resolveLiveSet (t : twoPhaseCoordinator) :
    prog (twoPhaseCoordinator * option (gset string * vouchSnapshot)) :=
  if bool_decide (OrphanGrace cfg <= 0)%Z || negb (HasLivePartitions cfg) then Ret (t, None)
  else
    l ← trigger LivePartitions;
    match l with
    | None =>
        n ← trigger FalseSamples;
        Ret (add_gen (Z.of_nat n + 1) (set_orphans ∅ t), None)
    | Some live =>
        let t1 := set_orphans (filter (λ kc, kc.1 ∉ live) (orphanAbsentSince t)) t in
        n ← trigger FalseSamples;
        let t2 := add_gen (Z.of_nat n) t1 in
        vn ← trigger (Now WallClock);
        Ret (t2, Some (live, mkVouch vn (unvouchedGen t2)))
    end.

Definition maybeReapOrphan (pid : string) (cur : Claim) (rev : Z) (live : gset string) (now : Z)
    (vouch : vouchSnapshot) (t : twoPhaseCoordinator) : prog twoPhaseCoordinator :=
  if decide (pid ∈ live) then Ret (set_orphans (delete pid (orphanAbsentSince t)) t)
  else if decide (ClaimState cur <> ClaimStateStable \/ PendingOwner cur <> "") then Ret t
  else
    match orphanAbsentSince t !! pid with
    | None => Ret (set_orphans (<[pid := mkClock (vouch_now vouch) (vouch_gen vouch)]> (orphanAbsentSince t)) t)
    | Some clock =>
        if decide (time_sub now (since clock) < OrphanGrace cfg)%Z then Ret t
        else
          n ← trigger FalseSamples;
          let t1 := add_gen (Z.of_nat n) t in
          if decide (clock_gen clock <> unvouchedGen t1) then
            Ret (set_orphans (delete pid (orphanAbsentSince t1)) t1)
          else
            delErr ← Delete pid rev;
            Ret match delErr with
                | Ok _ => set_orphans (delete pid (orphanAbsentSince t1)) t1
                | Err e => if Is e JsErrKeyExists || Is e JsErrKeyNotFound then t1 else add_gen 1 t1
                end
    end.

Definition sweepClaim (pid : string) (cur : Claim) (rev : Z) (live : option (gset string * vouchSnapshot))
    (now : Z) (t : twoPhaseCoordinator) : prog twoPhaseCoordinator :=
  match sweepReconcile (Some cur) now with
  | Some _ =>
      _ ← updateClaim pid (λ cur, Ok (sweepReconcile cur now));
      Ret t
  | None =>
      match live with
      | Some (live, vouch) => maybeReapOrphan pid cur rev live now vouch t
      | None => Ret t
      end
  end.

Definition pruneOrphanCandidates (listed : list string) (t : twoPhaseCoordinator) : twoPhaseCoordinator :=
  set_orphans (filter (λ kc, kc.1 ∈ listed) (orphanAbsentSince t)) t.

(** The loop of [sweepPass]: the cache built so far and whether a read failed. *)
Definition sweep_key (live : option (gset string * vouchSnapshot)) (now : Z) (pid : string)
    (s : twoPhaseCoordinator * gmap string (Claim * Z) * bool) :
    prog (twoPhaseCoordinator * gmap string (Claim * Z) * bool) :=
  let '(t, cache, getFailed) := s in
  g ← Get pid;
  match g with
  | Err _ => Ret (t, cache, true)
  | Ok (cur, rev) =>
      if decide (rev = 0%Z) then Ret (t, cache, getFailed)
      else
        t' ← sweepClaim pid cur rev live now t;
        Ret (t', <[pid := (cur, rev)]> cache, getFailed)
  end.

Definition sweepPass (now : Z) (latch : option KVStreamPos) (t : twoPhaseCoordinator) :
    prog twoPhaseCoordinator :=
  keys ← ClaimKeys;
  match keys with
  | Err _ => Ret match latch with Some _ => invalidate t | None => t end
  | Ok [] => Ret match latch with Some pos => latchCache ∅ pos t | None => t end
  | Ok keys =>
      l ← resolveLiveSet t;
      let '(t1, live) := l in
      s ← for_each keys (t1, ∅, false) (sweep_key live now);
      let '(t2, cache, getFailed) := s in
      let t3 := match live with Some _ => pruneOrphanCandidates keys t2 | None => t2 end in
      Ret match latch with
          | None => t3
          | Some pos => if (getFailed : bool) then invalidate t3 else latchCache cache pos t3
          end
  end.

Definition sweepCachedPass (now : Z) (t : twoPhaseCoordinator) : prog twoPhaseCoordinator :=
  let t0 := set_skips (sweepSkipsSinceFull t + 1) t in
  if decide (sweepCache t0 = ∅) then Ret t0
  else
    l ← resolveLiveSet t0;
    let '(t1, live) := l in
    t2 ← for_each (map_to_list (sweepCache t0)) t1
      (λ e t, sweepClaim e.1 e.2.1 e.2.2 live now t);
    Ret match live with
        | Some _ => set_orphans (filter (λ kc, kc.1 ∈ dom (sweepCache t2)) (orphanAbsentSince t2)) t2
        | None => t2
        end.

(** One probe: a position only when it is usable. *)
Definition sweepProbe (t : twoPhaseCoordinator) : prog (twoPhaseCoordinator * option KVStreamPos) :=
  x ← trigger BucketPos;
  Ret match x with
      | Err e =>
          let t1 := invalidate t in
          (if is_no_probe_handle e then drop_prober t1 else t1, None)
      | Ok pos =>
          let '(g, safe) := ConfigGuard_Check (sweepConfigGuard t) pos in
          let t1 := set_guard g t in
          if (safe : bool) then (t1, Some pos) else (invalidate t1, None)
      end.

Definition at_cache (t : twoPhaseCoordinator) (pos : option KVStreamPos) : bool :=
  match pos with Some pos => Same pos (sweepCachePos t) | None => false end.

Definition full_pass (now : Z) (latch : option KVStreamPos) (t : twoPhaseCoordinator) :
    prog (twoPhaseCoordinator * bool) :=
  t' ← sweepPass now latch t;
  Ret (set_skips 0 t', true).

(** [maybeSweepClaims] once it holds [sweepMu]. *)
Definition maybeSweepClaims (origin : sweepOrigin) (t : twoPhaseCoordinator) :
    prog (twoPhaseCoordinator * bool) :=
  if negb (HasStore cfg) then Ret (t, false)
  else
    now ← trigger (Now WallClock);
    if bool_decide (0 < SweepInterval cfg)%Z &&
       match lastSweep t with Some l => bool_decide (time_sub now l < SweepInterval cfg)%Z | None => false end
    then Ret (t, false)
    else
      let t1 := set_lastSweep now t in
      if negb (bool_decide (origin = sweepOriginTicker)) || negb (prober t1) then
        t2 ← sweepPass now None t1;
        Ret (t2, true)
      else
        p ← sweepProbe t1;
        let '(t2, pos) := p in
        if sweepCacheValid t2 && at_cache t2 pos && bool_decide (sweepSkipsSinceFull t2 < sweepMaxSkips t2)%Z then
          c ← trigger (Backoff ScanGateDefaultConfirmGap);
          match c with
          | Some _ => Ret (t2, true)
          | None =>
              p2 ← sweepProbe t2;
              let '(t3, pos2) := p2 in
              if at_cache t3 pos2 then
                t4 ← sweepCachedPass now t3;
                Ret (t4, true)
              else full_pass now pos2 t3
          end
        else full_pass now pos t2.

(** A sweep attempt; [locked] when another sweep holds [sweepMu]. *)
Definition try_sweep (locked : bool) (origin : sweepOrigin) (t : twoPhaseCoordinator) :
    prog (twoPhaseCoordinator * bool) :=
  if locked then Ret (t, false) else maybeSweepClaims origin t.

Definition Apply (locked : bool) (guard : option (prog (res handoff_err unit))) (workerID : string)
    (previous next : Assignment) (t : twoPhaseCoordinator) :
    prog (twoPhaseCoordinator * res handoff_err unit) :=
  s ← try_sweep locked sweepOriginApply t;
  r ← apply_phases guard workerID previous next;
  Ret (s.1, r).

(** [direct.Apply] (direct.go) *)
Definition direct_Apply (workerID : string) (next : Assignment) : prog (res handoff_err unit) :=
  update_consumer workerID (a_Partitions next).

Definition sampleAuthority (t : twoPhaseCoordinator) : prog (twoPhaseCoordinator * bool) :=
  if negb (HasSweepAuthority cfg) then Ret (t, true)
  else
    a ← trigger SweepAuthority;
    Ret (if (a : bool) then t else add_gen 1 t, a).

(** One iteration of the loop of [Start]; [tick] already counts it. *)
Definition ticker_tick (locked : bool) (tick : Z) (t : twoPhaseCoordinator) : prog twoPhaseCoordinator :=
  let backstopEvery := backstopEveryFor (SweepInterval cfg) in
  let phase := (SweepPhaseSeed cfg `mod` backstopEvery)%Z in
  a ← sampleAuthority t;
  let '(t1, authorized) := a in
  if negb authorized && bool_decide (uwrap64 (tick + phase) `mod` backstopEvery <> 0)%Z && negb (backstopDue t1)
  then Ret t1
  else
    let t2 := if (authorized : bool) then t1 else set_backstopDue true t1 in
    s ← try_sweep locked sweepOriginTicker t2;
    Ret (if (s.2 : bool) then set_backstopDue false s.1 else s.1).
End coordinator.

(** ** The manager's side (manager_handoff.go, manager_assignment.go) *)

Definition removedPartitions (previous next : list Partition) : list Partition :=
  filter (λ p, SubjectKey p ∉ (SubjectKey <$> next)) previous.

Section manager.
Context `{ClaimWire} (cfg : Config).

(** One key of [handoffStartupHygiene]; [Err] leaves the loop. *)
Definition hygiene_key (now : Z) (pid : string) (resumable : bool) : prog (res bool bool) :=
  g ← Get pid;
  match g with
  | Err _ => Ret (Ok resumable)
  | Ok (cur, rev) =>
      if decide (rev = 0%Z) then Ret (Ok resumable)
      else if decide (ClaimState cur = ClaimStateStable) then Ret (Ok resumable)
      else if negb (IsExpired cur now) then Ret (Ok true)
      else
        w ← limiter_wait cfg;
        match w with
        | Some _ => Ret (Err true)
        | None =>
            _ ← PutIfEpoch pid (Epoch cur) (reset_claim cur now);
            Ret (Ok resumable)
        end
  end.

Definition handoffStartupHygiene : prog bool :=
  keys ← ClaimKeys;
  match keys with
  | Err _ | Ok [] => Ret false
  | Ok keys =>
      now ← trigger (Now WallClock);
      r ← for_each_err keys false (hygiene_key now);
      Ret match r with Ok b => b | Err b => b end
  end.

Definition resume_key (now : Z) (wid pid : string) (finalized : nat) : prog (res nat nat) :=
  g ← Get pid;
  match g with
  | Err _ => Ret (Ok finalized)
  | Ok (cur, rev) =>
      if decide (rev = 0%Z) then Ret (Ok finalized)
      else if decide (Owner cur <> wid) then Ret (Ok finalized)
      else if decide (ClaimState cur <> ClaimStateCommit) then Ret (Ok finalized)
      else
        w ← limiter_wait cfg;
        match w with
        | Some _ => Ret (Err finalized)
        | None =>
            r ← PutIfEpoch pid (Epoch cur) (NextStable cur now);
            Ret (Ok match r with Ok _ => S finalized | Err _ => finalized end)
        end
  end.

(** How many claims were finalized, and whether the pass is complete. *)
Definition finalizeResumeClaims (wid : string) : prog (nat * bool) :=
  keys ← ClaimKeys;
  match keys with
  | Err _ | Ok [] => Ret (0, false)
  | Ok keys =>
      now ← trigger (Now WallClock);
      r ← for_each_err keys 0 (resume_key now wid);
      Ret match r with Ok n => (n, true) | Err n => (n, false) end
  end.

(** The claim shows that another worker holds the partition. *)
Definition committedElsewhere (workerID : string) (claim : Claim) (rev : Z) : bool :=
  bool_decide (rev <> 0%Z) && bool_decide (Owner claim <> "") && bool_decide (Owner claim <> workerID) &&
  (bool_decide (ClaimState claim = ClaimStateCommit) || bool_decide (ClaimState claim = ClaimStateStable)).

Definition guard_partition (workerID : string) (batch : gset string) (p : Partition) (_ : unit) :
    prog (res handoff_err unit) :=
  let pid := SubjectKey p in
  if decide (pid ∉ batch) then Ret (Ok ())
  else
    g ← Get pid;
    Ret match g with
        | Err e => Err (GuardClaimRead pid e)
        | Ok (claim, rev) =>
            if negb (committedElsewhere workerID claim rev) then Err ErrRemovalPending else Ok ()
        end.

(** [batch] is what [currentCommitPartitionSet] read for [next.Version] from the
    assignment bucket; [HasStore] stands for [handoffClaimStore]. *)
Definition guardHandoffRemoval (workerID : string) (previous next : Assignment)
    (batch : res go_error (gset string)) : prog (res handoff_err unit) :=
  let removed := removedPartitions (a_Partitions previous) (a_Partitions next) in
  if decide (removed = []) then Ret (Ok ())
  else
    match batch with
    | Err e => Ret (Err (GuardCommitRead e))
    | Ok batch =>
        if decide (batch = ∅) then Ret (Ok ())
        else if negb (HasStore cfg) then Ret (Ok ())
        else for_each_err removed () (guard_partition workerID batch)
    end.
End manager.
