(* ===== verification/HandoffSafety.v ===== *)
(** * The claim protocol under every interleaving

    Any number of coordinators, sweepers and starting managers share the handoff
    bucket. The protocol they follow is the abstract machine [claim_step]; each
    write they make is a step of it from a claim of the epoch being replaced.
    Two consequences: epochs order the claims of a partition, and an epoch has
    one owner, as long as the claim has not been reaped. *)
From S2P Require Import Prelude Partition Float64 Nats KV Lease Wire Handoff.

(** ** The protocol *)

(** What a worker may make of a claim it has read; times are not part of it. *)
Inductive claim_step (c c' : Claim) : Prop :=
| step_prepare : Owner c' = Owner c -> ClaimState c' = ClaimStatePrepare ->
    Epoch c' = wrap64 (Epoch c + 1) -> claim_step c c'
| step_switch : PendingOwner c <> "" -> Owner c' = PendingOwner c -> PendingOwner c' = "" ->
    ClaimState c' = ClaimStateCommit -> Epoch c' = wrap64 (Epoch c + 1) -> claim_step c c'
| step_commit : Owner c' = Owner c -> PendingOwner c' = "" -> ClaimState c' = ClaimStateCommit ->
    Epoch c' = wrap64 (Epoch c + 1) \/ Epoch c' = Epoch c -> claim_step c c'
| step_stable : Owner c' = Owner c -> PendingOwner c' = "" -> ClaimState c' = ClaimStateStable ->
    Epoch c' = wrap64 (Epoch c + 1) \/ Epoch c' = Epoch c -> claim_step c c'.

(** A claim as the protocol writes it, and JSON keeps it. *)
Definition claim_wf (c : Claim) : Prop :=
  ascii_text (PartitionID c) = true /\ ascii_text (Owner c) = true /\ ascii_text (PendingOwner c) = true /\
  ClaimState c ∈ [ClaimStateStable; ClaimStatePrepare; ClaimStateCommit] /\
  (ClaimState c <> ClaimStatePrepare -> PendingOwner c = "") /\
  (1 <= Epoch c < 2 ^ 63)%Z /\ int64 (TTLSeconds c) /\ int64 (ConflictCount c).

(** JSON gives a claim of the protocol back. *)
Class ClaimWireLaws `{ClaimWire} := {
  claim_roundtrip c s : claim_wf c -> marshal_claim c = Some s -> unmarshal_claim s = Some c;
}.

(** An update that writes a step of the protocol, as long as epochs last. *)
Definition lawful_step (c c' : Claim) : Prop :=
  claim_wf c -> (Epoch c < 2 ^ 63 - 1)%Z -> claim_wf c' /\ claim_step c c'.

(** What a transformation may make of an absent claim and of a present one. *)
Definition lawful_transform (T : option Claim -> option Claim) : Prop :=
  (forall c, T None = Some c -> claim_wf c /\ Epoch c = 1%Z) /\
  (forall c c', T (Some c) = Some c' -> lawful_step c c').

Lemma lawful_keep T : T None = None -> (forall c c', T (Some c) = Some c' -> lawful_step c c') -> lawful_transform T.
Proof. intros E St. split; [congruence|done]. Qed.

(** Solve the well-formedness of a claim computed from a well-formed one. *)
Ltac solve_wf :=
  unfold claim_wf; cbn; rewrite ?wrap64_id by lia; split_and!; first [done|lia|set_solver|tauto|idtac].

Lemma commit_settled c : claim_wf c -> ClaimState c = ClaimStateCommit -> PendingOwner c = "".
Proof. intros (_ & _ & _ & _ & P & _) E. apply P. by rewrite E. Qed.

Lemma NextStable_step c now : ClaimState c = ClaimStateCommit -> lawful_step c (NextStable c now).
Proof.
  intros E W Ep. pose proof (commit_settled _ W E). unfold claim_wf in W. destruct_and! W.
  split; [solve_wf|]. apply step_stable; cbn; auto.
Qed.

Lemma reset_step c now : lawful_step c (reset_claim c now).
Proof. intros W Ep. unfold claim_wf in W. destruct_and! W. split; [solve_wf|]. apply step_stable; cbn; auto. Qed.

Lemma commit_step w now c c' : commit_transform w now (Some c) = Some c' -> lawful_step c c'.
Proof.
  cbn. intros E W Ep. pose proof W as W'. unfold claim_wf in W. destruct_and! W. repeat case_decide; simplify_eq.
  - assert (exists owner, NextCommit c now = mkClaim (PartitionID c) owner "" ClaimStateCommit
        (wrap64 (Epoch c + 1)) now (TTLSeconds c) (ConflictCount c) /\
      (owner = Owner c \/ owner = PendingOwner c /\ PendingOwner c <> "")) as (owner & -> & Ho).
    { unfold NextCommit. case_decide as P; [by eexists; split; [|right]|].
      rewrite P. by eexists; split; [|left]. }
    assert (ascii_text owner = true) by by destruct Ho as [->|[-> _]].
    split; [solve_wf|]. destruct Ho as [->|[-> P]]; [apply step_commit; cbn; auto|by apply step_switch].
  - split; [done|]. apply step_commit; auto using commit_settled.
Qed.

Lemma commit_lawful w now : lawful_transform (commit_transform w now).
Proof. apply lawful_keep; [done|]. apply commit_step. Qed.

Lemma stable_lawful w now : lawful_transform (stable_transform w now).
Proof.
  apply lawful_keep; [done|]. cbn. intros c c' E. repeat case_decide; simplify_eq. by apply NextStable_step.
Qed.

Lemma reconcile_lawful now : lawful_transform (λ c, sweepReconcile c now).
Proof.
  apply lawful_keep; [done|]. cbn. intros c c' E. repeat case_decide; try done.
  - injection E as <-. apply NextStable_step. tauto.
  - destruct (IsExpired c now); simplify_eq. apply reset_step.
Qed.

Lemma prepare_lawful cfg float_to_int pid w now :
  ascii_text pid = true -> ascii_text w = true -> int64 (ttl_seconds cfg float_to_int) ->
  lawful_transform (prepare_transform cfg float_to_int pid w now).
Proof.
  intros Tp Tw Tt. split.
  - intros c [= <-]. split; [|done]. solve_wf.
  - cbn. intros c c' E W Ep. unfold claim_wf in W. destruct_and! W. repeat case_decide; simplify_eq.
    + split; [solve_wf|]. by apply step_prepare.
    + split; [solve_wf|]. apply step_stable; cbn; auto.
Qed.

(** ** The bucket *)

Definition short (l : list msg) : Prop := (Z.of_nat (length l) < 2 ^ 63 - 1)%Z.

(** The claim of [k] was never reaped. *)
Definition unreaped (k : string) (l : list msg) : Prop := Forall (λ m, m_key m = k -> m_body m <> Del) l.

Section bucket.
Context `{ClaimWire}.

Definition decodes (m : msg) (c : Claim) : Prop := exists s, m_body m = Put s /\ unmarshal_claim s = Some c.

(** Every claim is a first one, or a step of the protocol from a claim of the
    epoch it replaces. *)
Definition claim_good (l : list msg) (m : msg) : Prop :=
  match m_body m with
  | Put s => short l -> exists c, unmarshal_claim s = Some c /\ claim_wf c /\
      ((live l (m_key m) = None /\ Epoch c = 1%Z) \/
       exists m1 c1 m0 c0, live l (m_key m) = Some m1 /\ decodes m1 c1 /\
         m0 ∈ l /\ m_key m0 = m_key m /\ decodes m0 c0 /\ Epoch c0 = Epoch c1 /\ claim_step c0 c)
  | Del => True
  | Expired => False
  end.

Lemma decodes_inj m c c' : decodes m c -> decodes m c' -> c = c'.
Proof. intros (s & E & D) (s' & E' & D'). congruence. Qed.

Lemma short_app l m : short (l ++ [m]) -> short l.
Proof. unfold short. rewrite length_app. cbn. lia. Qed.

Lemma unreaped_app k l m : unreaped k (l ++ [m]) -> unreaped k l /\ (m_key m = k -> m_body m <> Del).
Proof. unfold unreaped. by rewrite Forall_app, Forall_singleton. Qed.

Lemma step_epoch c c' : claim_step c c' -> Epoch c' = wrap64 (Epoch c + 1) \/ Epoch c' = Epoch c /\ Owner c' = Owner c.
Proof. destruct 1; intuition. Qed.

(** Epochs count the writes. *)
Lemma claim_at l m s :
  stream claim_good l -> short l -> m ∈ l -> m_body m = Put s ->
  exists c, unmarshal_claim s = Some c /\ claim_wf c /\ (Epoch c <= Z.of_nat (length l))%Z.
Proof.
  intros St. revert m s. induction St as [|l m' St IH _ _ G]; intros m s Sh Hm Hb; [set_solver|].
  pose proof (short_app _ _ Sh) as Sh'. rewrite length_app; cbn [length].
  apply elem_of_app in Hm as [Hm|Hm].
  { destruct (IH _ _ Sh' Hm Hb) as (c & ? & ? & ?). exists c. split_and!; [done..|lia]. }
  apply list_elem_of_singleton in Hm as ->. unfold claim_good in G. rewrite Hb in G.
  destruct (G Sh') as (c & D & W & Hc). exists c. split_and!; [done..|].
  destruct Hc as [[_ ->]|(m1 & c1 & m0 & c0 & _ & _ & H0 & _ & (s0 & E0 & D0) & _ & Hs)]; [lia|].
  destruct (IH _ _ Sh' H0 E0) as (c0' & D0' & W0 & L0). assert (c0' = c0) as -> by congruence.
  unfold short in Sh'. destruct W0 as (_ & _ & _ & _ & _ & ? & _). apply step_epoch in Hs as [->|[-> _]]; [|lia].
  rewrite wrap64_id; lia.
Qed.

Lemma claim_decoded l m c :
  stream claim_good l -> short l -> m ∈ l -> decodes m c -> claim_wf c /\ (Epoch c < 2 ^ 63 - 1)%Z.
Proof.
  intros St Sh Hm (s & E & D). destruct (claim_at _ _ _ St Sh Hm E) as (c' & D' & W & L).
  assert (c' = c) as -> by congruence. unfold short in Sh. split; [done|lia].
Qed.

(** In the history of a claim that was not reaped, epochs grow and each has one
    owner. *)
Lemma current_claim l k m c :
  stream claim_good l -> short l -> unreaped k l -> m ∈ l -> m_key m = k -> decodes m c ->
  exists mL cL, live l k = Some mL /\ decodes mL cL /\
    (Epoch c <= Epoch cL)%Z /\ (Epoch c = Epoch cL -> Owner c = Owner cL).
Proof.
  intros St. revert m c. induction St as [|l m' St IH _ _ G]; intros m c Sh U Hm K D; [set_solver|].
  pose proof (short_app _ _ Sh) as Sh'. apply unreaped_app in U as [U Um]. rewrite live_snoc.
  destruct (decide (m_key m' = k)) as [K'|K'].
  2: { apply elem_of_app in Hm as [Hm|Hm]; [by eapply IH|]. apply list_elem_of_singleton in Hm as ->. done. }
  specialize (Um K'). unfold claim_good in G. destruct (m_body m') as [s| |] eqn:Eb; [|done..].
  destruct (G Sh') as (c' & D' & W' & Hc). exists m', c'. split_and!; [done|by exists s|..].
  all: apply elem_of_app in Hm as [Hm|Hm];
    [|apply list_elem_of_singleton in Hm as ->; destruct D as (s0 & E0 & D0); assert (c' = c) as -> by congruence; done].
  all: destruct (IH m c Sh' U Hm K D) as (mL & cL & L & DL & Ep & Ow).
  all: rewrite K' in Hc; destruct Hc as [[N _]|(m1 & c1 & m0 & c0 & L1 & D1 & H0 & K0 & D0 & Ee & Hs)]; [congruence|].
  all: assert (m1 = mL) as -> by congruence; assert (c1 = cL) as -> by by eapply decodes_inj.
  all: destruct (claim_decoded _ _ _ St Sh' H0 D0) as [(_ & _ & _ & _ & _ & ? & _) ?].
  all: destruct (IH m0 c0 Sh' U H0 K0 D0) as (mL' & cL' & L' & DL' & _ & Ow0).
  all: assert (mL' = mL) as -> by congruence; assert (cL' = cL) as -> by by eapply decodes_inj.
  all: destruct (step_epoch _ _ Hs) as [E|[E O]]; rewrite ?wrap64_id in E by lia; [lia|].
  - lia.
  - intros Ec. rewrite O, Ow0 by done. apply Ow. lia.
Qed.
(** A claim and an earlier one of its partition. *)
Lemma earlier_claim l1 m l2 k c m1 c1 :
  stream claim_good (l1 ++ m :: l2) -> short (l1 ++ m :: l2) -> unreaped k (l1 ++ m :: l2) ->
  m_key m = k -> decodes m c -> m1 ∈ l1 -> m_key m1 = k -> decodes m1 c1 ->
  (Epoch c1 <= Epoch c)%Z /\ (Epoch c1 = Epoch c -> Owner c1 = Owner c).
Proof.
  replace (l1 ++ m :: l2) with ((l1 ++ [m]) ++ l2) by by rewrite <-app_assoc.
  intros St%stream_app Sh U K (s & Es & Ds) Hm1 K1 D1. unfold unreaped in U. apply Forall_app in U as [U _].
  assert (short (l1 ++ [m])) as Sh' by (unfold short in *; rewrite length_app in Sh; lia).
  destruct (current_claim _ k m1 c1 St Sh' U) as (mL & cL & L & DL & R); [set_solver|done..|].
  rewrite live_snoc, decide_True in L by done. rewrite Es in L. injection L as <-.
  destruct DL as (s' & Es' & Ds'). assert (cL = c) as -> by congruence. done.
Qed.

Lemma epoch_has_one_owner l k m1 c1 m2 c2 :
  stream claim_good l -> short l -> unreaped k l -> m1 ∈ l -> m2 ∈ l -> m_key m1 = k -> m_key m2 = k ->
  decodes m1 c1 -> decodes m2 c2 -> Epoch c1 = Epoch c2 -> Owner c1 = Owner c2.
Proof.
  intros St Sh U H1 H2 K1 K2 D1 D2 E. apply list_elem_of_split in H2 as (l1 & l2 & ->).
  apply elem_of_app in H1 as [H1|[->|H1]%elem_of_cons].
  - by eapply (earlier_claim l1 m2 l2).
  - f_equal. by eapply decodes_inj.
  - apply list_elem_of_split in H1 as (l3 & l4 & ->). rewrite app_comm_cons, app_assoc in St, Sh, U.
    symmetry. eapply (earlier_claim (l1 ++ m2 :: l3) m1 l4 _ _ m2); [done..|set_solver|done|done|done].
Qed.
End bucket.

(** ** The programs *)

Section programs.
Context `{ClaimWire, !ClaimWireLaws, Xxh3} (me : nat).
Local Notation Inv := (bucket_ok claim_good).
Local Notation no_deadline := (λ X (o : op X), @None Z).
Local Notation wp := (wp Inv no_deadline me anyone).
Local Notation safe := (safe Inv no_deadline me).

Lemma claims_bucket_same v v' : Inv v -> log v' = log v -> (now v <= now v')%Z -> Inv v'.
Proof. apply bucket_same. Qed.

(** A claim that was read. *)
Definition seen (k : string) (c : Claim) (v : view) : Prop :=
  exists m, m ∈ log v /\ m_key m = k /\ decodes m c.

Lemma seen_later k c v v' : later v v' -> seen k c v -> seen k c v'.
Proof. intros [(l & E & _) _] (m & Hm & R). exists m. rewrite E. set_solver. Qed.

(** A write that the protocol allows at [expected]. *)
Definition next_ok (k : string) (expected : Z) (next : Claim) (v : view) : Prop :=
  (expected = 0%Z /\ claim_wf next /\ Epoch next = 1%Z) \/
  (exists c0, seen k c0 v /\ Epoch c0 = expected /\ lawful_step c0 next).

Lemma next_ok_later k e c v v' : later v v' -> next_ok k e c v -> next_ok k e c v'.
Proof. intros L [?|(c0 & S & R)]; [by left|]. right. exists c0. split; [by eapply seen_later|done]. Qed.

(** The body of a write: it is good where it lands. *)
Lemma claim_write_good (v : view) (k b : string) next e r t :
  Inv v -> marshal_claim next = Some b -> next_ok k e next v ->
  (live (log v) k = None /\ e = 0%Z \/ exists m1 c1, live (log v) k = Some m1 /\ decodes m1 c1 /\ Epoch c1 = e) ->
  claim_good (log v) (mkMsg r k t (Put b) (Some me)).
Proof.
  intros [St _] Eb Hn Hl. unfold claim_good. cbn. intros Sh.
  assert (forall m c, m ∈ log v -> decodes m c -> Epoch c <> 0%Z) as Pos.
  { intros m c Hm D. destruct (claim_decoded _ _ _ St Sh Hm D) as [(_ & _ & _ & _ & _ & ? & _) _]. lia. }
  destruct Hn as [(-> & W & E1)|(c0 & (m0 & Hm0 & K0 & D0) & E0 & Ls)].
  - exists next. split_and!; [by apply claim_roundtrip|done|]. left.
    destruct Hl as [[L _]|(m1 & c1 & L & D1 & Z1)]; [done|]. destruct (Pos m1 c1); [|done..].
    by eapply live_elem.
  - destruct (claim_decoded _ _ _ St Sh Hm0 D0) as [W0 B0]. destruct (Ls W0 B0) as [W Hs].
    exists next. split_and!; [by apply claim_roundtrip|done|]. right.
    destruct Hl as [[_ ->]|(m1 & c1 & L & D1 & Z1)]; [by destruct (Pos m0 c0)|].
    exists m1, c1, m0, c0. split_and!; try done. congruence.
Qed.

(** Reading a claim. *)
Lemma wp_read t0 {A} pid (f : _ -> prog A) Φ v :
  Inv v ->
  (forall x v1, later v v1 -> Inv v1 ->
     match x with
     | Ok (Some (cl, rev)) => exists m, m ∈ log v1 /\ m_rev m = rev /\ m_key m = key pid /\ decodes m cl /\ (0 < rev)%Z
     | _ => True
     end -> wp t0 (f x) Φ v1) ->
  wp t0 (GetJSON unmarshal_claim (key pid) ≫= f) Φ v.
Proof.
  intros I Hf. unfold GetJSON. apply wp_bind; [|done]. apply wp_quiet; [apply claims_bucket_same|done|].
  intros x v1 L1 I1 (v0 & L0 & I0 & (El & _ & Hx) & _) v2 L2 I2. apply Hf; [etrans; [exact L1|exact L2]|done|].
  destruct x as [e|e]; [|by destruct (Is e JsErrKeyNotFound)]. destruct Hx as (m & Lv & ->).
  destruct (unmarshal_claim _) as [c|] eqn:D; [|done]. destruct (live_elem _ _ _ Lv) as [Hm K].
  destruct (live_put _ _ _ Lv) as [s Es]. exists m. split_and!; [|done..| |].
  - destruct L2 as [(l & E & _) _]. rewrite E, El. set_solver.
  - exists s. split; [done|]. unfold entry_of in D. cbn in D. by rewrite Es in D.
  - cbn. destruct I0 as [S0 _]. apply list_elem_of_split in Hm as (l1 & l2 & Eq). rewrite Eq in S0.
    destruct (stream_at _ _ _ _ S0) as (N & _). unfold numbered in N. destruct (m_by m); [by apply N|].
    destruct N as [_ N]. congruence.
Qed.

Lemma wp_PutIfEpoch t0 pid e next v :
  Inv v -> next_ok (key pid) e next v -> wp t0 (PutIfEpoch pid e next) (λ _ _, True) v.
Proof.
  intros I Hn. unfold PutIfEpoch. destruct (marshal_claim next) as [b|] eqn:Eb; [|by intros v1 _ _].
  apply wp_read; [done|]. intros x v1 L1 I1 Hx. apply (next_ok_later _ _ _ _ _ L1) in Hn.
  destruct x as [[[cl rev]|]|er]; [..|by intros v2 _ _]; case_decide as Ee; try (by intros v2 _ _).
  - apply wp_op; [|by intros v2 y v3 _ _ _ _ _ _ v4 _ _]. intros v2 y v3 L2 L3 I2 [W _] _.
    eapply bucket_write; [done|apply L3| |exact W|]; [done|]. intros R r.
    apply (claim_write_good _ _ _ next e); [done..|by eapply next_ok_later|]. right.
    destruct Hx as (m & Hm & Er & K & D & P). exists m, cl. split_and!; [|done..].
    assert (last_msg (log v2) (key pid) = Some m) as Lm.
    { destruct I2 as [S2 _]. apply (stream_last_rev claim_good); [done| |lia|congruence].
      destruct L2 as [(l & E & _) _]. rewrite E. set_solver. }
    unfold live. rewrite Lm. cbn. unfold is_put. destruct D as (s & -> & _). done.
  - apply wp_op; [|by intros v2 y v3 _ _ _ _ _ _ v4 _ _]. intros v2 y v3 L2 L3 I2 [W _] _.
    eapply bucket_write; [done|apply L3| |exact W|]; [done|]. intros R r.
    apply (claim_write_good _ _ _ next e); [done..|by eapply next_ok_later|]. by left.
Qed.

Hint Resolve safe_ret : safe.

Lemma safe_if {A} (b : bool) (m n : prog A) : safe m -> safe n -> safe (if b then m else n).
Proof. by destruct b. Qed.

Lemma safe_op {X} (o : op X) : quiet o = true -> safe (trigger o).
Proof. apply safe_quiet, claims_bucket_same. Qed.

(** Programs put together from safe ones; what is left are the writes. *)
Ltac solve_safe :=
  repeat first
    [ apply safe_ret | apply safe_op; reflexivity | done
    | apply safe_for_each; intros ? ? | apply safe_for_each_err; intros ? ?
    | apply safe_bind; [|intros ?] | case_match | case_decide ].

Lemma safe_limiter cfg : safe (limiter_wait cfg).
Proof. unfold limiter_wait. solve_safe. Qed.

(** After a read, any number of quiet operations and one write. *)
Lemma wp_Get t0 {A} pid (f : _ -> prog A) Φ v :
  Inv v ->
  (forall x v1, later v v1 -> Inv v1 ->
     match x with
     | Ok (cl, rev) => rev = 0%Z \/ (0 < rev)%Z /\ seen (key pid) cl v1
     | Err _ => True
     end -> wp t0 (f x) Φ v1) ->
  wp t0 (Get pid ≫= f) Φ v.
Proof.
  intros I0 Hf. unfold Get. apply wp_bind; [|done]. apply wp_read; [done|].
  intros x v1 L1 I1 Hx v2 L2 I2. apply Hf; [etrans; [exact L1|exact L2]|done|].
  destruct x as [[[cl rev]|]|e]; [|by left|done]. destruct Hx as (m & Hm & _ & K & D & P). right. split; [done|].
  apply (seen_later _ _ _ _ L2). by exists m.
Qed.

Lemma wp_after t0 {A B} (m : prog A) (f : A -> prog B) (K : view -> Prop) v :
  safe m -> (forall v1 v2, later v1 v2 -> K v1 -> K v2) -> Inv v -> K v ->
  (forall a v1, Inv v1 -> K v1 -> wp t0 (f a) (λ _ _, True) v1) -> wp t0 (m ≫= f) (λ _ _, True) v.
Proof.
  intros Sm St I0 Kv Hf. apply wp_bind; [|done]. eapply wp_mono; [by apply Sm|].
  intros a v1 L1 I1 _. apply Hf; [done|by eapply St].
Qed.

Lemma safe_attempt cfg pid T retry :
  lawful_transform T -> (forall e, safe (retry e)) -> safe (update_attempt cfg pid (λ cur, Ok (T cur)) retry).
Proof.
  intros [T0 T1] Hr t0 v I0. apply wp_Get; [done|]. intros [[cur rev]|e] v1 L1 I1 Hx; [|by intros v2 _ _].
  destruct (T (if decide (0 < rev)%Z then Some cur else None)) as [next|] eqn:ET; [|by intros v2 _ _].
  eapply (wp_after _ _ _ (next_ok (key pid) (if decide (rev = 0%Z) then 0%Z else Epoch cur) next));
    [apply safe_limiter|intros; by eapply next_ok_later|done|..].
  - destruct Hx as [->|[P Sn]]; [left; by split; [|apply T0]|].
    rewrite decide_True in ET by lia. right. exists cur. rewrite decide_False by lia. split_and!; [done..|].
    by apply T1.
  - intros [e|] v2 I2 Hn; [by intros v3 _ _|]. apply wp_bind; [|done]. eapply wp_mono; [by apply wp_PutIfEpoch|].
    intros [r|e] v3 _ I3 _; [by intros v4 _ _|by apply Hr].
Qed.

Lemma safe_update_loop cfg float_to_int left attempt pid T :
  lawful_transform T -> safe (update_loop cfg float_to_int left attempt pid (λ cur, Ok (T cur))).
Proof.
  intros HT. revert attempt. induction left as [|left IH]; intros attempt; cbn [update_loop];
    (apply safe_attempt; [done|]); intros e; [apply safe_ret|].
  case_decide; [apply IH|]. unfold backoff_for. solve_safe.
Qed.

Lemma safe_updateClaim cfg float_to_int pid T :
  lawful_transform T -> safe (updateClaim cfg float_to_int pid (λ cur, Ok (T cur))).
Proof. apply safe_update_loop. Qed.

Lemma safe_claims {A} cfg float_to_int (l : list A) (pid : A -> string) (T : A -> option Claim -> option Claim) :
  Forall (λ x, lawful_transform (T x)) l ->
  safe (group_all ((λ x, updateClaim cfg float_to_int (pid x) (λ cur, Ok (T x cur))) <$> l)).
Proof.
  intros F. apply safe_group_all; [apply claims_bucket_same|]. rewrite Forall_fmap. eapply Forall_impl; [exact F|].
  intros x Hx. by apply safe_updateClaim.
Qed.

Definition text_partitions (a : Assignment) : Prop := Forall (λ p, ascii_text (SubjectKey p) = true) (a_Partitions a).

Lemma safe_then {A} m (n : prog (res handoff_err A)) : safe m -> safe n -> safe (then_ m n).
Proof. intros Sm Sn. apply safe_bind; [done|]. intros [?|?]; [done|apply safe_ret]. Qed.

Lemma safe_guard cfg w previous next batch : safe (guardHandoffRemoval cfg w previous next batch).
Proof. unfold guardHandoffRemoval, guard_partition, Get, GetJSON. solve_safe. Qed.

Section apply.
Context (cfg : Config) (float_to_int : float64 -> Z).

Lemma safe_apply_phases guard w previous next :
  int64 (ttl_seconds cfg float_to_int) -> ascii_text w = true -> text_partitions next ->
  (forall g, guard = Some g -> safe g) ->
  safe (apply_phases cfg float_to_int guard w previous next).
Proof.
  intros Ts Tw Tn Hg. unfold apply_phases, preparePhase, commitPhase, stabilizePhase, delay, update_consumer.
  repeat apply safe_then; try (by solve_safe).
  - case_match; [apply safe_ret|]. apply safe_bind; [by apply safe_op|]. intros t. apply safe_claims.
    rewrite Forall_forall. intros p [_ Hp]%list_elem_of_filter. unfold text_partitions in Tn.
    rewrite Forall_forall in Tn. apply prepare_lawful; auto.
  - destruct guard as [g|]; [by apply Hg|apply safe_ret].
  - case_match; [apply safe_ret|]. apply safe_bind; [by apply safe_op|]. intros t. apply safe_claims.
    rewrite Forall_forall. intros p _. apply commit_lawful.
  - case_match; [apply safe_ret|]. apply safe_bind; [by apply safe_op|]. intros t. apply safe_claims.
    rewrite Forall_forall. intros p _. apply stable_lawful.
Qed.

Lemma safe_Delete pid rev : safe (Delete pid rev).
Proof.
  intros t0 v I0. apply (wp_op _ _ _ _ _ (KvDelete (key pid) (Some rev)) Ret); [|by intros v2 y v3 _ _ _ _ _ _ v4 _ _].
  intros v2 y v3 _ L3 I2 [W _] _. by eapply bucket_write; [done|apply L3| |exact W|].
Qed.

Lemma safe_Get pid : safe (Get pid).
Proof. unfold Get, GetJSON. solve_safe. Qed.

Lemma safe_sweepClaim pid cur rev live now t : safe (sweepClaim cfg float_to_int pid cur rev live now t).
Proof.
  unfold sweepClaim. destruct (sweepReconcile _ _).
  { apply safe_bind; [apply safe_updateClaim, reconcile_lawful|]. intros ?. apply safe_ret. }
  destruct live as [[live vouch]|]; [|apply safe_ret]. unfold maybeReapOrphan. solve_safe. apply safe_Delete.
Qed.

Lemma safe_resolveLiveSet t : safe (resolveLiveSet cfg t).
Proof. unfold resolveLiveSet. solve_safe. Qed.

Lemma safe_sweepPass now latch t : safe (sweepPass cfg float_to_int now latch t).
Proof.
  unfold sweepPass, ClaimKeys, ListKeys. apply safe_bind; [solve_safe|].
  intros [[|k ks]|e]; [apply safe_ret| |apply safe_ret].
  apply safe_bind; [apply safe_resolveLiveSet|]. intros [t1 live]. apply safe_bind; [|by intros [[t2 cache] b]; apply safe_ret].
  apply safe_for_each. intros pid [[t2 cache] b]. apply safe_bind; [apply safe_Get|].
  intros [[c rev]|e]; [|apply safe_ret]. case_decide; [apply safe_ret|].
  apply safe_bind; [apply safe_sweepClaim|]. intros ?. apply safe_ret.
Qed.

Lemma safe_sweepCachedPass now t : safe (sweepCachedPass cfg float_to_int now t).
Proof.
  unfold sweepCachedPass. case_decide; [apply safe_ret|]. apply safe_bind; [apply safe_resolveLiveSet|].
  intros [t1 live]. apply safe_bind; [|by intros ?; apply safe_ret]. apply safe_for_each. intros [pid [c rev]] t2.
  apply safe_sweepClaim.
Qed.

Lemma safe_full_pass now latch t : safe (full_pass cfg float_to_int now latch t).
Proof. apply safe_bind; [apply safe_sweepPass|]. intros ?. apply safe_ret. Qed.

Lemma safe_sweepProbe np t : safe (sweepProbe np t).
Proof. unfold sweepProbe. solve_safe. Qed.

Lemma safe_sweep np locked origin t : safe (try_sweep cfg float_to_int np locked origin t).
Proof.
  unfold try_sweep, maybeSweepClaims. destruct locked; [apply safe_ret|].
  apply safe_if; [apply safe_ret|]. apply safe_bind; [by apply safe_op|]. intros now.
  apply safe_if; [apply safe_ret|]. apply safe_if.
  { apply safe_bind; [apply safe_sweepPass|]. intros ?. apply safe_ret. }
  apply safe_bind; [apply safe_sweepProbe|]. intros [t2 pos]. apply safe_if; [|apply safe_full_pass].
  apply safe_bind; [by apply safe_op|]. intros [e|]; [apply safe_ret|].
  apply safe_bind; [apply safe_sweepProbe|]. intros [t3 pos2]. apply safe_if; [|apply safe_full_pass].
  apply safe_bind; [apply safe_sweepCachedPass|]. intros ?. apply safe_ret.
Qed.

Lemma safe_tick np locked n t : safe (ticker_tick cfg float_to_int np locked n t).
Proof.
  unfold ticker_tick, sampleAuthority. apply safe_bind; [solve_safe|]. intros [t1 a].
  case_match; [apply safe_ret|]. apply safe_bind; [apply safe_sweep|]. intros ?. apply safe_ret.
Qed.

(** A paced write of a step from a claim that was read. *)
Lemma wp_paced_put {A} t0 pid cur next (f : res handoff_err Z -> A) w v :
  Inv v -> seen (key pid) cur v -> lawful_step cur next ->
  wp t0 (l ← limiter_wait cfg;
         match l with
         | Some _ => Ret w
         | None => r ← PutIfEpoch pid (Epoch cur) next; Ret (f r)
         end) (λ _ _, True) v.
Proof.
  intros Iv Sn Hl. eapply (wp_after _ _ _ (next_ok (key pid) (Epoch cur) next));
    [apply safe_limiter|intros; by eapply next_ok_later|done|..].
  - right. by exists cur.
  - intros [e|] v2 I2 Hn; [by intros v3 _ _|]. apply wp_bind; [|done]. eapply wp_mono; [by apply wp_PutIfEpoch|].
    by intros r v3 _ I3 _ v4 _ _.
Qed.

Lemma safe_hygiene_key now pid b : safe (hygiene_key cfg now pid b).
Proof.
  intros t0 v I0. apply wp_Get; [done|]. intros [[cur rev]|e] v1 L1 I1 Hx; [|by intros v2 _ _].
  case_decide; [by intros v2 _ _|]. destruct Hx as [?|[_ Sn]]; [done|]. case_decide; [by intros v2 _ _|].
  case_match; [by intros v2 _ _|]. apply (wp_paced_put _ _ _ _ (λ _, _)); [done..|]. apply reset_step.
Qed.

Lemma safe_resume_key now wid pid n : safe (resume_key cfg now wid pid n).
Proof.
  intros t0 v I0. apply wp_Get; [done|]. intros [[cur rev]|e] v1 L1 I1 Hx; [|by intros v2 _ _].
  case_decide; [by intros v2 _ _|]. destruct Hx as [?|[_ Sn]]; [done|]. do 2 (case_decide; [by intros v2 _ _|]).
  apply (wp_paced_put _ _ _ _ (λ r, Ok _)); [done..|]. by apply NextStable_step.
Qed.

(** A pass over all claims. *)
Lemma safe_claim_pass {A B C} (a : B) (s : A) (f : Z -> string -> A -> prog (res C A)) (g : res C A -> B) :
  (forall now pid s, safe (f now pid s)) ->
  safe (keys ← ClaimKeys;
        match keys with
        | Err _ | Ok [] => Ret a
        | Ok keys => now ← trigger (Now WallClock); r ← for_each_err keys s (f now); Ret (g r)
        end).
Proof.
  intros Hf. unfold ClaimKeys, ListKeys. apply safe_bind; [solve_safe|].
  intros [[|k ks]|e]; [apply safe_ret| |apply safe_ret]. apply safe_bind; [by apply safe_op|]. intros now.
  apply safe_bind; [by apply safe_for_each_err|]. intros r. apply safe_ret.
Qed.

Lemma safe_hygiene : safe (handoffStartupHygiene cfg).
Proof. apply safe_claim_pass. apply safe_hygiene_key. Qed.

Lemma safe_resume wid : safe (finalizeResumeClaims cfg wid).
Proof. apply (safe_claim_pass _ _ (λ now, resume_key cfg now wid)). intros. apply safe_resume_key. Qed.
End apply.
End programs.

(** ** The system *)

Record member := mkMember {
  mb_cfg : Config;
  mb_worker : string;
  mb_coordinator : twoPhaseCoordinator;
}.

Section system.
Context `{ClaimWire, !ClaimWireLaws, Xxh3} (float_to_int : float64 -> Z) (np : go_error -> bool).

(** Worker names are 7-bit text and the configured TTL is an [int64] of seconds. *)
Definition member_ok (s : member) : Prop :=
  ascii_text (mb_worker s) = true /\ int64 (ttl_seconds (mb_cfg s) float_to_int).

Inductive boot (i : nat) : member -> Prop :=
| boot_member cfg w :
    member_ok (mkMember (normalize cfg) w (New (normalize cfg))) ->
    boot i (mkMember (normalize cfg) w (New (normalize cfg))).

Inductive call : member -> prog member -> Prop :=
| call_apply cfg w t locked guarded batch previous next :
    text_partitions next ->
    call (mkMember cfg w t)
      (r ← Apply cfg float_to_int np locked
             (if (guarded : bool) then Some (guardHandoffRemoval cfg w previous next batch) else None)
             w previous next t;
       Ret (mkMember cfg w r.1))
| call_tick cfg w t locked n :
    call (mkMember cfg w t) (t' ← ticker_tick cfg float_to_int np locked n t; Ret (mkMember cfg w t'))
| call_hygiene cfg w t : call (mkMember cfg w t) (_ ← handoffStartupHygiene cfg; Ret (mkMember cfg w t))
| call_resume cfg w t : call (mkMember cfg w t) (_ ← finalizeResumeClaims cfg w; Ret (mkMember cfg w t)).

Local Notation Inv := (bucket_ok claim_good).

Lemma member_call i s m v :
  call s m -> member_ok s -> Inv v -> wp Inv (λ _ _, None) i (not_by i) (now v) m (λ s _, member_ok s) v.
Proof.
  intros C Ok I0. apply wp_weaken.
  assert (forall {A} (m : prog A) (f : A -> twoPhaseCoordinator),
    safe Inv (λ _ _, None) i m ->
    wp Inv (λ _ _, None) i anyone (now v) (a ← m; Ret (mkMember (mb_cfg s) (mb_worker s) (f a)))
      (λ s _, member_ok s) v) as Then.
  { intros A m' f Sm. apply wp_bind; [|done]. eapply wp_mono; [by apply Sm|]. by intros a v1 _ _ _ v2 _ _. }
  destruct C; cbn [mb_cfg mb_worker] in *.
  - apply (Then _ _ fst). unfold Apply. destruct Ok as [Tw Ts]. apply safe_bind; [apply safe_sweep|]. intros r.
    apply safe_bind; [|intros ?; apply safe_ret]. apply safe_apply_phases; [done..|].
    intros g Hg. destruct guarded; simplify_eq. apply safe_guard.
  - apply (Then _ _ id). apply safe_tick.
  - apply (Then _ _ (λ _, t)). apply safe_hygiene.
  - apply (Then _ _ (λ _, t)). apply safe_resume.
Qed.

Definition reaches {W} `{!Env None W} (w0 w : W) (ps : list (process member)) : Prop :=
  log (observe w0) = [] /\ rtc (sys_step (λ _ _, None) boot call) (w0, []) (w, ps).

Lemma handoff_reaches {W} `{!Env None W} (w0 w : W) ps : reaches w0 w ps -> stream claim_good (log (observe w)).
Proof.
  intros [E R]. refine (proj1 (proj1 (adequacy (λ _ _, None) boot call Inv (λ _ s _, member_ok s) _ _ _ _ _ _ _ R))).
  - done.
  - by intros i s v [cfg w' Ok] _.
  - apply member_call.
  - by intros v v' (d & m & [=] & _).
  - split; rewrite E; [constructor|done].
Qed.
End system.

(** C4. Ownership is fenced by epochs. Whatever the interleaving of applying
    coordinators, sweeps, startup passes, crashes and failed calls whose writes
    may have landed: as long as the claim of a partition has not been reaped,
    its epochs never go back and no epoch has two owners; and when a write
    changes the owner, it is a commit one epoch on, to a worker that was recorded
    as pending owner in the epoch it replaces. *)
Theorem claim_epoch_fences_owner `{ClaimWire, !ClaimWireLaws, Xxh3} (float_to_int : float64 -> Z)
    (np : go_error -> bool) {W : Type} `{!Env None W} (w0 w : W) (ps : list (process member))
    (pid : string) (l1 l2 : list msg) (m : msg) (c : Claim)
    (Hreach : reaches float_to_int np w0 w ps)
    (Hshort : short (log (observe w))) (Hkept : unreaped (key pid) (log (observe w)))
    (Hlog : log (observe w) = l1 ++ m :: l2) (Hkey : m_key m = key pid) (Hclaim : decodes m c) :
  (forall m1 c1, m1 ∈ l1 -> m_key m1 = key pid -> decodes m1 c1 ->
     (Epoch c1 <= Epoch c)%Z /\ (Epoch c1 = Epoch c -> Owner c1 = Owner c)) /\
  (forall m1 c1, live l1 (key pid) = Some m1 -> decodes m1 c1 -> Owner c1 <> Owner c ->
     ClaimState c = ClaimStateCommit /\ Epoch c = (Epoch c1 + 1)%Z /\
     exists m0 c0, m0 ∈ l1 /\ m_key m0 = key pid /\ decodes m0 c0 /\
       Epoch c0 = Epoch c1 /\ PendingOwner c0 = Owner c).
Proof.
  apply handoff_reaches in Hreach as St0. rewrite Hlog in St0, Hshort, Hkept.
  pose proof St0 as St. pose proof Hshort as Hs0. pose proof Hkept as Hk0.
  replace (l1 ++ m :: l2) with ((l1 ++ [m]) ++ l2) in St, Hshort, Hkept by by rewrite <-app_assoc.
  apply stream_app in St. unfold unreaped in Hkept. apply Forall_app in Hkept as [U _].
  assert (short (l1 ++ [m])) as Sh. { unfold short in *. rewrite length_app in Hshort. lia. }
  pose proof (short_app _ _ Sh) as Sh1. destruct (unreaped_app _ _ _ U) as [U1 _].
  pose proof (stream_app _ _ _ St) as St1. split.
  - intros m1 c1 Hm1 K1 D1. by eapply earlier_claim.
  - intros m1 c1 L1 D1 No. destruct (stream_last _ _ _ St) as (_ & _ & G). unfold claim_good in G.
    destruct Hclaim as (s & Es & Ds). rewrite Es in G. destruct (G Sh1) as (c' & Ds' & _ & Hc).
    assert (c' = c) as -> by congruence. rewrite Hkey in Hc.
    destruct Hc as [[? _]|(m1' & c1' & m0 & c0 & L1' & D1' & Hm0 & K0 & D0 & Ee & Hs)]; [congruence|].
    assert (m1' = m1) as -> by congruence. assert (c1' = c1) as -> by by eapply decodes_inj.
    destruct (current_claim _ (key pid) m0 c0 St1 Sh1 U1 Hm0 K0 D0) as (mL & cL & LL & DL & _ & Ow).
    assert (mL = m1) as -> by congruence. assert (cL = c1) as -> by by eapply decodes_inj.
    specialize (Ow Ee). destruct (claim_decoded _ _ _ St1 Sh1 Hm0 D0) as [(_ & _ & _ & _ & _ & ? & _) ?].
    destruct Hs as [O|P O _ Hc Hep|O|O]; try congruence. split_and!; [done| |by exists m0, c0].
    rewrite Hep, wrap64_id; lia.
Qed.

(** ** Executions *)

Definition claim_fields (c : Claim) : list positive :=
  [encode (PartitionID c); encode (Owner c); encode (PendingOwner c); encode (ClaimState c); encode (Epoch c);
   encode (LastUpdated c); encode (TTLSeconds c); encode (ConflictCount c)].

Definition claim_of_fields (l : list positive) : option Claim :=
  match l with
  | [p; o; q; s; e; u; t; n] =>
      p ← decode p; o ← decode o; q ← decode q; s ← decode s; e ← decode e; u ← decode u; t ← decode t;
      n ← decode n; Some (mkClaim p o q s e u t n)
  | _ => None
  end.

#[local] Instance toy_claim_wire : ClaimWire := {|
  marshal_claim := λ c, Some (bits_of (encode (claim_fields c)));
  unmarshal_claim := λ s, l ← decode (of_bits s); claim_of_fields l;
|}.

#[local] Instance toy_claim_laws : ClaimWireLaws.
Proof.
  split. cbn. intros c s _ [= <-]. rewrite of_bits_of, decode_encode. cbn -[claim_of_fields]. destruct c.
  unfold claim_fields, claim_of_fields. by rewrite !decode_encode.
Qed.

(** The concrete environment, in which the sweeper vouches for an empty
    partition set. *)
Definition demo_env (X : Type) (by_ : nat) (o : op X) : view -> X * view :=
  match o in op X return view -> X * view with
  | LivePartitions => λ v, (Some ∅, tick v (log v) (refs v))
  | o' => simulate by_ o'
  end.

Lemma demo_env_spec X i (o : op X) v x v' : demo_env X i o v = (x, v') -> spec i o v x v'.
Proof.
  destruct o; try apply simulate_spec. cbn. intros [= <- <-]. split; cbn; [lia|done].
Qed.

Definition demo_config : Config :=
  normalize (mkConfig true true true false false false (60 * second) (-1) 0 0 0 (f64_of_Z 0) 0 0 0 1 0).

Definition demo_np (_ : go_error) : bool := false.
Definition demo_float (_ : float64) : Z := 0.

Definition demo_assignment (version : Z) : Assignment :=
  mkAssignment version "" [mkPartition ["p"] 100 ""] 0 0 false 1 [] false.

Definition demo_member (w : string) : member := mkMember demo_config w (New demo_config).

Definition demo_apply (version : Z) (s : member) : prog member :=
  match s with
  | mkMember cfg w t =>
      r ← @Apply toy_claim_wire toy_xxh3 cfg demo_float demo_np true None w zero_assignment
            (demo_assignment version) t;
      Ret (mkMember cfg w r.1)
  end.

Definition demo_tick (s : member) : prog member :=
  match s with
  | mkMember cfg w t =>
      t' ← @ticker_tick toy_claim_wire cfg demo_float demo_np false 1 t; Ret (mkMember cfg w t')
  end.

Definition demo_reaches : view -> list (process member) -> Prop :=
  @reaches toy_claim_wire toy_xxh3 demo_float demo_np view (permissive None) (mkView [] 0 ∅).

Definition demo_boot := boot demo_float.
Definition demo_call := @call toy_claim_wire toy_xxh3 demo_float demo_np.

Lemma demo_boots i w : ascii_text w = true -> lawful_sched demo_boot demo_call (SBoot i (demo_member w)).
Proof. intros Tw. apply boot_member. split; [done|]. by vm_compute. Qed.

Lemma demo_applies i version : lawful_sched demo_boot demo_call (SCall i (demo_apply version)).
Proof. intros [cfg w t]. apply (call_apply _ _ cfg w t true false (Ok ∅)). by constructor. Qed.

Lemma demo_ticks i : lawful_sched demo_boot demo_call (SCall i demo_tick).
Proof. intros [cfg w t]. apply call_tick. Qed.

Lemma demo_sched as_ v ps :
  Forall (lawful_sched demo_boot demo_call) as_ ->
  run_sched demo_env as_ (mkView [] 0 ∅, []) = Some (v, ps) -> demo_reaches v ps.
Proof.
  intros F E. split; [done|]. eapply (run_sched_steps demo_env demo_env_spec); [exact F|exact E].
Qed.

(** Worker [a] takes the partition, then worker [b]. *)
Definition demo_handoff : list (sched member) :=
  [SBoot 1 (demo_member "a"); SCall 1 (demo_apply 1); SRun 1 100;
   SBoot 2 (demo_member "b"); SCall 2 (demo_apply 3); SRun 2 100].

Definition demo_run (as_ : list (sched member)) : view :=
  match run_sched demo_env as_ (mkView [] 0 ∅, []) with Some (v, _) => v | None => mkView [] 0 ∅ end.

Definition demo_claims (v : view) : list (option Claim) :=
  (λ m, match m_body m with Put s => unmarshal_claim s | _ => None end) <$> log v.

(** The claim is reaped and taken anew while [b] is between its read and its
    write. *)
Definition demo_reaped : list (sched member) :=
  [SBoot 1 (demo_member "a"); SCall 1 (demo_apply 1); SRun 1 100;
   SBoot 2 (demo_member "b"); SCall 2 (demo_apply 3); SRun 2 2;
   SBoot 3 (demo_member "s"); SCall 3 demo_tick; SRun 3 100; SCall 3 demo_tick; SRun 3 100;
   SBoot 4 (demo_member "c"); SCall 4 (demo_apply 1); SRun 4 100;
   SRun 2 2].

Lemma demo_run_reaches as_ :
  Forall (lawful_sched demo_boot demo_call) as_ ->
  bool_decide (is_Some (run_sched demo_env as_ (mkView [] 0 ∅, []))) = true ->
  exists ps, demo_reaches (demo_run as_) ps.
Proof.
  intros F B. apply bool_decide_eq_true in B as [[v ps] E]. exists ps. unfold demo_run. rewrite E.
  by apply (demo_sched as_).
Qed.

Lemma demo_handoff_lawful : Forall (lawful_sched demo_boot demo_call) demo_handoff.
Proof.
  unfold demo_handoff. repeat (apply Forall_cons_2; [first [by apply demo_boots|apply demo_applies|exact I]|]).
  constructor.
Qed.

Lemma demo_reaped_lawful : Forall (lawful_sched demo_boot demo_call) demo_reaped.
Proof.
  unfold demo_reaped.
  repeat (apply Forall_cons_2; [first [by apply demo_boots|apply demo_applies|apply demo_ticks|exact I]|]).
  constructor.
Qed.

Lemma demo_handoff_reaches : exists ps, demo_reaches (demo_run demo_handoff) ps.
Proof. apply (demo_run_reaches _ demo_handoff_lawful). vm_compute. reflexivity. Qed.

Lemma demo_handoff_unreaped : unreaped (key "p") (log (demo_run demo_handoff)).
Proof.
  assert (forallb (λ m, match m_body m with Del => false | _ => true end) (log (demo_run demo_handoff)) = true) as U
    by (vm_compute; reflexivity).
  apply Forall_forall. intros m' Hm' _ Em'. rewrite forallb_forall in U. apply list_elem_of_In, U in Hm'.
  by rewrite Em' in Hm'.
Qed.

Lemma demo_handoff_short : short (log (demo_run demo_handoff)).
Proof. vm_compute. reflexivity. Qed.

Lemma demo_handoff_commit :
  exists m c, log (demo_run demo_handoff) !! 2 = Some m /\ m_key m = key "p" /\ decodes m c /\ Owner c = "b".
Proof.
  assert (match log (demo_run demo_handoff) !! 2 with
          | Some m => match m_body m with
                      | Put s => match unmarshal_claim s with
                                 | Some c => bool_decide (m_key m = key "p" /\ Owner c = "b")
                                 | None => false end
                      | _ => false end
          | None => false end = true) as B by (vm_compute; reflexivity).
  destruct (log _ !! 2) as [m|]; [|discriminate B]. destruct (m_body m) as [s| |] eqn:Es; try discriminate B.
  destruct (unmarshal_claim s) as [c|] eqn:Ds; [|discriminate B]. apply bool_decide_eq_true in B as [K O].
  exists m, c. split_and!; [done..| |done]. by exists s.
Qed.

Lemma claim_epoch_fences_owner_witness :
  exists m c, log (demo_run demo_handoff) !! 2 = Some m /\ decodes m c /\ Owner c = "b" /\
    forall m1 c1, m1 ∈ take 2 (log (demo_run demo_handoff)) -> m_key m1 = key "p" -> decodes m1 c1 ->
      (Epoch c1 <= Epoch c)%Z /\ (Epoch c1 = Epoch c -> Owner c1 = Owner c).
Proof.
  destruct demo_handoff_reaches as [ps R]. destruct demo_handoff_commit as (m & c & E & K & D & O).
  exists m, c. refine (conj E (conj D (conj O _))).
  exact (proj1 (@claim_epoch_fences_owner toy_claim_wire toy_claim_laws toy_xxh3 demo_float demo_np view
    (permissive None) (mkView [] 0 ∅) (demo_run demo_handoff) ps "p" (take 2 (log (demo_run demo_handoff)))
    (drop 3 (log (demo_run demo_handoff))) m c R demo_handoff_short demo_handoff_unreaped
    (eq_sym (take_drop_middle _ _ _ E)) K D)).
Defined.

(** Reaping a claim restarts its epochs, and [PutIfEpoch] compares nothing else:
    an update computed from the claim before the reap lands on the claim of the
    next owner, [c], and names the former owner [a] again. *)
Theorem stale_update_survives_reap :
  exists v ps m1 m2 c1 c2, demo_reaches v ps /\ log v !! 2 = Some m1 /\ log v !! 3 = Some m2 /\
    m_key m1 = key "p" /\ m_key m2 = key "p" /\ decodes m1 c1 /\ decodes m2 c2 /\
    Owner c1 = "c" /\ ClaimState c1 = ClaimStateStable /\ Owner c2 = "a" /\ PendingOwner c2 = "b".
Proof.
  destruct (demo_run_reaches demo_reaped demo_reaped_lawful ltac:(vm_compute; reflexivity)) as [ps R]. exists (demo_run demo_reaped), ps.
  clear -R. set (v := demo_run demo_reaped) in *.
  assert (match log v !! 2, log v !! 3 with
          | Some m1, Some m2 =>
              match m_body m1, m_body m2 with
              | Put s1, Put s2 =>
                  match unmarshal_claim s1, unmarshal_claim s2 with
                  | Some c1, Some c2 =>
                      bool_decide (m_key m1 = key "p" /\ m_key m2 = key "p" /\ Owner c1 = "c" /\
                        ClaimState c1 = ClaimStateStable /\ Owner c2 = "a" /\ PendingOwner c2 = "b")
                  | _, _ => false end
              | _, _ => false end
          | _, _ => false end = true) as B by (vm_compute; reflexivity).
  clearbody v.
  destruct (log v !! 2) as [m1|] eqn:E1; [|discriminate B]. destruct (log v !! 3) as [m2|] eqn:E2; [|discriminate B].
  destruct (m_body m1) as [s1| |] eqn:Es1; try discriminate B.
  destruct (m_body m2) as [s2| |] eqn:Es2; try discriminate B.
  destruct (unmarshal_claim s1) as [c1|] eqn:D1; [|discriminate B].
  destruct (unmarshal_claim s2) as [c2|] eqn:D2; [|discriminate B].
  apply bool_decide_eq_true in B. exists m1, m2, c1, c2. unfold decodes. naive_solver.
Qed.
