(* ===== verification/HandoffSweep.v ===== *)
(** * The claim sweep: when a claim is reaped, and what a gated pass sees

    Two theorems on the sweep of [Handoff]: a claim is deleted only after its
    partition has been absent from every vouched partition set for the grace
    period, with no lapse of authority in between; and a pass that works from
    the cache works on the claims as they are. *)
From S2P Require Import Prelude Partition Float64 Nats KV Lease Wire Handoff HandoffSafety.

(** ** Histories

    What a coordinator has observed: false authority samples, the partition sets
    it was vouched for or refused, clock readings, and the deletes it sent. *)
Inductive event :=
| EvFalse (n : nat)
| EvVouch (live : gset string)
| EvUnvouched
| EvNow (t : Z)
| EvDelete (k : string) (ambiguous : bool).

(** The outcome of a delete is unknown. *)
Definition ambiguous (x : res go_error unit) : bool :=
  match x with Ok _ => false | Err e => negb (Is e JsErrKeyExists || Is e JsErrKeyNotFound) end.

Definition events {X} (o : op X) : X -> list event :=
  match o in op X return X -> list event with
  | FalseSamples => λ n, [EvFalse n]
  | SweepAuthority => λ b, [EvFalse (if b then 0 else 1)]
  | LivePartitions => λ l, match l with Some live => [EvVouch live] | None => [EvUnvouched] end
  | Now _ => λ t, [EvNow t]
  | KvDelete k _ => λ x, [EvDelete k (ambiguous x)]
  | _ => λ _, []
  end.

(** How often the authority lapsed. *)
Definition lapse (e : event) : nat :=
  match e with
  | EvFalse n => n
  | EvUnvouched => 1
  | EvDelete _ true => 1
  | _ => 0
  end.

Definition lapses (h : list event) : nat := sum_list (lapse <$> h).

(** The histories of the unfinished executions of a program. *)
Inductive history {A} : prog A -> list event -> Prop :=
| history_now m : history m []
| history_op {X} (o : op X) k x h : history (k x) h -> history (Vis o k) (events o x ++ h).

(** A vouched pass ends its resolution of the partition set with its clock
    reading. *)
Definition vouched (h : list event) (live : gset string) (t : Z) : Prop :=
  exists h0 n, h = h0 ++ [EvVouch live; EvFalse n; EvNow t].

(** The partition was missing in a vouched set at [t0], in every set vouched for
    since, and at a clock reading [grace] later; authority never lapsed since. *)
Definition absent_throughout (grace : Z) (pid : string) (h : list event) : Prop :=
  exists h1 h2 live0 t0 t, h = h1 ++ h2 /\ vouched h1 live0 t0 /\ pid ∉ live0 /\
    lapses h2 = 0 /\ Forall (λ e, forall live, e = EvVouch live -> pid ∉ live) h2 /\
    EvNow t ∈ h /\ (grace <= time_sub t t0)%Z.

(** ** Reasoning about histories *)

Definition delete_key {X} (o : op X) : option string :=
  match o with KvDelete k _ => Some k | _ => None end.

Section wph.
Context (guard : list event -> string -> Prop).

(** Deletes are guarded, and the postcondition holds of the history at the end. *)
Fixpoint wph {A} (m : prog A) (Φ : A -> list event -> Prop) (h : list event) : Prop :=
  match m with
  | Ret a => Φ a h
  | Vis o k =>
      (forall key, delete_key o = Some key -> guard h key) /\ forall x, wph (k x) Φ (h ++ events o x)
  end.

Lemma wph_bind {A B} (m : prog A) (f : A -> prog B) Φ h :
  wph m (λ a h', wph (f a) Φ h') h -> wph (m ≫= f) Φ h.
Proof.
  revert h. induction m as [a|X o k IH]; intros h; [done|]. cbn [wph]. intros [G W]. split; [done|].
  intros x. apply IH, W.
Qed.

Lemma wph_mono {A} (m : prog A) (Φ Ψ : A -> list event -> Prop) h :
  wph m Φ h -> (forall a h', Φ a h' -> Ψ a h') -> wph m Ψ h.
Proof.
  intros W M. revert h W. induction m as [a|X o k IH]; intros h; cbn [wph]; [apply M|].
  intros [G W]. split; [done|]. intros x. apply IH, W.
Qed.

Lemma wph_op {X A} (o : op X) (f : X -> prog A) Φ h :
  delete_key o = None -> (forall x, wph (f x) Φ (h ++ events o x)) -> wph (trigger o ≫= f) Φ h.
Proof. intros D W. split; [by rewrite D|done]. Qed.

Lemma wph_for_each {A S} (l : list A) (s : S) f (J : S -> list event -> Prop) h :
  (forall x s h, J s h -> wph (f x s) J h) -> J s h -> wph (for_each l s f) J h.
Proof.
  intros Hf. revert s h. induction l as [|x l IH]; intros s h Hs; cbn [for_each]; [done|].
  apply wph_bind. eapply wph_mono; [by apply Hf|]. by apply IH.
Qed.

(** Every delete in a history was guarded. *)
Lemma wph_history {A} (m : prog A) Φ h0 h :
  wph m Φ h0 -> history m h -> forall h1 k a h2, h = h1 ++ EvDelete k a :: h2 -> guard (h0 ++ h1) k.
Proof.
  intros W H. revert h0 W. induction H as [m|X o c x h H IH]; intros h0 W h1 k a h2 E; [by destruct h1|].
  destruct W as [G W]. specialize (IH (h0 ++ events o x) (W x)).
  assert (events o x = [] \/ (exists e, events o x = [e] /\
    (forall k a, e = EvDelete k a -> delete_key o = Some k))) as [Ev|(e & Ev & De)].
  { destruct o; cbn; first [by left|right; eexists; split; [done|]; by intros ? ? [= -> _]
      |right; destruct x; eexists; split; done]. }
  - rewrite Ev, app_nil_r in IH. rewrite Ev in E. by eapply IH.
  - rewrite Ev in E, IH. destruct h1 as [|e' h1]; cbn in E; injection E as -> E.
    + rewrite app_nil_r. by eapply G, De.
    + subst h. specialize (IH h1 k a h2 eq_refl). by rewrite <-app_assoc in IH.
Qed.

(** Programs without events. *)
Fixpoint silent {A} (m : prog A) : Prop :=
  match m with
  | Ret _ => True
  | Vis o k => delete_key o = None /\ forall x, events o x = [] /\ silent (k x)
  end.

Lemma silent_bind {A B} (m : prog A) (f : A -> prog B) : silent m -> (forall a, silent (f a)) -> silent (m ≫= f).
Proof.
  intros Sm Sf. induction m as [a|X o k IH]; [apply Sf|]. destruct Sm as [D Sk]. split; [done|].
  intros x. destruct (Sk x) as [Ev Sx]. split; [done|]. by apply IH.
Qed.

Lemma wph_silent {A} (m : prog A) (Φ : A -> list event -> Prop) h :
  silent m -> (forall a, Φ a h) -> wph m Φ h.
Proof.
  intros Sm HΦ. revert Sm. induction m as [a|X o k IH]; intros Sm; [apply HΦ|]. destruct Sm as [D Sk].
  split; [by rewrite D|]. intros x. destruct (Sk x) as [-> Sx]. rewrite app_nil_r. by apply IH.
Qed.
End wph.

Section updates.
Context `{ClaimWire} (cfg : Config) (float_to_int : float64 -> Z).

Ltac solve_silent :=
  repeat first [ done | split | intros ? | apply silent_bind | case_match ].

Lemma silent_Get pid : silent (Get pid).
Proof. unfold Get, GetJSON. solve_silent. Qed.

Lemma silent_Put pid e c : silent (PutIfEpoch pid e c).
Proof. unfold PutIfEpoch, GetJSON. solve_silent. Qed.

Lemma silent_update pid T : silent (updateClaim cfg float_to_int pid T).
Proof.
  unfold updateClaim. generalize (Z.to_nat (MaxRetries cfg)) 0%Z. intros left. induction left as [|left IH];
    intros attempt; cbn [update_loop]; unfold update_attempt;
    (apply silent_bind; [apply silent_Get|]); intros [[cur rev]|e]; try done;
    destruct (T _) as [[next|]|e]; try done;
    (apply silent_bind; [unfold limiter_wait; by case_match|]); intros [e|]; try done;
    (apply silent_bind; [apply silent_Put|]); intros [r|e]; try done.
  case_decide; [apply IH|]. apply silent_bind; [unfold backoff_for; by case_match|].
  intros d. apply silent_bind; [done|]. intros [e'|]; [done|apply IH].
Qed.
End updates.

(** ** What the coordinator's clocks stand for *)

Lemma lapses_app h1 h2 : lapses (h1 ++ h2) = lapses h1 + lapses h2.
Proof. unfold lapses. induction h1 as [|e h1 IH]; cbn in *; lia. Qed.

Lemma uwrap64_add a b : uwrap64 (uwrap64 a + b) = uwrap64 (a + b).
Proof. unfold uwrap64. by rewrite Z.add_mod_idemp_l. Qed.

Definition gen_of (h : list event) : Z := uwrap64 (Z.of_nat (lapses h)).

Definition not_vouched_for (pid : string) (e : event) : Prop := forall live, e = EvVouch live -> pid ∉ live.

Definition clocked (h : list event) (pid : string) (c : orphanClock) : Prop :=
  exists h1 h2 live0, h = h1 ++ h2 /\ vouched h1 live0 (since c) /\ pid ∉ live0 /\
    clock_gen c = gen_of h1 /\ Forall (not_vouched_for pid) h2.

Definition tracks (h : list event) (t : twoPhaseCoordinator) : Prop :=
  unvouchedGen t = gen_of h /\ map_Forall (clocked h) (orphanAbsentSince t).

(** A pass that was vouched for. *)
Definition passing (h : list event) (live : option (gset string * vouchSnapshot)) : Prop :=
  match live with
  | Some (live, vouch) => exists h1 h2, h = h1 ++ h2 /\ vouched h1 live (vouch_now vouch) /\
      vouch_gen vouch = gen_of h1 /\ Forall (λ e, forall live, e <> EvVouch live) h2
  | None => True
  end.

Lemma gen_of_snoc h e : gen_of (h ++ [e]) = uwrap64 (gen_of h + Z.of_nat (lapse e)).
Proof.
  unfold gen_of. rewrite uwrap64_add, lapses_app. f_equal. unfold lapses. cbn. lia.
Qed.

Lemma gen_of_quiet h e : lapse e = 0 -> gen_of (h ++ [e]) = gen_of h.
Proof. intros E. rewrite gen_of_snoc, E, Z.add_0_r. unfold gen_of, uwrap64. apply Z.mod_mod. lia. Qed.

Lemma clocked_snoc h e pid c : clocked h pid c -> not_vouched_for pid e -> clocked (h ++ [e]) pid c.
Proof.
  intros (h1 & h2 & live0 & -> & V & N & G & F) Ne. exists h1, (h2 ++ [e]), live0.
  rewrite app_assoc, Forall_app, Forall_singleton. done.
Qed.

Lemma clocks_snoc h e (m : gmap string orphanClock) :
  map_Forall (clocked h) m -> (forall live, e <> EvVouch live) -> map_Forall (clocked (h ++ [e])) m.
Proof. intros F Ne pid c Hc. apply clocked_snoc; [by apply F|]. intros live ->. by destruct (Ne live). Qed.

Lemma passing_snoc h e live : passing h live -> (forall l, e <> EvVouch l) -> passing (h ++ [e]) live.
Proof.
  destruct live as [[live vouch]|]; [|done]. intros (h1 & h2 & -> & V & G & F) Ne. exists h1, (h2 ++ [e]).
  rewrite app_assoc, Forall_app, Forall_singleton. done.
Qed.

(** The clocks may be dropped at any time. *)
Lemma tracks_sub h t m : tracks h t -> m ⊆ orphanAbsentSince t -> tracks h (set_orphans m t).
Proof. intros [G F] S. split; [done|]. intros pid c Hc. apply F. by eapply lookup_weaken. Qed.

Lemma tracks_lapse h t e :
  tracks h t -> (forall live, e <> EvVouch live) -> tracks (h ++ [e]) (add_gen (Z.of_nat (lapse e)) t).
Proof. intros [G F] Ne. split; cbn; [by rewrite gen_of_snoc, G|by apply clocks_snoc]. Qed.

Lemma tracks_quiet h t e :
  tracks h t -> (forall live, e <> EvVouch live) -> lapse e = 0 -> tracks (h ++ [e]) t.
Proof. intros [G F] Ne E. split; [by rewrite gen_of_quiet|by apply clocks_snoc]. Qed.

(** ** The sweep *)

Section sweep.
Context `{ClaimWire} (cfg : Config) (float_to_int : float64 -> Z) (np : go_error -> bool).

(** A delete is due; 2^64 lapses would bring an old generation back. *)
Definition reap_guard (h : list event) (k : string) : Prop :=
  (Z.of_nat (lapses h) < 2 ^ 64)%Z -> exists pid, k = key pid /\ absent_throughout (OrphanGrace cfg) pid h.

Local Notation wph := (wph reap_guard).

(** What holds while a pass that started at [now] visits the claims. *)
Definition sweeping (live : option (gset string * vouchSnapshot)) (now : Z) (t : twoPhaseCoordinator)
    (h : list event) : Prop :=
  tracks h t /\ passing h live /\ EvNow now ∈ h.

Lemma sweeping_lapse live now t h e :
  sweeping live now t h -> (forall live, e <> EvVouch live) ->
  sweeping live now (add_gen (Z.of_nat (lapse e)) t) (h ++ [e]).
Proof.
  intros (T & P & N) Ne. split_and!; [by apply tracks_lapse|by apply passing_snoc|set_solver].
Qed.

Lemma sweeping_quiet live now t h e :
  sweeping live now t h -> (forall live, e <> EvVouch live) -> lapse e = 0 -> sweeping live now t (h ++ [e]).
Proof.
  intros (T & P & N) Ne El. split_and!; [by apply tracks_quiet|by apply passing_snoc|set_solver].
Qed.

Lemma sweeping_sub live now t h m :
  sweeping live now t h -> m ⊆ orphanAbsentSince t -> sweeping live now (set_orphans m t) h.
Proof. intros (T & R) S. split; [by apply tracks_sub|done]. Qed.

(** At the current generation, authority has not lapsed since the clock was
    started. *)
Lemma clocked_absent h pid c now :
  clocked h pid c -> EvNow now ∈ h -> clock_gen c = gen_of h -> (Z.of_nat (lapses h) < 2 ^ 64)%Z ->
  (OrphanGrace cfg <= time_sub now (since c))%Z -> absent_throughout (OrphanGrace cfg) pid h.
Proof.
  intros (h1 & h2 & live0 & -> & V & N & G & F) Hn Gh B Gr. exists h1, h2, live0, (since c), now.
  split_and!; try done. unfold gen_of, uwrap64 in *. rewrite lapses_app in *.
  rewrite !Z.mod_small in Gh by lia. rewrite !Z.mod_small in G by lia. lia.
Qed.

Lemma wph_reap live vouch now pid cur rev t h :
  sweeping (Some (live, vouch)) now t h ->
  wph (maybeReapOrphan cfg pid cur rev live now vouch t) (sweeping (Some (live, vouch)) now) h.
Proof.
  intros Sw. unfold maybeReapOrphan. case_decide as Hl; [apply sweeping_sub; [done|apply delete_subseteq]|].
  case_decide; [done|]. destruct (orphanAbsentSince t !! pid) as [clock|] eqn:Ec.
  2: { destruct Sw as ([G F] & P & N). split_and!; [|done..]. split; [done|]. cbn.
       apply map_Forall_insert_2; [|done]. destruct P as (h1 & h2 & -> & V & Gv & F2).
       exists h1, h2, live. split_and!; try done. eapply Forall_impl; [exact F2|]. intros e He l ->. by destruct (He l). }
  case_decide as Gr; [done|]. apply wph_op; [done|]. intros n. cbn [events].
  apply (sweeping_lapse _ _ _ _ (EvFalse n)) in Sw; [|done]. cbn [lapse] in Sw.
  set (t1 := add_gen (Z.of_nat n) t) in *. case_decide as Hg.
  { apply sweeping_sub; [done|apply delete_subseteq]. }
  split.
  - intros k [= <-] B. exists pid. split; [done|]. destruct Sw as ([G F] & _ & N).
    apply (clocked_absent _ _ clock now); [by apply F|done|congruence|done|lia].
  - intros x. cbn [events mbind prog_bind bind HandoffSweep.wph]. destruct x as [u|e]; cbn [ambiguous].
    + apply sweeping_sub; [|apply delete_subseteq]. by apply sweeping_quiet.
    + destruct (Is e _ || Is e _); cbn [negb]; [by apply sweeping_quiet|]. by apply (sweeping_lapse _ _ _ _ (EvDelete _ true)).
Qed.

Lemma wph_sweepClaim pid cur rev live now t h :
  sweeping live now t h -> wph (sweepClaim cfg float_to_int pid cur rev live now t) (sweeping live now) h.
Proof.
  intros Sw. unfold sweepClaim. destruct (sweepReconcile _ _).
  - apply wph_bind, wph_silent; [apply silent_update|]. done.
  - destruct live as [[live vouch]|]; [by apply wph_reap|done].
Qed.

Lemma wph_resolve t now h :
  tracks h t -> EvNow now ∈ h -> wph (resolveLiveSet cfg t) (λ r h', sweeping r.2 now r.1 h') h.
Proof.
  intros T N. unfold resolveLiveSet. case_match; [by split_and!|]. apply wph_op; [done|]. intros [live|]; cbn [events].
  - assert (tracks (h ++ [EvVouch live])
      (set_orphans (filter (λ kc, kc.1 ∉ live) (orphanAbsentSince t)) t)) as T1.
    { destruct T as [G F]. split; [cbn; by rewrite gen_of_quiet|]. cbn. intros pid c Hc.
      apply map_lookup_filter_Some in Hc as [Hc Hl]. apply clocked_snoc; [by apply F|]. by intros l [= <-]. }
    apply wph_op; [done|]. intros n. cbn [events]. apply (tracks_lapse _ _ (EvFalse n)) in T1; [|done]. cbn [lapse] in T1.
    apply wph_op; [done|]. intros vn. cbn [events wph]. split_and!; [by apply tracks_quiet| |set_solver].
    exists (((h ++ [EvVouch live]) ++ [EvFalse n]) ++ [EvNow vn]), []. rewrite app_nil_r. split_and!; [done| |..|constructor].
    + exists h, n. by rewrite <-!app_assoc.
    + cbn. destruct T1 as [G1 _]. rewrite gen_of_quiet by done. exact G1.
  - apply wph_op; [done|]. intros n. cbn [events wph]. split_and!; [|done|set_solver].
    split; [|by apply map_Forall_empty]. cbn. destruct T as [G _]. rewrite !gen_of_snoc, uwrap64_add, G. f_equal. cbn. lia.
Qed.

Lemma sweeping_tracks live now t h : sweeping live now t h -> tracks h t.
Proof. by intros []. Qed.

Lemma silent_ClaimKeys : silent ClaimKeys.
Proof. unfold ClaimKeys, ListKeys. split; [done|]. by intros x. Qed.

Lemma wph_sweepPass now latch t h :
  tracks h t -> EvNow now ∈ h -> wph (sweepPass cfg float_to_int now latch t) (λ t' h', tracks h' t') h.
Proof.
  intros T N. unfold sweepPass. apply wph_bind, wph_silent; [apply silent_ClaimKeys|].
  intros [[|k ks]|e]; [by destruct latch| |by destruct latch].
  apply wph_bind. eapply wph_mono; [by apply wph_resolve|]. intros [t1 live] h1 Sw. cbn [fst snd] in Sw.
  apply wph_bind. eapply wph_mono; [apply (wph_for_each _ _ _ _ (λ s h', sweeping live now s.1.1 h'))|]; [|done|].
  - clear. intros pid [[t cache] b] h Sw. cbn [fst] in Sw. unfold sweep_key.
    apply wph_bind, wph_silent; [apply silent_Get|]. intros [[cur rev]|e]; [|done]. case_decide; [done|].
    apply wph_bind. eapply wph_mono; [by apply wph_sweepClaim|]. done.
  - intros [[t2 cache] b] h2 Sw2%sweeping_tracks. cbn [fst] in Sw2. cbn [HandoffSweep.wph].
    assert (tracks h2 match live with Some _ => pruneOrphanCandidates (k :: ks) t2 | None => t2 end) as T3.
    { destruct live; [|done]. apply tracks_sub; [done|apply map_filter_subseteq]. }
    destruct latch; [|done]. by destruct b.
Qed.

Lemma wph_cachedPass now t h :
  tracks h t -> EvNow now ∈ h -> wph (sweepCachedPass cfg float_to_int now t) (λ t' h', tracks h' t') h.
Proof.
  intros T N. unfold sweepCachedPass. case_decide; [done|]. apply wph_bind.
  eapply wph_mono; [by apply (wph_resolve _ now)|]. intros [t1 live] h1 Sw. cbn [fst snd] in Sw.
  apply wph_bind. eapply wph_mono; [apply (wph_for_each _ _ _ _ (sweeping live now))|]; [|done|].
  - intros [pid [c rev]] t2 h2 Sw2. by apply wph_sweepClaim.
  - intros t2 h2 Sw2%sweeping_tracks. cbn [HandoffSweep.wph]. destruct live; [|done].
    apply tracks_sub; [done|apply map_filter_subseteq].
Qed.

Lemma wph_probe t h : tracks h t -> wph (sweepProbe np t) (λ r h', h' = h /\ tracks h' r.1) h.
Proof.
  intros T. unfold sweepProbe. apply wph_op; [done|]. intros [pos|e]; cbn [events]; rewrite app_nil_r; cbn [HandoffSweep.wph].
  - destruct (ConfigGuard_Check _ _) as [g []]; done.
  - by destruct (np e).
Qed.

Lemma wph_full_pass now latch t h :
  tracks h t -> EvNow now ∈ h -> wph (full_pass cfg float_to_int now latch t) (λ r h', tracks h' r.1) h.
Proof. intros T N. apply wph_bind. eapply wph_mono; [by apply wph_sweepPass|]. done. Qed.

Lemma wph_sweep locked origin t h :
  tracks h t -> wph (try_sweep cfg float_to_int np locked origin t) (λ r h', tracks h' r.1) h.
Proof.
  intros T. unfold try_sweep, maybeSweepClaims. destruct locked; [done|]. destruct (negb _); [done|].
  apply wph_op; [done|]. intros now. cbn [events]. apply (tracks_quiet _ _ (EvNow now)) in T; [|done..].
  assert (EvNow now ∈ h ++ [EvNow now]) as N by set_solver.
  revert T N. generalize (h ++ [EvNow now]). clear h. intros h T N. destruct (bool_decide _ && _); [done|].
  set (t1 := set_lastSweep now t). assert (tracks h t1) as T1 by done. clearbody t1. clear t T.
  destruct (negb (bool_decide (origin = sweepOriginTicker)) || negb (prober t1)).
  { apply wph_bind. eapply wph_mono; [by apply wph_sweepPass|]. done. }
  apply wph_bind. eapply wph_mono; [by apply wph_probe|]. intros [t2 pos] h2 [-> T2]. cbn [fst] in T2.
  destruct (sweepCacheValid t2 && at_cache t2 pos && _); [|by apply wph_full_pass].
  apply wph_op; [done|]. intros [e|]; cbn [events]; rewrite app_nil_r; [done|].
  apply wph_bind. eapply wph_mono; [by apply wph_probe|]. intros [t3 pos2] h3 [-> T3]. cbn [fst] in T3.
  destruct (at_cache t3 pos2); [|by apply wph_full_pass].
  apply wph_bind. eapply wph_mono; [by apply wph_cachedPass|]. done.
Qed.

Lemma wph_tick locked n t h :
  tracks h t -> wph (ticker_tick cfg float_to_int np locked n t) (λ t' h', tracks h' t') h.
Proof.
  intros T. unfold ticker_tick, sampleAuthority. apply wph_bind.
  apply (wph_mono _ _ (λ r h', tracks h' r.1)).
  - destruct (negb _); [done|]. apply wph_op; [done|]. intros [|]; cbn [events].
    + by apply tracks_quiet.
    + by apply (tracks_lapse _ _ (EvFalse 1)).
  - intros [t1 authorized] h1 T1. cbn [fst] in T1. destruct (_ && _); [done|].
    apply wph_bind. eapply wph_mono; [apply wph_sweep; by destruct authorized|]. intros [t2 []] h2 T2; done.
Qed.
End sweep.

(** The sweeps of one coordinator: ticks of its loop, and the sweeps its [Apply]
    calls try. *)
Inductive sweep_call := Tick (locked : bool) (n : Z) | ApplySweep (locked : bool).

Definition sweeps `{ClaimWire} (cfg : Config) (float_to_int : float64 -> Z) (np : go_error -> bool)
    (calls : list sweep_call) : prog twoPhaseCoordinator :=
  for_each calls (New cfg) (λ c t,
    match c with
    | Tick locked n => ticker_tick cfg float_to_int np locked n t
    | ApplySweep locked =>
        r ← try_sweep cfg float_to_int np locked sweepOriginApply t; Ret r.1
    end).

(** C10. A claim is reaped only after continuous, vouched absence of its partition.
    Over every run of sweeps of a coordinator, full or from the cache, with any
    answers of the store, the clock, the partition source and the election:
    before a delete of a claim is sent there was a vouched partition set without
    the partition at a time [t0], no set vouched for since contains it, a clock
    reading at least the grace period after [t0], and in between the authority
    never lapsed: no false authority sample, no refused vouch, no delete with an
    unknown outcome. *)
Theorem reap_needs_continuous_absence `{ClaimWire} (cfg : Config) (float_to_int : float64 -> Z)
    (np : go_error -> bool) (calls : list sweep_call) (h h1 h2 : list event) (pid : string) (a : bool)
    (Hrun : history (sweeps cfg float_to_int np calls) h)
    (Hdelete : h = h1 ++ EvDelete (key pid) a :: h2)
    (Hgen : (Z.of_nat (lapses h1) < 2 ^ 64)%Z) :
  absent_throughout (OrphanGrace cfg) pid h1.
Proof.
  assert (wph (reap_guard cfg) (sweeps cfg float_to_int np calls) (λ t h, tracks h t) []) as W.
  { apply wph_for_each; [|by split]. intros [locked n|locked] t h' T; [by apply wph_tick|].
    apply wph_bind. eapply wph_mono; [by apply wph_sweep|]. done. }
  destruct (wph_history _ _ _ _ _ W Hrun _ _ _ _ Hdelete Hgen) as (pid' & E & Ab).
  by destruct (string_app_inj_length claimsPref claimsPref pid pid' eq_refl E) as [_ ->].
Qed.

(** ** An execution *)

(** The events of a program in a concrete environment. *)
Fixpoint trace_of (env : forall X, nat -> op X -> view -> X * view) (n : nat) {A} (m : prog A) (v : view) :
    list event :=
  match n, m with
  | S n', Vis o k => let '(x, v') := env _ 1 o v in events o x ++ trace_of env n' (k x) v'
  | _, _ => []
  end.

Lemma trace_of_history env n {A} (m : prog A) v : history m (trace_of env n m v).
Proof.
  revert m v. induction n as [|n IH]; intros m v; [constructor|]. destruct m as [a|X o k]; cbn; [constructor|].
  destruct (env X 1 o v) as [x v']. constructor. apply IH.
Qed.

(** Two ticks over a bucket with one claim, whose partition is gone. *)
Definition demo_orphan : Claim := mkClaim "p" "a" "" ClaimStateStable 1 0 60 0.

Definition demo_bucket : view :=
  mkView [mkMsg 1 (key "p") 0 (Put (default "" (@marshal_claim toy_claim_wire demo_orphan))) (Some 1)] 0 ∅.

Definition demo_sweeps : prog twoPhaseCoordinator :=
  @sweeps toy_claim_wire demo_config demo_float demo_np [Tick false 1; Tick false 2].

Definition demo_history : list event := trace_of demo_env 100 demo_sweeps demo_bucket.

Lemma demo_reap_sent : demo_history !! 9 = Some (EvDelete (key "p") false).
Proof. vm_compute. reflexivity. Qed.

Lemma reap_needs_continuous_absence_witness : absent_throughout 1 "p" (take 9 demo_history).
Proof.
  refine (@reap_needs_continuous_absence toy_claim_wire demo_config demo_float demo_np [Tick false 1; Tick false 2]
    demo_history (take 9 demo_history) (drop 10 demo_history) "p" false _ _ _).
  - exact (trace_of_history demo_env 100 demo_sweeps demo_bucket).
  - exact (eq_sym (take_drop_middle _ _ _ demo_reap_sent)).
  - vm_compute. reflexivity.
Defined.
