(* ===== verification/HandoffGate.v ===== *)
(** * The scan gate of the claim sweep

    A gated pass works from a cache instead of reading the bucket. The cache is
    the bucket: as long as the stream still is at the position the cache was
    latched at, it holds exactly the current claims, with their revisions. *)
From S2P Require Import Prelude Partition Float64 Nats KV Lease Wire Handoff HandoffSafety.

Section gate.
Context `{ClaimWire, !ClaimWireLaws, Xxh3}.
Local Notation Inv := (bucket_ok claim_good).
Local Notation no_deadline := (λ X (o : op X), @None Z).

(** The claim of a partition and its revision, as a read returns them. *)
Definition claim_now (l : list msg) (pid : string) : option (Claim * Z) :=
  m ← live l (key pid);
  match m_body m with Put s => c ← unmarshal_claim s; Some (c, m_rev m) | _ => None end.

(** ** Positions *)

Lemma last_seq_app l1 l2 : last_seq (l1 ++ l2) = Z.max (last_seq l1) (last_seq l2).
Proof.
  unfold last_seq. induction l1 as [|m l1 IH]; cbn.
  - assert (0 <= foldr (λ m, Z.max (m_rev m)) 0 l2)%Z; [|lia]. clear. induction l2; cbn; lia.
  - rewrite IH. lia.
Qed.

Lemma last_seq_below l r : (0 < r)%Z -> Forall (λ m, m_rev m < r)%Z l -> (last_seq l < r)%Z.
Proof. intros P. unfold last_seq. induction 1 as [|m l Hm _ IH]; cbn; lia. Qed.

(** Every message moves the position. *)
Lemma last_seq_later v v' :
  stream claim_good (log v') -> later v v' -> log v' = log v \/ (last_seq (log v) < last_seq (log v'))%Z.
Proof.
  intros St [(l & E & _) _]. rewrite E in *. destruct l as [|m l]; [left; by rewrite app_nil_r|right].
  destruct (stream_at _ _ _ _ St) as (N & _ & G). unfold numbered in N. unfold claim_good in G.
  destruct (m_by m); [|destruct N as [_ B]; by rewrite B in G]. destruct N as (P & F & _).
  apply last_seq_below in F; [|done]. rewrite last_seq_app. unfold last_seq at 2. cbn. lia.
Qed.

(** A fact about the stream at position [pos], vacuous once it has moved. *)
Definition at_pos (pos : Z) (P : list msg -> Prop) (v : view) : Prop :=
  (pos <= last_seq (log v))%Z /\ (last_seq (log v) = pos -> P (log v)).

Lemma at_pos_later pos P v v' :
  stream claim_good (log v') -> later v v' -> at_pos pos P v -> at_pos pos P v'.
Proof.
  intros I0 L [Hp HP]. destruct (last_seq_later v v' I0 L) as [E|Lt]; [unfold at_pos; by rewrite E|].
  split; [lia|]. intros Hs. lia.
Qed.

Lemma at_pos_now pos (P : list msg -> Prop) v v' :
  stream claim_good (log v') -> later v v' -> (pos <= last_seq (log v))%Z -> (last_seq (log v') = pos -> log v' = log v -> P (log v')) ->
  at_pos pos P v'.
Proof.
  intros I0 L Hp HP. destruct (last_seq_later v v' I0 L) as [E|Lt].
  - split; [by rewrite E|]. intros Hs. by apply HP.
  - split; [lia|]. lia.
Qed.

(** ** The cache *)

Definition cached (cache : gmap string (Claim * Z)) (l : list msg) : Prop :=
  forall pid, cache !! pid = claim_now l pid.

Definition cache_ok (t : twoPhaseCoordinator) (v : view) : Prop :=
  sweepCacheValid t = true -> at_pos (LastSeq (sweepCachePos t)) (cached (sweepCache t)) v.

Lemma cache_ok_stream t v v' : stream claim_good (log v') -> later v v' -> cache_ok t v -> cache_ok t v'.
Proof. intros St L C V. eapply at_pos_later; [done..|by apply C]. Qed.

Lemma cache_ok_later t v v' : Inv v' -> later v v' -> cache_ok t v -> cache_ok t v'.
Proof. intros [St _]. by apply cache_ok_stream. Qed.

(** The part of the state the cache is. *)
Definition same_cache (t t' : twoPhaseCoordinator) : Prop :=
  sweepCacheValid t' = sweepCacheValid t /\ sweepCachePos t' = sweepCachePos t /\ sweepCache t' = sweepCache t.

Lemma same_cache_ok t t' v : same_cache t t' -> cache_ok t v -> cache_ok t' v.
Proof. intros (E1 & E2 & E3) C. unfold cache_ok. by rewrite E1, E2, E3. Qed.

#[local] Instance same_cache_po : PreOrder same_cache.
Proof. split; [by intros t|]. intros t1 t2 t3 (? & ? & ?) (? & ? & ?). split_and!; congruence. Qed.

Section programs.
Context (cfg : Config) (float_to_int : float64 -> Z) (np : go_error -> bool) (me : nat).
Local Notation wp := (wp Inv no_deadline me anyone).
Local Notation safe := (safe Inv no_deadline me).

Lemma returns_resolve t : returns (λ r, same_cache t r.1) (resolveLiveSet cfg t).
Proof. unfold resolveLiveSet. case_match; [done|]. intros [live|] n; [|done]. by intros vn. Qed.

Lemma returns_sweepClaim pid cur rev live now t :
  returns (same_cache t) (sweepClaim cfg float_to_int pid cur rev live now t).
Proof.
  unfold sweepClaim. destruct (sweepReconcile _ _).
  { eapply returns_bind; [apply returns_any|]. done. }
  destruct live as [[live vouch]|]; [|done]. unfold maybeReapOrphan. repeat case_decide; try done.
  case_match; [|done]. case_decide; [done|]. intros n. cbn. case_decide; [done|]. intros [u|e]; cbn; [done|].
  by destruct (_ || _).
Qed.

(** A read in a pass: what it returns was current at some instant [v0]. *)
Lemma wp_Get_now t0 {A} pid (f : _ -> prog A) Φ v :
  Inv v ->
  (forall x v1, later v v1 -> Inv v1 ->
     match x with
     | Ok (cl, rev) => exists v0, later v v0 /\ Inv v0 /\ later v0 v1 /\
         claim_now (log v0) pid = (if decide (rev = 0%Z) then None else Some (cl, rev))
     | Err _ => True
     end -> wp t0 (f x) Φ v1) ->
  wp t0 (Get pid ≫= f) Φ v.
Proof.
  intros I0 Hf. unfold Get, GetJSON. apply wp_bind; [|done]. apply wp_bind; [|done].
  apply wp_quiet; [apply claims_bucket_same|done|].
  intros x v1 L1 I1 (v0 & L0 & [S0 _] & (El & _ & Hx) & _) v2 L2 I2 v3 L3 I3.
  assert (later v1 v3) as L13 by (etrans; [exact L2|exact L3]).
  apply Hf; [etrans; [exact L1|exact L13]|done|].
  destruct x as [e|e].
  - destruct Hx as (m & Lv & ->). destruct (live_put _ _ _ Lv) as [s Es]. unfold entry_of. cbn. rewrite Es.
    destruct (unmarshal_claim s) as [c|] eqn:D; [|done]. exists v1. split_and!; [exact L1|exact I1|exact L13|].
    unfold claim_now. rewrite El, Lv. cbn. rewrite Es, D. cbn. rewrite decide_False; [done|].
    apply live_elem in Lv as [(l1 & l2 & Eq)%list_elem_of_split _]. rewrite Eq in S0.
    destruct (stream_at _ _ _ _ S0) as (N & _). unfold numbered in N. destruct (m_by m); [lia|].
    destruct N as [_ N]. congruence.
  - destruct (Is e JsErrKeyNotFound) eqn:Nf; [|done]. exists v1. split_and!; [exact L1|exact I1|exact L13|].
    unfold claim_now. by rewrite El, Hx.
Qed.

Lemma wp_ClaimKeys t0 {A} (f : _ -> prog A) Φ v :
  Inv v ->
  (forall x v1, later v v1 -> Inv v1 ->
     match x with
     | Ok keys => exists v0, later v v0 /\ Inv v0 /\ later v0 v1 /\
         forall pid, pid ∈ keys <-> is_Some (live (log v0) (key pid))
     | Err _ => True
     end -> wp t0 (f x) Φ v1) ->
  wp t0 (ClaimKeys ≫= f) Φ v.
Proof.
  intros I0 Hf. unfold ClaimKeys, ListKeys. apply wp_bind; [|done]. apply wp_quiet; [apply claims_bucket_same|done|].
  intros x v1 L1 I1 (v0 & _ & _ & (El & _ & Hx) & _) v2 L2 I2. apply Hf; [etrans; [exact L1|exact L2]|done|].
  destruct x as [ks|e].
  - rewrite decide_False by done. exists v1. split_and!; [exact L1|done|exact L2|]. intros pid.
    rewrite list_elem_of_omap, El, <-Hx. unfold key. split.
    + intros (k & Hk & E). apply bind_Some in E as (r & E & [= ->]). by apply CutPrefix_app in E as ->.
    + intros Hk. exists (claimsPref +:+ pid). split; [done|]. by rewrite (proj2 (CutPrefix_app _ _ _) eq_refl).
  - destruct (Is e JsErrNoKeysFound) eqn:Nk; [|done]. exists v1. split_and!; [exact L1|done|exact L2|].
    intros pid. rewrite El, Hx by done. split; [set_solver|by intros []].
Qed.

(** ** A full pass that latches *)

Section latch.
Context (pos : KVStreamPos).
Local Notation at_pos := (at_pos (LastSeq pos)).

(** The keys visited so far are cached as they are, the others not at all. *)
Definition filled (done_ : list string) (cache : gmap string (Claim * Z)) (l : list msg) : Prop :=
  forall pid, (pid ∈ done_ -> cache !! pid = claim_now l pid) /\ (pid ∉ done_ -> cache !! pid = None).

Definition filling (keys todo : list string) (s : twoPhaseCoordinator * gmap string (Claim * Z) * bool) (v : view) :
    Prop :=
  s.2 = true \/ exists done_, keys = done_ ++ todo /\ at_pos (filled done_ s.1.2) v.

Lemma wp_sweep_claim_key t0 live now keys pid todo s v :
  Inv v -> filling keys (pid :: todo) s v ->
  wp t0 (sweep_key cfg float_to_int live now pid s) (filling keys todo) v.
Proof.
  intros I0 F. destruct s as [[t cache] failed]. unfold sweep_key. apply wp_Get_now; [done|].
  intros [[cur rev]|e] v1 L1 I1 Hx; [|intros v2 _ _; by left].
  assert (forall t' v2, Inv v2 -> later v1 v2 ->
    filling keys todo (t', if decide (rev = 0%Z) then cache else <[pid := (cur, rev)]> cache, failed) v2) as Next.
  { intros t' v2 I2 L2. destruct F as [F|(done_ & Ek & F)]; [by left|right]. cbn [fst snd] in *.
    exists (done_ ++ [pid]). split; [by rewrite <-app_assoc|]. destruct Hx as (v0 & L0 & Iv0 & L01 & Hc).
    apply (at_pos_later _ _ _ _ (proj1 Iv0) L0) in F. destruct F as [Hp F].
    apply (at_pos_now _ _ v0); [apply I2|by etrans|done|]. intros Hs E. rewrite E in *. specialize (F Hs).
    intros pid'. destruct (F pid') as [F1 F2]. destruct (decide (pid' = pid)) as [->|N].
    - split; [intros _|set_solver]. rewrite Hc. case_decide; [|by rewrite lookup_insert_eq].
      destruct (decide (pid ∈ done_)); [|by apply F2]. by rewrite F1, Hc.
    - split; intros Hp'; case_decide; rewrite ?lookup_insert_ne by done; [apply F1|apply F1|apply F2|apply F2]; set_solver. }
  case_decide as Er; [intros v2 L2 I2; apply (Next t v2 I2 L2)|].
  apply wp_bind; [|done]. eapply wp_mono; [apply wp_safe; [apply safe_sweepClaim|done]|].
  intros t' v2 L2 I2 _ v3 L3 I3. apply Next; [done|]. etrans; [exact L2|exact L3].
Qed.

Definition listed (keys : list string) (l : list msg) : Prop :=
  forall pid, pid ∈ keys <-> is_Some (live l (key pid)).

Lemma filled_cached keys cache l : listed keys l -> filled keys cache l -> cached cache l.
Proof.
  intros Ls F pid. destruct (F pid) as [F1 F2]. destruct (decide (pid ∈ keys)) as [|N]; [by apply F1|].
  rewrite F2 by done. unfold claim_now. destruct (live l (key pid)) eqn:E; [|done]. destruct N. apply Ls. by rewrite E.
Qed.

Lemma wp_sweepPass_latch t0 now t v :
  Inv v -> at_pos (λ _, True) v -> wp t0 (sweepPass cfg float_to_int now (Some pos) t) cache_ok v.
Proof.
  intros I0 Hp. unfold sweepPass. apply wp_ClaimKeys; [done|]. intros [keys|e] v1 L1 I1 Hk; [|by intros v2 _ _].
  destruct Hk as (v0 & L0 & Iv0 & L01 & Hk). apply (at_pos_later _ _ _ _ (proj1 Iv0) L0) in Hp.
  assert (at_pos (listed keys) v1) as Ls.
  { apply (at_pos_now _ _ v0); [apply I1|done|apply Hp|]. by intros _ ->. }
  destruct keys as [|k ks].
  { intros v2 L2 I2 _. cbn. destruct (at_pos_later _ _ _ _ (proj1 I2) L2 Ls) as [Hs Ls2]. split; [done|]. intros E.
    apply (filled_cached []); [by apply Ls2|]. intros pid. split; [set_solver|done]. }
  remember (k :: ks) as keys eqn:Ekeys. clear k ks Ekeys.
  apply wp_bind; [|done]. eapply wp_mono; [apply wp_safe; [apply safe_resolveLiveSet|done]|].
  intros [t1 live] v2 L2 I2 _. apply wp_bind; [|done].
  apply (at_pos_later _ _ _ _ (proj1 I2) L2) in Ls. eapply wp_mono.
  - apply (wp_for_each _ _ _ _ _ _ _ _ (λ todo s v, stream claim_good (log v) -> filling keys todo s v));
      [| |intros _; right; exists []|done].
    + intros todo s v3 v4 L34 F S4. pose proof L34 as [(l & E & _) _].
      assert (stream claim_good (log v3)) as S3 by (rewrite E in S4; by eapply stream_app).
      destruct (F S3) as [?|(done_ & Ek & Fi)]; [by left|right]. exists done_. split; [done|].
      by eapply at_pos_later.
    + intros pid todo s v3 L3 I3 F. eapply wp_mono; [by apply wp_sweep_claim_key; [|apply F, I3]|]. by intros s' v4 _ _ F' _.
    + split; [done|]. split; [apply Ls|]. intros _ pid. split; [set_solver|by intros _; cbn; apply lookup_empty].
  - intros [[t2 cache] failed] v3 L3 I3 F v4 L4 I4. cbn [fst snd] in *. destruct failed; [done|].
    intros _. cbn. destruct (F (proj1 I3)) as [?|(done_ & Ek & Fi)]; [done|]. rewrite app_nil_r in Ek. subst done_. cbn in Fi.
    assert (later v2 v4) as L24 by (etrans; [exact L3|exact L4]).
    apply (at_pos_later _ _ _ _ (proj1 I4) L24) in Ls. apply (at_pos_later _ _ _ _ (proj1 I4) L4) in Fi.
    split; [apply Ls|]. intros E. apply (filled_cached keys); [by apply Ls|by apply Fi].
Qed.
End latch.

(** ** The other passes leave the cache alone *)

Lemma returns_sweepPass now t : returns (same_cache t) (sweepPass cfg float_to_int now None t).
Proof.
  unfold sweepPass. eapply returns_bind; [apply returns_any|]. intros [[|k ks]|e] _; [done| |done].
  eapply returns_bind; [apply returns_resolve|]. intros [t1 live] T1. cbn [fst] in T1.
  eapply (returns_bind (λ s, same_cache t s.1.1)).
  - apply returns_for_each; [done|]. intros pid [[t2 cache] b] T2. cbn [fst] in T2. unfold sweep_key.
    eapply returns_bind; [apply returns_any|]. intros [[cur rev]|e] _; [|done]. case_decide; [done|].
    eapply returns_bind; [apply returns_sweepClaim|]. intros t3 T3. cbn. by etrans.
  - intros [[t2 cache] b] T2. cbn in *. by destruct live.
Qed.

Lemma returns_cachedPass now t : returns (same_cache t) (sweepCachedPass cfg float_to_int now t).
Proof.
  unfold sweepCachedPass. case_decide; [done|]. eapply returns_bind; [apply returns_resolve|].
  intros [t1 live] T1. cbn [fst] in T1. eapply (returns_bind (same_cache t)).
  - apply returns_for_each; [by etrans; [|exact T1]|]. intros [pid [c rev]] t2 T2. 
    eapply returns_mono; [apply returns_sweepClaim|]. intros t3 T3. by etrans.
  - intros t2 T2. cbn. by destruct live.
Qed.

(** A program that leaves the cache alone keeps it right. *)
Lemma wp_keeps {A} t0 (m : prog A) (f : A -> twoPhaseCoordinator) t v :
  safe m -> returns (λ a, same_cache t (f a)) m -> Inv v -> cache_ok t v -> wp t0 m (λ a, cache_ok (f a)) v.
Proof.
  intros Sm R I0 C. eapply wp_mono; [apply wp_returns; [by apply Sm|exact R]|]. intros a v1 L1 I1 [Sa _].
  eapply same_cache_ok; [done|]. by eapply cache_ok_later.
Qed.

Lemma wp_probe t0 t v :
  Inv v -> cache_ok t v ->
  wp t0 (sweepProbe np t) (λ r v1, cache_ok r.1 v1 /\
    forall pos, r.2 = Some pos -> at_pos (LastSeq pos) (λ _, True) v1) v.
Proof.
  intros I0 C. unfold sweepProbe. apply wp_quiet; [apply claims_bucket_same|done|].
  intros x v1 L1 I1 (v0 & _ & _ & (El & _ & Hx) & _) v2 L2 I2.
  assert (cache_ok t v2) as C2 by (eapply cache_ok_later; [done| |exact C]; etrans; [exact L1|exact L2]).
  destruct x as [pos|e].
  - destruct (ConfigGuard_Check _ _) as [g []]; [|done]. split; [exact C2|]. intros p [= <-].
    apply (at_pos_later _ _ v1); [apply I2|exact L2|]. split; [|done]. rewrite Hx, El. done.
  - by destruct (np e).
Qed.

Lemma wp_full_pass t0 now pos t v :
  Inv v -> cache_ok t v -> (forall p, pos = Some p -> at_pos (LastSeq p) (λ _, True) v) ->
  wp t0 (full_pass cfg float_to_int now pos t) (λ r, cache_ok r.1) v.
Proof.
  intros I0 C Hp. unfold full_pass. apply wp_bind; [|done]. eapply wp_mono.
  - destruct pos as [pos|]; [by apply wp_sweepPass_latch, Hp|].
    apply (wp_keeps _ _ id t); [apply safe_sweepPass|apply returns_sweepPass|done..].
  - intros t1 v1 _ I1 C1 v2 L2 I2. cbn in *. by eapply cache_ok_later.
Qed.

Lemma wp_sweep_cache t0 locked origin t v :
  Inv v -> cache_ok t v -> wp t0 (try_sweep cfg float_to_int np locked origin t) (λ r, cache_ok r.1) v.
Proof.
  intros I0 C. unfold try_sweep, maybeSweepClaims.
  assert (forall b v', later v v' -> Inv v' -> wp t0 (Ret (t, b)) (λ (r : _ * bool), cache_ok r.1) v') as Stop.
  { intros b v' L' I' v1 L1 I1. eapply cache_ok_later; [done| |exact C]. etrans; [exact L'|exact L1]. }
  destruct locked; [by apply Stop|]. destruct (negb (HasStore cfg)); [by apply Stop|].
  apply wp_quiet; [apply claims_bucket_same|done|]. intros now v1 L1 I1 _.
  destruct (bool_decide _ && _); [by apply Stop|].
  set (t1 := set_lastSweep now t). assert (cache_ok t1 v1) as C1 by (by eapply cache_ok_later).
  clearbody t1. clear Stop C L1. destruct (_ || _).
  { apply wp_bind; [|done]. eapply wp_mono.
    - apply (wp_keeps _ _ id t1); [apply safe_sweepPass|apply returns_sweepPass|done..].
    - intros t2 v2 _ I2 C2 v3 L3 I3. cbn in *. by eapply cache_ok_later. }
  apply wp_bind; [|done]. eapply wp_mono; [by apply wp_probe|]. intros [t2 pos] v2 _ I2 [C2 P2]. cbn [fst snd] in *.
  destruct (sweepCacheValid t2 && at_cache t2 pos && _); [|by apply wp_full_pass].
  apply wp_quiet; [apply claims_bucket_same|done|]. intros c v3 L3 I3 _.
  apply (cache_ok_later _ _ _ I3 L3) in C2. destruct c as [e|].
  { intros v4 L4 I4. by eapply cache_ok_later. }
  apply wp_bind; [|done]. eapply wp_mono; [by apply wp_probe|]. intros [t3 pos2] v4 _ I4 [C4 P4]. cbn [fst snd] in *.
  destruct (at_cache t3 pos2); [|by apply wp_full_pass].
  apply wp_bind; [|done]. eapply wp_mono.
  - apply (wp_keeps _ _ id t3); [apply safe_sweepCachedPass|apply returns_cachedPass|done..].
  - intros t4 v5 _ I5 C5 v6 L6 I6. cbn in *. by eapply cache_ok_later.
Qed.

Lemma wp_tick_cache t0 locked n t v :
  Inv v -> cache_ok t v -> wp t0 (ticker_tick cfg float_to_int np locked n t) cache_ok v.
Proof.
  intros I0 C. unfold ticker_tick. apply wp_bind; [|done].
  eapply wp_mono; [apply (wp_keeps _ _ fst t); [|..|done]|].
  - unfold sampleAuthority. destruct (negb _); [apply safe_ret|]. apply safe_bind; [by apply safe_op|].
    intros a. apply safe_ret.
  - unfold sampleAuthority. destruct (negb _); [done|]. by intros [].
  - done.
  - intros [t1 authorized] v1 _ I1 C1. cbn [fst] in C1.
    destruct (_ && _); [intros v2 L2 I2; by eapply cache_ok_later|].
    apply wp_bind; [|done]. eapply wp_mono; [apply wp_sweep_cache; [done|by destruct authorized]|].
    intros [t2 b] v2 _ I2 C2 v3 L3 I3. cbn [fst snd] in *. apply (cache_ok_later _ _ _ I3 L3) in C2. by destruct b.
Qed.
End programs.

Definition member_cache_ok (float_to_int : float64 -> Z) (s : member) (v : view) : Prop :=
  member_ok float_to_int s /\ (stream claim_good (log v) -> cache_ok (mb_coordinator s) v).

Lemma member_cache_call float_to_int np i s m v :
  call float_to_int np s m -> member_cache_ok float_to_int s v -> Inv v ->
  wp Inv no_deadline i (not_by i) (now v) m (member_cache_ok float_to_int) v.
Proof.
  intros C [Ok Oc] I0. specialize (Oc (proj1 I0)). apply wp_weaken.
  assert (forall {A} (m : prog A) (f : A -> twoPhaseCoordinator),
    wp Inv no_deadline i anyone (now v) m (λ a, cache_ok (f a)) v ->
    wp Inv no_deadline i anyone (now v) (a ← m; Ret (mkMember (mb_cfg s) (mb_worker s) (f a)))
      (member_cache_ok float_to_int) v) as Then.
  { intros A m' f W. apply wp_bind; [|done]. eapply wp_mono; [exact W|]. intros a v1 _ I1 Ca v2 L2 I2.
    split; [exact Ok|]. intros _. by eapply cache_ok_later. }
  destruct C; cbn [mb_cfg mb_worker mb_coordinator] in *.
  - apply (Then _ _ fst). unfold Apply. apply wp_bind; [|done]. eapply wp_mono; [by apply wp_sweep_cache|].
    intros [t1 b] v1 _ I1 C1. cbn [fst] in *. apply wp_bind; [|done].
    eapply wp_mono; [apply wp_safe; [apply safe_apply_phases; try apply Ok|done]|].
    + done.
    + intros g Hg. destruct guarded; simplify_eq. apply safe_guard.
    + intros r v2 L2 I2 _ v3 L3 I3. cbn. eapply cache_ok_later; [done| |exact C1]. etrans; [exact L2|exact L3].
  - apply (Then _ _ id). by apply wp_tick_cache.
  - apply (Then _ _ (λ _, t)). apply (wp_keeps _ _ _ (λ _, t) t); [apply safe_hygiene| |done..].
    eapply returns_mono; [apply returns_any|]. done.
  - apply (Then _ _ (λ _, t)). apply (wp_keeps _ _ _ (λ _, t) t); [apply safe_resume| |done..].
    eapply returns_mono; [apply returns_any|]. done.
Qed.
End gate.

(** A gated sweep works on the claims as they are. In every interleaving of
    coordinators, sweeps, startup passes and crashes: when a coordinator's cache
    is valid and a probe of the stream answers with the position it was latched
    at, the cache holds exactly the claims of the bucket at that moment, each
    with the claim and the revision a read would return, and no others. A pass
    over the cache therefore decides on the same claims as a full pass. *)
Theorem gated_pass_sees_current_claims `{ClaimWire, !ClaimWireLaws, Xxh3} (float_to_int : float64 -> Z)
    (np : go_error -> bool) {W : Type} `{!Env None W} (w0 w : W) (ps : list (process member))
    (i : nat) (cfg : Config) (worker : string) (t : twoPhaseCoordinator) (pos : KVStreamPos) (v : view)
    (Hreach : reaches float_to_int np w0 w ps) (Hidle : (i, Idle (mkMember cfg worker t)) ∈ ps)
    (Hprobe : effect i BucketPos (observe w) (Ok pos) v)
    (Hvalid : sweepCacheValid t = true) (Hsame : at_cache t (Some pos) = true) :
  forall pid, sweepCache t !! pid = claim_now (log v) pid.
Proof.
  destruct Hreach as [E R].
  assert (sys_inv (λ _ _, None) (bucket_ok claim_good) (λ _, member_cache_ok float_to_int) (w, ps)) as (Iw & _ & F).
  { eapply (adequacy (λ _ _, None) (boot float_to_int) (call float_to_int np)); [..|exact R].
    - intros j s v1 v2 O [Ok Oc]. split; [done|]. intros S2. pose proof (grows_later _ _ _ O) as L.
      apply (cache_ok_stream _ v1 v2 S2 L), Oc. destruct L as [(l & El & _) _]. rewrite El in S2. by eapply stream_app.
    - intros j s v1 [cfg' w' Ok] _. by split.
    - intros j s m v1. apply member_cache_call.
    - by intros v1 v2 (d & m & [=] & _).
    - split; rewrite E; [constructor|done]. }
  rewrite Forall_forall in F. destruct (F _ Hidle) as [_ Oc]. cbn [fst snd mb_coordinator] in Oc.
  destruct (Oc (proj1 Iw) Hvalid) as [_ C]. destruct Hprobe as (El & _ & Hp). rewrite El. apply C.
  cbn in Hsame. apply Same_LastSeq in Hsame. by rewrite <-Hsame.
Qed.

(** ** An execution: a worker takes a partition, a sweeper latches its cache. *)

Definition demo_gated_config : Config :=
  normalize (mkConfig true true true false true false (60 * second) (-1) 0 0 0 (f64_of_Z 0) 0 0 0 1 0).

Definition demo_gated : list (sched member) :=
  [SBoot 1 (demo_member "a"); SCall 1 (demo_apply 1); SRun 1 100;
   SBoot 3 (mkMember demo_gated_config "s" (New demo_gated_config)); SCall 3 demo_tick; SRun 3 100].

Definition demo_pos (v : view) : KVStreamPos := mkPos 0 (last_seq (log v)) (Z.of_nat (length (log v))) 0 false 0.

Lemma demo_gated_lawful : Forall (lawful_sched demo_boot demo_call) demo_gated.
Proof.
  unfold demo_gated. repeat (apply Forall_cons_2; [first
    [by apply demo_boots|apply demo_applies|apply demo_ticks|exact I
    |by apply boot_member; split; vm_compute]|]).
  constructor.
Qed.

Lemma demo_gated_end :
  exists v ps cfg w t, demo_reaches v ((3, Idle (mkMember cfg w t)) :: ps) /\
    sweepCacheValid t = true /\ at_cache t (Some (demo_pos v)) = true /\ is_Some (sweepCache t !! "p").
Proof.
  assert (match run_sched demo_env demo_gated (mkView [] 0 ∅, []) with
          | Some (v, (3, Idle (mkMember _ _ t)) :: _) =>
              sweepCacheValid t && at_cache t (Some (demo_pos v)) && bool_decide (is_Some (sweepCache t !! "p"))
          | _ => false end = true) as B by (vm_compute; reflexivity).
  pose proof (demo_sched demo_gated) as R.
  destruct (run_sched demo_env demo_gated (mkView [] 0 ∅, [])) as [[v ps]|]; [|discriminate B].
  destruct ps as [|[i [[cfg w t]|]] ps]; [discriminate B| |repeat (destruct i as [|i]; try discriminate B)].
  do 4 (destruct i as [|i]; try discriminate B). rewrite !andb_true_iff, bool_decide_eq_true in B.
  destruct B as [[? ?] ?]. exists v, ps, cfg, w, t. split; [|done]. apply R; [apply demo_gated_lawful|done].
Qed.

Lemma gated_pass_sees_current_claims_witness :
  exists v t, is_Some (sweepCache t !! "p") /\
    forall pid, sweepCache t !! pid = @claim_now toy_claim_wire (log v) pid.
Proof.
  destruct demo_gated_end as (v & ps & cfg & w & t & R & V & P & S). exists v, t. refine (conj S _).
  refine (@gated_pass_sees_current_claims toy_claim_wire toy_claim_laws toy_xxh3 demo_float demo_np view
    (permissive None) (mkView [] 0 ∅) v ((3, Idle (mkMember cfg w t)) :: ps) 3 cfg w t (demo_pos v) v R _ _ V P).
  - left.
  - exact (conj eq_refl (conj eq_refl eq_refl)).
Defined.
