(* ===== verification/HandoffApply.v ===== *)
(** * What an undisturbed [Apply] achieves

    When no operation fails for external reasons and nobody else writes the
    claims of the assignment, the phases of [Apply] return without error and
    leave every partition with a stable claim of this worker. The goroutines of
    a phase still interleave in every way. *)
From S2P Require Import Prelude Partition Float64 Nats KV Lease Wire Handoff HandoffSafety.

(** ** Undisturbed executions *)

(** The instants JSON can express: the years 0 to 9999. *)
Definition json_time (t : Z) : Prop := (- 62167219200 * second <= t < 253402300800 * second)%Z.

(** Answers that report no external fault. *)
Definition faultless {X} (o : op X) : X -> Prop :=
  match o in op X return X -> Prop with
  | KvGet _ => λ x, match x with Ok _ => True | Err e => Is e JsErrKeyNotFound = true end
  | KvCreate _ _ => λ x, match x with Ok _ => True | Err e => Is e JsErrKeyExists = true end
  | KvUpdate _ _ _ => λ x, match x with Ok _ => True | Err e => Is e JsErrKeyExists = true end
  | CtxErr => λ x, x = None
  | Backoff _ => λ x, x = None
  | UpdateConsumer _ _ => λ x, x = None
  | Now _ => json_time
  | _ => λ _, True
  end.

(** The keys a program writes. *)
Definition writes {X} (o : op X) : option string :=
  match o with KvCreate k _ | KvUpdate k _ _ | KvPut k _ | KvDelete k _ => Some k | _ => None end.

Fixpoint touches (K : string -> Prop) {A} (m : prog A) : Prop :=
  match m with
  | Ret _ => True
  | Vis o k => (forall key, writes o = Some key -> K key) /\ forall x, touches K (k x)
  end.

Section undisturbed.
Context (me : nat).

(** Executions in which only messages that satisfy [from] appear in between. *)
Inductive undisturbed (from : msg -> Prop) {A} : prog A -> view -> A -> view -> Prop :=
| undisturbed_ret a v v' : grows from v v' -> undisturbed from (Ret a) v a v'
| undisturbed_op {X} (o : op X) k x v v1 v2 a v' :
    grows from v v1 -> spec me o v1 x v2 -> faultless o x -> undisturbed from (k x) v2 a v' ->
    undisturbed from (Vis o k) v a v'.

Fixpoint wpu (from : msg -> Prop) {A} (m : prog A) (Φ : A -> view -> Prop) (v : view) : Prop :=
  match m with
  | Ret a => forall v1, grows from v v1 -> Φ a v1
  | Vis o k => forall v1 x v2, grows from v v1 -> spec me o v1 x v2 -> faultless o x -> wpu from (k x) Φ v2
  end.

Lemma wpu_undisturbed from {A} (m : prog A) Φ v a v' : wpu from m Φ v -> undisturbed from m v a v' -> Φ a v'.
Proof.
  intros W R. revert W. induction R as [a v v' G|X o k x v v1 v2 a v' G S F R IH]; cbn [wpu]; [by auto|].
  intros W. by eapply IH, W.
Qed.

Lemma undisturbed_wpu from {A} (m : prog A) (Φ : A -> view -> Prop) v :
  (forall a v', undisturbed from m v a v' -> Φ a v') -> wpu from m Φ v.
Proof.
  revert v. induction m as [a|X o k IH]; intros v U; cbn [wpu].
  - intros v1 G. apply U. by constructor.
  - intros v1 x v2 G S F. apply IH. intros a v' R. apply U. by econstructor.
Qed.

Lemma wpu_mono from {A} (m : prog A) (Φ Ψ : A -> view -> Prop) v :
  wpu from m Φ v -> (forall a v1, Φ a v1 -> Ψ a v1) -> wpu from m Ψ v.
Proof.
  intros W M. revert v W. induction m as [a|X o k IH]; intros v W; cbn [wpu] in *; [by auto|].
  intros v1 x v2 G S F. by eapply IH, W.
Qed.

Lemma wpu_rely from {A} (m : prog A) Φ v v' : grows from v v' -> wpu from m Φ v -> wpu from m Φ v'.
Proof.
  intros G. destruct m as [a|X o k]; cbn [wpu]; intros W.
  - intros v1 G1. apply W. by etrans.
  - intros v1 x v2 G1. apply W. by etrans.
Qed.

Lemma wpu_bind from {A B} (m : prog A) (f : A -> prog B) Φ v :
  wpu from m (λ a v1, wpu from (f a) Φ v1) v -> wpu from (m ≫= f) Φ v.
Proof.
  revert v. induction m as [a|X o k IH]; intros v W; cbn [wpu] in W; [by apply W|].
  intros v1 x v2 G S F. by eapply IH, W.
Qed.

Lemma wpu_from (from from' : msg -> Prop) {A} (m : prog A) Φ v :
  (forall x, from' x -> from x) -> wpu from m Φ v -> wpu from' m Φ v.
Proof.
  intros H. revert v. induction m as [a|X o k IH]; intros v W; cbn [wpu] in *.
  - intros v1 G. apply W. by eapply grows_impl.
  - intros v1 x v2 G S F. eapply IH, W; [by eapply grows_impl|done..].
Qed.

(** A program that touches the keys [K] only adds messages on them. *)
Lemma spec_touches (K : string -> Prop) {X} (o : op X) v x v' :
  (forall key, writes o = Some key -> K key) -> spec me o v x v' -> grows (λ m, K (m_key m)) v v'.
Proof.
  intros HK [T E]. assert (log v' = log v -> grows (λ m, K (m_key m)) v v') as Same by (intros; by apply grows_same).
  assert (forall k b r, writes o = Some k -> appended me v k b r v' -> grows (λ m, K (m_key m)) v v') as App.
  { intros k b r Hw (E0 & _). split; [|done]. eexists. split; [done|]. apply Forall_singleton. split; [done|]. cbn. by apply HK. }
  assert (forall A pre k b rev (y : res go_error A), writes o = Some k -> write_spec me pre k b rev v y v' ->
    grows (λ m, K (m_key m)) v v') as Wr.
  { unfold write_spec. intros A pre k b rev [a|e] Hw; [|intros [[? _]|(_ & _ & r & ?)]; eauto].
    intros (r & _ & _ & ?). eauto. }
  destruct o; simpl in E; destruct_and?; first [by eapply Wr|by apply Same].
Qed.

(** A fact nobody disturbs holds at the end. *)
Lemma wpu_frame (from K : _ -> Prop) (P : view -> Prop) {A} (m : prog A) Φ v :
  (forall v1 v2, grows (λ x, from x \/ K (m_key x)) v1 v2 -> P v1 -> P v2) ->
  touches K m -> wpu from m Φ v -> P v -> wpu from m (λ a v1, Φ a v1 /\ P v1) v.
Proof.
  intros St. revert v. induction m as [a|X o k IH]; intros v T W Pv; cbn [wpu touches] in *.
  - intros v1 G. split; [by apply W|]. eapply St; [|done]. eapply grows_impl; [|done]. by left.
  - destruct T as [To Tk]. intros v1 x v2 G S F. apply IH; [done|by eapply W|].
    eapply (St v1); [eapply grows_impl; [|by eapply spec_touches]; by right|].
    eapply St; [|done]. eapply grows_impl; [|done]. by left.
Qed.

Lemma wpu_group {E} (from K1 K2 : _ -> Prop) (P1 P2 : view -> Prop) (m n : prog (res E unit)) v :
  (forall v1 v2, grows (λ x, from x \/ K2 (m_key x)) v1 v2 -> P1 v1 -> P1 v2) ->
  (forall v1 v2, grows (λ x, from x \/ K1 (m_key x)) v1 v2 -> P2 v1 -> P2 v2) ->
  touches K1 m -> touches K2 n ->
  wpu (λ x, from x \/ K2 (m_key x)) m (λ r v, r = Ok () /\ P1 v) v ->
  wpu (λ x, from x \/ K1 (m_key x)) n (λ r v, r = Ok () /\ P2 v) v ->
  wpu from (group m n) (λ r v, r = Ok () /\ P1 v /\ P2 v) v.
Proof.
  intros St1 St2. revert n v.
  assert (forall K v v', grows from v v' -> grows (λ x, from x \/ K (m_key x)) v v') as Weak.
  { intros K v v'. apply grows_impl. by left. }
  induction m as [[[]|e]|X o k IHm]; [intros n v _ T2 W1 W2|intros n v _ _ W1; by destruct (W1 v) as [? _]|].
  { destruct (W1 v) as [_ Pv]; [done|].
    assert (wpu from n (λ r v, (r = Ok () /\ P2 v) /\ P1 v) v) as W.
    { apply (wpu_frame _ K2); [done..| |done]. eapply wpu_from; [|exact W2]. by left. }
    destruct n as [|]; (eapply wpu_mono; [exact W|]); naive_solver. }
  induction n as [[[]|e]|Y o' k' IHn]; intros v T1 T2 W1 W2; [|by destruct (W2 v) as [? _]|].
  { destruct (W2 v) as [_ Pv]; [done|].
    assert (wpu from (Vis o k) (λ r v, (r = Ok () /\ P1 v) /\ P2 v) v) as W.
    { apply (wpu_frame _ K1); [done..| |done]. eapply wpu_from; [|exact W1]. by left. }
    eapply wpu_mono; [exact W|]. naive_solver. }
  cbn [group]. intros v1 b v2 G1 [Ht [El _]] _.
  assert (grows from v v2) as G2. { etrans; [exact G1|]. by apply grows_same. }
  pose proof T1 as [To1 Tk1]. pose proof T2 as [To2 Tk2].
  destruct b; intros v3 x v4 G3 S3 F3; assert (grows from v v3) as G03 by by etrans.
  - apply IHm; [done..| |].
    + apply (W1 v3 x v4); [by apply Weak|done..].
    + eapply (wpu_rely _ (Vis o' k')); [|exact W2]. etrans; [by apply Weak|].
      eapply grows_impl; [|by eapply (spec_touches K1)]. by right.
  - apply IHn; [done..| |].
    + eapply (wpu_rely _ (Vis o k)); [|exact W1]. etrans; [by apply Weak|].
      eapply grows_impl; [|by eapply (spec_touches K2)]. by right.
    + apply (W2 v3 x v4); [by apply Weak|done..].
Qed.

Lemma touches_impl (K K' : string -> Prop) {A} (m : prog A) : (forall k, K k -> K' k) -> touches K m -> touches K' m.
Proof. intros H. induction m as [a|X o k IH]; cbn; [done|]. intros [T1 T2]. split; [eauto|]. intros x. apply IH, T2. Qed.

Lemma touches_bind K {A B} (m : prog A) (f : A -> prog B) : touches K m -> (forall a, touches K (f a)) -> touches K (m ≫= f).
Proof.
  intros Tm Tf. induction m as [a|X o k IH]; [apply Tf|]. destruct Tm as [T1 T2]. split; [done|]. intros x. apply IH, T2.
Qed.

Lemma touches_group K {E} (m n : prog (res E unit)) : touches K m -> touches K n -> touches K (group m n).
Proof.
  revert n. induction m as [[[]|e]|X o k IHm]; [by intros []|intros [] _ Tn; by apply (touches_bind K _ (λ _, Ret (Err e)))|].
  induction n as [[[]|e]|Y o' k' IHn]; intros Tm Tn.
  - done.
  - by apply (touches_bind K (Vis o k) (λ _, Ret (Err e))).
  - cbn [group]. split; [done|]. pose proof Tm as [To Tk]. pose proof Tn as [To' Tk'].
    intros []; split; [done| |done|]; intros x; [by apply IHm|by apply IHn].
Qed.

(** A phase: goroutines on distinct keys. *)
Lemma wpu_group_all {A E} (from : msg -> Prop) (ps : list A) (f : A -> prog (res E unit)) (K : A -> string)
    (P : A -> view -> Prop) v :
  NoDup (K <$> ps) ->
  (forall p, p ∈ ps -> touches (λ k, k = K p) (f p)) ->
  (forall p v1 v2, p ∈ ps -> grows (λ x, m_key x <> K p) v1 v2 -> P p v1 -> P p v2) ->
  (forall x p, from x -> p ∈ ps -> m_key x <> K p) ->
  (forall p, p ∈ ps -> wpu (λ x, m_key x <> K p) (f p) (λ r v, r = Ok () /\ P p v) v) ->
  wpu from (group_all (f <$> ps)) (λ r v, r = Ok () /\ forall p, p ∈ ps -> P p v) v.
Proof.
  revert from. induction ps as [|p ps IH]; intros from N T St Hf W; cbn.
  { intros v1 _. split; [done|]. set_solver. }
  apply NoDup_cons in N as [Np N].
  assert (forall p', p' ∈ ps -> K p' <> K p) as Ne.
  { intros p' Hp' E'. apply Np. rewrite <-E'. by apply list_elem_of_fmap_2. }
  eapply wpu_mono; [apply (wpu_group from (λ k, k = K p) (λ k, k ∈ K <$> ps) (P p) (λ v, forall p, p ∈ ps -> P p v))|].
  - intros v1 v2 G. apply St; [left|]. eapply grows_impl; [|exact G]. intros x [Hx|Hx]; [by apply (Hf x p Hx); left|].
    intros E'. apply Np. by rewrite <-E'.
  - intros v1 v2 G Pv p' Hp'. eapply St; [by right| |by apply Pv]. eapply grows_impl; [|exact G].
    intros x [Hx|Hx]; [by apply (Hf x p' Hx); right|]. rewrite Hx. intros E'. by apply (Ne p').
  - apply T. left.
  - clear -T Ne. induction ps as [|q ps IH]; cbn; [done|]. apply touches_group.
    + eapply touches_impl; [|apply T; right; left]. intros k ->. left.
    + eapply touches_impl; [|apply IH]; [intros k; by right|..].
      * intros p' Hp'. apply T. set_solver.
      * intros p' Hp'. apply Ne. by right.
  - eapply wpu_from; [|apply W; left]. intros x [Hx|Hx]; [by apply (Hf x p Hx); left|].
    intros E'. apply Np. by rewrite <-E'.
  - apply (IH _ N).
    + intros p' Hp'. apply T. by right.
    + intros p' v1 v2 Hp'. apply St. by right.
    + intros x p' [Hx|Hx] Hp'; [by apply (Hf x p' Hx); right|]. rewrite Hx. intros E'. by apply (Ne p').
    + intros p' Hp'. apply W. by right.
  - intros r v1 (-> & Pp & Pps). split; [done|]. intros p' [->|Hp']%elem_of_cons; auto.
Qed.
End undisturbed.

(** ** Updating one claim *)

Class ClaimWireTotal `{ClaimWire} := {
  marshal_total c : claim_wf c -> json_time (LastUpdated c) -> is_Some (marshal_claim c);
}.

Section claims.
Context `{ClaimWire, !ClaimWireLaws, !ClaimWireTotal, Xxh3} (me : nat).
Context (cfg : Config) (float_to_int : float64 -> Z).
Local Notation wpu := (wpu me).

(** The claim the bucket has for [k]. *)
Definition holds (k : string) (oc : option Claim) (v : view) : Prop :=
  match oc with
  | None => live (log v) k = None
  | Some c => exists m, live (log v) k = Some m /\ decodes m c /\ (0 < m_rev m)%Z
  end.

Definition elsewhere (k : string) (x : msg) : Prop := m_key x <> k.

Lemma live_elsewhere l l' k : Forall (elsewhere k) l' -> live (l ++ l') k = live l k.
Proof.
  intros F. unfold live. rewrite last_msg_app. destruct (last_msg l' k) as [m|] eqn:E; [|done].
  apply last_msg_elem in E as [Hm K]. rewrite Forall_forall in F. by destruct (F m Hm).
Qed.

Lemma holds_elsewhere k oc v v' : grows (elsewhere k) v v' -> holds k oc v -> holds k oc v'.
Proof.
  intros [(l & E & F) _] Hh. assert (live (log v') k = live (log v) k) as L.
  { rewrite E. apply live_elsewhere. eapply Forall_impl; [exact F|]. by intros m [_ ?]. }
  unfold holds. by rewrite L.
Qed.

Lemma holds_same k oc v v' : log v' = log v -> holds k oc v -> holds k oc v'.
Proof. intros E. unfold holds. by rewrite E. Qed.

Lemma wpu_read {A} pid oc (f : _ -> prog A) Φ v :
  holds (key pid) oc v ->
  (forall rev v1, holds (key pid) oc v1 ->
     match oc with Some _ => (0 < rev)%Z /\ last_rev (log v1) (key pid) = rev | None => True end ->
     wpu (elsewhere (key pid)) (f (Ok ((λ c, (c, rev)) <$> oc))) Φ v1) ->
  wpu (elsewhere (key pid)) (GetJSON unmarshal_claim (key pid) ≫= f) Φ v.
Proof.
  intros Hh Hf. unfold GetJSON. apply wpu_bind. intros v1 x v2 G1 [_ (El & _ & Hx)] Fx v3 G3.
  apply (holds_elsewhere _ _ _ _ G1), (holds_same _ _ _ v2 El) in Hh. apply (holds_elsewhere _ _ _ _ G3) in Hh as Hh3.
  rewrite <-El in Hx. destruct oc as [c|].
  - destruct Hh as (m & Lv & (s & Es & D) & P). destruct x as [e|e]; [|rewrite Hx in Lv; done].
    destruct Hx as (m' & Lv' & ->). assert (m' = m) as -> by congruence. unfold entry_of. cbn. rewrite Es, D.
    apply (Hf (m_rev m)); [done|]. split; [done|]. destruct Hh3 as (m3 & Lv3 & _).
    assert (live (log v3) (key pid) = live (log v2) (key pid)) as L.
    { destruct G3 as [(l & E & F) _]. rewrite E. apply live_elsewhere. eapply Forall_impl; [exact F|]. by intros ? [_ ?]. }
    rewrite <-L in Lv. by apply live_last_rev in Lv.
  - cbn in Hh. destruct x as [e|e]; [destruct Hx as (m' & Lv' & _); congruence|]. cbn in Fx. rewrite Fx.
    by apply (Hf 0%Z).
Qed.

(** A conditional write whose condition holds succeeds. *)
Lemma wpu_write {A} pid s c' (o : op (res go_error Z)) (pre : view -> Prop) (f : _ -> prog A) Φ v :
  (forall v x v', effect me o v x v' -> write_spec me (pre v) (key pid) (Put s) eq v x v') ->
  (forall x, faultless o x -> match x with Ok _ => True | Err e => Is e JsErrKeyExists = true end) ->
  (forall v1, grows (elsewhere (key pid)) v v1 -> pre v1) -> unmarshal_claim s = Some c' ->
  (forall r v1, holds (key pid) (Some c') v1 -> wpu (elsewhere (key pid)) (f (Ok r)) Φ v1) ->
  wpu (elsewhere (key pid)) (trigger o ≫= f) Φ v.
Proof.
  intros Hw Hf Hp D Hk v1 x v2 G1 [_ W%Hw] Fx%Hf. destruct x as [r|e]; cbn in W.
  - destruct W as (r' & _ & <- & (E & P & _)). apply Hk. exists (mkMsg r (key pid) (now v2) (Put s) (Some me)).
    rewrite E, live_snoc, decide_True by done. split_and!; [done| |done]. by exists s.
  - destruct W as [[_ N]|(N & _)]; [by destruct (N Fx); apply Hp|congruence].
Qed.

Definition room (oc : option Claim) : Prop :=
  match oc with Some c => claim_wf c /\ (Epoch c < 2 ^ 63 - 1)%Z | None => True end.

(** The claim after a transformation: [None] leaves it. *)
Definition after (T : option Claim -> option Claim) (oc : option Claim) : option Claim :=
  match T oc with Some c' => Some c' | None => oc end.

Lemma transform_wf T oc c' : lawful_transform T -> room oc -> T oc = Some c' -> claim_wf c'.
Proof. intros [T0 T1] R E. destruct oc as [c|]; [by apply (T1 c c' E); apply R|by apply T0]. Qed.

Lemma wpu_PutIfEpoch pid oc c' v :
  holds (key pid) oc v -> room oc -> claim_wf c' -> json_time (LastUpdated c') ->
  wpu (elsewhere (key pid)) (PutIfEpoch pid (match oc with Some c => Epoch c | None => 0%Z end) c')
    (λ r v1, (exists rev, r = Ok rev) /\ holds (key pid) (Some c') v1) v.
Proof.
  intros Hh R W J. unfold PutIfEpoch. destruct (marshal_total c' W J) as [s Es]. rewrite Es.
  pose proof (claim_roundtrip _ _ W Es) as D. apply (wpu_read _ oc); [done|]. intros rev v1 Hh1 Hr.
  destruct oc as [c|]; cbn.
  - rewrite decide_False by (intros N; by apply N).
    eapply (wpu_write pid s c' _ (λ v, last_rev (log v) (key pid) = rev)); [by intros ? ? ? [? _]|done| |done|].
    + intros v2 G2. destruct Hh1 as (m & Lv & _). destruct Hr as [_ Er]. rewrite <-Er.
      destruct G2 as [(l & E & F) _].
      assert (live (log v2) (key pid) = Some m) as Lv2.
      { rewrite E, live_elsewhere; [done|]. eapply Forall_impl; [exact F|]. by intros ? [_ ?]. }
      by rewrite (live_last_rev _ _ _ Lv), (live_last_rev _ _ _ Lv2).
    + intros r v2 Hh2 v3 G3. split; [by exists r|]. by eapply (holds_elsewhere _ (Some c')).
  - rewrite decide_False by (intros N; by apply N).
    eapply (wpu_write pid s c' _ (λ v, live (log v) (key pid) = None)); [by intros ? ? ? [? _]|done| |done|].
    + intros v2 G2. by apply (holds_elsewhere _ None _ _ G2).
    + intros r v2 Hh2 v3 G3. split; [by exists r|]. by eapply (holds_elsewhere _ (Some c')).
Qed.

Lemma wpu_updateClaim pid T oc v :
  holds (key pid) oc v -> room oc -> lawful_transform T ->
  (forall c', T oc = Some c' -> json_time (LastUpdated c')) ->
  wpu (elsewhere (key pid)) (updateClaim cfg float_to_int pid (λ cur, Ok (T cur)))
    (λ r v1, r = Ok () /\ holds (key pid) (after T oc) v1) v.
Proof.
  intros Hh R LT J. unfold updateClaim.
  assert (forall retry, wpu (elsewhere (key pid)) (update_attempt cfg pid (λ cur, Ok (T cur)) retry)
    (λ r v1, r = Ok () /\ holds (key pid) (after T oc) v1) v) as At; [|by destruct (Z.to_nat _); apply At].
  intros retry. unfold update_attempt, Get. apply wpu_bind, wpu_bind. apply (wpu_read _ oc); [done|].
  intros rev v1 Hh1 Hr v2 G2. apply (holds_elsewhere _ _ _ _ G2) in Hh1.
  assert (forall next v3, holds (key pid) oc v3 -> T oc = Some next ->
    wpu (elsewhere (key pid))
      (w ← limiter_wait cfg;
       match w with
       | Some e => Ret (Err (LimiterWait e))
       | None =>
           r ← PutIfEpoch pid (match oc with Some c => Epoch c | None => 0%Z end) next;
           match r with Ok _ => Ret (Ok ()) | Err casErr => retry casErr end
       end) (λ r v1, r = Ok () /\ holds (key pid) (after T oc) v1) v3) as Put.
  { intros next v3 Hh3 ET. apply wpu_bind.
    assert (wpu (elsewhere (key pid)) (limiter_wait cfg) (λ w v4, w = None /\ holds (key pid) oc v4) v3) as Lim.
    { unfold limiter_wait. destruct (HasLimiter cfg).
      - intros v4 x v5 G4 [_ (El & _)] Fx v6 G6. split; [exact Fx|]. eapply holds_elsewhere; [exact G6|].
        eapply holds_same; [exact El|]. by eapply holds_elsewhere.
      - intros v4 G4. split; [done|]. by eapply holds_elsewhere. }
    eapply wpu_mono; [exact Lim|]. intros w v4 [-> Hh4]. apply wpu_bind.
    eapply wpu_mono; [apply wpu_PutIfEpoch; [done..|by eapply transform_wf|by apply J]|].
    intros r v5 [[rev' ->] Hh5] v6 G6. split; [done|]. unfold after. rewrite ET.
    by eapply (holds_elsewhere _ (Some next)). }
  intros v3 G3. apply (holds_elsewhere _ _ _ _ G3) in Hh1.
  destruct oc as [c|]; cbn [fmap option_fmap option_map].
  - destruct Hr as [P _]. rewrite decide_True by done. destruct (T (Some c)) as [next|] eqn:ET.
    + rewrite decide_False by lia. by apply Put.
    + intros v4 G4. split; [done|]. unfold after. rewrite ET. by eapply (holds_elsewhere _ (Some c)).
  - rewrite decide_False by lia. destruct (T None) as [next|] eqn:ET.
    + rewrite decide_True by done. by apply Put.
    + intros v4 G4. split; [done|]. unfold after. rewrite ET. by eapply (holds_elsewhere _ None).
Qed.

Lemma touches_updateClaim pid T : touches (λ k, k = key pid) (updateClaim cfg float_to_int pid T).
Proof.
  assert (touches (λ k, k = key pid) (Get pid)) as TG by (split; [done|by intros x]).
  assert (forall e c, touches (λ k, k = key pid) (PutIfEpoch pid e c)) as TP.
  { intros e c. unfold PutIfEpoch. destruct (marshal_claim c); [|done]. apply touches_bind; [split; [done|by intros x]|].
    intros [[[cl rev]|]|er]; [..|done]; case_decide; try done; (split; [by intros k [= <-]|by intros []]). }
  assert (touches (λ k, k = key pid) (limiter_wait cfg)) as TL by (unfold limiter_wait; by case_match).
  unfold updateClaim. generalize (Z.to_nat (MaxRetries cfg)) 0%Z. intros left.
  induction left as [|left IH]; intros attempt; cbn [update_loop]; unfold update_attempt;
    (apply touches_bind; [done|]); intros [[cur rev]|e]; try done; destruct (T _) as [[next|]|e]; try done;
    (apply touches_bind; [done|]); intros [e|]; try done; (apply touches_bind; [done|]); intros [r|e]; try done.
  case_decide; [apply IH|]. apply touches_bind; [unfold backoff_for; by case_match|]. intros d.
  apply touches_bind; [done|]. intros [e'|]; [done|apply IH].
Qed.

(** ** The phases *)

Lemma NoDup_fmap_inj {A B} (f : A -> B) (l : list A) x y :
  NoDup (f <$> l) -> x ∈ l -> y ∈ l -> f x = f y -> x = y.
Proof.
  induction l as [|z l IH]; [set_solver|]. rewrite fmap_cons, NoDup_cons, !elem_of_cons.
  intros [Nz N] [->|Hx] [->|Hy] E; [done| | |by apply IH]; exfalso; apply Nz.
  - rewrite E. by apply list_elem_of_fmap_2.
  - rewrite <-E. by apply list_elem_of_fmap_2.
Qed.

(** Room for [n] more updates. *)
Definition roomy (n : Z) (oc : option Claim) : Prop :=
  match oc with Some c => claim_wf c /\ (Epoch c < 2 ^ 63 - n)%Z /\ json_time (LastUpdated c) | None => True end.

Lemma roomy_room n oc : (1 <= n)%Z -> roomy n oc -> room oc.
Proof. destruct oc as [c|]; [|done]. intros Hn (W & E & _). split; [done|lia]. Qed.

(** A transformation at [now] of a claim that has room. *)
Definition timed (now : Z) (T : option Claim -> option Claim) : Prop :=
  lawful_transform T /\ forall oc c', T oc = Some c' -> LastUpdated c' = now \/ oc = Some c'.

Lemma timed_json now T n oc c' :
  timed now T -> json_time now -> roomy n oc -> T oc = Some c' -> json_time (LastUpdated c').
Proof. intros [_ Ht] Hn R E. destruct (Ht _ _ E) as [->| ->]; [done|]. apply R. Qed.

Lemma roomy_after now T n oc :
  (1 <= n < 2 ^ 62)%Z -> timed now T -> json_time now -> roomy (n + 1) oc -> roomy n (after T oc).
Proof.
  intros Hn HT Hj R. pose proof HT as [LT _]. unfold after. destruct (T oc) as [c'|] eqn:E.
  - split_and!; [by eapply transform_wf; [|eapply roomy_room; [|exact R]; lia|]| |by eapply timed_json].
    destruct oc as [c|]; [|by apply LT in E as [_ ->]; lia]. destruct R as (W & B & _).
    destruct (proj2 LT _ _ E W) as [_ Hs]; [lia|]. destruct W as (_ & _ & _ & _ & _ & ? & _).
    apply step_epoch in Hs as [->|[-> _]]; [rewrite wrap64_id; lia|lia].
  - destruct oc as [c|]; [|done]. destruct R as (W & B & J). split_and!; [done|lia|done].
Qed.

Definition ck (p : Partition) : string := key (SubjectKey p).

(** Nobody else writes the claims of [ps]. *)
Definition apart (ps : list Partition) (x : msg) : Prop := forall p, p ∈ ps -> m_key x <> ck p.

Lemma wpu_phase ps qs (T : Z -> Partition -> option Claim -> option Claim) (S : Partition -> option Claim) n v :
  NoDup (ck <$> ps) -> sublist qs ps -> (1 <= n < 2 ^ 62)%Z ->
  (forall now p, json_time now -> p ∈ qs -> timed now (T now p)) ->
  (forall p, p ∈ ps -> holds (ck p) (S p) v /\ roomy (n + 1) (S p)) ->
  wpu (apart ps)
    (now ← trigger (Now WallClock);
     group_all ((λ p, updateClaim cfg float_to_int (SubjectKey p) (λ cur, Ok (T now p cur))) <$> qs))
    (λ r v1, r = Ok () /\ exists now, json_time now /\ forall p, p ∈ ps ->
       let oc := if decide (p ∈ qs) then after (T now p) (S p) else S p in
       holds (ck p) oc v1 /\ roomy n oc) v.
Proof.
  intros N Sub Hn HT HS v1 now v2 G1 [_ (El & _)] Hj.
  assert (forall p v3, p ∈ ps -> holds (ck p) (S p) v -> grows (apart ps) v v3 -> holds (ck p) (S p) v3) as Keep.
  { intros p v3 Hp Hh G. eapply holds_elsewhere; [|exact Hh]. eapply grows_impl; [|exact G]. intros x Hx. by apply Hx. }
  assert (forall p, p ∈ ps -> holds (ck p) (S p) v2) as HS2.
  { intros p Hp. eapply holds_same; [exact El|]. apply Keep; [done|by apply HS|done]. }
  assert (forall p, p ∈ qs -> p ∈ ps) as Sub' by (intros; by eapply elem_of_sublist).
  assert (NoDup (ck <$> qs)) as Nq by (eapply sublist_NoDup; [exact N|by apply fmap_sublist]).
  pose proof (wpu_group_all me (apart ps) qs
    (λ p, updateClaim cfg float_to_int (SubjectKey p) (λ cur, Ok (T now p cur))) ck
    (λ p, holds (ck p) (after (T now p) (S p))) v2 Nq) as W.
  eapply wpu_mono; [apply (wpu_frame me (apart ps) (λ k, k ∈ ck <$> qs)
    (λ v, forall p, p ∈ ps -> p ∉ qs -> holds (ck p) (S p) v)); [| |apply W|]|].
  - intros v3 v4 G Hk p Hp Nq'. eapply holds_elsewhere; [|by apply Hk]. eapply grows_impl; [|exact G].
    intros x [Hx|(q & Eq & Hq)%list_elem_of_fmap]; [by apply Hx|]. unfold elsewhere. rewrite Eq. intros E. apply Nq'.
    rewrite <-(NoDup_fmap_inj ck ps q p N (Sub' q Hq) Hp E). done.
  - clear -cfg. induction qs as [|q qs IH]; cbn; [done|]. apply touches_group.
    + eapply touches_impl; [|apply touches_updateClaim]. intros k ->. left.
    + eapply touches_impl; [|apply IH]. intros k. by right.
  - intros p Hp. apply touches_updateClaim.
  - intros p v3 v4 _. apply holds_elsewhere.
  - intros x p Hx Hp. by apply Hx, Sub'.
  - intros p Hp. destruct (HS p (Sub' p Hp)) as [_ R]. destruct (HT now p Hj Hp) as [LT Ht].
    apply wpu_updateClaim; [by apply HS2, Sub'|eapply roomy_room; [|exact R]; lia|done|].
    intros c' E. by eapply timed_json.
  - intros p Hp _. by apply HS2.
  - intros r v3 [[-> Hq] Hk]. split; [done|]. exists now. split; [done|]. intros p Hp. cbn zeta.
    destruct (HS p Hp) as [_ R]. case_decide as Dq.
    + split; [by apply Hq|]. apply (roomy_after now); [done|by apply HT|done..].
    + split; [by apply Hk|]. destruct (S p) as [c|]; [|done]. destruct R as (? & ? & ?). split_and!; [done|lia|done].
Qed.

(** ** The transformations together *)

Lemma prepare_timed pid w now :
  ascii_text pid = true -> ascii_text w = true -> int64 (ttl_seconds cfg float_to_int) ->
  timed now (prepare_transform cfg float_to_int pid w now).
Proof.
  intros Tp Tw Ts. split; [by apply prepare_lawful|]. intros [c|] c' E; cbn in E; [|simplify_eq; by left].
  repeat case_decide; simplify_eq; by left.
Qed.

Lemma commit_timed w now : timed now (commit_transform w now).
Proof.
  split; [apply commit_lawful|]. intros [c|] c' E; cbn in E; [|done].
  repeat case_decide; simplify_eq; [|by right]. left. unfold NextCommit. by case_decide.
Qed.

Lemma stable_timed w now : timed now (stable_transform w now).
Proof.
  split; [apply stable_lawful|]. intros [c|] c' E; cbn in E; [|done]. repeat case_decide; simplify_eq. by left.
Qed.

Definition settled (w : string) (c : Claim) : Prop :=
  Owner c = w /\ PendingOwner c = "" /\ ClaimState c = ClaimStateStable.

Definition held (w : string) (oc : option Claim) : Prop :=
  exists c, oc = Some c /\ Owner c = w /\ PendingOwner c = "" /\ ClaimState c <> ClaimStatePrepare.

(** After the last phase: settled, if the worker held the claim or was recorded
    as its pending owner before the commit. *)
Lemma commit_stable_settles w n2 n3 oc :
  w <> "" -> roomy 1 oc ->
  held w oc \/ (exists c, oc = Some c /\ Owner c <> w /\ PendingOwner c = w /\ ClaimState c = ClaimStatePrepare) ->
  exists c, after (stable_transform w n3) (after (commit_transform w n2) oc) = Some c /\ settled w c.
Proof.
  intros Nw R [(c & -> & O & P & St)|(c & -> & O & P & St)]; destruct R as [W _];
    destruct W as (_ & _ & _ & States & _).
  - assert (ClaimState c = ClaimStateStable \/ ClaimState c = ClaimStateCommit) as [E|E].
    { apply elem_of_cons in States as [?|States]; [by left|]. apply elem_of_cons in States as [?|States]; [done|].
      apply list_elem_of_singleton in States. by right. }
    + assert (after (commit_transform w n2) (Some c) = Some c) as ->.
      { unfold after. cbn. by rewrite decide_True. }
      exists c. split; [|done]. unfold after. cbn. rewrite decide_False by (intros N; by apply N).
      rewrite decide_True; [done|]. by rewrite E.
    + assert (after (commit_transform w n2) (Some c) = Some c) as ->.
      { unfold after. cbn. rewrite decide_False by (rewrite E; intros [_ ?]; done).
        rewrite decide_False; [done|]. rewrite P. intros [?|N]; [by destruct Nw|by apply N]. }
      exists (NextStable c n3). split; [|done]. unfold after. cbn. rewrite decide_False by (intros N; by apply N).
      rewrite decide_False; [done|]. intros N. by apply N.
  - assert (after (commit_transform w n2) (Some c) = Some (NextCommit c n2)) as ->.
    { unfold after. cbn. rewrite decide_False by (intros [? _]; done). rewrite decide_True by by left.
      rewrite decide_True; [done|]. by rewrite St. }
    assert (NextCommit c n2 = mkClaim (PartitionID c) w "" ClaimStateCommit (wrap64 (Epoch c + 1)) n2 (TTLSeconds c)
      (ConflictCount c)) as ->. { unfold NextCommit. rewrite P. by rewrite decide_True. }
    set (d := mkClaim _ _ _ _ _ _ _ _). exists (NextStable d n3). split; [|done]. unfold after. cbn.
    rewrite decide_False by (intros N; by apply N). by rewrite decide_False by (intros N; by apply N).
Qed.

(** Preparing records the worker, or finds the claim its own. *)
Lemma prepare_records pid w now oc :
  roomy 1 oc -> w <> "" ->
  let oc' := after (prepare_transform cfg float_to_int pid w now) oc in
  held w oc' \/ (exists c, oc' = Some c /\ Owner c <> w /\ PendingOwner c = w /\ ClaimState c = ClaimStatePrepare).
Proof.
  intros R Nw. unfold after. destruct oc as [c|]; cbn.
  - case_decide as O; [right; by eexists|]. case_decide as St; [left; by eexists|].
    left. exists c. assert (ClaimState c = ClaimStateStable) as E by (destruct (decide (ClaimState c = ClaimStateStable)); tauto).
    assert (PendingOwner c = "") by (destruct (decide (PendingOwner c = "")); tauto).
    split_and!; [done| |done|by rewrite E]. destruct (decide (Owner c = w)); tauto.
  - left. by eexists.
Qed.

(** ** [Apply] *)

Lemma wpu_then from (P : view -> Prop) (m n : prog (res handoff_err unit)) Φ v :
  wpu from m (λ r v1, r = Ok () /\ P v1) v -> (forall v1, P v1 -> wpu from n Φ v1) ->
  wpu from (then_ m n) Φ v.
Proof. intros Wm Wn. apply wpu_bind. eapply wpu_mono; [exact Wm|]. intros r v1 [-> Pv]. by apply Wn. Qed.

(** The claims of the assignment, all of them known. *)
Definition book (ps : list Partition) (n : Z) (S : Partition -> option Claim) (v : view) : Prop :=
  forall p, p ∈ ps -> holds (ck p) (S p) v /\ roomy n (S p).

Lemma book_grows ps n S v v' : grows (apart ps) v v' -> book ps n S v -> book ps n S v'.
Proof.
  intros G B p Hp. destruct (B p Hp) as [Hh R]. split; [|done]. eapply holds_elsewhere; [|exact Hh].
  eapply grows_impl; [|exact G]. intros x A. by apply A.
Qed.

(** A step that writes no key and succeeds leaves them known. *)
Lemma wpu_idle ps n S (m : prog (res handoff_err unit)) v :
  touches (λ _, False) m -> wpu (apart ps) m (λ r _, r = Ok ()) v -> book ps n S v ->
  wpu (apart ps) m (λ r v1, r = Ok () /\ book ps n S v1) v.
Proof.
  intros T W B. eapply wpu_frame; [|exact T|exact W|exact B]. intros v1 v2 G. apply book_grows.
  eapply grows_impl; [|exact G]. by intros x [?|[]].
Qed.

Lemma delay_idle ps d v : touches (λ _, False) (delay d) /\ wpu (apart ps) (delay d) (λ r _, r = Ok ()) v.
Proof.
  unfold delay. case_decide; [|by split; [|intros ? _]]. split; [by split|].
  intros v1 x v2 _ _ F v3 _. cbn in F. by subst.
Qed.

Lemma update_consumer_idle ps w v :
  touches (λ _, False) (update_consumer cfg w ps) /\
  wpu (apart ps) (update_consumer cfg w ps) (λ r _, r = Ok ()) v.
Proof.
  unfold update_consumer. destruct (HasUpdater cfg); [|by split; [|intros ? _]]. split; [by split|].
  intros v1 x v2 _ _ F v3 _. cbn in F. by subst.
Qed.

(** A phase over all partitions of the assignment. *)
Lemma wpu_phase_all ps (T : Z -> Partition -> option Claim -> option Claim) S n v :
  NoDup (ck <$> ps) -> (1 <= n < 2 ^ 62)%Z ->
  (forall now p, timed now (T now p)) -> book ps (n + 1) S v ->
  wpu (apart ps)
    (now ← trigger (Now WallClock);
     group_all ((λ p, updateClaim cfg float_to_int (SubjectKey p) (λ cur, Ok (T now p cur))) <$> ps))
    (λ r v1, r = Ok () /\ exists now, book ps n (λ p, after (T now p) (S p)) v1) v.
Proof.
  intros N Hn HT B. eapply wpu_mono; [eapply (wpu_phase ps ps T S n); naive_solver|].
  intros r v1 (-> & now & _ & B1). split; [done|]. exists now. intros p Hp. specialize (B1 p Hp).
  by rewrite decide_True in B1.
Qed.

(** The partitions [Apply] prepares: those the previous assignment lacks, or all
    of them when the versions are not adjacent. *)
Definition prepared (previous next : Assignment) (p : Partition) : Prop :=
  transitionVersionAdjacent previous next = false \/ HashID p ∉ HashID <$> a_Partitions previous.

Definition preparable (previous next : Assignment) : list Partition :=
  let prev := if transitionVersionAdjacent previous next then previous else zero_assignment in
  filter (λ p, HashID p ∉ HashID <$> a_Partitions prev) (a_Partitions next).

Lemma elem_of_preparable previous next p :
  p ∈ a_Partitions next -> ~ p ∈ preparable previous next -> ~ prepared previous next p.
Proof.
  unfold preparable, prepared. intros Hp N [E|E]; apply N, list_elem_of_filter; (split; [|done]).
  - rewrite E. apply not_elem_of_nil.
  - destruct (transitionVersionAdjacent previous next); [done|apply not_elem_of_nil].
Qed.

Lemma wpu_prepare w previous next S n v :
  let ps := a_Partitions next in
  HasStore cfg = true -> ascii_text w = true -> int64 (ttl_seconds cfg float_to_int) ->
  Forall (λ p, ascii_text (SubjectKey p) = true) ps -> NoDup (ck <$> ps) -> (1 <= n < 2 ^ 62)%Z ->
  w <> "" -> book ps (n + 1) S v -> (forall p, p ∈ ps -> prepared previous next p \/ held w (S p)) ->
  wpu (apart ps)
    (preparePhase cfg float_to_int w (if transitionVersionAdjacent previous next then previous else zero_assignment)
       next)
    (λ r v1, r = Ok () /\ exists S', book ps n S' v1 /\ forall p, p ∈ ps -> held w (S' p) \/
       exists c, S' p = Some c /\ Owner c <> w /\ PendingOwner c = w /\ ClaimState c = ClaimStatePrepare) v.
Proof.
  intros ps St Tw Ts Tp N Hn Nw B Hh. unfold preparePhase. rewrite St. cbn [negb].
  rewrite Forall_forall in Tp. eapply wpu_mono.
  - apply (wpu_phase ps (preparable previous next) (λ now p, prepare_transform cfg float_to_int (SubjectKey p) w now) S n);
      [done|apply sublist_filter|done| |exact B].
    intros now p _ Hp. apply prepare_timed; [|done..]. apply Tp. by apply list_elem_of_filter in Hp as [_ ?].
  - intros r v1 (-> & now & _ & B1). split; [done|]. eexists (λ p, if decide _ then _ else _). split; [exact B1|].
    intros p Hp. cbn. case_decide as D.
    + apply prepare_records; [|done]. destruct (B p Hp) as [_ R]. destruct (S p) as [c|]; [|done].
      destruct R as (? & ? & ?). split_and!; [done|lia|done].
    + destruct (Hh p Hp) as [Pr|]; [|by left]. by destruct (elem_of_preparable _ _ _ Hp D).
Qed.

Lemma ck_NoDup ps : NoDup (SubjectKey <$> ps) -> NoDup (ck <$> ps).
Proof.
  intros N.
  replace (ck <$> ps) with (key <$> (SubjectKey <$> ps)) by by rewrite <-list_fmap_compose.
  apply NoDup_fmap_2; [|done]. intros a b. apply (inj (String.append claimsPref)).
Qed.

(** The claims as a function of the partition. *)
Lemma claims_known (ps : list Partition) (Q : Partition -> option Claim -> Prop) :
  (forall p, p ∈ ps -> exists oc, Q p oc) -> exists S, forall p, p ∈ ps -> Q p (S p).
Proof.
  induction ps as [|p ps IH]; intros E; [exists (λ _, None); by intros p ?%not_elem_of_nil|].
  destruct IH as [S HS]; [by intros q Hq; apply E; right|]. destruct (E p) as [oc Hoc]; [left|].
  exists (λ q, if decide (q = p) then oc else S q). intros q Hq. case_decide as D; [by subst|].
  apply HS. apply elem_of_cons in Hq as [?|?]; done.
Qed.

Lemma wpu_apply_phases guard w previous next S v :
  let ps := a_Partitions next in
  HasStore cfg = true -> w <> "" -> ascii_text w = true -> int64 (ttl_seconds cfg float_to_int) ->
  Forall (λ p, ascii_text (SubjectKey p) = true) ps -> NoDup (ck <$> ps) ->
  book ps 4 S v -> (forall p, p ∈ ps -> prepared previous next p \/ held w (S p)) ->
  touches (λ _, False) guard -> (forall v1, wpu (apart ps) guard (λ r _, r = Ok ()) v1) ->
  wpu (apart ps) (apply_phases cfg float_to_int (Some guard) w previous next)
    (λ r v1, r = Ok () /\ forall p, p ∈ ps -> exists c, holds (ck p) (Some c) v1 /\ settled w c) v.
Proof.
  intros ps St Nw Tw Ts Tp N B Hh Gt Gok. unfold apply_phases.
  eapply wpu_then; [by apply (wpu_prepare w previous next S 3)|]. intros v1 (S1 & B1 & H1').
  eapply wpu_then; [by apply wpu_idle; [apply (delay_idle ps _ v1)..|exact B1]|]. intros v2 B2.
  eapply wpu_then; [by apply wpu_idle; [exact Gt|apply Gok|exact B2]|]. intros v3 B3.
  eapply wpu_then; [by apply wpu_idle; [apply (update_consumer_idle ps w v3)..|exact B3]|]. intros v4 B4.
  unfold commitPhase, stabilizePhase. rewrite St. cbn [negb].
  eapply wpu_then; [apply (wpu_phase_all ps (λ now _, commit_transform w now) S1 2); [done|done|intros; apply commit_timed|exact B4]|].
  intros v5 (n2 & B5).
  eapply wpu_then; [by apply wpu_idle; [apply (delay_idle ps _ v5)..|exact B5]|]. intros v6 B6.
  eapply wpu_mono; [apply (wpu_phase_all ps (λ now _, stable_transform w now) (λ p, after (commit_transform w n2) (S1 p)) 1); [done|done|intros; apply stable_timed|exact B6]|].
  intros r v7 (-> & n3 & B7). split; [done|]. intros p Hp.
  destruct (commit_stable_settles w n2 n3 (S1 p)) as (c & E & Hs); [done| |by apply H1'|].
  { destruct (B4 p Hp) as [_ R]. destruct (S1 p) as [c|]; [|done]. destruct R as (? & ? & ?).
    split_and!; [done|lia|done]. }
  exists c. split; [|done]. rewrite <-E. by apply B7.
Qed.
End claims.

(** ** A concrete run *)

Definition faultless_b {X} (o : op X) : X -> bool :=
  match o in op X return X -> bool with
  | KvGet _ => λ x, match x with Ok _ => true | Err e => Is e JsErrKeyNotFound end
  | KvCreate _ _ | KvUpdate _ _ _ => λ x, match x with Ok _ => true | Err e => Is e JsErrKeyExists end
  | CtxErr | Backoff _ | UpdateConsumer _ _ => λ x, bool_decide (x = None)
  | Now _ => λ t, bool_decide (- 62167219200 * second <= t)%Z && bool_decide (t < 253402300800 * second)%Z
  | _ => λ _, true
  end.

Lemma faultless_b_true {X} (o : op X) x : faultless_b o x = true -> faultless o x.
Proof.
  destruct o; cbn; try done; try (by destruct x); try by intros ?%bool_decide_eq_true.
  intros [A B]%andb_prop. apply bool_decide_eq_true in A, B. done.
Qed.

Fixpoint run_alone (me : nat) {A} (m : prog A) (v : view) : option (A * view) :=
  match m with
  | Ret a => Some (a, v)
  | Vis o k => let '(x, v') := simulate me o v in if faultless_b o x then run_alone me (k x) v' else None
  end.

Lemma run_alone_undisturbed me from {A} (m : prog A) v a v' :
  run_alone me m v = Some (a, v') -> undisturbed me from m v a v'.
Proof.
  revert v. induction m as [b|X o k IH]; intros v; cbn [run_alone].
  - intros [= <- <-]. by constructor.
  - destruct (simulate me o v) as [x v1] eqn:E. destruct (faultless_b o x) eqn:F; [|done]. intros R.
    econstructor; [done|by apply simulate_spec|by apply faultless_b_true|by apply IH].
Qed.

#[local] Instance toy_claim_total : @ClaimWireTotal toy_claim_wire.
Proof. split. intros c _ _. by eexists. Qed.

(** The partition [p] belongs to [a], [q] has no claim. *)
Definition taken_claim : Claim := mkClaim "p" "a" "" ClaimStateStable 1 0 60 0.

Definition taken_view : view :=
  mkView [mkMsg 1 (key "p") 0 (Put (bits_of (encode (claim_fields taken_claim)))) (Some 1)] 0 ∅.

Definition taken_next : Assignment :=
  mkAssignment 3 "" [mkPartition ["p"] 100 ""; mkPartition ["q"] 100 ""] 0 0 false 1 [] false.


Definition taken_apply : prog (res handoff_err unit) :=
  @apply_phases toy_claim_wire toy_xxh3 demo_config demo_float (Some (Ret (Ok ()))) "b" zero_assignment taken_next.

Lemma taken_undisturbed : exists r v', undisturbed 2 (apart (a_Partitions taken_next)) taken_apply taken_view r v'.
Proof.
  assert (bool_decide (is_Some (run_alone 2 taken_apply taken_view)) = true) as B by (vm_compute; reflexivity).
  apply bool_decide_eq_true in B as [[r v'] E]. exists r, v'. by apply run_alone_undisturbed.
Qed.

Lemma taken_claim_wf : roomy 4 (Some taken_claim).
Proof. split_and!; vm_compute; (done || set_solver). Qed.

Lemma taken_worker : "b" <> "" /\ ascii_text "b" = true.
Proof. done. Qed.

Lemma taken_ttl : int64 (ttl_seconds demo_config demo_float).
Proof. by vm_compute. Qed.

Lemma taken_text : Forall (λ p, ascii_text (SubjectKey p) = true) (a_Partitions taken_next).
Proof. repeat constructor. Qed.

Lemma taken_keys : NoDup (SubjectKey <$> a_Partitions taken_next).
Proof. vm_compute. repeat constructor; set_solver. Qed.

Lemma taken_guard v0 (r0 : res handoff_err unit) v1 :
  undisturbed 2 (apart (a_Partitions taken_next)) (Ret (Ok ())) v0 r0 v1 -> r0 = Ok ().
Proof. by inversion 1. Qed.

Lemma taken_claims p : p ∈ a_Partitions taken_next ->
  exists oc, @holds toy_claim_wire (ck p) oc taken_view /\ roomy 4 oc /\ 
    (@prepared toy_xxh3 zero_assignment taken_next p \/ held "b" oc).
Proof.
  intros Hp. assert (@prepared toy_xxh3 zero_assignment taken_next p) as Pr by (left; vm_compute; reflexivity).
  repeat (apply elem_of_cons in Hp as [->|Hp]); [| |by apply not_elem_of_nil in Hp].
  - exists (Some taken_claim). split_and!; [|apply taken_claim_wf|by left].
    eexists. split_and!; [vm_compute; reflexivity| |done].
    eexists. split; [reflexivity|]. vm_compute. reflexivity.
  - exists None. split_and!; [vm_compute; reflexivity|done|by left].
Qed.

