(* ===== verification/Dispatcher.v ===== *)
(** * Per-key dispatch of messages (internal/ipartition/key_dispatcher.go)

    The dispatcher gives every routing key a goroutine with a buffered channel.
    Calls of [Dispatch] and [Close], the goroutines of the keys and the
    read-write lock between them are modelled step by step, so every
    interleaving is an execution. A history records what was sent to a channel
    and what the handler was called with. *)
From S2P Require Import Prelude.

(** What a goroutine can be woken by, or the answers of the handler. *)
Inductive choice := CMessage | CTimer | CDone | CAnswer (handleErr ackErr : bool).

Section dispatcher.
Context {M : Type} `{EqDecision M} (keyExtractor : M -> string).

(** ** State *)

Inductive event :=
| EvSent (m : M)
| EvHandle (m : M)
| EvAck (m : M)
| EvNak (m : M)
| EvOnAck (m : M)
| EvReturn (m : M).

(** Where the goroutine of a key is: in its select; in the handler; deciding to
    exit; draining; in the deferred cleanup; gone. *)
Inductive worker_pc :=
| WSelect
| WHandle (m : M) (draining : bool)
| WIdleLock | WIdleCheck | WIdleDelete | WIdleUnlock (exit : bool) | WCloseCh
| WDrain
| WRemoveLock | WRemove | WRemoveUnlock | WCloseDone
| WExited.

Record keyWorker := mkWorker {
  worker_key : string;
  msgCh : list M;
  closeCh : bool;
  done : bool;
  pc : worker_pc;
}.

(** Where a call is. *)
Inductive call_pc :=
| DRLock (m : M) | DLookup (m : M) | DSend (m : M) (w : nat)
| DRUnlockSent (m : M) | DRUnlockFull (m : M) (w : nat) | DRUnlockMissing (m : M)
| DLock (m : M) | DCheck (m : M) | DMake (m : M) | DUnlock (m : M) (created : bool)
| DWait (m : M) (w : nat) | DWaitDone (m : M) (w : nat)
| DReturn (m : M) (ok : bool)
| COnce | CCancel | CWait | CReturn.

Record config := mkConfig {
  channelBuf : Z;
  manualAck : bool;
  hasOnAck : bool;
}.

(** [readers], [writer]: the lock [mu]; a worker is named by its place in
    [pool]. [once] is [closeOnce]: idle, running, done. *)
Record keyDispatcher := mkDispatcher {
  readers : nat;
  writer : bool;
  workers : gmap string nat;
  pool : list keyWorker;
  ctx_done : bool;
  once : option bool;
  history : list event;
}.

Definition newKeyDispatcher : keyDispatcher := mkDispatcher 0 false ∅ [] false None [].

Context (cfg : config).

Definition capacity : nat := Z.to_nat (if decide (channelBuf cfg <= 0)%Z then 32 else channelBuf cfg).

Definition set_lock (r : nat) (w : bool) (s : keyDispatcher) : keyDispatcher :=
  mkDispatcher r w (workers s) (pool s) (ctx_done s) (once s) (history s).
Definition set_workers (ws : gmap string nat) (s : keyDispatcher) : keyDispatcher :=
  mkDispatcher (readers s) (writer s) ws (pool s) (ctx_done s) (once s) (history s).
Definition set_pool (p : list keyWorker) (s : keyDispatcher) : keyDispatcher :=
  mkDispatcher (readers s) (writer s) (workers s) p (ctx_done s) (once s) (history s).
Definition set_close (d : bool) (o : option bool) (s : keyDispatcher) : keyDispatcher :=
  mkDispatcher (readers s) (writer s) (workers s) (pool s) d o (history s).
Definition record (evs : list event) (s : keyDispatcher) : keyDispatcher :=
  mkDispatcher (readers s) (writer s) (workers s) (pool s) (ctx_done s) (once s) (history s ++ evs).

Definition at_pc (p : worker_pc) (x : keyWorker) : keyWorker := mkWorker (worker_key x) (msgCh x) (closeCh x) (done x) p.
Definition with_queue (q : list M) (x : keyWorker) : keyWorker := mkWorker (worker_key x) q (closeCh x) (done x) (pc x).

(** ** The lock *)

Definition rlock (s : keyDispatcher) : option keyDispatcher :=
  if writer s then None else Some (set_lock (S (readers s)) false s).
Definition runlock (s : keyDispatcher) : keyDispatcher := set_lock (pred (readers s)) (writer s) s.
Definition lock (s : keyDispatcher) : option keyDispatcher :=
  if writer s then None else if decide (readers s = 0) then Some (set_lock 0 true s) else None.
Definition unlock (s : keyDispatcher) : keyDispatcher := set_lock (readers s) false s.

(** ** Calls *)

Definition Dispatch (c : choice) (p : call_pc) (s : keyDispatcher) : option (keyDispatcher * call_pc) :=
  match p with
  | DRLock m => s' ← rlock s; Some (s', DLookup m)
  | DLookup m =>
      Some (s, match workers s !! keyExtractor m with Some w => DSend m w | None => DRUnlockMissing m end)
  | DSend m w =>
      x ← pool s !! w;
      if decide (length (msgCh x) < capacity) then
        Some (record [EvSent m] (set_pool (<[w := with_queue (msgCh x ++ [m]) x]> (pool s)) s), DRUnlockSent m)
      else Some (s, DRUnlockFull m w)
  | DRUnlockSent m => Some (runlock s, DReturn m true)
  | DRUnlockMissing m => Some (runlock s, DLock m)
  | DRUnlockFull m w => Some (runlock s, DWait m w)
  | DWait m w =>
      match c with
      | CMessage => x ← pool s !! w; if closeCh x then Some (s, DWaitDone m w) else None
      | CDone => if ctx_done s then Some (s, DReturn m false) else None
      | CTimer => Some (s, DRLock m)
      | _ => None
      end
  | DWaitDone m w =>
      match c with
      | CMessage => x ← pool s !! w; if done x then Some (s, DRLock m) else None
      | CDone => if ctx_done s then Some (s, DReturn m false) else None
      | _ => None
      end
  | _ => None
  end.

Definition new_worker (k : string) : keyWorker := mkWorker k [] false false WSelect.

Definition getOrCreateWorker (p : call_pc) (s : keyDispatcher) : option (keyDispatcher * call_pc) :=
  match p with
  | DLock m => s' ← lock s; Some (s', DCheck m)
  | DCheck m =>
      Some (s, match workers s !! keyExtractor m with
               | Some _ => DUnlock m true
               | None => if ctx_done s then DUnlock m false else DMake m
               end)
  | DMake m =>
      let k := keyExtractor m in
      Some (set_workers (<[k := length (pool s)]> (workers s)) (set_pool (pool s ++ [new_worker k]) s), DUnlock m true)
  | DUnlock m created => Some (unlock s, if created : bool then DRLock m else DReturn m false)
  | _ => None
  end.

(** [wg.Wait] returns once every goroutine called [wg.Done]. *)
Definition all_exited (s : keyDispatcher) : bool :=
  forallb (λ x, match pc x with WExited => true | _ => false end) (pool s).

Definition Close (c : choice) (p : call_pc) (s : keyDispatcher) : option (keyDispatcher * call_pc) :=
  match p with
  | COnce =>
      match once s with
      | None => Some (set_close (ctx_done s) (Some false) s, CCancel)
      | Some false => None
      | Some true => Some (s, CReturn)
      end
  | CCancel => Some (set_close true (once s) s, CWait)
  | CWait =>
      match c with
      | CMessage => if all_exited s then Some (set_close (ctx_done s) (Some true) s, CReturn) else None
      | CDone => Some (set_close (ctx_done s) (Some true) s, CReturn)
      | _ => None
      end
  | _ => None
  end.

Definition exec_call (c : choice) (p : call_pc) (s : keyDispatcher) : option (keyDispatcher * call_pc) :=
  match p with
  | DLock _ | DCheck _ | DMake _ | DUnlock _ _ => getOrCreateWorker p s
  | COnce | CCancel | CWait => Close c p s
  | _ => Dispatch c p s
  end.

(** ** The goroutine of a key *)

Definition processMessage (handleErr ackErr : bool) (m : M) : list event :=
  if manualAck cfg then []
  else if handleErr then [EvNak m]
  else EvAck m :: (if negb ackErr && hasOnAck cfg then [EvOnAck m] else []).

Definition put (w : nat) (x : keyWorker) (s : keyDispatcher) : keyDispatcher := set_pool (<[w := x]> (pool s)) s.

(** A receive from the channel. *)
Definition receive (w : nat) (x : keyWorker) (draining : bool) (s : keyDispatcher) : option keyDispatcher :=
  match msgCh x with
  | m :: q => Some (record [EvHandle m] (put w (at_pc (WHandle m draining) (with_queue q x)) s))
  | [] => None
  end.

Definition drainWorker (w : nat) (x : keyWorker) (s : keyDispatcher) : option keyDispatcher :=
  match msgCh x with
  | [] => Some (put w (at_pc WRemoveLock x) s)
  | _ => receive w x true s
  end.

Definition removeWorker (w : nat) (x : keyWorker) (s : keyDispatcher) : option keyDispatcher :=
  match pc x with
  | WRemoveLock => s' ← lock s; Some (put w (at_pc WRemove x) s')
  | WRemove =>
      let s' := if decide (workers s !! worker_key x = Some w) then set_workers (delete (worker_key x) (workers s)) s else s in
      Some (put w (at_pc WRemoveUnlock x) s')
  | WRemoveUnlock => Some (put w (at_pc WCloseDone x) (unlock s))
  | _ => None
  end.

Definition runWorker (c : choice) (w : nat) (s : keyDispatcher) : option keyDispatcher :=
  x ← pool s !! w;
  match pc x with
  | WSelect =>
      match c with
      | CMessage => receive w x false s
      | CTimer => Some (put w (at_pc WIdleLock x) s)
      | CDone => if ctx_done s then Some (put w (at_pc WDrain x) s) else None
      | _ => None
      end
  | WHandle m draining =>
      match c with
      | CAnswer handleErr ackErr =>
          Some (record (processMessage handleErr ackErr m ++ [EvReturn m])
            (put w (at_pc (if draining then WDrain else WSelect) x) s))
      | _ => None
      end
  | WIdleLock => s' ← lock s; Some (put w (at_pc WIdleCheck x) s')
  | WIdleCheck => Some (put w (at_pc (if decide (msgCh x = []) then WIdleDelete else WIdleUnlock false) x) s)
  | WIdleDelete => Some (put w (at_pc (WIdleUnlock true) x) (set_workers (delete (worker_key x) (workers s)) s))
  | WIdleUnlock exit => Some (put w (at_pc (if exit : bool then WCloseCh else WSelect) x) (unlock s))
  | WCloseCh => Some (put w (mkWorker (worker_key x) (msgCh x) true (done x) WRemoveLock) s)
  | WDrain => drainWorker w x s
  | WCloseDone => Some (put w (mkWorker (worker_key x) (msgCh x) (closeCh x) true WExited) s)
  | WExited => None
  | _ => removeWorker w x s
  end.

Definition ActiveKeys (s : keyDispatcher) : nat := size (workers s).

(** ** Executions *)

Definition sys := (keyDispatcher * list call_pc)%type.

Inductive sys_step : sys -> sys -> Prop :=
| step_dispatch s ts m : sys_step (s, ts) (s, ts ++ [DRLock m])
| step_close s ts : sys_step (s, ts) (s, ts ++ [COnce])
| step_call c s ts1 p ts2 s' p' :
    exec_call c p s = Some (s', p') -> sys_step (s, ts1 ++ p :: ts2) (s', ts1 ++ p' :: ts2)
| step_worker c w s ts s' : runWorker c w s = Some s' -> sys_step (s, ts) (s', ts).

Definition reachable (s : keyDispatcher) (ts : list call_pc) : Prop :=
  rtc sys_step (newKeyDispatcher, []) (s, ts).

(** ** What the history says of a key *)

Definition sent (k : string) (h : list event) : list M :=
  omap (λ e, match e with EvSent m => if decide (keyExtractor m = k) then Some m else None | _ => None end) h.
Definition handled (k : string) (h : list event) : list M :=
  omap (λ e, match e with EvHandle m => if decide (keyExtractor m = k) then Some m else None | _ => None end) h.

(** The messages in the channels of a key. *)
Definition waiting (k : string) (p : list keyWorker) : list M :=
  p ≫= λ x, if decide (worker_key x = k) then msgCh x else [].

(** The message the handler of key [k] works on; [None] when two calls overlap
    or a message is acknowledged outside its call. *)
Definition bracket_step (k : string) (st : option (option M)) (e : event) : option (option M) :=
  match e with
  | EvSent _ => st
  | EvHandle m =>
      if decide (keyExtractor m = k) then match st with Some None => Some (Some m) | _ => None end else st
  | EvAck m | EvNak m | EvOnAck m =>
      if decide (keyExtractor m = k) then
        match st with Some (Some m') => if decide (m' = m) then st else None | _ => None end else st
  | EvReturn m =>
      if decide (keyExtractor m = k) then
        match st with Some (Some m') => if decide (m' = m) then Some None else None | _ => None end else st
  end.

Definition handling (k : string) (h : list event) : option (option M) := foldl (bracket_step k) (Some None) h.

(** ** The lock excludes *)

Definition in_read (p : call_pc) : bool :=
  match p with DLookup _ | DSend _ _ | DRUnlockSent _ | DRUnlockFull _ _ | DRUnlockMissing _ => true | _ => false end.
Definition in_write (p : call_pc) : bool :=
  match p with DCheck _ | DMake _ | DUnlock _ _ => true | _ => false end.
Definition worker_writes (x : keyWorker) : bool :=
  match pc x with WIdleCheck | WIdleDelete | WIdleUnlock _ | WRemove | WRemoveUnlock => true | _ => false end.

Definition lock_ok (s : keyDispatcher) (ts : list call_pc) : Prop :=
  readers s = count in_read ts /\
  (if writer s then 1 else 0) = count in_write ts + count worker_writes (pool s) /\
  (writer s = true -> readers s = 0).

(** ** Workers and their channels *)

(** A worker the map names, and one it does not. *)
Definition registered_ok (s : keyDispatcher) (x : keyWorker) : Prop :=
  match pc x with
  | WSelect | WHandle _ false | WIdleLock | WIdleCheck | WIdleUnlock false => True
  | WIdleDelete => msgCh x = []
  | WDrain | WHandle _ true | WRemoveLock | WRemove => ctx_done s = true
  | _ => False
  end.

Definition unregistered_ok (s : keyDispatcher) (x : keyWorker) : Prop :=
  match pc x with
  | WIdleUnlock true | WCloseCh | WRemoveLock | WRemove => msgCh x = []
  | WRemoveUnlock | WCloseDone | WExited =>
      msgCh x = [] \/ (ctx_done s = true /\ workers s !! worker_key x = None)
  | _ => False
  end.

Definition worker_ok (s : keyDispatcher) (w : nat) (x : keyWorker) : Prop :=
  if decide (workers s !! worker_key x = Some w) then registered_ok s x else unregistered_ok s x.

Definition call_ok (s : keyDispatcher) (p : call_pc) : Prop :=
  match p with
  | DSend m w => workers s !! keyExtractor m = Some w
  | DMake m => workers s !! keyExtractor m = None /\
      forall w x, pool s !! w = Some x -> worker_key x = keyExtractor m -> msgCh x = []
  | _ => True
  end.

(** The message a key's registered goroutine is in the handler with. *)
Definition current (k : string) (s : keyDispatcher) : option M :=
  match workers s !! k ≫= λ w, pool s !! w with
  | Some x => match pc x with WHandle m _ => Some m | _ => None end
  | None => None
  end.

Record channels_ok (s : keyDispatcher) (ts : list call_pc) : Prop := {
  ok_map k w : workers s !! k = Some w -> exists x, pool s !! w = Some x /\ worker_key x = k;
  ok_pool w x : pool s !! w = Some x -> worker_ok s w x;
  ok_calls p : p ∈ ts -> call_ok s p;
  ok_handled w x m b : pool s !! w = Some x -> pc x = WHandle m b -> keyExtractor m = worker_key x;
  ok_queued w x m : pool s !! w = Some x -> m ∈ msgCh x -> keyExtractor m = worker_key x;
  ok_bound w x : pool s !! w = Some x -> length (msgCh x) <= capacity;
  ok_sent k : sent k (history s) = handled k (history s) ++ waiting k (pool s);
  ok_bracket k : handling k (history s) = Some (current k s);
}.

(** *** Channels of a key *)

Lemma waiting_cons k x p : waiting k (x :: p) = (if decide (worker_key x = k) then msgCh x else []) ++ waiting k p.
Proof. done. Qed.

Lemma waiting_app k p p' : waiting k (p ++ p') = waiting k p ++ waiting k p'.
Proof. apply bind_app. Qed.

Lemma waiting_none k p :
  (forall w x, p !! w = Some x -> worker_key x = k -> msgCh x = []) -> waiting k p = [].
Proof.
  induction p as [|x p IH]; intros E; [done|]. rewrite waiting_cons, IH by (intros w; apply (E (S w))).
  rewrite app_nil_r. case_decide; [|done]. by apply (E 0).
Qed.

(** Only one channel of the key holds messages. *)
Lemma waiting_one k p w x :
  p !! w = Some x -> worker_key x = k ->
  (forall w' x', p !! w' = Some x' -> w' <> w -> worker_key x' = k -> msgCh x' = []) -> waiting k p = msgCh x.
Proof.
  revert w. induction p as [|y p IH]; intros [|w] Hx K E; [done..| |]; cbn in Hx; rewrite waiting_cons.
  - injection Hx as ->. rewrite decide_True by done. rewrite waiting_none; [apply app_nil_r|].
    intros w x' Hx'. by apply (E (S w)).
  - rewrite (IH w Hx K). 2: { intros w' x' Hx' Ne. apply (E (S w') x' Hx'). lia. }
    case_decide as D; [|done]. by rewrite (E 0 y).
Qed.

Lemma waiting_same k p w x x' :
  p !! w = Some x -> worker_key x' = worker_key x -> msgCh x' = msgCh x -> waiting k (<[w := x']> p) = waiting k p.
Proof.
  revert w. induction p as [|y p IH]; intros [|w] Hx K Q; [done..| |]; cbn in Hx.
  - injection Hx as ->. cbn [insert list_insert]. by rewrite !waiting_cons, K, Q.
  - cbn [insert list_insert]. by rewrite !waiting_cons, IH.
Qed.

Lemma count_insert (f : keyWorker -> bool) p w x x' :
  p !! w = Some x -> count f (<[w := x']> p) + (if f x then 1 else 0) = count f p + (if f x' then 1 else 0).
Proof.
  intros Hx. rewrite <-(take_drop_middle p w x Hx) at 2. rewrite insert_take_drop by by eapply lookup_lt_Some.
  rewrite !count_middle. lia.
Qed.

Lemma count_put p w x x' :
  p !! w = Some x -> worker_writes x' = worker_writes x -> count worker_writes (<[w := x']> p) = count worker_writes p.
Proof. intros Hx E. pose proof (count_insert worker_writes p w x x' Hx) as C. rewrite E in C. lia. Qed.

(** *** The lock *)

Lemma lock_inv s s' : lock s = Some s' -> s' = set_lock 0 true s /\ writer s = false /\ readers s = 0.
Proof. unfold lock. destruct (writer s); [done|]. case_decide; [|done]. by intros [= <-]. Qed.

Lemma rlock_inv s s' : rlock s = Some s' -> s' = set_lock (S (readers s)) false s /\ writer s = false.
Proof. unfold rlock. destruct (writer s); [done|]. by intros [= <-]. Qed.

Ltac inv_lock :=
  repeat match goal with
  | H : lock _ = Some _ |- _ => apply lock_inv in H as (-> & ? & ?)
  | H : rlock _ = Some _ |- _ => apply rlock_inv in H as (-> & ?)
  end.

Lemma lock_call c s ts1 p ts2 s' p' :
  lock_ok s (ts1 ++ p :: ts2) -> exec_call c p s = Some (s', p') -> lock_ok s' (ts1 ++ p' :: ts2).
Proof.
  unfold lock_ok. intros (R & W & X) E.
  rewrite !count_middle in R. rewrite !count_middle in W. rewrite !count_middle.
  destruct p; cbn [exec_call Dispatch getOrCreateWorker Close] in E; simplify_option_eq; inv_lock;
    repeat (case_match; simplify_option_eq; inv_lock); cbn in *;
    rewrite ?(count_app worker_writes); try (split_and!; [lia|lia|]); try done; try (intros; lia).
  - rewrite (count_put _ _ _ _ Heqo); [|done]. by split_and!.
  - split_and!; [done| |by apply X]. rewrite count_cons. unfold count at 3. cbn. lia.
Qed.

Lemma lock_worker c w s ts s' : lock_ok s ts -> runWorker c w s = Some s' -> lock_ok s' ts.
Proof.
  unfold lock_ok, runWorker. intros (R & W & X) E. destruct (pool s !! w) as [x|] eqn:Hx; [|done]. cbn in E.
  pose proof (λ x', count_insert worker_writes (pool s) w x x' Hx) as C. unfold worker_writes in C at 2 4.
  unfold removeWorker, drainWorker, receive in E.
  destruct (pc x) eqn:P; repeat (case_match; simplify_option_eq; inv_lock); cbn in *;
    match goal with |- context [<[w := ?x']> _] => specialize (C x') end; cbn in C; split_and!; (lia || congruence || by intros).
Qed.

(** What the lock rules out. *)
Lemma read_excludes s ts p w x :
  lock_ok s ts -> p ∈ ts -> in_read p = true -> pool s !! w = Some x -> worker_writes x = false.
Proof.
  intros (R & W & X) Hp Rd Hx. destruct (worker_writes x) eqn:E; [|done].
  assert (0 < count in_read ts) by (apply has_count; by exists p).
  assert (0 < count worker_writes (pool s)) by (apply has_count; exists x; split; [by eapply list_elem_of_lookup_2|done]).
  destruct (writer s); [|lia]. rewrite X in R by done. lia.
Qed.

Lemma worker_excludes s ts w x p :
  lock_ok s ts -> pool s !! w = Some x -> worker_writes x = true -> p ∈ ts -> in_read p = false /\ in_write p = false.
Proof.
  intros L Hx Wx Hp. split.
  - destruct (in_read p) eqn:E; [|done]. rewrite (read_excludes s ts p w x) in Wx; done.
  - destruct (in_write p) eqn:E; [|done]. destruct L as (_ & W & _).
    assert (0 < count in_write ts) by (apply has_count; by exists p).
    assert (0 < count worker_writes (pool s)) by (apply has_count; exists x; split; [by eapply list_elem_of_lookup_2|done]).
    destruct (writer s); lia.
Qed.

Lemma write_excludes s ts1 p ts2 q :
  lock_ok s (ts1 ++ p :: ts2) -> in_write p = true -> q ∈ ts1 ++ ts2 -> in_read q = false /\ in_write q = false.
Proof.
  intros (R & W & X) Wp Hq. rewrite count_middle in R, W. rewrite Wp in W.
  destruct (writer s); [|lia]. rewrite X in R by done. split.
  - destruct (in_read q) eqn:E; [|done]. assert (0 < count in_read (ts1 ++ ts2)) by (apply has_count; by exists q). lia.
  - destruct (in_write q) eqn:E; [|done]. assert (0 < count in_write (ts1 ++ ts2)) by (apply has_count; by exists q). lia.
Qed.

(** The channels of a key other than the registered one are empty. *)
Lemma other_empty s ts k w w' x' :
  channels_ok s ts -> workers s !! k = Some w -> pool s !! w' = Some x' -> w' <> w -> worker_key x' = k -> msgCh x' = [].
Proof.
  intros O Hk Hx' Ne K. pose proof (ok_pool _ _ O _ _ Hx') as P. unfold worker_ok in P.
  rewrite decide_False in P by (rewrite K, Hk; congruence). unfold unregistered_ok in P.
  destruct (pc x') as [| | | | |[]| | | | | | |]; try done; destruct P as [?|[_ N]]; try done;
    by rewrite K, Hk in N.
Qed.

Lemma waiting_registered s ts k w x :
  channels_ok s ts -> workers s !! k = Some w -> pool s !! w = Some x -> worker_key x = k -> waiting k (pool s) = msgCh x.
Proof. intros O Hk Hx K. apply (waiting_one k (pool s) w x Hx K). intros. by eapply other_empty. Qed.

(** *** Steps that only move a goroutine *)

Lemma channels_call s ts1 p ts2 p' :
  channels_ok s (ts1 ++ p :: ts2) -> call_ok s p' -> channels_ok s (ts1 ++ p' :: ts2).
Proof.
  intros O Hp'. split; try apply O. intros q Hq. apply elem_of_app in Hq as [Hq|[->|Hq]%elem_of_cons]; [|done|];
    apply (ok_calls _ _ O); set_solver.
Qed.

(** A worker at another place: its key and channel stay. *)
Lemma current_move s w x x' k :
  pool s !! w = Some x -> worker_key x' = worker_key x ->
  (workers s !! worker_key x = Some w -> (forall m b, pc x <> WHandle m b) /\ (forall m b, pc x' <> WHandle m b)) ->
  (forall k w, workers s !! k = Some w -> exists x, pool s !! w = Some x /\ worker_key x = k) ->
  current k (put w x' s) = current k s.
Proof.
  intros Hx K Hm Map. unfold current. cbn. destruct (workers s !! k) as [w'|] eqn:Hk; [|done]. cbn.
  destruct (decide (w' = w)) as [->|Ne]; [|by rewrite list_lookup_insert_ne by done].
  rewrite list_lookup_insert_eq by by eapply lookup_lt_Some. rewrite Hx.
  destruct (Map k w Hk) as (y & Hy & Ky). assert (y = x) as -> by congruence.
  destruct Hm as [A B]; [by rewrite Ky|]. destruct (pc x') eqn:E'; try (by destruct (B m draining));
    destruct (pc x) eqn:E; try done; by destruct (A m draining).
Qed.

Lemma put_lookup s w x x' w' y : pool s !! w = Some x ->
  <[w := x']> (pool s) !! w' = Some y -> (w' = w /\ y = x') \/ (w' <> w /\ pool s !! w' = Some y).
Proof.
  intros Hx Hy. destruct (decide (w' = w)) as [->|Ne].
  - rewrite list_lookup_insert_eq in Hy by by eapply lookup_lt_Some. left. by simplify_eq.
  - rewrite list_lookup_insert_ne in Hy by done. by right.
Qed.

(** *** Replacing one worker *)

Lemma channels_put evs w x x' s ts :
  channels_ok s ts -> pool s !! w = Some x -> worker_key x' = worker_key x -> worker_ok s w x' ->
  (forall m b, pc x' = WHandle m b -> keyExtractor m = worker_key x) ->
  (forall m, m ∈ msgCh x' -> keyExtractor m = worker_key x) -> length (msgCh x') <= capacity ->
  workers s !! worker_key x = Some w \/ msgCh x' = msgCh x ->
  (forall k, sent k (history s ++ evs) = handled k (history s ++ evs) ++ waiting k (<[w := x']> (pool s))) ->
  (forall k, handling k (history s ++ evs) = Some (current k (put w x' s))) ->
  channels_ok (record evs (put w x' s)) ts.
Proof.
  intros O Hx K Ok Hh Hq Hb Q Hs Hc.
  split; cbn; [..|exact Hs|exact Hc].
  - intros k w' Hk. destruct (ok_map _ _ O k w' Hk) as (y & Hy & Ky). destruct (decide (w' = w)) as [->|Ne].
    + exists x'. rewrite list_lookup_insert_eq by by eapply lookup_lt_Some. split; [done|congruence].
    + exists y. by rewrite list_lookup_insert_ne.
  - intros w' y [ [-> ->]|[Ne Hy] ]%(put_lookup _ _ _ _ _ _ Hx); [done|]. apply (ok_pool _ _ O w' y Hy).
  - intros q Hq'. pose proof (ok_calls _ _ O q Hq') as C. destruct q; try done. destruct C as [N C]. split; [done|].
    intros w' y [ [-> ->]|[Ne Hy] ]%(put_lookup _ _ _ _ _ _ Hx) Ky; [|by eapply C].
    destruct Q as [R| ->]; [|apply (C w x Hx); congruence]. rewrite K in Ky. congruence.
  - intros w' y m b [ [-> ->]|[Ne Hy] ]%(put_lookup _ _ _ _ _ _ Hx); [rewrite K; apply Hh|by eapply ok_handled].
  - intros w' y m [ [-> ->]|[Ne Hy] ]%(put_lookup _ _ _ _ _ _ Hx); [rewrite K; apply Hq|by eapply ok_queued].
  - intros w' y [ [-> ->]|[Ne Hy] ]%(put_lookup _ _ _ _ _ _ Hx); [done|by eapply ok_bound].
Qed.

Lemma record_nil s : record [] s = s.
Proof. destruct s. unfold record. cbn. by rewrite app_nil_r. Qed.

Lemma channels_move w x x' s ts :
  channels_ok s ts -> pool s !! w = Some x -> worker_key x' = worker_key x -> msgCh x' = msgCh x -> worker_ok s w x' ->
  (forall m b, pc x <> WHandle m b) -> (forall m b, pc x' <> WHandle m b) ->
  channels_ok (put w x' s) ts.
Proof.
  intros O Hx K Q Ok P P'. rewrite <-(record_nil (put w x' s)). eapply channels_put; try done.
  - intros m b E. by destruct (P' m b).
  - intros m. rewrite Q. by eapply ok_queued.
  - rewrite Q. by eapply ok_bound.
  - by right.
  - intros k. rewrite app_nil_r, (waiting_same k _ w x x') by done. apply O.
  - intros k. rewrite app_nil_r, (current_move s w x x') by (try done; apply O). apply O.
Qed.

(** *** Histories *)

Lemma sent_app k h h' : sent k (h ++ h') = sent k h ++ sent k h'.
Proof. apply omap_app. Qed.

Lemma handled_app k h h' : handled k (h ++ h') = handled k h ++ handled k h'.
Proof. apply omap_app. Qed.

Lemma handling_app k h evs : handling k (h ++ evs) = foldl (bracket_step k) (handling k h) evs.
Proof. apply foldl_app. Qed.

Lemma waiting_put_other k s w x x' :
  pool s !! w = Some x -> worker_key x' = worker_key x -> worker_key x <> k ->
  waiting k (<[w := x']> (pool s)) = waiting k (pool s).
Proof.
  intros Hx K Ne. revert w Hx. generalize (pool s) as p. induction p as [|y p IH]; intros [|w] Hx; [done..| |]; cbn in Hx.
  - injection Hx as ->. cbn [insert list_insert]. rewrite !waiting_cons. by rewrite !decide_False by congruence.
  - cbn [insert list_insert]. rewrite !waiting_cons. by rewrite IH.
Qed.

Lemma waiting_put s ts w x x' :
  channels_ok s ts -> workers s !! worker_key x = Some w -> pool s !! w = Some x -> worker_key x' = worker_key x ->
  waiting (worker_key x) (<[w := x']> (pool s)) = msgCh x'.
Proof.
  intros O R Hx K. apply (waiting_one _ _ w).
  - apply list_lookup_insert_eq. by eapply lookup_lt_Some.
  - done.
  - intros w' y [ [-> ->]|[Ne Hy] ]%(put_lookup _ _ _ _ _ _ Hx) Ne' Ky; [done|]. by eapply other_empty.
Qed.

Lemma current_put s ts w x x' k :
  channels_ok s ts -> workers s !! worker_key x = Some w -> pool s !! w = Some x -> worker_key x' = worker_key x ->
  current k (put w x' s) =
    if decide (worker_key x = k) then match pc x' with WHandle m _ => Some m | _ => None end else current k s.
Proof.
  intros O R Hx K. unfold current. cbn. case_decide as D.
  - subst k. rewrite R. cbn. by rewrite list_lookup_insert_eq by by eapply lookup_lt_Some.
  - destruct (workers s !! k) as [w'|] eqn:Hk; [|done]. cbn. rewrite list_lookup_insert_ne; [done|].
    intros <-. destruct (ok_map _ _ O k w Hk) as (y & Hy & Ky). congruence.
Qed.

(** *** Receiving, finishing, sending *)

Lemma registered s ts w x :
  channels_ok s ts -> pool s !! w = Some x ->
  match pc x with WSelect | WHandle _ _ | WDrain | WIdleDelete => True | _ => False end ->
  workers s !! worker_key x = Some w.
Proof.
  intros O Hx P. pose proof (ok_pool _ _ O w x Hx) as Ok. unfold worker_ok in Ok. case_decide; [done|].
  unfold unregistered_ok in Ok. by destruct (pc x).
Qed.

Lemma current_registered s w x :
  workers s !! worker_key x = Some w -> pool s !! w = Some x ->
  current (worker_key x) s = match pc x with WHandle m _ => Some m | _ => None end.
Proof. intros R Hx. unfold current. rewrite R. cbn. by rewrite Hx. Qed.

Lemma channels_receive s ts w x m q draining :
  channels_ok s ts -> pool s !! w = Some x -> msgCh x = m :: q ->
  (pc x = WSelect /\ draining = false) \/ (pc x = WDrain /\ draining = true) ->
  channels_ok (record [EvHandle m] (put w (at_pc (WHandle m draining) (with_queue q x)) s)) ts.
Proof.
  intros O Hx Q P. assert (workers s !! worker_key x = Some w) as R.
  { eapply registered; [done..|]. by destruct P as [[-> _]|[-> _]]. }
  assert (keyExtractor m = worker_key x) as Km. { eapply (ok_queued _ _ O); [done|]. rewrite Q. left. }
  pose proof (ok_bound _ _ O w x Hx) as B. rewrite Q in B. cbn in B.
  eapply channels_put; [exact O|exact Hx|done|..].
  - pose proof (ok_pool _ _ O w x Hx) as Ok. unfold worker_ok in *. cbn. rewrite decide_True in Ok |- * by done.
    unfold registered_ok in *. cbn. by destruct P as [[E ->]|[E ->]]; rewrite E in Ok.
  - by intros m' b [= <- _].
  - cbn. intros m' Hm. eapply (ok_queued _ _ O w x); [done|]. rewrite Q. by right.
  - cbn. lia.
  - by left.
  - intros k. rewrite sent_app, handled_app, (ok_sent _ _ O k), app_nil_r. rewrite <-app_assoc. f_equal. cbn.
    destruct (decide (worker_key x = k)) as [<-|Ne].
    + rewrite (waiting_registered s ts _ w x), (waiting_put s ts w x) by done. by rewrite decide_True, Q.
    + rewrite (waiting_put_other k s w x) by done. by rewrite decide_False by congruence.
  - intros k. rewrite handling_app, (ok_bracket _ _ O k). cbn [foldl bracket_step].
    rewrite (current_put s ts w x _ k O R Hx) by done. cbn [worker_key at_pc with_queue pc].
    destruct (decide (worker_key x = k)) as [<-|Ne].
    + rewrite decide_True by done. rewrite (current_registered s w x R Hx). by destruct P as [[-> _]|[-> _]].
    + by rewrite decide_False by congruence.
Qed.

Lemma processMessage_events a b m k (st : option (option M)) :
  foldl (bracket_step k) (if decide (keyExtractor m = k) then Some (Some m) else st)
    (processMessage a b m ++ [EvReturn m]) = if decide (keyExtractor m = k) then Some None else st.
Proof.
  unfold processMessage. destruct (manualAck cfg), a, (negb b && hasOnAck cfg); cbn [foldl app bracket_step];
    repeat (case_decide; [|try done]); done.
Qed.

Lemma processMessage_quiet a b m k :
  sent k (processMessage a b m ++ [EvReturn m]) = [] /\ handled k (processMessage a b m ++ [EvReturn m]) = [].
Proof. unfold processMessage. by destruct (manualAck cfg), a, (negb b && hasOnAck cfg). Qed.

Lemma channels_finish s ts w x m draining a b :
  channels_ok s ts -> pool s !! w = Some x -> pc x = WHandle m draining ->
  channels_ok (record (processMessage a b m ++ [EvReturn m])
    (put w (at_pc (if draining then WDrain else WSelect) x) s)) ts.
Proof.
  intros O Hx P. assert (workers s !! worker_key x = Some w) as R. { eapply registered; [done..|]. by rewrite P. }
  pose proof (ok_handled _ _ O w x m draining Hx P) as Km.
  eapply channels_put; [exact O|exact Hx|done|..].
  - pose proof (ok_pool _ _ O w x Hx) as Ok. unfold worker_ok in *. cbn. rewrite decide_True in Ok |- * by done.
    unfold registered_ok in *. rewrite P in Ok. cbn. by destruct draining.
  - intros m' b'. cbn. by destruct draining.
  - intros m'. by eapply (ok_queued _ _ O w x).
  - exact (ok_bound _ _ O w x Hx).
  - by left.
  - intros k. destruct (processMessage_quiet a b m k) as [E1 E2].
    rewrite sent_app, handled_app, E1, E2, !app_nil_r, (waiting_same k _ w x) by done. apply O.
  - intros k. rewrite handling_app, (ok_bracket _ _ O k).
    rewrite (current_put s ts w x _ k O R Hx) by done. cbn [worker_key at_pc pc].
    assert (Some (current k s) = if decide (keyExtractor m = k) then Some (Some m) else Some (current k s)) as E.
    { case_decide as D; [|done]. rewrite <-D, Km, (current_registered s w x R Hx), P. done. }
    rewrite E, processMessage_events, Km. clear E. destruct (decide (worker_key x = k)); [by destruct draining|done].
Qed.

Lemma channels_send s ts w x m :
  channels_ok s ts -> pool s !! w = Some x -> workers s !! keyExtractor m = Some w -> pc x <> WIdleDelete ->
  length (msgCh x) < capacity ->
  channels_ok (record [EvSent m] (put w (with_queue (msgCh x ++ [m]) x) s)) ts.
Proof.
  intros O Hx R P B. destruct (ok_map _ _ O _ _ R) as (y & Hy & K). assert (y = x) as -> by congruence. clear Hy.
  rewrite <-K in R. eapply channels_put; [exact O|exact Hx|done|..].
  - pose proof (ok_pool _ _ O w x Hx) as Ok. unfold worker_ok in *. cbn. rewrite decide_True in Ok |- * by done.
    unfold registered_ok in *. cbn. by destruct (pc x).
  - intros m' b E. by eapply (ok_handled _ _ O w x).
  - cbn. intros m' [Hm| ->%list_elem_of_singleton]%elem_of_app; [by eapply (ok_queued _ _ O w x)|done].
  - cbn. rewrite length_app. cbn. lia.
  - by left.
  - intros k. rewrite sent_app, handled_app, (ok_sent _ _ O k), app_nil_r, <-app_assoc. f_equal. cbn.
    destruct (decide (worker_key x = k)) as [<-|Ne].
    + rewrite (waiting_registered s ts _ w x), (waiting_put s ts w x) by done. by rewrite decide_True.
    + rewrite (waiting_put_other k s w x) by done. by rewrite decide_False, app_nil_r by congruence.
  - intros k. rewrite handling_app. cbn [foldl bracket_step]. rewrite (ok_bracket _ _ O k).
    rewrite (current_put s ts w x _ k O R Hx) by done. cbn [worker_key with_queue pc].
    case_decide as D; [|done]. by rewrite <-D, (current_registered s w x R Hx).
Qed.

(** *** Changing the map *)

(** No call is between its lookup and its send, or about to create a worker. *)
Definition no_pending (ts : list call_pc) : Prop := forall p, p ∈ ts -> in_read p = false /\ in_write p = false.

Lemma calls_quiet s ts p : no_pending ts -> p ∈ ts -> call_ok s p.
Proof. intros N Hp. destruct (N p Hp) as [A B]. by destruct p. Qed.

Lemma channels_unregister s ts w x p' :
  channels_ok s ts -> no_pending ts -> pool s !! w = Some x -> workers s !! worker_key x = Some w ->
  (forall m b, pc x <> WHandle m b) ->
  (p' = WIdleUnlock true /\ msgCh x = []) \/ (p' = WRemoveUnlock /\ ctx_done s = true) ->
  channels_ok (put w (at_pc p' x) (set_workers (delete (worker_key x) (workers s)) s)) ts.
Proof.
  intros O N Hx R P P'. split; cbn [put set_workers set_pool workers pool history ctx_done].
  - intros k w' [Ne Hk]%lookup_delete_Some. destruct (ok_map _ _ O k w' Hk) as (y & Hy & Ky).
    exists y. rewrite list_lookup_insert_ne; [done|]. intros <-. congruence.
  - intros w' y [ [-> ->]|[Ne Hy] ]%(put_lookup _ _ _ _ _ _ Hx); unfold worker_ok; cbn.
    + rewrite decide_False by by rewrite lookup_delete_eq. unfold unregistered_ok. cbn. rewrite lookup_delete_eq.
      destruct P' as [[-> ?]|[-> ?]]; [done|by right].
    + pose proof (ok_pool _ _ O w' y Hy) as Ok. unfold worker_ok in Ok. destruct (decide (worker_key y = worker_key x)) as [E|E].
      * rewrite E in Ok |- *. rewrite decide_False in Ok by congruence. rewrite decide_False by by rewrite lookup_delete_eq.
        unfold unregistered_ok in *. cbn. rewrite E in Ok |- *. rewrite lookup_delete_eq.
        destruct (pc y); naive_solver.
      * rewrite lookup_delete_ne by done. case_decide; [done|]. unfold unregistered_ok in *. cbn.
        by rewrite lookup_delete_ne.
  - intros p Hp. by eapply calls_quiet.
  - intros w' y m b [ [-> ->]|[Ne Hy] ]%(put_lookup _ _ _ _ _ _ Hx); [|by eapply ok_handled].
    cbn. by destruct P' as [[-> _]|[-> _]].
  - intros w' y m [ [-> ->]|[Ne Hy] ]%(put_lookup _ _ _ _ _ _ Hx); [exact (ok_queued _ _ O w x m Hx)|by eapply ok_queued].
  - intros w' y [ [-> ->]|[Ne Hy] ]%(put_lookup _ _ _ _ _ _ Hx); [exact (ok_bound _ _ O w x Hx)|by eapply ok_bound].
  - intros k. rewrite (waiting_same k _ w x) by done. apply O.
  - intros k. rewrite (ok_bracket _ _ O k). f_equal. unfold current. cbn. destruct (decide (worker_key x = k)) as [<-|Ne].
    + rewrite lookup_delete_eq, R. cbn. rewrite Hx. destruct (pc x) eqn:E; try done. by destruct (P m draining).
    + rewrite lookup_delete_ne by done. destruct (workers s !! k) as [w'|] eqn:Hk; [|done]. cbn.
      rewrite list_lookup_insert_ne; [done|]. intros <-. destruct (ok_map _ _ O k w Hk) as (y & Hy & Ky). congruence.
Qed.

Lemma channels_make s ts1 m ts2 :
  channels_ok s (ts1 ++ DMake m :: ts2) -> no_pending (ts1 ++ ts2) ->
  let k := keyExtractor m in
  channels_ok (set_workers (<[k := length (pool s)]> (workers s)) (set_pool (pool s ++ [new_worker k]) s))
    (ts1 ++ DUnlock m true :: ts2).
Proof.
  intros O N k. destruct (ok_calls _ _ O (DMake m)) as [Hk He]; [set_solver|]. fold k in Hk, He.
  assert (forall w x, (pool s ++ [new_worker k]) !! w = Some x ->
    (w = length (pool s) /\ x = new_worker k) \/ (w <> length (pool s) /\ pool s !! w = Some x)) as Look.
  { intros w x Hx. apply lookup_app_Some in Hx as [Hx|[Hl Hx]].
    - right. split; [|done]. apply lookup_lt_Some in Hx. lia.
    - apply list_lookup_singleton_Some in Hx as [Hw <-]. left. split; [lia|done]. }
  split; cbn [put set_workers set_pool workers pool history ctx_done].
  - intros k' w [[<- <-]|[Ne Hw]]%lookup_insert_Some.
    + exists (new_worker k). split; [|done]. by rewrite lookup_app_r, Nat.sub_diag by done.
    + destruct (ok_map _ _ O _ _ Hw) as (x & Hx & Kx). exists x. split; [|done]. by apply lookup_app_l_Some.
  - intros w x [[-> ->]|[Ne Hx]]%Look; unfold worker_ok; cbn; [by rewrite lookup_insert_eq, decide_True|].
    pose proof (ok_pool _ _ O w x Hx) as Ok. unfold worker_ok in Ok. destruct (decide (worker_key x = k)) as [E|E].
    + rewrite E in Ok |- *. rewrite decide_False in Ok by congruence. rewrite lookup_insert_eq, decide_False by congruence.
      unfold unregistered_ok in *. cbn. pose proof (He w x Hx E). destruct (pc x); try done; by left.
    + rewrite lookup_insert_ne by done. case_decide; [done|]. unfold unregistered_ok in *. cbn. by rewrite lookup_insert_ne.
  - intros p Hp. apply elem_of_app in Hp as [Hp|[->|Hp]%elem_of_cons]; [|done|]; (eapply calls_quiet; [exact N|set_solver]).
  - intros w x m' b [[-> ->]|[Ne Hx]]%Look; [done|]. by eapply ok_handled.
  - intros w x m' [[-> ->]|[Ne Hx]]%Look; [by intros ?%not_elem_of_nil|]. by eapply ok_queued.
  - intros w x [[-> ->]|[Ne Hx]]%Look; [cbn; lia|]. by eapply ok_bound.
  - intros k'. rewrite waiting_app. replace (waiting k' [new_worker k]) with (@nil M); [|by cbn; case_decide].
    rewrite app_nil_r. apply O.
  - intros k'. rewrite (ok_bracket _ _ O k'). f_equal. unfold current. cbn. destruct (decide (k' = k)) as [->|Ne].
    + rewrite lookup_insert_eq, Hk. cbn. by rewrite lookup_app_r, Nat.sub_diag by done.
    + rewrite lookup_insert_ne by done. destruct (workers s !! k') as [w|] eqn:Hw; [|done]. cbn.
      destruct (ok_map _ _ O _ _ Hw) as (x & Hx & _). by rewrite Hx, (lookup_app_l_Some _ _ _ _ Hx).
Qed.

Lemma channels_cancel d o s ts :
  (ctx_done s = true -> d = true) -> channels_ok s ts -> channels_ok (set_close d o s) ts.
Proof.
  intros D O. split; try apply O. cbn. intros w x Hx. pose proof (ok_pool _ _ O w x Hx) as Ok. unfold worker_ok in *. cbn.
  case_decide; [unfold registered_ok in *|unfold unregistered_ok in *]; cbn; destruct (pc x) as [|? []| | | | | | | | | | |]; naive_solver.
Qed.

(** *** Every step *)

Lemma channels_exec_call c s ts1 p ts2 s' p' :
  lock_ok s (ts1 ++ p :: ts2) -> channels_ok s (ts1 ++ p :: ts2) -> exec_call c p s = Some (s', p') ->
  channels_ok s' (ts1 ++ p' :: ts2).
Proof.
  intros L O E. assert (p ∈ ts1 ++ p :: ts2) as Hp by set_solver.
  pose proof (ok_calls _ _ O p Hp) as Cp.
  assert (forall s1 p1, (s1 = s \/ exists r w, s1 = set_lock r w s) -> call_ok s p1 -> channels_ok s1 (ts1 ++ p1 :: ts2)) as Move.
  { intros s1 p1 Hs Hc. pose proof (channels_call _ _ _ _ _ O Hc) as O1.
    destruct Hs as [->|(r & w & ->)]; [done|]. by destruct O1; split. }
  destruct p as [m|m|m w| | | | |m|m| | | | | | | |]; cbn [exec_call Dispatch getOrCreateWorker Close] in E.
  3: { destruct (pool s !! w) as [x|] eqn:Hx; [|done]. cbn in E. case_decide as B; simplify_eq.
    - eapply channels_call; [|done]. eapply (channels_send s _ w x m); [exact O|done..| |done].
      pose proof (read_excludes _ _ _ w x L Hp eq_refl Hx) as X. unfold worker_writes in X. by intros P; rewrite P in X.
    - apply Move; [by left|done]. }
  8: { simplify_eq. apply channels_make; [done|]. intros q Hq. by eapply write_excludes. }
  all: repeat (case_match; simplify_option_eq; inv_lock); simplify_option_eq; inv_lock;
    try (apply Move; [first [by left|right; by eexists _, _]|done]);
    try (apply channels_cancel; [done|by eapply channels_call]).
  apply Move; [by left|]. split; [done|]. intros w x Hx K. pose proof (ok_pool _ _ O w x Hx) as Ok. unfold worker_ok in Ok.
  rewrite decide_False in Ok by congruence. unfold unregistered_ok in Ok. destruct (pc x) as [|? ?| | | |[]| | | | | | |]; try done; destruct Ok as [?|[? _]]; congruence.
Qed.

Lemma channels_runWorker c w s ts s' :
  lock_ok s ts -> channels_ok s ts -> runWorker c w s = Some s' -> channels_ok s' ts.
Proof.
  unfold runWorker. intros L O E. destruct (pool s !! w) as [x|] eqn:Hx; [|done]. cbn in E.
  assert (forall s1 x', (s1 = s \/ exists r b, s1 = set_lock r b s) -> worker_key x' = worker_key x -> msgCh x' = msgCh x ->
    worker_ok s w x' -> (forall m b, pc x <> WHandle m b) -> (forall m b, pc x' <> WHandle m b) ->
    channels_ok (put w x' s1) ts) as Move.
  { intros s1 x' Hs K Q Ok P P'. pose proof (channels_move _ _ _ _ _ O Hx K Q Ok P P') as O1.
    destruct Hs as [->|(r & b & ->)]; [done|]. by destruct O1; split. }
  pose proof (ok_pool _ _ O w x Hx) as Ok.
  assert (worker_writes x = true -> no_pending ts) as NP. { intros W p Hp. by eapply worker_excludes. }
  unfold worker_ok, registered_ok, unregistered_ok in Ok.
  destruct (pc x) as [|m d| | | |[]| | | | | | |] eqn:P; unfold removeWorker, drainWorker in E; rewrite ?P in E.
  2: { destruct c; try done. injection E as <-. by apply channels_finish. }
  all: repeat (case_match; simplify_option_eq; inv_lock); simplify_option_eq; inv_lock.
  all: try (apply Move; [first [by left|right; by eexists _, _]|done|done| |done|done];
    unfold worker_ok, registered_ok, unregistered_ok; cbn in *; case_decide; naive_solver).
  - unfold receive in E. destruct (msgCh x) as [|m q] eqn:Q; [done|]. injection E as <-. apply channels_receive; [done..|]. by left.
  - apply channels_unregister; [done|by apply NP; unfold worker_writes; rewrite P|done|done|by rewrite P|by left].
  - unfold receive in E. destruct (msgCh x) as [|m' q'] eqn:Q; [done|]. injection E as <-. apply channels_receive; [done..|].
    by right.
  - apply channels_unregister; [done|by apply NP; unfold worker_writes; rewrite P|done|done|by rewrite P|by right].
Qed.

Definition Inv (st : sys) : Prop := lock_ok st.1 st.2 /\ channels_ok st.1 st.2.

Lemma Inv_init : Inv (newKeyDispatcher, []).
Proof.
  split; [done|]. split; cbn; try done. by intros p ?%not_elem_of_nil.
Qed.

(** A call begins. *)
Lemma Inv_spawn s ts p :
  in_read p = false -> in_write p = false -> (forall s, call_ok s p) -> Inv (s, ts) -> Inv (s, ts ++ [p]).
Proof.
  intros Rp Wp Cp [(R & W & X) O]. split; cbn in *.
  - unfold lock_ok. rewrite !count_app, !count_cons, Rp, Wp. unfold count at 2 4. cbn. split_and!; [lia|lia|done].
  - split; try apply O. intros q [Hq| ->%list_elem_of_singleton]%elem_of_app; [by apply O|done].
Qed.

Lemma Inv_step st1 st2 : sys_step st1 st2 -> Inv st1 -> Inv st2.
Proof.
  intros St I. destruct St as [s ts m|s ts|c s ts1 p ts2 s' p' E|c w s ts s' E].
  - by apply Inv_spawn.
  - by apply Inv_spawn.
  - destruct I as [L O]. split; [by eapply lock_call|by eapply channels_exec_call].
  - destruct I as [L O]. split; [by eapply lock_worker|by eapply channels_runWorker].
Qed.

Lemma reachable_Inv s ts : reachable s ts -> Inv (s, ts).
Proof.
  unfold reachable. generalize (Inv_init). generalize (newKeyDispatcher, @nil call_pc) as st.
  intros st I R. revert I. induction R; [done|]. eauto using Inv_step.
Qed.

(** A goroutine that goes back to its channel by itself. *)
Definition serving (x : keyWorker) : bool :=
  match pc x with WSelect | WHandle _ false | WIdleLock | WIdleCheck | WIdleUnlock false => true | _ => false end.

Lemma open_served s ts k :
  channels_ok s ts -> ctx_done s = false -> waiting k (pool s) <> [] ->
  exists w x, workers s !! k = Some w /\ pool s !! w = Some x /\ msgCh x = waiting k (pool s) /\ serving x = true.
Proof.
  intros O D Ne. destruct (workers s !! k) as [w|] eqn:Hk.
  - destruct (ok_map _ _ O k w Hk) as (x & Hx & K). pose proof (waiting_registered s ts k w x O Hk Hx K) as W.
    exists w, x. split_and!; [done..|]. pose proof (ok_pool _ _ O w x Hx) as Ok. unfold worker_ok in Ok.
    rewrite decide_True in Ok by by rewrite K. unfold registered_ok in Ok. unfold serving.
    destruct (pc x) as [|? []| | | |[]| | | | | | |]; (done || congruence).
  - destruct Ne. apply waiting_none. intros w x Hx K. pose proof (ok_pool _ _ O w x Hx) as Ok. unfold worker_ok in Ok.
    rewrite decide_False in Ok by congruence. unfold unregistered_ok in Ok.
    destruct (pc x) as [|? []| | | |[]| | | | | | |]; try done; destruct Ok as [?|[? _]]; congruence.
Qed.
End dispatcher.

(** C31. The dispatcher keeps the order of every key and loses nothing. In every
    interleaving of [Dispatch] and [Close] calls, the goroutines of the keys,
    idle exits and timeouts, for every key: the messages handed to the handler
    are a prefix of those sent, in the order of the sends, and the rest is in the
    key's channels; two calls of the handler for one key never overlap, and a
    message is acknowledged only within its own call; until the dispatcher is
    closed, the messages in wait are in the channel of the one goroutine the map
    names for the key, which is alive and returns to its channel; and no channel
    holds more than its capacity. *)
Theorem per_key_fifo {M} `{EqDecision M} (keyExtractor : M -> string) (cfg : config)
    (s : keyDispatcher) (ts : list call_pc) (Hreach : reachable keyExtractor cfg s ts) :
  forall k,
    sent keyExtractor k (history s) = handled keyExtractor k (history s) ++ waiting k (pool s) /\
    (exists cur, handling keyExtractor k (history s) = Some cur) /\
    (ctx_done s = false -> waiting k (pool s) <> [] ->
       exists w x, workers s !! k = Some w /\ pool s !! w = Some x /\ msgCh x = waiting k (pool s) /\ serving x = true) /\
    (forall w x, pool s !! w = Some x -> length (msgCh x) <= capacity cfg).
Proof.
  intros k. destruct (reachable_Inv keyExtractor cfg s ts Hreach) as [_ O]. split_and!.
  - apply O.
  - eexists. apply O.
  - by eapply open_served.
  - apply O.
Qed.

(** ** Executions *)

Inductive action {M} := ADispatch (m : M) | AClose | ACall (i : nat) (c : choice) | AWorker (w : nat) (c : choice).
Arguments action : clear implicits.

Section run.
Context {M : Type} `{EqDecision M} (keyExtractor : M -> string) (cfg : config).

Definition act (a : action M) (st : keyDispatcher * list call_pc) : option (keyDispatcher * list call_pc) :=
  let '(s, ts) := st in
  match a with
  | ADispatch m => Some (s, ts ++ [DRLock m])
  | AClose => Some (s, ts ++ [COnce])
  | ACall i c =>
      p ← ts !! i;
      '(s', p') ← exec_call keyExtractor cfg c p s;
      Some (s', <[i := p']> ts)
  | AWorker w c => s' ← runWorker cfg c w s; Some (s', ts)
  end.

Fixpoint acts (l : list (action M)) (st : keyDispatcher * list call_pc) : option (keyDispatcher * list call_pc) :=
  match l with [] => Some st | a :: l => st' ← act a st; acts l st' end.

Lemma act_step a st st' : act a st = Some st' -> sys_step keyExtractor cfg st st'.
Proof.
  destruct st as [s ts], a as [m| |i c|w c]; cbn; intros E; simplify_option_eq; try by econstructor.
  destruct H0 as [s' p']. simplify_eq.
  pose proof (step_call keyExtractor cfg c s (take i ts) H (drop (S i) ts) s' p' Heqo0) as St.
  rewrite take_drop_middle in St by done. by rewrite insert_take_drop by by eapply lookup_lt_Some.
Qed.

Lemma acts_reachable l s ts : acts l (newKeyDispatcher, []) = Some (s, ts) -> reachable keyExtractor cfg s ts.
Proof.
  unfold reachable. generalize (@newKeyDispatcher M, @nil (@call_pc M)) as st. induction l as [|a l IH]; intros st; cbn.
  - by intros [= ->].
  - destruct (act a st) as [st'|] eqn:E; [|done]. cbn. intros R. eapply rtc_l; [by eapply act_step|by apply IH].
Qed.
End run.

(** Three messages of two keys, the second key being idle once before its next
    message. *)
Definition demo_key (m : string * nat) : string := m.1.
Definition demo_config : config := mkConfig 2 false true.

(** Run call [i] to its return, and worker [w] through one message. *)
Definition demo_send (i n : nat) : list (action (string * nat)) := replicate n (ACall i CTimer).
Definition demo_fresh (i : nat) : list (action (string * nat)) := demo_send i 11.
Definition demo_handle (w : nat) : list (action (string * nat)) := [AWorker w CMessage; AWorker w (CAnswer false false)].

Definition demo_actions : list (action (string * nat)) :=
  ADispatch ("a", 1) :: demo_fresh 0 ++
  ADispatch ("b", 2) :: demo_fresh 1 ++
  ADispatch ("a", 3) :: demo_send 2 4 ++ demo_handle 0 ++ [AWorker 0 CMessage].

Definition demo_run (l : list (action (string * nat))) : keyDispatcher * list call_pc :=
  default (newKeyDispatcher, []) (acts demo_key demo_config l (newKeyDispatcher, [])).

Lemma demo_reachable l :
  bool_decide (is_Some (acts demo_key demo_config l (newKeyDispatcher, []))) = true ->
  reachable demo_key demo_config (demo_run l).1 (demo_run l).2.
Proof.
  intros B. apply bool_decide_eq_true in B as [[s ts] E]. unfold demo_run. rewrite E. by eapply acts_reachable.
Qed.

Lemma demo_actions_run : bool_decide (is_Some (acts demo_key demo_config demo_actions (newKeyDispatcher, []))) = true.
Proof. vm_compute. reflexivity. Qed.

Lemma demo_actions_end :
  waiting "b" (pool (demo_run demo_actions).1) <> [] /\ ctx_done (demo_run demo_actions).1 = false.
Proof. split; [|vm_compute; reflexivity]. vm_compute. discriminate. Qed.

Lemma per_key_fifo_witness :
  let s := (demo_run demo_actions).1 in
  sent demo_key "b" (history s) = handled demo_key "b" (history s) ++ waiting "b" (pool s) /\
  exists w x, workers s !! "b" = Some w /\ pool s !! w = Some x /\ serving x = true.
Proof.
  intros s. destruct (per_key_fifo demo_key demo_config s (demo_run demo_actions).2
    (demo_reachable demo_actions demo_actions_run) "b") as (E & _ & Srv & _).
  split; [exact E|]. destruct (Srv (proj2 demo_actions_end) (proj1 demo_actions_end)) as (w & x & A & B & _ & C).
  exists w, x. exact (conj A (conj B C)).
Defined.

(** A goroutine that has drained its channel stays in the map until its cleanup
    takes the lock, and [Dispatch] does not look at the context: the message it
    sends in between is reported as dispatched and never handled, although
    [Close] waits for the goroutines. *)
Definition demo_stranded : list (action (string * nat)) :=
  ADispatch ("a", 1) :: demo_fresh 0 ++ demo_handle 0 ++
  [AClose; ACall 1 CDone; ACall 1 CDone; AWorker 0 CDone; AWorker 0 CDone] ++
  ADispatch ("a", 2) :: demo_send 2 4 ++
  replicate 4 (AWorker 0 CDone) ++ [ACall 1 CMessage].

Lemma demo_stranded_run : bool_decide (is_Some (acts demo_key demo_config demo_stranded (newKeyDispatcher, []))) = true.
Proof. vm_compute. reflexivity. Qed.

Theorem close_strands_message :
  exists s ts, reachable demo_key demo_config s ts /\ ts !! 1 = Some CReturn /\ ts !! 2 = Some (DReturn ("a", 2) true) /\
    all_exited s = true /\ waiting "a" (pool s) = [("a", 2)].
Proof.
  exists (demo_run demo_stranded).1, (demo_run demo_stranded).2. split; [exact (demo_reachable _ demo_stranded_run)|].
  by vm_compute.
Qed.
