(* ===== verification/Pattern.v ===== *)
(** * Subject patterns and static partitioning

    internal/partutil/pattern.go and hash.go (patterns with a partition and an
    optional key placeholder), and the publishing side of partition/
    (partition_core.go, publisher.go, validation.go) that expands them. The
    theorems relate a published subject to the filters of the consumers. *)
From S2P Require Import Prelude Partition.

(** ** Strings of the standard library *)

(** [s[n:]] and [s[:n]]. *)
Fixpoint str_drop (n : nat) (s : string) : string :=
  match n, s with S n', String _ s' => str_drop n' s' | _, _ => s end.
Fixpoint str_take (n : nat) (s : string) : string :=
  match n, s with S n', String a s' => String a (str_take n' s') | _, _ => "" end.

(** [strings.Index]. *)
Fixpoint Index (s sub : string) : option nat :=
  if String.prefix sub s then Some 0
  else match s with EmptyString => None | String _ s' => S <$> Index s' sub end.

(** [strings.Split(s, ".")] and [strings.Count(s, ".")]. *)
Fixpoint Split (s : string) : list string :=
  match s with
  | EmptyString => [""]
  | String a s' =>
      if decide (a = "."%char) then "" :: Split s'
      else match Split s' with t :: ts => String a t :: ts | [] => [String a ""] end
  end.
Fixpoint Count (s : string) : nat :=
  match s with
  | EmptyString => 0
  | String a s' => (if decide (a = "."%char) then 1 else 0) + Count s'
  end.

(** [strings.Contains]. *)
Definition Contains (s sub : string) : bool := bool_decide (is_Some (Index s sub)).

(** [strings.IndexFunc(t, unicode.IsSpace) >= 0]. The encodings of the space
    characters start with bytes that are no continuation bytes, so a text has
    one exactly when it has its encoding. *)
Definition space_encodings : list string :=
  (λ c, String c "") <$> ["009"; "010"; "011"; "012"; "013"; " "]%char.
Definition wide_space_encodings : list string :=
  [String "194" (String "133" ""); String "194" (String "160" ""); String "225" (String "154" (String "128" ""));
   String "226" (String "128" (String "168" "")); String "226" (String "128" (String "169" ""));
   String "226" (String "128" (String "175" "")); String "226" (String "129" (String "159" ""));
   String "227" (String "128" (String "128" ""))]%char ++
  ((λ n, String "226" (String "128" (String (ascii_of_nat (128 + n)) ""))) <$> seq 0 11).
Definition has_space (t : string) : bool :=
  existsb (Contains t) (space_encodings ++ wide_space_encodings).

(** ** Patterns (pattern.go) *)

Definition PartitionPlaceholder : string := "{{partition}}".
Definition KeyPlaceholder : string := "{{key}}".

Inductive pattern_err := ErrInvalidPattern | ErrPatternEmptyToken.

Record PatternParts := mkParts {
  segments : list string;
  HasKey : bool;
  KeyIndex : Z;
  PartitionIndex : Z;
}.

Definition isPlaceholderTokenBoundary (pattern : string) (start : nat) : bool :=
  if decide (start = 0) then true else bool_decide (String.get (start - 1) pattern = Some "."%char).

Definition isPlaceholderTokenBoundaryEnd (pattern : string) (start len : nat) : bool :=
  let end_ := start + len in
  if decide (String.length pattern <= end_) then true else bool_decide (String.get end_ pattern = Some "."%char).

(** The loop of [ParsePattern]; [None] when the fuel does not suffice. *)
Fixpoint parse_loop (fuel : nat) (pattern : string) (cursor : nat) (parts : PatternParts) :
    option (res pattern_err PatternParts) :=
  match fuel with
  | 0 => None
  | S fuel =>
      match Index (str_drop cursor pattern) "{{" with
      | None =>
          Some (Ok (mkParts (segments parts ++ [str_drop cursor pattern]) (HasKey parts) (KeyIndex parts)
            (PartitionIndex parts)))
      | Some n =>
          let idx := n + cursor in
          let segs := segments parts ++ [str_take n (str_drop cursor pattern)] in
          let at_ := (Z.of_nat (length segs) - 1)%Z in
          if negb (isPlaceholderTokenBoundary pattern idx) then Some (Err ErrInvalidPattern)
          else if String.prefix PartitionPlaceholder (str_drop idx pattern) then
            let len := String.length PartitionPlaceholder in
            if negb (isPlaceholderTokenBoundaryEnd pattern idx len) then Some (Err ErrInvalidPattern)
            else if decide (0 <= PartitionIndex parts)%Z then Some (Err ErrInvalidPattern)
            else parse_loop fuel pattern (idx + len) (mkParts segs (HasKey parts) (KeyIndex parts) at_)
          else if String.prefix KeyPlaceholder (str_drop idx pattern) then
            let len := String.length KeyPlaceholder in
            if negb (isPlaceholderTokenBoundaryEnd pattern idx len) then Some (Err ErrInvalidPattern)
            else if decide (0 <= KeyIndex parts)%Z then Some (Err ErrInvalidPattern)
            else parse_loop fuel pattern (idx + len) (mkParts segs true at_ (PartitionIndex parts))
          else Some (Err ErrInvalidPattern)
      end
  end.

(** Every round but the last consumes a placeholder of its own kind, so three
    rounds suffice. *)
Definition ParsePattern (pattern : string) : option (res pattern_err PatternParts) :=
  if decide (pattern = "") then Some (Err ErrInvalidPattern)
  else
    r ← parse_loop 3 pattern 0 (mkParts [] false (-1) (-1));
    match r with
    | Ok parts => Some (if decide (PartitionIndex parts < 0)%Z then Err ErrInvalidPattern else Ok parts)
    | Err e => Some (Err e)
    end.

(** The builder loops: after segment [i] comes what stands at its index. *)
Fixpoint build_from (i : Z) (key : option string) (partitionStr : string) (p : PatternParts) (segs : list string) : string :=
  match segs with
  | [] => ""
  | seg :: segs' =>
      (match key with Some k => if decide (i = KeyIndex p) then k else "" | None => "" end) +:+
      (if decide (i = PartitionIndex p) then partitionStr else "") +:+
      seg +:+ build_from (i + 1) key partitionStr p segs'
  end.

(** [None] is the panic of [segments[0]] on the zero value. *)
Definition build (key : option string) (partition : Z) (p : PatternParts) : option string :=
  match segments p with
  | [] => None
  | seg :: segs => Some (seg +:+ build_from 0 key (pretty partition) p segs)
  end.

Definition BuildSubjectNoKey (p : PatternParts) (partition : Z) : option string := build None partition p.

Definition BuildSubject (p : PatternParts) (key : string) (partition : Z) : option string :=
  if decide (length (segments p) = 0) then Some ""
  else if negb (HasKey p) then BuildSubjectNoKey p partition
  else build (Some key) partition p.

Definition BuildFilterSubject (p : PatternParts) (partition : Z) : option string :=
  if negb (HasKey p) then BuildSubjectNoKey p partition
  else build (Some "*") partition p.

(** The text before the key, with ["0"] for the partition. *)
Fixpoint key_prefix (n : nat) (i : Z) (p : PatternParts) (segs : list string) : string :=
  match n, segs with
  | S n', seg :: segs' =>
      seg +:+ (if decide (i = PartitionIndex p) then "0" else "") +:+ key_prefix n' (i + 1) p segs'
  | 0, seg :: _ => seg
  | _, [] => ""
  end.

Definition KeyTokenIndex (p : PatternParts) : Z :=
  if negb (HasKey p) then (-1)%Z
  else Z.of_nat (Count (key_prefix (Z.to_nat (KeyIndex p)) 0 p (segments p))).

(** [ExtractKey], and what [KeyExtractorFunc] returns for a subject. *)
Definition ExtractKey (p : PatternParts) (subject : string) : string :=
  if negb (HasKey p) then ""
  else default "" (Split subject !! Z.to_nat (KeyTokenIndex p)).

Fixpoint validate_tokens (allowWildcard : bool) (ts : list string) : option pattern_err :=
  match ts with
  | [] => None
  | t :: ts' =>
      if decide (t = "") then Some ErrPatternEmptyToken
      else if has_space t then Some ErrInvalidPattern
      else if negb allowWildcard && bool_decide (t = "*" \/ t = ">") then Some ErrInvalidPattern
      else if allowWildcard && bool_decide (t = ">" /\ ts' <> []) then Some ErrInvalidPattern
      else validate_tokens allowWildcard ts'
  end.

Definition ValidateSubjectTokens (subject : string) (allowWildcard : bool) : option pattern_err :=
  if decide (subject = "") then Some ErrInvalidPattern else validate_tokens allowWildcard (Split subject).

Inductive key_err := ErrEmptyKey | ErrInvalidKey.

Definition ValidateKeyForPublish (key : string) : option key_err :=
  if decide (key = "") then Some ErrEmptyKey
  else if contains_any ["*"; ">"]%char key then Some ErrInvalidKey
  else match ValidateSubjectTokens key false with Some _ => Some ErrInvalidKey | None => None end.

(** ** Partitions of keys (hash.go) *)

Section core.
Context `{Xxh3}.

Definition ComputePartition (key : string) (numPartitions seed : Z) : Z :=
  if decide (key = "" \/ numPartitions <= 0)%Z then (-1)%Z
  else
    let h := if decide (seed <> 0)%Z then HashStringSeed key seed else HashString key in
    (h `mod` numPartitions)%Z.

(** ** The publishing core (partition_core.go, config.go) *)

Record PartitionConfig := mkPartitionConfig {
  NumPartitions : Z;
  SubjectPattern : string;
  cfg_HashSeed : Z;
}.

Inductive core_err :=
| ErrDefaults
| ErrNumPartitions
| ErrPatternRequired
| ErrPattern (e : pattern_err).

Record partitionCore := mkCore {
  core_config : PartitionConfig;
  precomputedSubjects : option (list string);
  patternParts : PatternParts;
}.

(** [fuda.SetDefaults] on the configuration: it fails or fills unset fields. *)
Context (SetDefaults : PartitionConfig -> option PartitionConfig).

Definition Config_Validate (cfg : PartitionConfig) : option (res core_err PartitionConfig) :=
  match SetDefaults cfg with
  | None => Some (Err ErrDefaults)
  | Some cfg =>
      if decide (NumPartitions cfg <= 0)%Z then Some (Err ErrNumPartitions)
      else if decide (SubjectPattern cfg = "") then Some (Err ErrPatternRequired)
      else
        r ← ParsePattern (SubjectPattern cfg);
        match r with
        | Err e => Some (Err (ErrPattern e))
        | Ok parts =>
            filter ← BuildFilterSubject parts 0;
            Some match ValidateSubjectTokens filter true with
                 | Some e => Err (ErrPattern e)
                 | None => Ok cfg
                 end
        end
  end.

Definition newPartitionCore (config : PartitionConfig) : option (res core_err partitionCore) :=
  v ← Config_Validate config;
  match v with
  | Err e => Some (Err e)
  | Ok config =>
      r ← ParsePattern (SubjectPattern config);
      match r with
      | Err e => Some (Err (ErrPattern e))
      | Ok parts =>
          sample ← BuildSubject parts "key" 0;
          match ValidateSubjectTokens sample false with
          | Some e => Some (Err (ErrPattern e))
          | None =>
              if HasKey parts then Some (Ok (mkCore config None parts))
              else
                subjects ← mapM (λ i, BuildSubjectNoKey parts (Z.of_nat i)) (seq 0 (Z.to_nat (NumPartitions config)));
                Some (Ok (mkCore config (Some subjects) parts))
          end
      end
  end.

Definition getPartition (c : partitionCore) (key : string) : Z :=
  ComputePartition key (NumPartitions (core_config c)) (cfg_HashSeed (core_config c)).

Definition subjectForKey (c : partitionCore) (key : string) (partition : Z) : option string :=
  if decide (partition < 0)%Z then Some ""
  else match precomputedSubjects c with
       | Some l => l !! Z.to_nat partition
       | None => BuildSubject (patternParts c) key partition
       end.

Definition getSubject (c : partitionCore) (key : string) : option string :=
  let partition := getPartition c key in
  if decide (partition < 0)%Z then Some "" else subjectForKey c key partition.

(** [Some None] is [ErrPartitionOutOfRange]. *)
Definition getSubjectForPartition (c : partitionCore) (partition : Z) : option (option string) :=
  if decide (partition < 0 \/ NumPartitions (core_config c) <= partition)%Z then Some None
  else Some <$> BuildFilterSubject (patternParts c) partition.

Inductive publish_key_err := PublishCtx | PublishKey (e : key_err) | PublishPattern.

(** [Publish] up to the call of the connection: the subject it sends to. *)
Definition Publish_subject (c : partitionCore) (ctxErr : bool) (key : string) : option (res publish_key_err string) :=
  if ctxErr then Some (Err PublishCtx)
  else match ValidateKeyForPublish key with
       | Some e => Some (Err (PublishKey e))
       | None =>
           subject ← subjectForKey c key (getPartition c key);
           Some (if decide (subject = "") then Err PublishPattern else Ok subject)
       end.
End core.

(** ** The matching of NATS *)

(** A subject matches a filter token by token; ["*"] stands for any token and a
    final [">"] for one or more. *)
Fixpoint tokens_match (filter subject : list string) : bool :=
  match filter, subject with
  | [], [] => true
  | t :: filter', s :: subject' =>
      bool_decide (t = ">" /\ filter' = []) ||
      ((bool_decide (t = "*") || bool_decide (t = s)) && tokens_match filter' subject')
  | _, _ => false
  end.

Definition subject_matches (filter subject : string) : bool := tokens_match (Split filter) (Split subject).

(** ** Strings cut in pieces *)

Lemma str_drop_app a b : str_drop (String.length a) (a +:+ b) = b.
Proof. induction a as [|c a IH]; [done|]. exact IH. Qed.

Lemma str_take_app a b : str_take (String.length a) (a +:+ b) = a.
Proof. induction a as [|c a IH]; [by destruct b|]. cbn. by f_equal. Qed.

Lemma prefix_app p s : String.prefix p s = true -> exists r, s = p +:+ r.
Proof.
  revert s. induction p as [|c p IH]; intros s; [by exists s|]. destruct s as [|c' s]; [done|]. cbn.
  destruct (ascii_dec c c') as [->|]; [|done]. intros [r ->]%IH. by exists r.
Qed.

Lemma Index_Some s sub n :
  Index s sub = Some n -> exists a r, s = a +:+ sub +:+ r /\ String.length a = n.
Proof.
  revert n. induction s as [|c s IH]; intros n; cbn [Index]; destruct (String.prefix sub _) eqn:P.
  - intros [= <-]. apply prefix_app in P as [r ->]. by exists "", r.
  - done.
  - intros [= <-]. apply prefix_app in P as [r ->]. by exists "", r.
  - intros (m & E & ->)%fmap_Some. destruct (IH m E) as (a & r & -> & <-). by exists (String c a), r.
Qed.

Lemma get_app a b : String.get (String.length a) (a +:+ b) = String.get 0 b.
Proof. induction a as [|c a IH]; [done|]. exact IH. Qed.

(** A piece that ends, or begins, at a token boundary. *)
Definition closed (x : string) : Prop := x = "" \/ exists y, x = y +:+ ".".
Definition opening (x : string) : Prop := x = "" \/ exists y, x = String "." y.

Lemma get_last x b c : x <> "" -> String.get (String.length x - 1) (x +:+ b) = Some c -> exists y, x = y +:+ String c "".
Proof.
  induction x as [|d x IH]; [done|]. intros _. cbn. rewrite Nat.sub_0_r. destruct x as [|e x].
  - cbn. intros [= ->]. by exists "".
  - intros E. destruct IH as [y ->]; [done| |by exists (String d y)]. cbn in *. by rewrite Nat.sub_0_r.
Qed.

Lemma boundary_closed x b : isPlaceholderTokenBoundary (x +:+ b) (String.length x) = true -> closed x.
Proof.
  unfold isPlaceholderTokenBoundary. case_decide as L; [intros _; left; by destruct x|].
  intros E%bool_decide_eq_true. right. eapply get_last; [|exact E]. by intros ->.
Qed.

Lemma boundary_opening x ph b :
  isPlaceholderTokenBoundaryEnd (x +:+ ph +:+ b) (String.length x) (String.length ph) = true -> opening b.
Proof.
  unfold isPlaceholderTokenBoundaryEnd. rewrite !string_length_app. case_decide as L.
  - intros _. left. destruct b; [done|]. cbn in L. lia.
  - intros E%bool_decide_eq_true. rewrite <-string_length_app, <-string_app_assoc, get_app in E. right.
    destruct b as [|c b]; [done|]. cbn in E. injection E as ->. by exists b.
Qed.

(** Between two placeholders: a piece that opens and closes. *)
Lemma closed_app x b : b <> "" -> closed (x +:+ b) -> closed b.
Proof.
  intros Nb [E|[y E]]; [by destruct x, b|]. right. revert y E. induction x as [|c x IH]; intros y E; [by exists y|].
  destruct y as [|d y]; rewrite string_app_cons in E.
  - destruct x; destruct b; done.
  - rewrite string_app_cons in E. injection E as _ E. by eapply IH.
Qed.

Lemma opening_app b r : (forall y, r <> String "." y) -> b +:+ r <> "" -> opening (b +:+ r) -> exists b', b = String "." b'.
Proof.
  intros Nr Ne [?|[y E]]; [done|]. destruct b as [|c b]; [by destruct (Nr y)|].
  rewrite string_app_cons in E. injection E as -> _. by exists b.
Qed.

(** ** Tokens *)

Lemma Split_cons a s :
  Split (String a s) = if decide (a = "."%char) then "" :: Split s
    else match Split s with t :: ts => String a t :: ts | [] => [String a ""] end.
Proof. done. Qed.

Lemma Split_nonempty s : exists t ts, Split s = t :: ts.
Proof. destruct s as [|a s]; [by eexists _, _|]. rewrite Split_cons. repeat case_match; by eexists _, _. Qed.

Lemma Split_dot x y : Split (x +:+ String "." y) = Split x ++ Split y.
Proof.
  induction x as [|a x IH]; [done|]. rewrite string_app_cons, !Split_cons, IH. case_decide; [done|].
  by destruct (Split_nonempty x) as (t & ts & ->).
Qed.

Lemma Split_plain t : contains_char "." t = false -> Split t = [t].
Proof.
  induction t as [|a t IH]; [done|]. cbn [contains_char]. intros [D P]%orb_false_iff. rewrite Split_cons, IH by done.
  apply bool_decide_eq_false in D. by rewrite decide_False.
Qed.

Lemma length_Split s : length (Split s) = S (Count s).
Proof.
  induction s as [|a s IH]; [done|]. rewrite Split_cons. cbn [Count]. case_decide; [cbn; lia|].
  destruct (Split_nonempty s) as (t & ts & E). rewrite E in *. cbn in *. lia.
Qed.

Lemma Count_app x y : Count (x +:+ y) = Count x + Count y.
Proof. induction x as [|a x IH]; [done|]. rewrite string_app_cons. cbn [Count]. rewrite IH. lia. Qed.

(** Tokens before, in and after a piece at token boundaries. *)
Lemma Split_left x : closed x -> exists l, length l = Count x /\ forall t, Split (x +:+ t) = l ++ Split t.
Proof.
  intros [->|[y ->]]; [by exists []|]. exists (Split y). split.
  - rewrite length_Split, Count_app. cbn [Count]. rewrite decide_True by done. lia.
  - intros t. rewrite string_app_assoc. apply Split_dot.
Qed.

Lemma Split_right c : opening c -> exists r, forall t, Split (t +:+ c) = Split t ++ r.
Proof.
  intros [->|[y ->]]; [exists []; intros t; by rewrite string_app_nil_r, app_nil_r|].
  exists (Split y). intros t. apply Split_dot.
Qed.

(** A piece between two placeholders. *)
Lemma Split_middle b : opening b -> closed b -> b <> "" ->
  exists m, length m + 1 = Count b /\ forall t u, Split (t +:+ b +:+ u) = Split t ++ m ++ Split u.
Proof.
  intros [?|[y ->]] Cl Ne; [done|]. destruct Cl as [?|[z E]]; [done|]. destruct z as [|c z].
  - injection E as ->. exists []. split; [done|]. intros t u. by rewrite string_app_cons, (Split_dot t).
  - rewrite string_app_cons in E. injection E as <- ->. exists (Split z). split.
    + rewrite length_Split. cbn [Count]. rewrite decide_True, Count_app by done. cbn [Count].
      rewrite decide_True by done. lia.
    + intros t u. rewrite string_app_cons, (Split_dot t), string_app_assoc, string_app_cons, (Split_dot z). done.
Qed.

(** ** What the parser accepts *)

(** One round: the end of the pattern, or a placeholder at token boundaries. *)
Lemma parse_round fuel pre rest parts p :
  parse_loop (S fuel) (pre +:+ rest) (String.length pre) parts = Some (Ok p) ->
  (p = mkParts (segments parts ++ [rest]) (HasKey parts) (KeyIndex parts) (PartitionIndex parts)) \/
  exists a ph b, rest = a +:+ ph +:+ b /\ closed (pre +:+ a) /\ opening b /\
    let at_ := Z.of_nat (length (segments parts)) in
    let pre' := pre +:+ a +:+ ph in
    ((ph = PartitionPlaceholder /\ (PartitionIndex parts < 0)%Z /\
        parse_loop fuel (pre' +:+ b) (String.length pre')
          (mkParts (segments parts ++ [a]) (HasKey parts) (KeyIndex parts) at_) = Some (Ok p)) \/
     (ph = KeyPlaceholder /\ (KeyIndex parts < 0)%Z /\
        parse_loop fuel (pre' +:+ b) (String.length pre')
          (mkParts (segments parts ++ [a]) true at_ (PartitionIndex parts)) = Some (Ok p))).
Proof.
  cbn [parse_loop]. rewrite str_drop_app. destruct (Index rest "{{") as [n|] eqn:I; [|intros [= <-]; by left].
  apply Index_Some in I as (a & r & Er & <-). set (q := "{{" +:+ r) in Er. subst rest.
  rewrite str_take_app. rewrite <-(string_app_assoc pre a q).
  replace (String.length a + String.length pre) with (String.length (pre +:+ a)) by (rewrite string_length_app; lia).
  rewrite str_drop_app. destruct (isPlaceholderTokenBoundary _ _) eqn:B1; [|done]. cbn [negb].
  apply boundary_closed in B1.
  replace (Z.of_nat (length (segments parts ++ [a])) - 1)%Z with (Z.of_nat (length (segments parts)))
    by (rewrite length_app; cbn; lia).
  destruct (String.prefix PartitionPlaceholder q) eqn:P1; [|destruct (String.prefix KeyPlaceholder q) eqn:P2; [|done]].
  1: apply prefix_app in P1 as [b Eb]. 2: apply prefix_app in P2 as [b Eb].
  all: rewrite Eb; destruct (isPlaceholderTokenBoundaryEnd _ _ _) eqn:B2; [|done]; cbn [negb].
  all: apply boundary_opening in B2; case_decide; [done|]; intros L; right; rewrite <-string_length_app in L.
  - exists a, PartitionPlaceholder, b. split_and!; [done..|]. left. split_and!; [done|lia|].
    by rewrite !string_app_assoc in L |- *.
  - exists a, KeyPlaceholder, b. split_and!; [done..|]. right. split_and!; [done|lia|].
    by rewrite !string_app_assoc in L |- *.
Qed.

(** A piece between two placeholders opens, closes and is not empty. *)
Definition inner (b : string) : Prop := opening b /\ closed b /\ b <> "".

Lemma inner_piece pre a ph b :
  (forall y, ph +:+ b <> String "." y) -> ph +:+ b <> "" ->
  opening (a +:+ ph +:+ b) -> closed (pre +:+ a) -> inner a.
Proof.
  intros Np Ne Op Cl. destruct (opening_app a (ph +:+ b) Np) as [a' ->].
  - by destruct a.
  - done.
  - split_and!; [right; by eexists| |done]. by eapply closed_app.
Qed.

Lemma placeholder_text b ph : ph = PartitionPlaceholder \/ ph = KeyPlaceholder ->
  (forall y, ph +:+ b <> String "." y) /\ ph +:+ b <> "".
Proof. by intros [->| ->]. Qed.

Inductive shape (pattern : string) (p : PatternParts) : Prop :=
| shape_no_key a b :
    pattern = a +:+ PartitionPlaceholder +:+ b -> p = mkParts [a; b] false (-1) 0 -> closed a -> opening b -> shape pattern p
| shape_key_last a b c :
    pattern = a +:+ PartitionPlaceholder +:+ b +:+ KeyPlaceholder +:+ c -> p = mkParts [a; b; c] true 1 0 ->
    closed a -> inner b -> opening c -> shape pattern p
| shape_key_first a b c :
    pattern = a +:+ KeyPlaceholder +:+ b +:+ PartitionPlaceholder +:+ c -> p = mkParts [a; b; c] true 0 1 ->
    closed a -> inner b -> opening c -> shape pattern p.

Lemma ParsePattern_shape pattern p : ParsePattern pattern = Some (Ok p) -> shape pattern p.
Proof.
  unfold ParsePattern. case_decide; [done|]. destruct (parse_loop _ _ _ _) as [[p'|]|] eqn:L; [|done..]. cbn.
  case_decide as Hp; [done|]. intros [= ->].
  apply (parse_round 2 "" pattern) in L as [->|(a & ph1 & b1 & -> & Ca & Ob & L)]; [done|]. cbn in Ca.
  destruct L as [(-> & _ & L)|(-> & _ & L)]; cbn [segments HasKey KeyIndex PartitionIndex length app] in L;
    apply parse_round in L as [->|(a2 & ph2 & b2 & -> & Ca2 & Ob2 & L)].
  - by eapply shape_no_key.
  - destruct L as [(_ & ? & _)|(-> & _ & L)]; [done|]. cbn [segments HasKey KeyIndex PartitionIndex length app] in L.
    apply parse_round in L as [->|(a3 & ph3 & b3 & -> & _ & _ & [(_ & ? & _)|(_ & ? & _)])]; [|done..].
    eapply (shape_key_last _ _ a a2 b2); [done..| |done]. destruct (placeholder_text b2 KeyPlaceholder) as [? ?]; [by right|].
    by eapply inner_piece.
  - done.
  - destruct L as [(-> & _ & L)|(_ & ? & _)]; [|done]. cbn [segments HasKey KeyIndex PartitionIndex length app] in L.
    apply parse_round in L as [->|(a3 & ph3 & b3 & -> & _ & _ & [(_ & ? & _)|(_ & ? & _)])]; [|done..].
    eapply (shape_key_first _ _ a a2 b2); [done..| |done]. destruct (placeholder_text b2 PartitionPlaceholder) as [? ?]; [by left|].
    by eapply inner_piece.
Qed.

(** Three rounds suffice: each placeholder is accepted once. *)
Definition unset (parts : PatternParts) : nat :=
  (if decide (PartitionIndex parts < 0)%Z then 1 else 0) + (if decide (KeyIndex parts < 0)%Z then 1 else 0).

Lemma parse_loop_total fuel pattern cursor parts : unset parts < fuel -> is_Some (parse_loop fuel pattern cursor parts).
Proof.
  revert cursor parts. induction fuel as [|fuel IH]; intros cursor parts F; [lia|]. cbn [parse_loop].
  repeat (case_match; try by eexists); apply IH; unfold unset in *; cbn;
    rewrite (decide_False (P := (_ - 1 < 0)%Z)) by (rewrite length_app; cbn; lia); repeat case_decide; lia.
Qed.

Lemma ParsePattern_total pattern : is_Some (ParsePattern pattern).
Proof.
  unfold ParsePattern. case_decide; [by eexists|].
  destruct (parse_loop_total 3 pattern 0 (mkParts [] false (-1) (-1))) as [[p|e] ->]; [vm_compute; lia|by eexists..].
Qed.

(** ** Tokens of the subjects a pattern builds *)

(** Where the tokens of the partition and of the key stand. *)
Inductive layout :=
| NoKey (l r : list string)
| KeyLast (l m r : list string)
| KeyFirst (l m r : list string).

Definition fill (lay : layout) (key : list string) (part : string) : list string :=
  match lay with
  | NoKey l r => l ++ [part] ++ r
  | KeyLast l m r => l ++ [part] ++ m ++ key ++ r
  | KeyFirst l m r => l ++ key ++ m ++ [part] ++ r
  end.

Definition keyed (lay : layout) : bool := match lay with NoKey _ _ => false | _ => true end.
Definition key_at (lay : layout) : nat :=
  match lay with NoKey _ _ => 0 | KeyLast l m _ => length l + 1 + length m | KeyFirst l _ _ => length l end.

(** Expanding the pattern replaces its placeholders token by token. *)
Record expands (pattern : string) (p : PatternParts) (lay : layout) : Prop := {
  expands_keyed : HasKey p = keyed lay;
  expands_pattern : Split pattern = fill lay [KeyPlaceholder] PartitionPlaceholder;
  expands_subject key i : (0 <= i)%Z ->
    exists s, BuildSubject p key i = Some s /\ Split s = fill lay (Split key) (pretty i);
  expands_filter i : (0 <= i)%Z -> exists s, BuildFilterSubject p i = Some s /\ Split s = fill lay ["*"] (pretty i);
  expands_no_key i : HasKey p = false -> BuildSubjectNoKey p i = BuildFilterSubject p i;
  expands_key_token : HasKey p = true -> KeyTokenIndex p = Z.of_nat (key_at lay);
}.

Lemma pretty_N_digits c (n : N) : (forall d, pretty_N_char d <> c) -> contains_char c (pretty n) = false.
Proof.
  intros Hc. rewrite <-(N2Nat.id n). change (contains_char c (pretty (N.to_nat n)) = false). by apply pretty_nat_char.
Qed.

Lemma pretty_digits c (i : Z) : (0 <= i)%Z -> (forall d, pretty_N_char d <> c) -> contains_char c (pretty i) = false.
Proof. intros Hi Hc. destruct i as [|p|p]; [exact (pretty_N_digits c 0 Hc)|exact (pretty_N_digits c (Npos p) Hc)|lia]. Qed.

Lemma pretty_N_go_nonempty x s : s <> "" -> pretty_N_go x s <> "".
Proof.
  revert s. induction (N.lt_wf_0 x) as [x _ IH]; intros s Hs.
  assert (x = 0 ∨ 0 < x)%N as [->|?] by lia; [by rewrite pretty_N_go_0|].
  rewrite pretty_N_go_step by done. apply IH; [by apply N.div_lt|done].
Qed.

Lemma pretty_N_nonempty (n : N) : pretty n <> "".
Proof.
  unfold pretty, pretty_N. case_decide; [done|]. rewrite pretty_N_go_step by lia. by apply pretty_N_go_nonempty.
Qed.

Lemma pretty_nonempty (i : Z) : (0 <= i)%Z -> pretty i <> "".
Proof. intros Hi. destruct i as [|p|p]; [exact (pretty_N_nonempty 0)|exact (pretty_N_nonempty (Npos p))|lia]. Qed.

Lemma dot_not_digit d : pretty_N_char d <> "."%char.
Proof. unfold pretty_N_char. repeat case_match; done. Qed.

Lemma Split_pretty i : (0 <= i)%Z -> Split (pretty i) = [pretty i].
Proof. intros Hi. apply Split_plain, pretty_digits; [done|]. apply dot_not_digit. Qed.

Lemma build_three a b c k i ki pi key : (ki, pi) = (1, 0)%Z \/ (ki, pi) = (0, 1)%Z ->
  build key i (mkParts [a; b; c] k ki pi) = Some
    (if decide (ki = 1)%Z then a +:+ pretty i +:+ b +:+ default "" key +:+ c
     else a +:+ default "" key +:+ b +:+ pretty i +:+ c).
Proof.
  intros [[= -> ->]|[= -> ->]]; unfold build; cbn [segments build_from KeyIndex PartitionIndex];
    destruct key; cbn [default]; repeat (rewrite decide_True by done || rewrite decide_False by done);
    by rewrite ?string_app_nil_l, ?string_app_nil_r.
Qed.

Lemma build_two a b k i key :
  build key i (mkParts [a; b] k (-1) 0) = Some (a +:+ pretty i +:+ b).
Proof.
  unfold build. cbn [segments build_from KeyIndex PartitionIndex]. rewrite (decide_True (P := (0 = 0)%Z)) by done.
  destruct key; rewrite ?decide_False by done; by rewrite ?string_app_nil_l, ?string_app_nil_r.
Qed.

Lemma ParsePattern_expands pattern p : ParsePattern pattern = Some (Ok p) -> exists lay, expands pattern p lay.
Proof.
  intros S. apply ParsePattern_shape in S as [a b -> -> Ca Ob|a b c -> -> Ca (Ob & Cb & Nb) Oc|a b c -> -> Ca (Ob & Cb & Nb) Oc];
    destruct (Split_left a Ca) as (l & Ll & Hl).
  - destruct (Split_right b Ob) as (r & Hr). exists (NoKey l r).
    split; [done|..]; unfold BuildSubject, BuildFilterSubject, BuildSubjectNoKey; cbn [segments length HasKey negb];
      rewrite ?(decide_False (P := 2 = 0)) by done; try done.
    + by rewrite Hl, Hr.
    + intros key i Hi. rewrite build_two. eexists. split; [done|]. by rewrite Hl, Hr, Split_pretty.
    + intros i Hi. rewrite build_two. eexists. split; [done|]. by rewrite Hl, Hr, Split_pretty.
  - destruct (Split_right c Oc) as (r & Hr). destruct (Split_middle b Ob Cb Nb) as (m & Lm & Hm). exists (KeyLast l m r).
    split; [done|..]; unfold BuildSubject, BuildFilterSubject, BuildSubjectNoKey; cbn [segments length HasKey negb];
      rewrite ?(decide_False (P := 3 = 0)) by done; try done.
    + by rewrite Hl, Hm, Hr.
    + intros key i Hi. rewrite build_three by by left. eexists. split; [done|]. cbn [default].
      rewrite decide_True by done. by rewrite Hl, Hm, Hr, Split_pretty.
    + intros i Hi. rewrite build_three by by left. eexists. split; [done|]. cbn [default].
      rewrite decide_True by done. by rewrite Hl, Hm, Hr, Split_pretty.
    + intros _. change (Z.of_nat (Count (a +:+ "0" +:+ b)) = Z.of_nat (length l + 1 + length m)).
      rewrite !Count_app. change (Count "0") with 0. lia.
  - destruct (Split_right c Oc) as (r & Hr). destruct (Split_middle b Ob Cb Nb) as (m & Lm & Hm). exists (KeyFirst l m r).
    split; [done|..]; unfold BuildSubject, BuildFilterSubject, BuildSubjectNoKey; cbn [segments length HasKey negb];
      rewrite ?(decide_False (P := 3 = 0)) by done; try done.
    + by rewrite Hl, Hm, Hr.
    + intros key i Hi. rewrite build_three by by right. eexists. split; [done|]. cbn [default].
      rewrite decide_False by done. by rewrite Hl, Hm, Hr, Split_pretty.
    + intros i Hi. rewrite build_three by by right. eexists. split; [done|]. cbn [default].
      rewrite decide_False by done. by rewrite Hl, Hm, Hr, Split_pretty.
    + intros _. unfold KeyTokenIndex. cbn. by rewrite Ll.
Qed.

Lemma lookup_middle_at {A} (l : list A) x r n : length l = n -> (l ++ x :: r) !! n = Some x.
Proof. intros <-. by rewrite lookup_app_r, Nat.sub_diag by done. Qed.

Lemma fill_key lay key part : keyed lay = true -> fill lay [key] part !! key_at lay = Some key.
Proof.
  destruct lay as [l r|l m r|l m r]; [done|..]; intros _; cbn [fill key_at].
  - rewrite (app_assoc l), (app_assoc _ m). apply lookup_middle_at. rewrite !length_app. cbn. lia.
  - by apply lookup_middle_at.
Qed.

(** Building a subject and extracting its key are inverse. Parsing ends for
    every text, within the three rounds of the model. For an accepted pattern
    with a key placeholder and a key without dots, the subject built for any
    partition splits into the tokens of the pattern with the placeholders
    replaced, and [ExtractKey] gives the key back. *)
Theorem pattern_roundtrip (pattern : string) :
  is_Some (ParsePattern pattern) /\
  forall p key i, ParsePattern pattern = Some (Ok p) -> HasKey p = true -> contains_char "." key = false -> (0 <= i)%Z ->
    exists s lay, BuildSubject p key i = Some s /\ ExtractKey p s = key /\
      Split pattern = fill lay [KeyPlaceholder] PartitionPlaceholder /\ Split s = fill lay [key] (pretty i).
Proof.
  split; [apply ParsePattern_total|]. intros p key i Hp Hk Hd Hi.
  destruct (ParsePattern_expands pattern p Hp) as [lay X]. destruct (expands_subject _ _ _ X key i Hi) as (s & Hs & Ts).
  rewrite (Split_plain key Hd) in Ts. exists s, lay. split_and!; [done| |apply X|done].
  unfold ExtractKey. rewrite Hk, (expands_key_token _ _ _ X Hk), Nat2Z.id, Ts. cbn [negb].
  rewrite fill_key; [done|]. by rewrite <-(expands_keyed _ _ _ X).
Qed.

(** ** Matching *)

Definition plain (t : string) : Prop := t <> "*" /\ t <> ">".

Lemma validate_tokens_plain ts : validate_tokens false ts = None -> Forall plain ts.
Proof.
  induction ts as [|t ts IH]; [constructor|]. cbn. repeat case_match; try done. intros V. constructor; [|by apply IH].
  apply bool_decide_eq_false in H1. unfold plain. tauto.
Qed.

Lemma match_cons_plain t s f ss : plain t -> tokens_match (t :: f) (s :: ss) = bool_decide (t = s) && tokens_match f ss.
Proof.
  intros [A B]. cbn [tokens_match]. rewrite (bool_decide_false (_ /\ _)) by naive_solver.
  by rewrite (bool_decide_false (t = "*")).
Qed.

Lemma match_star s f ss : tokens_match ("*" :: f) (s :: ss) = tokens_match f ss.
Proof. cbn [tokens_match]. rewrite (bool_decide_false (_ /\ _)) by naive_solver. by rewrite bool_decide_true. Qed.

Lemma match_app l f ss : Forall plain l -> tokens_match (l ++ f) (l ++ ss) = tokens_match f ss.
Proof. induction 1 as [|t l Ht Hl IH]; [done|]. cbn [app]. by rewrite match_cons_plain, bool_decide_true. Qed.

Lemma match_refl l : Forall plain l -> tokens_match l l = true.
Proof. intros F. pose proof (match_app l [] [] F) as E. by rewrite !app_nil_r in E. Qed.

Lemma match_length f ss : Forall (λ t, t <> ">") f -> tokens_match f ss = true -> length f = length ss.
Proof.
  intros F. revert ss. induction F as [|t f Ht F IH]; intros [|s ss]; try done. cbn [tokens_match length].
  rewrite (bool_decide_false (_ /\ _)) by naive_solver. cbn. intros [_ E]%andb_prop. f_equal. by apply IH.
Qed.

Lemma star_not_digit d : pretty_N_char d <> "*"%char.
Proof. unfold pretty_N_char. repeat case_match; done. Qed.
Lemma greater_not_digit d : pretty_N_char d <> ">"%char.
Proof. unfold pretty_N_char. repeat case_match; done. Qed.

Lemma pretty_plain i : (0 <= i)%Z -> plain (pretty i).
Proof.
  intros Hi. pose proof (pretty_digits "*" i Hi star_not_digit) as A. pose proof (pretty_digits ">" i Hi greater_not_digit) as B.
  split; intros E; [rewrite E in A|rewrite E in B]; done.
Qed.

(** The fixed tokens of a layout. *)
Definition fixed (lay : layout) : list string :=
  match lay with NoKey l r => l ++ r | KeyLast l m r | KeyFirst l m r => l ++ m ++ r end.

Lemma fill_match lay key (i j : Z) : Forall plain (fixed lay) -> (0 <= j)%Z ->
  tokens_match (fill lay ["*"] (pretty j)) (fill lay [key] (pretty i)) = bool_decide (pretty j = pretty i).
Proof.
  intros F Hj. pose proof (pretty_plain j Hj) as Pj.
  destruct lay as [l r|l m r|l m r]; cbn [fixed fill] in *; rewrite ?Forall_app in F.
  - destruct F as [Fl Fr]. rewrite match_app by done. cbn [app]. by rewrite match_cons_plain, match_refl, andb_true_r.
  - destruct F as (Fl & Fm & Fr). rewrite match_app by done. cbn [app]. rewrite match_cons_plain by done.
    by rewrite match_app, match_star, match_refl, andb_true_r.
  - destruct F as (Fl & Fm & Fr). rewrite match_app by done. cbn [app]. rewrite match_star.
    by rewrite match_app, match_cons_plain, match_refl, andb_true_r.
Qed.

Lemma fill_fixed lay key part : Forall plain (fill lay key part) -> Forall plain (fixed lay).
Proof. destruct lay; cbn [fill fixed]; rewrite !Forall_app; naive_solver. Qed.

(** ** Publishing *)

Section publishing.
Context `{Xxh3} (SetDefaults : PartitionConfig -> option PartitionConfig).

(** What a core that was built knows. *)
Record core_ok (c : partitionCore) (lay : layout) : Prop := {
  core_positive : (0 < NumPartitions (core_config c))%Z;
  core_expands : exists pattern, expands pattern (patternParts c) lay;
  core_plain : Forall plain (fixed lay);
  core_subject key i : (0 <= i < NumPartitions (core_config c))%Z ->
    exists s, subjectForKey c key i = Some s /\ Split s = fill lay (Split key) (pretty i);
}.

Lemma Config_Validate_Ok cfg cfg' : Config_Validate SetDefaults cfg = Some (Ok cfg') -> (0 < NumPartitions cfg')%Z.
Proof. unfold Config_Validate. intros E. repeat (case_match; simplify_option_eq); lia. Qed.

Lemma mapM_lookup {A B} (f : A -> option B) l k n y : mapM f l = Some k -> l !! n = Some y -> k !! n = f y.
Proof.
  intros E%mapM_Some Hn. destruct (Forall2_lookup_l _ _ _ _ _ E Hn) as (z & Hz & F). by rewrite Hz, F.
Qed.

Lemma newPartitionCore_ok cfg c : newPartitionCore SetDefaults cfg = Some (Ok c) -> exists lay, core_ok c lay.
Proof.
  unfold newPartitionCore. destruct (Config_Validate _ cfg) as [[cfg'|e]|] eqn:V; [|done..]. cbn.
  apply Config_Validate_Ok in V. destruct (ParsePattern _) as [[p|e]|] eqn:P; [|done..]. cbn.
  destruct (ParsePattern_expands _ _ P) as [lay X].
  destruct (expands_subject _ _ _ X "key" 0) as (sample & Es & Ts); [done|]. rewrite Es. cbn.
  unfold ValidateSubjectTokens. case_decide; [done|]. destruct (validate_tokens false _) eqn:W; [done|].
  apply validate_tokens_plain in W. rewrite Ts in W. apply fill_fixed in W.
  destruct (HasKey p) eqn:K.
  - intros [= <-]. exists lay. split; [done|by eexists|done|]. intros key i [Hi _]. unfold subjectForKey. cbn.
    rewrite decide_False by lia. by apply X.
  - destruct (mapM _ _) as [subjects|] eqn:Mp; [|done]. cbn. intros [= <-]. exists lay. split; [done|by eexists|done|].
    intros key i Hi. cbn in Hi. unfold subjectForKey. cbn. rewrite decide_False by lia.
    rewrite (mapM_lookup _ _ _ _ (Z.to_nat i) Mp) by (apply lookup_seq; cbn; lia). rewrite Z2Nat.id by lia.
    rewrite (expands_no_key _ _ _ X) by done. destruct (expands_filter _ _ _ X i) as (s & Hs & Tf); [lia|].
    exists s. split; [done|]. rewrite Tf. pose proof (expands_keyed _ _ _ X) as Kl. rewrite K in Kl. by destruct lay.
Qed.

Lemma getPartition_range c key : (0 < NumPartitions (core_config c))%Z -> key <> "" ->
  (0 <= getPartition c key < NumPartitions (core_config c))%Z.
Proof.
  intros Hn Hk. unfold getPartition, ComputePartition. rewrite decide_False by (intros [?|?]; [done|lia]). by apply Z.mod_pos_bound.
Qed.

Lemma Publish_subject_Ok c lay key : core_ok c lay -> ValidateKeyForPublish key = None ->
  exists s, Publish_subject c false key = Some (Ok s) /\ Split s = fill lay (Split key) (pretty (getPartition c key)) /\
    (0 <= getPartition c key < NumPartitions (core_config c))%Z.
Proof.
  intros C V. assert (key <> "") as Nk by (intros ->; done).
  pose proof (getPartition_range c key (core_positive _ _ C) Nk) as R.
  destruct (core_subject _ _ C key _ R) as (s & Hs & Ts). exists s. unfold Publish_subject. rewrite V, Hs. cbn.
  split_and!; [|done|lia|lia]. rewrite decide_False; [done|]. intros ->.
  assert (pretty (getPartition c key) ∈ [""]) as I.
  { change [""] with (Split ""). rewrite Ts. destruct lay; cbn [fill]; set_solver. }
  apply list_elem_of_singleton in I. exact (pretty_nonempty _ (proj1 R) I).
Qed.
End publishing.

(** C32. A published message reaches the consumer of its partition and no other.
    For every core that [newPartitionCore] builds and every key that may be
    published and, if the pattern has a key placeholder, has no dot, the subject of
    the message matches the filter of a partition, in the sense of NATS, exactly
    when it is the partition of the key, and that partition is in range. The
    condition is needed: see [dotted_key_reaches_nobody]. *)
Theorem published_reaches_its_partition `{Xxh3} (SetDefaults : PartitionConfig -> option PartitionConfig)
    (cfg : PartitionConfig) (c : partitionCore) (key : string)
    (Hcore : newPartitionCore SetDefaults cfg = Some (Ok c)) (Hkey : ValidateKeyForPublish key = None)
    (Hdot : HasKey (patternParts c) = true -> contains_char "." key = false) :
  exists s, Publish_subject c false key = Some (Ok s) /\
    (0 <= getPartition c key < NumPartitions (core_config c))%Z /\
    forall j, (0 <= j < NumPartitions (core_config c))%Z ->
      exists f, getSubjectForPartition c j = Some (Some f) /\ subject_matches f s = bool_decide (j = getPartition c key).
Proof.
  destruct (newPartitionCore_ok _ _ _ Hcore) as [lay C].
  destruct (Publish_subject_Ok c lay key C Hkey) as (s & Hs & Ts & R). exists s. split_and!; [done|lia|lia|].
  intros j Hj. destruct (core_expands _ _ C) as [pattern X]. destruct (expands_filter _ _ _ X j) as (f & Hf & Tf); [lia|].
  exists f. unfold getSubjectForPartition. rewrite decide_False by lia. rewrite Hf. split; [done|].
  assert (fill lay (Split key) (pretty (getPartition c key)) = fill lay [key] (pretty (getPartition c key))) as Ek.
  { rewrite (expands_keyed _ _ _ X) in Hdot. destruct lay; [done|..]; by rewrite (Split_plain key (Hdot eq_refl)). }
  unfold subject_matches. rewrite Tf, Ts, Ek, fill_match by (try apply C; lia). apply bool_decide_ext. split; [apply (inj pretty)|by intros ->].
Qed.

(** A key with a dot passes the validation, but its subject has more tokens than
    the filters of a pattern with a key placeholder: no consumer receives it. *)
Theorem dotted_key_reaches_nobody `{Xxh3} (SetDefaults : PartitionConfig -> option PartitionConfig)
    (cfg : PartitionConfig) (c : partitionCore) (key : string)
    (Hcore : newPartitionCore SetDefaults cfg = Some (Ok c)) (Hkey : ValidateKeyForPublish key = None)
    (Hdot : contains_char "." key = true) (Hplaceholder : HasKey (patternParts c) = true) :
  exists s, Publish_subject c false key = Some (Ok s) /\
    forall j f, getSubjectForPartition c j = Some (Some f) -> subject_matches f s = false.
Proof.
  destruct (newPartitionCore_ok _ _ _ Hcore) as [lay C].
  destruct (Publish_subject_Ok c lay key C Hkey) as (s & Hs & Ts & R). exists s. split; [done|].
  intros j f. unfold getSubjectForPartition. case_decide as Hj; [done|]. destruct (core_expands _ _ C) as [pattern X].
  destruct (expands_filter _ _ _ X j) as (f' & Hf & Tf); [lia|]. rewrite Hf. intros [= <-].
  apply not_true_is_false. intros M. apply match_length in M.
  - rewrite Tf, Ts in M. assert (2 <= length (Split key)) as L.
    { rewrite length_Split. clear -Hdot. induction key as [|a key IH]; [done|]. cbn in *. case_bool_decide.
      - rewrite decide_True by done. lia.
      - rewrite decide_False by done. apply IH in Hdot. lia. }
    rewrite (expands_keyed _ _ _ X) in Hplaceholder. destruct lay; cbn [fill keyed] in *; [done|..];
      rewrite !length_app in M; cbn in M; lia.
  - rewrite Tf. pose proof (core_plain _ _ C) as F. destruct (pretty_plain j) as [_ Pj]; [lia|].
    assert (forall l, Forall plain l -> Forall (λ t, t <> ">") l) as G.
    { intros l Fl. eapply Forall_impl; [exact Fl|]. by intros t [_ ?]. }
    destruct lay; cbn [fill fixed] in *; rewrite !Forall_app in F; rewrite !Forall_app, ?Forall_singleton; naive_solver.
Qed.

(** ** Concrete patterns *)

Definition demo_pattern : string := "orders.{{partition}}.{{key}}.created".
Definition demo_parts : PatternParts := mkParts ["orders."; "."; ".created"] true 1 0.

Lemma demo_parse : ParsePattern demo_pattern = Some (Ok demo_parts).
Proof. vm_compute. reflexivity. Qed.

Lemma pattern_roundtrip_witness :
  exists s lay, BuildSubject demo_parts "customer-xyz" 2 = Some s /\ ExtractKey demo_parts s = "customer-xyz" /\
    Split demo_pattern = fill lay [KeyPlaceholder] PartitionPlaceholder /\ Split s = fill lay ["customer-xyz"] (pretty 2%Z).
Proof.
  exact (proj2 (pattern_roundtrip demo_pattern) demo_parts "customer-xyz" 2%Z demo_parse eq_refl eq_refl
    ltac:(discriminate)).
Defined.

Definition demo_partition_config : PartitionConfig := mkPartitionConfig 8 "events.{{key}}.{{partition}}" 0.
Definition demo_core : partitionCore :=
  mkCore demo_partition_config None (mkParts ["events."; "."; ""] true 0 1).

Lemma demo_core_built : newPartitionCore Some demo_partition_config = Some (Ok demo_core).
Proof. vm_compute. reflexivity. Qed.

Lemma demo_key_valid : ValidateKeyForPublish "tool-abc" = None.
Proof. vm_compute. reflexivity. Qed.

Lemma published_reaches_its_partition_witness :
  exists s, @Publish_subject toy_xxh3 demo_core false "tool-abc" = Some (Ok s) /\
    (0 <= @getPartition toy_xxh3 demo_core "tool-abc" < 8)%Z /\
    forall j, (0 <= j < 8)%Z ->
      exists f, getSubjectForPartition demo_core j = Some (Some f) /\
        subject_matches f s = bool_decide (j = @getPartition toy_xxh3 demo_core "tool-abc").
Proof.
  exact (@published_reaches_its_partition toy_xxh3 Some demo_partition_config demo_core "tool-abc" demo_core_built
    demo_key_valid (λ _, eq_refl)).
Defined.

Lemma dotted_key_valid : ValidateKeyForPublish "tool.abc" = None.
Proof. vm_compute. reflexivity. Qed.

Lemma dotted_key_reaches_nobody_witness :
  exists s, @Publish_subject toy_xxh3 demo_core false "tool.abc" = Some (Ok s) /\
    forall j f, getSubjectForPartition demo_core j = Some (Some f) -> subject_matches f s = false.
Proof.
  exact (@dotted_key_reaches_nobody toy_xxh3 Some demo_partition_config demo_core "tool.abc" demo_core_built
    dotted_key_valid eq_refl eq_refl).
Defined.
