(* ===== verification/ApplyPipeline.v ===== *)
(** * How a worker applies assignments (manager_assignment.go)

    Commits and legacy aliases reach a worker through watchers, retries and
    refreshes that run concurrently. The goroutines are lists of program
    counters over the shared state of the manager; every atomic load, store and
    compare-and-swap is a step, and so are the lock [applyStoreMu], the calls of
    the handoff coordinator and the reads of payloads, whose outcome is chosen by
    the environment. A compare-and-swap loop is one step, that of its last
    round: a round that loses changes nothing. *)
From S2P Require Import Prelude Partition Wire.

(** ** Order of targets *)

(** The version and the leader revision of a target. *)
Definition coords : Type := (Z * Z).
Definition coord (a : Assignment) : coords := (a_Version a, a_LeaderRevision a).
Definition coordC (c : AssignmentCommit) : coords := (Version c, LeaderRevision c).

Definition stale (candidate cur : coords) : bool :=
  if decide (candidate.1 = 0)%Z then bool_decide (cur.1 <> 0)%Z
  else if decide (candidate.1 <> cur.1) then bool_decide (candidate.1 < cur.1)%Z
  else bool_decide (candidate.2 < cur.2)%Z.

Definition isApplyResultStale (candidate cur : Assignment) : bool := stale (coord candidate) (coord cur).

Definition commitSupersedesForStash (candidate cur : AssignmentCommit) : bool :=
  if decide (Version candidate <> Version cur) then bool_decide (Version candidate > Version cur)%Z
  else if decide (LeaderRevision candidate <> LeaderRevision cur) then
    bool_decide (LeaderRevision candidate > LeaderRevision cur)%Z
  else bool_decide (BatchDigest candidate <> BatchDigest cur \/
    SourceRevisionKnown candidate <> SourceRevisionKnown cur \/ SourceRevision candidate <> SourceRevision cur).

Definition commitSupersedesAppliedForDrain (pending : AssignmentCommit) (applied : Assignment) : bool :=
  if decide (Version pending <> a_Version applied) then bool_decide (Version pending > a_Version applied)%Z
  else if decide (LeaderRevision pending <> a_LeaderRevision applied) then
    bool_decide (LeaderRevision pending > a_LeaderRevision applied)%Z
  else bool_decide (SourceRevisionKnown pending <> a_SourceRevisionKnown applied \/
    SourceRevision pending <> a_SourceRevision applied).

(** ** Choosing the source (manager_select_authority.go) *)

Inductive AuthorityChoice := AuthorityNone | AuthorityCommit | AuthorityLegacyAlias.

Definition selectAuthority (commit : option AssignmentCommit) (legacy : option Assignment) (lastSeen : Z) :
    AuthorityChoice :=
  match commit, legacy with
  | Some c, None => AuthorityCommit
  | Some c, Some l =>
      if decide (a_LeaderRevision l <= LeaderRevision c)%Z then AuthorityCommit
      else if decide (lastSeen <= a_LeaderRevision l /\ LeaderRevision c < a_LeaderRevision l)%Z then
        AuthorityLegacyAlias
      else AuthorityNone
  | None, Some l => if decide (lastSeen <= a_LeaderRevision l)%Z then AuthorityLegacyAlias else AuthorityNone
  | None, None => AuthorityNone
  end.

(** The assignment of a worker in a commit; [fetched] is what
    [FetchAndVerifyCommitPayload] returned for its payload. *)
Definition buildAssignmentFromCommit (commit : AssignmentCommit) (workerID : string)
    (fetched : option AssignmentPayload) : option Assignment :=
  let total := Z.of_nat (length (Workers commit)) in
  if decide (workerID ∉ Workers commit) then
    Some (mkAssignment (Version commit) (Lifecycle commit) [] (LeaderRevision commit) (SourceRevision commit)
      (SourceRevisionKnown commit) total [] false)
  else
    match Payloads commit !! workerID, fetched with
    | Some _, Some payload =>
        Some (mkAssignment (Version commit) (Lifecycle commit) (pl_Partitions payload) (LeaderRevision commit)
          (SourceRevision commit) (SourceRevisionKnown commit) total (pl_WorkerLabels payload)
          (pl_WorkerLabelsKnown payload))
    | _, _ => None
    end.

Section pipeline.
Context `{Xxh3}.

Definition sameAppliedIdentity (a b : Assignment) : bool :=
  bool_decide (PartitionSetDigest (a_Partitions a) = PartitionSetDigest (a_Partitions b) /\
    a_SourceRevisionKnown a = a_SourceRevisionKnown b /\ a_SourceRevision a = a_SourceRevision b).

Definition assignmentSupersedesForStash (candidate cur : Assignment) : bool :=
  if decide (a_Version candidate <> a_Version cur) then bool_decide (a_Version candidate > a_Version cur)%Z
  else if decide (a_LeaderRevision candidate <> a_LeaderRevision cur) then
    bool_decide (a_LeaderRevision candidate > a_LeaderRevision cur)%Z
  else negb (sameAppliedIdentity candidate cur).

(** ** State *)

(** What the heartbeat acknowledges (internal/heartbeat). *)
Record AppliedAssignment := mkApplied {
  ap_LeaderRevision : Z;
  AppliedVersion : Z;
  AppliedDigest : Z;
  AppliedSourceRevision : Z;
  AppliedSourceRevKnown : bool;
}.

Definition no_ack : AppliedAssignment := mkApplied 0 0 0 0 false.

Definition ack_of (a : Assignment) : AppliedAssignment :=
  mkApplied (a_LeaderRevision a) (a_Version a) (PartitionSetDigest (a_Partitions a)) (a_SourceRevision a)
    (a_SourceRevisionKnown a).

(** A lower version is ignored. *)
Definition SetAppliedAssignment (snap applied : AppliedAssignment) : AppliedAssignment :=
  if decide (AppliedVersion snap < AppliedVersion applied)%Z then applied else snap.

(** One call of [handoffCoordinator.Apply]. *)
Record apply_call := mkCall { call_prev : Assignment; call_target : Assignment; call_ok : bool }.

(** [monitors] is set once the watchers and the recovery monitor run. The fields
    from [applies] on record what happened, for the theorems: the calls of the
    coordinator in their order, the commits whose payload could not be read, the
    assignments rejected as made for another incarnation, the aliases dropped in
    favour of a commit, and the assignment startup stored before applying it. *)
Record Manager := mkManager {
  assignment : Assignment;
  committedAssignment : option Assignment;
  lastSeenLeaderRevision : Z;
  highestAcceptedTarget : option coords;
  lastObservedCommit : option AssignmentCommit;
  lastSeenAlias : option Assignment;
  pendingApplyInFlight : bool;
  stashedCommit : option AssignmentCommit;
  stashedApplyRetry : option Assignment;
  applyRetryActive : bool;
  stashedFetchRetry : option AssignmentCommit;
  fetchRetryActive : bool;
  applyStoreMu : bool;
  heartbeat : AppliedAssignment;
  monitors : bool;
  ctx_done : bool;
  applies : list apply_call;
  unfetched : list AssignmentCommit;
  rejected : list Assignment;
  overruled : list Assignment;
  startup_raw : option Assignment;
}.

Definition set_assignment (v : Assignment) (m : Manager) : Manager :=
  mkManager v (committedAssignment m) (lastSeenLeaderRevision m) (highestAcceptedTarget m)
    (lastObservedCommit m) (lastSeenAlias m) (pendingApplyInFlight m) (stashedCommit m)
    (stashedApplyRetry m) (applyRetryActive m) (stashedFetchRetry m) (fetchRetryActive m) (applyStoreMu
    m) (heartbeat m) (monitors m) (ctx_done m) (applies m) (unfetched m) (rejected m) (overruled m)
    (startup_raw m).
Definition set_committedAssignment (v : option Assignment) (m : Manager) : Manager :=
  mkManager (assignment m) v (lastSeenLeaderRevision m) (highestAcceptedTarget m) (lastObservedCommit m)
    (lastSeenAlias m) (pendingApplyInFlight m) (stashedCommit m) (stashedApplyRetry m) (applyRetryActive
    m) (stashedFetchRetry m) (fetchRetryActive m) (applyStoreMu m) (heartbeat m) (monitors m) (ctx_done
    m) (applies m) (unfetched m) (rejected m) (overruled m) (startup_raw m).
Definition set_lastSeenLeaderRevision (v : Z) (m : Manager) : Manager :=
  mkManager (assignment m) (committedAssignment m) v (highestAcceptedTarget m) (lastObservedCommit m)
    (lastSeenAlias m) (pendingApplyInFlight m) (stashedCommit m) (stashedApplyRetry m) (applyRetryActive
    m) (stashedFetchRetry m) (fetchRetryActive m) (applyStoreMu m) (heartbeat m) (monitors m) (ctx_done
    m) (applies m) (unfetched m) (rejected m) (overruled m) (startup_raw m).
Definition set_highestAcceptedTarget (v : option coords) (m : Manager) : Manager :=
  mkManager (assignment m) (committedAssignment m) (lastSeenLeaderRevision m) v (lastObservedCommit m)
    (lastSeenAlias m) (pendingApplyInFlight m) (stashedCommit m) (stashedApplyRetry m) (applyRetryActive
    m) (stashedFetchRetry m) (fetchRetryActive m) (applyStoreMu m) (heartbeat m) (monitors m) (ctx_done
    m) (applies m) (unfetched m) (rejected m) (overruled m) (startup_raw m).
Definition set_lastObservedCommit (v : option AssignmentCommit) (m : Manager) : Manager :=
  mkManager (assignment m) (committedAssignment m) (lastSeenLeaderRevision m) (highestAcceptedTarget m)
    v (lastSeenAlias m) (pendingApplyInFlight m) (stashedCommit m) (stashedApplyRetry m)
    (applyRetryActive m) (stashedFetchRetry m) (fetchRetryActive m) (applyStoreMu m) (heartbeat m)
    (monitors m) (ctx_done m) (applies m) (unfetched m) (rejected m) (overruled m) (startup_raw m).
Definition set_lastSeenAlias (v : option Assignment) (m : Manager) : Manager :=
  mkManager (assignment m) (committedAssignment m) (lastSeenLeaderRevision m) (highestAcceptedTarget m)
    (lastObservedCommit m) v (pendingApplyInFlight m) (stashedCommit m) (stashedApplyRetry m)
    (applyRetryActive m) (stashedFetchRetry m) (fetchRetryActive m) (applyStoreMu m) (heartbeat m)
    (monitors m) (ctx_done m) (applies m) (unfetched m) (rejected m) (overruled m) (startup_raw m).
Definition set_pendingApplyInFlight (v : bool) (m : Manager) : Manager :=
  mkManager (assignment m) (committedAssignment m) (lastSeenLeaderRevision m) (highestAcceptedTarget m)
    (lastObservedCommit m) (lastSeenAlias m) v (stashedCommit m) (stashedApplyRetry m) (applyRetryActive
    m) (stashedFetchRetry m) (fetchRetryActive m) (applyStoreMu m) (heartbeat m) (monitors m) (ctx_done
    m) (applies m) (unfetched m) (rejected m) (overruled m) (startup_raw m).
Definition set_stashedCommit (v : option AssignmentCommit) (m : Manager) : Manager :=
  mkManager (assignment m) (committedAssignment m) (lastSeenLeaderRevision m) (highestAcceptedTarget m)
    (lastObservedCommit m) (lastSeenAlias m) (pendingApplyInFlight m) v (stashedApplyRetry m)
    (applyRetryActive m) (stashedFetchRetry m) (fetchRetryActive m) (applyStoreMu m) (heartbeat m)
    (monitors m) (ctx_done m) (applies m) (unfetched m) (rejected m) (overruled m) (startup_raw m).
Definition set_stashedApplyRetry (v : option Assignment) (m : Manager) : Manager :=
  mkManager (assignment m) (committedAssignment m) (lastSeenLeaderRevision m) (highestAcceptedTarget m)
    (lastObservedCommit m) (lastSeenAlias m) (pendingApplyInFlight m) (stashedCommit m) v
    (applyRetryActive m) (stashedFetchRetry m) (fetchRetryActive m) (applyStoreMu m) (heartbeat m)
    (monitors m) (ctx_done m) (applies m) (unfetched m) (rejected m) (overruled m) (startup_raw m).
Definition set_applyRetryActive (v : bool) (m : Manager) : Manager :=
  mkManager (assignment m) (committedAssignment m) (lastSeenLeaderRevision m) (highestAcceptedTarget m)
    (lastObservedCommit m) (lastSeenAlias m) (pendingApplyInFlight m) (stashedCommit m)
    (stashedApplyRetry m) v (stashedFetchRetry m) (fetchRetryActive m) (applyStoreMu m) (heartbeat m)
    (monitors m) (ctx_done m) (applies m) (unfetched m) (rejected m) (overruled m) (startup_raw m).
Definition set_stashedFetchRetry (v : option AssignmentCommit) (m : Manager) : Manager :=
  mkManager (assignment m) (committedAssignment m) (lastSeenLeaderRevision m) (highestAcceptedTarget m)
    (lastObservedCommit m) (lastSeenAlias m) (pendingApplyInFlight m) (stashedCommit m)
    (stashedApplyRetry m) (applyRetryActive m) v (fetchRetryActive m) (applyStoreMu m) (heartbeat m)
    (monitors m) (ctx_done m) (applies m) (unfetched m) (rejected m) (overruled m) (startup_raw m).
Definition set_fetchRetryActive (v : bool) (m : Manager) : Manager :=
  mkManager (assignment m) (committedAssignment m) (lastSeenLeaderRevision m) (highestAcceptedTarget m)
    (lastObservedCommit m) (lastSeenAlias m) (pendingApplyInFlight m) (stashedCommit m)
    (stashedApplyRetry m) (applyRetryActive m) (stashedFetchRetry m) v (applyStoreMu m) (heartbeat m)
    (monitors m) (ctx_done m) (applies m) (unfetched m) (rejected m) (overruled m) (startup_raw m).
Definition set_applyStoreMu (v : bool) (m : Manager) : Manager :=
  mkManager (assignment m) (committedAssignment m) (lastSeenLeaderRevision m) (highestAcceptedTarget m)
    (lastObservedCommit m) (lastSeenAlias m) (pendingApplyInFlight m) (stashedCommit m)
    (stashedApplyRetry m) (applyRetryActive m) (stashedFetchRetry m) (fetchRetryActive m) v (heartbeat
    m) (monitors m) (ctx_done m) (applies m) (unfetched m) (rejected m) (overruled m) (startup_raw m).
Definition set_heartbeat (v : AppliedAssignment) (m : Manager) : Manager :=
  mkManager (assignment m) (committedAssignment m) (lastSeenLeaderRevision m) (highestAcceptedTarget m)
    (lastObservedCommit m) (lastSeenAlias m) (pendingApplyInFlight m) (stashedCommit m)
    (stashedApplyRetry m) (applyRetryActive m) (stashedFetchRetry m) (fetchRetryActive m) (applyStoreMu
    m) v (monitors m) (ctx_done m) (applies m) (unfetched m) (rejected m) (overruled m) (startup_raw m).
Definition set_monitors (v : bool) (m : Manager) : Manager :=
  mkManager (assignment m) (committedAssignment m) (lastSeenLeaderRevision m) (highestAcceptedTarget m)
    (lastObservedCommit m) (lastSeenAlias m) (pendingApplyInFlight m) (stashedCommit m)
    (stashedApplyRetry m) (applyRetryActive m) (stashedFetchRetry m) (fetchRetryActive m) (applyStoreMu
    m) (heartbeat m) v (ctx_done m) (applies m) (unfetched m) (rejected m) (overruled m) (startup_raw m).
Definition set_ctx_done (v : bool) (m : Manager) : Manager :=
  mkManager (assignment m) (committedAssignment m) (lastSeenLeaderRevision m) (highestAcceptedTarget m)
    (lastObservedCommit m) (lastSeenAlias m) (pendingApplyInFlight m) (stashedCommit m)
    (stashedApplyRetry m) (applyRetryActive m) (stashedFetchRetry m) (fetchRetryActive m) (applyStoreMu
    m) (heartbeat m) (monitors m) v (applies m) (unfetched m) (rejected m) (overruled m) (startup_raw m).
Definition set_applies (v : list apply_call) (m : Manager) : Manager :=
  mkManager (assignment m) (committedAssignment m) (lastSeenLeaderRevision m) (highestAcceptedTarget m)
    (lastObservedCommit m) (lastSeenAlias m) (pendingApplyInFlight m) (stashedCommit m)
    (stashedApplyRetry m) (applyRetryActive m) (stashedFetchRetry m) (fetchRetryActive m) (applyStoreMu
    m) (heartbeat m) (monitors m) (ctx_done m) v (unfetched m) (rejected m) (overruled m) (startup_raw
    m).
Definition set_unfetched (v : list AssignmentCommit) (m : Manager) : Manager :=
  mkManager (assignment m) (committedAssignment m) (lastSeenLeaderRevision m) (highestAcceptedTarget m)
    (lastObservedCommit m) (lastSeenAlias m) (pendingApplyInFlight m) (stashedCommit m)
    (stashedApplyRetry m) (applyRetryActive m) (stashedFetchRetry m) (fetchRetryActive m) (applyStoreMu
    m) (heartbeat m) (monitors m) (ctx_done m) (applies m) v (rejected m) (overruled m) (startup_raw m).
Definition set_rejected (v : list Assignment) (m : Manager) : Manager :=
  mkManager (assignment m) (committedAssignment m) (lastSeenLeaderRevision m) (highestAcceptedTarget m)
    (lastObservedCommit m) (lastSeenAlias m) (pendingApplyInFlight m) (stashedCommit m)
    (stashedApplyRetry m) (applyRetryActive m) (stashedFetchRetry m) (fetchRetryActive m) (applyStoreMu
    m) (heartbeat m) (monitors m) (ctx_done m) (applies m) (unfetched m) v (overruled m) (startup_raw m).
Definition set_overruled (v : list Assignment) (m : Manager) : Manager :=
  mkManager (assignment m) (committedAssignment m) (lastSeenLeaderRevision m) (highestAcceptedTarget m)
    (lastObservedCommit m) (lastSeenAlias m) (pendingApplyInFlight m) (stashedCommit m)
    (stashedApplyRetry m) (applyRetryActive m) (stashedFetchRetry m) (fetchRetryActive m) (applyStoreMu
    m) (heartbeat m) (monitors m) (ctx_done m) (applies m) (unfetched m) (rejected m) v (startup_raw m).
Definition set_startup_raw (v : option Assignment) (m : Manager) : Manager :=
  mkManager (assignment m) (committedAssignment m) (lastSeenLeaderRevision m) (highestAcceptedTarget m)
    (lastObservedCommit m) (lastSeenAlias m) (pendingApplyInFlight m) (stashedCommit m)
    (stashedApplyRetry m) (applyRetryActive m) (stashedFetchRetry m) (fetchRetryActive m) (applyStoreMu
    m) (heartbeat m) (monitors m) (ctx_done m) (applies m) (unfetched m) (rejected m) (overruled m) v.

Definition new_manager : Manager :=
  mkManager zero_assignment None 0 None None None false None None false None false false no_ack false false
    [] [] [] [] None.

Definition CurrentAssignment (m : Manager) : Assignment := assignment m.
Definition committedAssignmentOrEmpty (m : Manager) : Assignment := default zero_assignment (committedAssignment m).

Definition currentAssignmentApplied (cur : Assignment) (m : Manager) : bool :=
  let c := committedAssignmentOrEmpty m in
  let srcOK := negb (a_SourceRevisionKnown cur) ||
    (a_SourceRevisionKnown c && bool_decide (a_SourceRevision c = a_SourceRevision cur)) in
  bool_decide (a_Version c = a_Version cur) && bool_decide (a_LeaderRevision c = a_LeaderRevision cur) && srcOK &&
  bool_decide (PartitionSetDigest (a_Partitions c) = PartitionSetDigest (a_Partitions cur)).

(** ** Goroutines *)

Definition second : Z := 1000000000.
Definition maxBackoff : Z := 30 * second.

Definition grow (backoff : Z) : Z :=
  if decide (backoff < maxBackoff)%Z then
    if decide (maxBackoff < backoff * 2)%Z then maxBackoff else (backoff * 2)%Z
  else backoff.

(** How a call of [applyAssignmentWithPrev] ends. *)
Inductive result := ROk | RRejected | RErr.

(** Who called it. [ByStart] carries the commit the startup applies. *)
Inductive caller :=
| ByCommit
| ByAlias
| ByStart (commit : option AssignmentCommit)
| ByApplyLoop (backoff : Z)
| ByFetchLoop
| ByRecovery.

(** The next thing a goroutine does. *)
Inductive thread :=
(* runStartupBackground: waitForAssignment and applyInitialAssignment *)
| StWait
| StRead (initial : Assignment)
| StBuild (initial : Assignment) (c : AssignmentCommit)
| StAlias (initial : Assignment)
| StEmpty
| StEmptyCommit
| StEmptyAck
| StObserve (c : AssignmentCommit)
| StClear
| StMonitors
(* handleCommitValueOnce *)
| HcLoad (c : AssignmentCommit)
| HcSeen (c : AssignmentCommit)
| HcSeenLsr (c : AssignmentCommit)
| HcFence (c : AssignmentCommit)
| HcObserved (c : AssignmentCommit) (lastSeen : Z)
| HcAuthority (c : AssignmentCommit) (lastSeen : Z)
| HcPending (c : AssignmentCommit)
| HcStash (c : AssignmentCommit)
| HcAccept (c : AssignmentCommit)
| HcBuild (c : AssignmentCommit)
| HcFailClear (c : AssignmentCommit)
| HcFailSwap (c : AssignmentCommit)
| HcClear (a : Assignment)
| HcDrain (a : Assignment)
(* handleAssignmentEntry *)
| AhFence (a : Assignment)
| AhLoad (a : Assignment) (lastSeen : Z)
| AhAccept (a : Assignment) (lastSeen : Z)
| AhRemember (a : Assignment) (lastSeen : Z)
| AhAuthority (a : Assignment) (lastSeen : Z)
(* applyAssignmentWithPrev, applyAssignmentWithPrevSkipJitter *)
| ApEnter (a : Assignment) (k : caller)
| ApJitter (a : Assignment) (k : caller)
(* applyAssignmentWithPrevCore *)
| CoLock (a : Assignment) (k : caller)
| CoStale (a : Assignment) (k : caller)
| CoFence (a : Assignment) (k : caller)
| CoAccept (a : Assignment) (k : caller)
| CoPrev (a : Assignment) (k : caller)
| CoApply (a prev : Assignment) (k : caller)
| CoLsr (a : Assignment) (k : caller)
| CoStore (a : Assignment) (k : caller)
| CoCommit (a : Assignment) (k : caller)
| CoAck (a : Assignment) (k : caller)
| CoUnlock (a : Assignment) (k : caller)
| CoDrop (a : Assignment) (k : caller)
| CoFail (a : Assignment) (k : caller)
(* scheduleApplyRetry *)
| ArStash (a : Assignment) (k : caller)
| ArActivate (a : Assignment) (k : caller)
(* activateApplyRetryLoop, the goroutine *)
| AlWait (backoff : Z)
| AlSwap (backoff : Z)
| AlAgain
| AlExit
| AlCheckCtx
| AlCheckStash
| AlReactivate
(* scheduleCommitFetchRetry *)
| FrStash (c : AssignmentCommit)
| FrActivate
(* activateFetchRetryLoop, the goroutine *)
| FlWait (backoff : Z)
| FlSwap (backoff : Z)
| FlFence (c : AssignmentCommit) (backoff : Z)
| FlBuild (c : AssignmentCommit) (backoff : Z)
| FlRestash (c : AssignmentCommit) (backoff : Z)
| FlAgain
| FlExit
| FlCheckCtx
| FlCheckStash
| FlReactivate
(* refreshAssignmentFromNATS with monotonicStore, attemptRecoveryFromDegraded *)
| RfLock (a : Assignment)
| RfCheck (a : Assignment)
| RfLsr (a : Assignment)
| RfStore (a : Assignment)
| RfUnlock
| RcLoad
| RcApplied (cur : Assignment)
| Finished.

(** What the environment answers. *)
Inductive choice :=
| Go
| Canceled
| Outcome (ok : bool)
| Fetched (payload : option AssignmentPayload)
| Initial (alias : option Assignment)
| CommitRead (commit : option AssignmentCommit).

(** Where the caller goes on. *)
Definition finish (k : caller) (a : Assignment) (r : result) : thread :=
  match k with
  | ByCommit => HcClear a
  | ByAlias | ByRecovery => Finished
  | ByStart commit =>
      match r, commit with
      | ROk, Some c => StObserve c
      | RRejected, _ => StClear
      | _, _ => StMonitors
      end
  | ByApplyLoop backoff => match r with ROk => AlAgain | _ => AlWait (grow backoff) end
  | ByFetchLoop => FlAgain
  end.

Definition jittered (k : caller) : bool :=
  match k with ByCommit | ByAlias | ByStart _ => true | _ => false end.

Definition raiseAcceptedTarget (target : coords) (m : Manager) : Manager :=
  match highestAcceptedTarget m with
  | Some cur => if stale cur target then set_highestAcceptedTarget (Some target) m else m
  | None => set_highestAcceptedTarget (Some target) m
  end.

Definition updateLastSeenLeaderRevision (rev : Z) (m : Manager) : Manager :=
  if decide (rev <= lastSeenLeaderRevision m)%Z then m else set_lastSeenLeaderRevision rev m.

(** The compare-and-swap loop of [scheduleApplyRetry]. *)
Definition stashApplyRetry (a : Assignment) (m : Manager) : Manager :=
  match stashedApplyRetry m with
  | Some cur => if assignmentSupersedesForStash a cur then set_stashedApplyRetry (Some a) m else m
  | None => set_stashedApplyRetry (Some a) m
  end.

Definition stashFetchRetryCandidate (c : AssignmentCommit) (m : Manager) : Manager :=
  match stashedFetchRetry m with
  | Some cur => if commitSupersedesForStash c cur then set_stashedFetchRetry (Some c) m else m
  | None => set_stashedFetchRetry (Some c) m
  end.

(** Case (e) of [handleCommitValueOnce]. *)
Definition stashCommit (c : AssignmentCommit) (m : Manager) : Manager :=
  match stashedCommit m with
  | Some prev => if commitSupersedesForStash c prev then set_stashedCommit (Some c) m else m
  | None => set_stashedCommit (Some c) m
  end.

(** *** One step of a goroutine *)

(** The worker's identifier and labels, and whether [ApplyStartJitter] is set. *)
Variables (workerID : string) (workerLabels : list string) (jitter : bool).

Definition labelIncarnationMismatch (a : Assignment) : bool :=
  a_WorkerLabelsKnown a && bool_decide (a_WorkerLabels a <> workerLabels).

Definition outcome : Type := Manager * thread * list thread.
Definition go (m : Manager) (t : thread) : option outcome := Some (m, t, []).

(** A goroutine that waits on [ctx.Done()] goes on only once it is closed. *)
Definition canceled (m : Manager) (t : thread) : option outcome := if ctx_done m then go m t else None.

Definition exec_start (ch : choice) (m : Manager) (t : thread) : option outcome :=
  match t, ch with
  | StWait, Initial None => go m StMonitors
  | StWait, Initial (Some a) => go (set_startup_raw (Some a) (set_assignment a m)) (StRead a)
  | StRead initial, CommitRead oc =>
      match oc with
      | Some c => if decide (a_Version initial <= Version c)%Z then go m (StBuild initial c) else go m (StAlias initial)
      | None => go m (StAlias initial)
      end
  | StBuild initial c, Fetched p =>
      match buildAssignmentFromCommit c workerID p with
      | Some a => go m (ApEnter a (ByStart (Some c)))
      | None => go m (StAlias initial)
      end
  | StAlias initial, Go =>
      if decide (a_Version initial = 0%Z /\ a_Partitions initial = []) then go m StEmpty
      else go m (ApEnter initial (ByStart None))
  | StEmpty, Go => go (set_assignment zero_assignment m) StEmptyCommit
  | StEmptyCommit, Go => go (set_committedAssignment (Some zero_assignment) m) StEmptyAck
  | StEmptyAck, Go => go (set_heartbeat (SetAppliedAssignment (ack_of zero_assignment) (heartbeat m)) m) StMonitors
  | StObserve c, Go => go (set_lastObservedCommit (Some c) m) StMonitors
  | StClear, Go => go (set_assignment zero_assignment m) StMonitors
  | StMonitors, Go => go (set_monitors true m) Finished
  | _, _ => None
  end.

Definition exec_commit (ch : choice) (m : Manager) (t : thread) : option outcome :=
  match t, ch with
  | HcLoad c, Go => if decide (Version c <= a_Version (CurrentAssignment m))%Z then go m (HcSeen c) else go m (HcFence c)
  | HcSeen c, Go => go (set_lastObservedCommit (Some c) m) (HcSeenLsr c)
  | HcSeenLsr c, Go => go (updateLastSeenLeaderRevision (LeaderRevision c) m) Finished
  | HcFence c, Go =>
      let lastSeen := lastSeenLeaderRevision m in
      if decide (LeaderRevision c < lastSeen)%Z then go m Finished else go m (HcObserved c lastSeen)
  | HcObserved c lastSeen, Go => go (set_lastObservedCommit (Some c) m) (HcAuthority c lastSeen)
  | HcAuthority c lastSeen, Go =>
      match selectAuthority (Some c) (lastSeenAlias m) lastSeen with
      | AuthorityCommit => go m (HcPending c)
      | _ => go m Finished
      end
  | HcPending c, Go =>
      if pendingApplyInFlight m then go m (HcStash c) else go (set_pendingApplyInFlight true m) (HcAccept c)
  | HcStash c, Go => go (stashCommit c m) Finished
  | HcAccept c, Go => go (raiseAcceptedTarget (coordC c) m) (HcBuild c)
  | HcBuild c, Fetched p =>
      match buildAssignmentFromCommit c workerID p with
      | Some a => go m (ApEnter a ByCommit)
      | None => go (set_unfetched (c :: unfetched m) m) (HcFailClear c)
      end
  | HcFailClear c, Go => go (set_pendingApplyInFlight false m) (HcFailSwap c)
  | HcFailSwap c, Go =>
      let m' := set_stashedCommit None m in
      match stashedCommit m with
      | Some pending => if commitSupersedesForStash pending c then go m' (HcLoad pending) else go m' (FrStash c)
      | None => go m' (FrStash c)
      end
  | HcClear a, Go => go (set_pendingApplyInFlight false m) (HcDrain a)
  | HcDrain a, Go =>
      let m' := set_stashedCommit None m in
      match stashedCommit m with
      | Some pending => if commitSupersedesAppliedForDrain pending a then go m' (HcLoad pending) else go m' Finished
      | None => go m' Finished
      end
  | _, _ => None
  end.

Definition exec_alias (ch : choice) (m : Manager) (t : thread) : option outcome :=
  match t, ch with
  | AhFence a, Go =>
      let lastSeen := lastSeenLeaderRevision m in
      if decide (a_LeaderRevision a <> 0 /\ a_LeaderRevision a < lastSeen)%Z then go m Finished
      else go m (AhLoad a lastSeen)
  | AhLoad a lastSeen, Go =>
      if decide (a_Version a <= a_Version (CurrentAssignment m))%Z then go m Finished else go m (AhAccept a lastSeen)
  | AhAccept a lastSeen, Go => go (raiseAcceptedTarget (coord a) m) (AhRemember a lastSeen)
  | AhRemember a lastSeen, Go => go (set_lastSeenAlias (Some a) m) (AhAuthority a lastSeen)
  | AhAuthority a lastSeen, Go =>
      match selectAuthority (lastObservedCommit m) (Some a) lastSeen with
      | AuthorityLegacyAlias => go m (ApEnter a ByAlias)
      | _ => go (set_overruled (a :: overruled m) m) Finished
      end
  | _, _ => None
  end.

(** The apply pipeline. [applyStoreMu] is held from [CoStale] to [CoUnlock],
    [CoDrop] or [CoFail]; the [oldAssignment] argument is overwritten by the
    committed assignment before it is used, so the program counters do not
    carry it. *)
Definition exec_core (ch : choice) (m : Manager) (t : thread) : option outcome :=
  match t, ch with
  | ApEnter a k, Go =>
      if labelIncarnationMismatch a then go (set_rejected (a :: rejected m) m) (finish k a RRejected)
      else if jittered k && jitter then go m (ApJitter a k) else go m (CoLock a k)
  | ApJitter a k, Go => go m (CoLock a k)
  | ApJitter a k, Canceled => canceled m (finish k a RErr)
  | CoLock a k, Go => if applyStoreMu m then None else go (set_applyStoreMu true m) (CoStale a k)
  | CoStale a k, Go => if isApplyResultStale a (CurrentAssignment m) then go m (CoDrop a k) else go m (CoFence a k)
  | CoFence a k, Go =>
      match highestAcceptedTarget m with
      | Some fence => if stale (coord a) fence then go m (CoDrop a k) else go m (CoAccept a k)
      | None => go m (CoAccept a k)
      end
  | CoAccept a k, Go => go (raiseAcceptedTarget (coord a) m) (CoPrev a k)
  | CoPrev a k, Go => go m (CoApply a (committedAssignmentOrEmpty m) k)
  | CoApply a prev k, Outcome ok =>
      go (set_applies (applies m ++ [mkCall prev a ok]) m) (if ok then CoLsr a k else CoFail a k)
  | CoLsr a k, Go => go (updateLastSeenLeaderRevision (a_LeaderRevision a) m) (CoStore a k)
  | CoStore a k, Go => go (set_assignment a m) (CoCommit a k)
  | CoCommit a k, Go => go (set_committedAssignment (Some a) m) (CoAck a k)
  | CoAck a k, Go => go (set_heartbeat (SetAppliedAssignment (ack_of a) (heartbeat m)) m) (CoUnlock a k)
  | CoUnlock a k, Go | CoDrop a k, Go => go (set_applyStoreMu false m) (finish k a ROk)
  | CoFail a k, Go => go (set_applyStoreMu false m) (ArStash a k)
  | ArStash a k, Go => go (stashApplyRetry a m) (ArActivate a k)
  | ArActivate a k, Go =>
      if applyRetryActive m then go m (finish k a RErr)
      else Some (set_applyRetryActive true m, finish k a RErr, [AlWait second])
  | _, _ => None
  end.

Definition exec_apply_loop (ch : choice) (m : Manager) (t : thread) : option outcome :=
  match t, ch with
  | AlWait backoff, Go => go m (AlSwap backoff)
  | AlWait backoff, Canceled => canceled m AlExit
  | AlSwap backoff, Go =>
      match stashedApplyRetry m with
      | Some pending => go (set_stashedApplyRetry None m) (ApEnter pending (ByApplyLoop backoff))
      | None => go m AlExit
      end
  | AlAgain, Go => match stashedApplyRetry m with Some _ => go m (AlWait second) | None => go m AlExit end
  | AlExit, Go => go (set_applyRetryActive false m) AlCheckCtx
  | AlCheckCtx, Go => if ctx_done m then go m Finished else go m AlCheckStash
  | AlCheckStash, Go => match stashedApplyRetry m with Some _ => go m AlReactivate | None => go m Finished end
  | AlReactivate, Go =>
      if applyRetryActive m then go m Finished else Some (set_applyRetryActive true m, Finished, [AlWait second])
  | _, _ => None
  end.

Definition exec_fetch_loop (ch : choice) (m : Manager) (t : thread) : option outcome :=
  match t, ch with
  | FrStash c, Go => go (stashFetchRetryCandidate c m) FrActivate
  | FrActivate, Go =>
      if fetchRetryActive m then go m Finished else Some (set_fetchRetryActive true m, Finished, [FlWait second])
  | FlWait backoff, Go => go m (FlSwap backoff)
  | FlWait backoff, Canceled => canceled m FlExit
  | FlSwap backoff, Go =>
      match stashedFetchRetry m with
      | Some pending => go (set_stashedFetchRetry None m) (FlFence pending backoff)
      | None => go m FlExit
      end
  | FlFence c backoff, Go =>
      match highestAcceptedTarget m with
      | Some fence => if stale (coordC c) fence then go m FlAgain else go m (FlBuild c backoff)
      | None => go m (FlBuild c backoff)
      end
  | FlBuild c backoff, Fetched p =>
      match buildAssignmentFromCommit c workerID p with
      | Some a => go m (ApEnter a ByFetchLoop)
      | None => go (set_unfetched (c :: unfetched m) m) (FlRestash c backoff)
      end
  | FlRestash c backoff, Go => go (stashFetchRetryCandidate c m) (FlWait (grow backoff))
  | FlAgain, Go => match stashedFetchRetry m with Some _ => go m (FlWait second) | None => go m FlExit end
  | FlExit, Go => go (set_fetchRetryActive false m) FlCheckCtx
  | FlCheckCtx, Go => if ctx_done m then go m Finished else go m FlCheckStash
  | FlCheckStash, Go => match stashedFetchRetry m with Some _ => go m FlReactivate | None => go m Finished end
  | FlReactivate, Go =>
      if fetchRetryActive m then go m Finished else Some (set_fetchRetryActive true m, Finished, [FlWait second])
  | _, _ => None
  end.

(** Recovery from degraded mode refreshes the snapshot and re-arms an apply
    when the snapshot was not applied. *)
Definition exec_recovery (ch : choice) (m : Manager) (t : thread) : option outcome :=
  match t, ch with
  | RfLock a, Go => if applyStoreMu m then None else go (set_applyStoreMu true m) (RfCheck a)
  | RfCheck a, Go => if isApplyResultStale a (CurrentAssignment m) then go m RfUnlock else go m (RfLsr a)
  | RfLsr a, Go => go (updateLastSeenLeaderRevision (a_LeaderRevision a) m) (RfStore a)
  | RfStore a, Go => go (set_assignment a m) RfUnlock
  | RfUnlock, Go => go (set_applyStoreMu false m) RcLoad
  | RcLoad, Go => go m (RcApplied (CurrentAssignment m))
  | RcApplied cur, Go => if currentAssignmentApplied cur m then go m Finished else go m (ArStash cur ByRecovery)
  | _, _ => None
  end.

Definition first_of {A} (o1 o2 : option A) : option A := match o1 with Some _ => o1 | None => o2 end.

Definition exec (ch : choice) (m : Manager) (t : thread) : option outcome :=
  first_of (exec_start ch m t) (first_of (exec_commit ch m t) (first_of (exec_alias ch m t)
    (first_of (exec_core ch m t) (first_of (exec_apply_loop ch m t) (first_of (exec_fetch_loop ch m t)
      (exec_recovery ch m t)))))).

(** ** Interleavings *)

Definition config : Type := Manager * list thread.

(** A watcher delivers a commit or an alias, or the recovery refreshes the
    assignment from the bucket; they run once startup has started them. *)
Inductive event := Commit (c : AssignmentCommit) | Alias (a : Assignment) | Refresh (a : Assignment).

Definition handler (e : event) : thread :=
  match e with Commit c => HcLoad c | Alias a => AhFence a | Refresh a => RfLock a end.

(** The bucket holds assignments and commits of the publisher, whose versions
    are not negative. *)
Definition known_choice (ch : choice) : Prop :=
  match ch with
  | Initial (Some a) => (0 <= a_Version a)%Z
  | CommitRead (Some c) => (0 <= Version c)%Z
  | _ => True
  end.

Definition known_event (e : event) : Prop :=
  match e with Commit c => (0 <= Version c)%Z | Alias a | Refresh a => (0 <= a_Version a)%Z end.

Inductive step : config -> config -> Prop :=
| step_thread ts1 t ts2 ch m m' t' new :
    known_choice ch -> exec ch m t = Some (m', t', new) ->
    step (m, ts1 ++ t :: ts2) (m', ts1 ++ t' :: new ++ ts2)
| step_event e m ts : monitors m = true -> known_event e -> step (m, ts) (m, ts ++ [handler e])
| step_cancel m ts : step (m, ts) (set_ctx_done true m, ts).

Definition start : config := (new_manager, [StWait]).
Definition reachable (c : config) : Prop := rtc step start c.
End pipeline.

(** ** Executable schedules *)

Inductive action := Act (i : nat) (ch : choice) | Deliver (e : event).

#[local] Instance known_choice_dec ch : Decision (known_choice ch).
Proof. destruct ch as [| | | |[]|[]]; apply _. Defined.

#[local] Instance known_event_dec e : Decision (known_event e).
Proof. destruct e; apply _. Defined.

Section schedules.
Context `{Xxh3} (workerID : string) (workerLabels : list string) (jitter : bool).

Definition perform (a : action) (c : config) : option config :=
  let '(m, ts) := c in
  match a with
  | Act i ch =>
      t ← ts !! i;
      guard (known_choice ch);;
      '(m', t', new) ← exec workerID workerLabels jitter ch m t;
      Some (m', take i ts ++ t' :: new ++ drop (S i) ts)
  | Deliver e =>
      guard (monitors m = true);;
      guard (known_event e);;
      Some (m, ts ++ [handler e])
  end.

Lemma perform_step a c c' : perform a c = Some c' -> step workerID workerLabels jitter c c'.
Proof.
  destruct c as [m ts], a as [i ch|e]; cbn; intros E.
  - destruct (ts !! i) as [t|] eqn:Et; [|done]. simplify_option_eq.
    match goal with E : exec _ _ _ _ _ _ = Some ?o |- _ => destruct o as [ [m' t'] new] eqn:Eo end. simplify_eq/=.
    rewrite <- (take_drop_middle ts i t Et) at 1. by eapply step_thread.
  - simplify_option_eq. by apply step_event.
Qed.

Fixpoint run (acts : list action) (c : config) : option config :=
  match acts with
  | [] => Some c
  | a :: acts => c' ← perform a c; run acts c'
  end.

Lemma run_steps acts c c' : run acts c = Some c' -> rtc (step workerID workerLabels jitter) c c'.
Proof.
  revert c. induction acts as [|a acts IH]; intros c E; simplify_eq/=; [done|].
  simplify_option_eq. eapply rtc_l; [by eapply perform_step|by apply IH].
Qed.
End schedules.
