(* ===== verification/ApplyOrder.v ===== *)
(** * A worker applies assignments in order

    In every interleaving of the goroutines of ApplyPipeline.v the coordinator is
    called for one target at a time, the targets never go back, each call starts
    from the last assignment that was applied, and what the heartbeat
    acknowledges is what was applied. *)
From S2P Require Import Prelude Partition Wire ApplyPipeline.

(** ** The order of targets *)

(** [le a b]: a target at [b] is not stale after one at [a]. *)
Definition le (a b : coords) : Prop := stale b a = false.

Lemma stale_spec a b :
  stale a b = true <-> (a.1 = 0 /\ b.1 <> 0 \/ a.1 <> 0 /\ (a.1 < b.1 \/ a.1 = b.1 /\ a.2 < b.2))%Z.
Proof.
  unfold stale. destruct (decide (a.1 = 0)%Z); [rewrite bool_decide_eq_true; lia|].
  destruct (decide (a.1 <> b.1)); rewrite bool_decide_eq_true; lia.
Qed.

Lemma le_spec a b :
  le a b <-> (b.1 = 0 /\ a.1 = 0 \/ b.1 <> 0 /\ (a.1 < b.1 \/ a.1 = b.1 /\ a.2 <= b.2))%Z.
Proof. unfold le. rewrite <- not_true_iff_false, stale_spec. lia. Qed.

Lemma le_lex a b :
  (0 <= a.1)%Z -> (0 <= b.1)%Z ->
  le a b <-> (a.1 < b.1 \/ a.1 = b.1 /\ (a.1 = 0 \/ a.2 <= b.2))%Z.
Proof. rewrite le_spec. lia. Qed.

Lemma le_refl a : le a a.
Proof. rewrite le_spec. lia. Qed.

Lemma le_trans a b c : le a b -> le b c -> le a c.
Proof. rewrite !le_spec. lia. Qed.

Lemma le_version a b : le a b -> (a.1 <= b.1)%Z.
Proof. rewrite le_spec. lia. Qed.

Lemma le_zero lr b : (0 <= b.1)%Z -> le (0%Z, lr) b.
Proof. rewrite le_spec. cbn. lia. Qed.

Lemma stale_le a b : (0 <= a.1)%Z -> (0 <= b.1)%Z -> stale a b = true -> le a b.
Proof. rewrite stale_spec, le_spec. lia. Qed.

Lemma stale_mono a b c : stale a b = true -> le b c -> stale a c = true.
Proof. rewrite !stale_spec, le_spec. lia. Qed.

(** The accepted target is at least [a]. *)
Definition fenced (a : coords) (m : Manager) : Prop := exists f, highestAcceptedTarget m = Some f /\ le a f.

Definition fence_le (f f' : option coords) : Prop :=
  match f, f' with Some a, Some b => le a b | Some _, None => False | None, _ => True end.

Lemma fence_le_refl f : fence_le f f.
Proof. destruct f; simpl; [apply le_refl|done]. Qed.

Lemma fence_le_trans f g h : fence_le f g -> fence_le g h -> fence_le f h.
Proof. destruct f, g, h; simpl; try done. apply le_trans. Qed.

Lemma fenced_mono a m m' :
  fence_le (highestAcceptedTarget m) (highestAcceptedTarget m') -> fenced a m -> fenced a m'.
Proof.
  intros L (f & E & La). rewrite E in L. unfold fenced.
  destruct (highestAcceptedTarget m') as [g|]; [|done]. exists g. eauto using le_trans.
Qed.

Lemma raise_fence_le a m :
  from_option (λ f, 0 <= f.1)%Z True (highestAcceptedTarget m) -> (0 <= a.1)%Z ->
  fence_le (highestAcceptedTarget m) (highestAcceptedTarget (raiseAcceptedTarget a m)).
Proof.
  intros N ?. unfold raiseAcceptedTarget. destruct (highestAcceptedTarget m) as [f|] eqn:E; [|done].
  destruct (stale f a) eqn:S; cbn; [by apply stale_le|]. rewrite E. apply le_refl.
Qed.

Lemma raise_fenced a m : fenced a (raiseAcceptedTarget a m).
Proof.
  unfold raiseAcceptedTarget, fenced. destruct (highestAcceptedTarget m) as [f|] eqn:E.
  - destruct (stale f a) eqn:S; [exists a; split; [done|apply le_refl]|exists f; done].
  - exists a. split; [done|apply le_refl].
Qed.

(** Splits a step of a goroutine into the cases of its program counter. *)
Ltac exec_cases E :=
  lazymatch type of E with exec _ _ _ ?ch ?m ?t = _ =>
    unfold exec, first_of, exec_start, exec_commit, exec_alias, exec_core, exec_apply_loop, exec_fetch_loop,
      exec_recovery, canceled, go in E;
    destruct t; destruct ch; try discriminate E; cbn in E
  end;
  repeat case_match; simplify_eq.

Section order.
Context `{Xxh3} (workerID : string) (workerLabels : list string) (jitter : bool).

(** ** The calls of the coordinator *)

(** The target of the last call that succeeded. *)
Definition last_applied (l : list apply_call) : Assignment :=
  fold_left (λ a c, if call_ok c then call_target c else a) l zero_assignment.

#[local] Arguments last_applied : simpl never.

(** Every call starts from the last assignment that was applied and its target
    is not older than the target of an earlier call. *)
Definition calls_in_order (l : list apply_call) : Prop :=
  forall l1 c l2, l = l1 ++ c :: l2 ->
    call_prev c = last_applied l1 /\ Forall (λ c', le (coord (call_target c')) (coord (call_target c))) l1.

Lemma last_applied_app l c : last_applied (l ++ [c]) = if call_ok c then call_target c else last_applied l.
Proof. unfold last_applied. by rewrite fold_left_app. Qed.

Lemma calls_in_order_app l c :
  calls_in_order l -> call_prev c = last_applied l ->
  Forall (λ c', le (coord (call_target c')) (coord (call_target c))) l -> calls_in_order (l ++ [c]).
Proof.
  intros L P F l1 d l2 E. destruct l2 as [|x l2] using rev_ind.
  - apply app_inj_tail in E as [-> ->]. done.
  - rewrite app_comm_cons, app_assoc in E. apply app_inj_tail in E as [E _]. by apply (L l1 d l2).
Qed.

(** ** The invariant *)

(** The goroutine holds [applyStoreMu]. *)
Definition in_cs (t : thread) : bool :=
  match t with
  | CoStale _ _ | CoFence _ _ | CoAccept _ _ | CoPrev _ _ | CoApply _ _ _ | CoLsr _ _ | CoStore _ _ | CoCommit _ _
  | CoAck _ _ | CoUnlock _ _ | CoDrop _ _ | CoFail _ _ | RfCheck _ | RfLsr _ | RfStore _ | RfUnlock => true
  | _ => false
  end.

Definition by_start (k : caller) : bool := match k with ByStart _ => true | _ => false end.

(** Startup, until its call of the coordinator. *)
Definition early (t : thread) : bool :=
  match t with
  | StWait | StRead _ | StBuild _ _ | StAlias _ | StEmpty | StEmptyCommit | StEmptyAck | StClear => true
  | ApEnter _ k | ApJitter _ k | CoLock _ k | CoStale _ k | CoFence _ k | CoAccept _ k | CoPrev _ k | CoApply _ _ k =>
      by_start k
  | _ => false
  end.

(** The versions a goroutine carries. *)
Definition versions (t : thread) : list Z :=
  match t with
  | StRead a | StAlias a | HcClear a | HcDrain a | AhFence a | AhLoad a _ | AhAccept a _ | AhRemember a _
  | AhAuthority a _ | ApEnter a _ | ApJitter a _ | CoLock a _ | CoStale a _ | CoFence a _ | CoAccept a _ | CoPrev a _
  | CoApply a _ _ | CoLsr a _ | CoStore a _ | CoCommit a _ | CoAck a _ | CoUnlock a _ | CoDrop a _ | CoFail a _
  | ArStash a _ | ArActivate a _ | RfLock a | RfCheck a | RfLsr a | RfStore a | RcApplied a => [a_Version a]
  | StBuild a c => [a_Version a; Version c]
  | HcLoad c | HcSeen c | HcSeenLsr c | HcFence c | HcObserved c _ | HcAuthority c _ | HcPending c | HcStash c
  | HcAccept c | HcBuild c | HcFailClear c | HcFailSwap c | FrStash c | FlFence c _ | FlBuild c _ | FlRestash c _ =>
      [Version c]
  | _ => []
  end.

Definition nonneg_thread (t : thread) : Prop := Forall (Z.le 0) (versions t).

Record nonneg (m : Manager) : Prop := {
  nn_assignment : (0 <= a_Version (assignment m))%Z;
  nn_fence : from_option (λ f, 0 <= f.1)%Z True (highestAcceptedTarget m);
  nn_commit : from_option (λ c, 0 <= Version c)%Z True (stashedCommit m);
  nn_apply : from_option (λ a, 0 <= a_Version a)%Z True (stashedApplyRetry m);
  nn_fetch : from_option (λ c, 0 <= Version c)%Z True (stashedFetchRetry m);
  nn_committed : (0 <= a_Version (committedAssignmentOrEmpty m))%Z;
}.

(** The committed assignment is the last one applied, and it is acknowledged. *)
Definition synced (m : Manager) : Prop :=
  committedAssignmentOrEmpty m = last_applied (applies m) /\ heartbeat m = ack_of (last_applied (applies m)).

Definition ack_coord (h : AppliedAssignment) : coords := (AppliedVersion h, ap_LeaderRevision h).

(** Every target of the coordinator is at most [a]. *)
Definition above_calls (a : Assignment) (m : Manager) : Prop :=
  Forall (λ c, le (coord (call_target c)) (coord a)) (applies m).

(** What holds while a goroutine is in the critical section. *)
Definition cs_ok (m : Manager) (t : thread) : Prop :=
  match t with
  | CoFence a _ | RfLsr a => synced m /\ le (coord (assignment m)) (coord a)
  | CoAccept a _ => synced m /\ le (coord (assignment m)) (coord a) /\ above_calls a m
  | CoPrev a _ => synced m /\ le (coord (assignment m)) (coord a) /\ above_calls a m /\ fenced (coord a) m
  | CoApply a prev _ =>
      synced m /\ le (coord (assignment m)) (coord a) /\ above_calls a m /\ fenced (coord a) m /\
      prev = last_applied (applies m)
  | CoLsr a _ =>
      le (coord (assignment m)) (coord a) /\ last_applied (applies m) = a /\
      heartbeat m = ack_of (committedAssignmentOrEmpty m)
  | CoStore a _ =>
      le (coord (assignment m)) (coord a) /\ last_applied (applies m) = a /\
      heartbeat m = ack_of (committedAssignmentOrEmpty m) /\ (a_LeaderRevision a <= lastSeenLeaderRevision m)%Z
  | CoCommit a _ =>
      assignment m = a /\ last_applied (applies m) = a /\ heartbeat m = ack_of (committedAssignmentOrEmpty m)
  | CoAck a _ =>
      assignment m = a /\ committedAssignment m = Some a /\ last_applied (applies m) = a /\
      le (ack_coord (heartbeat m)) (coord a)
  | CoUnlock a _ => synced m /\ committedAssignment m = Some a
  | RfStore a =>
      synced m /\ le (coord (assignment m)) (coord a) /\ (a_LeaderRevision a <= lastSeenLeaderRevision m)%Z
  | CoDrop a _ =>
      synced m /\ (stale (coord a) (coord (assignment m)) = true \/
        exists f, highestAcceptedTarget m = Some f /\ stale (coord a) f = true)
  | CoStale _ _ | CoFail _ _ | RfCheck _ | RfUnlock => synced m
  | _ => True
  end.

(** What holds of the shared state at all times. *)
Record state_ok (m : Manager) : Prop := {
  st_nonneg : nonneg m;
  st_committed : le (coord (committedAssignmentOrEmpty m)) (coord (assignment m));
  st_fenced : Forall (λ c, fenced (coord (call_target c)) m) (applies m);
  st_calls : calls_in_order (applies m);
}.

Record Inv (m : Manager) (ts : list thread) : Prop := {
  inv_lock : count in_cs ts = if applyStoreMu m then 1 else 0;
  inv_cs : Forall (cs_ok m) ts;
  inv_idle : applyStoreMu m = false -> synced m;
  inv_start : forall t, t ∈ ts -> early t = true -> ts = [t] /\ monitors m = false /\ applies m = [];
  inv_threads : Forall nonneg_thread ts;
  inv_state : state_ok m;
}.

(** ** Steps outside the critical section *)

(** What a step of another goroutine leaves to the one that holds the lock. *)
Record quiet (m m' : Manager) : Prop := {
  q_assignment : assignment m' = assignment m;
  q_committed : committedAssignment m' = committedAssignment m;
  q_heartbeat : heartbeat m' = heartbeat m;
  q_applies : applies m' = applies m;
  q_fence : fence_le (highestAcceptedTarget m) (highestAcceptedTarget m');
  q_lsr : (lastSeenLeaderRevision m <= lastSeenLeaderRevision m')%Z;
}.

Lemma quiet_raise a m : nonneg m -> (0 <= a.1)%Z -> quiet m (raiseAcceptedTarget a m).
Proof.
  intros N ?. pose proof (raise_fence_le a m (nn_fence _ N)) as L.
  split; try (by apply L); unfold raiseAcceptedTarget; destruct (highestAcceptedTarget m) as [f|]; try destruct (stale f a); cbn; done.
Qed.

Lemma quiet_lsr r m : quiet m (updateLastSeenLeaderRevision r m).
Proof. unfold updateLastSeenLeaderRevision. case_decide; split; cbn; try done; try apply fence_le_refl; lia. Qed.

Lemma quiet_same m m' :
  assignment m' = assignment m -> committedAssignment m' = committedAssignment m -> heartbeat m' = heartbeat m ->
  applies m' = applies m -> highestAcceptedTarget m' = highestAcceptedTarget m ->
  lastSeenLeaderRevision m' = lastSeenLeaderRevision m -> quiet m m'.
Proof. intros ???? E L. split; rewrite ?E, ?L; try done. apply fence_le_refl. Qed.

Lemma nonneg_raise a m : nonneg m -> (0 <= a.1)%Z -> nonneg (raiseAcceptedTarget a m).
Proof. intros N ?. unfold raiseAcceptedTarget. repeat case_match; try done; destruct N; by split. Qed.

Lemma nonneg_lsr r m : nonneg m -> nonneg (updateLastSeenLeaderRevision r m).
Proof. intros N. unfold updateLastSeenLeaderRevision. repeat case_match; try done; destruct N; by split. Qed.

Lemma nonneg_stash_apply a m : nonneg m -> (0 <= a_Version a)%Z -> nonneg (stashApplyRetry a m).
Proof. intros N ?. unfold stashApplyRetry. repeat case_match; try done; destruct N; by split. Qed.

Lemma nonneg_stash_fetch c m : nonneg m -> (0 <= Version c)%Z -> nonneg (stashFetchRetryCandidate c m).
Proof. intros N ?. unfold stashFetchRetryCandidate. repeat case_match; try done; destruct N; by split. Qed.

Lemma nonneg_stash_commit c m : nonneg m -> (0 <= Version c)%Z -> nonneg (stashCommit c m).
Proof. intros N ?. unfold stashCommit. repeat case_match; try done; destruct N; by split. Qed.

Lemma nn_commit_Some m c : nonneg m -> stashedCommit m = Some c -> (0 <= Version c)%Z.
Proof. intros [_ _ N _ _ _] E. by rewrite E in N. Qed.

Lemma nn_apply_Some m a : nonneg m -> stashedApplyRetry m = Some a -> (0 <= a_Version a)%Z.
Proof. intros [_ _ _ N _ _] E. by rewrite E in N. Qed.

Lemma nn_fetch_Some m c : nonneg m -> stashedFetchRetry m = Some c -> (0 <= Version c)%Z.
Proof. intros [_ _ _ _ N _] E. by rewrite E in N. Qed.

Lemma build_version c w p a : buildAssignmentFromCommit c w p = Some a -> coord a = coordC c.
Proof. unfold buildAssignmentFromCommit. repeat case_match; intros; simplify_eq; done. Qed.

Lemma finish_nonneg k a r : (0 <= a_Version a)%Z -> Forall (Z.le 0) (versions (finish k a r)).
Proof. destruct k as [| |[]| | |], r; cbn; auto. Qed.

Lemma exec_nonneg ch m t m' t' new :
  exec workerID workerLabels jitter ch m t = Some (m', t', new) -> known_choice ch -> nonneg m -> nonneg_thread t ->
  nonneg m' /\ nonneg_thread t' /\ Forall nonneg_thread new.
Proof.
  intros E K N T.
  exec_cases E.
  all: unfold nonneg_thread in *; cbn [versions] in *; decompose_Forall_hyps.
  all: try match goal with B : buildAssignmentFromCommit _ _ _ = Some _ |- _ =>
    apply build_version in B; unfold coord, coordC in B; simplify_eq end.
  all: split; [auto using nonneg_raise, nonneg_lsr, nonneg_stash_apply, nonneg_stash_fetch, nonneg_stash_commit|
    split; [try apply finish_nonneg|]; repeat constructor; cbn; try done; try lia].
  all: first [by eauto using nn_commit_Some, nn_apply_Some, nn_fetch_Some, nn_assignment|destruct N; by split].
Qed.

Lemma exec_nonneg_state ch m t m' t' new :
  exec workerID workerLabels jitter ch m t = Some (m', t', new) -> known_choice ch -> nonneg m -> nonneg_thread t ->
  nonneg m'.
Proof. intros E K N T. by destruct (exec_nonneg _ _ _ _ _ _ E K N T). Qed.

Lemma exec_quiet ch m t m' t' new :
  exec workerID workerLabels jitter ch m t = Some (m', t', new) -> in_cs t = false -> early t = false ->
  nonneg m -> nonneg_thread t -> quiet m m'.
Proof.
  intros E C S N T. unfold nonneg_thread in T. exec_cases E.
  all: try discriminate C; try discriminate S; cbn [versions] in T; decompose_Forall_hyps.
  all: try by apply quiet_same.
  all: try by apply quiet_lsr.
  all: try by apply quiet_raise.
  all: apply quiet_same; unfold stashApplyRetry, stashFetchRetryCandidate, stashCommit; by repeat case_match.
Qed.

Lemma mu_raise a m : applyStoreMu (raiseAcceptedTarget a m) = applyStoreMu m.
Proof. unfold raiseAcceptedTarget. by repeat case_match. Qed.

Lemma mu_lsr r m : applyStoreMu (updateLastSeenLeaderRevision r m) = applyStoreMu m.
Proof. unfold updateLastSeenLeaderRevision. by case_decide. Qed.

Lemma mu_stash_apply a m : applyStoreMu (stashApplyRetry a m) = applyStoreMu m.
Proof. unfold stashApplyRetry. by repeat case_match. Qed.

Lemma mu_stash_fetch c m : applyStoreMu (stashFetchRetryCandidate c m) = applyStoreMu m.
Proof. unfold stashFetchRetryCandidate. by repeat case_match. Qed.

Lemma mu_stash_commit c m : applyStoreMu (stashCommit c m) = applyStoreMu m.
Proof. unfold stashCommit. by repeat case_match. Qed.

Lemma finish_cs k a r : in_cs (finish k a r) = false.
Proof. by destruct k as [| |[]| | |], r. Qed.

(** How a step uses the lock. *)
Lemma exec_lock ch m t m' t' new :
  exec workerID workerLabels jitter ch m t = Some (m', t', new) ->
  count in_cs new = 0 /\
  ((in_cs t = false /\ in_cs t' = true /\ applyStoreMu m = false /\ applyStoreMu m' = true) \/
   (in_cs t = true /\ in_cs t' = false /\ applyStoreMu m' = false) \/
   (in_cs t = in_cs t' /\ applyStoreMu m' = applyStoreMu m)).
Proof.
  intros E. exec_cases E.
  all: split; [done|]; rewrite ?finish_cs; first
    [by right; right|by left|by right; left|right; right; split; [done|auto using mu_raise, mu_lsr, mu_stash_apply, mu_stash_fetch, mu_stash_commit]].
Qed.

Lemma synced_quiet m m' : quiet m m' -> synced m -> synced m'.
Proof. intros [_ C B A _ _]. unfold synced, committedAssignmentOrEmpty. by rewrite C, B, A. Qed.

Lemma drop_quiet m m' a :
  quiet m m' ->
  stale (coord a) (coord (assignment m)) = true \/
    (exists f, highestAcceptedTarget m = Some f /\ stale (coord a) f = true) ->
  stale (coord a) (coord (assignment m')) = true \/
    (exists f, highestAcceptedTarget m' = Some f /\ stale (coord a) f = true).
Proof.
  intros Q [S|(f & E & S)]; [left; by rewrite (q_assignment _ _ Q)|right].
  pose proof (q_fence _ _ Q) as L. rewrite E in L. destruct (highestAcceptedTarget m') as [g|]; [|done].
  eauto using stale_mono.
Qed.

Lemma cs_ok_quiet m m' t : quiet m m' -> cs_ok m t -> cs_ok m' t.
Proof.
  intros Q K. pose proof (q_lsr _ _ Q) as R.
  destruct t; cbn [cs_ok] in *; try done; unfold above_calls, committedAssignmentOrEmpty in *;
    rewrite ?(q_assignment _ _ Q), ?(q_committed _ _ Q), ?(q_heartbeat _ _ Q), ?(q_applies _ _ Q);
    repeat match goal with K : _ /\ _ |- _ => destruct K end; repeat split;
    first [done|lia|by eapply synced_quiet|by eapply fenced_mono; [apply Q|]|idtac].
  rewrite <- (q_assignment _ _ Q). by apply (drop_quiet m).
Qed.

Lemma state_ok_quiet m m' : quiet m m' -> nonneg m' -> state_ok m -> state_ok m'.
Proof.
  intros Q N [_ C F A]. split; unfold committedAssignmentOrEmpty in *;
    rewrite ?(q_assignment _ _ Q), ?(q_committed _ _ Q), ?(q_applies _ _ Q); try done.
  eapply Forall_impl; [exact F|]. intros c. apply fenced_mono, Q.
Qed.

(** ** Steps inside the critical section *)

Lemma above_calls_fence a f m :
  Forall (λ c, fenced (coord (call_target c)) m) (applies m) -> highestAcceptedTarget m = Some f ->
  le f (coord a) -> above_calls a m.
Proof.
  intros F E L. eapply Forall_impl; [exact F|]. intros c (g & Eg & Lg). simplify_eq. eauto using le_trans.
Qed.

Lemma above_calls_none a m :
  Forall (λ c, fenced (coord (call_target c)) m) (applies m) -> highestAcceptedTarget m = None -> above_calls a m.
Proof. intros F E. eapply Forall_impl; [exact F|]. intros c (g & Eg & _). congruence. Qed.

Lemma state_ok_call m prev a ok :
  state_ok m -> above_calls a m -> fenced (coord a) m -> prev = last_applied (applies m) ->
  state_ok (set_applies (applies m ++ [mkCall prev a ok]) m).
Proof.
  intros [N C F O] A Fa ->. split; cbn; [destruct N; by split|done| |by apply calls_in_order_app].
  apply Forall_app. split; [exact F|by constructor].
Qed.

Lemma state_ok_store m a :
  state_ok m -> le (coord (assignment m)) (coord a) -> (0 <= a_Version a)%Z -> state_ok (set_assignment a m).
Proof. intros [N C F O] L ?. split; [destruct N; by split|by eapply le_trans|done..]. Qed.

Lemma state_ok_commit m : state_ok m -> state_ok (set_committedAssignment (Some (assignment m)) m).
Proof. intros [N C F O]. split; [destruct N; by split|apply le_refl|done..]. Qed.

Lemma state_ok_ack m h : state_ok m -> state_ok (set_heartbeat h m).
Proof. intros [N C F O]. split; [destruct N; by split|done..]. Qed.

Lemma state_ok_mu m b : state_ok m -> state_ok (set_applyStoreMu b m).
Proof. intros [N C F O]. split; [destruct N; by split|done..]. Qed.

Lemma lsr_reached r m : (r <= lastSeenLeaderRevision (updateLastSeenLeaderRevision r m))%Z.
Proof. unfold updateLastSeenLeaderRevision. case_decide; cbn; lia. Qed.

Lemma ack_version m :
  state_ok m -> heartbeat m = ack_of (committedAssignmentOrEmpty m) ->
  le (ack_coord (heartbeat m)) (coord (assignment m)).
Proof. by intros [_ C _ _] ->. Qed.

Lemma ack_newer a h : le (ack_coord h) (coord a) -> SetAppliedAssignment (ack_of a) h = ack_of a.
Proof. unfold SetAppliedAssignment. intros L%le_version. cbn in L. rewrite decide_False; [done|]. cbn. lia. Qed.

Lemma finish_cs_ok m k a r : cs_ok m (finish k a r).
Proof. by destruct k as [| |[]| | |], r. Qed.

Lemma exec_cs ch m t m' t' new :
  exec workerID workerLabels jitter ch m t = Some (m', t', new) -> known_choice ch -> in_cs t = true -> cs_ok m t ->
  state_ok m -> nonneg_thread t ->
  cs_ok m' t' /\ (in_cs t' = false -> synced m') /\ state_ok m'.
Proof.
  intros E Kc C K S T.
  assert (nonneg m') as N' by (eapply exec_nonneg_state; [exact E|done|apply S|done]).
  unfold nonneg_thread in T.
  exec_cases E; try discriminate C; cbn [cs_ok versions] in *; decompose_Forall_hyps.
  - split; [split; [done|by left]|done].
  - split; [by split|done].
  - destruct K. split; [split; [done|right; eauto]|done].
  - destruct K. split; [|done]. split_and!; try done. by eapply above_calls_fence; [apply S|..].
  - destruct K. split; [|done]. split_and!; try done. apply above_calls_none; [apply S|done].
  - assert (quiet m (raiseAcceptedTarget (coord a) m)) as Q by (apply quiet_raise; [apply S|done]).
    split; [|split; [done|by eapply state_ok_quiet]].
    pose proof (cs_ok_quiet _ _ (CoAccept a k) Q K) as (? & ? & ?). split_and!; auto using raise_fenced.
  - destruct K as (Y & ? & ? & ?). split_and!; try done. apply Y.
  - destruct K as ([Y1 Y2] & ? & ? & ? & ?). split_and!; cbn; try done.
    + by rewrite last_applied_app.
    + by rewrite Y2, <- Y1.
    + by apply state_ok_call.
  - destruct K as ([Y1 Y2] & ? & ? & ? & ?). split_and!; [|done|by apply state_ok_call].
    unfold synced; cbn. by rewrite last_applied_app.
  - split; [|split; [done|eapply state_ok_quiet, S; [apply quiet_lsr|done]]].
    pose proof (cs_ok_quiet _ _ (CoLsr a k) (quiet_lsr (a_LeaderRevision a) m) K) as (? & ? & ?).
    split_and!; auto using lsr_reached.
  - destruct K as (? & ? & ? & ?). split_and!; try done. by apply state_ok_store.
  - destruct K as (<- & L & A). split_and!; try done; [by apply ack_version|by apply state_ok_commit].
  - destruct K as (? & C' & L & A). rewrite ack_newer by done.
    split_and!; try done; [|by apply state_ok_ack].
    unfold synced, committedAssignmentOrEmpty. cbn. by rewrite C', L.
  - destruct K. auto using finish_cs_ok, state_ok_mu.
  - destruct K. auto using finish_cs_ok, state_ok_mu.
  - auto using state_ok_mu.
  - done.
  - split; [by split|done].
  - split; [|split; [done|eapply state_ok_quiet, S; [apply quiet_lsr|done]]].
    pose proof (cs_ok_quiet _ _ (RfLsr a) (quiet_lsr (a_LeaderRevision a) m) K) as (? & ?).
    split_and!; auto using lsr_reached.
  - destruct K as (? & ? & ?). split_and!; try done. by apply state_ok_store.
  - auto using state_ok_mu.
Qed.
Lemma cs_ok_out m t : in_cs t = false -> cs_ok m t.
Proof. by destruct t. Qed.

(** Taking the lock. *)
Lemma exec_enter ch m t m' t' new :
  exec workerID workerLabels jitter ch m t = Some (m', t', new) -> in_cs t = false -> in_cs t' = true ->
  m' = set_applyStoreMu true m /\ (synced m' -> cs_ok m' t').
Proof. intros E C C'. exec_cases E; try discriminate C; try discriminate C'; rewrite ?finish_cs in C'; done. Qed.

Lemma synced_start m : synced m -> applies m = [] -> committedAssignmentOrEmpty m = zero_assignment.
Proof. by intros [-> _] ->. Qed.

Lemma raw_store m a :
  synced m -> applies m = [] -> state_ok m -> (0 <= a_Version a)%Z ->
  synced (set_assignment a m) /\ state_ok (set_assignment a m).
Proof.
  intros Y A [N _ F O] Na. split; [done|]. split; [destruct N; by split| |done..].
  change (committedAssignmentOrEmpty (set_assignment a m)) with (committedAssignmentOrEmpty m).
  rewrite (synced_start m) by done. by apply le_zero.
Qed.

Lemma raw_commit m :
  synced m -> applies m = [] -> state_ok m ->
  synced (set_committedAssignment (Some zero_assignment) m) /\
  state_ok (set_committedAssignment (Some zero_assignment) m).
Proof.
  intros [_ B] A [N _ F O]. split; [split; cbn; [by rewrite A|done]|].
  split; [destruct N; by split| |done..]. apply le_zero, N.
Qed.

Lemma raw_ack m :
  synced m -> applies m = [] -> SetAppliedAssignment (ack_of zero_assignment) (heartbeat m) = heartbeat m.
Proof. intros [_ ->] ->. by apply ack_newer. Qed.

(** Startup stores the snapshot without the lock. *)
Lemma exec_early ch m t m' t' new :
  exec workerID workerLabels jitter ch m t = Some (m', t', new) -> known_choice ch -> early t = true -> in_cs t = false ->
  applies m = [] -> synced m -> state_ok m -> nonneg_thread t -> synced m' /\ state_ok m'.
Proof.
  intros E Kc S C A Y K T. pose proof (st_nonneg _ K) as N.
  assert (nonneg m') as N' by (by eapply exec_nonneg_state).
  exec_cases E; try discriminate S; try discriminate C; auto using raw_store, raw_commit.
  - destruct (raw_store m a) as [Y' K']; [done..|]. split; [done|].
    eapply state_ok_quiet; [by apply (quiet_same (set_assignment a m))|done..].
  - by apply raw_store.
  - rewrite raw_ack by done. split; [done|by apply state_ok_ack].
  - by apply raw_store.
  - assert (quiet m (set_rejected (a :: rejected m) m)) as Q by by apply quiet_same.
    eauto using synced_quiet, state_ok_quiet.
  - split; [done|by apply state_ok_mu].
Qed.

(** A step outside the critical section. *)
Lemma exec_out ch m t m' t' new :
  exec workerID workerLabels jitter ch m t = Some (m', t', new) -> known_choice ch -> in_cs t = false ->
  (applyStoreMu m = false -> synced m) -> (early t = true -> applies m = [] /\ applyStoreMu m = false) ->
  state_ok m -> nonneg_thread t ->
  cs_ok m' t' /\ (applyStoreMu m' = false -> synced m') /\ state_ok m'.
Proof.
  intros E Kc C Y S K T. pose proof E as [_ L]%exec_lock.
  assert (nonneg m') as N' by (eapply exec_nonneg_state; [exact E|done|apply K|done]).
  assert (state_ok m' /\ (applyStoreMu m = false -> synced m')) as [K' Y'].
  { destruct (early t) eqn:Et.
    - destruct (S eq_refl) as [A Mu]. edestruct exec_early as [Y' K']; [exact E|by auto..|]. auto.
    - assert (quiet m m') as Q by (eapply exec_quiet; [exact E|done..|apply K|done]).
      eauto using synced_quiet, state_ok_quiet. }
  destruct (in_cs t') eqn:C'.
  - destruct (exec_enter _ _ _ _ _ _ E C C') as [-> Cs]. split_and!; [|done..].
    apply Cs, Y'. naive_solver.
  - split_and!; [by apply cs_ok_out| |done]. intros Mu. apply Y'. naive_solver congruence.
Qed.

(** ** The invariant holds in every interleaving *)

Lemma inv_init : Inv new_manager [StWait].
Proof.
  split; cbn; try done.
  - repeat constructor.
  - intros t ->%list_elem_of_singleton _. done.
  - repeat constructor.
  - split; cbn; [by split|by apply le_zero|constructor|]. by intros [|? ?] ? ?.
Qed.

Lemma exec_stays_early ch m t m' t' new :
  exec workerID workerLabels jitter ch m t = Some (m', t', new) ->
  Forall (λ p, early p = false) new /\
  (early t' = true -> early t = true /\ new = [] /\ monitors m' = monitors m /\ applies m' = applies m).
Proof.
  intros E. exec_cases E.
  all: split; [by repeat constructor|]; try done; try (by destruct k as [| |[]| | |]).
  intros Ek. unfold raiseAcceptedTarget. by repeat case_match.
Qed.

(** The goroutines a step does not move. *)
Lemma others_ok ch m t m' t' new ts1 ts2 :
  exec workerID workerLabels jitter ch m t = Some (m', t', new) -> Inv m (ts1 ++ t :: ts2) ->
  Forall (cs_ok m') (ts1 ++ ts2).
Proof.
  intros E I. pose proof (inv_threads _ _ I) as T. apply Forall_middle in T as [T _].
  destruct (in_cs t) eqn:C; [|destruct (early t) eqn:S].
  - pose proof (inv_lock _ _ I) as L. rewrite count_middle, C in L.
    eapply Forall_impl; [apply (no_count in_cs)|intros p; apply cs_ok_out]. destruct (applyStoreMu m); lia.
  - destruct (inv_start _ _ I t) as [(-> & -> & _)%middle_singleton _]; [set_solver|done|constructor].
  - assert (quiet m m') as Q by (eapply exec_quiet; [exact E|done|done|apply I|done]).
    pose proof (inv_cs _ _ I) as F. apply Forall_middle in F as [_ F]. eapply Forall_impl; eauto using cs_ok_quiet.
Qed.

Lemma holder_ok ch m t m' t' new ts1 ts2 :
  exec workerID workerLabels jitter ch m t = Some (m', t', new) -> known_choice ch -> Inv m (ts1 ++ t :: ts2) ->
  cs_ok m' t' /\ (applyStoreMu m' = false -> synced m') /\ state_ok m'.
Proof.
  intros E Kc I. pose proof I as [L Cs Idle St Th K].
  apply Forall_middle in Cs as [Ct _]. apply Forall_middle in Th as [Tt _].
  pose proof E as [_ Lk]%exec_lock. rewrite count_middle in L.
  destruct (in_cs t) eqn:C.
  - edestruct exec_cs as (? & Y & ?); [exact E|done..|]. split_and!; [done| |done].
    intros Mu. apply Y. destruct Lk as [[? _]|[(_ & -> & _)|(<- & Em)]]; [done|done|].
    rewrite <- Em, Mu in L. lia.
  - eapply exec_out; [exact E|done..| |done|done]. intros S.
    destruct (St t) as ((-> & -> & _)%middle_singleton & _ & A); [set_solver|done|].
    split; [done|]. cbn in L. by destruct (applyStoreMu m).
Qed.

Lemma lock_ok ch m t m' t' new ts1 ts2 :
  exec workerID workerLabels jitter ch m t = Some (m', t', new) ->
  count in_cs (ts1 ++ t :: ts2) = (if applyStoreMu m then 1 else 0) ->
  count in_cs (ts1 ++ t' :: new ++ ts2) = if applyStoreMu m' then 1 else 0.
Proof.
  intros [Ln Lk]%exec_lock L. rewrite count_middle in L. rewrite count_spawn, Ln.
  destruct Lk as [(C & -> & Hm & ->)|[(C & -> & ->)|(<- & ->)]]; [rewrite C, Hm in L; lia|rewrite C in L|lia].
  destruct (applyStoreMu m); lia.
Qed.

Lemma start_ok ch m t m' t' new ts1 ts2 p :
  exec workerID workerLabels jitter ch m t = Some (m', t', new) -> Inv m (ts1 ++ t :: ts2) ->
  p ∈ ts1 ++ t' :: new ++ ts2 -> early p = true ->
  ts1 ++ t' :: new ++ ts2 = [p] /\ monitors m' = false /\ applies m' = [].
Proof.
  intros [Sn Se]%exec_stays_early I Hp Ep. pose proof (inv_start _ _ I) as St.
  rewrite Forall_forall in Sn.
  assert (p = t' \/ p ∈ ts1 ++ ts2) as [->|Hp'].
  { apply elem_of_app in Hp as [?|[->|[Hn|?]%elem_of_app]%elem_of_cons]; [set_solver|by left| |set_solver].
    apply Sn in Hn. congruence. }
  - destruct (Se Ep) as (Et & -> & -> & ->).
    destruct (St t) as ((-> & -> & _)%middle_singleton & ? & ?); [set_solver|done..].
  - destruct (St p) as ((-> & -> & _)%middle_singleton & _); [set_solver|done|]. by apply not_elem_of_nil in Hp'.
Qed.

Lemma inv_step c c' : Inv c.1 c.2 -> step workerID workerLabels jitter c c' -> Inv c'.1 c'.2.
Proof.
  intros I S. destruct S as [ts1 t ts2 ch m m' t' new Kc E|e m ts Mo Ke|m ts]; cbn [fst snd] in *.
  - pose proof (holder_ok _ _ _ _ _ _ _ _ E Kc I) as (Ct & Idle & K).
    pose proof (inv_threads _ _ I) as Th. apply Forall_middle in Th as [Tt Th].
    destruct (exec_nonneg _ _ _ _ _ _ E Kc (st_nonneg _ (inv_state _ _ I)) Tt) as (_ & Tt' & Tn).
    pose proof E as [Ln _]%exec_lock.
    split; [..|done].
    + eapply lock_ok; [exact E|apply I].
    + apply Forall_spawn. split_and!; [done| |by eapply others_ok].
      eapply Forall_impl; [by apply (no_count in_cs)|intros p; apply cs_ok_out].
    + done.
    + intros p. by eapply start_ok.
    + by apply Forall_spawn.
  - destruct I as [L Cs Idle St Th K]. split; [..|done].
    + rewrite count_app, L. assert (count in_cs [handler e] = 0) as -> by by destruct e. lia.
    + apply Forall_app. split; [done|]. by destruct e; repeat constructor.
    + done.
    + intros p [Hp|Hp%list_elem_of_singleton]%elem_of_app Ep; [|by destruct e; subst].
      destruct (St p Hp Ep) as (_ & ? & _). congruence.
    + apply Forall_app. split; [done|]. by destruct e; repeat constructor.
  - destruct I as [L Cs Idle St Th K].
    assert (quiet m (set_ctx_done true m)) as Q by by apply quiet_same.
    split; [done| |done..|].
    + eapply Forall_impl; [exact Cs|]. intros p. by apply cs_ok_quiet.
    + eapply state_ok_quiet; [exact Q| |done]. destruct (st_nonneg _ K). by split.
Qed.

Lemma reachable_inv m ts : reachable workerID workerLabels jitter (m, ts) -> Inv m ts.
Proof.
  intros R. change (Inv (m, ts).1 (m, ts).2). unfold reachable in R. revert R. generalize (m, ts). intros c R.
  eapply (rtc_ind_r (λ c, Inv c.1 c.2)) in R; [done|apply inv_init|]. intros x y _ S I. by eapply inv_step.
Qed.

(** ** Nothing goes back *)

(** What a worker has reached only grows. *)
Record advances (m m' : Manager) : Prop := {
  adv_assignment : le (coord (assignment m)) (coord (assignment m'));
  adv_committed : le (coord (committedAssignmentOrEmpty m)) (coord (committedAssignmentOrEmpty m'));
  adv_heartbeat : le (ack_coord (heartbeat m)) (ack_coord (heartbeat m'));
  adv_fence : fence_le (highestAcceptedTarget m) (highestAcceptedTarget m');
  adv_lsr : (lastSeenLeaderRevision m <= lastSeenLeaderRevision m')%Z;
  adv_calls : applies m `prefix_of` applies m';
  adv_leader : assignment m' <> assignment m ->
    (a_LeaderRevision (assignment m') <= lastSeenLeaderRevision m')%Z;
}.

Lemma advances_quiet m m' : quiet m m' -> advances m m'.
Proof.
  intros Q. split; unfold committedAssignmentOrEmpty;
    rewrite ?(q_assignment _ _ Q), ?(q_committed _ _ Q), ?(q_heartbeat _ _ Q), ?(q_applies _ _ Q);
    try apply le_refl; try apply Q; done.
Qed.

Lemma advances_cs ch m t m' t' new :
  exec workerID workerLabels jitter ch m t = Some (m', t', new) -> in_cs t = true -> cs_ok m t ->
  state_ok m -> nonneg_thread t -> advances m m'.
Proof.
  intros E C K S T. unfold nonneg_thread in T.
  exec_cases E; try discriminate C; cbn [cs_ok versions] in *; decompose_Forall_hyps.
  all: try (apply advances_quiet; first [by apply quiet_same|by apply quiet_lsr|apply quiet_raise; [apply S|done]]).
  all: split; cbn; try apply le_refl; try apply fence_le_refl; try done.
  - by apply prefix_app_r.
  - by apply prefix_app_r.
  - apply K.
  - intros _. apply K.
  - destruct K as [<- _]. apply S.
  - rewrite ack_newer by apply K. apply K.
  - apply K.
  - intros _. apply K.
Qed.

Lemma step_advances c c' :
  Inv c.1 c.2 -> step workerID workerLabels jitter c c' -> monitors c.1 = true -> advances c.1 c'.1.
Proof.
  intros I S Mo. destruct S as [ts1 t ts2 ch m m' t' new Kc E|e m ts _ _|m ts]; cbn [fst snd] in *.
  - pose proof (inv_threads _ _ I) as T. apply Forall_middle in T as [T _].
    pose proof (inv_cs _ _ I) as Cs. apply Forall_middle in Cs as [Cs _].
    destruct (in_cs t) eqn:C; [eapply advances_cs; [exact E|done..|apply I|done]|].
    apply advances_quiet. eapply exec_quiet; [exact E|done| |apply I|done].
    destruct (early t) eqn:Et; [|done]. destruct (inv_start _ _ I t) as (_ & ? & _); [set_solver|done|congruence].
  - by apply advances_quiet, quiet_same.
  - by apply advances_quiet, quiet_same.
Qed.

(** C8. A worker applies assignments one at a time and in order. In every
    interleaving of startup, the commit and alias watchers, the two retry loops
    and the recovery refresh, at most one goroutine is in the critical section of
    the pipeline; the targets handed to the handoff coordinator never go back in
    (version, leader revision); every call gets as previous assignment the
    target of the last call that succeeded; and whenever the lock is free the
    committed assignment and the heartbeat's acknowledgement are that target. *)
Theorem worker_applies_in_order m ts :
  reachable workerID workerLabels jitter (m, ts) ->
  count in_cs ts <= 1 /\ calls_in_order (applies m) /\
  (applyStoreMu m = false ->
    committedAssignmentOrEmpty m = last_applied (applies m) /\ heartbeat m = ack_of (last_applied (applies m))).
Proof.
  intros I%reachable_inv. split_and!; [|apply I|apply I].
  rewrite (inv_lock _ _ I). destruct (applyStoreMu m); lia.
Qed.

(** Once the watchers run, no step of any goroutine takes a worker back: the
    snapshot, the committed assignment, the acknowledgement in the heartbeat, the
    accepted target and the last seen leader revision only grow, the record of
    coordinator calls is only extended, and a step that changes the snapshot
    leaves the last seen leader revision at least at the snapshot's. *)
Theorem worker_never_regresses m ts c' :
  reachable workerID workerLabels jitter (m, ts) -> monitors m = true ->
  step workerID workerLabels jitter (m, ts) c' -> advances m c'.1.
Proof. intros I%reachable_inv Mo S. by apply (step_advances (m, ts)). Qed.

End order.

(** ** A schedule: the first assignment is applied, a commit fails *)

Definition demo_part : Partition := mkPartition ["a"] 100 "".
Definition demo_initial : Assignment := mkAssignment 1 "" [demo_part] 1 0 false 1 [] false.
Definition demo_commit : AssignmentCommit := mkCommit 2 2 0 false 0 [] ∅ 0 0 0 0 "".
Definition goes (i n : nat) : list action := replicate n (Act i Go).

(** Startup applies its assignment. *)
Definition demo_startup : list action :=
  [Act 0 (Initial (Some demo_initial)); Act 0 (CommitRead None)] ++ goes 0 7 ++ [Act 0 (Outcome true)] ++ goes 0 6.

(** A commit that takes the worker's partitions away, up to its call of the coordinator. *)
Definition demo_revoke : list action :=
  [Deliver (Commit demo_commit)] ++ goes 1 6 ++ [Act 1 (Fetched None)] ++ goes 1 6.

Definition demo_config (acts : list action) : config :=
  default start (@run toy_xxh3 "w" [] false acts start).

Lemma demo_run_reachable acts :
  @run toy_xxh3 "w" [] false acts start = Some (demo_config acts) ->
  @reachable toy_xxh3 "w" [] false ((demo_config acts).1, (demo_config acts).2).
Proof. rewrite <- surjective_pairing. apply run_steps. Qed.

Definition demo_failed : list action := demo_startup ++ demo_revoke ++ [Act 1 (Outcome false)].
Definition demo_stored : list action := demo_startup ++ demo_revoke ++ [Act 1 (Outcome true); Act 1 Go].

Lemma demo_failed_runs : @run toy_xxh3 "w" [] false demo_failed start = Some (demo_config demo_failed).
Proof. vm_compute. reflexivity. Qed.

Lemma demo_failed_calls :
  (λ c, (a_Version (call_prev c), a_Version (call_target c), call_ok c)) <$> applies (demo_config demo_failed).1 =
  [(0, 1, true)%Z; (1, 2, false)%Z].
Proof. vm_compute. reflexivity. Qed.

Lemma worker_applies_in_order_witness :
  calls_in_order (applies (demo_config demo_failed).1) /\ length (applies (demo_config demo_failed).1) = 2.
Proof.
  split; [|by rewrite <- (length_fmap (λ c, (a_Version (call_prev c), a_Version (call_target c), call_ok c))), demo_failed_calls].
  apply (@worker_applies_in_order toy_xxh3 "w" [] false _ _ (demo_run_reachable _ demo_failed_runs)).
Defined.

Lemma demo_stored_runs : @run toy_xxh3 "w" [] false demo_stored start = Some (demo_config demo_stored).
Proof. vm_compute. reflexivity. Qed.

Lemma demo_stored_monitors : monitors (demo_config demo_stored).1 = true.
Proof. vm_compute. reflexivity. Qed.

Lemma demo_stored_step :
  exists c : config, @step toy_xxh3 "w" [] false ((demo_config demo_stored).1, (demo_config demo_stored).2) c /\
    a_Version (assignment c.1) = 2%Z.
Proof.
  destruct (@perform toy_xxh3 "w" [] false (Act 1 Go) (demo_config demo_stored)) as [c|] eqn:E; [|by vm_compute in E].
  exists c. rewrite <- surjective_pairing. split; [by eapply perform_step|]. vm_compute in E. by simplify_eq.
Qed.

Lemma worker_never_regresses_witness :
  exists c : config, advances (demo_config demo_stored).1 c.1 /\ a_Version (assignment c.1) = 2%Z.
Proof.
  destruct demo_stored_step as (c & S & V). exists c. split; [|exact V].
  apply (@worker_never_regresses toy_xxh3 "w" [] false _ _ c (demo_run_reachable _ demo_stored_runs) demo_stored_monitors S).
Defined.
