(* ===== verification/ApplyRetry.v ===== *)
(** * A worker does not forget its newest target

    An assignment or a commit payload that could not be applied or read waits in
    a retry stash. In every interleaving in which commits are handled by the one
    goroutine of the commit watcher, the newest target the worker has accepted is
    applied, is in the hands of a goroutine, or waits in a stash for which a retry
    loop runs or is about to be started; the only targets given up are those made
    for another incarnation of the worker and aliases overruled by a commit. *)
From S2P Require Import Prelude Partition Wire ApplyPipeline ApplyOrder.

(** ** Goroutines *)

Definition caller_of (t : thread) : option caller :=
  match t with
  | ApEnter _ k | ApJitter _ k | CoLock _ k | CoStale _ k | CoFence _ k | CoAccept _ k | CoPrev _ k | CoApply _ _ k
  | CoLsr _ k | CoStore _ k | CoCommit _ k | CoAck _ k | CoUnlock _ k | CoDrop _ k | CoFail _ k | ArStash _ k
  | ArActivate _ k => Some k
  | _ => None
  end.

Definition by_commit (k : caller) : bool := match k with ByCommit => true | _ => false end.
Definition by_apply_loop (k : caller) : bool := match k with ByApplyLoop _ => true | _ => false end.
Definition by_fetch_loop (k : caller) : bool := match k with ByFetchLoop => true | _ => false end.

(** A goroutine inside [handleCommitValue]. *)
Definition commit_handler (t : thread) : bool :=
  match t with
  | HcLoad _ | HcSeen _ | HcSeenLsr _ | HcFence _ | HcObserved _ _ | HcAuthority _ _ | HcPending _ | HcStash _
  | HcAccept _ | HcBuild _ | HcFailClear _ | HcFailSwap _ | HcClear _ | HcDrain _ | FrStash _ | FrActivate => true
  | _ => from_option by_commit false (caller_of t)
  end.

(** It has set [pendingApplyInFlight]. *)
Definition in_flight (t : thread) : bool :=
  match t with
  | HcAccept _ | HcBuild _ | HcFailClear _ | HcClear _ => true
  | _ => from_option by_commit false (caller_of t)
  end.

Definition stashing (t : thread) : bool := match t with HcStash _ => true | _ => false end.
Definition waiting_start (t : thread) : bool := match t with StWait => true | _ => false end.

(** The retry loops. *)
Definition apply_loop (t : thread) : bool :=
  match t with
  | AlWait _ | AlSwap _ | AlAgain | AlExit => true
  | _ => from_option by_apply_loop false (caller_of t)
  end.

Definition fetch_loop (t : thread) : bool :=
  match t with
  | FlWait _ | FlSwap _ | FlFence _ _ | FlBuild _ _ | FlRestash _ _ | FlAgain | FlExit => true
  | _ => from_option by_fetch_loop false (caller_of t)
  end.

(** A goroutine that starts the loop, or leaves it and looks at the stash again. *)
Definition apply_arming (t : thread) : bool :=
  match t with ArActivate _ _ | AlCheckCtx | AlCheckStash | AlReactivate => true | _ => false end.

Definition fetch_arming (t : thread) : bool :=
  match t with FrActivate | FlCheckCtx | FlCheckStash | FlReactivate => true | _ => false end.

(** The target a goroutine is working on. A refresh that has stored the snapshot
    goes on with the snapshot. *)
Definition holds (m : Manager) (t : thread) : option coords :=
  match t with
  | HcBuild c | HcFailClear c | HcFailSwap c | FrStash c | FlFence c _ | FlBuild c _ | FlRestash c _ => Some (coordC c)
  | AhRemember a _ | AhAuthority a _ | ApEnter a _ | ApJitter a _ | CoLock a _ | CoStale a _ | CoFence a _
  | CoAccept a _ | CoPrev a _ | CoApply a _ _ | CoLsr a _ | CoStore a _ | CoCommit a _ | CoAck a _ | CoUnlock a _
  | CoDrop a _ | CoFail a _ | ArStash a _ | RcApplied a => Some (coord a)
  | RfUnlock | RcLoad => Some (coord (assignment m))
  | _ => None
  end.

(** ** Conditional updates *)

Section updates.
Context `{Xxh3}.

Lemma raise_cases x m : raiseAcceptedTarget x m = m \/ raiseAcceptedTarget x m = set_highestAcceptedTarget (Some x) m.
Proof. unfold raiseAcceptedTarget. repeat case_match; auto. Qed.

Lemma lsr_cases r m : updateLastSeenLeaderRevision r m = m \/ updateLastSeenLeaderRevision r m = set_lastSeenLeaderRevision r m.
Proof. unfold updateLastSeenLeaderRevision. repeat case_match; auto. Qed.

Lemma stash_apply_cases a m : stashApplyRetry a m = m \/ stashApplyRetry a m = set_stashedApplyRetry (Some a) m.
Proof. unfold stashApplyRetry. repeat case_match; auto. Qed.

Lemma stash_fetch_cases c m :
  stashFetchRetryCandidate c m = m \/ stashFetchRetryCandidate c m = set_stashedFetchRetry (Some c) m.
Proof. unfold stashFetchRetryCandidate. repeat case_match; auto. Qed.

Lemma stash_commit_cases c m : stashCommit c m = m \/ stashCommit c m = set_stashedCommit (Some c) m.
Proof. unfold stashCommit. repeat case_match; auto. Qed.
End updates.

(** Replaces a conditional update by its two outcomes. *)
Ltac update_cases :=
  repeat match goal with
  | |- context [raiseAcceptedTarget ?x ?m] => destruct (raise_cases x m) as [-> | ->]
  | |- context [updateLastSeenLeaderRevision ?r ?m] => destruct (lsr_cases r m) as [-> | ->]
  | |- context [stashApplyRetry ?a ?m] => destruct (stash_apply_cases a m) as [-> | ->]
  | |- context [stashFetchRetryCandidate ?c ?m] => destruct (stash_fetch_cases c m) as [-> | ->]
  | |- context [stashCommit ?c ?m] => destruct (stash_commit_cases c m) as [-> | ->]
  end.

Section retry.
Context `{Xxh3} (workerID : string) (workerLabels : list string) (jitter : bool).

(** Commits are handled by one goroutine, that of [monitorCommitChanges]. *)
Definition serial (c c' : config) : Prop :=
  step workerID workerLabels jitter c c' /\ count commit_handler c'.2 <= 1.

Definition serial_reachable (c : config) : Prop := rtc serial start c.

(** Where a target may be. *)
Inductive owner (m : Manager) (ts : list thread) : coords -> Prop :=
| own_committed : owner m ts (coord (committedAssignmentOrEmpty m))
| own_raw a : startup_raw m = Some a -> owner m ts (coord a)
| own_apply a : stashedApplyRetry m = Some a -> owner m ts (coord a)
| own_fetch c : stashedFetchRetry m = Some c -> owner m ts (coordC c)
| own_rejected a : a ∈ rejected m -> owner m ts (coord a)
| own_overruled a : a ∈ overruled m -> owner m ts (coord a)
| own_thread t y : t ∈ ts -> holds m t = Some y -> owner m ts y.

Definition covered (m : Manager) (ts : list thread) (x : coords) : Prop := exists y, owner m ts y /\ le x y.

(** The accepted target and the snapshot. *)
Definition wanted (m : Manager) (x : coords) : Prop :=
  highestAcceptedTarget m = Some x \/ x = coord (assignment m).

(** ** The invariant *)

Record RInv (m : Manager) (ts : list thread) : Prop := {
  r_inv : Inv m ts;
  r_serial : count commit_handler ts <= 1;
  r_flight : pendingApplyInFlight m = true -> has in_flight ts;
  r_stash : stashedCommit m = None;
  r_stashing : Forall (λ t, stashing t = false) ts;
  r_raw : has waiting_start ts -> startup_raw m = None;
  r_wanted : ctx_done m = false -> forall x, wanted m x -> covered m ts x;
  r_apply_count : count apply_loop ts = if applyRetryActive m then 1 else 0;
  r_fetch_count : count fetch_loop ts = if fetchRetryActive m then 1 else 0;
  r_apply_armed : ctx_done m = false -> stashedApplyRetry m <> None -> has apply_loop ts \/ has apply_arming ts;
  r_fetch_armed : ctx_done m = false -> stashedFetchRetry m <> None -> has fetch_loop ts \/ has fetch_arming ts;
}.

(** ** What one step does to each place *)

Lemma supersedes_le a b : (0 <= a_Version a)%Z -> (0 <= a_Version b)%Z -> assignmentSupersedesForStash a b = true -> le (coord b) (coord a).
Proof.
  intros ??. unfold assignmentSupersedesForStash. rewrite le_lex by done. cbn.
  repeat case_decide; rewrite ?bool_decide_eq_true; lia.
Qed.

Lemma supersedes_not_le a b : (0 <= a_Version a)%Z -> (0 <= a_Version b)%Z -> assignmentSupersedesForStash a b = false -> le (coord a) (coord b).
Proof.
  intros ??. unfold assignmentSupersedesForStash. rewrite le_lex by done. cbn.
  repeat case_decide; rewrite ?bool_decide_eq_false; lia.
Qed.

Lemma commit_supersedes_le a b : (0 <= Version a)%Z -> (0 <= Version b)%Z -> commitSupersedesForStash a b = true -> le (coordC b) (coordC a).
Proof.
  intros ??. unfold commitSupersedesForStash. rewrite le_lex by done. cbn.
  repeat case_decide; rewrite ?bool_decide_eq_true; lia.
Qed.

Lemma commit_supersedes_not_le a b : (0 <= Version a)%Z -> (0 <= Version b)%Z -> commitSupersedesForStash a b = false -> le (coordC a) (coordC b).
Proof.
  intros ??. unfold commitSupersedesForStash. rewrite le_lex by done. cbn.
  repeat case_decide; rewrite ?bool_decide_eq_false; lia.
Qed.

(** The stash after a failure is at least the failed target and what it held. *)
Lemma stash_apply_le a m :
  nonneg m -> (0 <= a_Version a)%Z ->
  exists b, stashedApplyRetry (stashApplyRetry a m) = Some b /\ le (coord a) (coord b) /\
    forall cur, stashedApplyRetry m = Some cur -> le (coord cur) (coord b).
Proof.
  intros N Na. unfold stashApplyRetry. destruct (stashedApplyRetry m) as [cur|] eqn:E.
  - pose proof (nn_apply_Some _ _ N E). destruct (assignmentSupersedesForStash a cur) eqn:S; cbn.
    + exists a. split_and!; [done|apply le_refl|]. intros ? [= <-]. by apply supersedes_le.
    + exists cur. split_and!; [done|by apply supersedes_not_le|]. intros ? [= <-]. apply le_refl.
  - exists a. split_and!; [done|apply le_refl|done].
Qed.

Lemma stash_fetch_le c m :
  nonneg m -> (0 <= Version c)%Z ->
  exists b, stashedFetchRetry (stashFetchRetryCandidate c m) = Some b /\ le (coordC c) (coordC b) /\
    forall cur, stashedFetchRetry m = Some cur -> le (coordC cur) (coordC b).
Proof.
  intros N Na. unfold stashFetchRetryCandidate. destruct (stashedFetchRetry m) as [cur|] eqn:E.
  - pose proof (nn_fetch_Some _ _ N E). destruct (commitSupersedesForStash c cur) eqn:S; cbn.
    + exists c. split_and!; [done|apply le_refl|]. intros ? [= <-]. by apply commit_supersedes_le.
    + exists cur. split_and!; [done|by apply commit_supersedes_not_le|]. intros ? [= <-]. apply le_refl.
  - exists c. split_and!; [done|apply le_refl|done].
Qed.

Lemma exec_stashed_apply ch m t m' t' new a :
  exec workerID workerLabels jitter ch m t = Some (m', t', new) -> nonneg m -> nonneg_thread t ->
  stashedApplyRetry m = Some a ->
  (exists b, stashedApplyRetry m' = Some b /\ le (coord a) (coord b)) \/ holds m' t' = Some (coord a).
Proof.
  intros E N T A. unfold nonneg_thread in T. exec_cases E; cbn [versions] in T; decompose_Forall_hyps.
  all: try (left; exists a; split; [update_cases; eassumption|apply le_refl]).
  - left. destruct (stash_apply_le a0 m) as (b & Eb & _ & L); [done..|]; exists b; auto.
  - by right.
Qed.

Lemma exec_stashed_fetch ch m t m' t' new c :
  exec workerID workerLabels jitter ch m t = Some (m', t', new) -> nonneg m -> nonneg_thread t ->
  stashedFetchRetry m = Some c ->
  (exists b, stashedFetchRetry m' = Some b /\ le (coordC c) (coordC b)) \/ holds m' t' = Some (coordC c).
Proof.
  intros E N T A. unfold nonneg_thread in T. exec_cases E; cbn [versions] in T; decompose_Forall_hyps.
  all: try (left; exists c; split; [update_cases; eassumption|apply le_refl]).
  all: try by right.
  all: left; destruct (stash_fetch_le c0 m) as (b & Eb & _ & L); [done..|]; exists b; auto.
Qed.

(** The record of given up targets grows, and startup stores its assignment once. *)
Lemma exec_given_up ch m t m' t' new :
  exec workerID workerLabels jitter ch m t = Some (m', t', new) ->
  rejected m ⊆ rejected m' /\ overruled m ⊆ overruled m' /\ (ctx_done m' = ctx_done m) /\
  (waiting_start t = false -> startup_raw m' = startup_raw m).
Proof. intros E. exec_cases E; split_and!; try done; update_cases; set_solver. Qed.

(** A target dropped by a goroutine is behind the snapshot or the accepted target. *)
Definition outdated (m : Manager) (y : coords) : Prop := exists z, wanted m z /\ stale y z = true.

Lemma covered_thread m t x : holds m t = Some x -> covered m [t] x.
Proof. intros E. exists x. split; [|apply le_refl]. eapply own_thread; [left|exact E]. Qed.

Lemma covered_owner m ts x : owner m ts x -> covered m ts x.
Proof. intros O. exists x. split; [done|apply le_refl]. Qed.

Lemma applied_coord m a : currentAssignmentApplied a m = true -> coord (committedAssignmentOrEmpty m) = coord a.
Proof.
  unfold currentAssignmentApplied. rewrite !andb_true_iff, !bool_decide_eq_true. unfold coord. naive_solver congruence.
Qed.

Lemma exec_held ch m t m' t' new y :
  exec workerID workerLabels jitter ch m t = Some (m', t', new) -> nonneg m -> nonneg_thread t -> cs_ok m t ->
  ctx_done m = false -> stashedCommit m = None -> holds m t = Some y -> covered m' [t'] y \/ outdated m y.
Proof.
  intros E N T K Cx Sc Hh. unfold nonneg_thread in T. exec_cases E; cbn [versions] in T; decompose_Forall_hyps.
  all: try (left; apply covered_thread; reflexivity).
  all: try (left; apply covered_thread; cbn; f_equal; by eapply build_version).
  all: try (left; apply covered_owner, own_overruled; left).
  all: try (left; apply covered_owner, own_rejected; left).
  all: try (left; destruct (stash_fetch_le c m) as (b & Eb & L & _); [done..|]; exists (coordC b); split; [by apply own_fetch|done]).
  - left. apply covered_owner. destruct K as [_ K].
    assert (committedAssignmentOrEmpty (set_applyStoreMu false m) = a) as <-
      by (unfold committedAssignmentOrEmpty; cbn; by rewrite K).
    apply own_committed.
  - right. destruct K as [_ [S|(f & Ef & S)] ]; [exists (coord (assignment m)); split; [by right|done]|].
    exists f. split; [by left|done].
  - left. destruct (stash_apply_le a m) as (b & Eb & L & _); [done..|]. exists (coord b). split; [by apply own_apply|done].
  - right. exists c0. split; [by left|done].
  - left. apply covered_owner. rewrite <- (applied_coord m' cur) by done. apply own_committed.
Qed.

Lemma exec_committed_le ch m t m' t' new ts1 ts2 :
  exec workerID workerLabels jitter ch m t = Some (m', t', new) -> known_choice ch -> Inv m (ts1 ++ t :: ts2) ->
  le (coord (committedAssignmentOrEmpty m)) (coord (committedAssignmentOrEmpty m')).
Proof.
  intros E Kc I. pose proof I as [_ Cs Idle St Th K]. apply Forall_middle in Cs as [Cs _].
  apply Forall_middle in Th as [Th _].
  destruct (in_cs t) eqn:C; [eapply (adv_committed m), advances_cs; done|].
  destruct (early t) eqn:Et; [|eapply (adv_committed m), advances_quiet, exec_quiet; [exact E|done..|apply K|done] ].
  exec_cases E; try discriminate Et; try discriminate C; try apply le_refl.
  cbn. destruct (St StEmptyCommit) as ((-> & -> & _)%middle_singleton & _ & A); [set_solver|done|].
  rewrite (synced_start m); [apply le_refl| |done]. apply Idle.
  pose proof (inv_lock _ _ I) as L. cbn in L. by destruct (applyStoreMu m).
Qed.

(** The goroutines that do not move keep their targets. *)
Lemma others_hold ch m t m' t' new ts1 ts2 p y :
  exec workerID workerLabels jitter ch m t = Some (m', t', new) -> Inv m (ts1 ++ t :: ts2) ->
  p ∈ ts1 ++ ts2 -> holds m p = Some y -> exists y', holds m' p = Some y' /\ le y y'.
Proof.
  intros E I Hp Hy.
  assert (le (coord (assignment m)) (coord (assignment m'))) as L.
  { pose proof I as [_ Cs _ St Th K]. apply Forall_middle in Cs as [Cs _]. apply Forall_middle in Th as [Th _].
    destruct (in_cs t) eqn:C; [eapply adv_assignment, advances_cs; done|].
    destruct (early t) eqn:Et; [|eapply adv_assignment, advances_quiet, exec_quiet; [exact E|done..|apply K|done] ].
    destruct (St t) as ((-> & -> & _)%middle_singleton & _); [set_solver|done|]. by apply not_elem_of_nil in Hp. }
  destruct p; cbn in *; simplify_eq; eauto using le_refl.
Qed.

Lemma covered_sub m ts ts' x : ts ⊆ ts' -> covered m ts x -> covered m ts' x.
Proof. intros S (y & O & L). exists y. split; [|done]. destruct O; eauto using owner. Qed.

Lemma covered_le m ts x y : le x y -> covered m ts y -> covered m ts x.
Proof. intros L (z & O & L'). exists z. split; [done|by eapply le_trans]. Qed.

(** ** The wanted targets stay covered *)

Lemma exec_owner ch m t m' t' new ts1 ts2 y :
  exec workerID workerLabels jitter ch m t = Some (m', t', new) -> known_choice ch -> RInv m (ts1 ++ t :: ts2) ->
  ctx_done m = false -> owner m (ts1 ++ t :: ts2) y ->
  covered m' (ts1 ++ t' :: new ++ ts2) y \/ outdated m y.
Proof.
  intros E Kc R Cx O. pose proof (r_inv _ _ R) as I. pose proof (st_nonneg _ (inv_state _ _ I)) as N.
  pose proof (inv_threads _ _ I) as T. apply Forall_middle in T as [T _].
  pose proof (inv_cs _ _ I) as Cs. apply Forall_middle in Cs as [Cs _].
  pose proof E as (Rj & Ov & _ & Raw)%exec_given_up.
  assert ([t'] ⊆ ts1 ++ t' :: new ++ ts2) as Sub by set_solver.
  destruct O as [|a Ea|a Ea|c Ec|a Ha|a Ha|p y Hp Hy].
  - left. eapply covered_le; [by eapply exec_committed_le|]. apply covered_owner, own_committed.
  - left. apply covered_owner, own_raw. rewrite Raw; [done|]. destruct (waiting_start t) eqn:W; [|done].
    rewrite (r_raw _ _ R) in Ea; [done|]. exists t. set_solver.
  - left. edestruct exec_stashed_apply as [(b & Eb & L)|Hb]; [exact E|done..| |].
    + exists (coord b). split; [by apply own_apply|done].
    + by eapply covered_sub, covered_thread.
  - left. edestruct exec_stashed_fetch as [(b & Eb & L)|Hb]; [exact E|done..| |].
    + exists (coordC b). split; [by apply own_fetch|done].
    + by eapply covered_sub, covered_thread.
  - left. apply covered_owner, own_rejected. set_solver.
  - left. apply covered_owner, own_overruled. set_solver.
  - assert (p = t \/ p ∈ ts1 ++ ts2) as [->|Hp'] by set_solver.
    + edestruct exec_held as [Cv|?]; [exact E|done..|apply R|exact Hy| |by right]. left. by eapply covered_sub.
    + left. edestruct others_hold as (y' & Hy' & L); [exact E|done..|]. exists y'. split; [|done].
      eapply own_thread; [|exact Hy']. set_solver.
Qed.

Lemma exec_wanted ch m t m' t' new x :
  exec workerID workerLabels jitter ch m t = Some (m', t', new) -> nonneg m' -> wanted m' x -> wanted m x \/ covered m' [t'] x.
Proof.
  intros E N' W.
  exec_cases E; try (by left); revert N' W; update_cases; intros N' [W|W]; cbn in W; simplify_eq.
  all: try (left; unfold wanted; auto; fail).
  all: try (right; apply covered_thread; reflexivity).
  - right. by apply covered_owner, own_raw.
  - right. eapply covered_le; [|apply covered_owner, own_committed]. apply le_zero, N'.
  - right. eapply covered_le; [|apply covered_owner, own_committed]. apply le_zero, N'.
Qed.

Lemma top_wanted m : nonneg m -> exists z, wanted m z /\ forall x, wanted m x -> le x z.
Proof.
  intros [Na Nf _ _ _ _]. set (s := coord (assignment m)).
  destruct (highestAcceptedTarget m) as [f|] eqn:E; cbn in Nf.
  - destruct (stale s f) eqn:S; [exists f|exists s]; (split; [unfold wanted; auto|]).
    + intros x [W|W]; simplify_eq; [apply le_refl|by apply stale_le].
    + intros x [W|W]; simplify_eq; [done|apply le_refl].
  - exists s. split; [by right|]. intros x [W| ->]; [congruence|apply le_refl].
Qed.

(** The newest wanted target is not dropped, and it covers the others. *)
Lemma exec_covered ch m t m' t' new ts1 ts2 :
  exec workerID workerLabels jitter ch m t = Some (m', t', new) -> known_choice ch -> RInv m (ts1 ++ t :: ts2) ->
  ctx_done m = false ->
  forall x, wanted m' x -> covered m' (ts1 ++ t' :: new ++ ts2) x.
Proof.
  intros E Kc R Cx x W. pose proof (r_inv _ _ R) as I. pose proof (st_nonneg _ (inv_state _ _ I)) as N.
  pose proof (inv_threads _ _ I) as T. apply Forall_middle in T as [T _].
  assert (nonneg m') as N' by (by eapply exec_nonneg_state).
  edestruct exec_wanted as [Wm|Cv]; [exact E|done|exact W| |eapply covered_sub, Cv; set_solver].
  destruct (top_wanted m N) as (z & Wz & Top). apply (covered_le _ _ _ z); [by apply Top|].
  destruct (r_wanted _ _ R Cx z Wz) as (y & O & L). apply (covered_le _ _ _ y); [done|].
  edestruct exec_owner as [?|(z' & Wz' & S)]; [exact E|done..| ]. 
  exfalso. assert (le z' y) as L' by (eapply le_trans; [by apply Top|done]). unfold le in L'. congruence.
Qed.

(** ** The retry loops run while a stash is full *)

Lemma finish_apply_loop k a r : apply_loop (finish k a r) = by_apply_loop k.
Proof. by destruct k as [| |[]| | |], r. Qed.

Lemma finish_fetch_loop k a r : fetch_loop (finish k a r) = by_fetch_loop k.
Proof. by destruct k as [| |[]| | |], r. Qed.

Lemma exec_apply_active ch m t m' t' new :
  exec workerID workerLabels jitter ch m t = Some (m', t', new) ->
  (apply_loop t' = apply_loop t /\ count apply_loop new = 0 /\ applyRetryActive m' = applyRetryActive m) \/
  (apply_loop t' = apply_loop t /\ count apply_loop new = 1 /\ applyRetryActive m = false /\ applyRetryActive m' = true) \/
  (apply_loop t = true /\ apply_loop t' = false /\ count apply_loop new = 0 /\ applyRetryActive m' = false).
Proof.
  intros E. exec_cases E; rewrite ?finish_apply_loop; update_cases;
    first [by left|by right; left|by right; right].
Qed.

Lemma exec_fetch_active ch m t m' t' new :
  exec workerID workerLabels jitter ch m t = Some (m', t', new) ->
  (fetch_loop t' = fetch_loop t /\ count fetch_loop new = 0 /\ fetchRetryActive m' = fetchRetryActive m) \/
  (fetch_loop t' = fetch_loop t /\ count fetch_loop new = 1 /\ fetchRetryActive m = false /\ fetchRetryActive m' = true) \/
  (fetch_loop t = true /\ fetch_loop t' = false /\ count fetch_loop new = 0 /\ fetchRetryActive m' = false).
Proof.
  intros E. exec_cases E; rewrite ?finish_fetch_loop; update_cases;
    first [by left|by right; left|by right; right].
Qed.

(** A count of loops follows its flag. *)
Lemma count_active (f : thread -> bool) (b b' : bool) t t' new ts1 ts2 :
  (f t' = f t /\ count f new = 0 /\ b' = b) \/ (f t' = f t /\ count f new = 1 /\ b = false /\ b' = true) \/
  (f t = true /\ f t' = false /\ count f new = 0 /\ b' = false) ->
  count f (ts1 ++ t :: ts2) = (if b then 1 else 0) -> count f (ts1 ++ t' :: new ++ ts2) = if b' then 1 else 0.
Proof.
  intros C. rewrite count_middle, count_spawn.
  destruct C as [(-> & -> & ->)|[(-> & -> & -> & ->)|(-> & -> & -> & ->)]]; [lia..|]. destruct b; lia.
Qed.

(** Filling the stash is followed by arming the loop. *)
Lemma exec_apply_fill ch m t m' t' new :
  exec workerID workerLabels jitter ch m t = Some (m', t', new) ->
  stashedApplyRetry m' <> None -> stashedApplyRetry m <> None \/ apply_arming t' = true.
Proof. intros E. exec_cases E; update_cases; auto. Qed.

Lemma exec_fetch_fill ch m t m' t' new :
  exec workerID workerLabels jitter ch m t = Some (m', t', new) ->
  stashedFetchRetry m' <> None -> stashedFetchRetry m <> None \/ fetch_arming t' = true \/ fetch_loop t' = true.
Proof. intros E. exec_cases E; update_cases; auto. Qed.

(** A goroutine that arms a loop goes on doing so until the loop runs. *)
Lemma exec_apply_arming ch m t m' t' new :
  exec workerID workerLabels jitter ch m t = Some (m', t', new) -> ctx_done m = false ->
  stashedApplyRetry m' <> None -> apply_loop t = true \/ apply_arming t = true ->
  apply_loop t' = true \/ apply_arming t' = true \/ applyRetryActive m' = true.
Proof.
  intros E Cx S A. exec_cases E; rewrite ?finish_apply_loop; cbn in *; destruct A as [A|A]; try discriminate A; auto; congruence.
Qed.

Lemma exec_fetch_arming ch m t m' t' new :
  exec workerID workerLabels jitter ch m t = Some (m', t', new) -> ctx_done m = false ->
  stashedFetchRetry m' <> None -> fetch_loop t = true \/ fetch_arming t = true ->
  fetch_loop t' = true \/ fetch_arming t' = true \/ fetchRetryActive m' = true.
Proof.
  intros E Cx S A. exec_cases E; rewrite ?finish_fetch_loop; cbn in *; destruct A as [A|A]; try discriminate A; auto; congruence.
Qed.

(** ** Commits are handled one after the other *)

Lemma exec_flight ch m t m' t' new :
  exec workerID workerLabels jitter ch m t = Some (m', t', new) -> pendingApplyInFlight m' = true ->
  in_flight t' = true \/ (in_flight t = false /\ pendingApplyInFlight m = true).
Proof.
  intros E. exec_cases E; update_cases; cbn; auto.
  all: destruct k; auto.
Qed.

Lemma exec_no_stash ch m t m' t' new :
  exec workerID workerLabels jitter ch m t = Some (m', t', new) -> stashing t = false -> stashedCommit m = None ->
  stashedCommit m' = None /\ Forall (λ p, stashing p = false) new /\
  (stashing t' = true -> commit_handler t = true /\ in_flight t = false /\ pendingApplyInFlight m = true).
Proof.
  intros E S C. exec_cases E; try discriminate S; update_cases; split_and!; try done; try by repeat constructor.
  all: by destruct k as [| |[]| | |].
Qed.

Lemma in_flight_handler t : in_flight t = true -> commit_handler t = true.
Proof. destruct t; cbn; done. Qed.

Lemma exec_no_wait ch m t m' t' new :
  exec workerID workerLabels jitter ch m t = Some (m', t', new) ->
  waiting_start t' = false /\ Forall (λ p, waiting_start p = false) new.
Proof. intros E. exec_cases E; split; try done; try by repeat constructor. all: by destruct k as [| |[]| | |]. Qed.

Lemma flight_ok ch m t m' t' new ts1 ts2 :
  exec workerID workerLabels jitter ch m t = Some (m', t', new) -> RInv m (ts1 ++ t :: ts2) ->
  (pendingApplyInFlight m' = true -> has in_flight (ts1 ++ t' :: new ++ ts2)) /\
  stashedCommit m' = None /\ Forall (λ p, stashing p = false) (ts1 ++ t' :: new ++ ts2).
Proof.
  intros E R. pose proof (r_stashing _ _ R) as S. apply Forall_middle in S as [St So].
  edestruct exec_no_stash as (Sc & Sn & Sp); [exact E|done|apply R|]. split_and!; [|done|].
  - intros P. rewrite has_spawn. edestruct exec_flight as [?|[Nf Pm]]; [exact E|exact P|by left|].
    destruct (proj1 (has_middle _ _ _ _) (r_flight _ _ R Pm)) as [?|?]; [congruence|auto].
  - apply Forall_spawn. split_and!; [|done..]. destruct (stashing t') eqn:Et; [|done].
    destruct (Sp eq_refl) as (Hc & Nf & Pm).
    destruct (proj1 (has_middle _ _ _ _) (r_flight _ _ R Pm)) as [?|(p & Hp & Fp)]; [congruence|].
    pose proof (r_serial _ _ R) as L. rewrite count_middle, Hc in L.
    assert (0 < count commit_handler (ts1 ++ ts2)); [|lia].
    apply has_count. exists p. auto using in_flight_handler.
Qed.

Lemma raw_ok ch m t m' t' new ts1 ts2 :
  exec workerID workerLabels jitter ch m t = Some (m', t', new) -> Inv m (ts1 ++ t :: ts2) ->
  ~ has waiting_start (ts1 ++ t' :: new ++ ts2).
Proof.
  intros E I. apply exec_no_wait in E as [W Wn]. rewrite has_spawn. intros [?|[(p & Hp & Wp)|(p & Hp & Wp)]].
  - congruence.
  - rewrite Forall_forall in Wn. apply Wn in Hp. congruence.
  - assert (early p = true) as Ep by by destruct p.
    destruct (inv_start _ _ I p) as ((-> & -> & _)%middle_singleton & _); [set_solver|done|].
    by apply not_elem_of_nil in Hp.
Qed.

Lemma has_of_count f (ts : list thread) (b : bool) : count f ts = (if b then 1 else 0) -> b = true -> has f ts.
Proof. intros C ->. apply has_count. lia. Qed.

(** A full stash keeps a goroutine that runs or arms its loop. *)
Lemma stay_armed (f g : thread -> bool) (b : bool) t t' new ts1 ts2 :
  has f (ts1 ++ t :: ts2) \/ has g (ts1 ++ t :: ts2) ->
  (f t = true \/ g t = true -> f t' = true \/ g t' = true \/ b = true) ->
  count f (ts1 ++ t' :: new ++ ts2) = (if b then 1 else 0) ->
  has f (ts1 ++ t' :: new ++ ts2) \/ has g (ts1 ++ t' :: new ++ ts2).
Proof.
  intros A K C. rewrite !has_middle in A. pose proof (has_of_count _ _ _ C) as B. rewrite has_spawn in B. rewrite !has_spawn. tauto.
Qed.

Lemma rinv_thread ch m t m' t' new ts1 ts2 :
  exec workerID workerLabels jitter ch m t = Some (m', t', new) -> known_choice ch -> RInv m (ts1 ++ t :: ts2) ->
  count commit_handler (ts1 ++ t' :: new ++ ts2) <= 1 -> RInv m' (ts1 ++ t' :: new ++ ts2).
Proof.
  intros E Kc R Se. pose proof (r_inv _ _ R) as I. pose proof E as (_ & _ & Cx & _)%exec_given_up.
  edestruct flight_ok as (Fl & Sc & St); [exact E|done|].
  assert (count apply_loop (ts1 ++ t' :: new ++ ts2) = if applyRetryActive m' then 1 else 0) as Ca
    by (eapply count_active; [by eapply exec_apply_active|apply R]).
  assert (count fetch_loop (ts1 ++ t' :: new ++ ts2) = if fetchRetryActive m' then 1 else 0) as Cf
    by (eapply count_active; [by eapply exec_fetch_active|apply R]).
  split; try done.
  - eapply (inv_step _ _ _ (m, ts1 ++ t :: ts2) (m', _)); [exact I|]. by eapply step_thread.
  - intros W. by edestruct raw_ok.
  - rewrite Cx. intros Cm. by eapply exec_covered.
  - rewrite Cx. intros Cm S. edestruct exec_apply_fill as [Sm|?]; [exact E|exact S| |rewrite !has_spawn; auto].
    eapply stay_armed; [by apply (r_apply_armed _ _ R)| |exact Ca]. by eapply exec_apply_arming.
  - rewrite Cx. intros Cm S. edestruct exec_fetch_fill as [Sm|?]; [exact E|exact S| |rewrite !has_spawn; tauto].
    eapply stay_armed; [by apply (r_fetch_armed _ _ R)| |exact Cf]. by eapply exec_fetch_arming.
Qed.

Lemma has_app f (ts ts' : list thread) : has f ts -> has f (ts ++ ts').
Proof. intros (p & ? & ?). exists p. set_solver. Qed.

Lemma rinv_event e m ts :
  RInv m ts -> monitors m = true -> known_event e -> count commit_handler (ts ++ [handler e]) <= 1 ->
  RInv m (ts ++ [handler e]).
Proof.
  intros R Mo Ke Se. pose proof (inv_step workerID workerLabels jitter (m, ts) (m, ts ++ [handler e]) (r_inv _ _ R)) as I.
  destruct R as [I0 _ Fl Sc St Rw Wa Ca Cf Aa Af]. split; try done.
  - apply I. by apply step_event.
  - intros P. by apply has_app, Fl.
  - apply Forall_app. split; [done|]. by destruct e; repeat constructor.
  - intros (p & [Hp|Hp%list_elem_of_singleton]%elem_of_app & W); [apply Rw; by exists p|by destruct e; subst].
  - intros Cx x Wx. eapply covered_sub; [|by apply Wa]. set_solver.
  - rewrite count_app, Ca. assert (count apply_loop [handler e] = 0) as -> by by destruct e. lia.
  - rewrite count_app, Cf. assert (count fetch_loop [handler e] = 0) as -> by by destruct e. lia.
  - intros Cx S. destruct (Aa Cx S); [left|right]; by apply has_app.
  - intros Cx S. destruct (Af Cx S); [left|right]; by apply has_app.
Qed.

Lemma rinv_init : RInv new_manager [StWait].
Proof.
  split; try done; [apply inv_init|cbv; lia|by repeat constructor|].
  intros _ x [?| ->]; [done|]. apply covered_owner. apply own_committed.
Qed.

Lemma serial_rinv m ts : serial_reachable (m, ts) -> RInv m ts.
Proof.
  intros R. change (RInv (m, ts).1 (m, ts).2). unfold serial_reachable in R. revert R. generalize (m, ts). intros c R.
  eapply (rtc_ind_r (λ c, RInv c.1 c.2)) in R; [done|apply rinv_init|]. clear. intros c c' _ [S Se] I.
  pose proof (inv_step _ _ _ _ _ (r_inv _ _ I) S) as I'.
  destruct S as [ts1 t ts2 ch m m' t' new Kc E|e m ts Mo Ke|m ts]; cbn [fst snd] in *.
  - by eapply rinv_thread.
  - by apply rinv_event.
  - destruct I as [I0 _ Fl Sc St Rw Wa Ca Cf Aa Af]. by split.
Qed.

(** ** The theorem *)

(** Somebody still has to do with target [x] or a newer one. *)
Definition attended (m : Manager) (ts : list thread) (x : coords) : Prop :=
  (exists a, stashedApplyRetry m = Some a /\ le x (coord a) /\ (has apply_loop ts \/ has apply_arming ts)) \/
  (exists c, stashedFetchRetry m = Some c /\ le x (coordC c) /\ (has fetch_loop ts \/ has fetch_arming ts)) \/
  (exists t y, t ∈ ts /\ holds m t = Some y /\ le x y).

(** C9. A worker never forgets its newest target, the alias its startup stored
    apart. While its context is alive and commits arrive through the one commit
    watcher, let [x] be the newest target a delivery gate has accepted, or the
    coordinates of the current snapshot, and let [x] be newer than the alias startup
    stored before its first apply, if it stored one: targets not newer than that
    alias can be left unapplied, see [startup_leaves_alias_unapplied]. Then a target at least as new has been applied, or is held by a goroutine, or waits
    in the apply or fetch stash while its retry loop runs or is being started, or
    was refused for good: as made for another incarnation of the worker, or as an
    alias overruled by a commit. *)
Theorem newest_target_not_forgotten m ts x :
  serial_reachable (m, ts) -> ctx_done m = false -> wanted m x ->
  from_option (λ a, ~ le x (coord a)) True (startup_raw m) ->
  le x (coord (committedAssignmentOrEmpty m)) \/ attended m ts x \/
  (exists a, (a ∈ rejected m \/ a ∈ overruled m) /\ le x (coord a)).
Proof.
  intros R%serial_rinv Cx W Raw. destruct (r_wanted _ _ R Cx x W) as (y & O & L). unfold attended.
  destruct O as [|a Ea|a Ea|c Ec|a Ha|a Ha|p y Hp Hy].
  - by left.
  - rewrite Ea in Raw. by destruct Raw.
  - right. left. left. exists a. split_and!; [done..|]. apply (r_apply_armed _ _ R Cx). congruence.
  - right. left. right. left. exists c. split_and!; [done..|]. apply (r_fetch_armed _ _ R Cx). congruence.
  - right. right. exists a. auto.
  - right. right. exists a. auto.
  - right. left. right. right. by exists p, y.
Qed.
End retry.

(** ** Executable schedules *)

Section schedules.
Context `{Xxh3} (workerID : string) (workerLabels : list string) (jitter : bool).

Fixpoint serial_run (acts : list action) (c : config) : option config :=
  match acts with
  | [] => Some c
  | a :: acts =>
      c' ← perform workerID workerLabels jitter a c;
      guard (count commit_handler c'.2 <= 1);;
      serial_run acts c'
  end.

Lemma serial_run_steps acts c c' : serial_run acts c = Some c' -> rtc (serial workerID workerLabels jitter) c c'.
Proof.
  revert c. induction acts as [|a acts IH]; intros c E; simplify_eq/=; [done|].
  simplify_option_eq. eapply rtc_l; [|by apply IH]. split; [by eapply perform_step|done].
Qed.
End schedules.

Definition serial_config (acts : list action) : config :=
  default start (@serial_run toy_xxh3 "w" [] false acts start).

Lemma serial_demo acts :
  @serial_run toy_xxh3 "w" [] false acts start = Some (serial_config acts) ->
  @serial_reachable toy_xxh3 "w" [] false ((serial_config acts).1, (serial_config acts).2).
Proof. rewrite <- surjective_pairing. apply serial_run_steps. Qed.

(** The commit of [demo_revoke] fails to apply and waits for its retry. *)
Definition demo_retry : list action := demo_failed ++ goes 1 3.

Lemma demo_retry_runs : @serial_run toy_xxh3 "w" [] false demo_retry start = Some (serial_config demo_retry).
Proof. vm_compute. reflexivity. Qed.

Lemma demo_retry_state :
  let m := (serial_config demo_retry).1 in
  ctx_done m = false /\ wanted m (2, 2)%Z /\ startup_raw m = Some demo_initial /\
  a_Version (committedAssignmentOrEmpty m) = 1%Z.
Proof. split_and!; [vm_compute; reflexivity|left; vm_compute; reflexivity|vm_compute; reflexivity..]. Qed.

Lemma demo_retry_new : from_option (λ a, ~ le (2, 2)%Z (coord a)) True (startup_raw (serial_config demo_retry).1).
Proof. destruct demo_retry_state as (_ & _ & -> & _). by vm_compute. Qed.

Lemma newest_target_not_forgotten_witness :
  let m := (serial_config demo_retry).1 in
  a_Version (committedAssignmentOrEmpty m) = 1%Z /\
  (le (2, 2)%Z (coord (committedAssignmentOrEmpty m)) \/ attended m (serial_config demo_retry).2 (2, 2)%Z \/
   (exists a, (a ∈ rejected m \/ a ∈ overruled m) /\ le (2, 2)%Z (coord a))).
Proof.
  destruct demo_retry_state as (Cx & W & _ & V). split; [exact V|].
  exact (@newest_target_not_forgotten toy_xxh3 "w" [] false _ _ (2, 2)%Z (serial_demo _ demo_retry_runs) Cx W demo_retry_new).
Defined.

(** ** Two ways to miss an assignment *)

(** An assignment that startup found as an alias, and the commit of an older
    leader at the same version. *)
Definition late_alias : Assignment := mkAssignment 5 "" [demo_part] 9 0 false 1 [] false.
Definition late_commit : AssignmentCommit := mkCommit 5 8 0 false 0 [] ∅ 0 0 0 0 "".

Definition redelivery : list action :=
  [Deliver (Alias late_alias)] ++ goes 1 2 ++ [Deliver (Commit late_commit)] ++ goes 2 3.

(** Startup stores the alias before it applies anything, so the commit is stale
    against it and is dropped; startup takes that for a success. The worker runs
    with a snapshot whose partitions were never handed to the coordinator, and
    delivering the alias and the commit again changes nothing. *)
Lemma startup_leaves_alias_unapplied :
  exists c, @serial_reachable toy_xxh3 "w" [] false c /\
    monitors c.1 = true /\ Forall (λ t, t = Finished) c.2 /\ ctx_done c.1 = false /\
    assignment c.1 = late_alias /\ committedAssignment c.1 = None /\ applies c.1 = [] /\
    stashedApplyRetry c.1 = None /\ stashedFetchRetry c.1 = None.
Proof.
  set (acts := [Act 0 (Initial (Some late_alias)); Act 0 (CommitRead (Some late_commit)); Act 0 (Fetched None)] ++
    goes 0 6 ++ redelivery).
  destruct (@serial_run toy_xxh3 "w" [] false acts start) as [c|] eqn:E; [|by vm_compute in E].
  exists c. split; [by eapply serial_run_steps|]. vm_compute in E. simplify_eq. split_and!; try reflexivity.
  repeat constructor.
Qed.

(** A commit of a newer leader, and an alias of the older leader at a higher version. *)
Definition fresh_commit : AssignmentCommit := mkCommit 6 6 0 false 0 [] ∅ 0 0 0 0 "".
Definition old_alias : Assignment := mkAssignment 7 "" [demo_part] 1 0 false 1 [] false.

(** The alias is overruled by the commit, but has raised the accepted target: the
    commit's retry and its later deliveries are dropped by the fence, and the
    worker keeps its old assignment with nothing left to do. *)
Lemma overruled_alias_blocks_commit :
  exists c, @serial_reachable toy_xxh3 "w" [] false c /\
    Forall (λ t, t = Finished) c.2 /\ ctx_done c.1 = false /\ overruled c.1 = [old_alias] /\
    lastObservedCommit c.1 = Some fresh_commit /\ committedAssignment c.1 = Some demo_initial /\
    stashedApplyRetry c.1 = None /\ stashedFetchRetry c.1 = None.
Proof.
  set (acts := demo_startup ++ [Deliver (Commit fresh_commit)] ++ goes 1 6 ++ [Act 1 (Fetched None)] ++ goes 1 6 ++
    [Act 1 (Outcome false)] ++ goes 1 5 ++
    [Deliver (Alias old_alias)] ++ goes 3 5 ++ goes 2 11 ++
    [Deliver (Commit fresh_commit)] ++ goes 4 6 ++ [Act 4 (Fetched None)] ++ goes 4 7).
  destruct (@serial_run toy_xxh3 "w" [] false acts start) as [c|] eqn:E; [|by vm_compute in E].
  exists c. split; [by eapply serial_run_steps|]. vm_compute in E. simplify_eq.
  split_and!; try reflexivity. repeat constructor.
Qed.
