(* ===== verification/Watch.v ===== *)
(** * The watchers of a worker (manager_assignment.go)

    A watch session turns the entries of the bucket into calls of the commit and
    alias handlers. Commits go through [commitDebouncer], which collapses bursts
    but hands over every commit that changes what the worker is assigned; the
    fleet size is observed before the debounce. A timer is its armed flag: it may
    fire at any moment while it is armed. *)
From S2P Require Import Prelude Partition Wire Float64.

(** ** The commit debouncer *)

Definition commitContainsWorker (c : option AssignmentCommit) (workerID : string) : bool :=
  match c with None => false | Some c => bool_decide (workerID ∈ Workers c) end.

(** The hash of the worker's payload; reading a missing key of a Go map gives the
    zero reference. *)
Definition payload_hash (c : AssignmentCommit) (workerID : string) : string :=
  from_option PayloadHash "" (Payloads c !! workerID).

Definition workerAssignmentChanged (prev next : AssignmentCommit) (workerID : string) : bool :=
  let prevHas := commitContainsWorker (Some prev) workerID in
  let nextHas := commitContainsWorker (Some next) workerID in
  if decide (prevHas <> nextHas) then true
  else if negb prevHas then false
  else bool_decide (payload_hash prev workerID <> payload_hash next workerID).

Record commitDebouncer := mkDebouncer {
  debounce : bool;
  db_workerID : string;
  db_pending : option AssignmentCommit;
  db_armed : bool;
}.

Definition newCommitDebouncer (window : Z) (workerID : string) : commitDebouncer :=
  mkDebouncer (bool_decide (0 < window)%Z) workerID None false.

Definition set_pending (p : option AssignmentCommit) (armed : bool) (d : commitDebouncer) : commitDebouncer :=
  mkDebouncer (debounce d) (db_workerID d) p armed.

(** The commits handed to [dispatch], in order. *)
Definition stage (commit : option AssignmentCommit) (d : commitDebouncer) : commitDebouncer * list AssignmentCommit :=
  match commit with
  | None => (d, [])
  | Some c =>
      if negb (debounce d) then (d, [c])
      else
        match db_pending d with
        | Some p =>
            if decide (Version c < Version p)%Z then (d, [])
            else (set_pending (Some c) true d, if workerAssignmentChanged p c (db_workerID d) then [p] else [])
        | None => (set_pending (Some c) true d, [])
        end
  end.

Definition flush (d : commitDebouncer) : commitDebouncer * list AssignmentCommit :=
  match db_pending d with
  | None => (d, [])
  | Some c => (set_pending None (db_armed d) d, [c])
  end.

(** ** The fleet size *)

Section fleet.

(** [set_rate] is whether the claim-write limiter is retuned; [retuned] are the
    worker counts pushed to it and to the consumer's observer. *)
Record Fleet := mkFleet {
  lastFleetVersion : Z;
  lastFleetLeaderRev : Z;
  lastObservedN : Z;
  retuned : list Z;
}.

Definition observeFleetSizeN (lastSeen version leaderRev n : Z) (f : Fleet) : Fleet :=
  let n := if decide (n < 1)%Z then 1%Z else n in
  if decide (leaderRev <> 0 /\ leaderRev < lastSeen)%Z then f
  else if decide (version < lastFleetVersion f \/ version = lastFleetVersion f /\ leaderRev <= lastFleetLeaderRev f)%Z
  then f
  else if decide (n = lastObservedN f) then mkFleet version leaderRev (lastObservedN f) (retuned f)
  else mkFleet version leaderRev n (retuned f ++ [n]).

Definition observeFleetSize (lastSeen : Z) (commit : option AssignmentCommit) (f : Fleet) : Fleet :=
  match commit with
  | None => f
  | Some c => observeFleetSizeN lastSeen (Version c) (LeaderRevision c) (Z.of_nat (length (Workers c))) f
  end.
End fleet.

(** ** Sessions *)

(** An arm of the select of [runWatchSession]. An update carries the decoded
    commit, or none when it is a deletion, is not JSON or ends the replay of
    initial values; a reconcile carries the commit it read. *)
Inductive arm :=
| ArmUpdate (commit : option AssignmentCommit)
| ArmTimer
| ArmReconcile (commit : option AssignmentCommit)
| ArmClosed (ctx_err : bool)
| ArmDone.

(** How the session went on. *)
Inductive session_end := Continue | Clean | Restart.

Record session := mkSession { s_deb : commitDebouncer; s_fleet : Fleet; s_end : session_end }.

(** One turn of the loop, with the last seen leader revision at that time. *)
Definition runCommitWatchSession (lastSeen : Z) (a : arm) (s : session) : session * list AssignmentCommit :=
  match s_end s with
  | Continue =>
      match a with
      | ArmUpdate c | ArmReconcile c =>
          let '(d, out) := stage c (s_deb s) in
          (mkSession d (observeFleetSize lastSeen c (s_fleet s)) Continue, out)
      | ArmTimer =>
          if db_armed (s_deb s) then
            let '(d, out) := flush (set_pending (db_pending (s_deb s)) false (s_deb s)) in
            (mkSession d (s_fleet s) Continue, out)
          else (s, [])
      | ArmClosed true | ArmDone => (mkSession (s_deb s) (s_fleet s) Clean, [])
      | ArmClosed false => let '(d, out) := flush (s_deb s) in (mkSession d (s_fleet s) Restart, out)
      end
  | _ => (s, [])
  end.

Fixpoint run_session (arms : list (Z * arm)) (s : session) : session * list AssignmentCommit :=
  match arms with
  | [] => (s, [])
  | (lastSeen, a) :: arms =>
      let '(s1, out1) := runCommitWatchSession lastSeen a s in
      let '(s2, out2) := run_session arms s1 in
      (s2, out1 ++ out2)
  end.

(** ** Differences *)

Definition diffPartitions (oldPartitions newPartitions : list Partition) : list Partition * list Partition :=
  let ids ps := ID <$> ps in
  (filter (λ p, ID p ∉ ids oldPartitions) newPartitions, filter (λ p, ID p ∉ ids newPartitions) oldPartitions).

(** ** The worker's view of a stream of commits *)

(** What a commit assigns to the worker: the hash of its payload, or nothing. *)
Definition assigned (workerID : string) (c : AssignmentCommit) : option string :=
  if decide (workerID ∈ Workers c) then Some (payload_hash c workerID) else None.

Lemma changed_assigned w p c : workerAssignmentChanged p c w = bool_decide (assigned w p <> assigned w c).
Proof.
  unfold workerAssignmentChanged, assigned, commitContainsWorker.
  rewrite !bool_decide_decide. destruct (decide (w ∈ Workers p)), (decide (w ∈ Workers c)); cbn;
    repeat match goal with |- context [decide ?P] => destruct (decide P) end; intuition congruence.
Qed.

(** A list without its repetitions. *)
Fixpoint changes {A} `{EqDecision A} (l : list A) : list A :=
  match l with
  | [] => []
  | x :: l => match changes l with (y :: _) as r => if decide (x = y) then r else x :: r | [] => [x] end
  end.

Lemma changes_cons_ext {A} `{EqDecision A} (x : A) l l' : changes l = changes l' -> changes (x :: l) = changes (x :: l').
Proof. cbn. by intros ->. Qed.

Lemma changes_app_ext {A} `{EqDecision A} (k l l' : list A) :
  changes l = changes l' -> changes (k ++ l) = changes (k ++ l').
Proof. intros E. induction k as [|x k IH]; [done|]. by apply changes_cons_ext. Qed.

Lemma changes_head {A} `{EqDecision A} (x : A) l : exists r, changes (x :: l) = x :: r.
Proof. cbn. destruct (changes l) as [|y r]; [by exists []|].
  destruct (decide (x = y)) as [->|]; by eexists. Qed.

#[local] Arguments changes : simpl never.

Lemma changes_repeat {A} `{EqDecision A} (x : A) l : changes (x :: x :: l) = changes (x :: l).
Proof.
  destruct (changes_head x l) as [r E]. change (changes (x :: x :: l)) with
    (match changes (x :: l) with (y :: _) as r => if decide (x = y) then r else x :: r | [] => [x] end).
  rewrite E. by rewrite decide_True.
Qed.

(** A commit the out-of-order guard of [stage] does not drop. *)
Definition in_order (d : commitDebouncer) (c : AssignmentCommit) : bool :=
  match db_pending d with
  | Some p => negb (debounce d) || bool_decide (Version p <= Version c)%Z
  | None => true
  end.

Definition arm_commit (a : arm) : option AssignmentCommit :=
  match a with ArmUpdate c | ArmReconcile c => c | _ => None end.

(** The commits a session takes in. *)
Fixpoint admitted (arms : list (Z * arm)) (s : session) : list AssignmentCommit :=
  match arms with
  | [] => []
  | (lastSeen, a) :: arms =>
      (match s_end s, arm_commit a with
       | Continue, Some c => if in_order (s_deb s) c then [c] else []
       | _, _ => []
       end) ++ admitted arms (runCommitWatchSession lastSeen a s).1
  end.

Definition pending_list (s : session) : list AssignmentCommit := option_list (db_pending (s_deb s)).

(** Without a debounce nothing is pending. *)
Definition session_ok (w : string) (s : session) : Prop :=
  db_workerID (s_deb s) = w /\ (debounce (s_deb s) = false -> db_pending (s_deb s) = None).

Lemma session_ok_step w ls a s : session_ok w s -> session_ok w (runCommitWatchSession ls a s).1.
Proof.
  destruct s as [[b w' p ar] f e]. unfold session_ok, runCommitWatchSession, stage, flush. cbn.
  intros [-> N]. destruct e; [|done..].
  destruct b; [clear N|rewrite (N eq_refl); clear N].
  all: destruct a as [[c|]| |[c|]|[]|], p as [q|]; cbn; repeat (case_match; simplify_eq/=); auto; by split.
Qed.

(** One turn hands over or keeps what it takes in, up to repetitions. *)
Lemma turn_changes w ls a s l :
  session_ok w s ->
  let '(s', out) := runCommitWatchSession ls a s in
  changes (assigned w <$> pending_list s ++
    (match s_end s, arm_commit a with
     | Continue, Some c => if in_order (s_deb s) c then [c] else []
     | _, _ => []
     end) ++ l) =
  changes (assigned w <$> out ++ pending_list s' ++ l).
Proof.
  destruct s as [[b w' p ar] f e]. unfold session_ok, runCommitWatchSession, stage, flush, pending_list, in_order. cbn.
  intros [-> N]. destruct e; [|done..].
  destruct b; [clear N|rewrite (N eq_refl); clear N].
  all: destruct a as [[c|]| |[c|]|[]|], ar, p as [q|]; cbn; try done.
  all: destruct (decide (Version c < Version q)%Z); cbn;
    [by rewrite bool_decide_eq_false_2 by lia|rewrite bool_decide_eq_true_2 by lia].
  all: rewrite changed_assigned; case_bool_decide as Q; cbn; [done|].
  all: rewrite Q; apply changes_repeat.
Qed.

Lemma run_changes w arms s :
  session_ok w s ->
  let '(s', out) := run_session arms s in
  changes (assigned w <$> pending_list s ++ admitted arms s) = changes (assigned w <$> out ++ pending_list s').
Proof.
  revert s. induction arms as [|[ls a] arms IH]; intros s K; cbn [run_session admitted].
  { by rewrite app_nil_r. }
  pose proof (turn_changes w ls a s (admitted arms (runCommitWatchSession ls a s).1) K) as T.
  pose proof (session_ok_step w ls a s K) as K1.
  destruct (runCommitWatchSession ls a s) as [s1 out1]. cbn [fst] in *. rewrite T.
  specialize (IH s1 K1). destruct (run_session arms s1) as [s2 out2]. rewrite <- app_assoc, !fmap_app.
  rewrite <- (fmap_app _ out2). apply changes_app_ext. by rewrite <- fmap_app.
Qed.

(** A session whose channel was closed has handed everything over. *)
Lemma restart_flushed arms s :
  (s_end s = Restart -> pending_list s = []) ->
  s_end (run_session arms s).1 = Restart -> pending_list (run_session arms s).1 = [].
Proof.
  revert s. induction arms as [|[ls a] arms IH]; intros s K; [done|]. cbn [run_session].
  assert (s_end (runCommitWatchSession ls a s).1 = Restart -> pending_list (runCommitWatchSession ls a s).1 = []) as K1.
  { destruct s as [[b w p ar] f e]. unfold runCommitWatchSession, stage, flush, pending_list in *. cbn in *.
    destruct e; [|done..]. destruct a as [[c|]| |[c|]|[]|], b, p, ar; cbn; repeat case_match; done. }
  destruct (runCommitWatchSession ls a s) as [s1 out1]. specialize (IH s1 K1).
  by destruct (run_session arms s1).
Qed.

Definition staged (arms : list (Z * arm)) : list AssignmentCommit := omap (λ x, arm_commit x.2) arms.

Definition waits_at_most (s : session) (l : list AssignmentCommit) : Prop :=
  Forall (λ p, Forall (λ c, (Version p <= Version c)%Z) l) (pending_list s).

Lemma waits_step ls a s l :
  waits_at_most s (option_list (arm_commit a) ++ l) ->
  Forall (λ c, Forall (λ c', (Version c <= Version c')%Z) l) (option_list (arm_commit a)) ->
  waits_at_most (runCommitWatchSession ls a s).1 l.
Proof.
  destruct s as [[b w p ar] f e]. unfold waits_at_most, runCommitWatchSession, stage, flush, pending_list.
  destruct e, a as [[c|]| |[c|]|[]|], b, p as [q|], ar; cbn; repeat (case_match; cbn);
    rewrite ?Forall_singleton, ?Forall_cons; naive_solver.
Qed.

Lemma run_ended arms s : s_end s <> Continue -> run_session arms s = (s, []).
Proof.
  intros N. induction arms as [|[ls a] arms IH]; [done|]. cbn [run_session].
  unfold runCommitWatchSession. destruct (s_end s); [done|by rewrite IH..].
Qed.

(** Commits in version order are all admitted. *)
Lemma ordered_admitted arms s :
  StronglySorted (λ c c', (Version c <= Version c')%Z) (staged arms) -> waits_at_most s (staged arms) ->
  s_end (run_session arms s).1 = Continue -> admitted arms s = staged arms.
Proof.
  revert s. induction arms as [|[ls a] arms IH]; intros s O W E; [done|]. cbn [run_session admitted] in *.
  assert (staged ((ls, a) :: arms) = option_list (arm_commit a) ++ staged arms) as St.
  { unfold staged. cbn. by destruct (arm_commit a). }
  rewrite St in *.
  assert (s_end s = Continue /\ s_end (run_session arms (runCommitWatchSession ls a s).1).1 = Continue) as [Es E1].
  { destruct (s_end s) eqn:Es; [split; [done|]| |];
      [|exfalso; change (s_end (run_session ((ls, a) :: arms) s).1 = Continue) in E; rewrite run_ended in E by congruence; cbn in E; congruence..].
    destruct (runCommitWatchSession ls a s) as [s1 out1]. cbn. by destruct (run_session arms s1). }
  rewrite Es, IH; [|..|done].
  - destruct (arm_commit a) as [c|] eqn:Ec; cbn; [|done].
    assert (in_order (s_deb s) c = true) as ->; [|done].
    unfold in_order, waits_at_most, pending_list in *. destruct (db_pending (s_deb s)) as [p|]; [|done].
    cbn in W. rewrite Forall_singleton, Forall_cons in W. rewrite bool_decide_eq_true_2 by apply W. apply orb_true_r.
  - destruct (arm_commit a); cbn in O; [by apply StronglySorted_inv in O as [? _]|done].
  - apply waits_step; [done|]. destruct (arm_commit a); cbn in *; [|constructor].
    apply Forall_singleton. by apply StronglySorted_inv in O as [_ ?].
Qed.

(** C28. The debounce of the commit watcher loses no change. For every sequence of
    updates, reconciliations, timer ticks and an end of the session, with any
    debounce window: up to repetitions, the worker's assignments in the commits
    handed to the handler, followed by the commit still pending, are those in the
    commits the session took in. When the channel closes nothing is left pending,
    and commits that arrive in version order are all taken in. *)
Theorem debounce_keeps_changes w window fleet arms s' out :
  let s := mkSession (newCommitDebouncer window w) fleet Continue in
  run_session arms s = (s', out) ->
  changes (assigned w <$> out ++ pending_list s') = changes (assigned w <$> admitted arms s) /\
  (s_end s' = Restart -> pending_list s' = []) /\
  (StronglySorted (λ c c', (Version c <= Version c')%Z) (staged arms) -> s_end s' = Continue ->
    admitted arms s = staged arms).
Proof.
  intros s E. assert (s' = (run_session arms s).1) as -> by by rewrite E. split_and!.
  - assert (session_ok w s) as K by done. pose proof (run_changes w arms s K) as C. by rewrite E in *.
  - by apply restart_flushed.
  - intros O C. apply ordered_admitted; [done|constructor|done].
Qed.

Definition demo_ref (h : string) : AssignmentPayloadRef := mkRef "k" h 0 1.
Definition demo_batch (v : Z) (workers : list string) (h : string) : AssignmentCommit :=
  mkCommit v 1 0 false 0 workers {["w" := demo_ref h]} 0 0 0 0 "".

Definition demo_arms : list (Z * arm) :=
  [(0, ArmUpdate (Some (demo_batch 1 ["w"] "a"))); (0, ArmUpdate (Some (demo_batch 2 ["w"] "a")));
   (0, ArmReconcile (Some (demo_batch 3 [] "")))]%Z.

Definition demo_fleet : Fleet := mkFleet 0 0 0 [].
Definition demo_session : session := mkSession (newCommitDebouncer 1 "w") demo_fleet Continue.

Lemma demo_session_run :
  (run_session demo_arms demo_session).2 = [demo_batch 2 ["w"] "a"] /\
  pending_list (run_session demo_arms demo_session).1 = [demo_batch 3 [] ""].
Proof. split; vm_compute; reflexivity. Qed.

Lemma debounce_keeps_changes_witness :
  changes (assigned "w" <$> (run_session demo_arms demo_session).2 ++ pending_list (run_session demo_arms demo_session).1) =
  [Some "a"; None].
Proof.
  destruct (debounce_keeps_changes "w" 1 demo_fleet demo_arms (run_session demo_arms demo_session).1
    (run_session demo_arms demo_session).2 (surjective_pairing _)) as [E _].
  rewrite E. vm_compute. reflexivity.
Defined.

(** ** The observed fleet size follows the newest commit *)

(** An observation is ignored or is strictly newer than the last one taken, and
    the retunes are exactly the changes of the size. *)
Lemma observeFleetSizeN_newest lastSeen v lr n f :
  let f' := observeFleetSizeN lastSeen v lr n f in
  f' = f \/
  ((lr = 0 \/ lastSeen <= lr)%Z /\ (lastFleetVersion f < v \/ lastFleetVersion f = v /\ lastFleetLeaderRev f < lr)%Z /\
   lastFleetVersion f' = v /\ lastFleetLeaderRev f' = lr /\ lastObservedN f' = Z.max 1 n /\
   retuned f' = retuned f ++ (if decide (Z.max 1 n = lastObservedN f) then [] else [Z.max 1 n])).
Proof.
  unfold observeFleetSizeN. assert ((if decide (n < 1)%Z then 1%Z else n) = Z.max 1 n) as -> by (case_decide; lia).
  destruct (decide _) as [?|F1]; [by left|]. destruct (decide _) as [?|F2]; [by left|]. right.
  destruct (decide (Z.max 1 n = lastObservedN f)); cbn; split_and!; try lia; try done. by rewrite app_nil_r.
Qed.
