(* ===== verification/CommitRead.v ===== *)
(** * Reading commits and their payloads

    What a worker reads back from the assignment bucket: the payload of a commit,
    verified in stages (internal/assignment/commit_payload_fetch.go), and the set
    of partitions of the current commit with its cache (manager_assignment.go),
    which the removal guard and the orphan reaper use (manager_handoff.go). *)
From S2P Require Import Prelude Partition Nats KV Wire Publisher CommitGC CommitSafety CommitSystem.

(** [encoding/json] on payloads, on values it keeps. *)
Class PayloadWire `{Wire} := {
  unmarshal_payload : string -> option AssignmentPayload;
  payload_text : AssignmentPayload -> Prop;
  payload_roundtrip p : payload_text p -> unmarshal_payload (marshal_payload p) = Some p;
}.

Inductive fetch_err :=
| ErrCommitPayloadFetch (key : string) (e : go_error)
| ErrCommitPayloadDecompress (key : string)
| ErrCommitPayloadHashMismatch (key got : string)
| ErrCommitPayloadDecode (key : string)
| ErrCommitPayloadDigestMismatch (key : string) (got : Z).

Inductive commit_read_err :=
| GetCommitEntry (e : go_error)
| UnmarshalCommitEntry
| FetchCommitPayload (key : string) (e : fetch_err).

Section reading.
Context `{Wire} `{!PayloadWire} `{Xxh3}.

(** The stages after the read of [stored]. *)
Definition verifyCommitPayload (ref : AssignmentPayloadRef) (stored : string) : res fetch_err AssignmentPayload :=
  match gunzip stored with
  | None => Err (ErrCommitPayloadDecompress (Key ref))
  | Some plain =>
      let gotHex := hex (sha256 plain) in
      if decide (gotHex <> PayloadHash ref) then Err (ErrCommitPayloadHashMismatch (Key ref) gotHex)
      else
        match unmarshal_payload plain with
        | None => Err (ErrCommitPayloadDecode (Key ref))
        | Some payload =>
            let digest := PartitionSetDigest (pl_Partitions payload) in
            if decide (digest <> SetDigest ref) then Err (ErrCommitPayloadDigestMismatch (Key ref) digest)
            else Ok payload
        end
  end.

Definition FetchAndVerifyCommitPayload (ref : AssignmentPayloadRef) : prog (res fetch_err AssignmentPayload) :=
  x ← trigger (KvGet (Key ref));
  Ret match x with
      | Err e => Err (ErrCommitPayloadFetch (Key ref) e)
      | Ok entry => verifyCommitPayload ref (e_value entry)
      end.

(** ** The partitions of the current commit *)

(** The key of the commit, and the order in which a Go map is ranged over. *)
Context (key : string) (range : gmap string AssignmentPayloadRef -> list AssignmentPayloadRef).

Definition readCommitEntry : prog (res commit_read_err (option (AssignmentCommit * Z))) :=
  x ← trigger (KvGet key);
  Ret match x with
      | Err e => if Is e JsErrKeyNotFound then Ok None else Err (GetCommitEntry e)
      | Ok entry =>
          match unmarshal_commit (e_value entry) with
          | None => Err UnmarshalCommitEntry
          | Some c => Ok (Some (c, e_revision entry))
          end
      end.

Definition subject_keys (p : AssignmentPayload) : gset string := list_to_set (SubjectKey <$> pl_Partitions p).

Definition commitPartitionBatch (commit : AssignmentCommit) : prog (res commit_read_err (gset string)) :=
  for_each_err (range (Payloads commit)) ∅ (λ ref batch,
    r ← FetchAndVerifyCommitPayload ref;
    Ret match r with
        | Err e => Err (FetchCommitPayload (Key ref) e)
        | Ok payload => Ok (batch ∪ subject_keys payload)
        end).

Record commitBatchEntry := mkBatchEntry { cb_version : Z; cb_rev : Z; cb_batch : gset string }.

(** The cache of the manager is passed along. *)
Definition currentCommitPartitionSet (version : Z) (cache : option commitBatchEntry) :
    prog (res commit_read_err (gset string) * option commitBatchEntry) :=
  r ← readCommitEntry;
  match r with
  | Err e => Ret (Err e, cache)
  | Ok None => Ret (Ok ∅, cache)
  | Ok (Some (commit, rev)) =>
      if decide (Version commit <> version) then Ret (Ok ∅, cache)
      else
        match (c ← cache; if decide (cb_version c = version /\ cb_rev c = rev) then Some (cb_batch c) else None) with
        | Some batch => Ret (Ok batch, cache)
        | None =>
            b ← commitPartitionBatch commit;
            match b with
            | Err e => Ret (Err e, cache)
            | Ok batch => Ret (Ok batch, Some (mkBatchEntry version rev batch))
            end
        end
  end.

(** What the leader vouches for to the orphan reaper: [parts] is what its source
    lists, if it could be read. *)
Definition livePartitionSet (isLeader : bool) (parts : option (list Partition)) (cache : option commitBatchEntry) :
    prog (option (gset string) * option commitBatchEntry) :=
  if negb isLeader then Ret (None, cache)
  else
    match parts with
    | None => Ret (None, cache)
    | Some parts =>
        let listed : gset string := list_to_set (SubjectKey <$> parts) in
        r ← readCommitEntry;
        match r with
        | Err _ => Ret (None, cache)
        | Ok None => Ret (Some listed, cache)
        | Ok (Some (commit, _)) =>
            '(b, cache') ← currentCommitPartitionSet (Version commit) cache;
            Ret match b with
                | Err _ => (None, cache')
                | Ok commitSet => (Some (listed ∪ commitSet), cache')
                end
        end
    end.
End reading.

(** ** Encoding *)

Lemma hex_digit_inj m n : (m < 16)%N -> (n < 16)%N -> hex_digit m = hex_digit n -> m = n.
Proof.
  intros Hm Hn E. apply (f_equal N_of_ascii) in E. unfold hex_digit in E.
  rewrite !N_ascii_embedding in E; destruct (N.ltb_spec m 10), (N.ltb_spec n 10); lia.
Qed.

Lemma hex_inj s t : hex s = hex t -> s = t.
Proof.
  revert t. induction s as [|a s IH]; intros [|b t] E; try done. cbn in E.
  pose proof (N_ascii_bounded a) as Ba. pose proof (N_ascii_bounded b) as Bb.
  injection E as E1 E2 E3. f_equal; [|by apply IH].
  apply hex_digit_inj in E1; [|apply N.Div0.div_lt_upper_bound; lia..].
  apply hex_digit_inj in E2; [|apply N.mod_lt; lia..].
  rewrite <- (ascii_N_embedding a), <- (ascii_N_embedding b). f_equal.
  rewrite (N.div_mod (N_of_ascii a) 16), (N.div_mod (N_of_ascii b) 16) by lia. congruence.
Qed.

Section roundtrip.
Context `{Wire} `{!WireLaws} `{!PayloadWire} `{Xxh3} `{SortFunc}.

Lemma verify_sound ref stored p :
  verifyCommitPayload ref stored = Ok p ->
  exists plain, gunzip stored = Some plain /\ hex (sha256 plain) = PayloadHash ref /\
    unmarshal_payload plain = Some p /\ PartitionSetDigest (pl_Partitions p) = SetDigest ref.
Proof.
  unfold verifyCommitPayload. intros E. repeat case_match; simplify_eq. eexists.
  split_and!; [done|by apply dec_stable|done|by apply dec_stable].
Qed.

Lemma verify_complete ref p :
  payload_text p -> PayloadHash ref = hex (sha256 (marshal_payload p)) ->
  SetDigest ref = PartitionSetDigest (pl_Partitions p) ->
  verifyCommitPayload ref (gzip (marshal_payload p)) = Ok p.
Proof.
  intros T Hh Hd. unfold verifyCommitPayload. rewrite gunzip_gzip, decide_False by (rewrite Hh; auto).
  rewrite payload_roundtrip by done. by rewrite decide_False by (rewrite Hd; auto).
Qed.

(** A worker reads back exactly what the publisher wrote for it. Whatever the
    bucket answers, the reference that writing a worker's payload puts into the
    commit accepts the bytes the publisher stores under it, giving the payload of
    that worker, and whatever bytes it accepts decode to that payload, as long as
    SHA-256 does not collide with it. *)
Theorem published_payload_roundtrip cfg input w acc
    (no_collision : forall s, sha256 s = sha256 (marshal_payload (payload_of input w)) ->
      s = marshal_payload (payload_of input w))
    (Htext : payload_text (payload_of input w)) :
  returns (λ r, forall refs pls, r = Ok (refs, pls) ->
    exists ref, refs !! w = Some ref /\
      verifyCommitPayload ref (gzip (marshal_payload (payload_of input w))) = Ok (payload_of input w) /\
      forall stored p, verifyCommitPayload ref stored = Ok p -> p = payload_of input w)
    (write_payload cfg input w acc).
Proof.
  unfold write_payload. eapply returns_bind; [apply returns_any|]. intros [rev|e] _; cbn [returns]; [|done].
  intros refs pls [= <- <-]. rewrite lookup_insert_eq. eexists. split_and!; [done|by apply verify_complete|].
  intros stored p (plain & _ & Hh%hex_inj%no_collision & Hp & _)%verify_sound. subst plain.
  rewrite payload_roundtrip in Hp by done. congruence.
Qed.

(** The publisher adopts a payload somebody stored uncompressed; no worker
    accepts it. *)
Lemma adopted_raw_payload_unreadable ref plain :
  gunzip plain = None -> plain_bytes plain = plain /\
  verifyCommitPayload ref plain = Err (ErrCommitPayloadDecompress (Key ref)).
Proof. intros E. unfold plain_bytes, verifyCommitPayload. by rewrite E. Qed.
End roundtrip.

(** ** The cached partition set *)

Section cache.
Context `{Wire} `{!PayloadWire} `{Xxh3}.
Context (key : string) (range : gmap string AssignmentPayloadRef -> list AssignmentPayloadRef).

(** [b] is the set of partitions in payloads the references of the commit accept. *)
Definition batch_of (refs : list AssignmentPayloadRef) (b : gset string) : Prop :=
  exists pls, Forall2 (λ ref p, exists stored, verifyCommitPayload ref stored = Ok p) refs pls /\
    b = ⋃ (subject_keys <$> pls).

(** A message of the stream is the commit of version [v] at revision [r], with
    partition set [b]. *)
Definition batch_at (l : list msg) (v r : Z) (b : gset string) : Prop :=
  exists m c, m ∈ l /\ m_key m = key /\ m_rev m = r /\ commit_at m = Some c /\ Version c = v /\
    batch_of (range (Payloads c)) b.

Definition cache_ok (l : list msg) (cache : option commitBatchEntry) : Prop :=
  forall e, cache = Some e -> batch_at l (cb_version e) (cb_rev e) (cb_batch e).

(** [b] is the partition set of a commit of version [n] that was current at some
    moment between [v] and [v']. *)
Definition current_batch (v v' : view) (n : Z) (b : gset string) : Prop :=
  exists v1 m c, grows anyone v v1 /\ grows anyone v1 v' /\ live (log v1) key = Some m /\ commit_at m = Some c /\
    Version c = n /\ batch_of (range (Payloads c)) b.

(** Revisions identify messages. *)
Definition rev_unique (v : view) : Prop :=
  forall m1 m2, m1 ∈ log v -> m2 ∈ log v -> m_rev m1 = m_rev m2 -> m1 = m2.

Lemma rev_unique_same v v' : rev_unique v -> log v' = log v -> (now v <= now v')%Z -> rev_unique v'.
Proof. intros U E _. unfold rev_unique. by rewrite E. Qed.

Lemma commit_batch_grows from v v' n r b : grows from v v' -> batch_at (log v) n r b -> batch_at (log v') n r b.
Proof. intros [(l & -> & _) _] (m & c & Hm & P). exists m, c. split; [set_solver|done]. Qed.

Lemma cache_ok_grows from v v' cache : grows from v v' -> cache_ok (log v) cache -> cache_ok (log v') cache.
Proof. intros G C e Ee. eapply commit_batch_grows; [done|by apply C]. Qed.

Context (deadline : forall X, op X -> option Z) (me : nat) (t0 : Z).
Local Notation wp := (wp rev_unique deadline me anyone t0).

Lemma wp_commitPartitionBatch c v :
  rev_unique v ->
  wp (commitPartitionBatch range c) (λ r _, forall b, r = Ok b -> batch_of (range (Payloads c)) b) v.
Proof.
  intros U. unfold commitPartitionBatch.
  eapply wp_mono; [apply (wp_for_each_err _ _ _ _ _ _ _ _
    (λ todo batch _, exists refs, range (Payloads c) = refs ++ todo /\ batch_of refs batch) (λ _ _, True))| ].
  - done.
  - done.
  - intros ref todo batch v1 L U1 (refs & E & pls & F & ->).
    unfold FetchAndVerifyCommitPayload. apply wp_bind; [|done]. apply wp_quiet; [apply rev_unique_same|done|].
    intros x v2 L2 U2 _ v3 L3 U3. intros v4 L4 U4. destruct x as [e|e]; [|done].
    destruct (verifyCommitPayload ref (e_value e)) as [p|] eqn:V; [|done].
    exists (refs ++ [ref]). split; [rewrite <- app_assoc; exact E|]. exists (pls ++ [p]). split.
    + apply Forall2_app; [done|]. constructor; [by eexists|constructor].
    + rewrite fmap_app, union_list_app_L. cbn. by rewrite union_empty_r_L.
  - exists []. split; [done|]. by exists [].
  - done.
  - intros [b|e] v1 _ _ P b'; [|done]. intros [= <-]. destruct P as (refs & E & B). rewrite app_nil_r in E. by subst.
Qed.

Lemma current_batch_hit v v' v1 m c e n :
  grows anyone v v1 -> grows anyone v1 v' -> rev_unique v' -> live (log v1) key = Some m -> commit_at m = Some c ->
  Version c = n -> batch_at (log v') n (m_rev m) (cb_batch e) -> current_batch v v' n (cb_batch e).
Proof.
  intros G1 G2 U Lm Cm Vc (m' & c' & Hm' & _ & Rm & Cm' & _ & B). exists v1, m, c. split_and!; try done.
  assert (m' = m) as ->; [|by simplify_eq].
  apply U; [done| |done]. destruct G2 as [(l & -> & _) _]. apply live_elem in Lm as [? _]. set_solver.
Qed.

(** The partition set of the current commit is the same with or without its
    cache. In every interleaving with other writers of the bucket, a set returned
    for a version is empty, or it is the set of partitions of a commit of that
    version that was the current one during the call, collected from payloads its
    references accept; and the cache is left with such a set. *)
Theorem commit_batch_cache_sound version cache v :
  rev_unique v -> cache_ok (log v) cache ->
  wp (currentCommitPartitionSet key range version cache) (λ x v',
    cache_ok (log v') x.2 /\ forall b, x.1 = Ok b -> b = ∅ \/ current_batch v v' version b) v.
Proof.
  intros U C. unfold currentCommitPartitionSet, readCommitEntry.
  apply wp_bind; [|done]. apply wp_quiet; [apply rev_unique_same|done|].
  intros x v1 L1 U1 (v0 & L0 & U0 & E & _) v2 L2 U2.
  assert (cache_ok (log v2) cache) as C2 by (eapply cache_ok_grows; [exact L2|by eapply cache_ok_grows]).
  destruct x as [e|e]; [|destruct (Is e JsErrKeyNotFound); intros v3 L3 _;
    (split; [by eapply cache_ok_grows|]); naive_solver].
  destruct (unmarshal_commit (e_value e)) as [c|] eqn:Ec; [|intros v3 L3 _; split; [by eapply cache_ok_grows|done]].
  destruct (decide (Version c <> version)) as [|Ev]; [intros v3 L3 _; split; [by eapply cache_ok_grows|naive_solver]|].
  apply dec_stable in Ev. destruct E as (El & _ & m & Lm & ->). rewrite <- El in Lm.
  assert (commit_at m = Some c) as Cm.
  { destruct (live_put _ _ _ Lm) as [s Bm]. unfold commit_at, entry_of in *. cbn in Ec. by rewrite Bm in *. }
  match goal with |- context [match ?o with Some _ => _ | None => _ end] => destruct o as [b|] eqn:Eo end.
  - intros v3 L3 U3. split; [by eapply cache_ok_grows|]. intros ? [= <-]. right.
    destruct cache as [ce|]; [|done]. cbn in Eo. case_decide as D; [|done]. destruct D as [Dv Dr]. simplify_eq/=.
    eapply (current_batch_hit _ _ v1); [done|by trans v2|done..|].
    eapply commit_batch_grows; [exact L3|]. rewrite <- Dv, <- Dr. by apply C2.
  - apply wp_bind; [|done]. eapply wp_mono; [by apply wp_commitPartitionBatch|].
    intros [b|e'] v3 L3 U3 B v4 L4 _; [|split; [eapply cache_ok_grows; [exact L4|by eapply cache_ok_grows]|done]].
    assert (grows anyone v1 v4) as G by (trans v2; [done|by trans v3]). split.
    + intros ? [= <-]. exists m, c. destruct G as [(l & -> & _) _]. apply live_elem in Lm as [? ?].
      split_and!; try done; [set_solver|by apply B].
    + intros ? [= <-]. right. exists v1, m, c. split_and!; try done. by apply B.
Qed.
End cache.

(** ** Instances *)

Definition toy_input : PublishInput := demo_input ["a"] ["x"].
Definition toy_payload : AssignmentPayload := @payload_of stable_sort toy_input "a".

(** A codec of one payload. *)
Program Definition toy_payload_wire : @PayloadWire toy_wire := {|
  unmarshal_payload := λ s, if decide (s = @marshal_payload toy_wire toy_payload) then Some toy_payload else None;
  payload_text := λ p, p = toy_payload;
|}.
Next Obligation. intros p ->. by rewrite decide_True. Qed.

Lemma published_payload_roundtrip_witness :
  returns (λ r, forall refs pls, r = Ok (refs, pls) ->
    exists ref, refs !! "a" = Some ref /\
      @verifyCommitPayload toy_wire toy_payload_wire toy_xxh3 ref
        (@gzip toy_wire (@marshal_payload toy_wire toy_payload)) = Ok toy_payload /\
      forall stored p, @verifyCommitPayload toy_wire toy_payload_wire toy_xxh3 ref stored = Ok p -> p = toy_payload)
    (@write_payload toy_wire toy_xxh3 stable_sort demo_cfg toy_input "a" (∅, ∅)).
Proof.
  refine (@published_payload_roundtrip toy_wire toy_wire_laws toy_payload_wire toy_xxh3 stable_sort
    demo_cfg toy_input "a" (∅, ∅) _ _); [done|reflexivity].
Defined.

Lemma commit_batch_cache_sound_witness :
  wp rev_unique (λ _ _, None) 0 anyone 0%Z
    (@currentCommitPartitionSet toy_wire toy_payload_wire toy_xxh3 "assignment._commit" (λ m, (map_to_list m).*2) 1 None)
    (λ x v', @cache_ok toy_wire toy_payload_wire toy_xxh3 "assignment._commit" (λ m, (map_to_list m).*2) (log v') x.2 /\
      forall b, x.1 = Ok b -> b = ∅ \/
        @current_batch toy_wire toy_payload_wire toy_xxh3 "assignment._commit" (λ m, (map_to_list m).*2)
          (mkView [] 0 ∅) v' 1 b)
    (mkView [] 0 ∅).
Proof.
  apply (@commit_batch_cache_sound toy_wire toy_payload_wire toy_xxh3 "assignment._commit" (λ m, (map_to_list m).*2)
    (λ _ _, None) 0 0%Z 1%Z None (mkView [] 0 ∅)).
  - intros m1 m2 Hm. by apply not_elem_of_nil in Hm.
  - done.
Defined.
