(* ===== verification/Resolver.v ===== *)
(** * The claim resolver and the processing gate (internal/durable)

    [ClaimBasedResolver] keeps a cache of the claims bucket: it is warmed from a
    listing, then kept current by a watcher, by a periodic reconciliation that
    is skipped while the stream has not moved, and by refreshes of single
    partitions. [processingGate] asks it before each message. Every goroutine
    is a program counter; [exec] is one atomic action of it, so the watcher, the
    reconciler, the refreshes and the gate calls interleave freely with writers
    of the bucket. The cache is only replaced under [mu], so a critical section
    is one action. *)
From S2P Require Import Prelude Nats KV Handoff.
From S2P Require Import Pattern.

Inductive HandoffState := HandoffStateUnknown | HandoffStateStable | HandoffStatePrepare | HandoffStateCommit.

#[export] Instance HandoffState_eq_dec : EqDecision HandoffState.
Proof. solve_decision. Defined.

Definition toState (cs : string) : HandoffState :=
  if decide (cs = ClaimStateStable) then HandoffStateStable
  else if decide (cs = ClaimStatePrepare) then HandoffStatePrepare
  else if decide (cs = ClaimStateCommit) then HandoffStateCommit
  else HandoffStateUnknown.

Record claimEntry := mkClaimEntry {
  owner : string;
  state : HandoffState;
  epoch : Z;
  revision : Z;
  deleted : bool;
}.

#[export] Instance claimEntry_eq_dec : EqDecision claimEntry.
Proof. solve_decision. Defined.

Inductive pending_op := OpDelete | OpUpsert (data : string).
Record pending := mkPending { p_op : pending_op; p_revision : Z }.

Definition tombstone (rev : Z) : claimEntry := mkClaimEntry "" HandoffStateUnknown 0 rev true.
Definition entry_of_claim (cl : Claim) (rev : Z) : claimEntry :=
  mkClaimEntry (Owner cl) (toState (ClaimState cl)) (Epoch cl) rev false.

(** ** Options *)

Record resolver_config := mkResolverConfig {
  claimsPrefix : string;
  batchWindow : Z;
  batchMaxItems : Z;
  refreshCooldown : Z;
  reconcileInterval : Z;
  driftRestartCooldown : Z;
  gateMaxSkips : Z;
  hasStreamPos : bool;
}.

Definition defaultReconcileInterval : Z := 30 * second.

(** [strings.HasSuffix] *)
Definition HasSuffix (s suffix : string) : bool :=
  bool_decide (String.length suffix <= String.length s) &&
  bool_decide (str_drop (String.length s - String.length suffix) s = suffix).

(** The options a caller can give: the reconcile interval, the drift cooldown,
    and whether there is a handle to probe the stream with. *)
Definition NewClaimBasedResolver (prefix : string) (interval cooldown : option Z) (probe : bool) : resolver_config :=
  let p := if bool_decide (prefix <> "") && negb (HasSuffix prefix "/") then prefix +:+ "/" else prefix in
  let interval := default defaultReconcileInterval interval in
  let cooldown :=
    match cooldown with
    | Some d => d
    | None => if decide (0 < interval)%Z then Z.max (wrap64 (2 * interval)) (60 * second) else 0%Z
    end in
  mkResolverConfig p 5000000 1024 second interval cooldown ScanGateMaxSkippedPasses probe.

Definition SetBatching (window maxItems : Z) (c : resolver_config) : resolver_config :=
  mkResolverConfig (claimsPrefix c) (if decide (0 < window)%Z then window else batchWindow c)
    (if decide (0 < maxItems)%Z then maxItems else batchMaxItems c) (refreshCooldown c) (reconcileInterval c)
    (driftRestartCooldown c) (gateMaxSkips c) (hasStreamPos c).

(** ** State *)

(** [bucket] is the stream behind the bucket. [started] is set when [Start] has
    returned, which is when the gates can reach the resolver. The last three
    fields record what the gates did: the messages handled and the claim that
    let each of them in, the messages refused and why, and the messages no
    partition could be read from. *)
Record resolver := mkResolver {
  bucket : list msg;
  cache : gmap string claimEntry;
  lastRefresh : gmap string Z;
  gateLatchValid : bool;
  gateLatch : KVStreamPos;
  gateSkipsSinceFull : Z;
  gateConfigGuard : ScanGateConfigGuard;
  driftRestartPending : bool;
  lastDriftRestartNano : Z;
  started : bool;
  admitted : list (string * claimEntry);
  refused : list (string * string);
  passed : list string;
}.

Definition set_bucket (v : list msg) (r : resolver) : resolver :=
  mkResolver v (cache r) (lastRefresh r) (gateLatchValid r) (gateLatch r) (gateSkipsSinceFull r) (gateConfigGuard r) (driftRestartPending r) (lastDriftRestartNano r) (started r) (admitted r) (refused r) (passed r).
Definition set_cache (v : gmap string claimEntry) (r : resolver) : resolver :=
  mkResolver (bucket r) v (lastRefresh r) (gateLatchValid r) (gateLatch r) (gateSkipsSinceFull r) (gateConfigGuard r) (driftRestartPending r) (lastDriftRestartNano r) (started r) (admitted r) (refused r) (passed r).
Definition set_lastRefresh (v : gmap string Z) (r : resolver) : resolver :=
  mkResolver (bucket r) (cache r) v (gateLatchValid r) (gateLatch r) (gateSkipsSinceFull r) (gateConfigGuard r) (driftRestartPending r) (lastDriftRestartNano r) (started r) (admitted r) (refused r) (passed r).
Definition set_gateLatchValid (v : bool) (r : resolver) : resolver :=
  mkResolver (bucket r) (cache r) (lastRefresh r) v (gateLatch r) (gateSkipsSinceFull r) (gateConfigGuard r) (driftRestartPending r) (lastDriftRestartNano r) (started r) (admitted r) (refused r) (passed r).
Definition set_gateLatch (v : KVStreamPos) (r : resolver) : resolver :=
  mkResolver (bucket r) (cache r) (lastRefresh r) (gateLatchValid r) v (gateSkipsSinceFull r) (gateConfigGuard r) (driftRestartPending r) (lastDriftRestartNano r) (started r) (admitted r) (refused r) (passed r).
Definition set_gateSkipsSinceFull (v : Z) (r : resolver) : resolver :=
  mkResolver (bucket r) (cache r) (lastRefresh r) (gateLatchValid r) (gateLatch r) v (gateConfigGuard r) (driftRestartPending r) (lastDriftRestartNano r) (started r) (admitted r) (refused r) (passed r).
Definition set_gateConfigGuard (v : ScanGateConfigGuard) (r : resolver) : resolver :=
  mkResolver (bucket r) (cache r) (lastRefresh r) (gateLatchValid r) (gateLatch r) (gateSkipsSinceFull r) v (driftRestartPending r) (lastDriftRestartNano r) (started r) (admitted r) (refused r) (passed r).
Definition set_driftRestartPending (v : bool) (r : resolver) : resolver :=
  mkResolver (bucket r) (cache r) (lastRefresh r) (gateLatchValid r) (gateLatch r) (gateSkipsSinceFull r) (gateConfigGuard r) v (lastDriftRestartNano r) (started r) (admitted r) (refused r) (passed r).
Definition set_lastDriftRestartNano (v : Z) (r : resolver) : resolver :=
  mkResolver (bucket r) (cache r) (lastRefresh r) (gateLatchValid r) (gateLatch r) (gateSkipsSinceFull r) (gateConfigGuard r) (driftRestartPending r) v (started r) (admitted r) (refused r) (passed r).
Definition set_started (v : bool) (r : resolver) : resolver :=
  mkResolver (bucket r) (cache r) (lastRefresh r) (gateLatchValid r) (gateLatch r) (gateSkipsSinceFull r) (gateConfigGuard r) (driftRestartPending r) (lastDriftRestartNano r) v (admitted r) (refused r) (passed r).
Definition set_admitted (v : list (string * claimEntry)) (r : resolver) : resolver :=
  mkResolver (bucket r) (cache r) (lastRefresh r) (gateLatchValid r) (gateLatch r) (gateSkipsSinceFull r) (gateConfigGuard r) (driftRestartPending r) (lastDriftRestartNano r) (started r) v (refused r) (passed r).
Definition set_refused (v : list (string * string)) (r : resolver) : resolver :=
  mkResolver (bucket r) (cache r) (lastRefresh r) (gateLatchValid r) (gateLatch r) (gateSkipsSinceFull r) (gateConfigGuard r) (driftRestartPending r) (lastDriftRestartNano r) (started r) (admitted r) v (passed r).
Definition set_passed (v : list string) (r : resolver) : resolver :=
  mkResolver (bucket r) (cache r) (lastRefresh r) (gateLatchValid r) (gateLatch r) (gateSkipsSinceFull r) (gateConfigGuard r) (driftRestartPending r) (lastDriftRestartNano r) (started r) (admitted r) (refused r) v.

(** The resolver before [Start], on a bucket that may have been written to. *)
Definition new_resolver (l : list msg) : resolver :=
  mkResolver l ∅ ∅ false (mkPos 0 0 0 0 false 0) 0 (mkGuard false) false 0 false [] [] [].

(** ** The gate *)

Record ProcessingGateConfig := mkGateConfig {
  Enabled : bool;
  AllowedStates : list HandoffState;
  WarmupDuration : Z;
  WarmupAllowedStates : list HandoffState;
}.

(** The delay and its jitter are left out: a delay decides when the message
    comes back, not what happens to it. *)
Definition applyDefaults (c : ProcessingGateConfig) : ProcessingGateConfig :=
  mkGateConfig (Enabled c)
    (if decide (AllowedStates c = []) then [HandoffStateStable] else AllowedStates c)
    (WarmupDuration c)
    (if decide (0 < WarmupDuration c /\ WarmupAllowedStates c = [])%Z then [HandoffStateStable]
     else WarmupAllowedStates c).

Record processingGate := mkGate {
  workerID : string;
  gate_cfg : ProcessingGateConfig;
  subjPrefix : string;
  subjSuffix : string;
  warmupUntil : option Z;
}.

Definition partitionPlaceholder : string := "{{.PartitionID}}".

(** [strings.Cut] at the placeholder. *)
Definition ParseSubjectTemplateParts (tmpl : string) : option (string * string) :=
  n ← Index tmpl partitionPlaceholder;
  Some (str_take n tmpl, str_drop (n + String.length partitionPlaceholder) tmpl).

Definition newProcessingGate (workerID subjectTemplate : string) (cfg : ProcessingGateConfig) (now : Z) :
    option processingGate :=
  parts ← ParseSubjectTemplateParts subjectTemplate;
  let cfg := applyDefaults cfg in
  Some (mkGate workerID cfg parts.1 parts.2
    (if decide (0 < WarmupDuration cfg)%Z then Some (now + WarmupDuration cfg)%Z else None)).

Definition extractPartitionID (g : processingGate) (subject : string) : option string :=
  if negb (String.prefix (subjPrefix g) subject) || negb (HasSuffix subject (subjSuffix g)) then None
  else
    let start := String.length (subjPrefix g) in
    let end_ := (String.length subject - String.length (subjSuffix g))%nat in
    if decide (end_ < start)%nat then None else Some (str_take (end_ - start) (str_drop start subject)).

(** The states that let a message in at time [now]. *)
Definition allowed_states (g : processingGate) (now : Z) : list HandoffState :=
  match warmupUntil g with
  | Some t =>
      if decide (now < t /\ WarmupAllowedStates (gate_cfg g) <> [])%Z then WarmupAllowedStates (gate_cfg g)
      else AllowedStates (gate_cfg g)
  | None => AllowedStates (gate_cfg g)
  end.

(** ** Goroutines *)

(** Who asked for a refresh: nobody waits for it, or a gate call does. *)
Inductive caller := Direct | ByGate (allowed : list HandoffState).

Inductive thread :=
(* Start: warm, startWatcher *)
| WmKeys
| WmGet (keys : list string) (next : gmap string claimEntry)
| WmWatch
(* supervise: processWatcher, then the restart *)
| Wt (pendingByPID : gmap string pending)
| WtClosed
| WtRestart
(* reconcileLoop: reconcileOnce with its probes, reconcileScan. [pos] is the
   position to latch, if the probe before the scan was good *)
| RcIdle
| RcProbe
| RcGap
| RcConfirm
| RcSnap (pos : option KVStreamPos)
| RcKeys (pos : option KVStreamPos) (snap : gmap string claimEntry)
| RcGet (pos : option KVStreamPos) (snap : gmap string claimEntry) (keys : list string)
    (pendingByPID : gmap string pending) (seen unreadable : gset string)
| RcDrift (pos : option KVStreamPos) (clean : bool)
| RcLatch (pos : option KVStreamPos) (clean : bool)
(* ForceRefreshPartition *)
| FrEnter (pid : string) (k : caller)
| FrGet (pid : string) (k : caller)
| FrStore (pid : string) (cl : Claim) (rev : Z) (k : caller)
(* a call of the handler that Wrap returns *)
| GtEnter (subj : string)
| GtOwner (pid : string) (allowed : list HandoffState)
| GtAgain (pid : string) (allowed : list HandoffState)
| Finished.

(** What the environment answers: the clock, the bucket, the watcher and its
    timer, a stop of the resolver, and whether a watcher could be set up. *)
Inductive choice :=
| Go
| At (t : Z)
| Keys (x : res go_error (list string))
| Got (x : res go_error entry)
| Pos (x : res go_error KVStreamPos)
| Update (m : option msg)
| Timer | Close | Stop | Tick
| Established (ok : bool).

Section resolver.
Context `{ClaimWire} (cfg : resolver_config) (gate : processingGate).

Definition claim_key (pid : string) : string := claimsPrefix cfg +:+ pid.

Definition GetOwner (r : resolver) (partitionID : string) : option claimEntry :=
  e ← cache r !! partitionID; if deleted e then None else Some e.

(** One element of the loop of [applyPendingBatch]. *)
Definition apply_pending (existing : option claimEntry) (p : pending) : option claimEntry :=
  if from_option (λ e, bool_decide (p_revision p <= revision e)%Z) false existing then existing
  else
    match p_op p with
    | OpDelete => Some (tombstone (p_revision p))
    | OpUpsert data =>
        match unmarshal_claim data with
        | None => existing
        | Some cl => Some (entry_of_claim cl (p_revision p))
        end
    end.

(** The map is ranged over in any order: every partition is treated once. *)
Definition applyPendingBatch (pendingByPID : gmap string pending) (r : resolver) : resolver :=
  set_cache (merge (λ e p, match p with Some p => apply_pending e p | None => e end) (cache r) pendingByPID) r.

Definition handleWatcherUpdate (upd : msg) (pendingByPID : gmap string pending) : gmap string pending :=
  match CutPrefix (m_key upd) (claimsPrefix cfg) with
  | None => pendingByPID
  | Some pid =>
      <[pid := match m_body upd with
               | Put data => mkPending (OpUpsert data) (m_rev upd)
               | _ => mkPending OpDelete (m_rev upd)
               end]> pendingByPID
  end.

(** [kv.Keys] on an empty bucket is an error. *)
Definition listed (x : res go_error (list string)) : option (list string) :=
  match x with
  | Ok keys => Some keys
  | Err e => if contains (message e) "no keys found" then Some [] else None
  end.

(** The synthetic tombstones at the end of [reconcileScan]. *)
Definition missing_claims (snap : gmap string claimEntry) (seen unreadable : gset string) : gmap string pending :=
  omap (λ e, if deleted e then None else Some (mkPending OpDelete (revision e + 1)))
    (filter (λ x, x.1 ∉ seen /\ x.1 ∉ unreadable) snap).

Definition gateProbe (x : res go_error KVStreamPos) (r : resolver) : resolver * option KVStreamPos :=
  match x with
  | Err _ => (set_gateLatchValid false r, None)
  | Ok pos =>
      let '(g, safe) := ConfigGuard_Check (gateConfigGuard r) pos in
      let r1 := set_gateConfigGuard g r in
      if (safe : bool) then (r1, Some pos) else (set_gateLatchValid false r1, None)
  end.

Definition at_latch (r : resolver) (pos : option KVStreamPos) : bool :=
  match pos with Some pos => Same pos (gateLatch r) | None => false end.

Definition requestWatcherRestartFromReconcile (now : Z) (r : resolver) : resolver :=
  if decide (driftRestartCooldown cfg <= 0)%Z then r
  else if decide (lastDriftRestartNano r <> 0 /\ time_sub now (lastDriftRestartNano r) < driftRestartCooldown cfg)%Z then r
  else set_driftRestartPending true (set_lastDriftRestartNano now r).

Definition outcome : Type := resolver * thread * list thread.
Definition go (r : resolver) (t : thread) : option outcome := Some (r, t, []).

(** [Start]. *)
Definition exec_start (ch : choice) (r : resolver) (t : thread) : option outcome :=
  match t, ch with
  | WmKeys, Keys x => match listed x with Some keys => go r (WmGet keys ∅) | None => go r Finished end
  | WmGet (k :: keys) next, _ =>
      match CutPrefix k (claimsPrefix cfg), ch with
      | None, Go => go r (WmGet keys next)
      | Some pid, Got (Err _) => go r (WmGet keys next)
      | Some pid, Got (Ok e) =>
          match unmarshal_claim (e_value e) with
          | None => go r (WmGet keys next)
          | Some cl => go r (WmGet keys (<[pid := entry_of_claim cl (e_revision e)]> next))
          end
      | _, _ => None
      end
  | WmGet [] next, Go => go (set_cache next r) WmWatch
  | WmWatch, Established ok =>
      if ok then
        Some (set_started true r, Finished, Wt ∅ :: if decide (0 < reconcileInterval cfg)%Z then [RcIdle] else [])
      else go r Finished
  | _, _ => None
  end.

(** [processWatcher] and the restart in [supervise]; the attempts of the retry
    envelope are one action. *)
Definition exec_watch (ch : choice) (r : resolver) (t : thread) : option outcome :=
  match t, ch with
  | Wt pend, Update None => go r (Wt pend)
  | Wt pend, Update (Some upd) =>
      let pend' := handleWatcherUpdate upd pend in
      let maxItems := if decide (batchMaxItems cfg <= 0)%Z then 1024%Z else batchMaxItems cfg in
      if decide (maxItems <= Z.of_nat (size pend'))%Z then go (applyPendingBatch pend' r) (Wt ∅) else go r (Wt pend')
  | Wt pend, Timer => go (applyPendingBatch pend r) (Wt ∅)
  | Wt pend, Close => go (applyPendingBatch pend r) WtClosed
  | Wt pend, Stop => go r Finished
  | WtClosed, Stop => go r Finished
  | WtClosed, Go => go r WtRestart
  | WtRestart, Established ok => if ok then go (set_driftRestartPending false r) (Wt ∅) else go r Finished
  | _, _ => None
  end.

(** [reconcileOnce]: the two probes of the gate. *)
Definition exec_reconcile (ch : choice) (r : resolver) (t : thread) : option outcome :=
  match t, ch with
  | RcIdle, Tick => go r (if hasStreamPos cfg then RcProbe else RcSnap None)
  | RcIdle, Stop => go r Finished
  | RcProbe, Pos x =>
      let '(r', pos) := gateProbe x r in
      if gateLatchValid r' && at_latch r' pos && bool_decide (gateSkipsSinceFull r' < gateMaxSkips cfg)%Z
      then go r' RcGap else go r' (RcSnap pos)
  | RcGap, Go => go r RcConfirm
  | RcGap, Stop => go r RcIdle
  | RcConfirm, Pos x =>
      let '(r', pos) := gateProbe x r in
      if at_latch r' pos then go (set_gateSkipsSinceFull (gateSkipsSinceFull r' + 1) r') RcIdle
      else go r' (RcSnap pos)
  | RcDrift pos clean, At now => go (requestWatcherRestartFromReconcile now r) (RcLatch pos clean)
  | RcLatch pos clean, Go =>
      let r1 := match pos with
                | Some p => if clean then set_gateLatchValid true (set_gateLatch p r) else set_gateLatchValid false r
                | None => set_gateLatchValid false r
                end in
      go (if hasStreamPos cfg then set_gateSkipsSinceFull 0 r1 else r) RcIdle
  | _, _ => None
  end.

(** [reconcileScan]. *)
Definition exec_scan (ch : choice) (r : resolver) (t : thread) : option outcome :=
  match t, ch with
  | RcSnap pos, Go => go r (RcKeys pos (cache r))
  | RcKeys pos snap, Keys x =>
      match listed x with
      | None => go r (RcLatch pos false)
      | Some keys => go r (RcGet pos snap keys ∅ ∅ ∅)
      end
  | RcGet pos snap (k :: keys) pend seen unreadable, _ =>
      match CutPrefix k (claimsPrefix cfg), ch with
      | None, Go => go r (RcGet pos snap keys pend seen unreadable)
      | Some pid, Got (Err _) => go r (RcGet pos snap keys pend seen ({[pid]} ∪ unreadable))
      | Some pid, Got (Ok e) =>
          let pend' :=
            if from_option (λ x, bool_decide (e_revision e <= revision x)%Z) false (snap !! pid) then pend
            else <[pid := mkPending (OpUpsert (e_value e)) (e_revision e)]> pend in
          go r (RcGet pos snap keys pend' ({[pid]} ∪ seen) unreadable)
      | _, _ => None
      end
  | RcGet pos snap [] pend seen unreadable, Go =>
      let pend' := missing_claims snap seen unreadable ∪ pend in
      let clean := bool_decide (unreadable = ∅) in
      if decide (pend' = ∅) then go r (RcLatch pos clean) else go (applyPendingBatch pend' r) (RcDrift pos clean)
  | _, _ => None
  end.

Definition refreshed (pid : string) (k : caller) : thread :=
  match k with Direct => Finished | ByGate allowed => GtAgain pid allowed end.

(** [ForceRefreshPartition]. *)
Definition exec_refresh (ch : choice) (r : resolver) (t : thread) : option outcome :=
  match t, ch with
  | FrEnter pid k, At now =>
      if from_option (λ last, bool_decide (time_sub now last < refreshCooldown cfg)%Z) false (lastRefresh r !! pid)
      then go r (refreshed pid k)
      else go (set_lastRefresh (<[pid := now]> (lastRefresh r)) r) (FrGet pid k)
  | FrGet pid k, Got x =>
      match x with
      | Err _ => go r (refreshed pid k)
      | Ok e =>
          match unmarshal_claim (e_value e) with
          | None => go r (refreshed pid k)
          | Some cl => go r (FrStore pid cl (e_revision e) k)
          end
      end
  | FrStore pid cl rev k, Go =>
      if from_option (λ e, bool_decide (rev <= revision e)%Z) false (cache r !! pid) then go r (refreshed pid k)
      else go (set_cache (<[pid := entry_of_claim cl rev]> (cache r)) r) (refreshed pid k)
  | _, _ => None
  end.

Definition admit_message (pid : string) (e : claimEntry) (r : resolver) : resolver :=
  set_admitted (admitted r ++ [(pid, e)]) r.
Definition nakWithDelay (pid reason : string) (r : resolver) : resolver := set_refused (refused r ++ [(pid, reason)]) r.

(** The decision on a known owner. *)
Definition judge (pid : string) (allowed : list HandoffState) (e : claimEntry) (r : resolver) : resolver :=
  if decide (owner e = workerID gate) then
    if decide (state e ∈ allowed) then admit_message pid e r else nakWithDelay pid "owner_disallowed_state" r
  else nakWithDelay pid "non_owner" r.

(** [Wrap]. *)
Definition exec_gate (ch : choice) (r : resolver) (t : thread) : option outcome :=
  match t, ch with
  | GtEnter subj, At now =>
      if negb (Enabled (gate_cfg gate)) then go (set_passed (passed r ++ [subj]) r) Finished
      else
        match extractPartitionID gate subj with
        | None => go (set_passed (passed r ++ [subj]) r) Finished
        | Some pid => go r (GtOwner pid (allowed_states gate now))
        end
  | GtOwner pid allowed, Go =>
      match GetOwner r pid with
      | Some e => go (judge pid allowed e r) Finished
      | None => go r (FrEnter pid (ByGate allowed))
      end
  | GtAgain pid allowed, Go =>
      match GetOwner r pid with
      | Some e => go (judge pid allowed e r) Finished
      | None => go (nakWithDelay pid "unknown_ownership" r) Finished
      end
  | _, _ => None
  end.

Definition exec (ch : choice) (r : resolver) (t : thread) : option outcome :=
  match t with
  | WmKeys | WmGet _ _ | WmWatch => exec_start ch r t
  | Wt _ | WtClosed | WtRestart => exec_watch ch r t
  | RcIdle | RcProbe | RcGap | RcConfirm | RcDrift _ _ | RcLatch _ _ => exec_reconcile ch r t
  | RcSnap _ | RcKeys _ _ | RcGet _ _ _ _ _ _ => exec_scan ch r t
  | FrEnter _ _ | FrGet _ _ | FrStore _ _ _ _ => exec_refresh ch r t
  | GtEnter _ | GtOwner _ _ | GtAgain _ _ => exec_gate ch r t
  | Finished => None
  end.

(** ** Executions *)

(** The key whose entry a goroutine waits for. *)
Definition reads (t : thread) : option string :=
  match t with
  | WmGet (k :: _) _ | RcGet _ _ (k :: _) _ _ _ => Some k
  | FrGet pid _ => Some (claim_key pid)
  | _ => None
  end.

(** The documented behaviour of the bucket: a listing names the current keys, a
    read that succeeds returns the current entry, a watcher delivers messages of
    the stream (in no particular order, any number of times), and a probe reports
    the last sequence. Every call can also fail. *)
Definition truthful (r : resolver) (t : thread) (ch : choice) : Prop :=
  match ch with
  | Keys (Ok keys) => forall k, k ∈ keys <-> is_Some (live (bucket r) k)
  | Keys (Err e) => contains (message e) "no keys found" = true -> forall k, live (bucket r) k = None
  | Got (Ok e) => forall k, reads t = Some k -> exists m, live (bucket r) k = Some m /\ e = entry_of m
  | Pos (Ok pos) => LastSeq pos = last_seq (bucket r)
  | Update (Some m) => m ∈ bucket r
  | _ => True
  end.

(** A write of some other process: a value or a tombstone at a new revision. The
    bucket keeps entries forever. *)
Definition written (r : resolver) (m : msg) : Prop :=
  m_body m <> Expired /\ (0 < m_rev m)%Z /\ Forall (λ m', m_rev m' < m_rev m)%Z (bucket r).

Definition config : Type := resolver * list thread.

(** A message for the gate, or a direct call of [ForceRefreshPartition]. *)
Definition call (t : thread) : Prop :=
  match t with GtEnter _ | FrEnter _ Direct => True | _ => False end.

Inductive step : config -> config -> Prop :=
| step_thread r ts1 t ts2 ch r' t' new :
    truthful r t ch -> exec ch r t = Some (r', t', new) -> step (r, ts1 ++ t :: ts2) (r', ts1 ++ t' :: new ++ ts2)
| step_write r ts m : written r m -> step (r, ts) (set_bucket (bucket r ++ [m]) r, ts)
| step_call r ts t : started r = true -> call t -> step (r, ts) (r, t :: ts).

Definition stream_ok (l : list msg) : Prop :=
  StronglySorted (λ m m', m_rev m < m_rev m')%Z l /\ Forall (λ m, m_body m <> Expired /\ (0 < m_rev m)%Z) l.

Inductive reachable : config -> Prop :=
| reachable_start l : stream_ok l -> reachable (new_resolver l, [WmKeys])
| reachable_step c c' : reachable c -> step c c' -> reachable c'.

End resolver.

#[export] Instance body_eq_dec : EqDecision body.
Proof. solve_decision. Defined.

(** ** Executable schedules

    The bucket answers every call correctly, or the call fails. *)
Section schedules.
Context `{ClaimWire} (cfg : resolver_config) (gate : processingGate).

Definition current_keys (l : list msg) : list string :=
  filter (λ k, is_Some (live l k)) (remove_dups (m_key <$> l)).

(** The true answer to the question a goroutine has asked. *)
Definition answer (r : resolver) (t : thread) : choice :=
  match t with
  | WmKeys | RcKeys _ _ => Keys (Ok (current_keys (bucket r)))
  | RcProbe | RcConfirm => Pos (Ok (mkPos 0 (last_seq (bucket r)) (Z.of_nat (length (bucket r))) 0 false 0))
  | _ =>
      match reads cfg t ≫= live (bucket r) with
      | Some m => Got (Ok (entry_of m))
      | None => Got (Err (mkError [JsErrKeyNotFound] "key not found"))
      end
  end.

(** Answers that are not the bucket's. *)
Definition local (ch : choice) : bool :=
  match ch with Keys _ | Got (Ok _) | Pos (Ok _) | Update (Some _) => false | _ => true end.

Inductive action := Act (i : nat) (ch : choice) | Ask (i : nat) | Deliver (i n : nat) | Write (m : msg) | Call (t : thread).

Definition act (i : nat) (ch : resolver -> thread -> option choice) (c : config) : option config :=
  t ← c.2 !! i;
  ch' ← ch c.1 t;
  '(r', t', new) ← exec cfg gate ch' c.1 t;
  Some (r', take i c.2 ++ t' :: new ++ drop (S i) c.2).

Definition perform (a : action) (c : config) : option config :=
  match a with
  | Act i ch => if local ch then act i (λ _ _, Some ch) c else None
  | Ask i => act i (λ r t, Some (answer r t)) c
  | Deliver i n => act i (λ r _, m ← bucket r !! n; Some (Update (Some m))) c
  | Write m =>
      if decide (m_body m <> Expired /\ (0 < m_rev m)%Z /\ Forall (λ m', m_rev m' < m_rev m)%Z (bucket c.1))
      then Some (set_bucket (bucket c.1 ++ [m]) c.1, c.2) else None
  | Call t =>
      match t with
      | GtEnter _ | FrEnter _ Direct => if started c.1 then Some (c.1, t :: c.2) else None
      | _ => None
      end
  end.

Fixpoint run (acts : list action) (c : config) : option config :=
  match acts with [] => Some c | a :: acts => c' ← perform a c; run acts c' end.

Lemma answer_truthful r t : truthful cfg r t (answer r t).
Proof.
  unfold answer. destruct t; cbn; try done; try (case_match; [|done]); cbn; try done.
  all: try (intros key; unfold current_keys; rewrite list_elem_of_filter, elem_of_remove_dups, list_elem_of_fmap;
    split; [tauto|intros [m L]; split; [by eexists|]; destruct (live_elem _ _ _ L); by exists m]).
  all: intros key Hk; try injection Hk as <-; try (destruct keys; [done|]; injection Hk as <-);
    match goal with E : _ = Some ?m |- _ => by exists m end.
Qed.

Lemma local_truthful r t ch : local ch = true -> truthful cfg r t ch.
Proof. destruct ch as [| |x|[]|[]|[]| | | | |]; cbn; try done. Qed.

Lemma resolver_act_step i ch c c' :
  (forall t ch', ch c.1 t = Some ch' -> truthful cfg c.1 t ch') -> act i ch c = Some c' -> step cfg gate c c'.
Proof.
  intros T. destruct c as [r ts]. unfold act. cbn. intros (t & Ht & (ch' & Ec & ([[r' t'] new] & E & [= <-])%bind_Some)%bind_Some)%bind_Some.
  rewrite <- (take_drop_middle _ _ _ Ht) at 1. eapply step_thread; [by apply T|exact E].
Qed.

Lemma resolver_perform_step a c c' : perform a c = Some c' -> step cfg gate c c'.
Proof.
  destruct a as [i ch|i|i n|m|t]; cbn.
  - destruct (local ch) eqn:L; [|done]. apply resolver_act_step. intros t ch' [= <-]. by apply local_truthful.
  - apply resolver_act_step. intros t ch' [= <-]. apply answer_truthful.
  - apply resolver_act_step. intros t ch' (m & Hm & [= <-])%bind_Some. by eapply list_elem_of_lookup_2.
  - destruct c as [r ts]. case_decide; [|done]. intros [= <-]. by apply step_write.
  - destruct c as [r ts]. intros E. destruct t as [| | | | | | | | | | | | | | |? []| | | | | |]; try done; cbn in E;
      destruct (started r) eqn:S; try done; injection E as <-; by apply step_call.
Qed.

Lemma run_reachable acts c c' : reachable cfg gate c -> run acts c = Some c' -> reachable cfg gate c'.
Proof.
  revert c. induction acts as [|a acts IH]; cbn; intros c R; [by intros [= <-]|].
  intros (c1 & E & Er)%bind_Some. eapply IH; [|exact Er]. eapply reachable_step; [exact R|by eapply resolver_perform_step].
Qed.
End schedules.
