(* ===== verification/ResolverSafety.v ===== *)
(** * What the claim resolver and the gate promise

    In every interleaving the cache holds only claims that were in the bucket,
    an entry is replaced only by one of a later revision, and the gate lets a
    message in only on such a claim of its own worker; so, with the fencing of
    the handoff, workers never process a partition under the same epoch. An
    undisturbed reconciliation makes the cache equal to the bucket. *)
From S2P Require Import Prelude Partition Float64 Nats KV Lease Wire Handoff HandoffSafety.
From S2P Require Import Resolver.

(** ** Streams *)

Lemma stream_ok_snoc l m :
  stream_ok l -> m_body m <> Expired -> (0 < m_rev m)%Z -> Forall (λ m', m_rev m' < m_rev m)%Z l ->
  stream_ok (l ++ [m]).
Proof.
  intros [S F] B P L. split; [by apply StronglySorted_snoc|]. apply Forall_app. split; [done|]. by apply Forall_singleton.
Qed.

Lemma stream_rev_inj l m m' : stream_ok l -> m ∈ l -> m' ∈ l -> m_rev m = m_rev m' -> m = m'.
Proof.
  intros [S _]. revert S. induction l as [|x l IH]; intros S Hm Hm' E; [by apply elem_of_nil in Hm|].
  apply StronglySorted_cons in S as [Fx S]. rewrite Forall_forall in Fx.
  apply elem_of_cons in Hm as [->|Hm], Hm' as [->|Hm']; [done| | |by apply IH].
  - specialize (Fx _ Hm'). lia.
  - specialize (Fx _ Hm). lia.
Qed.

(** The last message of a key has its highest revision. *)
Lemma last_msg_highest l k m m' : stream_ok l -> last_msg l k = Some m -> m' ∈ l -> m_key m' = k -> (m_rev m' <= m_rev m)%Z.
Proof.
  intros [S _] L Hm' K. unfold last_msg in L.
  assert (m' ∈ filter (λ m, m_key m = k) l) as F by (by apply list_elem_of_filter).
  apply (StronglySorted_filter (λ m, m_key m = k)) in S. apply last_Some in L as [l' E]. rewrite E in *.
  apply elem_of_app in F as [F|F%list_elem_of_singleton]; [|by subst].
  apply Z.lt_le_incl, (StronglySorted_app_1_elem_of _ _ _ _ _ S F). by apply list_elem_of_singleton.
Qed.

Section safety.
Context `{ClaimWire} (cfg : resolver_config) (gate : processingGate).
Implicit Types (r : resolver) (t : thread) (l : list msg).

Notation claim_key := (claim_key cfg).

(** ** The invariant *)

(** Revision [rev] of the bucket is a claim of partition [pid]. *)
Definition claimed l (pid : string) (cl : Claim) (rev : Z) : Prop :=
  exists m, m ∈ l /\ m_key m = claim_key pid /\ decodes m cl /\ m_rev m = rev.

(** The claim was deleted at [rev] or later. *)
Definition buried l (pid : string) (rev : Z) : Prop :=
  exists m, m ∈ l /\ m_key m = claim_key pid /\ m_body m = Del /\ (rev <= m_rev m)%Z.

Definition entry_ok l (pid : string) (e : claimEntry) : Prop :=
  if deleted e then buried l pid (revision e)
  else exists cl, claimed l pid cl (revision e) /\ e = entry_of_claim cl (revision e).

Definition pending_ok l (pid : string) (p : pending) : Prop :=
  match p_op p with
  | OpDelete => buried l pid (p_revision p)
  | OpUpsert data => exists m, m ∈ l /\ m_key m = claim_key pid /\ m_body m = Put data /\ m_rev m = p_revision p
  end.

Definition caller_ok (k : caller) : Prop :=
  match k with Direct => True | ByGate allowed => exists now, allowed = allowed_states gate now end.

Definition thread_ok l t : Prop :=
  match t with
  | WmGet _ next => map_Forall (entry_ok l) next
  | Wt pend => map_Forall (pending_ok l) pend
  | RcKeys _ snap => map_Forall (entry_ok l) snap
  | RcGet _ snap keys pend seen unreadable =>
      map_Forall (entry_ok l) snap /\ map_Forall (pending_ok l) pend /\
      forall pid e, snap !! pid = Some e -> deleted e = false -> claim_key pid ∉ keys -> pid ∉ seen ->
        pid ∉ unreadable -> buried l pid (revision e + 1)
  | FrEnter _ k | FrGet _ k => caller_ok k
  | FrStore pid cl rev k => claimed l pid cl rev /\ caller_ok k
  | GtOwner _ allowed | GtAgain _ allowed => exists now, allowed = allowed_states gate now
  | _ => True
  end.

(** What is recorded of an admitted message: a claim of the gate's worker, in a
    state that was allowed at some time. *)
Definition admitted_ok l (x : string * claimEntry) : Prop :=
  deleted x.2 = false /\ entry_ok l x.1 x.2 /\ owner x.2 = workerID gate /\
  exists now, state x.2 ∈ allowed_states gate now.

Definition warming t : bool := match t with WmKeys | WmGet _ _ | WmWatch => true | _ => false end.

Record Inv r (ts : list thread) : Prop := {
  inv_stream : stream_ok (bucket r);
  inv_cache : map_Forall (entry_ok (bucket r)) (cache r);
  inv_threads : Forall (thread_ok (bucket r)) ts;
  inv_admitted : Forall (admitted_ok (bucket r)) (admitted r);
  inv_started : if started r then Forall (λ t, warming t = false) ts else exists t, ts = [t];
}.

(** ** Growing streams *)

Lemma claimed_grows l l' pid cl rev : l ⊆ l' -> claimed l pid cl rev -> claimed l' pid cl rev.
Proof. intros S (m & ? & ?). exists m. auto. Qed.

Lemma buried_grows l l' pid rev : l ⊆ l' -> buried l pid rev -> buried l' pid rev.
Proof. intros S (m & ? & ?). exists m. auto. Qed.

Lemma entry_ok_grows l l' pid e : l ⊆ l' -> entry_ok l pid e -> entry_ok l' pid e.
Proof.
  intros S. unfold entry_ok. destruct (deleted e); [by apply buried_grows|].
  intros (cl & ? & ?). exists cl. by eauto using claimed_grows.
Qed.

Lemma pending_ok_grows l l' pid p : l ⊆ l' -> pending_ok l pid p -> pending_ok l' pid p.
Proof. intros S. unfold pending_ok. destruct (p_op p); [by apply buried_grows|]. intros (m & ? & ?). exists m. auto. Qed.

Lemma entries_grow l l' (m : gmap string claimEntry) : l ⊆ l' -> map_Forall (entry_ok l) m -> map_Forall (entry_ok l') m.
Proof. intros S M pid e E. eapply entry_ok_grows; [done|by apply M]. Qed.

Lemma pendings_grow l l' (m : gmap string pending) : l ⊆ l' -> map_Forall (pending_ok l) m -> map_Forall (pending_ok l') m.
Proof. intros S M pid e E. eapply pending_ok_grows; [done|by apply M]. Qed.

Lemma thread_ok_grows l l' t : l ⊆ l' -> thread_ok l t -> thread_ok l' t.
Proof.
  intros S. destruct t; cbn; try done; try (by apply entries_grow); try (by apply pendings_grow).
  - intros (C & P & M). split_and!; [by eapply entries_grow|by eapply pendings_grow|]. eauto using buried_grows.
  - intros [? ?]. split; [by eapply claimed_grows|done].
Qed.

Lemma admitted_ok_grows l l' x : l ⊆ l' -> admitted_ok l x -> admitted_ok l' x.
Proof. intros S (? & ? & ?). split_and!; [done|by eapply entry_ok_grows|tauto..]. Qed.

(** ** The cache *)

Lemma lookup_apply pend r pid :
  cache (applyPendingBatch pend r) !! pid =
  match pend !! pid with Some p => apply_pending (cache r !! pid) p | None => cache r !! pid end.
Proof. cbn. rewrite lookup_merge. by destruct (cache r !! pid), (pend !! pid). Qed.

Lemma apply_pending_ok l pid e p e' :
  from_option (entry_ok l pid) True e -> pending_ok l pid p -> apply_pending e p = Some e' -> entry_ok l pid e'.
Proof.
  intros E P. unfold apply_pending, pending_ok in *.
  match goal with |- context [if ?b then _ else _] => destruct b end; [by intros ->|].
  destruct (p_op p) as [|data]; [by intros [= <-]|]. destruct (unmarshal_claim data) as [cl|] eqn:U; [|by intros ->].
  intros [= <-]. exists cl. split; [|done]. destruct P as (m & ? & ? & ? & ?). exists m. split_and!; try done. by exists data.
Qed.

Lemma apply_ok l pend r :
  map_Forall (entry_ok l) (cache r) -> map_Forall (pending_ok l) pend ->
  map_Forall (entry_ok l) (cache (applyPendingBatch pend r)).
Proof.
  intros C P pid e'. rewrite lookup_apply. destruct (pend !! pid) as [p|] eqn:Ep; [|apply C].
  apply apply_pending_ok; [|by apply P]. destruct (cache r !! pid) eqn:Ec; [by apply C|done].
Qed.

(** An entry is kept, or replaced by one of a later revision. *)
Definition newer (e e' : claimEntry) : Prop := e' = e \/ (revision e < revision e')%Z.

Definition forward r r' : Prop :=
  forall pid e, cache r !! pid = Some e -> exists e', cache r' !! pid = Some e' /\ newer e e'.

Lemma forward_same r r' : cache r' = cache r -> forward r r'.
Proof. intros E pid e. rewrite E. exists e. split; [done|by left]. Qed.

Lemma apply_forward pend r : forward r (applyPendingBatch pend r).
Proof.
  intros pid e E. rewrite lookup_apply, E. destruct (pend !! pid) as [p|]; [|exists e; split; [done|by left]].
  unfold apply_pending. cbn. case_bool_decide; [exists e; split; [done|by left]|].
  destruct (p_op p) as [|data]; [|destruct (unmarshal_claim data)]; eexists; (split; [done|]); try (by left);
    right; cbn; lia.
Qed.

(** ** Steps *)

Lemma buried_missing l pid e :
  stream_ok l -> entry_ok l pid e -> deleted e = false -> live l (claim_key pid) = None ->
  buried l pid (revision e + 1).
Proof.
  intros O E D L. unfold entry_ok in E. rewrite D in E. destruct E as (cl & (m & Hm & K & (s & B & _) & R) & _).
  destruct (last_msg_exists _ _ _ Hm K) as [d Ld]. destruct (last_msg_elem _ _ _ Ld) as [Hd Kd].
  unfold live in L. rewrite Ld in L. cbn in L. unfold is_put in L. destruct (m_body d) eqn:Bd; [done| |].
  - exists d. split_and!; try done. pose proof (last_msg_highest _ _ _ _ O Ld Hm K).
    assert (m_rev m <> m_rev d); [|lia]. intros Eq. rewrite (stream_rev_inj _ _ _ O Hm Hd Eq) in B. congruence.
  - destruct O as [_ F]. rewrite Forall_forall in F. by destruct (F _ Hd).
Qed.

Lemma read_claim l pid m cl :
  live l (claim_key pid) = Some m -> unmarshal_claim (e_value (entry_of m)) = Some cl ->
  claimed l pid cl (e_revision (entry_of m)).
Proof.
  intros L U. destruct (live_elem _ _ _ L) as [? ?]. destruct (live_put _ _ _ L) as [s B].
  exists m. split_and!; try done. exists s. unfold entry_of in U. rewrite B in U. done.
Qed.

Lemma handle_ok l m pend : m ∈ l -> m_body m <> Expired -> map_Forall (pending_ok l) pend ->
  map_Forall (pending_ok l) (handleWatcherUpdate cfg m pend).
Proof.
  intros Hm B P. unfold handleWatcherUpdate. destruct (CutPrefix _ _) as [pid|] eqn:C; [|done].
  apply CutPrefix_app in C. apply map_Forall_insert_2; [|done]. unfold pending_ok.
  destruct (m_body m) eqn:Bm; cbn; [..|done]; exists m; split_and!; try done.
Qed.

Lemma missing_ok l snap seen unreadable :
  (forall pid e, snap !! pid = Some e -> deleted e = false -> pid ∉ seen -> pid ∉ unreadable ->
    buried l pid (revision e + 1)) ->
  map_Forall (pending_ok l) (missing_claims snap seen unreadable).
Proof.
  intros M pid p. unfold missing_claims. rewrite lookup_omap. intros (e & E & D)%bind_Some.
  apply map_lookup_filter_Some in E as [E [? ?]]. destruct (deleted e) eqn:De; [done|]. injection D as <-.
  by apply M.
Qed.

Lemma judge_ok l pid allowed e r :
  admitted_ok l (pid, e) \/ owner e <> workerID gate \/ state e ∉ allowed ->
  Forall (admitted_ok l) (admitted r) -> Forall (admitted_ok l) (admitted (judge gate pid allowed e r)).
Proof.
  intros A F. unfold judge, admit_message, nakWithDelay. case_decide; [case_decide|]; cbn; [|done..].
  apply Forall_app. split; [done|]. apply Forall_singleton. tauto.
Qed.

Lemma judge_same pid allowed e r :
  let r' := judge gate pid allowed e r in
  bucket r' = bucket r /\ cache r' = cache r /\ started r' = started r.
Proof. unfold judge. by repeat case_decide. Qed.

Record good l r : Prop := {
  good_bucket : bucket r = l;
  good_cache : map_Forall (entry_ok l) (cache r);
  good_admitted : Forall (admitted_ok l) (admitted r);
}.

(** What a step of a running goroutine guarantees. *)
Definition fine l r (o : outcome) : Prop :=
  let '(r', t', new) := o in
  good l r' /\ thread_ok l t' /\ warming t' = false /\ new = [] /\ forward r r' /\ started r' = started r.

Lemma fine_quiet l r r' t' :
  good l r -> bucket r' = bucket r -> cache r' = cache r -> admitted r' = admitted r -> started r' = started r ->
  thread_ok l t' -> warming t' = false -> fine l r (r', t', []).
Proof.
  intros [B C A] Eb Ec Ea Es T W. split_and!; try done; [|by apply forward_same]. split; by rewrite ?Eb, ?Ec, ?Ea.
Qed.

Lemma fine_apply l r pend t' :
  good l r -> map_Forall (pending_ok l) pend -> thread_ok l t' -> warming t' = false ->
  fine l r (applyPendingBatch pend r, t', []).
Proof.
  intros [B C A] P T W. split_and!; try done; [|apply apply_forward]. split; [done|by apply apply_ok|done].
Qed.

Lemma exec_watch_fine l ch r t o :
  stream_ok l -> good l r -> thread_ok l t -> truthful cfg r t ch -> exec_watch cfg ch r t = Some o -> fine l r o.
Proof.
  intros O G T Tr E. destruct t; cbn in E; try done; destruct ch; try done; cbn in T, Tr.
  - destruct m as [m|]; [|injection E as <-; by apply fine_quiet].
    assert (map_Forall (pending_ok l) (handleWatcherUpdate cfg m pendingByPID)) as P.
    { rewrite (good_bucket _ _ G) in Tr. apply handle_ok; [done| |done].
      destruct O as [_ F]. rewrite Forall_forall in F. by apply F. }
    case_decide; injection E as <-; [by apply fine_apply|by apply fine_quiet].
  - injection E as <-. by apply fine_apply.
  - injection E as <-. by apply fine_apply.
  - injection E as <-. by apply fine_quiet.
  - injection E as <-. by apply fine_quiet.
  - injection E as <-. by apply fine_quiet.
  - destruct ok; injection E as <-; by apply fine_quiet.
Qed.

Lemma gateProbe_same x r r' pos :
  gateProbe x r = (r', pos) ->
  bucket r' = bucket r /\ cache r' = cache r /\ admitted r' = admitted r /\ started r' = started r.
Proof. unfold gateProbe. intros E. repeat case_match; simplify_eq; by split_and!. Qed.

Lemma exec_reconcile_fine l ch r t o :
  good l r -> exec_reconcile cfg ch r t = Some o -> fine l r o.
Proof.
  intros G E. destruct t; cbn in E; try done; destruct ch; try done.
  - injection E as <-. by apply fine_quiet.
  - injection E as <-. apply fine_quiet; try done; by destruct (hasStreamPos cfg).
  - destruct (gateProbe x r) as [r' pos] eqn:P. destruct (gateProbe_same _ _ _ _ P) as (? & ? & ? & ?).
    destruct (_ && _); injection E as <-; by apply fine_quiet.
  - injection E as <-. by apply fine_quiet.
  - injection E as <-. by apply fine_quiet.
  - destruct (gateProbe x r) as [r' pos] eqn:P. destruct (gateProbe_same _ _ _ _ P) as (? & ? & ? & ?).
    destruct (at_latch r' pos); injection E as <-; by apply fine_quiet.
  - injection E as <-. unfold requestWatcherRestartFromReconcile. repeat case_decide; by apply fine_quiet.
  - injection E as <-. destruct (hasStreamPos cfg); [|by apply fine_quiet]. destruct pos; [destruct clean|]; by apply fine_quiet.
Qed.

Lemma listed_missing r t x keys k :
  truthful cfg r t (Keys x) -> listed x = Some keys -> k ∉ keys -> live (bucket r) k = None.
Proof.
  destruct x as [ks|e]; cbn; intros Tr E K.
  - injection E as ->. destruct (live (bucket r) k) eqn:L; [|done]. destruct K. by apply Tr.
  - destruct (contains _ _); [by apply Tr|done].
Qed.

(** A key of the listing is read, or it is not a claim. *)
Lemma scanned_claim (snap : gmap string claimEntry) keys (seen unreadable : gset string) l k pid :
  (forall pid e, snap !! pid = Some e -> deleted e = false -> claim_key pid ∉ k :: keys -> pid ∉ seen ->
    pid ∉ unreadable -> buried l pid (revision e + 1)) ->
  CutPrefix k (claimsPrefix cfg) = Some pid ->
  forall seen' unreadable' : gset string, seen ⊆ seen' -> unreadable ⊆ unreadable' -> pid ∈ seen' ∪ unreadable' ->
  forall pid' e, snap !! pid' = Some e -> deleted e = false -> claim_key pid' ∉ keys -> pid' ∉ seen' ->
    pid' ∉ unreadable' -> buried l pid' (revision e + 1).
Proof.
  intros M C seen' unreadable' S U P pid' e E D K Ns Nu. apply M; [done..| |set_solver|set_solver].
  intros [Eq|]%elem_of_cons; [|done]. apply CutPrefix_app in C. unfold Resolver.claim_key in Eq. rewrite C in Eq.
  apply (inj _) in Eq. subst. set_solver.
Qed.

Lemma exec_scan_fine l ch r t o :
  stream_ok l -> good l r -> thread_ok l t -> truthful cfg r t ch -> exec_scan cfg ch r t = Some o -> fine l r o.
Proof.
  intros O G T Tr E. destruct t; cbn in E; try done.
  - destruct ch; try done. injection E as <-. apply fine_quiet; try done. apply G.
  - destruct ch; try done. destruct (listed x) as [keys|] eqn:L; injection E as <-; [|by apply fine_quiet].
    apply fine_quiet; try done. split_and!; [done|apply map_Forall_empty|]. intros pid e Ep D K _ _.
    apply buried_missing; [done|by apply T|done|]. rewrite <- (good_bucket _ _ G). by eapply listed_missing.
  - destruct T as (C & P & M). destruct keys as [|k keys].
    { destruct ch; try done. case_decide; injection E as <-; [by apply fine_quiet|]. apply fine_apply; try done.
      apply map_Forall_union_2; [|done]. apply missing_ok. intros pid e Ep D Ns Nu. apply M; [done..|set_solver|done|done]. }
    destruct (CutPrefix k _) as [pid|] eqn:Ck.
    + destruct ch; try done. destruct x as [en|?]; injection E as <-; apply fine_quiet; try done; (split_and!; [done| |]).
      * case_match; [done|]. apply map_Forall_insert_2; [|done]. destruct (Tr k eq_refl) as (m & L & ->).
        rewrite (good_bucket _ _ G) in L. destruct (live_elem _ _ _ L) as [? ?]. destruct (live_put _ _ _ L) as [s B].
        apply CutPrefix_app in Ck. exists m. split_and!; [done|by rewrite Ck in *|by unfold entry_of; rewrite B|done].
      * eapply scanned_claim; [exact M|exact Ck|set_solver..].
      * done.
      * eapply scanned_claim; [exact M|exact Ck|set_solver..].
    + destruct ch; try done. injection E as <-. apply fine_quiet; try done. split_and!; [done..|].
      intros pid e Ep D K Ns Nu. apply M; [done..| |done|done]. intros [Eq|]%elem_of_cons; [|done].
      assert (CutPrefix k (claimsPrefix cfg) = Some pid) by (by apply CutPrefix_app). congruence.
Qed.

Lemma refreshed_ok l pid k : caller_ok k -> thread_ok l (refreshed pid k) /\ warming (refreshed pid k) = false.
Proof. by destruct k. Qed.

Lemma exec_refresh_fine l ch r t o :
  good l r -> thread_ok l t -> truthful cfg r t ch -> exec_refresh cfg ch r t = Some o -> fine l r o.
Proof.
  intros G T Tr E. destruct t; cbn in E; try done; destruct ch; try done.
  - destruct (refreshed_ok l pid k T) as [? ?].
    match type of E with (if ?b then _ else _) = _ => destruct b end; injection E as <-; by apply fine_quiet.
  - destruct (refreshed_ok l pid k T) as [? ?]. destruct x as [e|e]; [|injection E as <-; by apply fine_quiet].
    destruct (unmarshal_claim (e_value e)) as [cl|] eqn:U; injection E as <-; [|by apply fine_quiet].
    apply fine_quiet; try done. destruct (Tr _ eq_refl) as (m & L & ->). rewrite (good_bucket _ _ G) in L.
    split; [by apply read_claim|done].
  - destruct T as [Cl K]. destruct (refreshed_ok l pid k K) as [? ?].
    match type of E with (if ?b then _ else _) = _ => destruct b eqn:Eb end; injection E as <-; [by apply fine_quiet|].
    split_and!; try done.
    + destruct G as [B C A]. split; [done| |done]. apply map_Forall_insert_2; [|done]. by exists cl.
    + intros pid' e Ee. cbn. rewrite lookup_insert. case_decide as D; [subst pid'|exists e; split; [done|by left]].
      rewrite Ee in Eb. cbn in Eb. apply bool_decide_eq_false in Eb. eexists. split; [done|]. right. cbn. lia.
Qed.

Lemma judged_fine l r pid allowed e :
  good l r -> GetOwner r pid = Some e -> (exists now, allowed = allowed_states gate now) ->
  fine l r (judge gate pid allowed e r, Finished, []).
Proof.
  intros G O [now ->]. destruct (judge_same pid (allowed_states gate now) e r) as (Eb & Ec & Es).
  split_and!; try done; [|by apply forward_same]. destruct G as [B C A]. split; [congruence|by rewrite Ec|].
  apply judge_ok; [|done]. unfold GetOwner in O. destruct (cache r !! pid) as [e'|] eqn:E; [|done]. cbn in O.
  destruct (deleted e') eqn:D; [done|]. injection O as ->.
  destruct (decide (owner e = workerID gate)); [|tauto]. destruct (decide (state e ∈ allowed_states gate now)); [|tauto].
  left. split_and!; try done; [by apply C|by exists now].
Qed.

Lemma exec_gate_fine l ch r t o :
  good l r -> thread_ok l t -> exec_gate gate ch r t = Some o -> fine l r o.
Proof.
  intros G T E. destruct t; cbn in E; try done; destruct ch; try done.
  - case_match; [injection E as <-; by apply fine_quiet|].
    destruct (extractPartitionID gate subj); injection E as <-; apply fine_quiet; try done. by eexists.
  - destruct (GetOwner r pid) as [e|] eqn:O; injection E as <-; [by apply judged_fine|by apply fine_quiet].
  - destruct (GetOwner r pid) as [e|] eqn:O; injection E as <-; [by apply judged_fine|by apply fine_quiet].
Qed.

Lemma exec_fine l ch r t o :
  stream_ok l -> good l r -> thread_ok l t -> warming t = false -> truthful cfg r t ch ->
  exec cfg gate ch r t = Some o -> fine l r o.
Proof.
  intros O G T W Tr E. destruct t; cbn [exec] in E; try done;
    first [by eapply exec_watch_fine|by eapply exec_reconcile_fine|by eapply exec_scan_fine
          |by eapply exec_refresh_fine|by eapply exec_gate_fine].
Qed.

Lemma exec_start_ok l ch r t r' t' new :
  good l r -> thread_ok l t -> truthful cfg r t ch -> exec_start cfg ch r t = Some (r', t', new) ->
  good l r' /\ thread_ok l t' /\
  ((new = [] /\ started r' = started r) \/
   (started r' = true /\ Forall (λ t, thread_ok l t /\ warming t = false) (t' :: new))).
Proof.
  intros G T Tr E. destruct t; cbn in E; try done.
  - destruct ch; try done. destruct (listed x); injection E as <- <- <-; split_and!; try done; by left.
  - destruct keys as [|k keys].
    { destruct ch; try done. injection E as <- <- <-. split_and!; try done; [|by left]. destruct G. by split. }
    destruct (CutPrefix k _) as [pid|] eqn:C; destruct ch; try done; [destruct x as [e|]|];
      try (injection E as <- <- <-; split_and!; [done..|by left]).
    destruct (unmarshal_claim (e_value e)) as [cl|] eqn:U; injection E as <- <- <-; (split_and!; [done| |by left]); [|done].
    apply map_Forall_insert_2; [|done]. exists cl. split; [|done]. destruct (Tr _ eq_refl) as (m & L & ->).
    apply CutPrefix_app in C. rewrite (good_bucket _ _ G), C in L. by apply read_claim.
  - destruct ch; try done. destruct ok; injection E as <- <- <-; (split_and!; [by destruct G|done|]); [right|by left].
    split; [done|]. case_decide; repeat constructor; done.
Qed.

Lemma resolver_inv_step c c' : Inv c.1 c.2 -> step cfg gate c c' -> Inv c'.1 c'.2.
Proof.
  intros I S. destruct S as [r ts1 t ts2 ch r' t' new Tr E|r ts m (B & P & L)|r ts t St Ca]; destruct I as [O C T A W]; cbn in *.
  - apply Forall_middle in T as [Tt T]. assert (good (bucket r) r) as G by done. destruct (started r) eqn:Es.
    + apply Forall_middle in W as [Wt W]. destruct (exec_fine _ _ _ _ _ O G Tt Wt Tr E) as ([Eb C' A'] & T' & W' & -> & _ & St).
      split; rewrite ?Eb, ?St, ?Es; try done; apply Forall_middle; by split.
    + destruct W as [t0 W]. destruct (middle_singleton _ _ _ _ W) as (-> & -> & ->). cbn. destruct (warming t0) eqn:Wt.
      * assert (exec_start cfg ch r t0 = Some (r', t', new)) as E' by (by destruct t0).
        destruct (exec_start_ok _ _ _ _ _ _ _ G Tt Tr E') as ([Eb C' A'] & T' & [[-> St]|[St F]]); split; rewrite ?Eb, ?St, ?Es; try done.
        -- by apply Forall_singleton.
        -- by exists t'.
        -- rewrite app_nil_r. eapply Forall_impl; [exact F|]. naive_solver.
        -- rewrite app_nil_r. eapply Forall_impl; [exact F|]. naive_solver.
      * destruct (exec_fine _ _ _ _ _ O G Tt Wt Tr E) as ([Eb C' A'] & T' & W' & -> & _ & St).
        split; rewrite ?Eb, ?St, ?Es; try done; [by apply Forall_singleton|by exists t'].
  - assert (bucket r ⊆ bucket r ++ [m]) as Sub by set_solver. split; cbn; [by apply stream_ok_snoc|by eapply entries_grow| | |done].
    + eapply Forall_impl; [exact T|]. intros t. by apply thread_ok_grows.
    + eapply Forall_impl; [exact A|]. intros x. by apply admitted_ok_grows.
  - rewrite St in W. split; cbn; rewrite ?St; try done; (apply Forall_cons; split; [|done]); destruct t; try done. by destruct k.
Qed.

Lemma resolver_reachable_inv r ts : reachable cfg gate (r, ts) -> Inv r ts.
Proof.
  change (reachable cfg gate (r, ts) -> Inv (r, ts).1 (r, ts).2). induction 1 as [l O|c c' _ IH S]; [|by eapply resolver_inv_step].
  split; cbn; try done; [by apply Forall_singleton|by eexists].
Qed.

(** ** Theorems *)

(** C7. The cache of the resolver follows the bucket. In every interleaving of
    the watcher (which may deliver late, repeatedly and out of order), the
    reconciler, refreshes, gate calls and writers of the bucket: an owner the
    resolver reports is that of a claim that was written to the bucket for the
    partition, with its state, epoch and revision; a deleted mark stands for a
    deletion; and once [Start] has returned, no entry is dropped and an entry is
    replaced only by one of a later revision. *)
Theorem resolver_follows_bucket r ts :
  reachable cfg gate (r, ts) ->
  (forall pid e, GetOwner r pid = Some e ->
     exists m cl, m ∈ bucket r /\ m_key m = claim_key pid /\ decodes m cl /\ e = entry_of_claim cl (m_rev m)) /\
  (forall pid e, cache r !! pid = Some e -> deleted e = true -> buried (bucket r) pid (revision e)) /\
  (forall c', started r = true -> step cfg gate (r, ts) c' -> forward r c'.1).
Proof.
  intros I%resolver_reachable_inv. split_and!.
  - intros pid e O. unfold GetOwner in O. destruct (cache r !! pid) as [e'|] eqn:E; [|done]. cbn in O.
    destruct (deleted e') eqn:D; [done|]. injection O as ->. pose proof (inv_cache _ _ I _ _ E) as K.
    unfold entry_ok in K. rewrite D in K. destruct K as (cl & (m & ? & ? & ? & R) & Ee). exists m, cl. by rewrite R.
  - intros pid e E D. pose proof (inv_cache _ _ I _ _ E) as K. unfold entry_ok in K. by rewrite D in K.
  - intros c' St S. inversion S as [? ts1 t ts2 ch r' t' new Tr E| |]; subst; [|by apply forward_same..].
    destruct I as [O C T A W]. rewrite St in W. apply Forall_middle in T as [T _], W as [W _].
    assert (good (bucket r) r) as G by done. by destruct (exec_fine _ _ _ _ _ O G T W Tr E) as (_ & _ & _ & _ & F & _).
Qed.

Lemma admitted_claim r ts pid e :
  reachable cfg gate (r, ts) -> (pid, e) ∈ admitted r ->
  exists m cl, m ∈ bucket r /\ m_key m = claim_key pid /\ decodes m cl /\
    Owner cl = workerID gate /\ Epoch cl = epoch e /\ exists now, toState (ClaimState cl) ∈ allowed_states gate now.
Proof.
  intros I%resolver_reachable_inv Hx. pose proof (inv_admitted _ _ I) as A. rewrite Forall_forall in A.
  destruct (A _ Hx) as (D & K & Ow & St). cbn in *. unfold entry_ok in K. rewrite D in K.
  destruct K as (cl & (m & ? & ? & ? & R) & Ee). exists m, cl. rewrite Ee in *. by split_and!.
Qed.

(** ** An undisturbed reconciliation *)

Definition calm (ch : choice) : bool :=
  match ch with
  | Got (Err _) | Tick | Stop => false
  | Keys (Err e) => contains (message e) "no keys found"
  | _ => true
  end.

(** A step of the reconciler while nobody else acts and every call succeeds. *)
Definition alone (x y : resolver * thread) : Prop :=
  exists ch, calm ch = true /\ truthful cfg x.1 x.2 ch /\ exec cfg gate ch x.1 x.2 = Some (y.1, y.2, []).

(** What the bucket says about a partition. *)
Definition current_claim_entry l (pid : string) : option claimEntry :=
  m ← live l (claim_key pid);
  match m_body m with
  | Put data => cl ← unmarshal_claim data; Some (entry_of_claim cl (m_rev m))
  | _ => None
  end.

(** Everything written under the prefix is a claim. *)
Definition all_claims l : Prop :=
  forall m pid data, m ∈ l -> m_key m = claim_key pid -> m_body m = Put data -> is_Some (unmarshal_claim data).

(** The entry is not behind the bucket. *)
Definition caught_up l (pid : string) (o : option claimEntry) : Prop :=
  match live l (claim_key pid) with
  | Some m => exists e, o = Some e /\ (m_rev m <= revision e)%Z
  | None => from_option deleted true o = true
  end.

Lemma caught_up_agrees l pid r :
  stream_ok l -> map_Forall (entry_ok l) (cache r) -> caught_up l pid (cache r !! pid) ->
  GetOwner r pid = current_claim_entry l pid.
Proof.
  intros O C K. unfold GetOwner, current_claim_entry, caught_up in *. destruct (live l (claim_key pid)) as [m|] eqn:L.
  2: { destruct (cache r !! pid); cbn in *; [by rewrite K|done]. }
  destruct K as (e & E & R). rewrite E. cbn. pose proof (C _ _ E) as Ke. unfold entry_ok in Ke.
  destruct (live_elem _ _ _ L) as [Hm Km]. destruct (live_put _ _ _ L) as [data B]. rewrite B.
  assert (forall m', m' ∈ l -> m_key m' = claim_key pid -> (revision e <= m_rev m')%Z -> m' = m) as Un.
  { intros m' Hm' Km' R'. apply (stream_rev_inj l); try done.
    assert (last_msg l (claim_key pid) = Some m) as Lm.
    { unfold live in L. apply bind_Some in L as (m0 & Lm & P). destruct (is_put m0); [congruence|done]. }
    pose proof (last_msg_highest _ _ _ _ O Lm Hm' Km'). lia. }
  destruct (deleted e).
  - destruct Ke as (d & Hd & Kd & Bd & Rd). rewrite (Un d Hd Kd Rd) in Bd. congruence.
  - destruct Ke as (cl & (m' & Hm' & Km' & (s & Bs & Us) & Rm) & Ee).
    assert (m' = m) as -> by (apply Un; [done..|lia]). assert (s = data) as -> by congruence. rewrite Us. cbn.
    rewrite Rm. by f_equal.
Qed.

(** What has been collected for a partition of the listing. *)
Definition collected l (r : resolver) (keys : list string) (pend : gmap string pending) (seen : gset string) : Prop :=
  (forall k, k ∈ keys -> is_Some (live l k)) /\
  (forall pid, is_Some (live l (claim_key pid)) -> claim_key pid ∈ keys \/ pid ∈ seen) /\
  forall pid, match pend !! pid with
              | Some p => pid ∈ seen /\ exists m data, live l (claim_key pid) = Some m /\ m_body m = Put data /\
                  p = mkPending (OpUpsert data) (m_rev m)
              | None => pid ∈ seen -> is_Some (live l (claim_key pid)) /\ caught_up l pid (cache r !! pid)
              end.

Lemma collect l r k keys pend seen pid m :
  collected l r (k :: keys) pend seen -> k = claim_key pid -> live l k = Some m ->
  collected l r keys
    (if from_option (λ x, bool_decide (e_revision (entry_of m) <= revision x)%Z) false (cache r !! pid) then pend
     else <[pid := mkPending (OpUpsert (e_value (entry_of m))) (e_revision (entry_of m))]> pend) ({[pid]} ∪ seen).
Proof.
  intros (Hk & Hl & Hp) -> L. split_and!; [set_solver| |].
  { intros pid' [[E|?]%elem_of_cons|?]%Hl; [|set_solver..]. apply (inj _) in E as ->. set_solver. }
  intros pid'. destruct (live_put _ _ _ L) as [data B].
  assert (e_value (entry_of m) = data) as -> by (by unfold entry_of; rewrite B).
  destruct (from_option _ _ _) eqn:Eb.
  - specialize (Hp pid'). destruct (pend !! pid') as [p|]; [set_solver|].
    intros [->%elem_of_singleton|Hs]%elem_of_union; [|auto]. split; [by eexists|].
    unfold caught_up. rewrite L. destruct (cache r !! pid) as [e|]; [|done]. exists e.
    cbn in Eb. by apply bool_decide_eq_true in Eb.
  - rewrite lookup_insert. case_decide as D; [subst pid'|specialize (Hp pid'); destruct (pend !! pid'); set_solver].
    split; [set_solver|]. by exists m, data.
Qed.

Lemma lookup_missing snap seen unreadable pid :
  missing_claims snap seen unreadable !! pid =
  if decide (pid ∉ seen /\ pid ∉ unreadable) then
    match snap !! pid with
    | Some e => if deleted e then None else Some (mkPending OpDelete (revision e + 1))
    | None => None
    end
  else None.
Proof.
  unfold missing_claims. rewrite lookup_omap. destruct (snap !! pid) as [e|] eqn:E.
  - destruct (filter _ snap !! pid) as [e'|] eqn:F.
    + apply map_lookup_filter_Some in F as [? ?]. simplify_eq. by rewrite decide_True.
    + apply map_lookup_filter_None in F as [?|F]; [congruence|]. rewrite decide_False; [done|]. by apply (F e).
  - rewrite (proj2 (map_lookup_filter_None _ _ _) (or_introl E)). by case_decide.
Qed.

Lemma collected_applied l r pend seen pid :
  all_claims l -> collected l r [] pend seen ->
  caught_up l pid (cache (applyPendingBatch (missing_claims (cache r) seen ∅ ∪ pend) r) !! pid).
Proof.
  intros Al (_ & Hl & Hp). specialize (Hl pid). specialize (Hp pid). rewrite lookup_apply, lookup_union, lookup_missing.
  unfold caught_up in *. destruct (live l (claim_key pid)) as [m|] eqn:L.
  - assert (pid ∈ seen) as S by (destruct Hl as [?%elem_of_nil|?]; [by eexists|done|done]).
    rewrite decide_False by tauto. rewrite (left_id_L None _). destruct (pend !! pid) as [p|]; [|by apply Hp].
    destruct Hp as (_ & m' & data & [= <-] & B & ->). destruct (live_elem _ _ _ L) as [Hm Km].
    destruct (Al _ _ _ Hm Km B) as [cl U]. unfold apply_pending. cbn. rewrite U.
    match goal with |- context [if ?b then _ else _] => destruct b eqn:Eb end; [|by eexists].
    destruct (cache r !! pid) as [e|]; [|done]. exists e. cbn in Eb. by apply bool_decide_eq_true in Eb.
  - assert (pid ∉ seen) as S.
    { intros S. destruct (pend !! pid); [by destruct Hp as (_ & ? & ? & ? & _)|]. by destruct (Hp S) as [[? ?] _]. }
    destruct (pend !! pid) as [p|]; [by destruct Hp as (? & _)|]. rewrite (right_id_L None _).
    rewrite decide_True by (split; [done|apply not_elem_of_empty]).
    destruct (cache r !! pid) as [e|] eqn:E; [|done]. destruct (deleted e) eqn:D; [done|].
    unfold apply_pending. cbn. by rewrite bool_decide_eq_false_2 by lia.
Qed.

(** The state of a pass over an unchanged bucket. *)
Definition passing l r t : Prop :=
  bucket r = l /\ map_Forall (entry_ok l) (cache r) /\
  match t with
  | RcSnap _ => True
  | RcKeys _ snap => snap = cache r
  | RcGet _ snap keys pend seen unreadable => snap = cache r /\ unreadable = ∅ /\ collected l r keys pend seen /\
      map_Forall (pending_ok l) pend
  | RcDrift _ clean | RcLatch _ clean => clean = true /\ forall pid, caught_up l pid (cache r !! pid)
  | RcIdle => forall pid, caught_up l pid (cache r !! pid)
  | _ => False
  end.

Lemma listed_collected l r x keys :
  bucket r = l -> truthful cfg r (RcKeys None ∅) (Keys x) -> listed x = Some keys -> collected l r keys ∅ ∅.
Proof.
  intros <- Tr E. destruct x as [ks|e]; cbn in *.
  - injection E as ->. split_and!; [apply Tr|intros pid ?; left; by apply Tr|].
    intros pid. rewrite lookup_empty. set_solver.
  - destruct (contains _ _); [|done]. injection E as <-. specialize (Tr eq_refl).
    split_and!; [set_solver|intros pid; rewrite Tr; by intros [? ?]|]. intros pid. rewrite lookup_empty. set_solver.
Qed.

Lemma passing_quiet l r r' t : passing l r t -> bucket r' = bucket r -> cache r' = cache r -> passing l r' t.
Proof.
  intros (B & C & P) Eb Ec. unfold passing. rewrite Eb, Ec. split_and!; [done..|].
  destruct t; try done. unfold collected in *. by rewrite Ec.
Qed.

Lemma passing_get l r pos pend seen k keys ch r' t' :
  stream_ok l -> passing l r (RcGet pos (cache r) (k :: keys) pend seen ∅) -> calm ch = true ->
  truthful cfg r (RcGet pos (cache r) (k :: keys) pend seen ∅) ch ->
  exec_scan cfg ch r (RcGet pos (cache r) (k :: keys) pend seen ∅) = Some (r', t', []) -> passing l r' t'.
Proof.
  intros O (B & C & _ & _ & Cl & P) Ca Tr E. cbn in E. destruct (CutPrefix k _) as [pid|] eqn:Ck.
  - destruct ch; try done. destruct x as [en|?]; [|done]. injection E as <- <-. do 4 (split; [done|]).
    apply CutPrefix_app in Ck. destruct (Tr k eq_refl) as (m & L & ->). rewrite B in L. split.
    + by eapply collect.
    + destruct (live_elem _ _ _ L) as [? ?]. destruct (live_put _ _ _ L) as [s Bm].
      match goal with |- context [if ?b then _ else _] => destruct b end; [done|]. apply map_Forall_insert_2; [|done].
      exists m. split_and!; [done|by rewrite Ck in *|by unfold entry_of; rewrite Bm|done].
  - destruct ch; try done. injection E as <- <-. do 4 (split; [done|]). split; [|done].
    destruct Cl as (Hk & Hl & Hp). split_and!; [set_solver| |done].
    intros pid [[<-|?]%elem_of_cons|?]%Hl; [|by left|by right].
    assert (CutPrefix (claim_key pid) (claimsPrefix cfg) = Some pid) by (by apply CutPrefix_app). congruence.
Qed.

Lemma missing_pending l r pend seen :
  stream_ok l -> map_Forall (entry_ok l) (cache r) -> collected l r [] pend seen -> map_Forall (pending_ok l) pend ->
  map_Forall (pending_ok l) (missing_claims (cache r) seen ∅ ∪ pend).
Proof.
  intros O C (_ & Hl & _) P. apply map_Forall_union_2; [|done]. apply missing_ok. intros pid e E D S _.
  apply buried_missing; [done|by apply C|done|]. destruct (live l (claim_key pid)) eqn:L; [|done].
  destruct (Hl pid) as [?%elem_of_nil|?]; [by rewrite L|done|done].
Qed.

Lemma passing_step l x y :
  stream_ok l -> all_claims l -> passing l x.1 x.2 -> alone x y -> passing l y.1 y.2.
Proof.
  destruct x as [r t], y as [r' t']. intros O Al P (ch & Ca & Tr & E). cbn in *. destruct t; try (by destruct P as (_ & _ & [])); cbn [exec] in E.
  - by destruct ch.
  - destruct ch; try done. cbn in E. injection E as <- <-. by destruct P as (? & ? & _).
  - destruct P as (B & C & ->). destruct ch; try done. cbn in E. destruct (listed x) as [keys|] eqn:L; injection E as <- <-.
    + do 4 (split; [done|]). split; [|apply map_Forall_empty]. eapply listed_collected; [done| |exact L].
      by destruct x.
    + destruct x; [done|]. cbn in Ca, L. by rewrite Ca in L.
  - pose proof P as (B & C & -> & -> & Cl & Pe). destruct keys as [|k keys]; [|by eapply passing_get].
    cbn in E. destruct ch; try done. rewrite bool_decide_eq_true_2 in E by done.
    pose proof (λ pid, collected_applied l r _ _ pid Al Cl) as Ap. case_decide as Em; injection E as <- <-.
    + do 3 (split; [done|]). intros pid. specialize (Ap pid). by rewrite Em, lookup_apply, lookup_empty in Ap.
    + split; [done|]. split; [by apply apply_ok, missing_pending|]. by split.
  - destruct ch; try done. cbn in E. injection E as <- <-. apply (passing_quiet l r); [done|..];
      unfold requestWatcherRestartFromReconcile; by repeat case_decide.
  - destruct ch; try done. cbn in E. injection E as <- <-. apply (passing_quiet l r).
    + destruct P as (? & ? & -> & ?). done.
    + by destruct (hasStreamPos cfg), pos, clean.
    + by destruct (hasStreamPos cfg), pos, clean.
Qed.

Lemma passing_run l x y :
  stream_ok l -> all_claims l -> rtc alone x y -> passing l x.1 x.2 -> passing l y.1 y.2.
Proof. intros O Al. induction 1 as [|x y z S _ IH]; [done|]. intros P. apply IH. by eapply passing_step. Qed.

(** A pass comes to its end: every call can be answered. *)
Lemma gets_end pos snap r keys pend seen unreadable :
  (forall k, k ∈ keys -> is_Some (live (bucket r) k)) ->
  exists r', rtc alone (r, RcGet pos snap keys pend seen unreadable) (r', RcIdle).
Proof.
  revert pend seen. induction keys as [|k keys IH]; intros pend seen L.
  - destruct (decide (missing_claims snap seen unreadable ∪ pend = ∅)) as [E|E]; eexists.
    + eapply (rtc_l _ _ (_, _)); [exists Go; split_and!; [done|done|cbn; by rewrite decide_True by done]|].
      eapply rtc_once. by exists Go.
    + eapply (rtc_l _ _ (_, _)); [exists Go; split_and!; [done|done|cbn; by rewrite decide_False by done]|].
      eapply (rtc_l _ _ (_, _)); [by exists (At 0)|]. eapply rtc_once. by exists Go.
  - destruct (CutPrefix k (claimsPrefix cfg)) as [pid|] eqn:C.
    + destruct (L k) as [m Lm]; [set_solver|]. edestruct IH as [r' R]; [set_solver|]. exists r'. eapply rtc_l; [|exact R].
      exists (Got (Ok (entry_of m))). split_and!; [done| |cbn; by rewrite C]. intros k' [= <-]. by exists m.
    + edestruct IH as [r' R]; [set_solver|]. exists r'. eapply rtc_l; [|exact R].
      exists Go. split_and!; [done..|]. cbn. by rewrite C.
Qed.

(** A reconciliation repairs the cache. From any reachable state, whatever the
    watcher has missed: if the scan runs while nobody else acts and every call
    succeeds, and only claims are written under the prefix, then at its end the
    resolver reports for every partition exactly what the bucket holds, the
    claim's owner, state, epoch and revision, or nothing for a claim that is
    missing or deleted; and such a scan always comes to an end. *)
Theorem reconcile_repairs_cache r ts pos :
  reachable cfg gate (r, ts) -> all_claims (bucket r) ->
  (forall r', rtc alone (r, RcSnap pos) (r', RcIdle) ->
     bucket r' = bucket r /\ forall pid, GetOwner r' pid = current_claim_entry (bucket r) pid) /\
  exists r', rtc alone (r, RcSnap pos) (r', RcIdle).
Proof.
  intros I%resolver_reachable_inv Al. pose proof (inv_stream _ _ I) as O. split.
  - intros r' R. apply (passing_run (bucket r)) in R as (B & C & K); [|done|done|by split_and!; [|apply I|]].
    cbn in *. split; [done|]. intros pid. apply caught_up_agrees; [done|done|apply K].
  - assert (forall k, k ∈ current_keys (bucket r) -> is_Some (live (bucket r) k)) as L.
    { intros k Hk. apply list_elem_of_filter in Hk. tauto. }
    destruct (gets_end pos (cache r) r _ ∅ ∅ ∅ L) as [r' R]. exists r'.
    apply (rtc_l _ _ (r, RcKeys pos (cache r))); [by exists Go|]. eapply rtc_l; [|exact R]. exists (Keys (Ok (current_keys (bucket r)))).
    split_and!; [done| |done]. exact (answer_truthful cfg r (RcKeys pos (cache r))).
Qed.
End safety.

(** C6. Two workers never process a partition under the same epoch of a claim that
    was never reaped. Take any execution of the handoff protocol in which the claim
    of the partition was not reaped (after a reap epochs start again, see
    [stale_update_survives_reap]), and the resolvers and gates of two workers, each at any point of
    any execution of its own over a bucket whose messages are among those of the
    protocol. If the gate of each has let in a message of the partition under
    claims of the same epoch, the two are the same worker; and each did so on a
    claim naming it as owner, in a state its gate allows. *)
Theorem gates_fenced_by_epoch `{ClaimWire, !ClaimWireLaws, Xxh3} (float_to_int : float64 -> Z)
    (np : go_error -> bool) {W : Type} `{!Env None W} (w0 w : W) (ps : list (process member)) (pid : string)
    (Hreach : reaches float_to_int np w0 w ps)
    (Hshort : short (log (observe w))) (Hkept : unreaped (key pid) (log (observe w)))
    cfg1 gate1 r1 ts1 e1 cfg2 gate2 r2 ts2 e2
    (Hp1 : claimsPrefix cfg1 = claimsPref) (Hp2 : claimsPrefix cfg2 = claimsPref)
    (Hr1 : reachable cfg1 gate1 (r1, ts1)) (Hr2 : reachable cfg2 gate2 (r2, ts2))
    (Hb1 : bucket r1 ⊆ log (observe w)) (Hb2 : bucket r2 ⊆ log (observe w))
    (Ha1 : (pid, e1) ∈ admitted r1) (Ha2 : (pid, e2) ∈ admitted r2) :
  (epoch e1 = epoch e2 -> workerID gate1 = workerID gate2) /\
  exists m cl now, m ∈ log (observe w) /\ m_key m = key pid /\ decodes m cl /\
    Owner cl = workerID gate1 /\ Epoch cl = epoch e1 /\ toState (ClaimState cl) ∈ allowed_states gate1 now.
Proof.
  destruct (admitted_claim _ _ _ _ _ _ Hr1 Ha1) as (m1 & c1 & B1 & K1 & D1 & O1 & E1 & now & S1).
  destruct (admitted_claim _ _ _ _ _ _ Hr2 Ha2) as (m2 & c2 & B2 & K2 & D2 & O2 & E2 & _).
  unfold claim_key in *. rewrite Hp1 in K1. rewrite Hp2 in K2. apply handoff_reaches in Hreach as St. split.
  - intros E. rewrite <- O1, <- O2. eapply (epoch_has_one_owner _ (key pid)); [exact St|done|done|by apply Hb1|by apply Hb2|done..|].
    congruence.
  - exists m1, c1, now. split_and!; try done. by apply Hb1.
Qed.

(** ** Executions

    The resolvers and gates of workers [a] and [b] over the claims of
    [demo_handoff]: [a]'s over the first claim, [b]'s over all of them. *)

Definition demo_resolver : resolver_config := NewClaimBasedResolver "claims" None None true.

Definition demo_gate (w : string) : processingGate :=
  default (mkGate w (mkGateConfig true [] 0 []) "" "" None)
    (newProcessingGate w "x.{{.PartitionID}}" (mkGateConfig true [] 0 []) 0).

Definition demo_resolver_run (w : string) (l : list msg) (acts : list action) : config :=
  default (new_resolver l, [WmKeys]) (@run toy_claim_wire demo_resolver (demo_gate w) acts (new_resolver l, [WmKeys])).

(** [Start] over a bucket with one key. *)
Definition demo_start : list action := [Ask 0; Ask 0; Act 0 Go; Act 0 (Established true)].

(** Then a message of partition [p]. *)
Definition demo_message : list action := demo_start ++ [Call (GtEnter "x.p"); Act 0 (At 5); Act 0 Go].

Definition demo_claims_log : list msg := log (demo_run demo_handoff).

#[local] Instance stream_ok_dec l : Decision (stream_ok l).
Proof. unfold stream_ok. apply _. Defined.

Lemma demo_resolver_reachable w l acts :
  bool_decide (stream_ok l) = true ->
  bool_decide (is_Some (@run toy_claim_wire demo_resolver (demo_gate w) acts (new_resolver l, [WmKeys]))) = true ->
  @reachable toy_claim_wire demo_resolver (demo_gate w)
    ((demo_resolver_run w l acts).1, (demo_resolver_run w l acts).2).
Proof.
  intros O [c E]%bool_decide_eq_true. apply bool_decide_eq_true in O. unfold demo_resolver_run. rewrite E. cbn.
  destruct c as [r ts]. eapply run_reachable; [by apply reachable_start|exact E].
Qed.

Definition demo_a : resolver := (demo_resolver_run "a" (take 1 demo_claims_log) demo_message).1.
Definition demo_b : resolver := (demo_resolver_run "b" demo_claims_log demo_message).1.

Lemma demo_a_admits : admitted demo_a = [("p", mkClaimEntry "a" HandoffStateStable 1 1 false)].
Proof. vm_compute. reflexivity. Qed.
Lemma demo_b_admits : admitted demo_b = [("p", mkClaimEntry "b" HandoffStateStable 4 4 false)].
Proof. vm_compute. reflexivity. Qed.

Lemma demo_a_bucket : bucket demo_a ⊆ log (demo_run demo_handoff).
Proof.
  assert (bucket demo_a = take 1 demo_claims_log) as -> by (vm_compute; reflexivity). apply subseteq_take.
Qed.
Lemma demo_b_bucket : bucket demo_b ⊆ log (demo_run demo_handoff).
Proof. assert (bucket demo_b = demo_claims_log) as -> by (vm_compute; reflexivity). done. Qed.

Lemma gates_fenced_by_epoch_witness :
  exists e1 e2, (("p", e1) ∈ admitted demo_a) /\ (("p", e2) ∈ admitted demo_b) /\
    (epoch e1 = epoch e2 -> workerID (demo_gate "a") = workerID (demo_gate "b")).
Proof.
  destruct demo_handoff_reaches as [ps R].
  eexists _, _. split; [rewrite demo_a_admits; apply list_elem_of_here|].
  split; [rewrite demo_b_admits; apply list_elem_of_here|].
  exact (proj1 (@gates_fenced_by_epoch toy_claim_wire toy_claim_laws toy_xxh3 demo_float demo_np view
    (permissive None) (mkView [] 0 ∅) (demo_run demo_handoff) ps "p" R demo_handoff_short demo_handoff_unreaped
    demo_resolver (demo_gate "a") demo_a _ _ demo_resolver (demo_gate "b") demo_b _ _ eq_refl eq_refl
    (demo_resolver_reachable "a" (take 1 demo_claims_log) demo_message ltac:(vm_compute; reflexivity) ltac:(vm_compute; reflexivity))
    (demo_resolver_reachable "b" demo_claims_log demo_message ltac:(vm_compute; reflexivity) ltac:(vm_compute; reflexivity))
    demo_a_bucket demo_b_bucket
    (eq_rect_r (λ x, (_ ∈ x)) (list_elem_of_here _ _) demo_a_admits)
    (eq_rect_r (λ x, (_ ∈ x)) (list_elem_of_here _ _) demo_b_admits))).
Defined.

(** ** A refresh that is late

    A reconciliation that finds the claim gone marks it deleted at the revision
    after the one it had cached. A refresh that has read a revision in between
    is then still later, and brings the deleted claim back; the gate that asked
    for it lets its message in, and the next reconciliation is skipped because
    the stream has not moved since. *)
Definition demo_put (rev : Z) (k w : string) : msg :=
  mkMsg rev k rev (Put (default "" (@marshal_claim toy_claim_wire (mkClaim "p" w "" ClaimStateStable rev rev 0 0)))) None.

(** Worker [b] gets a message of a partition it does not know; before its refresh
    reads the claim, the watcher caches the first revision; the claim is deleted
    after the read and reconciled before the refresh is stored. *)
Definition demo_late_refresh : list action :=
  [Ask 0; Act 0 Go; Act 0 (Established true);
   Write (demo_put 1 "claims/p" "a"); Call (GtEnter "x.p"); Act 0 (At 5); Act 0 Go; Act 0 (At 5);
   Deliver 2 0; Act 2 Timer;
   Write (demo_put 2 "claims/q" "a"); Write (demo_put 3 "claims/p" "b"); Ask 0;
   Write (mkMsg 4 "claims/p" 4 Del None);
   Act 3 Tick; Ask 3; Act 3 Go; Ask 3; Ask 3; Act 3 Go; Act 3 (At 9); Act 3 Go;
   Act 0 Go; Act 0 Go;
   Act 3 Tick; Ask 3; Act 3 Go; Ask 3].

Definition demo_late : config := demo_resolver_run "b" [] demo_late_refresh.

Lemma demo_late_state :
  live (bucket demo_late.1) "claims/p" = None /\
  GetOwner demo_late.1 "p" = Some (mkClaimEntry "b" HandoffStateStable 3 3 false) /\
  admitted demo_late.1 = [("p", mkClaimEntry "b" HandoffStateStable 3 3 false)] /\
  gateSkipsSinceFull demo_late.1 = 1%Z.
Proof. vm_compute. repeat split. Qed.

Theorem late_refresh_revives_claim :
  exists r ts e, @reachable toy_claim_wire demo_resolver (demo_gate "b") (r, ts) /\
    live (bucket r) (claim_key demo_resolver "p") = None /\
    GetOwner r "p" = Some e /\ ("p", e) ∈ admitted r /\ (0 < gateSkipsSinceFull r)%Z.
Proof.
  destruct demo_late_state as (L & O & A & G). exists demo_late.1, demo_late.2. eexists.
  split; [apply demo_resolver_reachable; vm_compute; reflexivity|].
  split; [exact L|]. split; [exact O|]. rewrite A, G. split; [apply list_elem_of_here|lia].
Qed.

Lemma resolver_follows_bucket_witness :
  exists m cl, m ∈ bucket demo_b /\ @decodes toy_claim_wire m cl /\ Owner cl = "b" /\ m_rev m = 4%Z.
Proof.
  destruct (proj1 (@resolver_follows_bucket toy_claim_wire demo_resolver (demo_gate "b") demo_b _
    (demo_resolver_reachable "b" demo_claims_log demo_message ltac:(vm_compute; reflexivity) ltac:(vm_compute; reflexivity)))
    "p" (mkClaimEntry "b" HandoffStateStable 4 4 false) ltac:(vm_compute; reflexivity)) as (m & cl & Hm & _ & D & E).
  exists m, cl. refine (conj Hm (conj D (conj _ _))).
  - exact (eq_sym (f_equal owner E)).
  - exact (eq_sym (f_equal revision E)).
Defined.

(** The watcher has delivered nothing since [Start]. *)
Definition demo_behind : config :=
  demo_resolver_run "b" (take 1 demo_claims_log) (demo_start ++ (Write <$> drop 1 demo_claims_log)).

Lemma demo_behind_claims : @all_claims toy_claim_wire demo_resolver (bucket demo_behind.1).
Proof.
  assert (forallb (λ m, match m_body m with
      | Put data => bool_decide (is_Some (@unmarshal_claim toy_claim_wire data))
      | _ => true
      end) (bucket demo_behind.1) = true) as F by (vm_compute; reflexivity).
  intros m pid data Hm _ B. rewrite forallb_forall in F. apply list_elem_of_In, F in Hm. rewrite B in Hm.
  by apply bool_decide_eq_true in Hm.
Qed.

Lemma reconcile_repairs_cache_witness :
  GetOwner demo_behind.1 "p" = Some (mkClaimEntry "a" HandoffStateStable 1 1 false) /\
  exists r', GetOwner r' "p" = Some (mkClaimEntry "b" HandoffStateStable 4 4 false).
Proof.
  split; [vm_compute; reflexivity|].
  destruct (@reconcile_repairs_cache toy_claim_wire demo_resolver (demo_gate "b") demo_behind.1 _ None
    (demo_resolver_reachable "b" (take 1 demo_claims_log) (demo_start ++ (Write <$> drop 1 demo_claims_log))
      ltac:(vm_compute; reflexivity) ltac:(vm_compute; reflexivity)) demo_behind_claims) as [A [r' R]].
  exists r'. refine (eq_trans (proj2 (A r' R) "p") _). vm_compute. reflexivity.
Defined.
