(* ===== verification/Retry.v ===== *)
(** * The bounded retry envelope (internal/retry/envelope.go)

    The loop that replaces endless retries of watcher restarts and consumer
    recovery. What the context, the work function and the sleep answer at each
    attempt is given by the environment; the run records what it does. *)
From S2P Require Import Prelude Float64.

Inductive Class := Transient | GiveUp | Fatal.

Record Config := mkRetryConfig {
  BaseBackoff : Z;
  MaxBackoff : Z;
  MaxAttempts : Z;
  Jitter : float64;
}.

(** [New] panics on an invalid configuration. *)
Definition New (cfg : Config) : option Config :=
  if decide (MaxAttempts cfg <= 0)%Z then None
  else if decide (BaseBackoff cfg <= 0)%Z then None
  else if decide (MaxBackoff cfg < BaseBackoff cfg)%Z then None
  else Some cfg.

(** The doubling loop of [backoffFor], run until it stops. *)
Fixpoint double (n : nat) (max delay : Z) : Z :=
  match n with
  | 0 => delay
  | S n => if decide (delay < max)%Z then double n max (wrap64 (delay * 2)) else delay
  end.

(** The delay before jitter. *)
Definition base_delay (cfg : Config) (attempt : Z) : Z :=
  let delay := double (Z.to_nat (attempt - 1)) (MaxBackoff cfg) (BaseBackoff cfg) in
  if decide (MaxBackoff cfg < delay)%Z then MaxBackoff cfg else delay.

Section envelope.
(** The conversion of a float outside the range of an integer depends on the
    platform. *)
Context (float_to_int : float64 -> Z).

(** [bits] are the 53 random bits of [rand.Float64]. *)
Definition backoffFor (cfg : Config) (attempt bits : Z) : Z :=
  let delay := base_delay cfg attempt in
  if f64_leb (Jitter cfg) (f64_of_Z 0) then delay
  else
    let low := f64_sub (f64_of_Z 1) (Jitter cfg) in
    let high := f64_add (f64_of_Z 1) (Jitter cfg) in
    let f := f64_div (f64_of_Z bits) (f64_of_Z (2 ^ 53)) in
    let scale := f64_add low (f64_mul f (f64_sub high low)) in
    f64_to_int64 float_to_int (f64_mul (f64_of_Z delay) scale).

Context {E : Type} (Classify : E -> Class).

(** The answers at one attempt: the context's error, the error of the work, the
    error of the sleep and the random bits. *)
Record answers := mkAnswers { ctxErr : option E; workErr : option E; sleepErr : option E; random : Z }.

Inductive event :=
| EvWork (attempt : Z)
| EvProgress (attempt : Z) (e : E)
| EvSleep (d : Z)
| EvPermanent (e : E).

Inductive result := Success | Failed (e : E) | Exhausted.

(** The loop of [Run] from [attempt] on; [None] when the fuel does not suffice.
    After the loop the last error is passed on; it is there whenever an attempt
    was made. *)
Fixpoint run_loop (fuel : nat) (cfg : Config) (env : Z -> answers) (attempt : Z) (lastErr : option E) :
    option (result * list event) :=
  match fuel with
  | 0 => None
  | S fuel =>
      let run_out (e : option E) := (Exhausted, match e with Some e => [EvPermanent e] | None => [] end) in
      if decide (MaxAttempts cfg < attempt)%Z then Some (run_out lastErr)
      else
        match ctxErr (env attempt) with
        | Some e => Some (Failed e, [])
        | None =>
            match workErr (env attempt) with
            | None => Some (Success, [EvWork attempt])
            | Some e =>
                match Classify e with
                | Fatal => Some (Failed e, [EvWork attempt])
                | GiveUp => Some (Exhausted, [EvWork attempt; EvPermanent e])
                | Transient =>
                    let done := [EvWork attempt; EvProgress attempt e] in
                    if decide (attempt = MaxAttempts cfg) then
                      let x := run_out (Some e) in Some (x.1, done ++ x.2)
                    else
                      let d := backoffFor cfg attempt (random (env attempt)) in
                      match sleepErr (env attempt) with
                      | Some e' => Some (Failed e', done ++ [EvSleep d])
                      | None =>
                          x ← run_loop fuel cfg env (attempt + 1) (Some e);
                          Some (x.1, done ++ [EvSleep d] ++ x.2)
                      end
                end
            end
        end
  end.

(** The attempts are bounded by the budget, so that much fuel suffices. *)
Definition Run (cfg : Config) (env : Z -> answers) : option (result * list event) :=
  run_loop (Z.to_nat (MaxAttempts cfg)) cfg env 1 None.

(** ** What a run did *)

Definition attempts (tr : list event) : list Z :=
  omap (λ ev, match ev with EvWork a => Some a | _ => None end) tr.
Definition sleeps (tr : list event) : list Z :=
  omap (λ ev, match ev with EvSleep d => Some d | _ => None end) tr.
Definition permanents (tr : list event) : list E :=
  omap (λ ev, match ev with EvPermanent e => Some e | _ => None end) tr.

(** Why a run whose last attempt was [n] ended with this result. *)
Definition ended (cfg : Config) (env : Z -> answers) (n : Z) (res : result) (perms : list E) : Prop :=
  match res with
  | Success => perms = [] /\ workErr (env n) = None
  | Failed e =>
      perms = [] /\ (ctxErr (env (n + 1)%Z) = Some e \/ (workErr (env n) = Some e /\ Classify e = Fatal) \/ sleepErr (env n) = Some e)
  | Exhausted => exists e, perms = [e] /\ workErr (env n) = Some e /\ (Classify e = GiveUp \/ n = MaxAttempts cfg)
  end.

Definition delays (cfg : Config) (env : Z -> answers) (a k : Z) : list Z :=
  (λ i, backoffFor cfg i (random (env i))) <$> seqZ a k.

Lemma run_loop_ends cfg env fuel a lastErr :
  (1 <= a <= MaxAttempts cfg)%Z -> (MaxAttempts cfg - a < Z.of_nat fuel)%Z ->
  exists res tr n k, run_loop fuel cfg env a lastErr = Some (res, tr) /\ (a - 1 <= n <= MaxAttempts cfg)%Z /\
    attempts tr = seqZ a (n - a + 1) /\ sleeps tr = delays cfg env a k /\ (0 <= k <= MaxAttempts cfg - a)%Z /\
    ended cfg env n res (permanents tr).
Proof.
  revert a lastErr. induction fuel as [|fuel IH]; intros a lastErr Ha Hf; [lia|]. cbn [run_loop].
  assert (seqZ a (a - a + 1) = [a]) as S1.
  { replace (a - a + 1)%Z with 1%Z by lia. by rewrite seqZ_cons, seqZ_nil by lia. }
  rewrite decide_False by lia. destruct (ctxErr (env a)) as [e|] eqn:C.
  { exists (Failed e), [], (a - 1)%Z, 0%Z. split_and!; try done; try lia.
    - by rewrite seqZ_nil by lia.
    - split; [done|]. left. by replace (a - 1 + 1)%Z with a by lia. }
  destruct (workErr (env a)) as [e|] eqn:W.
  2: { exists Success, [EvWork a], a, 0%Z. split_and!; try done; lia. }
  destruct (Classify e) eqn:K.
  - destruct (decide (a = MaxAttempts cfg)) as [Em|Em].
    { exists Exhausted, [EvWork a; EvProgress a e; EvPermanent e], a, 0%Z. split_and!; try done; try lia.
      exists e. auto. }
    destruct (sleepErr (env a)) as [e'|] eqn:S.
    { exists (Failed e'), [EvWork a; EvProgress a e; EvSleep (backoffFor cfg a (random (env a)))], a, 1%Z.
      split_and!; try done; try lia. split; auto. }
    destruct (IH (a + 1)%Z (Some e)) as (res & tr & n & k & -> & Hn & At & Sl & Hk & En); [lia..|].
    eexists res, _, n, (k + 1)%Z. split_and!; try done; try lia; cbn.
    + fold (attempts tr). rewrite At, (seqZ_cons a) by lia. f_equal; f_equal; lia.
    + fold (sleeps tr). rewrite Sl. unfold delays. rewrite (seqZ_cons a (k + 1)) by lia. cbn. do 2 f_equal. f_equal; lia.
  - exists Exhausted, [EvWork a; EvPermanent e], a, 0%Z. split_and!; try done; try lia. exists e. auto.
  - exists (Failed e), [EvWork a], a, 0%Z. split_and!; try done; try lia. split; auto.
Qed.
End envelope.

(** ** Delays *)

Lemma double_power n max delay :
  (0 < delay <= max)%Z -> (max <= 2 ^ 62)%Z ->
  Z.min (double n max delay) max = Z.min (delay * 2 ^ Z.of_nat n) max /\ (delay <= double n max delay)%Z.
Proof.
  intros Hd Hm. revert delay Hd. induction n as [|n IH]; intros delay Hd; cbn [double]; [split; [f_equal|]; lia|].
  rewrite Nat2Z.inj_succ, Z.pow_succ_r by lia. case_decide as L.
  - rewrite wrap64_id by lia. destruct (decide (delay * 2 <= max)%Z) as [Le|Le].
    + destruct (IH (delay * 2)%Z) as [E G]; [lia|]. split; [|lia]. rewrite E. f_equal. lia.
    + assert (double n max (delay * 2) = delay * 2)%Z as ->. { destruct n; cbn; [done|]. by rewrite decide_False by lia. }
      pose proof (Z.pow_pos_nonneg 2 (Z.of_nat n)). split; nia.
  - pose proof (Z.pow_pos_nonneg 2 (Z.of_nat n)). split; nia.
Qed.

(** A retry envelope always comes to an end, within its budget. For every
    accepted configuration and whatever the context, the work and the sleeps
    answer: [Run] returns; it has called the work function for the attempts
    [1 .. n] with [n] at most the budget, and slept fewer times than the budget,
    each time for the delay of its attempt; it reports success only when the last
    attempt succeeded; and the permanent-failure callback has run exactly once,
    with the last error, when it reports exhaustion, and never otherwise. Before
    jitter, the delay after attempt [i] is the base doubled [i - 1] times and
    capped, as long as the cap stays below half the range of a duration. *)
Theorem envelope_ends_within_budget float_to_int {E} (Classify : E -> Class) cfg cfg' (env : Z -> answers) :
  New cfg = Some cfg' ->
  (exists res tr n k, Run float_to_int Classify cfg' env = Some (res, tr) /\ (0 <= n <= MaxAttempts cfg')%Z /\
     attempts tr = seqZ 1 n /\ sleeps tr = delays float_to_int cfg' env 1 k /\ (0 <= k < MaxAttempts cfg')%Z /\
     ended Classify cfg' env n res (permanents tr)) /\
  ((MaxBackoff cfg' <= 2 ^ 62)%Z -> forall i, (1 <= i)%Z ->
     base_delay cfg' i = Z.min (BaseBackoff cfg' * 2 ^ (i - 1)) (MaxBackoff cfg')).
Proof.
  unfold New. repeat case_decide; try done. intros [= ->]. split.
  - destruct (run_loop_ends float_to_int Classify cfg' env (Z.to_nat (MaxAttempts cfg')) 1 None)
      as (res & tr & n & k & R & Hn & A & S & Hk & En); [lia..|].
    exists res, tr, n, k. split_and!; try done; try lia. rewrite A. f_equal. lia.
  - intros Hm i Hi. unfold base_delay.
    destruct (double_power (Z.to_nat (i - 1)) (MaxBackoff cfg') (BaseBackoff cfg')) as [P L]; [lia..|].
    rewrite Z2Nat.id in P by lia. rewrite <- P. case_decide; lia.
Qed.

(** The envelope of the claim resolver's watcher restart
    (restartWatcherWithEnvelope): two seconds, doubled up to thirty, six attempts. *)
Definition watcher_restart : Config := mkRetryConfig 2000000000 30000000000 6 (f64_const 3 10).

Lemma envelope_ends_within_budget_witness :
  New watcher_restart = Some watcher_restart /\
  (exists res tr, Run (λ _, 0%Z) (λ _ : unit, Transient) watcher_restart (λ _, mkAnswers None (Some ()) None 0) = Some (res, tr)) /\
  base_delay watcher_restart 5 = 30000000000%Z.
Proof.
  destruct (envelope_ends_within_budget (λ _, 0%Z) (λ _ : unit, Transient) watcher_restart watcher_restart
    (λ _, mkAnswers None (Some ()) None 0) eq_refl) as [(res & tr & _ & _ & R & _) D].
  split; [reflexivity|]. split; [exists res, tr; exact R|].
  refine (eq_trans (D ltac:(vm_compute; discriminate) 5%Z ltac:(vm_compute; discriminate)) _). reflexivity.
Defined.
