(* ===== verification/ManagerConfig.v ===== *)
(** * Configuration (config.go)

    The manager's configuration with its defaults and its validation. The struct
    tags are interpreted by two libraries: one sets a field that has its zero
    value to the default of its tag, the other checks the rules of the tags; what
    they are relied on to do is the class [TagLibrary]. *)
From S2P Require Import Prelude Partition Float64 Claimer.

Definition millisecond : Z := 1000000.
Definition second : Z := 1000 * millisecond.

Record KVBucketConfig := mkKVBucketConfig {
  StableIDBucket : string;
  ElectionBucket : string;
  HeartbeatBucket : string;
  AssignmentBucket : string;
  AssignmentTTL : Z;
  HandoffBucket : string;
  HandoffTTL : Z;
  Replicas : Z;
}.

Record HandoffConfig := mkHandoffConfig {
  SweepInterval : Z;
  MaxRetries : Z;
  BaseBackoff : Z;
  MaxBackoff : Z;
  Jitter : float64;
  DelayAfterPrepare : Z;
  DelayBeforeStable : Z;
  PhaseConcurrency : Z;
  ClaimWritePerSec : float64;
  ClaimWriteBurst : Z;
  ClaimWriteClusterRate : float64;
}.

Record DegradedAlertConfig := mkDegradedAlertConfig {
  InfoThreshold : Z;
  WarnThreshold : Z;
  ErrorThreshold : Z;
  CriticalThreshold : Z;
  AlertInterval : Z;
}.

Record DegradedBehaviorConfig := mkDegradedBehaviorConfig {
  EnterThreshold : Z;
  ExitThreshold : Z;
  KVErrorThreshold : Z;
  KVErrorWindow : Z;
  RecoveryGracePeriod : Z;
}.

(** Optional fields left out of the tags: [WorkerLabels] and
    [EmergencyGracePeriod] have no default tag. *)
Record Config := mkConfig {
  WorkerIDPrefix : string;
  WorkerLabels : list string;
  UnlabeledPartitionPolicy : string;
  LabelSpillGrace : Z;
  WorkerIDMin : Z;
  WorkerIDMax : Z;
  WorkerIDTTL : Z;
  HeartbeatInterval : Z;
  HeartbeatTTL : Z;
  ColdStartWindow : Z;
  PlannedScaleWindow : Z;
  EmergencyGracePeriod : Z;
  RestartDetectionRatio : float64;
  OperationTimeout : Z;
  BucketEpochProbeInterval : Z;
  ElectionTimeout : Z;
  StartupTimeout : Z;
  ShutdownTimeout : Z;
  RebalanceCooldown : Z;
  KVBuckets : KVBucketConfig;
  DegradedAlert : DegradedAlertConfig;
  DegradedBehavior : DegradedBehaviorConfig;
  EnableTwoPhaseHandoff : bool;
  Handoff : HandoffConfig;
  ApplyStartJitter : Z;
  AssignmentWatcherDebounce : Z;
}.

(** ** Defaults *)

Definition z_or (d z : Z) : Z := if decide (z = 0%Z) then d else z.
Definition s_or (d s : string) : string := if decide (s = "") then d else s.
Definition f_or (d f : float64) : float64 := match f with S754_zero _ => d | _ => f end.

Definition kv_defaults (c : KVBucketConfig) : KVBucketConfig :=
  mkKVBucketConfig (s_or "parti-stableid" (StableIDBucket c)) (s_or "parti-election" (ElectionBucket c))
    (s_or "parti-heartbeat" (HeartbeatBucket c)) (s_or "parti-assignment" (AssignmentBucket c))
    (AssignmentTTL c) (s_or "parti-handoff" (HandoffBucket c)) (z_or (120 * second) (HandoffTTL c)) (Replicas c).
Definition handoff_defaults (c : HandoffConfig) : HandoffConfig :=
  mkHandoffConfig (z_or (30 * second) (SweepInterval c)) (z_or 3 (MaxRetries c))
    (z_or (50 * millisecond) (BaseBackoff c)) (z_or (500 * millisecond) (MaxBackoff c))
    (f_or (f64_const 2 10) (Jitter c)) (DelayAfterPrepare c) (DelayBeforeStable c) (PhaseConcurrency c)
    (ClaimWritePerSec c) (ClaimWriteBurst c) (ClaimWriteClusterRate c).
Definition alert_defaults (c : DegradedAlertConfig) : DegradedAlertConfig :=
  mkDegradedAlertConfig (z_or (30 * second) (InfoThreshold c)) (z_or (120 * second) (WarnThreshold c))
    (z_or (300 * second) (ErrorThreshold c)) (z_or (600 * second) (CriticalThreshold c))
    (z_or (60 * second) (AlertInterval c)).
Definition behavior_defaults (c : DegradedBehaviorConfig) : DegradedBehaviorConfig :=
  mkDegradedBehaviorConfig (z_or (10 * second) (EnterThreshold c)) (z_or (5 * second) (ExitThreshold c))
    (z_or 5 (KVErrorThreshold c)) (z_or (30 * second) (KVErrorWindow c))
    (z_or (15 * second) (RecoveryGracePeriod c)).
Definition tag_defaults (c : Config) : Config :=
  mkConfig (s_or "worker" (WorkerIDPrefix c)) (WorkerLabels c) (s_or "dedicated" (UnlabeledPartitionPolicy c))
    (z_or (60 * second) (LabelSpillGrace c)) (WorkerIDMin c) (z_or 999 (WorkerIDMax c))
    (z_or (75 * second) (WorkerIDTTL c)) (z_or (5 * second) (HeartbeatInterval c))
    (z_or (15 * second) (HeartbeatTTL c)) (z_or (30 * second) (ColdStartWindow c))
    (z_or (10 * second) (PlannedScaleWindow c)) (EmergencyGracePeriod c)
    (f_or (f64_const 5 10) (RestartDetectionRatio c)) (z_or (10 * second) (OperationTimeout c))
    (z_or (10 * second) (BucketEpochProbeInterval c)) (z_or (10 * second) (ElectionTimeout c))
    (z_or (60 * second) (StartupTimeout c)) (z_or (10 * second) (ShutdownTimeout c))
    (z_or (10 * second) (RebalanceCooldown c)) (kv_defaults (KVBuckets c)) (alert_defaults (DegradedAlert c))
    (behavior_defaults (DegradedBehavior c)) (EnableTwoPhaseHandoff c) (handoff_defaults (Handoff c))
    (ApplyStartJitter c) (AssignmentWatcherDebounce c).
Definition zero_kv : KVBucketConfig := mkKVBucketConfig "" "" "" "" 0 "" 0 0.
Definition zero_handoff : HandoffConfig := mkHandoffConfig 0 0 0 0 (f64_of_Z 0) 0 0 0 (f64_of_Z 0) 0 (f64_of_Z 0).
Definition zero_alert : DegradedAlertConfig := mkDegradedAlertConfig 0 0 0 0 0.
Definition zero_behavior : DegradedBehaviorConfig := mkDegradedBehaviorConfig 0 0 0 0 0.
Definition zero_config : Config := mkConfig "" [] "" 0 0 0 0 0 0 0 0 0 (f64_of_Z 0) 0 0 0 0 0 0 zero_kv zero_alert zero_behavior false zero_handoff 0 0.

(** ** Rules *)

Definition gte (x y : Z) : bool := bool_decide (y <= x)%Z.
Definition gt (x y : Z) : bool := bool_decide (y < x)%Z.
Definition f_gte (x : float64) (n : Z) : bool := f64_leb (f64_of_Z n) x.
Definition f_lte (x : float64) (n : Z) : bool := f64_leb x (f64_of_Z n).
Definition required (s : string) : bool := bool_decide (s <> "").

Definition kv_rules (c : KVBucketConfig) : bool :=
  required (StableIDBucket c) && required (ElectionBucket c) && required (HeartbeatBucket c) &&
  required (AssignmentBucket c) && gte (AssignmentTTL c) 0 && gte (Replicas c) 0.

Definition handoff_rules (c : HandoffConfig) : bool :=
  gte (SweepInterval c) 0 && gte (MaxRetries c) 0 && gte (BaseBackoff c) 0 &&
  gte (MaxBackoff c) 0 && gte (MaxBackoff c) (BaseBackoff c) && f_gte (Jitter c) 0 && f_lte (Jitter c) 1 &&
  gte (DelayAfterPrepare c) 0 && gte (DelayBeforeStable c) 0 && gte (PhaseConcurrency c) 0 &&
  gte 256 (PhaseConcurrency c) && f_gte (ClaimWritePerSec c) 0 && gte (ClaimWriteBurst c) 0 &&
  f_gte (ClaimWriteClusterRate c) 0.

Definition alert_rules (c : DegradedAlertConfig) : bool :=
  gt (InfoThreshold c) 0 && gt (WarnThreshold c) 0 && gte (WarnThreshold c) (InfoThreshold c) &&
  gt (ErrorThreshold c) 0 && gte (ErrorThreshold c) (WarnThreshold c) && gt (CriticalThreshold c) 0 &&
  gte (CriticalThreshold c) (ErrorThreshold c) && gt (AlertInterval c) 0.

Definition behavior_rules (c : DegradedBehaviorConfig) : bool :=
  gte (EnterThreshold c) 0 && gte (ExitThreshold c) 0 && gte (KVErrorThreshold c) 0 && gte (KVErrorWindow c) 0 &&
  gte (RecoveryGracePeriod c) 0.

Definition tag_rules (c : Config) : bool :=
  required (WorkerIDPrefix c) && bool_decide (UnlabeledPartitionPolicy c ∈ ["dedicated"; "shared"]) &&
  gte (LabelSpillGrace c) 0 && gte (WorkerIDMin c) 0 && gte (WorkerIDMax c) (WorkerIDMin c) &&
  gt (WorkerIDTTL c) 0 && gte (WorkerIDTTL c) (HeartbeatTTL c) && gt (HeartbeatInterval c) 0 &&
  gt (HeartbeatTTL c) 0 && gt (ColdStartWindow c) 0 && gte (ColdStartWindow c) (PlannedScaleWindow c) &&
  gt (PlannedScaleWindow c) 0 && gte (HeartbeatTTL c) (EmergencyGracePeriod c) &&
  f_gte (RestartDetectionRatio c) 0 && f_lte (RestartDetectionRatio c) 1 && gt (OperationTimeout c) 0 &&
  gt (BucketEpochProbeInterval c) 0 && gt (ElectionTimeout c) 0 && gt (StartupTimeout c) 0 &&
  gt (ShutdownTimeout c) 0 && gt (RebalanceCooldown c) 0 && gte (PlannedScaleWindow c) (RebalanceCooldown c) &&
  kv_rules (KVBuckets c) && alert_rules (DegradedAlert c) && behavior_rules (DegradedBehavior c) &&
  handoff_rules (Handoff c) && gte (ApplyStartJitter c) 0 && gte (AssignmentWatcherDebounce c) 0.

(** fuda and validator. *)
Class TagLibrary := {
  fuda_SetDefaults : Config -> Config;
  validate_Struct : Config -> bool;
  fuda_tags c : fuda_SetDefaults c = tag_defaults c;
  validate_tags c : validate_Struct c = tag_rules c;
}.

Definition minWorkerIDTTL : Z := 300 * millisecond.

Inductive config_err :=
| ErrTags
| ErrHeartbeatTTL | ErrWorkerIDTTL | ErrWorkerIDTTLFloor
| ErrHandoffBucket | ErrHandoffTTL | ErrClaimWriteBurst | ErrClaimWriteClusterRate
| ErrApplyStartJitter | ErrAssignmentWatcherDebounce
| ErrEmptyLabel | ErrWorkerLabel (e : part_err) | ErrTooManyLabels (n : nat).

(** The loop of [normalizeWorkerLabels]; [out] is what has been kept. *)
Fixpoint collect_labels (labels out : list string) : res config_err (list string) :=
  match labels with
  | [] => Ok out
  | l :: labels =>
      if decide (l = "") then Err ErrEmptyLabel
      else
        match ValidateLabel l with
        | Some e => Err (ErrWorkerLabel e)
        | None => if decide (l ∈ out) then collect_labels labels out else collect_labels labels (out ++ [l])
        end
  end.

Definition normalizeWorkerLabels (labels : list string) : res config_err (list string) :=
  match labels with
  | [] => Ok []
  | _ =>
      out ← collect_labels labels [];
      let out := sort_strings out in
      if decide (16 < length out) then Err (ErrTooManyLabels (length out)) else Ok out
  end.

Definition set_labels (labels : list string) (c : Config) : Config :=
  mkConfig (WorkerIDPrefix c) labels (UnlabeledPartitionPolicy c) (LabelSpillGrace c) (WorkerIDMin c)
    (WorkerIDMax c) (WorkerIDTTL c) (HeartbeatInterval c) (HeartbeatTTL c) (ColdStartWindow c)
    (PlannedScaleWindow c) (EmergencyGracePeriod c) (RestartDetectionRatio c) (OperationTimeout c)
    (BucketEpochProbeInterval c) (ElectionTimeout c) (StartupTimeout c) (ShutdownTimeout c)
    (RebalanceCooldown c) (KVBuckets c) (DegradedAlert c) (DegradedBehavior c) (EnableTwoPhaseHandoff c)
    (Handoff c) (ApplyStartJitter c) (AssignmentWatcherDebounce c).

Definition set_grace (d : Z) (c : Config) : Config :=
  mkConfig (WorkerIDPrefix c) (WorkerLabels c) (UnlabeledPartitionPolicy c) (LabelSpillGrace c) (WorkerIDMin c)
    (WorkerIDMax c) (WorkerIDTTL c) (HeartbeatInterval c) (HeartbeatTTL c) (ColdStartWindow c)
    (PlannedScaleWindow c) d (RestartDetectionRatio c) (OperationTimeout c)
    (BucketEpochProbeInterval c) (ElectionTimeout c) (StartupTimeout c) (ShutdownTimeout c)
    (RebalanceCooldown c) (KVBuckets c) (DegradedAlert c) (DegradedBehavior c) (EnableTwoPhaseHandoff c)
    (Handoff c) (ApplyStartJitter c) (AssignmentWatcherDebounce c).

Section config.
Context `{TagLibrary} (float_to_int : float64 -> Z).

Definition SetDefaults (c : Config) : Config :=
  let c := fuda_SetDefaults c in
  if decide (EmergencyGracePeriod c = 0%Z) then
    set_grace (f64_to_int64 float_to_int (f64_mul (f64_of_Z (HeartbeatInterval c)) (f64_const 15 10))) c
  else c.

Definition DefaultConfig : Config := SetDefaults zero_config.

(** The checks of [Validate] in the order of the code. *)
Definition validate_rules (c : Config) : option config_err :=
  if negb (validate_Struct c) then Some ErrTags
  else if decide (HeartbeatTTL c < wrap64 (2 * HeartbeatInterval c))%Z then Some ErrHeartbeatTTL
  else if decide (WorkerIDTTL c < wrap64 (3 * HeartbeatInterval c))%Z then Some ErrWorkerIDTTL
  else if decide (WorkerIDTTL c < minWorkerIDTTL)%Z then Some ErrWorkerIDTTLFloor
  else if EnableTwoPhaseHandoff c && bool_decide (HandoffBucket (KVBuckets c) = "") then Some ErrHandoffBucket
  else if EnableTwoPhaseHandoff c && bool_decide (HandoffTTL (KVBuckets c) <= 0)%Z then Some ErrHandoffTTL
  else if f64_ltb (f64_of_Z 0) (ClaimWritePerSec (Handoff c)) && bool_decide (ClaimWriteBurst (Handoff c) < 1)%Z
  then Some ErrClaimWriteBurst
  else if f64_ltb (f64_of_Z 0) (ClaimWriteClusterRate (Handoff c)) &&
          f64_leb (ClaimWritePerSec (Handoff c)) (f64_of_Z 0)
  then Some ErrClaimWriteClusterRate
  else if decide (ApplyStartJitter c < 0)%Z then Some ErrApplyStartJitter
  else if decide (10 * second < ApplyStartJitter c)%Z then Some ErrApplyStartJitter
  else if decide (AssignmentWatcherDebounce c < 0)%Z then Some ErrAssignmentWatcherDebounce
  else if decide (second < AssignmentWatcherDebounce c)%Z then Some ErrAssignmentWatcherDebounce
  else None.

(** The worker labels are stored back in canonical form. *)
Definition Validate (c : Config) : res config_err Config :=
  match validate_rules c with
  | Some e => Err e
  | None => labels ← normalizeWorkerLabels (WorkerLabels c); Ok (set_labels labels c)
  end.

Inductive warning :=
| WarnWorkerIDTTL | WarnRebalanceCooldown | WarnExitThreshold | WarnEmergencyGrace | WarnRecoveryGrace
| WarnStartupTimeout | WarnClaimWritePerSec | WarnClaimWriteClusterRate.

Definition ValidateWithWarnings (c : Config) : list warning :=
  (if decide (WorkerIDTTL c < wrap64 (2 * HeartbeatTTL c))%Z then [WarnWorkerIDTTL] else []) ++
  (if decide (RebalanceCooldown c < 5 * second)%Z then [WarnRebalanceCooldown] else []) ++
  (if decide (EnterThreshold (DegradedBehavior c) < ExitThreshold (DegradedBehavior c))%Z
   then [WarnExitThreshold] else []) ++
  (if decide (0 < HeartbeatTTL c /\ HeartbeatTTL c ÷ 2 < EmergencyGracePeriod c)%Z
   then [WarnEmergencyGrace] else []) ++
  (if decide (RecoveryGracePeriod (DegradedBehavior c) < 5 * second)%Z then [WarnRecoveryGrace] else []) ++
  (if decide (StartupTimeout c < wrap64 (wrap64 (ColdStartWindow c + ElectionTimeout c) + 5 * second))%Z
   then [WarnStartupTimeout] else []) ++
  (if negb (EnableTwoPhaseHandoff c) && f64_ltb (f64_of_Z 0) (ClaimWritePerSec (Handoff c))
   then [WarnClaimWritePerSec] else []) ++
  (if negb (EnableTwoPhaseHandoff c) && f64_ltb (f64_of_Z 0) (ClaimWriteClusterRate (Handoff c))
   then [WarnClaimWriteClusterRate] else []).
End config.

Inductive preset_err := ErrInvalidPreset.

Definition defaultDegradedBehaviorConfig : DegradedBehaviorConfig := behavior_defaults zero_behavior.

Definition DegradedBehaviorPreset (preset : string) : res preset_err DegradedBehaviorConfig :=
  if decide (preset = "conservative") then
    Ok (mkDegradedBehaviorConfig (30 * second) (10 * second) 10 (30 * second) (20 * second))
  else if decide (preset = "balanced") then Ok defaultDegradedBehaviorConfig
  else if decide (preset = "aggressive") then
    Ok (mkDegradedBehaviorConfig (5 * second) (3 * second) 3 (15 * second) (10 * second))
  else Err ErrInvalidPreset.

(** ** Labels *)

Definition label_ok (l : string) : Prop := l <> "" /\ ValidateLabel l = None.

Definition canonical_labels (ls : list string) : Prop :=
  StronglySorted String.le ls /\ NoDup ls /\ length ls <= 16 /\ Forall label_ok ls.

Lemma collect_labels_ok labels out out' :
  collect_labels labels out = Ok out' -> NoDup out -> Forall label_ok out ->
  NoDup out' /\ Forall label_ok out' /\ forall x, x ∈ out' <-> x ∈ labels \/ x ∈ out.
Proof.
  revert out. induction labels as [|l labels IH]; cbn; intros out E N F.
  { injection E as <-. split_and!; [done..|]. set_solver. }
  case_decide as L; [done|]. destruct (ValidateLabel l) eqn:V; [done|]. case_decide as I.
  - destruct (IH _ E N F) as (? & ? & X). split_and!; [done..|]. intros x. rewrite X. set_solver.
  - destruct (IH _ E) as (? & ? & X).
    + apply NoDup_app. split_and!; [done| |apply NoDup_singleton]. set_solver.
    + apply Forall_app. split; [done|]. by apply Forall_singleton.
    + split_and!; [done..|]. intros x. rewrite X. set_solver.
Qed.

Lemma collect_labels_id labels out :
  NoDup (out ++ labels) -> Forall label_ok labels -> collect_labels labels out = Ok (out ++ labels).
Proof.
  revert out. induction labels as [|l labels IH]; cbn; intros out N F; [by rewrite app_nil_r|].
  apply Forall_cons in F as [[L V] F]. rewrite decide_False, V by done.
  rewrite decide_False; [rewrite (IH (out ++ [l])); [by rewrite <- app_assoc|by rewrite <- app_assoc|done]|].
  apply NoDup_app in N as (_ & N & _). intros I. apply (N l I). set_solver.
Qed.

Lemma normalize_canonical labels out :
  normalizeWorkerLabels labels = Ok out -> canonical_labels out /\ forall x, x ∈ out <-> x ∈ labels.
Proof.
  destruct labels as [|l labels]; cbn [normalizeWorkerLabels].
  { intros [= <-]. split; [|done]. repeat split; [constructor..|cbn; lia|constructor]. }
  intros (ls & E & D)%res_bind_Ok. destruct (collect_labels_ok _ _ _ E) as (N & F & X); [constructor..|].
  case_decide; [done|]. simplify_eq. split.
  - split_and!; [apply sort_strings_ssorted|by rewrite sort_strings_perm|lia|by rewrite sort_strings_perm].
  - intros y. rewrite elem_of_sort_strings, X. set_solver.
Qed.

Lemma normalize_id ls : canonical_labels ls -> normalizeWorkerLabels ls = Ok ls.
Proof.
  intros (S & N & L & F). destruct ls as [|l ls]; [done|]. unfold normalizeWorkerLabels.
  rewrite collect_labels_id by done. cbn [app].
  assert (sort_strings (l :: ls) = l :: ls) as E.
  { apply sorted_NoDup_ext; [apply sort_strings_ssorted|done|by rewrite sort_strings_perm|done|].
    intros x. by rewrite elem_of_sort_strings. }
  unfold mbind, res_bind. rewrite E. by rewrite decide_False by lia.
Qed.

(** ** Well-formed configurations *)

Record well_formed (c : Config) : Prop := {
  wf_heartbeat : (0 < HeartbeatInterval c /\ 2 * HeartbeatInterval c <= HeartbeatTTL c)%Z;
  wf_ttl : (HeartbeatTTL c <= WorkerIDTTL c /\ 3 * HeartbeatInterval c <= WorkerIDTTL c)%Z;
  wf_grace : (EmergencyGracePeriod c <= HeartbeatTTL c)%Z;
  wf_windows : (0 < RebalanceCooldown c <= PlannedScaleWindow c /\ PlannedScaleWindow c <= ColdStartWindow c)%Z;
  wf_ids : (0 <= WorkerIDMin c <= WorkerIDMax c)%Z;
  (* the claimer renews an ID three times before its key can expire, and calls it
     stale no later *)
  wf_renewal prefix : let cl := mkClaimerConfig prefix (WorkerIDMin c) (WorkerIDMax c) (WorkerIDTTL c) in
    (3 * renewInterval cl <= WorkerIDTTL c /\ staleThreshold cl <= WorkerIDTTL c)%Z;
  wf_alerts : (0 < InfoThreshold (DegradedAlert c) <= WarnThreshold (DegradedAlert c) /\
    WarnThreshold (DegradedAlert c) <= ErrorThreshold (DegradedAlert c) <= CriticalThreshold (DegradedAlert c))%Z;
  wf_handoff : (0 <= BaseBackoff (Handoff c) <= MaxBackoff (Handoff c))%Z;
  wf_two_phase : EnableTwoPhaseHandoff c = true ->
    HandoffBucket (KVBuckets c) <> "" /\ (0 < HandoffTTL (KVBuckets c))%Z;
  wf_limits : (0 <= ApplyStartJitter c <= 10 * second /\ 0 <= AssignmentWatcherDebounce c <= second)%Z;
  wf_labels : canonical_labels (WorkerLabels c);
}.

Section theorems.
Context `{TagLibrary} (float_to_int : float64 -> Z).

Ltac rules E :=
  repeat match type of E with
  | (if decide ?P then Some _ else _) = None => destruct (decide P); [done|]
  | (if ?b then Some _ else _) = None => let B := fresh "B" in destruct b eqn:B; [done|]
  end.

Lemma rules_well_formed c :
  validate_rules c = None -> (HeartbeatInterval c <= 2 ^ 61)%Z -> canonical_labels (WorkerLabels c) -> well_formed c.
Proof.
  unfold validate_rules. rewrite validate_tags. intros E Hi L. rules E. clear E.
  apply negb_false_iff in B. unfold tag_rules, alert_rules, handoff_rules, gt, gte in B.
  rewrite !andb_true_iff, !bool_decide_eq_true in B. destruct_and! B. unfold minWorkerIDTTL, millisecond in *.
  rewrite wrap64_id in * by lia. split; try done; try lia.
  - intros prefix cl. unfold cl, staleThreshold, renewInterval, minRenewInterval. cbn [cl_ttl].
    pose proof (Z.mul_quot_le (WorkerIDTTL c) 3). lia.
  - intros T. rewrite T in *. cbn [andb] in *.
    repeat match goal with B : bool_decide _ = false |- _ => apply bool_decide_eq_false in B end. split; [done|lia].
Qed.

Lemma default_accepted :
  Validate (DefaultConfig float_to_int) = Ok (DefaultConfig float_to_int) /\
  ValidateWithWarnings (DefaultConfig float_to_int) = [].
Proof.
  unfold Validate, validate_rules, DefaultConfig, SetDefaults. rewrite validate_tags, fuda_tags. by vm_compute.
Qed.

(** A configuration that [Validate] accepts is well formed. Heartbeats,
    identity leases, windows, thresholds, retry delays and limits are ordered as
    the components that use them need them; in particular the identity claimer
    renews three times within the TTL of its key. The worker labels come out
    valid, sorted, without duplicates and at most sixteen, with the same set as
    given; nothing else is changed; and what was accepted is accepted again
    unchanged. The default configuration is accepted as it is, without a warning. *)
Theorem validated_config_well_formed c c' :
  Validate c = Ok c' -> (HeartbeatInterval c <= 2 ^ 61)%Z ->
  (well_formed c' /\ c' = set_labels (WorkerLabels c') c /\
   (forall l, l ∈ WorkerLabels c' <-> l ∈ WorkerLabels c) /\ Validate c' = Ok c') /\
  Validate (DefaultConfig float_to_int) = Ok (DefaultConfig float_to_int) /\
  ValidateWithWarnings (DefaultConfig float_to_int) = [].
Proof.
  intros E Hi. split; [|apply default_accepted]. unfold Validate in E. destruct (validate_rules c) eqn:R; [done|].
  apply res_bind_Ok in E as (ls & N & [= <-]). destruct (normalize_canonical _ _ N) as [Ca X].
  assert (validate_rules (set_labels ls c) = None) as R' by (unfold validate_rules in *; by rewrite validate_tags in *).
  split_and!; [by apply rules_well_formed|done|done|].
  unfold Validate. rewrite R'. cbn [WorkerLabels set_labels]. by rewrite (normalize_id _ Ca).
Qed.
End theorems.

(** The libraries, taken at their word. *)
#[local] Instance tags : TagLibrary := {|
  fuda_SetDefaults := tag_defaults; validate_Struct := tag_rules;
  fuda_tags := λ _, eq_refl; validate_tags := λ _, eq_refl;
|}.

(** Labels given twice and out of order. *)
Definition demo_config : Config := set_labels ["gpu"; "a"; "gpu"] (DefaultConfig (λ _, 0%Z)).

Lemma validated_config_well_formed_witness :
  Validate demo_config = Ok (set_labels ["a"; "gpu"] demo_config) /\ well_formed (set_labels ["a"; "gpu"] demo_config).
Proof.
  assert (Validate demo_config = Ok (set_labels ["a"; "gpu"] demo_config)) as V by (vm_compute; reflexivity).
  exact (conj V (proj1 (proj1 (@validated_config_well_formed tags (λ _, 0%Z) demo_config
    (set_labels ["a"; "gpu"] demo_config) V ltac:(vm_compute; discriminate))))).
Defined.
