(* ===== verification/Rebalance.v ===== *)
(** * The leader's rebalance (internal/assignment/calculator.go)

    Polls of the worker set, the partition monitor, the label re-check monitor,
    the scaling timer, manual refreshes and startup all end in [rebalance], which
    one goroutine runs at a time. They share counters, caches and sticky flags
    under other locks, so every goroutine is a program counter and [exec] is one
    atomic action. The environment answers for the heartbeat scan, the partition
    source, the label pipeline (modelled in [LabelPipeline]), the publisher
    (modelled in [Publisher]) and the claims of the state machine (modelled in
    [CalcFSM]), here in any order. Metrics and logs are left out. *)
From S2P Require Import Prelude Nats Partition Wire Emergency.

(** ** Configuration and state *)

Record Config := mkCalcConfig {
  WorkerShrinkConfirmationCount : Z;
  WorkerShrinkConfirmationThresholdPct : Z;
  PartitionShrinkConfirmationCount : Z;
  PartitionShrinkConfirmationThresholdPct : Z;
  EnumerationFailureThreshold : Z;
  Cooldown : Z;
}.

Inductive rb_err :=
| errShuttingDown
| errSuspiciousPartitionObservation
| errSuspiciousWorkerObservation
| errLabelObservationDeferred
| errFailed.

#[export] Instance rb_err_eq_dec : EqDecision rb_err.
Proof. solve_decision. Defined.

(** A batch handed to the publisher, with what the rebalance had found out:
    whether the worker list was fresh, whether deaths were confirmed and which
    workers were left out for it, the baselines it was compared with, and the
    partition counts observed until then. *)
Record batch := mkBatch {
  b_lifecycle : string;
  b_workers : list string;
  b_partitions : list Partition;
  b_fresh : bool;
  b_deaths : bool;
  b_dead : list string;
  b_lastKnownWorkers : Z;
  b_lastKnownPartitions : Z;
  b_observed : list (Z * Z);
}.

(** How a rebalance that did not publish ended: with an error, or because there
    were no workers. *)
Inductive ending := EndedWith (e : rb_err) | NoWorkers.

(** [source_gen], [signals], [watch_gen] and the last four fields are not in the
    code: the generation of the partition source, the notifications of it that
    wait in the watch channel, the generation at which the watch began and whether
    its channel is open; whether the context given to [Start] has ended; the
    batches published; the generation the last commit covers, as published or as
    the replay check of a cached observation judged it;
    for rebalances of the partition monitor that ended without one, the generation
    they had seen and how they ended; and the partition counts the guard has compared with
    its baseline. [grace] is the manager's recovery grace; [confirmedDead] is the
    field [disappearedWorkers] of the calculator. *)
Record Calculator := mkCalculator {
  rebalanceMu : bool;
  pollMu : bool;
  currentWorkers : gset string;
  lastWorkers : gset string;
  confirmedDead : list string;
  cachedWorkers : option (list string);
  lastKnownPartitionCount : Z;
  partitionShrunkObservations : Z;
  lastKnownWorkerCount : Z;
  workerShrunkObservations : Z;
  enumFailures : Z;
  emergencyDetector : EmergencyDetector;
  lastCommit : option AssignmentCommit;
  lastPublishedPartitions : option (list Partition);
  lastRebalance : Z;
  pendingPartitionUpdate : bool;
  pendingLabelRecheck : bool;
  started : bool;
  stopped : bool;
  grace : bool;
  source_gen : Z;
  signals : nat;
  watch_gen : Z;
  watchOpen : bool;
  ctxDone : bool;
  published : list batch;
  covered : Z;
  closed : list (Z * ending);
  observed : list (Z * Z);
}.

Definition set_rebalanceMu (v : bool) (c : Calculator) : Calculator :=
  mkCalculator v (pollMu c) (currentWorkers c) (lastWorkers c) (confirmedDead c) (cachedWorkers c)
    (lastKnownPartitionCount c) (partitionShrunkObservations c) (lastKnownWorkerCount c)
    (workerShrunkObservations c) (enumFailures c) (emergencyDetector c) (lastCommit c)
    (lastPublishedPartitions c) (lastRebalance c) (pendingPartitionUpdate c) (pendingLabelRecheck c) (started c)
    (stopped c) (grace c) (source_gen c) (signals c) (watch_gen c) (watchOpen c) (ctxDone c) (published c) (covered c) (closed c)
    (observed c).
Definition set_pollMu (v : bool) (c : Calculator) : Calculator :=
  mkCalculator (rebalanceMu c) v (currentWorkers c) (lastWorkers c) (confirmedDead c) (cachedWorkers c)
    (lastKnownPartitionCount c) (partitionShrunkObservations c) (lastKnownWorkerCount c)
    (workerShrunkObservations c) (enumFailures c) (emergencyDetector c) (lastCommit c)
    (lastPublishedPartitions c) (lastRebalance c) (pendingPartitionUpdate c) (pendingLabelRecheck c) (started c)
    (stopped c) (grace c) (source_gen c) (signals c) (watch_gen c) (watchOpen c) (ctxDone c) (published c) (covered c) (closed c)
    (observed c).
Definition set_currentWorkers (v : gset string) (c : Calculator) : Calculator :=
  mkCalculator (rebalanceMu c) (pollMu c) v (lastWorkers c) (confirmedDead c) (cachedWorkers c)
    (lastKnownPartitionCount c) (partitionShrunkObservations c) (lastKnownWorkerCount c)
    (workerShrunkObservations c) (enumFailures c) (emergencyDetector c) (lastCommit c)
    (lastPublishedPartitions c) (lastRebalance c) (pendingPartitionUpdate c) (pendingLabelRecheck c) (started c)
    (stopped c) (grace c) (source_gen c) (signals c) (watch_gen c) (watchOpen c) (ctxDone c) (published c) (covered c) (closed c)
    (observed c).
Definition set_lastWorkers (v : gset string) (c : Calculator) : Calculator :=
  mkCalculator (rebalanceMu c) (pollMu c) (currentWorkers c) v (confirmedDead c) (cachedWorkers c)
    (lastKnownPartitionCount c) (partitionShrunkObservations c) (lastKnownWorkerCount c)
    (workerShrunkObservations c) (enumFailures c) (emergencyDetector c) (lastCommit c)
    (lastPublishedPartitions c) (lastRebalance c) (pendingPartitionUpdate c) (pendingLabelRecheck c) (started c)
    (stopped c) (grace c) (source_gen c) (signals c) (watch_gen c) (watchOpen c) (ctxDone c) (published c) (covered c) (closed c)
    (observed c).
Definition set_confirmedDead (v : list string) (c : Calculator) : Calculator :=
  mkCalculator (rebalanceMu c) (pollMu c) (currentWorkers c) (lastWorkers c) v (cachedWorkers c)
    (lastKnownPartitionCount c) (partitionShrunkObservations c) (lastKnownWorkerCount c)
    (workerShrunkObservations c) (enumFailures c) (emergencyDetector c) (lastCommit c)
    (lastPublishedPartitions c) (lastRebalance c) (pendingPartitionUpdate c) (pendingLabelRecheck c) (started c)
    (stopped c) (grace c) (source_gen c) (signals c) (watch_gen c) (watchOpen c) (ctxDone c) (published c) (covered c) (closed c)
    (observed c).
Definition set_cachedWorkers (v : option (list string)) (c : Calculator) : Calculator :=
  mkCalculator (rebalanceMu c) (pollMu c) (currentWorkers c) (lastWorkers c) (confirmedDead c) v
    (lastKnownPartitionCount c) (partitionShrunkObservations c) (lastKnownWorkerCount c)
    (workerShrunkObservations c) (enumFailures c) (emergencyDetector c) (lastCommit c)
    (lastPublishedPartitions c) (lastRebalance c) (pendingPartitionUpdate c) (pendingLabelRecheck c) (started c)
    (stopped c) (grace c) (source_gen c) (signals c) (watch_gen c) (watchOpen c) (ctxDone c) (published c) (covered c) (closed c)
    (observed c).
Definition set_lastKnownPartitionCount (v : Z) (c : Calculator) : Calculator :=
  mkCalculator (rebalanceMu c) (pollMu c) (currentWorkers c) (lastWorkers c) (confirmedDead c) (cachedWorkers c)
    v (partitionShrunkObservations c) (lastKnownWorkerCount c) (workerShrunkObservations c) (enumFailures c)
    (emergencyDetector c) (lastCommit c) (lastPublishedPartitions c) (lastRebalance c)
    (pendingPartitionUpdate c) (pendingLabelRecheck c) (started c) (stopped c) (grace c) (source_gen c)
    (signals c) (watch_gen c) (watchOpen c) (ctxDone c) (published c) (covered c) (closed c) (observed c).
Definition set_partitionShrunkObservations (v : Z) (c : Calculator) : Calculator :=
  mkCalculator (rebalanceMu c) (pollMu c) (currentWorkers c) (lastWorkers c) (confirmedDead c) (cachedWorkers c)
    (lastKnownPartitionCount c) v (lastKnownWorkerCount c) (workerShrunkObservations c) (enumFailures c)
    (emergencyDetector c) (lastCommit c) (lastPublishedPartitions c) (lastRebalance c)
    (pendingPartitionUpdate c) (pendingLabelRecheck c) (started c) (stopped c) (grace c) (source_gen c)
    (signals c) (watch_gen c) (watchOpen c) (ctxDone c) (published c) (covered c) (closed c) (observed c).
Definition set_lastKnownWorkerCount (v : Z) (c : Calculator) : Calculator :=
  mkCalculator (rebalanceMu c) (pollMu c) (currentWorkers c) (lastWorkers c) (confirmedDead c) (cachedWorkers c)
    (lastKnownPartitionCount c) (partitionShrunkObservations c) v (workerShrunkObservations c) (enumFailures c)
    (emergencyDetector c) (lastCommit c) (lastPublishedPartitions c) (lastRebalance c)
    (pendingPartitionUpdate c) (pendingLabelRecheck c) (started c) (stopped c) (grace c) (source_gen c)
    (signals c) (watch_gen c) (watchOpen c) (ctxDone c) (published c) (covered c) (closed c) (observed c).
Definition set_workerShrunkObservations (v : Z) (c : Calculator) : Calculator :=
  mkCalculator (rebalanceMu c) (pollMu c) (currentWorkers c) (lastWorkers c) (confirmedDead c) (cachedWorkers c)
    (lastKnownPartitionCount c) (partitionShrunkObservations c) (lastKnownWorkerCount c) v (enumFailures c)
    (emergencyDetector c) (lastCommit c) (lastPublishedPartitions c) (lastRebalance c)
    (pendingPartitionUpdate c) (pendingLabelRecheck c) (started c) (stopped c) (grace c) (source_gen c)
    (signals c) (watch_gen c) (watchOpen c) (ctxDone c) (published c) (covered c) (closed c) (observed c).
Definition set_enumFailures (v : Z) (c : Calculator) : Calculator :=
  mkCalculator (rebalanceMu c) (pollMu c) (currentWorkers c) (lastWorkers c) (confirmedDead c) (cachedWorkers c)
    (lastKnownPartitionCount c) (partitionShrunkObservations c) (lastKnownWorkerCount c)
    (workerShrunkObservations c) v (emergencyDetector c) (lastCommit c) (lastPublishedPartitions c)
    (lastRebalance c) (pendingPartitionUpdate c) (pendingLabelRecheck c) (started c) (stopped c) (grace c)
    (source_gen c) (signals c) (watch_gen c) (watchOpen c) (ctxDone c) (published c) (covered c) (closed c) (observed c).
Definition set_emergencyDetector (v : EmergencyDetector) (c : Calculator) : Calculator :=
  mkCalculator (rebalanceMu c) (pollMu c) (currentWorkers c) (lastWorkers c) (confirmedDead c) (cachedWorkers c)
    (lastKnownPartitionCount c) (partitionShrunkObservations c) (lastKnownWorkerCount c)
    (workerShrunkObservations c) (enumFailures c) v (lastCommit c) (lastPublishedPartitions c) (lastRebalance c)
    (pendingPartitionUpdate c) (pendingLabelRecheck c) (started c) (stopped c) (grace c) (source_gen c)
    (signals c) (watch_gen c) (watchOpen c) (ctxDone c) (published c) (covered c) (closed c) (observed c).
Definition set_lastCommit (v : option AssignmentCommit) (c : Calculator) : Calculator :=
  mkCalculator (rebalanceMu c) (pollMu c) (currentWorkers c) (lastWorkers c) (confirmedDead c) (cachedWorkers c)
    (lastKnownPartitionCount c) (partitionShrunkObservations c) (lastKnownWorkerCount c)
    (workerShrunkObservations c) (enumFailures c) (emergencyDetector c) v (lastPublishedPartitions c)
    (lastRebalance c) (pendingPartitionUpdate c) (pendingLabelRecheck c) (started c) (stopped c) (grace c)
    (source_gen c) (signals c) (watch_gen c) (watchOpen c) (ctxDone c) (published c) (covered c) (closed c) (observed c).
Definition set_lastPublishedPartitions (v : option (list Partition)) (c : Calculator) : Calculator :=
  mkCalculator (rebalanceMu c) (pollMu c) (currentWorkers c) (lastWorkers c) (confirmedDead c) (cachedWorkers c)
    (lastKnownPartitionCount c) (partitionShrunkObservations c) (lastKnownWorkerCount c)
    (workerShrunkObservations c) (enumFailures c) (emergencyDetector c) (lastCommit c) v (lastRebalance c)
    (pendingPartitionUpdate c) (pendingLabelRecheck c) (started c) (stopped c) (grace c) (source_gen c)
    (signals c) (watch_gen c) (watchOpen c) (ctxDone c) (published c) (covered c) (closed c) (observed c).
Definition set_lastRebalance (v : Z) (c : Calculator) : Calculator :=
  mkCalculator (rebalanceMu c) (pollMu c) (currentWorkers c) (lastWorkers c) (confirmedDead c) (cachedWorkers c)
    (lastKnownPartitionCount c) (partitionShrunkObservations c) (lastKnownWorkerCount c)
    (workerShrunkObservations c) (enumFailures c) (emergencyDetector c) (lastCommit c)
    (lastPublishedPartitions c) v (pendingPartitionUpdate c) (pendingLabelRecheck c) (started c) (stopped c)
    (grace c) (source_gen c) (signals c) (watch_gen c) (watchOpen c) (ctxDone c) (published c) (covered c) (closed c) (observed c).
Definition set_pendingPartitionUpdate (v : bool) (c : Calculator) : Calculator :=
  mkCalculator (rebalanceMu c) (pollMu c) (currentWorkers c) (lastWorkers c) (confirmedDead c) (cachedWorkers c)
    (lastKnownPartitionCount c) (partitionShrunkObservations c) (lastKnownWorkerCount c)
    (workerShrunkObservations c) (enumFailures c) (emergencyDetector c) (lastCommit c)
    (lastPublishedPartitions c) (lastRebalance c) v (pendingLabelRecheck c) (started c) (stopped c) (grace c)
    (source_gen c) (signals c) (watch_gen c) (watchOpen c) (ctxDone c) (published c) (covered c) (closed c) (observed c).
Definition set_pendingLabelRecheck (v : bool) (c : Calculator) : Calculator :=
  mkCalculator (rebalanceMu c) (pollMu c) (currentWorkers c) (lastWorkers c) (confirmedDead c) (cachedWorkers c)
    (lastKnownPartitionCount c) (partitionShrunkObservations c) (lastKnownWorkerCount c)
    (workerShrunkObservations c) (enumFailures c) (emergencyDetector c) (lastCommit c)
    (lastPublishedPartitions c) (lastRebalance c) (pendingPartitionUpdate c) v (started c) (stopped c) (grace c)
    (source_gen c) (signals c) (watch_gen c) (watchOpen c) (ctxDone c) (published c) (covered c) (closed c) (observed c).
Definition set_started (v : bool) (c : Calculator) : Calculator :=
  mkCalculator (rebalanceMu c) (pollMu c) (currentWorkers c) (lastWorkers c) (confirmedDead c) (cachedWorkers c)
    (lastKnownPartitionCount c) (partitionShrunkObservations c) (lastKnownWorkerCount c)
    (workerShrunkObservations c) (enumFailures c) (emergencyDetector c) (lastCommit c)
    (lastPublishedPartitions c) (lastRebalance c) (pendingPartitionUpdate c) (pendingLabelRecheck c) v
    (stopped c) (grace c) (source_gen c) (signals c) (watch_gen c) (watchOpen c) (ctxDone c) (published c) (covered c) (closed c)
    (observed c).
Definition set_stopped (v : bool) (c : Calculator) : Calculator :=
  mkCalculator (rebalanceMu c) (pollMu c) (currentWorkers c) (lastWorkers c) (confirmedDead c) (cachedWorkers c)
    (lastKnownPartitionCount c) (partitionShrunkObservations c) (lastKnownWorkerCount c)
    (workerShrunkObservations c) (enumFailures c) (emergencyDetector c) (lastCommit c)
    (lastPublishedPartitions c) (lastRebalance c) (pendingPartitionUpdate c) (pendingLabelRecheck c) (started c)
    v (grace c) (source_gen c) (signals c) (watch_gen c) (watchOpen c) (ctxDone c) (published c) (covered c) (closed c) (observed c).
Definition set_grace (v : bool) (c : Calculator) : Calculator :=
  mkCalculator (rebalanceMu c) (pollMu c) (currentWorkers c) (lastWorkers c) (confirmedDead c) (cachedWorkers c)
    (lastKnownPartitionCount c) (partitionShrunkObservations c) (lastKnownWorkerCount c)
    (workerShrunkObservations c) (enumFailures c) (emergencyDetector c) (lastCommit c)
    (lastPublishedPartitions c) (lastRebalance c) (pendingPartitionUpdate c) (pendingLabelRecheck c) (started c)
    (stopped c) v (source_gen c) (signals c) (watch_gen c) (watchOpen c) (ctxDone c) (published c) (covered c) (closed c) (observed c).
Definition set_source_gen (v : Z) (c : Calculator) : Calculator :=
  mkCalculator (rebalanceMu c) (pollMu c) (currentWorkers c) (lastWorkers c) (confirmedDead c) (cachedWorkers c)
    (lastKnownPartitionCount c) (partitionShrunkObservations c) (lastKnownWorkerCount c)
    (workerShrunkObservations c) (enumFailures c) (emergencyDetector c) (lastCommit c)
    (lastPublishedPartitions c) (lastRebalance c) (pendingPartitionUpdate c) (pendingLabelRecheck c) (started c)
    (stopped c) (grace c) v (signals c) (watch_gen c) (watchOpen c) (ctxDone c) (published c) (covered c) (closed c) (observed c).
Definition set_signals (v : nat) (c : Calculator) : Calculator :=
  mkCalculator (rebalanceMu c) (pollMu c) (currentWorkers c) (lastWorkers c) (confirmedDead c) (cachedWorkers c)
    (lastKnownPartitionCount c) (partitionShrunkObservations c) (lastKnownWorkerCount c)
    (workerShrunkObservations c) (enumFailures c) (emergencyDetector c) (lastCommit c)
    (lastPublishedPartitions c) (lastRebalance c) (pendingPartitionUpdate c) (pendingLabelRecheck c) (started c)
    (stopped c) (grace c) (source_gen c) v (watch_gen c) (watchOpen c) (ctxDone c) (published c) (covered c) (closed c) (observed c).
Definition set_watch_gen (v : Z) (c : Calculator) : Calculator :=
  mkCalculator (rebalanceMu c) (pollMu c) (currentWorkers c) (lastWorkers c) (confirmedDead c) (cachedWorkers c)
    (lastKnownPartitionCount c) (partitionShrunkObservations c) (lastKnownWorkerCount c)
    (workerShrunkObservations c) (enumFailures c) (emergencyDetector c) (lastCommit c)
    (lastPublishedPartitions c) (lastRebalance c) (pendingPartitionUpdate c) (pendingLabelRecheck c) (started c)
    (stopped c) (grace c) (source_gen c) (signals c) v (watchOpen c) (ctxDone c) (published c) (covered c) (closed c) (observed c).
Definition set_watchOpen (v : bool) (c : Calculator) : Calculator :=
  mkCalculator (rebalanceMu c) (pollMu c) (currentWorkers c) (lastWorkers c) (confirmedDead c) (cachedWorkers c)
    (lastKnownPartitionCount c) (partitionShrunkObservations c) (lastKnownWorkerCount c)
    (workerShrunkObservations c) (enumFailures c) (emergencyDetector c) (lastCommit c)
    (lastPublishedPartitions c) (lastRebalance c) (pendingPartitionUpdate c) (pendingLabelRecheck c) (started c)
    (stopped c) (grace c) (source_gen c) (signals c) (watch_gen c) v (ctxDone c) (published c) (covered c) (closed c)
    (observed c).
Definition set_ctxDone (v : bool) (c : Calculator) : Calculator :=
  mkCalculator (rebalanceMu c) (pollMu c) (currentWorkers c) (lastWorkers c) (confirmedDead c) (cachedWorkers c)
    (lastKnownPartitionCount c) (partitionShrunkObservations c) (lastKnownWorkerCount c)
    (workerShrunkObservations c) (enumFailures c) (emergencyDetector c) (lastCommit c)
    (lastPublishedPartitions c) (lastRebalance c) (pendingPartitionUpdate c) (pendingLabelRecheck c) (started c)
    (stopped c) (grace c) (source_gen c) (signals c) (watch_gen c) (watchOpen c) v (published c) (covered c) (closed c)
    (observed c).
Definition set_published (v : list batch) (c : Calculator) : Calculator :=
  mkCalculator (rebalanceMu c) (pollMu c) (currentWorkers c) (lastWorkers c) (confirmedDead c) (cachedWorkers c)
    (lastKnownPartitionCount c) (partitionShrunkObservations c) (lastKnownWorkerCount c)
    (workerShrunkObservations c) (enumFailures c) (emergencyDetector c) (lastCommit c)
    (lastPublishedPartitions c) (lastRebalance c) (pendingPartitionUpdate c) (pendingLabelRecheck c) (started c)
    (stopped c) (grace c) (source_gen c) (signals c) (watch_gen c) (watchOpen c) (ctxDone c) v (covered c) (closed c) (observed c).
Definition set_covered (v : Z) (c : Calculator) : Calculator :=
  mkCalculator (rebalanceMu c) (pollMu c) (currentWorkers c) (lastWorkers c) (confirmedDead c) (cachedWorkers c)
    (lastKnownPartitionCount c) (partitionShrunkObservations c) (lastKnownWorkerCount c)
    (workerShrunkObservations c) (enumFailures c) (emergencyDetector c) (lastCommit c)
    (lastPublishedPartitions c) (lastRebalance c) (pendingPartitionUpdate c) (pendingLabelRecheck c) (started c)
    (stopped c) (grace c) (source_gen c) (signals c) (watch_gen c) (watchOpen c) (ctxDone c) (published c) v (closed c) (observed c).
Definition set_closed (v : list (Z * ending)) (c : Calculator) : Calculator :=
  mkCalculator (rebalanceMu c) (pollMu c) (currentWorkers c) (lastWorkers c) (confirmedDead c) (cachedWorkers c)
    (lastKnownPartitionCount c) (partitionShrunkObservations c) (lastKnownWorkerCount c)
    (workerShrunkObservations c) (enumFailures c) (emergencyDetector c) (lastCommit c)
    (lastPublishedPartitions c) (lastRebalance c) (pendingPartitionUpdate c) (pendingLabelRecheck c) (started c)
    (stopped c) (grace c) (source_gen c) (signals c) (watch_gen c) (watchOpen c) (ctxDone c) (published c) (covered c) v (observed c).
Definition set_observed (v : list (Z * Z)) (c : Calculator) : Calculator :=
  mkCalculator (rebalanceMu c) (pollMu c) (currentWorkers c) (lastWorkers c) (confirmedDead c) (cachedWorkers c)
    (lastKnownPartitionCount c) (partitionShrunkObservations c) (lastKnownWorkerCount c)
    (workerShrunkObservations c) (enumFailures c) (emergencyDetector c) (lastCommit c)
    (lastPublishedPartitions c) (lastRebalance c) (pendingPartitionUpdate c) (pendingLabelRecheck c) (started c)
    (stopped c) (grace c) (source_gen c) (signals c) (watch_gen c) (watchOpen c) (ctxDone c) (published c) (covered c) (closed c) v.

(** A new leader, with the workers that have assignment keys. *)
Definition NewCalculator (existing : gset string) (gracePeriod : Z) : Calculator :=
  mkCalculator false false existing ∅ [] None 0 0 0 0 0 (NewEmergencyDetector gracePeriod) None None 0 false false
    false false false 0 0 0 false false [] (-1) [] [].

(** ** The checks *)

Definition shrinkSuspicious (observed lastKnown thresholdPct : Z) : bool :=
  bool_decide (wrap64 (observed * 100) < wrap64 (lastKnown * thresholdPct))%Z.

Definition workerObservationSuspicious (cfg : Config) (lastKnown observed : Z) : bool :=
  if decide (lastKnown = 0%Z) then false
  else shrinkSuspicious observed lastKnown (WorkerShrinkConfirmationThresholdPct cfg).

(** Suspicious, and accepted after enough of them. *)
Definition recordWorkerObservation (cfg : Config) (observed : Z) (c : Calculator) : Calculator * (bool * bool) :=
  if workerObservationSuspicious cfg (lastKnownWorkerCount c) observed then
    let consec := (workerShrunkObservations c + 1)%Z in
    (set_workerShrunkObservations consec c, (true, bool_decide (WorkerShrinkConfirmationCount cfg <= consec)%Z))
  else (set_workerShrunkObservations 0 c, (false, false)).

Definition partitionObservationSuspicious (cfg : Config) (lastKnown observed : Z) : bool :=
  bool_decide (observed = 0%Z) || shrinkSuspicious observed lastKnown (PartitionShrinkConfirmationThresholdPct cfg).

(** True when the rebalance must be skipped. *)
Definition partitionInputCredibilityGuard (cfg : Config) (count : Z) (c : Calculator) : Calculator * bool :=
  if decide (lastKnownPartitionCount c = 0%Z) then (c, false)
  else
    let c := set_observed (observed c ++ [(lastKnownPartitionCount c, count)]) c in
    if partitionObservationSuspicious cfg (lastKnownPartitionCount c) count then
      let n := (partitionShrunkObservations c + 1)%Z in
      (set_partitionShrunkObservations n c, bool_decide (n < PartitionShrinkConfirmationCount cfg)%Z)
    else (set_partitionShrunkObservations 0 c, false).

Definition lifecyclePartitionUpdate : string := "partition_update".
Definition lifecyclePartitionUpdateDeferred : string := "partition_update_deferred".
Definition lifecycleLabelRecheck : string := "label_recheck".

Definition isPartitionLifecycle (lc : string) : bool :=
  bool_decide (lc ∈ [lifecyclePartitionUpdate; lifecyclePartitionUpdateDeferred; lifecycleLabelRecheck]).

Definition partitionsContentEqual (a b : list Partition) : bool :=
  bool_decide (length a = length b) &&
  forallb (λ xy, bool_decide (Weight xy.1 = Weight xy.2) && bool_decide (Label xy.1 = Label xy.2) &&
                 bool_decide (Keys xy.1 = Keys xy.2)) (zip a b).

Definition cachedObservationReplayable (workers : list string) (partitions : list Partition) (srcRev : Z)
    (srcKnown : bool) (c : Calculator) : bool :=
  match lastCommit c with
  | None => false
  | Some commit =>
      if decide (size (Payloads commit) <> length workers) then false
      else if negb (forallb (λ w, bool_decide (is_Some (Payloads commit !! w))) workers) then false
      else if srcKnown && SourceRevisionKnown commit && bool_decide (srcRev = SourceRevision commit) then true
      else match lastPublishedPartitions c with Some l => partitionsContentEqual partitions l | None => false end
  end.

Definition hasWorkersChangedLocked (workers : gset string) (c : Calculator) : bool :=
  if decide (size workers <> size (lastWorkers c)) then true
  else negb (bool_decide (workers ⊆ lastWorkers c)).

Definition detectRebalanceType (prev : gset string) (pending : bool) : string :=
  if pending then "" else if decide (size prev = 0) then "cold_start" else "planned_scale".

Definition wrapStopErr (e : rb_err) (c : Calculator) : rb_err := if stopped c then errShuttingDown else e.

(** ** Goroutines *)

(** Where a poll returns to: nowhere, or to the partition monitor, which runs one
    after a rebalance that ended with this error. *)
Inductive poll_k := PollDone | PollTail (e : option rb_err).

(** Who called [rebalance]: the callback of the state machine, the partition or
    label monitor, [TriggerRebalance], or [Start]. *)
Inductive caller := Callback (k : poll_k) | ByPartition | ByLabel | Manual | Initial.

(** The variables of a rebalance. [j_gen] is the generation of its snapshot. *)
Record job := mkJob {
  j_lifecycle : string;
  j_caller : caller;
  j_dead : list string;
  j_deaths : bool;
  j_workers : list string;
  j_fresh : bool;
  j_partitions : list Partition;
  j_rev : Z;
  j_known : bool;
  j_gen : option Z;
  j_lastKnownWorkers : Z;
  j_lastKnownPartitions : Z;
  j_observed : list (Z * Z);
}.

Definition new_job (lc : string) (k : caller) : job := mkJob lc k [] false [] false [] 0 false None 0 0 [].
Definition with_deaths (dead : list string) (deaths : bool) (j : job) : job :=
  mkJob (j_lifecycle j) (j_caller j) dead deaths (j_workers j) (j_fresh j) (j_partitions j) (j_rev j) (j_known j) (j_gen j)
    (j_lastKnownWorkers j) (j_lastKnownPartitions j) (j_observed j).
Definition with_workers (ws : list string) (fresh : bool) (j : job) : job :=
  mkJob (j_lifecycle j) (j_caller j) (j_dead j) (j_deaths j) ws fresh (j_partitions j) (j_rev j) (j_known j) (j_gen j)
    (j_lastKnownWorkers j) (j_lastKnownPartitions j) (j_observed j).
Definition with_source (parts : list Partition) (rev : Z) (known : bool) (gen : Z) (j : job) : job :=
  mkJob (j_lifecycle j) (j_caller j) (j_dead j) (j_deaths j) (j_workers j) (j_fresh j) parts rev known (Some gen)
    (j_lastKnownWorkers j) (j_lastKnownPartitions j) (j_observed j).
Definition with_worker_base (n : Z) (j : job) : job :=
  mkJob (j_lifecycle j) (j_caller j) (j_dead j) (j_deaths j) (j_workers j) (j_fresh j) (j_partitions j) (j_rev j)
    (j_known j) (j_gen j) n (j_lastKnownPartitions j) (j_observed j).
Definition with_partition_base (n : Z) (seen : list (Z * Z)) (j : job) : job :=
  mkJob (j_lifecycle j) (j_caller j) (j_dead j) (j_deaths j) (j_workers j) (j_fresh j) (j_partitions j) (j_rev j)
    (j_known j) (j_gen j) (j_lastKnownWorkers j) n seen.

(** Who asked for the worker list. *)
Inductive enum_k := ForPoll (k : poll_k) | ForRebalance (j : job).

Inductive thread :=
(* Start *)
| StRebalance (takeover : bool)
| StWorkers
| StMonitor
| StBootstrap
| StLaunch
(* getActiveWorkers *)
| GaScan (k : enum_k)
| GaFailure (k : enum_k)
| GaReset (ws : list string) (k : enum_k)
| GaObserve (ws : list string) (k : enum_k)
| GaStore (ws : list string) (k : enum_k)
| GaCached (e : rb_err) (k : enum_k)
(* observeAndDecide *)
| PoLock (k : poll_k)
| PoCompare (ws : list string) (fresh : bool) (k : poll_k)
| PoDetect (ws last : gset string) (changed fresh : bool) (k : poll_k)
| PoClaim (dead : list string) (k : poll_k)
| PoStoreDead (dead : list string) (k : poll_k)
| PoUnlockRun (k : poll_k)
| PoGrace (reason : string) (k : poll_k)
| PoCooldown (reason : string) (k : poll_k)
| PoScale (reason : string) (k : poll_k)
| PoUnlock (k : poll_k)
(* the scaling timer *)
| ScWait (reason : string)
(* rebalance *)
| RbLock (j : job)
| RbGrace (j : job)
| RbDeaths (j : job)
| RbAlive (j : job)
| RbSnapshot (j : job)
| RbFloor (j : job)
| RbGuard (j : job)
| RbTrust (j : job)
| RbRecheck (j : job) (e : option rb_err)
| RbDerive (j : job)
| RbPublish (j : job)
| RbTrack (j : job)
| RbUnlock (j : job) (e : option rb_err)
(* handleRebalance, TriggerRebalance *)
| HrWorkers (k : poll_k)
(* triggerPartitionRebalance, monitorPartitions *)
| TpRearm
| MpAfter (e : option rb_err)
| MpStart
| MpWait
| MpSignal
| MpGrace (deferred : bool)
| MpClear
| MpClaim (lc : string)
(* monitorLabelRecheck *)
| LmWait
| LmTake
| LmGrace
| LmClaim
| LmAfter (e : option rb_err)
| Finished.

(** What the environment answers. A scan fails on the connection or otherwise;
    the label pipeline defers, fails or routes; a publish fails because the
    leader is shutting down (the check for shutdown before the publisher is called
    included) or otherwise, and may then have adopted the commit that won; a new
    leader may read the commit of its predecessor; its source is watchable or not,
    and running or not when it is watched. *)
Inductive choice :=
| Go
| Scanned (ws : list string) | ScanFailed (connectivity : bool)
| Snapshot (parts : list Partition) (rev : Z) (known : bool) | SnapshotFailed
| Routed | Deferred | RouteFailed
| Published (t : Z) (commit : AssignmentCommit) | PublishFailed (shutdown : bool) (winner : option AssignmentCommit)
| Claimed (ok : bool)
| At (t : Z)
| Bootstrapped (commit : option AssignmentCommit)
| Launched (takeover watchable : bool) | Watched (running : bool)
| Signal | Closed | Drain | Wake.

Section exec.
Context (cfg : Config).

Definition outcome : Type := Calculator * thread * list thread.
Definition go (c : Calculator) (t : thread) : option outcome := Some (c, t, []).

Definition after_poll (k : poll_k) : thread := match k with PollDone => Finished | PollTail e => MpAfter e end.

(** [getActiveWorkersFiltered] and [collectRebalanceWorkers], or
    [collectWorkerObservation], once [getActiveWorkers] has returned. *)
Definition enumerated (ws : list string) (fresh : bool) (k : enum_k) : thread :=
  match k with
  | ForPoll k => PoCompare ws fresh k
  | ForRebalance j => RbAlive (with_workers (filter (λ w, w ∉ j_dead j) ws) fresh j)
  end.

Definition enumeration_failed (e : rb_err) (c : Calculator) (k : enum_k) : thread :=
  match k with ForPoll k => PoUnlock k | ForRebalance j => RbUnlock j (Some (wrapStopErr e c)) end.

Definition exec_enum (ch : choice) (c : Calculator) (t : thread) : option outcome :=
  match t, ch with
  | GaScan k, Scanned ws => go c (GaReset ws k)
  | GaScan k, ScanFailed true => go c (GaCached errFailed k)
  | GaScan k, ScanFailed false => go c (GaFailure k)
  | GaFailure k, Go => let c' := set_enumFailures (enumFailures c + 1) c in go c' (enumeration_failed errFailed c' k)
  | GaReset ws k, Go => go (set_enumFailures 0 c) (GaObserve ws k)
  | GaObserve ws k, Go =>
      let '(c', (suspicious, accepted)) := recordWorkerObservation cfg (Z.of_nat (length ws)) c in
      if suspicious && negb accepted then go c' (GaCached errSuspiciousWorkerObservation k)
      else if negb suspicious then go c' (GaStore ws k)
      else go c' (enumerated ws true k)
  | GaStore ws k, Go => go (set_cachedWorkers (Some ws) c) (enumerated ws true k)
  | GaCached e k, Go =>
      match cachedWorkers c with
      | Some ws => go c (enumerated ws false k)
      | None => go c (enumeration_failed e c k)
      end
  | _, _ => None
  end.

Definition exec_poll (ch : choice) (c : Calculator) (t : thread) : option outcome :=
  match t, ch with
  | PoLock k, Go => if pollMu c then None else go (set_pollMu true c) (GaScan (ForPoll k))
  | PoCompare ws fresh k, Go =>
      let ws := list_to_set ws in go c (PoDetect ws (lastWorkers c) (hasWorkersChangedLocked ws c) fresh k)
  | PoDetect ws last changed fresh k, At now =>
      let '(d, (emergency, dead, pending)) :=
        if fresh then CheckEmergency now last ws (emergencyDetector c) else (emergencyDetector c, (false, [], false)) in
      let c' := set_emergencyDetector d c in
      if negb changed || negb fresh then go c' (PoUnlock k)
      else if (emergency : bool) then go c' (PoClaim dead k)
      else
        let reason := detectRebalanceType last pending in
        if decide (reason = "") then go c' (PoUnlock k) else go c' (PoGrace reason k)
  | PoClaim dead k, Claimed ok => if ok then go c (PoStoreDead dead k) else go c (PoUnlock k)
  | PoStoreDead dead k, Go => go (set_confirmedDead dead c) (PoUnlockRun k)
  | PoUnlockRun k, Go => go (set_pollMu false c) (RbLock (new_job "emergency" (Callback k)))
  | PoGrace reason k, Go => if grace c then go c (PoUnlock k) else go c (PoCooldown reason k)
  | PoCooldown reason k, At now =>
      if decide (time_sub now (lastRebalance c) < Cooldown cfg)%Z then go c (PoUnlock k) else go c (PoScale reason k)
  | PoScale reason k, Claimed idle =>
      if idle && negb (stopped c) then Some (c, PoUnlock k, [ScWait reason]) else go c (PoUnlock k)
  | PoUnlock k, Go => go (set_pollMu false c) (after_poll k)
  | ScWait reason, Claimed ok => if ok then go c (RbLock (new_job reason (Callback PollDone))) else go c Finished
  | _, _ => None
  end.

Definition close_job (j : job) (e : ending) (c : Calculator) : Calculator :=
  match j_caller j with
  | ByPartition => set_closed (closed c ++ [(default (source_gen c) (j_gen j), e)]) c
  | _ => c
  end.

(** The callbacks of the state machine turn suppressed rebalances into success;
    the partition and label monitors get the error. *)
Definition return_to (j : job) (e : option rb_err) : thread :=
  match j_caller j with
  | Callback k => match e with None => HrWorkers k | Some _ => after_poll k end
  | ByPartition =>
      match e with
      | Some errSuspiciousPartitionObservation => TpRearm
      | Some errSuspiciousWorkerObservation | Some errLabelObservationDeferred => PoLock (PollTail None)
      | _ => PoLock (PollTail e)
      end
  | ByLabel => LmAfter e
  | Manual => match e with None => HrWorkers PollDone | Some _ => Finished end
  | Initial => match e with None | Some errLabelObservationDeferred => StWorkers | _ => Finished end
  end.

(** [rebalance], up to the guards. *)
Definition exec_observe (ch : choice) (c : Calculator) (t : thread) : option outcome :=
  match t, ch with
  | RbLock j, Go => if rebalanceMu c then None else go (set_rebalanceMu true c) (RbGrace j)
  | RbGrace j, Go =>
      if isPartitionLifecycle (j_lifecycle j) && grace c then go c (RbUnlock j (Some errShuttingDown)) else go c (RbDeaths j)
  | RbDeaths j, Go =>
      if decide (j_lifecycle j = "emergency") then
        go (set_confirmedDead [] c)
          (GaScan (ForRebalance (with_deaths (confirmedDead c) (bool_decide (confirmedDead c <> [])) j)))
      else go c (GaScan (ForRebalance (with_deaths [] (bool_decide (confirmedDead c <> [])) j)))
  | RbAlive j, Go =>
      go (if j_fresh j then set_emergencyDetector (ObserveAlive (j_workers j) (emergencyDetector c)) c else c) (RbSnapshot j)
  | RbSnapshot j, SnapshotFailed => go c (RbUnlock j (Some (wrapStopErr errFailed c)))
  | RbSnapshot j, Snapshot parts rev known => go c (RbFloor (with_source parts rev known (source_gen c) j))
  | RbFloor j, Go =>
      if decide (j_workers j = []) then go (close_job j NoWorkers c) (RbUnlock j None)
      else
        let n := Z.of_nat (length (j_workers j)) in
        if negb (j_deaths j) && workerObservationSuspicious cfg (lastKnownWorkerCount c) n
        then go c (RbUnlock j (Some errSuspiciousWorkerObservation))
        else go (set_lastKnownWorkerCount n c) (RbGuard (with_worker_base (lastKnownWorkerCount c) j))
  | RbGuard j, Go =>
      let n := Z.of_nat (length (j_partitions j)) in
      let '(c', suspicious) := partitionInputCredibilityGuard cfg n c in
      if (suspicious : bool) then go c' (RbUnlock j (Some errSuspiciousPartitionObservation))
      else go (set_lastKnownPartitionCount n c')
             (RbTrust (with_partition_base (lastKnownPartitionCount c) (observed c') j))
  | _, _ => None
  end.

(** The trust gate, with [rebalanceOnCachedObservation]. *)
Definition exec_trust (ch : choice) (c : Calculator) (t : thread) : option outcome :=
  match t, ch with
  | RbTrust j, Go =>
      if j_fresh j || (bool_decide (j_lifecycle j = "emergency") && j_deaths j) then go c (RbDerive j)
      else if cachedObservationReplayable (j_workers j) (j_partitions j) (j_rev j) (j_known j) c
      then go (set_covered (default (covered c) (j_gen j)) c) (RbRecheck j None)
      else go c (RbRecheck j (Some errLabelObservationDeferred))
  | RbRecheck j e, Go => go (set_pendingLabelRecheck true c) (RbUnlock j e)
  | _, _ => None
  end.

(** The publisher's cached commit is replaced by one it has read. *)
Definition adopt (commit : option AssignmentCommit) (c : Calculator) : Calculator :=
  match commit with Some _ => set_lastCommit commit c | None => c end.

(** [rebalance], from the label pipeline on. *)
Definition exec_publish (ch : choice) (c : Calculator) (t : thread) : option outcome :=
  match t, ch with
  | RbDerive j, Routed => go c (RbPublish j)
  | RbDerive j, Deferred => go c (RbRecheck j (Some errLabelObservationDeferred))
  | RbDerive j, RouteFailed => go c (RbUnlock j (Some (wrapStopErr errFailed c)))
  | RbPublish j, PublishFailed shutdown winner =>
      go (adopt winner c) (RbUnlock j (Some (if shutdown then errShuttingDown else wrapStopErr errFailed c)))
  | RbPublish j, Published now commit =>
      let b := mkBatch (j_lifecycle j) (j_workers j) (j_partitions j) (j_fresh j) (j_deaths j) (j_dead j)
                 (j_lastKnownWorkers j) (j_lastKnownPartitions j) (j_observed j) in
      go (set_published (published c ++ [b])
           (set_covered (default (covered c) (j_gen j)) (set_lastRebalance now (set_lastCommit (Some commit) c)))) (RbTrack j)
  | RbTrack j, Go =>
      go (set_lastPublishedPartitions (Some (j_partitions j)) (set_currentWorkers (list_to_set (j_workers j)) c))
        (RbUnlock j None)
  | _, _ => None
  end.

(** The deferred unlock, and what [handleRebalance] and [TriggerRebalance] do
    after a success. *)
Definition exec_return (ch : choice) (c : Calculator) (t : thread) : option outcome :=
  match t, ch with
  | RbUnlock j e, Go =>
      let c' := match e with Some e => close_job j (EndedWith e) c | None => c end in
      go (set_rebalanceMu false c') (return_to j e)
  | HrWorkers k, Go => go (set_lastWorkers (currentWorkers c) c) (after_poll k)
  | _, _ => None
  end.

Definition exec_rebalance (ch : choice) (c : Calculator) (t : thread) : option outcome :=
  match t with
  | RbTrust _ | RbRecheck _ _ => exec_trust ch c t
  | RbDerive _ | RbPublish _ | RbTrack _ => exec_publish ch c t
  | RbUnlock _ _ | HrWorkers _ => exec_return ch c t
  | _ => exec_observe ch c t
  end.

(** [restorePendingOnGraceBail] *)
Definition restorePendingOnGraceBail (e : option rb_err) (c : Calculator) : Calculator :=
  match e with
  | Some errShuttingDown => if stopped c then c else set_pendingPartitionUpdate true c
  | _ => c
  end.

Definition restorePendingLabelOnGraceBail (e : option rb_err) (c : Calculator) : Calculator :=
  match e with
  | Some errShuttingDown => if stopped c then c else set_pendingLabelRecheck true c
  | _ => c
  end.

(** [monitorPartitions]. A source that is not running gives it a closed channel. *)
Definition exec_partitions (ch : choice) (c : Calculator) (t : thread) : option outcome :=
  match t, ch with
  | MpStart, Watched running => go (set_watchOpen running (set_watch_gen (source_gen c) c)) MpWait
  | MpWait, Signal =>
      match signals c with O => None | S n => go (set_signals n c) MpSignal end
  | MpWait, Drain =>
      if pendingPartitionUpdate c then go (set_pendingPartitionUpdate false c) (MpGrace true) else go c MpWait
  | MpWait, Go => if stopped c || ctxDone c then go c Finished else None
  | MpWait, Closed => if watchOpen c || bool_decide (signals c <> 0) then None else go c Finished
  | MpSignal, Go => if stopped c then go c Finished else go c (MpGrace false)
  | MpGrace deferred, Go =>
      if grace c then go (set_pendingPartitionUpdate true c) MpWait
      else if (deferred : bool) then go c (MpClaim lifecyclePartitionUpdateDeferred) else go c MpClear
  | MpClear, Go => go (set_pendingPartitionUpdate false c) (MpClaim lifecyclePartitionUpdate)
  | MpAfter e, Go => go (restorePendingOnGraceBail e c) MpWait
  | _, _ => None
  end.

(** [triggerPartitionRebalance]: the claim, and the re-arming of a suppressed
    rebalance before the tail check. *)
Definition exec_trigger (ch : choice) (c : Calculator) (t : thread) : option outcome :=
  match t, ch with
  | MpClaim lc, Claimed ok =>
      if ok then go c (RbLock (new_job lc ByPartition)) else go (set_pendingPartitionUpdate true c) MpWait
  | TpRearm, Go => go (set_pendingPartitionUpdate true c) (PoLock (PollTail None))
  | _, _ => None
  end.

(** [monitorLabelRecheck] *)
Definition exec_label (ch : choice) (c : Calculator) (t : thread) : option outcome :=
  match t, ch with
  | LmWait, Wake => go c LmTake
  | LmWait, Go => if stopped c || ctxDone c then go c Finished else None
  | LmTake, Go => if pendingLabelRecheck c then go (set_pendingLabelRecheck false c) LmGrace else go c LmWait
  | LmGrace, Go => if grace c then go (set_pendingLabelRecheck true c) LmWait else go c LmClaim
  | LmClaim, Claimed ok =>
      if ok then go c (RbLock (new_job lifecycleLabelRecheck ByLabel)) else go (set_pendingLabelRecheck true c) LmWait
  | LmAfter e, Go => go (restorePendingLabelOnGraceBail e c) LmWait
  | _, _ => None
  end.

(** [Start]. Without a watchable source there is no partition monitor. *)
Definition exec_begin (ch : choice) (c : Calculator) (t : thread) : option outcome :=
  match t, ch with
  | StRebalance takeover, Go =>
      go c (RbLock (new_job (if takeover then "takeover_immediate" else "cold_start_immediate") Initial))
  | StWorkers, Go => go (set_lastWorkers (currentWorkers c) c) StMonitor
  | StMonitor, Claimed ok => go c (if ok then StBootstrap else Finished)
  | StBootstrap, Bootstrapped commit => go (adopt commit c) StLaunch
  | StLaunch, Launched takeover watchable =>
      Some (set_started true c, ScWait (if takeover then "takeover" else "cold_start"),
        if (watchable : bool) then [MpStart; LmWait] else [LmWait])
  | _, _ => None
  end.

Definition exec_monitors (ch : choice) (c : Calculator) (t : thread) : option outcome :=
  match t with
  | StRebalance _ | StWorkers | StMonitor | StBootstrap | StLaunch => exec_begin ch c t
  | TpRearm | MpClaim _ => exec_trigger ch c t
  | LmWait | LmTake | LmGrace | LmClaim | LmAfter _ => exec_label ch c t
  | _ => exec_partitions ch c t
  end.

Definition exec (ch : choice) (c : Calculator) (t : thread) : option outcome :=
  match t with
  | GaScan _ | GaFailure _ | GaReset _ _ | GaObserve _ _ | GaStore _ _ | GaCached _ _ => exec_enum ch c t
  | PoLock _ | PoCompare _ _ _ | PoDetect _ _ _ _ _ | PoClaim _ _ | PoStoreDead _ _ | PoUnlockRun _ | PoGrace _ _
  | PoCooldown _ _ | PoScale _ _ | PoUnlock _ | ScWait _ => exec_poll ch c t
  | RbLock _ | RbGrace _ | RbDeaths _ | RbAlive _ | RbSnapshot _ | RbFloor _ | RbGuard _ | RbTrust _ | RbRecheck _ _
  | RbDerive _ | RbPublish _ | RbTrack _ | RbUnlock _ _ | HrWorkers _ => exec_rebalance ch c t
  | TpRearm | MpAfter _ | MpStart | MpWait | MpSignal | MpGrace _ | MpClear | MpClaim _ | LmWait | LmTake | LmGrace | LmClaim
  | LmAfter _ | StRebalance _ | StWorkers | StMonitor | StBootstrap | StLaunch => exec_monitors ch c t
  | Finished => None
  end.

(** ** Executions *)

Definition config : Type := Calculator * list thread.

(** A poll of the worker monitor or a repair of the audit, once [Start] has started
    the worker monitor; or a manual refresh, from the beginning of [Start]. *)
Definition spawned (c : Calculator) (ts : list thread) (t : thread) : Prop :=
  match t with
  | PoLock PollDone | ScWait _ => started c = true \/ StBootstrap ∈ ts \/ StLaunch ∈ ts
  | RbLock j => j = new_job "manual-refresh" Manual
  | _ => False
  end.

(** Besides the steps of the goroutines: a change of the partition source, which
    is notified while the source is watched; the watch channel is closed; recovery
    grace begins or ends; the context of [Start] ends; the calculator is stopped. *)
Inductive step : config -> config -> Prop :=
| step_thread c ts1 t ts2 ch c' t' new :
    exec ch c t = Some (c', t', new) -> step (c, ts1 ++ t :: ts2) (c', ts1 ++ t' :: new ++ ts2)
| step_spawn c ts t : spawned c ts t -> step (c, ts) (c, t :: ts)
| step_source c ts :
    step (c, ts) (set_signals (if watchOpen c then S (signals c) else signals c) (set_source_gen (source_gen c + 1) c), ts)
| step_close c ts : step (c, ts) (set_watchOpen false c, ts)
| step_grace c ts b : step (c, ts) (set_grace b c, ts)
| step_ctx c ts : step (c, ts) (set_ctxDone true c, ts)
| step_stop c ts : started c = true -> step (c, ts) (set_stopped true c, ts).

Inductive reachable : config -> Prop :=
| reachable_start existing gracePeriod takeover :
    reachable (NewCalculator existing gracePeriod, [StRebalance takeover])
| reachable_step c c' : reachable c -> step c c' -> reachable c'.
End exec.
