(* ===== verification/RebalanceSafety.v ===== *)
(** * What the leader publishes, and what it may forget

    Every batch the leader publishes was computed one at a time from a
    trustworthy and credible observation, in every interleaving of polls,
    monitors, timers and refreshes. A notified change of the partition source is
    kept until a commit covers it, unless a rebalance that had to publish it ended
    otherwise; the executions at the end show what is then forgotten. *)
From S2P Require Import Prelude Nats Partition Wire Emergency Rebalance.

(** The case analysis of one action. *)
Ltac exec_split E :=
  repeat match type of E with
  | None = Some _ => discriminate E
  | Some _ = Some _ => injection E as <- <- <-
  | go _ _ = Some _ => unfold go in E
  | (let '(_, _) := ?x in _) = Some _ => let H := fresh "Hx" in destruct x as [? ?] eqn:H
  | (if decide ?P then _ else _) = Some _ => destruct (decide P)
  | (if ?b then _ else _) = Some _ => let H := fresh "Hb" in destruct b eqn:H
  | match ?x with _ => _ end = Some _ => let H := fresh "Hx" in destruct x eqn:H
  end.

Section safety.
Context (cfg : Config).
Implicit Types (c : Calculator) (t : thread) (j : job).

(** ** Credible batches *)

(** How many suspicious partition counts were observed since the last credible
    one. *)
Definition sightings (obs : list (Z * Z)) : Z :=
  foldl (λ n x, if partitionObservationSuspicious cfg x.1 x.2 then n + 1 else 0)%Z 0%Z obs.

Definition emergency_ok (lc : string) (dead : list string) (deaths : bool) (ws : list string) : Prop :=
  (if decide (lc = "emergency") then deaths = bool_decide (dead <> []) else dead = []) /\ Forall (λ w, w ∉ dead) ws.

Definition workers_ok (deaths : bool) (base : Z) (ws : list string) : Prop :=
  ws <> [] /\ (deaths = true \/ workerObservationSuspicious cfg base (Z.of_nat (length ws)) = false).

Definition partitions_ok (base : Z) (seen : list (Z * Z)) (parts : list Partition) : Prop :=
  base = 0%Z \/ partitionObservationSuspicious cfg base (Z.of_nat (length parts)) = false \/
  (PartitionShrinkConfirmationCount cfg <= sightings seen)%Z.

Definition trusted (lc : string) (fresh deaths : bool) : Prop := fresh = true \/ (lc = "emergency" /\ deaths = true).

Definition credible (b : batch) : Prop :=
  emergency_ok (b_lifecycle b) (b_dead b) (b_deaths b) (b_workers b) /\
  workers_ok (b_deaths b) (b_lastKnownWorkers b) (b_workers b) /\
  partitions_ok (b_lastKnownPartitions b) (b_observed b) (b_partitions b) /\
  trusted (b_lifecycle b) (b_fresh b) (b_deaths b).

(** What a rebalance knows at each stage. *)
Definition stage_ok (n : nat) j : Prop :=
  let emergency := emergency_ok (j_lifecycle j) (j_dead j) (j_deaths j) in
  let workers := workers_ok (j_deaths j) (j_lastKnownWorkers j) (j_workers j) in
  let partitions := partitions_ok (j_lastKnownPartitions j) (j_observed j) (j_partitions j) in
  match n with
  | 0 => True
  | 1 => emergency []
  | 2 => emergency (j_workers j)
  | 3 => emergency (j_workers j) /\ workers
  | 4 => emergency (j_workers j) /\ workers /\ partitions
  | _ => emergency (j_workers j) /\ workers /\ partitions /\ trusted (j_lifecycle j) (j_fresh j) (j_deaths j)
  end.

Definition enum_job (k : enum_k) : option job := match k with ForPoll _ => None | ForRebalance j => Some j end.

Definition job_stage t : option (nat * job) :=
  match t with
  | RbGrace j | RbDeaths j | RbUnlock j _ => Some (0, j)
  | GaScan k | GaFailure k | GaReset _ k | GaObserve _ k | GaStore _ k | GaCached _ k => pair 1 <$> enum_job k
  | RbAlive j | RbSnapshot j | RbFloor j => Some (2, j)
  | RbGuard j => Some (3, j)
  | RbTrust j | RbRecheck j _ => Some (4, j)
  | RbDerive j | RbPublish j | RbTrack j => Some (5, j)
  | _ => None
  end.

(** Inside [rebalance], with the lock held. *)
Definition rebalancing t : bool := bool_decide (is_Some (job_stage t)).

Definition staged t : Prop := match job_stage t with Some (n, j) => stage_ok n j | None => True end.

Record Inv c (ts : list thread) : Prop := {
  inv_lock : count rebalancing ts = if rebalanceMu c then 1 else 0;
  inv_stage : Forall staged ts;
  inv_published : Forall credible (published c);
  inv_sightings : partitionShrunkObservations c = sightings (observed c);
}.

Lemma sightings_snoc obs x :
  sightings (obs ++ [x]) = if partitionObservationSuspicious cfg x.1 x.2 then (sightings obs + 1)%Z else 0%Z.
Proof. unfold sightings. by rewrite foldl_app. Qed.

Lemma stage_deaths j c :
  stage_ok 1 (if decide (j_lifecycle j = "emergency") then with_deaths (confirmedDead c) (bool_decide (confirmedDead c <> [])) j
           else with_deaths [] (bool_decide (confirmedDead c <> [])) j).
Proof. split; [|constructor]. by case_decide as E; simpl; case_decide. Qed.

Lemma stage_workers j ws fresh : stage_ok 1 j -> stage_ok 2 (with_workers (filter (λ w, w ∉ j_dead j) ws) fresh j).
Proof. intros [A _]. split; [done|]. simpl. apply Forall_forall. by intros w [? _]%list_elem_of_filter. Qed.

Lemma guard_passes n c c' s :
  partitionInputCredibilityGuard cfg n c = (c', s) -> partitionShrunkObservations c = sightings (observed c) ->
  partitionShrunkObservations c' = sightings (observed c') /\ published c' = published c /\
  rebalanceMu c' = rebalanceMu c /\
  (s = false -> lastKnownPartitionCount c = 0%Z \/ partitionObservationSuspicious cfg (lastKnownPartitionCount c) n = false \/
    (PartitionShrinkConfirmationCount cfg <= sightings (observed c'))%Z).
Proof.
  unfold partitionInputCredibilityGuard. case_decide as B; [intros [= <- <-]; auto|].
  cbn [lastKnownPartitionCount set_observed].
  destruct (partitionObservationSuspicious _ _ _) eqn:S; intros [= <- <-] E; simpl; rewrite sightings_snoc; simpl; rewrite S;
    (split; [by rewrite <- ?E|]); auto.
  do 2 (split; [done|]). intros ?%bool_decide_eq_false. right; right. lia.
Qed.

Lemma record_fields n c c' r :
  recordWorkerObservation cfg n c = (c', r) ->
  partitionShrunkObservations c' = partitionShrunkObservations c /\ observed c' = observed c /\
  published c' = published c /\ rebalanceMu c' = rebalanceMu c.
Proof. unfold recordWorkerObservation. case_match; by intros [= <- <-]. Qed.

(** What an action does with the shared state. *)
Definition keeps c c' : Prop :=
  (Forall credible (published c) -> Forall credible (published c')) /\
  (partitionShrunkObservations c = sightings (observed c) -> partitionShrunkObservations c' = sightings (observed c')).

Definition held (b : bool) : nat := if b then 1 else 0.

(** One action: the stages are respected, and entering or leaving the locked
    section is acquiring or releasing the lock. *)
Definition safe_action c t c' t' (new : list thread) : Prop :=
  staged t' /\ Forall staged new /\ keeps c c' /\
  held (rebalancing t') + count rebalancing new + held (rebalanceMu c) = held (rebalancing t) + held (rebalanceMu c').

Lemma safe_plain c t c' t' :
  staged t' -> keeps c c' -> rebalancing t' = rebalancing t -> rebalanceMu c' = rebalanceMu c -> safe_action c t c' t' [].
Proof. intros S K R M. split; [done|]. split; [constructor|]. split; [done|]. rewrite R, M. change (count rebalancing []) with 0. lia. Qed.

Lemma keeps_same c c' :
  published c' = published c -> partitionShrunkObservations c' = partitionShrunkObservations c -> observed c' = observed c ->
  keeps c c'.
Proof. intros P N O. split; rewrite ?P, ?N, ?O; auto. Qed.

Lemma exec_enum_safe ch c t c' t' new :
  exec_enum cfg ch c t = Some (c', t', new) -> staged t -> safe_action c t c' t' new.
Proof.
  unfold exec_enum. intros E St. exec_split E.
  all: try match goal with H : recordWorkerObservation _ _ _ = _ |- _ => destruct (record_fields _ _ _ _ H) as (? & ? & ? & ?) end.
  all: apply safe_plain; try done; try (by apply keeps_same); try (by destruct k); destruct k; try done; by apply stage_workers.
Qed.

Lemma exec_poll_safe ch c t c' t' new :
  exec_poll cfg ch c t = Some (c', t', new) -> safe_action c t c' t' new.
Proof.
  unfold exec_poll. intros E. exec_split E; try (apply safe_plain; try done; by try destruct k).
  split; [done|]. split; [by repeat constructor|]. split; [done|]. reflexivity.
Qed.

Lemma exec_monitors_safe ch c t c' t' new :
  exec_monitors ch c t = Some (c', t', new) -> safe_action c t c' t' new.
Proof.
  unfold exec_monitors, exec_begin, exec_trigger, exec_label, exec_partitions, restorePendingOnGraceBail, restorePendingLabelOnGraceBail, adopt. intros E.
  exec_split E; try (apply safe_plain; try done; by repeat case_match).
  destruct watchable; (split; [done|]); (split; [by repeat constructor|]); (split; [done|reflexivity]).
Qed.

Lemma return_to_outside j e : job_stage (return_to j e) = None.
Proof. unfold return_to, after_poll. by repeat case_match. Qed.

Lemma floor_safe j c :
  j_workers j <> [] ->
  negb (j_deaths j) && workerObservationSuspicious cfg (lastKnownWorkerCount c) (Z.of_nat (length (j_workers j))) = false ->
  workers_ok (j_deaths j) (lastKnownWorkerCount c) (j_workers j).
Proof. intros N E. split; [done|]. destruct (j_deaths j); auto. Qed.

Lemma trust_safe j :
  j_fresh j || (bool_decide (j_lifecycle j = "emergency") && j_deaths j) = true ->
  trusted (j_lifecycle j) (j_fresh j) (j_deaths j).
Proof. unfold trusted. destruct (j_fresh j); [auto|]. simpl. intros [?%bool_decide_eq_true ?]%andb_prop. auto. Qed.

Lemma exec_rebalance_safe ch c t c' t' new :
  exec_rebalance cfg ch c t = Some (c', t', new) -> staged t -> (rebalancing t = true -> rebalanceMu c = true) ->
  partitionShrunkObservations c = sightings (observed c) -> safe_action c t c' t' new.
Proof.
  unfold exec_rebalance, exec_observe, exec_trust, exec_publish, exec_return, adopt. intros E St M O.
  exec_split E; unfold staged, job_stage in St; unfold close_job; try (apply safe_plain; try done; by first [destruct k|destruct winner|destruct (j_caller j)]).
  - split; [done|]. split; [constructor|]. split; [done|]. by rewrite Hb.
  - apply safe_plain; try done. pose proof (stage_deaths j c) as D. by rewrite decide_True in D.
  - apply safe_plain; try done. pose proof (stage_deaths j c) as D. by rewrite decide_False in D.
  - apply safe_plain; try done; by destruct (j_fresh j).
  - apply safe_plain; try done. split; [exact St|by apply floor_safe].
  - destruct (guard_passes _ _ _ _ Hx1 O) as (G & P & L & _). apply safe_plain; try done. split; [by rewrite P|done].
  - destruct (guard_passes _ _ _ _ Hx1 O) as (G & P & L & Q). apply safe_plain; try done; [|split; simpl; [by rewrite P|done]].
    destruct St as [S1 S2]. split; [exact S1|]. split; [exact S2|]. by apply Q.
  - apply safe_plain; try done. destruct St as (S1 & S2 & S3). do 3 (split; [done|]). by apply trust_safe.
  - apply safe_plain; try done. destruct St as (S1 & S2 & S3 & _). by do 2 (split; [done|]).
  - apply safe_plain; try done. split; [|done]. simpl. intros F. apply Forall_app. split; [done|]. by constructor; [exact St|constructor].
  - unfold safe_action, staged, rebalancing. rewrite return_to_outside. split; [done|]. split; [constructor|].
    split; [by destruct e, (j_caller j)|]. simpl. by rewrite M.
Qed.

Lemma exec_safe ch c t c' t' new :
  exec cfg ch c t = Some (c', t', new) -> staged t -> (rebalancing t = true -> rebalanceMu c = true) ->
  partitionShrunkObservations c = sightings (observed c) -> safe_action c t c' t' new.
Proof.
  unfold exec. destruct t; try done;
    eauto using exec_enum_safe, exec_poll_safe, exec_monitors_safe, exec_rebalance_safe.
Qed.

Lemma spawned_outside c ts t : spawned c ts t -> job_stage t = None.
Proof. by destruct t. Qed.

Lemma step_Inv x y : step cfg x y -> Inv x.1 x.2 -> Inv y.1 y.2.
Proof.
  destruct 1 as [c ts1 t ts2 ch c' t' new E|c ts t S|c ts|c ts|c ts b|c ts|c ts _]; intros [L St P O]; simpl in *;
    try (by constructor).
  - rewrite count_middle in L. apply Forall_middle in St as [St Sts].
    destruct (exec_safe ch c t c' t' new E St) as (St' & Sn & [K1 K2] & A); [|done|].
    { intros R. rewrite R in L. destruct (rebalanceMu c); [done|lia]. }
    constructor; [rewrite count_spawn; unfold held in A; lia|apply Forall_spawn; auto|auto|auto].
  - constructor; [|constructor| |]; try done.
    + rewrite count_cons. unfold rebalancing at 1. by rewrite (spawned_outside c ts t S).
    + unfold staged. by rewrite (spawned_outside c ts t S).
Qed.

Lemma rebalance_reachable_Inv x : reachable cfg x -> Inv x.1 x.2.
Proof. induction 1; [|by eapply step_Inv]. by constructor; try repeat constructor. Qed.

(** C11. The leader publishes only batches that passed its credibility checks, and
    computes one at a time. In every interleaving of polls, monitors, timers and
    refreshes, at most one goroutine is inside [rebalance], and every published
    batch has workers; its worker list came from a fresh scan, or confirmed deaths
    forced an emergency; in an emergency no worker confirmed dead is in it; unless
    deaths were confirmed its worker count is no suspicious drop from the baseline;
    and its partition count is no suspicious drop from the baseline, or it was
    the last of at least the required number of consecutive suspicious counts. The
    counter holds how many suspicious counts there were since the last count that
    was not suspicious; it is not reset when a drop is accepted, so the consecutive
    counts may have been compared with different baselines, and a further drop right
    after an accepted one is published at its first sighting
    ([next_drop_is_unconfirmed]). *)
Theorem published_batches_credible c ts :
  reachable cfg (c, ts) ->
  count rebalancing ts <= 1 /\ Forall credible (published c) /\
  partitionShrunkObservations c = sightings (observed c).
Proof. intros [L _ P O]%rebalance_reachable_Inv. simpl in *. rewrite L. split; [by destruct (rebalanceMu c); lia|done]. Qed.

(** ** Changes of the partition source *)

(** On whose behalf a goroutine runs. *)
Definition caller_of t : option caller :=
  match t with
  | RbLock j | RbGrace j | RbDeaths j | RbAlive j | RbSnapshot j | RbFloor j | RbGuard j | RbTrust j | RbRecheck j _
  | RbDerive j | RbPublish j | RbTrack j | RbUnlock j _ => Some (j_caller j)
  | GaScan k | GaFailure k | GaReset _ k | GaObserve _ k | GaStore _ k | GaCached _ k =>
      Some match k with ForPoll k => Callback k | ForRebalance j => j_caller j end
  | PoLock k | PoCompare _ _ k | PoDetect _ _ _ _ k | PoClaim _ k | PoStoreDead _ k | PoUnlockRun k | PoGrace _ k
  | PoCooldown _ k | PoScale _ k | PoUnlock k | HrWorkers k => Some (Callback k)
  | MpAfter e => Some (Callback (PollTail e))
  | ScWait _ => Some (Callback PollDone)
  | TpRearm | MpStart | MpWait | MpSignal | MpGrace _ | MpClear | MpClaim _ => Some ByPartition
  | LmWait | LmTake | LmGrace | LmClaim | LmAfter _ => Some ByLabel
  | StRebalance _ | StWorkers | StMonitor | StBootstrap | StLaunch => Some Initial
  | Finished => None
  end.

(** The partition monitor, wherever it is, and [Start] until it has returned. *)
Definition monitor t : bool :=
  match caller_of t with Some ByPartition | Some (Callback (PollTail _)) => true | _ => false end.

Definition starting t : bool := match caller_of t with Some Initial => true | _ => false end.

Definition job_of t : option job :=
  match t with
  | RbLock j => Some j
  | _ => snd <$> job_stage t
  end.

(** The monitor has a change in hand: it was notified and has not called
    [rebalance] yet, its rebalance saw the newest partitions and has not ended, or
    it was told to try again. *)
Definition carries (gen : Z) t : bool :=
  match caller_of t with
  | Some ByPartition =>
      match t with
      | MpStart | MpWait | RbTrack _ | RbRecheck _ None | RbUnlock _ None => false
      | _ => match job_of t with Some j => bool_decide (default gen (j_gen j) = gen) | None => true end
      end
  | Some (Callback (PollTail (Some errShuttingDown))) => true
  | _ => false
  end.

(** The endings of a rebalance after which the partition monitor does not try
    again by itself. *)
Definition dropped (e : ending) : Prop :=
  match e with
  | EndedWith errShuttingDown | EndedWith errSuspiciousPartitionObservation => False
  | _ => True
  end.

(** The newest partitions are accounted for, threads apart. *)
Definition settled c : Prop :=
  stopped c = true \/ ctxDone c = true \/ watchOpen c = false \/ source_gen c = watch_gen c \/ covered c = source_gen c \/ 0 < signals c \/
  pendingPartitionUpdate c = true \/ exists e, dropped e /\ (source_gen c, e) ∈ closed c.

(** After its snapshot a rebalance has seen partitions no older than those of the
    last commit. *)
Definition snapshot_ok c t : Prop :=
  match t with
  | RbFloor j | RbGuard j | RbTrust j | RbRecheck j _ | RbDerive j | RbPublish j | RbTrack j =>
      exists g, j_gen j = Some g /\ (covered c <= g <= source_gen c)%Z
  | _ => True
  end.

Definition tracked_action c t c' t' (new : list thread) : Prop :=
  source_gen c' = source_gen c /\
  snapshot_ok c' t' /\ Forall (snapshot_ok c') new /\
  (covered c' = covered c \/ (rebalancing t = true /\ (covered c <= covered c' <= source_gen c)%Z)) /\
  (settled c \/ carries (source_gen c) t = true -> settled c' \/ carries (source_gen c) t' = true).

(** The part of the state the changes depend on. *)
Definition track c := (source_gen c, stopped c, started c, ctxDone c, watchOpen c, watch_gen c, covered c, closed c, signals c,
  pendingPartitionUpdate c).

Lemma settled_track c c' : track c' = track c -> settled c -> settled c'.
Proof. intros [= G S _ X O W V C N P]. unfold settled. by rewrite S, X, O, G, W, V, C, N, P. Qed.

Lemma track_plain c t c' t' new :
  track c' = track c -> snapshot_ok c t' -> (carries (source_gen c) t = true -> carries (source_gen c) t' = true) ->
  Forall (snapshot_ok c) new -> tracked_action c t c' t' new.
Proof.
  intros E K T F. pose proof (settled_track _ _ E) as Z. injection E as G _ _ _ _ _ V _ _ _.
  split; [done|]. split; [unfold snapshot_ok in *; by rewrite V, G|].
  split; [by unfold snapshot_ok in *; rewrite V, G|]. split; [by left|]. tauto.
Qed.

Lemma record_track n c c' r : recordWorkerObservation cfg n c = (c', r) -> track c' = track c.
Proof. unfold recordWorkerObservation. case_match; by intros [= <- <-]. Qed.

Lemma guard_track n c c' r : partitionInputCredibilityGuard cfg n c = (c', r) -> track c' = track c.
Proof. unfold partitionInputCredibilityGuard. repeat case_match; by intros [= <- <-]. Qed.

Lemma exec_enum_tracked ch c t c' t' new :
  exec_enum cfg ch c t = Some (c', t', new) -> tracked_action c t c' t' new.
Proof.
  unfold exec_enum. intros E. exec_split E; apply track_plain; eauto using record_track; by destruct k.
Qed.

Lemma exec_poll_tracked ch c t c' t' new :
  exec_poll cfg ch c t = Some (c', t', new) -> tracked_action c t c' t' new.
Proof. unfold exec_poll. intros E. exec_split E; apply track_plain; try done; first [by destruct k|by repeat constructor]. Qed.

Lemma carries_job g t j :
  carries g t = true -> caller_of t = Some (j_caller j) -> job_of t = Some j ->
  (j_caller j = ByPartition /\ default g (j_gen j) = g) \/ j_caller j = Callback (PollTail (Some errShuttingDown)).
Proof.
  unfold carries. intros H C J. rewrite C, J in H. revert H. clear C. destruct (j_caller j) as [[|[[]|]]| | | |]; try done; [by right|].
  intros H. left. split; [done|]. apply (bool_decide_eq_true (default g (j_gen j) = g)). by repeat case_match.
Qed.

Lemma settled_close j e c :
  settled c \/ (j_caller j = ByPartition /\ default (source_gen c) (j_gen j) = source_gen c /\ dropped e) ->
  settled (close_job j e c).
Proof.
  unfold close_job, settled. destruct (j_caller j); simpl; try (intros [?|(? & ? & ?)]; done).
  setoid_rewrite elem_of_app. intros [H|(_ & E & D)]; [naive_solver|].
  do 7 right. exists e. split; [done|]. right. rewrite E. by constructor.
Qed.

Lemma close_track j e c : track (close_job j e c) = track (set_closed (closed (close_job j e c)) c).
Proof. unfold close_job. by destruct (j_caller j). Qed.

Lemma close_tracked t c c' t' j e :
  track c' = track (close_job j e c) -> snapshot_ok c t' ->
  (carries (source_gen c) t = true ->
    (j_caller j = ByPartition /\ default (source_gen c) (j_gen j) = source_gen c /\ dropped e) \/
    carries (source_gen c) t' = true) ->
  tracked_action c t c' t' [].
Proof.
  intros T K D. pose proof (settled_close j e c) as Z. pose proof (settled_track _ _ T) as Z'.
  rewrite close_track in T. injection T as G _ _ _ _ _ V _ _ _.
  split; [done|]. split; [unfold snapshot_ok in *; by rewrite V, G|]. split; [constructor|]. split; [by left|]. tauto.
Qed.

Lemma cover_tracked c t c' t' g :
  track c' = track (set_covered g c) -> rebalancing t = true -> (covered c <= g <= source_gen c)%Z -> snapshot_ok c' t' ->
  (carries (source_gen c) t = true -> g = source_gen c \/ carries (source_gen c) t' = true) ->
  tracked_action c t c' t' [].
Proof.
  intros E R B K T. pose proof (settled_track _ _ E) as Z. injection E as G _ _ _ _ _ V _ _ _.
  do 2 (split; [done|]). split; [constructor|]. split; [right; by rewrite V|].
  assert (settled c \/ g = source_gen c -> settled (set_covered g c)); [|tauto].
  unfold settled. simpl. assert (covered c = source_gen c -> g = source_gen c) by lia. naive_solver.
Qed.

Lemma return_to_carries g j e :
  carries g (RbUnlock j (Some e)) = true -> ~ dropped (EndedWith e) \/ j_caller j <> ByPartition ->
  carries g (return_to j (Some e)) = true.
Proof.
  intros C D. destruct (carries_job _ _ j C eq_refl eq_refl) as [[E _]|E]; unfold return_to; rewrite E; [|done].
  destruct D as [D|D]; [|done]. by destruct e; try done; destruct D.
Qed.

Lemma unlock_tracked j e c :
  tracked_action c (RbUnlock j e)
    (set_rebalanceMu false match e with Some e => close_job j (EndedWith e) c | None => c end) (return_to j e) [].
Proof.
  destruct e as [e|].
  - apply (close_tracked _ _ _ _ j (EndedWith e)); [done|by pose proof (return_to_outside j (Some e)); destruct (return_to j (Some e))|].
    intros C. destruct (carries_job _ _ j C eq_refl eq_refl) as [[P G]|P].
    + destruct e; first [by left|right; apply return_to_carries; [done|left; by intros []]].
    + right. apply return_to_carries; [done|]. right. by rewrite P.
  - apply track_plain; try done; [by pose proof (return_to_outside j None); destruct (return_to j None)|].
    unfold carries, return_to. simpl. by destruct (j_caller j) as [[|[[]|]]| | | |].
Qed.

Lemma exec_rebalance_tracked ch c t c' t' new :
  exec_rebalance cfg ch c t = Some (c', t', new) -> snapshot_ok c t -> (covered c <= source_gen c)%Z ->
  tracked_action c t c' t' new.
Proof.
  unfold exec_rebalance, exec_observe, exec_trust, exec_publish, exec_return, adopt. intros E K V.
  exec_split E; try (apply track_plain; try done; by first [destruct k|destruct winner]).
  - apply track_plain; try done. by destruct (j_fresh j).
  - apply track_plain; try done; [by exists (source_gen c)|]. intros C.
    destruct (carries_job _ _ j C eq_refl eq_refl) as [[P _]|P]; unfold carries; simpl; rewrite P; [|done].
    by rewrite bool_decide_true.
  - apply (close_tracked _ _ _ _ j NoWorkers); try done. intros C.
    destruct (carries_job _ _ j C eq_refl eq_refl) as [[P G]|P]; [by left|right; unfold carries; simpl; by rewrite P].
  - apply track_plain; try done. exact (guard_track _ _ _ _ Hx1).
  - apply track_plain; try done. exact (guard_track _ _ _ _ Hx1).
  - destruct K as (g & G & B). rewrite G. apply (cover_tracked _ _ _ _ g); try done; [by exists g; simpl; auto with lia|].
    intros C. destruct (carries_job _ _ j C eq_refl eq_refl) as [[P E]|P]; [left; by rewrite G in E|].
    right; unfold carries; simpl; by rewrite P.
  - destruct K as (g & G & B). rewrite G. apply (cover_tracked _ _ _ _ g); try done; [by exists g; simpl; auto with lia|].
    intros C. destruct (carries_job _ _ j C eq_refl eq_refl) as [[P E]|P]; [left; by rewrite G in E|].
    right; unfold carries; simpl; by rewrite P.
  - apply unlock_tracked.
Qed.

Lemma settled_pending c : pendingPartitionUpdate c = true -> settled c.
Proof. unfold settled. tauto. Qed.

(** The monitor has the change in hand, or has marked it as pending. *)
Lemma kept_tracked c t c' t' :
  source_gen c' = source_gen c -> covered c' = covered c ->
  job_stage t' = None -> settled c' \/ carries (source_gen c) t' = true -> tracked_action c t c' t' [].
Proof. intros G V J K. repeat split; auto. by destruct t'. Qed.

Lemma exec_monitors_tracked ch c t c' t' new :
  exec_monitors ch c t = Some (c', t', new) -> tracked_action c t c' t' new.
Proof.
  unfold exec_monitors, exec_begin, exec_trigger, exec_label, exec_partitions, adopt. intros E. exec_split E;
    try (by apply track_plain); try (by apply kept_tracked; auto using settled_pending).
  - apply track_plain; try done. by destruct ok.
  - apply track_plain; try done. by destruct commit.
  - split; [done|]. split; [done|]. split; [destruct watchable; by repeat constructor|]. split; [by left|].
    unfold carries. simpl. intros [?|?]; [by left|done].
  - unfold restorePendingOnGraceBail. destruct e as [[]|]; try (by apply track_plain).
    destruct (stopped c) eqn:S; [|by apply kept_tracked; auto using settled_pending].
    apply kept_tracked; try done. left. by left.
  - apply kept_tracked; try done. left. by do 3 right; left.
  - apply kept_tracked; try done. left. by left.
  - apply kept_tracked; try done. right. unfold carries. simpl. by rewrite bool_decide_true.
  - unfold restorePendingLabelOnGraceBail. apply track_plain; try done. by destruct e as [[]|]; try destruct (stopped c).
Qed.

Lemma exec_tracked ch c t c' t' new :
  exec cfg ch c t = Some (c', t', new) -> snapshot_ok c t -> (covered c <= source_gen c)%Z -> tracked_action c t c' t' new.
Proof.
  unfold exec. destruct t; try done;
    eauto using exec_enum_tracked, exec_poll_tracked, exec_monitors_tracked, exec_rebalance_tracked.
Qed.

Record Tracked c (ts : list thread) : Prop := {
  tr_covered : (covered c <= source_gen c)%Z;
  tr_snapshot : Forall (snapshot_ok c) ts;
  tr_settled : settled c \/ has (carries (source_gen c)) ts;
}.

Lemma snapshot_other c c' t :
  source_gen c' = source_gen c -> covered c' = covered c \/ rebalancing t = false -> snapshot_ok c t -> snapshot_ok c' t.
Proof. intros G [V|R] S; unfold snapshot_ok in *; [by rewrite G, V|by destruct t]. Qed.

Lemma step_Tracked x y : step cfg x y -> Inv x.1 x.2 -> Tracked x.1 x.2 -> Tracked y.1 y.2.
Proof.
  destruct 1 as [c ts1 t ts2 ch c' t' new E|c ts t S|c ts|c ts|c ts b|c ts|c ts _]; intros [L _ _ _] [V K P]; simpl in *.
  - rewrite count_middle in L. apply Forall_middle in K as [K Ks].
    destruct (exec_tracked ch c t c' t' new E K V) as (G & K' & Kn & C & T).
    constructor; [rewrite G; destruct C as [->|[_ C]]; lia|apply Forall_spawn; do 2 (split; [done|])|].
    + destruct C as [C|[R _]]; [eapply Forall_impl; eauto using snapshot_other|].
      rewrite R in L. assert (N : count rebalancing (ts1 ++ ts2) = 0) by (destruct (rebalanceMu c); lia).
      apply no_count in N. rewrite Forall_forall in N, Ks |- *. intros p I. eapply snapshot_other; eauto.
    + rewrite G. rewrite has_middle in P. rewrite (has_spawn (carries (source_gen c))). tauto.
  - constructor; [done|constructor; [by destruct t|done]|]. rewrite has_cons. destruct P; auto.
  - constructor; simpl; [lia|eapply Forall_impl; [done|]; intros t; unfold snapshot_ok; destruct t; simpl; naive_solver lia|].
    left. unfold settled. simpl. destruct (watchOpen c); [do 5 right; left; lia|by do 2 right; left].
  - constructor; [done|done|]. left. by do 2 right; left.
  - by constructor.
  - constructor; [done|done|]. left. by right; left.
  - constructor; [done|done|]. left. by left.
Qed.

Lemma reachable_Tracked x : reachable cfg x -> Tracked x.1 x.2.
Proof.
  induction 1 as [|x y R IH S]; [|eapply step_Tracked; eauto using rebalance_reachable_Inv].
  constructor; simpl; [lia|by repeat constructor|]. left. by do 2 right; left.
Qed.

(** ** The monitor *)

(** The leader runs and its watch of the partition source is open. *)
Definition watching c : Prop := stopped c = false /\ ctxDone c = false /\ watchOpen c = true.

Definition role_action c t c' t' (new : list thread) : Prop :=
  stopped c' = stopped c /\ ctxDone c' = ctxDone c /\ (watchOpen c' = watchOpen c \/ monitor t = true) /\
  count starting new = 0 /\
  ((started c' = started c /\ count monitor new = 0 /\ (starting t' = true -> starting t = true) /\
    (monitor t' = monitor t \/ (monitor t' = false /\ ~ watching c'))) \/
   (starting t = true /\ monitor t = false /\ started c' = true /\ starting t' = false /\ monitor t' = false /\
    count monitor new <= 1)).

Lemma role_plain c t c' t' :
  (stopped c', ctxDone c', watchOpen c', started c') = (stopped c, ctxDone c, watchOpen c, started c) ->
  (starting t' = true -> starting t = true) -> monitor t' = monitor t -> role_action c t c' t' [].
Proof. intros [= S X O A] B M. do 2 (split; [done|]). split; [by left|]. split; [done|]. left. auto. Qed.

Lemma role_ends c t : ~ watching c -> role_action c t c Finished [].
Proof. intros N. do 2 (split; [done|]). split; [by left|]. split; [done|]. left. do 3 (split; [done|]). by right. Qed.

Lemma return_to_role j e :
  monitor (return_to j e) = monitor (RbUnlock j e) /\ (starting (return_to j e) = true -> starting (RbUnlock j e) = true).
Proof. unfold return_to, monitor, starting. simpl. destruct (j_caller j) as [[]| | | |], e as [[]|]; done. Qed.

Lemma exec_role ch c t c' t' new : exec cfg ch c t = Some (c', t', new) -> role_action c t c' t' new.
Proof.
  unfold exec. destruct t; try done; intros E.
  all: unfold exec_enum, exec_poll, exec_rebalance, exec_monitors, exec_observe, exec_trust, exec_publish, exec_return, exec_begin,
    exec_trigger, exec_label, exec_partitions in E; exec_split E; unfold close_job.
  all: try match goal with H : recordWorkerObservation _ _ _ = _ |- _ => pose proof (record_track _ _ _ _ H) as [=] end.
  all: try match goal with H : partitionInputCredibilityGuard _ _ _ = _ |- _ => pose proof (guard_track _ _ _ _ H) as [=] end.
  all: try (apply role_plain; try done; first
    [congruence|by destruct k|by destruct (j_fresh j)|by destruct (j_caller j)|by destruct winner|by destruct commit]).
  - apply role_plain; try done. by destruct ok.
  - do 2 (split; [done|]). split; [by left|]. split; [by destruct watchable|]. right. do 5 (split; [done|]).
    destruct watchable; [apply le_n|apply le_S, le_n].
  - apply role_plain; try done. simpl. congruence.
  - destruct (return_to_role j e). apply role_plain; try done. by destruct e, (j_caller j).
  - unfold restorePendingOnGraceBail. apply role_plain; try done. destruct e as [[]|]; try done. by destruct (stopped c) eqn:S; simpl; rewrite ?S.
  - do 2 (split; [done|]). split; [by right|]. split; [done|]. left. do 3 (split; [done|]). by left.
  - apply role_ends. intros (S & X & _). by rewrite S, X in Hb.
  - apply role_ends. intros (_ & _ & O). by rewrite O in Hb.
  - apply role_ends. intros (S & _ & _). congruence.
  - unfold restorePendingLabelOnGraceBail. apply role_plain; try done. destruct e as [[]|]; try done. by destruct (stopped c) eqn:S; simpl; rewrite ?S.
Qed.

(** While the leader runs, at most one partition monitor runs, and one does while
    the watch is open. *)
Definition Monitored c (ts : list thread) : Prop :=
  if started c then count starting ts = 0 /\ count monitor ts <= 1 /\ (watching c -> count monitor ts = 1)
  else watchOpen c = false /\ count monitor ts = 0 /\ count starting ts <= 1.

Lemma spawned_role c ts t : spawned c ts t -> monitor t = false /\ starting t = false.
Proof. destruct t; try done; [by destruct k|]. by intros ->. Qed.

Lemma exec_Monitored ch c t c' t' new ts1 ts2 :
  exec cfg ch c t = Some (c', t', new) -> Monitored c (ts1 ++ t :: ts2) -> Monitored c' (ts1 ++ t' :: new ++ ts2).
Proof.
  unfold Monitored. rewrite !count_spawn, !count_middle.
  intros (S & X & O & N & [(A & M & P & Q)|(P & Q & A & P' & Q' & M)])%exec_role; rewrite N.
  - assert (K : (if starting t' then 1 else 0) <= if starting t then 1 else 0).
    { destruct (starting t'); [by rewrite P|]. destruct (starting t); lia. }
    assert (W : watching c' -> watching c \/ monitor t = true).
    { unfold watching. rewrite S, X. destruct O as [->|O]; tauto. }
    rewrite A, M. destruct (started c).
    + intros (H1 & H2 & H3). split; [lia|]. destruct Q as [->|[-> Q]]; (split; [destruct (monitor t); lia|]); intros H.
      * destruct (W H) as [H'|H']; [specialize (H3 H'); lia|rewrite H' in *; lia].
      * done.
    + intros (H1 & H2 & H3). destruct (monitor t); [lia|]. split; [by destruct O as [->|O]|].
      destruct Q as [->|[-> _]]; lia.
  - rewrite A, P, Q, P', Q'. destruct (started c); [intros [? _]; exfalso; lia|]. intros (H1 & H2 & H3).
    split; [lia|]. split; [lia|]. intros (_ & _ & W). destruct O as [O|O]; congruence.
Qed.

Lemma step_Monitored x y : step cfg x y -> Monitored x.1 x.2 -> Monitored y.1 y.2.
Proof.
  destruct 1 as [c ts1 t ts2 ch c' t' new E|c ts t S|c ts|c ts|c ts b|c ts|c ts A]; simpl; try done.
  - by apply (exec_Monitored ch).
  - unfold Monitored. rewrite !count_cons. destruct (spawned_role c ts t S) as [-> ->]. done.
  - unfold Monitored. simpl. destruct (started c); [intros (? & ? & _)|by intros (? & ?)]. do 2 (split; [done|]). by intros (_ & _ & ?).
  - unfold Monitored. simpl. destruct (started c); [intros (? & ? & _)|done]. do 2 (split; [done|]). by intros (_ & ? & _).
  - unfold Monitored. simpl. rewrite A. intros (? & ? & _). do 2 (split; [done|]). by intros (? & _).
Qed.

Lemma reachable_Monitored x : reachable cfg x -> Monitored x.1 x.2.
Proof. induction 1; [|by eapply step_Monitored]. split; [done|]. split; [done|]. apply le_n. Qed.

(** C12. A change of the partition source is kept until a commit covers it, while
    the source is watched. At most one partition monitor ever runs. While the
    leader is not stopped, the context of [Start] has not ended and the source's
    watch channel is open (the source is watchable, was running when it was watched
    and has not closed the channel since), the monitor runs, and if the source has
    changed since the watch began, then the last commit covers the newest
    partitions, or a notification or the sticky flag is pending, or the
    monitor has the change in hand, or a rebalance of the monitor that saw the
    newest partitions, or failed before it could, ended in one of the ways the
    code does not retry: no workers, a suspicious worker count, a deferred label
    observation, or an error. A closed channel ends the monitor with the flag
    still set: [closed_watch_forgets_change]. *)
Theorem partition_change_not_lost c ts :
  reachable cfg (c, ts) ->
  count monitor ts <= 1 /\
  (stopped c = false -> ctxDone c = false -> watchOpen c = true ->
   count monitor ts = 1 /\
   (source_gen c = watch_gen c \/ covered c = source_gen c \/ 0 < signals c \/ pendingPartitionUpdate c = true \/
    has (carries (source_gen c)) ts \/ exists e, dropped e /\ (source_gen c, e) ∈ closed c)).
Proof.
  intros R. pose proof (reachable_Monitored _ R) as M. destruct (reachable_Tracked _ R) as [_ _ T].
  unfold Monitored, settled in *. simpl in *. split; [destruct (started c); lia|]. intros S X O. rewrite S, X, O in T.
  split; [|naive_solver]. destruct (started c); [by apply M|]. destruct M as [M _]. congruence.
Qed.
End safety.

(** ** Executions *)

(** A schedule: an action of a goroutine, or of the environment. *)
Inductive event := Act (i : nat) (ch : choice) | Poll | Change | Grace (b : bool) | Close.

Definition perform (cfg : Config) (x : config) (ev : event) : option config :=
  let '(c, ts) := x in
  match ev with
  | Act i ch =>
      t ← ts !! i; '(c', t', new) ← exec cfg ch c t; Some (c', take i ts ++ t' :: new ++ drop (S i) ts)
  | Poll => if started c then Some (c, PoLock PollDone :: ts) else None
  | Change => Some (set_signals (if watchOpen c then S (signals c) else signals c) (set_source_gen (source_gen c + 1) c), ts)
  | Grace b => Some (set_grace b c, ts)
  | Close => Some (set_watchOpen false c, ts)
  end.

Definition execute (cfg : Config) (evs : list event) (x : config) : option config :=
  foldl (λ o ev, x ← o; perform cfg x ev) (Some x) evs.

Lemma perform_step_to cfg x ev y : perform cfg x ev = Some y -> step cfg x y.
Proof.
  destruct x as [c ts], ev as [i ch| | |b|]; cbn.
  - intros (t & L & ([[c' t'] new] & E & [= <-])%bind_Some)%bind_Some.
    rewrite <- (take_drop_middle _ _ _ L) at 1. by econstructor.
  - destruct (started c) eqn:S; intros [= <-]. constructor. by left.
  - intros [= <-]. constructor.
  - intros [= <-]. constructor.
  - intros [= <-]. constructor.
Qed.

Lemma execute_reachable cfg evs x y : reachable cfg x -> execute cfg evs x = Some y -> reachable cfg y.
Proof.
  unfold execute. revert x. induction evs as [|ev evs IH]; intros x R; cbn; [by intros [= <-]|].
  destruct (perform cfg x ev) as [z|] eqn:P; cbn.
  - apply IH. eapply reachable_step; [done|]. by eapply perform_step_to.
  - clear IH. intros E. exfalso. induction evs; auto; done.
Qed.

(** The defaults of the source, and a leader with four workers. *)
Definition demo_cfg : Config := mkCalcConfig 2 50 3 50 3 0.
Definition demo_ws : list string := ["w1"; "w2"; "w3"; "w4"].
Definition demo_parts (n : nat) : list Partition := replicate n (mkPartition ["p"] 1 "").
Definition demo_commit : AssignmentCommit := mkCommit 1 1 1 true 0 demo_ws ∅ 0 0 0 0 "".

(** From the lock to the label pipeline. *)
Definition computing (ws : list string) (parts : list Partition) : list choice :=
  [Go; Go; Go; Scanned ws; Go; Go; Go; Go; Snapshot parts 1 true; Go; Go; Go].
Definition polling (ws : list string) : list choice := [Go; Scanned ws; Go; Go; Go; Go; At 0; Go].
Definition signalled : list choice := [Signal; Go; Go; Go; Claimed true].

(** The leader has started and the first assignment is published; goroutine 1 is
    the partition monitor. *)
Definition started_up : list event :=
  (Act 0 <$> [Go] ++ computing demo_ws (demo_parts 8) ++
    [Routed; Published 0 demo_commit; Go; Go; Go; Claimed true; Bootstrapped None; Launched false true; Claimed false]) ++
  [Act 1 (Watched true)].

Definition demo_start : config := (NewCalculator ∅ 0, [StRebalance false]).
Definition demo_end (evs : list event) : config := default demo_start (execute demo_cfg evs demo_start).

Lemma demo_end_reachable evs : is_Some (execute demo_cfg evs demo_start) -> reachable demo_cfg (demo_end evs).
Proof. intros [y E]. unfold demo_end. rewrite E. apply (execute_reachable _ evs demo_start); [constructor|done]. Qed.

(** The monitor publishes a change that took half of the partitions. *)
Definition demo_published : list event :=
  started_up ++ [Change] ++ (Act 1 <$> signalled ++ computing demo_ws (demo_parts 4) ++ [Routed; Published 9 demo_commit]).

Lemma demo_published_runs :
  is_Some (execute demo_cfg demo_published demo_start) /\ length (published (demo_end demo_published).1) = 2 /\
  covered (demo_end demo_published).1 = 1%Z.
Proof. split; [eexists; vm_compute; reflexivity|]. vm_compute. done. Qed.

Lemma published_batches_credible_witness :
  count rebalancing (demo_end demo_published).2 <= 1 /\ Forall (credible demo_cfg) (published (demo_end demo_published).1) /\
  length (published (demo_end demo_published).1) = 2.
Proof.
  destruct (published_batches_credible demo_cfg (demo_end demo_published).1 (demo_end demo_published).2) as (A & B & _).
  - rewrite <- surjective_pairing. apply demo_end_reachable, demo_published_runs.
  - split; [exact A|]. split; [exact B|]. apply demo_published_runs.
Defined.

(** The change is in the monitor's hands while the monitor computes. *)
Definition demo_computing : list event :=
  started_up ++ [Change] ++ (Act 1 <$> signalled ++ computing demo_ws (demo_parts 9)).

Lemma demo_computing_runs :
  is_Some (execute demo_cfg demo_computing demo_start) /\ stopped (demo_end demo_computing).1 = false /\
  ctxDone (demo_end demo_computing).1 = false /\ watchOpen (demo_end demo_computing).1 = true.
Proof. split; [eexists; vm_compute; reflexivity|]. vm_compute. done. Qed.

Lemma partition_change_not_lost_witness : count monitor (demo_end demo_computing).2 = 1.
Proof.
  apply (partition_change_not_lost demo_cfg (demo_end demo_computing).1 (demo_end demo_computing).2).
  - rewrite <- surjective_pairing. apply demo_end_reachable, demo_computing_runs.
  - apply demo_computing_runs.
  - apply demo_computing_runs.
  - apply demo_computing_runs.
Defined.

(** ** What is forgotten *)

(** The source has changed, no commit covers the change, and nothing is left that
    would publish it: every goroutine waits for a notification, and neither flag
    is set. *)
Definition forgotten (x : config) : bool :=
  bool_decide (covered x.1 <> source_gen x.1) && bool_decide (source_gen x.1 <> watch_gen x.1) &&
  started x.1 && negb (stopped x.1) && negb (grace x.1) && bool_decide (signals x.1 = 0) &&
  negb (pendingPartitionUpdate x.1) && negb (pendingLabelRecheck x.1) &&
  forallb (λ t, match t with MpWait | LmWait | Finished => true | _ => false end) x.2.

(** The publish of a notified change fails once. [restorePendingOnGraceBail]
    re-arms the flag only for a shutdown error, and a later poll, which finds the
    workers unchanged, does not rebalance. *)
Definition demo_failed_publish : list event :=
  started_up ++ [Change] ++
  (Act 1 <$> signalled ++ computing demo_ws (demo_parts 9) ++ [Routed; PublishFailed false None; Go] ++ polling demo_ws ++ [Go]) ++
  [Poll] ++ (Act 0 <$> polling demo_ws).

Theorem failed_publish_forgets_change :
  exists x, reachable demo_cfg x /\ forgotten x = true /\ closed x.1 = [(1%Z, EndedWith errFailed)].
Proof.
  exists (demo_end demo_failed_publish).
  split; [apply demo_end_reachable; eexists; vm_compute; reflexivity|]. vm_compute. done.
Qed.

(** The heartbeat scan loses three of four workers for two polls and for the
    rebalance of a notified change, which is skipped. The scan heals; the workers
    are those of the last rebalance, so no poll starts another one. *)
Definition demo_suspicious_skip : list event :=
  started_up ++
  [Poll] ++ (Act 0 <$> polling ["w1"]) ++ [Change] ++
  (Act 2 <$> signalled ++ [Go; Go; Go; Scanned ["w1"]; Go; Go; Go; Snapshot (demo_parts 9) 2 true; Go; Go] ++
    polling demo_ws ++ [Go]) ++
  [Poll] ++ (Act 0 <$> polling demo_ws).

Theorem suspicious_skip_forgets_change :
  exists x, reachable demo_cfg x /\ forgotten x = true /\ closed x.1 = [(1%Z, EndedWith errSuspiciousWorkerObservation)].
Proof.
  exists (demo_end demo_suspicious_skip).
  split; [apply demo_end_reachable; eexists; vm_compute; reflexivity|]. vm_compute. done.
Qed.

(** A change is deferred during recovery grace, and the source then closes the
    watch channel. The monitor returns with the flag set, and nobody is left to
    drain it, although the leader goes on. *)
Definition demo_closed_watch : list event :=
  started_up ++ [Grace true; Change] ++ (Act 1 <$> [Signal; Go; Go]) ++ [Grace false; Close; Act 1 Closed].

Theorem closed_watch_forgets_change :
  exists x, reachable demo_cfg x /\ started x.1 = true /\ stopped x.1 = false /\ ctxDone x.1 = false /\
    grace x.1 = false /\ pendingPartitionUpdate x.1 = true /\ (covered x.1 < source_gen x.1)%Z /\
    x.2 = [Finished; Finished; LmWait].
Proof.
  exists (demo_end demo_closed_watch).
  split; [apply demo_end_reachable; eexists; vm_compute; reflexivity|]. vm_compute. done.
Qed.

(** Three sightings of a drop from eight partitions to three are needed before it
    is accepted; the next drop, from three to none, is accepted at its first. *)
Theorem next_drop_is_unconfirmed :
  let observe n c := partitionInputCredibilityGuard demo_cfg n c in
  let c0 := set_lastKnownPartitionCount 8 (NewCalculator ∅ 0) in
  let (c1, s1) := observe 3%Z c0 in
  let (c2, s2) := observe 3%Z c1 in
  let (c3, s3) := observe 3%Z c2 in
  let (c4, s4) := observe 0%Z (set_lastKnownPartitionCount 3 c3) in
  [s1; s2; s3; s4] = [true; true; false; false].
Proof. vm_compute. done. Qed.

(** Two rebalances that fail to publish lower the worker baseline from four to two
    to one; the last published batch has four workers. *)
Definition demo_baseline : list event :=
  let failing ws := signalled ++ computing ws (demo_parts 9) ++ [Routed; PublishFailed false None; Go] ++ polling demo_ws ++ [Go] in
  started_up ++ [Change] ++ (Act 1 <$> failing ["w1"; "w2"]) ++ [Change] ++ (Act 1 <$> failing ["w1"]).

Theorem baseline_moves_without_publish :
  exists x, reachable demo_cfg x /\ lastKnownWorkerCount x.1 = 1%Z /\ (length ∘ b_workers <$> published x.1) = [4].
Proof.
  exists (demo_end demo_baseline).
  split; [apply demo_end_reachable; eexists; vm_compute; reflexivity|]. vm_compute. done.
Qed.
