(* ===== verification/Source.v ===== *)
(** * The partition source over a bucket (source/nats_kv.go, internal/partcodec)

    [NatsKV] serves the partition list that one key of a bucket holds. A watcher,
    a periodic reconciliation and the replies of the source's own writes all
    apply entries to a cache, and listeners are signalled when it changes. Every
    goroutine is a program counter and [exec] is one atomic action: a call of the
    bucket or a critical section of [mu]. Any number of [Update] and [Modify]
    calls, and writers of other processes, interleave with them. Logging is left
    out; of the metrics, the gauge of the missing bucket is kept. *)
From S2P Require Import Prelude Nats Partition KV.

(** ** The codec *)

(** encoding/json and compress/gzip on partition lists. [json_text] holds of
    partitions json keeps as they are: decoded strings always are valid UTF-8. *)
Class PartCodec := {
  json_Marshal : list Partition -> string;
  json_Unmarshal : string -> option (list Partition);
  json_text : Partition -> Prop;
  gzip_Write : string -> string;
  gzip_NewReader : string -> bool;
  io_ReadAll : string -> option string;
}.

Class PartCodecLaws `{PartCodec} := {
  json_roundtrip ps : Forall json_text ps -> json_Unmarshal (json_Marshal ps) = Some ps;
  json_decoded s ps : json_Unmarshal s = Some ps -> Forall json_text ps;
  gzip_magic s : exists c rest, gzip_Write s = String (ascii_of_nat 31) (String (ascii_of_nat 139) (String c rest));
  gzip_reader s : gzip_NewReader (gzip_Write s) = true;
  gzip_roundtrip s : io_ReadAll (gzip_Write s) = Some s;
}.

Section codec.
Context `{PartCodec}.

Definition Encode (ps : list Partition) : string := gzip_Write (json_Marshal ps).

Definition is_gzip (data : string) : bool :=
  match data with
  | String a (String b (String _ _)) => bool_decide (a = ascii_of_nat 31) && bool_decide (b = ascii_of_nat 139)
  | _ => false
  end.

(** [None] for every error. The loop at the end is that of [ValidatePartitions]. *)
Definition Decode (data : string) : option (list Partition) :=
  if decide (data = "") then Some []
  else
    json ← (if is_gzip data && gzip_NewReader data then io_ReadAll data else Some data);
    raw ← json_Unmarshal json;
    match ValidatePartitions raw with None => Some raw | Some _ => None end.

(** Keys are copied, which cannot be observed here. *)
Definition validateAndDedupe (ps : list Partition) : option (list Partition) :=
  match ValidatePartitions ps with None => Some ps | Some _ => None end.
End codec.

(** ** Configuration and state *)

Definition second : Z := 1000000000.

Record source_config := mkSourceConfig {
  key : string;
  reconcileInterval : Z;
  leadershipProbe : bool;
  updateRetries : nat;
  leaderInterval : Z;
  followerInterval : Z;
  unavailableHook : bool;
  unavailableCooldown : Z;
}.

(** The options; a retry count that is not positive keeps the default. *)
Definition NewNatsKV (k : string) (interval : option Z) (probe : bool) (retries : option Z) (hook : bool) : source_config :=
  mkSourceConfig k (default (30 * second)%Z interval) probe
    (match retries with Some n => if decide (0 < n)%Z then Z.to_nat n else 5 | None => 5 end)
    (30 * second) (300 * second) hook (30 * second).

(** A listener's channel holds at most one signal. [l_seen], not in the code, is
    the list as it was when the listener registered or last took a signal. *)
Record natsKVListener := mkListener { l_signal : bool; l_seen : list Partition }.

(** The last four fields are not in the code: the bucket's stream; whether an
    [Update] that lost its race has replaced the list without signalling it;
    whether such an [Update] has cleared the list and nothing was applied since;
    and how often the hook was called. *)
Record NatsKV := mkSource {
  partitions : list Partition;
  revision : Z;
  applyGen : Z;
  known : bool;
  running : bool;
  listeners : list natsKVListener;
  reconcileRev : Z;
  reconcileCreated : Z;
  reconcileKnown : bool;
  lastUnavailableAt : option Z;
  bucketMissing : bool;
  bucket : list msg;
  silent : bool;
  cleared : bool;
  hookCalls : nat;
}.

Definition set_state (ps : list Partition) (rev gen : Z) (kn : bool) (s : NatsKV) : NatsKV :=
  mkSource ps rev gen kn (running s) (listeners s) (reconcileRev s) (reconcileCreated s) (reconcileKnown s)
    (lastUnavailableAt s) (bucketMissing s) (bucket s) (silent s) (cleared s) (hookCalls s).
Definition set_listeners (ls : list natsKVListener) (s : NatsKV) : NatsKV :=
  mkSource (partitions s) (revision s) (applyGen s) (known s) (running s) ls (reconcileRev s) (reconcileCreated s)
    (reconcileKnown s) (lastUnavailableAt s) (bucketMissing s) (bucket s) (silent s) (cleared s) (hookCalls s).
Definition set_running (b : bool) (s : NatsKV) : NatsKV :=
  mkSource (partitions s) (revision s) (applyGen s) (known s) b (listeners s) (reconcileRev s) (reconcileCreated s)
    (reconcileKnown s) (lastUnavailableAt s) (bucketMissing s) (bucket s) (silent s) (cleared s) (hookCalls s).
Definition set_reconcile (rev created : Z) (kn : bool) (s : NatsKV) : NatsKV :=
  mkSource (partitions s) (revision s) (applyGen s) (known s) (running s) (listeners s) rev created kn
    (lastUnavailableAt s) (bucketMissing s) (bucket s) (silent s) (cleared s) (hookCalls s).
Definition set_missing (at_ : option Z) (missing : bool) (calls : nat) (s : NatsKV) : NatsKV :=
  mkSource (partitions s) (revision s) (applyGen s) (known s) (running s) (listeners s) (reconcileRev s)
    (reconcileCreated s) (reconcileKnown s) at_ missing (bucket s) (silent s) (cleared s) calls.
Definition set_bucket (l : list msg) (s : NatsKV) : NatsKV :=
  mkSource (partitions s) (revision s) (applyGen s) (known s) (running s) (listeners s) (reconcileRev s)
    (reconcileCreated s) (reconcileKnown s) (lastUnavailableAt s) (bucketMissing s) l (silent s) (cleared s) (hookCalls s).
Definition set_races (sl cl : bool) (s : NatsKV) : NatsKV :=
  mkSource (partitions s) (revision s) (applyGen s) (known s) (running s) (listeners s) (reconcileRev s)
    (reconcileCreated s) (reconcileKnown s) (lastUnavailableAt s) (bucketMissing s) (bucket s) sl cl (hookCalls s).

(** ** Applying entries *)

Definition isCASConflict (e : go_error) : bool := Is e JsErrKeyExists.

Definition isBucketUnavailableErr (e : go_error) : bool :=
  Is e JsErrBucketNotFound || Is e JsErrStreamNotFound || Is e NatsErrNoResponders.

Definition isSourceUnavailableErr (e : go_error) : bool := isBucketUnavailableErr e || Is e ContextDeadlineExceeded.

(** [partitionsEqual] *)
Definition partitionsEqual (a b : list Partition) : bool :=
  bool_decide (length a = length b) &&
  forallb (λ xy, bool_decide (Weight xy.1 = Weight xy.2) && bool_decide (Label xy.1 = Label xy.2) &&
                 bool_decide (Keys xy.1 = Keys xy.2)) (zip a b).

Section apply.
Context `{SortFunc}.

Definition sorted (ps : list Partition) : list Partition := sort_func Compare ps.

Definition uint64_inc (n : Z) : Z := ((n + 1) mod 2 ^ 64)%Z.

(** True when the list changed. *)
Definition applyLocalLocked (ps : list Partition) (rev : Z) (kn : bool) (s : NatsKV) : NatsKV * bool :=
  if decide (rev <> 0 /\ rev < revision s)%Z then (s, false)
  else
    let changed := negb (partitionsEqual (partitions s) (sorted ps)) in
    (set_races (silent s) false
       (set_state (if changed then sorted ps else partitions s) rev (uint64_inc (applyGen s)) kn s), changed).

(** A full channel keeps its signal. *)
Definition signal_all (s : NatsKV) : NatsKV :=
  set_listeners ((λ l, mkListener true (l_seen l)) <$> listeners s) s.

Definition accepts (rev : Z) (s : NatsKV) : bool := bool_decide (rev = 0 \/ revision s <= rev)%Z.

(** With whether the entry was accepted. *)
Definition applyLocal (ps : list Partition) (rev : Z) (notify : bool) (s : NatsKV) : NatsKV * bool :=
  let '(s', changed) := applyLocalLocked ps rev true s in
  (if (changed : bool) then if notify then signal_all s' else set_races true (cleared s') s' else s', accepts rev s).

Definition applyReconcileReset (ps : list Partition) (rev baseline gen : Z) (s : NatsKV) : NatsKV * bool :=
  applyLocal ps rev true
    (if decide (revision s = baseline /\ applyGen s = gen) then set_state (partitions s) 0 (applyGen s) (known s) s else s).

(** [racing]: the caller is an [Update] that lost its race. *)
Definition applyEmptyPreservingKnown (racing : bool) (s : NatsKV) : NatsKV :=
  if negb (known s) then s
  else if partitionsEqual (partitions s) [] then s
  else signal_all (set_races (silent s) (racing || cleared s) (set_state [] (revision s) (applyGen s) (known s) s)).

Definition markReconcileApplied (rev created : Z) (s : NatsKV) : NatsKV := set_reconcile rev created true s.
End apply.

Definition noteBucketUnavailable (cfg : source_config) (now : Z) (e : go_error) (s : NatsKV) : NatsKV * bool :=
  if negb (isSourceUnavailableErr e) then (s, false)
  else
    let due := match lastUnavailableAt s with
               | None => true
               | Some t => bool_decide (unavailableCooldown cfg <= time_sub now t)%Z
               end in
    if unavailableHook cfg && due then (set_missing (Some now) true (S (hookCalls s)) s, true)
    else (set_missing (lastUnavailableAt s) true (hookCalls s) s, true).

Definition noteBucketAvailable (s : NatsKV) : NatsKV := set_missing (lastUnavailableAt s) false (hookCalls s) s.

(** The leadership probe answers at each tick. *)
Definition nextReconcileInterval (cfg : source_config) (leader : bool) : Z :=
  if leadershipProbe cfg then if leader then leaderInterval cfg else followerInterval cfg else reconcileInterval cfg.

(** ** Goroutines *)

(** The functions [AddPartitions] and [RemovePartitions] give to [Modify] once
    they have checked their arguments. *)
Fixpoint add_missing (existing : gset string) (ps : list Partition) : list Partition :=
  match ps with
  | [] => []
  | p :: ps =>
      if decide (CanonicalID p ∈ existing) then add_missing existing ps
      else p :: add_missing ({[CanonicalID p]} ∪ existing) ps
  end.

Definition AddPartitions (ps current : list Partition) : list Partition :=
  current ++ add_missing (list_to_set (CanonicalID <$> current)) ps.

Definition RemovePartitions (ps current : list Partition) : list Partition :=
  filter (λ p, CanonicalID p ∉ CanonicalID <$> ps) current.

(** What [Modify] is called with. *)
Inductive transform := Adding (ps : list Partition) | Removing (ps : list Partition) | Custom (fn : list Partition -> list Partition).

Definition transformed (fn : transform) : list Partition -> list Partition :=
  match fn with Adding ps => AddPartitions ps | Removing ps => RemovePartitions ps | Custom fn => fn end.


Inductive src_err := ErrInvalid | ErrKV (e : go_error) | ErrDecode | ErrUpdateRetryExhausted.

Inductive thread :=
(* watchLoop, restartWatcher *)
| WtLoop
| WtApply (m : msg)
| WtRestart
(* reconcileLoop, reconcileOnce, applyReconcileEntry *)
| RcIdle
| RcGet
| RcEmpty
| RcCheck (ps : list Partition) (e : entry)
| RcApply (ps : list Partition) (e : entry)
| RcConfirm (baseline gen : Z)
| RcReset (ps : list Partition) (e : entry) (baseline gen : Z)
(* Update, refreshFromKV *)
| UpEnter (ps : list Partition)
| UpRead (ps : list Partition) (attempt : nat)
| UpWrite (ps : list Partition) (rev : Z) (kn : bool) (attempt : nat)
| UpApply (ps : list Partition) (rev : Z)
| UpRefresh (ps : list Partition) (attempt : nat)
| UpEmpty (ps : list Partition) (attempt : nat)
| UpRefreshed (ps cur : list Partition) (rev : Z) (attempt : nat)
(* Modify *)
| MoFetch (fn : transform) (attempt : nat)
| MoWrite (fn : transform) (cur clean : list Partition) (rev : Z) (attempt : nat)
| MoApply (clean : list Partition) (rev : Z)
| Returned (x : option src_err).

(** What the environment answers. A write reports its outcome and the message
    that reached the stream, if one did. *)
Inductive choice :=
| Go
| Got (now : Z) (x : res go_error entry)
| Wrote (x : res go_error Z) (landed : option msg)
| Delivered (m : option msg)
| Closed
| Rebound (now : Z) (x : option go_error)
| GaveUp
| Tick (leader : bool)
| Cancelled.

Section source.
Context `{SortFunc, PartCodec} (cfg : source_config).

Definition outcome : Type := NatsKV * thread.
Definition go (s : NatsKV) (t : thread) : option outcome := Some (s, t).

(** [tryRebindWatcher], which a retry envelope runs until it succeeds or gives up. *)
Definition exec_rebind (ch : choice) (s : NatsKV) (t : thread) : option outcome :=
  match t, ch with
  | WtRestart, Cancelled => if running s then None else go s (Returned None)
  | WtRestart, Rebound now (Some e) => go (noteBucketUnavailable cfg now e s).1 WtRestart
  | WtRestart, Rebound _ None => go (noteBucketAvailable s) WtLoop
  | WtRestart, GaveUp => go s (Returned None)
  | _, _ => None
  end.

(** [watchLoop] *)
Definition exec_watch (ch : choice) (s : NatsKV) (t : thread) : option outcome :=
  match t, ch with
  | WtLoop, Delivered None => go s WtLoop
  | WtLoop, Delivered (Some m) => go s (WtApply m)
  | WtLoop, Closed => go s WtRestart
  | WtLoop, Cancelled => if running s then None else go s (Returned None)
  | WtApply m, Go =>
      match m_body m with
      | Put v => match Decode v with Some ps => go (applyLocal ps (m_rev m) true s).1 WtLoop | None => go s WtLoop end
      | _ => go (applyLocal [] (m_rev m) true s).1 WtLoop
      end
  | _, _ => None
  end.

(** [reconcileLoop] *)
Definition exec_loop (ch : choice) (s : NatsKV) (t : thread) : option outcome :=
  match t, ch with
  | RcIdle, Tick leader => if decide (nextReconcileInterval cfg leader <= 0)%Z then go s (Returned None) else go s RcGet
  | RcIdle, Cancelled => if running s then None else go s (Returned None)
  | _, _ => None
  end.

(** [reconcileOnce] *)
Definition exec_reconcile (ch : choice) (s : NatsKV) (t : thread) : option outcome :=
  match t, ch with
  | RcGet, Got now (Err e) =>
      if Is e JsErrKeyNotFound then go (noteBucketAvailable s) RcEmpty else go (noteBucketUnavailable cfg now e s).1 RcIdle
  | RcGet, Got _ (Ok e) =>
      let s' := noteBucketAvailable s in
      if reconcileKnown s && bool_decide (e_revision e = reconcileRev s) && bool_decide (e_created e = reconcileCreated s)
      then go s' RcIdle
      else match Decode (e_value e) with Some ps => go s' (RcCheck ps e) | None => go s' RcIdle end
  | RcEmpty, Go => go (set_reconcile (reconcileRev s) (reconcileCreated s) false (applyEmptyPreservingKnown false s)) RcIdle
  | _, _ => None
  end.

(** [applyReconcileEntry] *)
Definition exec_entry (ch : choice) (s : NatsKV) (t : thread) : option outcome :=
  match t, ch with
  | RcCheck ps e, Go =>
      if decide (e_revision e = 0 \/ revision s <= e_revision e)%Z then go s (RcApply ps e)
      else go s (RcConfirm (revision s) (applyGen s))
  | RcApply ps e, Go =>
      let '(s', accepted) := applyLocal ps (e_revision e) true s in
      go (if (accepted : bool) then markReconcileApplied (e_revision e) (e_created e) s' else s') RcIdle
  | RcConfirm _ _, Got now (Err e) =>
      if Is e JsErrKeyNotFound then go s RcIdle else go (noteBucketUnavailable cfg now e s).1 RcIdle
  | RcConfirm baseline gen, Got _ (Ok e) =>
      match Decode (e_value e) with
      | None => go s RcIdle
      | Some ps =>
          if decide (e_revision e <> 0 /\ e_revision e < baseline)%Z then go s (RcReset ps e baseline gen)
          else go s (RcApply ps e)
      end
  | RcReset ps e baseline gen, Go =>
      let '(s', accepted) := applyReconcileReset ps (e_revision e) baseline gen s in
      go (if (accepted : bool) then markReconcileApplied (e_revision e) (e_created e) s' else s') RcIdle
  | _, _ => None
  end.

Definition land (landed : option msg) (s : NatsKV) : NatsKV := set_bucket (bucket s ++ option_list landed) s.

(** [refreshFromKV], after [Update] has lost a race. *)
Definition exec_refresh (ch : choice) (s : NatsKV) (t : thread) : option outcome :=
  match t, ch with
  | UpRefresh ps attempt, Got _ (Err e) =>
      if Is e JsErrKeyNotFound then go s (UpEmpty ps attempt) else go s (Returned (Some (ErrKV e)))
  | UpRefresh ps attempt, Got _ (Ok e) =>
      match Decode (e_value e) with
      | Some cur => go s (UpRefreshed ps cur (e_revision e) attempt)
      | None => go s (Returned (Some ErrDecode))
      end
  | UpEmpty ps attempt, Go => go (applyEmptyPreservingKnown true s) (UpRead ps (S attempt))
  | UpRefreshed ps cur rev attempt, Go => go (applyLocal cur rev false s).1 (UpRead ps (S attempt))
  | _, _ => None
  end.

(** [Update] *)
Definition exec_update (ch : choice) (s : NatsKV) (t : thread) : option outcome :=
  match t, ch with
  | UpEnter ps, Go =>
      match validateAndDedupe ps with Some clean => go s (UpRead clean 0) | None => go s (Returned (Some ErrInvalid)) end
  | UpRead ps attempt, Go =>
      if decide (attempt < updateRetries cfg) then go s (UpWrite ps (revision s) (known s) attempt)
      else go s (Returned (Some ErrUpdateRetryExhausted))
  | UpWrite ps _ _ attempt, Wrote x landed =>
      match x with
      | Ok rev => go (land landed s) (UpApply ps rev)
      | Err e => if isCASConflict e then go (land landed s) (UpRefresh ps attempt)
                 else go (land landed s) (Returned (Some (ErrKV e)))
      end
  | UpApply ps rev, Go => go (applyLocal ps rev true s).1 (Returned None)
  | _, _ => None
  end.

(** [Modify] with [fetchFromKV]. *)
Definition exec_modify (ch : choice) (s : NatsKV) (t : thread) : option outcome :=
  match t, ch with
  | MoFetch fn attempt, Got _ x =>
      if decide (updateRetries cfg <= attempt) then None
      else
        let propose cur rev :=
          match validateAndDedupe (transformed fn cur) with
          | Some clean => go s (MoWrite fn cur clean rev attempt)
          | None => go s (Returned (Some ErrInvalid))
          end in
        match x with
        | Err e => if Is e JsErrKeyNotFound then propose [] 0%Z else go s (Returned (Some (ErrKV e)))
        | Ok e => match Decode (e_value e) with
                  | Some cur => propose cur (e_revision e)
                  | None => go s (Returned (Some ErrDecode))
                  end
        end
  | MoFetch fn attempt, Go =>
      if decide (updateRetries cfg <= attempt) then go s (Returned (Some ErrUpdateRetryExhausted)) else None
  | MoWrite fn _ clean _ attempt, Wrote x landed =>
      match x with
      | Ok rev => go (land landed s) (MoApply clean rev)
      | Err e => if isCASConflict e then go (land landed s) (MoFetch fn (S attempt))
                 else go (land landed s) (Returned (Some (ErrKV e)))
      end
  | MoApply clean rev, Go => go (applyLocal clean rev true s).1 (Returned None)
  | _, _ => None
  end.

Definition exec (ch : choice) (s : NatsKV) (t : thread) : option outcome :=
  match t with
  | WtLoop | WtApply _ => exec_watch ch s t
  | WtRestart => exec_rebind ch s t
  | RcIdle => exec_loop ch s t
  | RcGet | RcEmpty => exec_reconcile ch s t
  | RcCheck _ _ | RcApply _ _ | RcConfirm _ _ | RcReset _ _ _ _ => exec_entry ch s t
  | UpEnter _ | UpRead _ _ | UpWrite _ _ _ _ | UpApply _ _ => exec_update ch s t
  | UpRefresh _ _ | UpEmpty _ _ | UpRefreshed _ _ _ _ => exec_refresh ch s t
  | MoFetch _ _ | MoWrite _ _ _ _ _ | MoApply _ _ => exec_modify ch s t
  | Returned _ => None
  end.

(** ** Executions *)

Definition new_source (l : list msg) : NatsKV :=
  mkSource [] 0 0 false false [] 0 0 false None false l false false 0.

(** [Start]: the entry is read with [mu] held; [None] when it returns an error. *)
Definition Start (x : res go_error entry) (watching : bool) (s : NatsKV) : option NatsKV :=
  s' ← match x with
       | Err e => if Is e JsErrKeyNotFound then Some (applyLocalLocked [] 0 false s).1 else None
       | Ok e => ps ← Decode (e_value e); Some (applyLocalLocked (sorted ps) (e_revision e) true s).1
       end;
  if watching then Some (set_running true s') else None.

(** [Watch], the end of a watch, and a listener taking its signal. *)
Definition Watch (s : NatsKV) : NatsKV := set_listeners (listeners s ++ [mkListener false (partitions s)]) s.
Definition unwatch (i : nat) (s : NatsKV) : NatsKV := set_listeners (delete i (listeners s)) s.
Definition take_signal (i : nat) (s : NatsKV) : NatsKV :=
  set_listeners (alter (λ _, mkListener false (partitions s)) i (listeners s)) s.
Definition Stop (s : NatsKV) : NatsKV := set_listeners [] (set_running false s).

(** The documented behaviour of the bucket: a read returns the current entry, the
    watcher delivers messages of the key, and a conditional write appends a
    message if its condition holds and reports a conflict only if it does not;
    any other failure leaves open whether the write landed. *)
Definition fresh_msg (l : list msg) (m : msg) : Prop :=
  m_body m <> Expired /\ (0 < m_rev m)%Z /\ Forall (λ m', m_rev m' < m_rev m /\ m_time m' <= m_time m)%Z l.

Definition write_condition (t : thread) (l : list msg) : Prop :=
  match t with
  | UpWrite _ rev true _ => last_rev l (key cfg) = rev
  | UpWrite _ _ false _ => live l (key cfg) = None
  | MoWrite _ _ _ rev _ => if decide (rev = 0%Z) then live l (key cfg) = None else last_rev l (key cfg) = rev
  | _ => False
  end.

Definition write_data (t : thread) : string :=
  match t with UpWrite ps _ _ _ => Encode ps | MoWrite _ _ clean _ _ => Encode clean | _ => "" end.

Definition truthful (s : NatsKV) (t : thread) (ch : choice) : Prop :=
  match ch with
  | Got _ (Ok e) => exists m, live (bucket s) (key cfg) = Some m /\ e = entry_of m
  | Got _ (Err e) => Is e JsErrKeyNotFound = true -> live (bucket s) (key cfg) = None
  | Delivered (Some m) => m ∈ bucket s /\ m_key m = key cfg
  | Wrote x (Some m) =>
      write_condition t (bucket s) /\ fresh_msg (bucket s) m /\ m_key m = key cfg /\ m_body m = Put (write_data t) /\
      match x with Ok rev => rev = m_rev m | Err e => isCASConflict e = false end
  | Wrote x None => match x with Ok _ => False | Err e => isCASConflict e = true -> ~ write_condition t (bucket s) end
  | _ => True
  end.

Definition config : Type := NatsKV * list thread.

(** A call of [Update], [AddPartitions], [RemovePartitions] or [Modify], with
    partitions that json keeps. *)
Definition call (t : thread) : Prop :=
  match t with
  | UpEnter ps => Forall json_text ps
  | MoFetch fn 0 => forall ps, Forall json_text ps -> Forall json_text (transformed fn ps)
  | _ => False
  end.

Inductive step : config -> config -> Prop :=
| step_thread s ts1 t ts2 ch s' t' :
    truthful s t ch -> exec ch s t = Some (s', t') -> step (s, ts1 ++ t :: ts2) (s', ts1 ++ t' :: ts2)
| step_write s ts m : fresh_msg (bucket s) m -> step (s, ts) (set_bucket (bucket s ++ [m]) s, ts)
| step_call s ts t : call t -> step (s, ts) (s, t :: ts)
| step_watch s ts : running s = true -> step (s, ts) (Watch s, ts)
| step_unwatch s ts i : step (s, ts) (unwatch i s, ts)
| step_take s ts i l : listeners s !! i = Some l -> l_signal l = true -> step (s, ts) (take_signal i s, ts)
| step_stop s ts : step (s, ts) (Stop s, ts).

(** A stream in the order of its revisions. *)
Definition stream_ok (l : list msg) : Prop :=
  StronglySorted (λ m m', m_rev m < m_rev m' /\ m_time m <= m_time m')%Z l /\
  Forall (λ m, m_body m <> Expired /\ (0 < m_rev m)%Z) l.

Inductive reachable : config -> Prop :=
| reachable_start l now x s :
    stream_ok l -> truthful (new_source l) RcGet (Got now x) -> Start x true (new_source l) = Some s ->
    reachable (s, [WtLoop; RcIdle])
| reachable_step c c' : reachable c -> step c c' -> reachable c'.

(** The bucket has been deleted and created again: its messages are younger. *)
Definition replaced (l l' : list msg) : Prop :=
  stream_ok l' /\ forall m m', m ∈ l -> m' ∈ l' -> (m_time m < m_time m')%Z.

(** Executions in which this happens any number of times, with the streams of the
    earlier incarnations. The watcher may still deliver their messages. *)
Definition life : Type := list (list msg) * config.

Inductive life_step : life -> life -> Prop :=
| life_same past c c' : step c c' -> life_step (past, c) (past, c')
| life_replace past s ts l :
    replaced (bucket s) l -> life_step (past, (s, ts)) (past ++ [bucket s], (set_bucket l s, ts))
| life_deliver past s ts1 ts2 m :
    m ∈ concat past -> m_key m = key cfg ->
    life_step (past, (s, ts1 ++ WtLoop :: ts2)) (past, (s, ts1 ++ WtApply m :: ts2)).

Inductive lives : life -> Prop :=
| lives_start c : reachable c -> lives ([], c)
| lives_step x y : lives x -> life_step x y -> lives y.
End source.
