(* ===== verification/SourceSafety.v ===== *)
(** * What the partition source promises

    In every interleaving the source serves the list of the entry whose revision
    it reports, or the empty list, and its revision goes back only by a confirmed
    reset after the bucket was replaced; on one bucket [Modify] loses no update;
    listeners are signalled; and a reconciliation that nobody disturbs makes the
    source agree with the bucket, also with one that was deleted and created
    again. The executions at the end show where these promises stop. *)
From S2P Require Import Prelude Nats Partition KV Source.

(** ** Lists and the codec *)

Lemma partitionsEqual_spec a b : partitionsEqual a b = true <-> a = b.
Proof.
  unfold partitionsEqual. revert b. induction a as [|x a IH]; intros [|y b]; cbn; try done.
  specialize (IH b). rewrite andb_true_iff, bool_decide_eq_true in IH.
  rewrite !andb_true_iff, !bool_decide_eq_true. destruct x, y; cbn. split.
  - intros (L & ((-> & ->) & ->) & F). f_equal. apply IH. split; [lia|done].
  - intros [= -> -> -> E]. apply IH in E as [L F]. split_and!; try done. lia.
Qed.

Lemma valid_NoDup ps : ValidatePartitions ps = None -> NoDup (keys_of ps).
Proof. intros (_ & N & _)%validate_from_ok. by rewrite <- NoDup_canonical_keys. Qed.

(** Partitions with distinct keys are sorted in one way only. *)
Lemma sorted_perm `{SortFunc} ps ps' : NoDup (keys_of ps) -> ps ≡ₚ ps' -> sorted ps = sorted ps'.
Proof.
  intros N P. unfold sorted. apply (StronglySorted_unique_strong (cmp_le Compare)).
  - intros x y X Y C D. rewrite elem_of_sort_func in X, Y. rewrite <- P in Y.
    assert (Keys x = Keys y) as E.
    { apply compare_keys_eq. unfold cmp_le, Compare in C, D. rewrite compare_keys_antisym in D. lia. }
    unfold keys_of in N. apply list_elem_of_lookup in X as [i X], Y as [j Y].
    assert (i = j) as ->; [|congruence].
    eapply NoDup_lookup; [exact N| |]; rewrite list_lookup_fmap; [by rewrite X|rewrite Y; cbn; by rewrite <- E].
  - apply sort_func_ssorted, Compare_order.
  - apply sort_func_ssorted, Compare_order.
  - by rewrite !sort_func_perm.
Qed.

Section codec.
Context `{PartCodecLaws}.

(** What [Encode] writes [Decode] reads back. *)
Lemma Decode_Encode ps : ValidatePartitions ps = None -> Forall json_text ps -> Decode (Encode ps) = Some ps.
Proof.
  intros V T. unfold Decode, Encode. destruct (gzip_magic (json_Marshal ps)) as (c & rest & M).
  rewrite decide_False by (by rewrite M). assert (is_gzip (gzip_Write (json_Marshal ps)) = true) as -> by (rewrite M; by vm_compute).
  rewrite gzip_reader, gzip_roundtrip. cbn. rewrite json_roundtrip by done. cbn. by rewrite V.
Qed.

Lemma Decode_valid v ps : Decode v = Some ps -> ValidatePartitions ps = None.
Proof.
  unfold Decode. case_decide; [by intros [= <-]|]. intros (j & _ & (raw & U & E)%bind_Some)%bind_Some.
  by destruct (ValidatePartitions raw) eqn:V; simplify_eq.
Qed.

Lemma Decode_text v ps : Decode v = Some ps -> Forall json_text ps.
Proof.
  unfold Decode. case_decide; [by intros [= <-]|]. intros (j & _ & (raw & U & E)%bind_Some)%bind_Some.
  apply json_decoded in U. by destruct (ValidatePartitions raw); simplify_eq.
Qed.

Lemma validateAndDedupe_ok ps clean : validateAndDedupe ps = Some clean -> clean = ps /\ ValidatePartitions ps = None.
Proof. unfold validateAndDedupe. case_match; naive_solver. Qed.
End codec.

Section safety.
Context `{SortFunc, PartCodecLaws} (cfg : source_config).
Implicit Types (s : NatsKV) (t : thread) (l : list msg) (m : msg).

(** ** The content of messages *)

Definition msg_parts m : option (list Partition) :=
  match m_body m with Put v => Decode v | Del => Some [] | Expired => None end.

Definition message l m : Prop := m ∈ l /\ m_key m = key cfg.

Definition entry_at l (rev : Z) (ps : list Partition) : Prop :=
  exists m, message l m /\ m_rev m = rev /\ msg_parts m = Some ps.

(** The list the bucket holds; none when its entry cannot be decoded. *)
Definition current l : option (list Partition) :=
  match live l (key cfg) with Some m => msg_parts m | None => Some [] end.

Lemma source_stream_rev_inj l m m' : stream_ok l -> m ∈ l -> m' ∈ l -> m_rev m = m_rev m' -> m = m'.
Proof.
  intros [S _]. revert S. induction l as [|x l IH]; [by intros _ ?%not_elem_of_nil|].
  intros S Hm Hm' E. inversion S as [|? ? S' F]; subst. rewrite Forall_forall in F.
  apply elem_of_cons in Hm as [->|Hm], Hm' as [->|Hm']; [done| | |by apply IH].
  - specialize (F _ Hm'). lia.
  - specialize (F _ Hm). lia.
Qed.

Lemma entry_at_fun l rev ps ps' : stream_ok l -> entry_at l rev ps -> entry_at l rev ps' -> ps = ps'.
Proof.
  intros O (m & [M _] & R & P) (m' & [M' _] & R' & P'). assert (m = m') as -> by (eapply source_stream_rev_inj; eauto; lia).
  congruence.
Qed.

Lemma entry_at_pos l rev ps : stream_ok l -> entry_at l rev ps -> (0 < rev)%Z.
Proof. intros [_ F] (m & [M _] & <- & _). rewrite Forall_forall in F. by apply F. Qed.

Lemma entry_at_app l l' rev ps : entry_at l rev ps -> entry_at (l ++ l') rev ps.
Proof. intros (m & [M K] & R). exists m. split; [|done]. split; [set_solver|done]. Qed.

(** The last message of the key has its greatest revision. *)
Lemma last_msg_max l m m' : stream_ok l -> last_msg l (key cfg) = Some m -> message l m' -> (m_rev m' <= m_rev m)%Z.
Proof.
  intros [S _] L [M K]. unfold last_msg in L.
  assert (StronglySorted (λ a b, m_rev a < m_rev b /\ m_time a <= m_time b)%Z (filter (λ m, m_key m = key cfg) l)) as S'
    by (by apply StronglySorted_filter).
  assert (m' ∈ filter (λ m, m_key m = key cfg) l) as M' by (by apply list_elem_of_filter).
  revert S' L M'. generalize (filter (λ m, m_key m = key cfg) l) as k. clear. induction k as [|x k IH]; [done|].
  intros S L M. inversion S as [|? ? S' F]; subst. destruct k as [|y k].
  - cbn in L. injection L as ->. apply list_elem_of_singleton in M as ->. lia.
  - rewrite last_cons_cons in L. apply elem_of_cons in M as [->|M]; [|by apply IH].
    apply last_Some_elem_of in L. rewrite Forall_forall in F. specialize (F _ L). lia.
Qed.

Lemma stream_snoc l m : stream_ok l -> fresh_msg l m -> stream_ok (l ++ [m]).
Proof.
  intros [S F] (B & P & L). split; [by apply StronglySorted_snoc|]. apply Forall_app. split; [done|by constructor].
Qed.

(** ** The invariant *)

(** The list is that of the entry whose revision is reported, or was cleared by a
    read that found no entry. *)
Definition local_ok s : Prop :=
  if known s then exists ps, entry_at (bucket s) (revision s) ps /\ (partitions s = sorted ps \/ partitions s = [])
  else revision s = 0%Z /\ partitions s = [].

(** What the reconciliation remembers: an entry that was applied, and since when
    only an [Update] that lost its race may have cleared the list. *)
Definition mark_ok s : Prop :=
  reconcileKnown s = true ->
  known s = true /\ (reconcileRev s <= revision s)%Z /\
  (exists m, message (bucket s) m /\ m_rev m = reconcileRev s /\ m_time m = reconcileCreated s) /\
  (cleared s = false -> forall ps, entry_at (bucket s) (revision s) ps -> partitions s = sorted ps).

Record good s : Prop := {
  g_stream : stream_ok (bucket s);
  g_local : local_ok s;
  g_mark : mark_ok s;
}.

Definition kept (ps : list Partition) : Prop := ValidatePartitions ps = None /\ Forall json_text ps.

Definition text_fn (fn : transform) : Prop := forall ps, Forall json_text ps -> Forall json_text (transformed fn ps).

Definition read_entry l (ps : list Partition) (e : entry) : Prop :=
  exists m v, message l m /\ m_body m = Put v /\ Decode v = Some ps /\ m_rev m = e_revision e /\ m_time m = e_created e.

(** What a goroutine knows. A reset of the revision is not reached as long as the
    bucket is not replaced. *)
Definition thread_ok l t : Prop :=
  match t with
  | WtApply m => message l m
  | RcCheck ps e | RcApply ps e => read_entry l ps e
  | RcConfirm baseline _ => exists m, message l m /\ m_rev m = baseline
  | RcReset _ _ _ _ => False
  | UpEnter ps => Forall json_text ps
  | UpRead ps _ | UpWrite ps _ _ _ | UpRefresh ps _ | UpEmpty ps _ => kept ps
  | UpApply ps rev => entry_at l rev ps
  | UpRefreshed ps cur rev _ => kept ps /\ entry_at l rev cur
  | MoFetch fn _ => text_fn fn
  | MoWrite fn cur clean rev _ =>
      text_fn fn /\ kept clean /\ clean = transformed fn cur /\
      ((rev = 0%Z /\ cur = []) \/ exists m v, message l m /\ m_rev m = rev /\ m_body m = Put v /\ Decode v = Some cur)
  | MoApply clean rev => entry_at l rev clean
  | WtLoop | WtRestart | RcIdle | RcGet | RcEmpty | Returned _ => True
  end.

Lemma message_app l l' m : message l m -> message (l ++ l') m.
Proof. intros [M K]. split; [set_solver|done]. Qed.

Lemma thread_ok_app l l' t : thread_ok l t -> thread_ok (l ++ l') t.
Proof.
  destruct t; cbn; unfold read_entry, entry_at; naive_solver eauto using message_app.
Qed.

Lemma read_entry_at l ps e : read_entry l ps e -> entry_at l (e_revision e) ps.
Proof. intros (m & v & M & B & D & R & _). exists m. unfold msg_parts. by rewrite B. Qed.

(** ** Applying an entry *)

Lemma applyLocal_dropped ps rev n s : accepts rev s = false -> applyLocal ps rev n s = (s, false).
Proof.
  intros A. unfold applyLocal, applyLocalLocked. pose proof A as A'. apply bool_decide_eq_false in A'.
  rewrite decide_True by lia. by rewrite A.
Qed.

Lemma applyLocal_accepted ps rev n s :
  accepts rev s = true ->
  exists s', applyLocal ps rev n s = (s', true) /\
    partitions s' = sorted ps /\ revision s' = rev /\ known s' = true /\ cleared s' = false /\ bucket s' = bucket s /\
    reconcileRev s' = reconcileRev s /\ reconcileCreated s' = reconcileCreated s /\ reconcileKnown s' = reconcileKnown s.
Proof.
  intros A. unfold applyLocal, applyLocalLocked. pose proof A as A'. apply bool_decide_eq_true in A'.
  rewrite decide_False by lia. rewrite A.
  destruct (partitionsEqual (partitions s) (sorted ps)) eqn:E; cbn; [apply partitionsEqual_spec in E|destruct n];
    (eexists; split; [reflexivity|]); by cbn.
Qed.

Lemma good_accepted s s' ps rev :
  good s -> entry_at (bucket s) rev ps -> (revision s <= rev)%Z ->
  partitions s' = sorted ps -> revision s' = rev -> known s' = true -> cleared s' = false -> bucket s' = bucket s ->
  reconcileRev s' = reconcileRev s -> reconcileCreated s' = reconcileCreated s -> reconcileKnown s' = reconcileKnown s ->
  good s'.
Proof.
  intros [O L M] E R P' R' K' C' B' Mr Mc Mk. constructor; [by rewrite B'| |].
  - unfold local_ok. rewrite K', B', R', P'. eauto.
  - unfold mark_ok in *. rewrite K', B', R', P', Mr, Mc, Mk. intros Hk. destruct (M Hk) as (_ & M1 & M2 & _).
    split; [done|]. split; [lia|]. split; [done|]. intros _ ps' E'. f_equal. by eapply entry_at_fun.
Qed.

Lemma applyLocal_good ps rev n s :
  good s -> entry_at (bucket s) rev ps ->
  let s' := (applyLocal ps rev n s).1 in good s' /\ bucket s' = bucket s /\ (revision s <= revision s')%Z.
Proof.
  intros G E. pose proof (entry_at_pos _ _ _ (g_stream _ G) E) as P. destruct (accepts rev s) eqn:A.
  - destruct (applyLocal_accepted ps rev n s A) as (s' & -> & Q1 & Q2 & Q3 & Q4 & Q5 & Q6 & Q7 & Q8). cbn.
    apply bool_decide_eq_true in A. split; [|split; [done|lia]].
    eapply (good_accepted s s' ps rev); eauto. lia.
  - rewrite applyLocal_dropped by done. cbn. split; [done|]. split; [done|lia].
Qed.

(** The entry the reconciliation applied is remembered only if it was accepted. *)
Lemma reconcile_apply_good ps e s :
  good s -> read_entry (bucket s) ps e ->
  let '(s', accepted) := applyLocal ps (e_revision e) true s in
  let s2 := if (accepted : bool) then markReconcileApplied (e_revision e) (e_created e) s' else s' in
  good s2 /\ bucket s2 = bucket s /\ (revision s <= revision s2)%Z.
Proof.
  intros G R. pose proof (read_entry_at _ _ _ R) as E. pose proof (entry_at_pos _ _ _ (g_stream _ G) E) as P.
  destruct (accepts (e_revision e) s) eqn:A.
  - destruct (applyLocal_good ps (e_revision e) true s G E) as (G' & _ & _). revert G'.
    destruct (applyLocal_accepted ps (e_revision e) true s A) as (s' & -> & Q1 & Q2 & Q3 & Q4 & Q5 & Q6 & Q7 & Q8). cbn.
    intros G'. apply bool_decide_eq_true in A. split; [|split; [done|lia]].
    destruct G' as [O L M]. constructor; [done|done|]. intros _. cbn. rewrite Q5. split; [done|]. split; [lia|].
    split; [destruct R as (m & v & ? & _ & _ & ? & ?); by exists m|]. intros _ ps' E'. rewrite Q1. f_equal.
    eapply entry_at_fun; [apply G|done|]. by rewrite Q2 in E'.
  - rewrite applyLocal_dropped by done. split; [done|]. split; [done|lia].
Qed.

Lemma applyEmpty_good (racing reset : bool) s :
  good s -> (racing = true \/ reset = true) ->
  let s' := applyEmptyPreservingKnown racing s in
  let s2 := if reset then set_reconcile (reconcileRev s) (reconcileCreated s) false s' else s' in
  good s2 /\ bucket s2 = bucket s /\ revision s2 = revision s.
Proof.
  intros [O L M] R. unfold applyEmptyPreservingKnown. destruct (known s) eqn:K; cbn.
  - destruct (partitionsEqual (partitions s) []) eqn:E.
    + destruct reset; [|by split]. split; [by constructor|done].
    + assert (good (signal_all (set_races (silent s) (racing || cleared s) (set_state [] (revision s) (applyGen s) true s)))
        \/ reset = true) as [G| ->].
      { destruct R as [->|]; [left|by right]. constructor; [done| |].
        - unfold local_ok in *. cbn. rewrite K in *. destruct L as (ps & L & _). eauto.
        - intros Mk. destruct (M Mk) as (M1 & M2 & M3 & _). cbn. split; [done|]. split; [done|]. split; [done|]. done. }
      * destruct reset; [|by split]. split; [by constructor; try apply G|done].
      * split; [|done]. constructor; [done| |done]. unfold local_ok in *. cbn. rewrite K in *.
        destruct L as (ps & L & _). eauto.
  - destruct reset; [|by split]. split; [by constructor|done].
Qed.

Lemma good_snoc s m : good s -> fresh_msg (bucket s) m -> good (set_bucket (bucket s ++ [m]) s).
Proof.
  intros [O L M] F. pose proof (stream_snoc _ _ O F) as O'. constructor; [done| |].
  - unfold local_ok in *. cbn. destruct (known s); [|done]. destruct L as (ps & L & Q). eauto using entry_at_app.
  - intros K. destruct (M K) as (K' & R & (m' & M1 & M2) & C). cbn. split; [done|]. split; [done|].
    split; [exists m'; eauto using message_app|]. intros Cl ps E. unfold local_ok in L. rewrite K' in L.
    destruct L as (ps' & L & _). assert (ps = ps') as -> by (eapply entry_at_fun; eauto using entry_at_app). by apply C.
Qed.

(** ** Every action *)

Definition fine s s' t' : Prop :=
  good s' /\ thread_ok (bucket s') t' /\ (exists l, bucket s' = bucket s ++ l) /\ (revision s <= revision s')%Z.

Lemma fine_same s t' : good s -> thread_ok (bucket s) t' -> fine s s t'.
Proof. intros G T. split; [done|]. split; [done|]. split; [exists []; by rewrite app_nil_r|lia]. Qed.

(** Actions that leave the served list and the stream alone. *)
Lemma fine_note s s' t' :
  good s -> thread_ok (bucket s) t' ->
  (exists a b n, s' = set_missing a b n s) -> fine s s' t'.
Proof. intros G T (a & b & n & ->). destruct (fine_same s t' G T) as (_ & F). split; [by destruct G|exact F]. Qed.

Lemma source_fine_apply ps rev n s t' :
  good s -> entry_at (bucket s) rev ps -> thread_ok (bucket s) t' -> fine s (applyLocal ps rev n s).1 t'.
Proof.
  intros G E T. destruct (applyLocal_good ps rev n s G E) as (G' & B & R). split; [done|]. rewrite B.
  split; [done|]. split; [exists []; by rewrite app_nil_r|done].
Qed.

Lemma note_unavailable now e s : exists a b n, (noteBucketUnavailable cfg now e s).1 = set_missing a b n s.
Proof.
  unfold noteBucketUnavailable. destruct (isSourceUnavailableErr e); cbn.
  - case_match; cbn; eauto.
  - exists (lastUnavailableAt s), (bucketMissing s), (hookCalls s). by destruct s.
Qed.

Lemma note_available s : exists a b n, noteBucketAvailable s = set_missing a b n s.
Proof. unfold noteBucketAvailable. eauto. Qed.

Hint Resolve fine_same fine_note note_unavailable note_available : core.
Hint Extern 1 (thread_ok _ _) => exact I : core.

Lemma source_exec_watch_fine ch s t s' t' :
  good s -> thread_ok (bucket s) t -> truthful cfg s t ch -> exec_watch ch s t = Some (s', t') -> fine s s' t'.
Proof.
  intros G T Tr E. unfold exec_watch, go in E. repeat case_match; simplify_eq; cbn in T, Tr; eauto.
  all: apply source_fine_apply; [done| |done]; exists m; unfold msg_parts.
  all: match goal with B : m_body _ = _ |- _ => rewrite B end; try done.
  exfalso. destruct (g_stream _ G) as [_ F]. rewrite Forall_forall in F. by apply (F m (proj1 T)).
Qed.

Lemma exec_rebind_fine ch s t s' t' : good s -> exec_rebind cfg ch s t = Some (s', t') -> fine s s' t'.
Proof. intros G E. unfold exec_rebind, go in E. repeat case_match; simplify_eq; eauto. Qed.

Lemma exec_loop_fine ch s t s' t' : good s -> exec_loop cfg ch s t = Some (s', t') -> fine s s' t'.
Proof. intros G E. unfold exec_loop, go in E. repeat case_match; simplify_eq; eauto. Qed.

Lemma live_read l m v ps :
  live l (key cfg) = Some m -> e_value (entry_of m) = v -> Decode v = Some ps -> read_entry l ps (entry_of m).
Proof.
  intros L <- D. destruct (live_put _ _ _ L) as [v B]. cbn in D. rewrite B in D.
  exists m, v. split_and!; try done. by apply live_elem.
Qed.

Lemma source_exec_reconcile_fine ch s t s' t' :
  good s -> thread_ok (bucket s) t -> truthful cfg s t ch -> exec_reconcile cfg ch s t = Some (s', t') -> fine s s' t'.
Proof.
  intros G T Tr E. unfold exec_reconcile, go in E. repeat case_match; simplify_eq; cbn in T, Tr; eauto.
  - destruct Tr as (m & L & ->). apply fine_note; [done| |eauto]. cbn. by eapply live_read.
  - destruct (applyEmpty_good false true s G) as (G' & B & R); [by right|]. split; [exact G'|]. split; [done|].
    split; [exists []; by rewrite app_nil_r, B|lia].
Qed.

Ltac taken E := first [discriminate E|injection E as <- <-].

Lemma exec_entry_fine ch s t s' t' :
  good s -> thread_ok (bucket s) t -> truthful cfg s t ch -> exec_entry cfg ch s t = Some (s', t') -> fine s s' t'.
Proof.
  intros G T Tr E. unfold exec_entry, go in E. destruct t; try done; destruct ch; try done; cbn in T, Tr.
  - case_decide as D; taken E; [by apply fine_same|]. apply fine_same; [done|]. cbn. pose proof (g_local _ G) as L.
    unfold local_ok in L. destruct (known s).
    + destruct L as (ps' & (m & M & R & _) & _). eauto.
    + pose proof (entry_at_pos _ _ _ (g_stream _ G) (read_entry_at _ _ _ T)). lia.
  - pose proof (reconcile_apply_good ps e s G T) as K. destruct (applyLocal ps (e_revision e) true s) as [s2 acc].
    taken E. destruct K as (K & B & R). split; [done|]. split; [done|]. split; [exists []; by rewrite app_nil_r|done].
  - destruct x as [e|e]; [|case_match; taken E; eauto]. destruct (Decode (e_value e)) as [ps|] eqn:D; [|taken E; eauto].
    destruct Tr as (m & L & ->). destruct T as (m' & M' & <-). case_decide as C.
    + exfalso. unfold live in L. destruct (last_msg (bucket s) (key cfg)) as [m0|] eqn:LM; [|done].
      assert (m0 = m) as -> by (cbn in L; by case_match; simplify_eq).
      pose proof (last_msg_max _ _ _ (g_stream _ G) LM M'). cbn in C. lia.
    + taken E. apply fine_same; [done|]. by eapply live_read.
Qed.

Lemma wrote_fine s t x landed t' :
  good s -> truthful cfg s t (Wrote x landed) -> (forall m, landed = Some m -> thread_ok (bucket s ++ [m]) t') ->
  (landed = None -> thread_ok (bucket s) t') -> fine s (land landed s) t'.
Proof.
  intros G Tr T1 T2. unfold land. destruct landed as [m|]; cbn.
  - destruct Tr as (_ & F & _). split; [by apply good_snoc|]. split; [by apply T1|]. split; [by eexists|cbn; lia].
  - destruct (fine_same s t' G (T2 eq_refl)) as (G' & T' & B' & R'). rewrite app_nil_r.
    replace (set_bucket (bucket s) s) with s by (by destruct s). done.
Qed.

Lemma landed_entry s t m rev ps :
  truthful cfg s t (Wrote (Ok rev) (Some m)) -> write_data t = Encode ps -> kept ps -> entry_at (bucket s ++ [m]) rev ps.
Proof.
  intros (_ & _ & K & B & ->) D [V J]. exists m. split; [split; [set_solver|done]|]. split; [done|].
  unfold msg_parts. rewrite B, D. by apply Decode_Encode.
Qed.

Lemma exec_update_fine ch s t s' t' :
  good s -> thread_ok (bucket s) t -> truthful cfg s t ch -> exec_update cfg ch s t = Some (s', t') -> fine s s' t'.
Proof.
  intros G T Tr E. unfold exec_update, go in E. destruct t; try done; destruct ch; try done; cbn in T.
  - destruct (validateAndDedupe ps) as [clean|] eqn:V; taken E; [|eauto].
    apply validateAndDedupe_ok in V as [-> V]. by apply fine_same.
  - case_decide; taken E; by apply fine_same.
  - destruct x as [rev'|e]; [|destruct (isCASConflict e)]; taken E; eapply wrote_fine; eauto; try done.
    + intros m ->. cbn. by eapply landed_entry.
    + intros ->. done.
  - taken E. by apply source_fine_apply.
Qed.

Lemma source_exec_refresh_fine ch s t s' t' :
  good s -> thread_ok (bucket s) t -> truthful cfg s t ch -> exec_refresh ch s t = Some (s', t') -> fine s s' t'.
Proof.
  intros G T Tr E. unfold exec_refresh, go in E. destruct t; try done; destruct ch; try done; cbn in T.
  - destruct x as [e|e]; [|case_match; taken E; by apply fine_same].
    destruct (Decode (e_value e)) as [cur|] eqn:D; taken E; [|eauto]. apply fine_same; [done|]. split; [done|].
    destruct Tr as (m & L & ->). apply read_entry_at. by eapply live_read.
  - taken E. destruct (applyEmpty_good true false s G) as (G' & B & R); [by left|]. split; [exact G'|].
    split; [done|]. split; [exists []; by rewrite app_nil_r|lia].
  - taken E. destruct T as [T1 T2]. by apply source_fine_apply.
Qed.

Lemma exec_modify_fine ch s t s' t' :
  good s -> thread_ok (bucket s) t -> truthful cfg s t ch -> exec_modify cfg ch s t = Some (s', t') -> fine s s' t'.
Proof.
  intros G T Tr E. unfold exec_modify, go in E. destruct t; try done; destruct ch; try done; cbn in T.
  - case_decide; taken E. eauto.
  - case_decide; [done|]. destruct x as [e|e].
    + destruct (Decode (e_value e)) as [cur|] eqn:D; [|taken E; eauto].
      destruct (validateAndDedupe (transformed fn cur)) as [clean|] eqn:V; taken E; [|eauto].
      apply validateAndDedupe_ok in V as [-> V]. apply fine_same; [done|]. split; [done|].
      split; [split; [done|by apply T, (Decode_text _ _ D)]|]. split; [done|]. right.
      destruct Tr as (m & L & ->). destruct (live_read _ _ _ _ L eq_refl D) as (m' & v & ? & ? & ? & ? & _). eauto 10.
    + destruct (Is e JsErrKeyNotFound); [|taken E; eauto].
      destruct (validateAndDedupe (transformed fn [])) as [clean|] eqn:V; taken E; [|eauto].
      apply validateAndDedupe_ok in V as [-> V]. apply fine_same; [done|]. split; [done|].
      split; [split; [done|by apply T]|]. split; [done|]. by left.
  - destruct T as (T & K & _).
    destruct x as [rev'|e]; [|destruct (isCASConflict e)]; taken E; eapply wrote_fine; eauto; try done.
    + intros m ->. cbn. by eapply landed_entry.
    + intros ->. done.
  - taken E. by apply source_fine_apply.
Qed.

Lemma source_exec_fine ch s t s' t' :
  good s -> thread_ok (bucket s) t -> truthful cfg s t ch -> exec cfg ch s t = Some (s', t') -> fine s s' t'.
Proof.
  unfold exec. destruct t; eauto using source_exec_watch_fine, exec_rebind_fine, exec_loop_fine, source_exec_reconcile_fine, exec_entry_fine,
    exec_update_fine, source_exec_refresh_fine, exec_modify_fine.
Qed.

Definition Inv s (ts : list thread) : Prop := good s /\ Forall (thread_ok (bucket s)) ts.

Lemma threads_app l l' ts : Forall (thread_ok l) ts -> Forall (thread_ok (l ++ l')) ts.
Proof. intros F. eapply Forall_impl; [done|]. intros t. apply thread_ok_app. Qed.

Lemma call_ok l t : call t -> thread_ok l t.
Proof. destruct t as [| | | | | | | | | |ps| | | | | | |fn n| | |]; try done. by destruct n. Qed.

Lemma good_listeners ls s : good s -> good (set_listeners ls s).
Proof. by intros [O L M]. Qed.

Lemma source_step_Inv x y : step cfg x y -> Inv x.1 x.2 -> Inv y.1 y.2 /\ (revision x.1 <= revision y.1)%Z.
Proof.
  destruct 1 as [s ts1 t ts2 ch s' t' Tr E|s ts m F|s ts t C|s ts _|s ts i|s ts i l _ _|s ts]; intros [G T]; cbn in *.
  - apply Forall_middle in T as [T Ts]. destruct (source_exec_fine ch s t s' t' G T Tr E) as (G' & T' & [l B] & R).
    split; [|done]. split; [done|]. apply Forall_middle. split; [done|]. rewrite B. by apply threads_app.
  - split; [|lia]. split; [by apply good_snoc|]. by apply threads_app.
  - split; [|lia]. split; [done|]. constructor; [by apply call_ok|done].
  - split; [|lia]. split; [by apply good_listeners|done].
  - split; [|lia]. split; [by apply good_listeners|done].
  - split; [|lia]. split; [by apply good_listeners|done].
  - split; [|lia]. split; [|done]. by destruct G.
Qed.

Lemma sorted_nil : sorted [] = [].
Proof. apply Permutation_nil_r, sort_func_perm. Qed.

Lemma Start_good l now x s :
  stream_ok l -> truthful cfg (new_source l) RcGet (Got now x) -> Start x true (new_source l) = Some s -> good s.
Proof.
  intros O Tr E. unfold Start in E. apply bind_Some in E as (s1 & E & [= <-]).
  destruct x as [e|e].
  - apply bind_Some in E as (ps & D & [= <-]). destruct Tr as (m & L & ->).
    pose proof (read_entry_at _ _ _ (live_read _ _ _ _ L eq_refl D)) as A. unfold applyLocalLocked. cbn in *.
    pose proof (entry_at_pos _ _ _ O A). rewrite decide_False by lia. cbn.
    constructor; [done| |done]. unfold local_ok. cbn. exists ps. split; [done|]. left.
    assert (sorted (sorted ps) = sorted ps) as ->.
    { symmetry. apply sorted_perm; [|symmetry; apply sort_func_perm]. by apply valid_NoDup, (Decode_valid _ _ D). }
    destruct (partitionsEqual [] (sorted ps)) eqn:Q; [|done]. by apply partitionsEqual_spec in Q.
  - destruct (Is e JsErrKeyNotFound); [|done]. injection E as <-. constructor; [done| |done].
    unfold local_ok, applyLocalLocked. cbn. rewrite sorted_nil. done.
Qed.

Lemma reachable_source_Inv x : reachable cfg x -> Inv x.1 x.2.
Proof.
  induction 1 as [l now x s O Tr E|x y R IH S]; [|by eapply source_step_Inv].
  split; [by eapply Start_good|]. by repeat constructor.
Qed.

(** ** Read-modify-write *)

Definition ids (ps : list Partition) : gset string := list_to_set (CanonicalID <$> ps).

Lemma ids_app ps ps' : ids (ps ++ ps') = ids ps ∪ ids ps'.
Proof. unfold ids. by rewrite fmap_app, list_to_set_app_L. Qed.

Lemma add_missing_ids (seen : gset string) ps : ids (add_missing seen ps) ∪ seen = ids ps ∪ seen.
Proof.
  revert seen. induction ps as [|p ps IH]; intros seen; [done|]. cbn [add_missing].
  assert (forall qs, ids (p :: qs) = {[CanonicalID p]} ∪ ids qs) as C by done.
  case_decide as D; rewrite !C; [rewrite IH; set_solver|].
  assert (forall X : gset string, {[CanonicalID p]} ∪ X ∪ seen = X ∪ ({[CanonicalID p]} ∪ seen)) as A by set_solver.
  by rewrite !A, IH.
Qed.

Lemma AddPartitions_ids ps old : ids (AddPartitions ps old) = ids old ∪ ids ps.
Proof.
  unfold AddPartitions. rewrite ids_app. fold (ids old). by rewrite (comm_L (∪) (ids old)), add_missing_ids, (comm_L (∪)).
Qed.

Lemma RemovePartitions_ids ps old : ids (RemovePartitions ps old) = ids old ∖ ids ps.
Proof.
  unfold RemovePartitions, ids. apply set_eq. intros i.
  rewrite elem_of_difference, !elem_of_list_to_set, !list_elem_of_fmap. setoid_rewrite list_elem_of_filter. split.
  - intros (p & -> & N & P). split; [by eauto|]. intros (q & E & Q). apply N. rewrite E. by apply list_elem_of_fmap_2.
  - intros [(p & -> & P) N]. exists p. split; [done|]. split; [|done].
    intros (q & E & Q)%list_elem_of_fmap. apply N. eauto.
Qed.

Lemma live_of_last l m v : last_msg l (key cfg) = Some m -> m_body m = Put v -> live l (key cfg) = Some m.
Proof. unfold live, is_put. intros -> B. cbn. by rewrite B. Qed.

(** The write condition of [Modify] means that the list it read is current. *)
Lemma modify_condition l fn cur clean rev n :
  stream_ok l -> thread_ok l (MoWrite fn cur clean rev n) -> write_condition cfg (MoWrite fn cur clean rev n) l ->
  current l = Some cur.
Proof.
  intros O (_ & _ & _ & T) W. unfold current. cbn in W. destruct T as [[-> ->]|(m & v & M & R & B & D)].
  - rewrite decide_True in W by done. by rewrite W.
  - assert (0 < rev)%Z by (destruct O as [_ F]; rewrite Forall_forall in F; subst rev; apply F, M).
    rewrite decide_False in W by lia. unfold last_rev in W. destruct (last_msg l (key cfg)) as [m'|] eqn:L; [|lia].
    destruct (last_msg_elem _ _ _ L) as [M' _].
    assert (m' = m) as ->.
    { eapply source_stream_rev_inj; [done|done|apply M|]. destruct (m_body m'); lia. }
    rewrite (live_of_last _ _ _ L B). unfold msg_parts. by rewrite B.
Qed.

(** C15. [Modify] loses no update. In every interleaving with other writers, in
    this process and elsewhere: whenever a write of [Modify] reaches the bucket,
    reported as a success or not, the list it replaces is the list its function
    was applied to, and the new list is the function's result. So [AddPartitions]
    adds its partitions to, and [RemovePartitions] takes them from, exactly the
    list the bucket held at that moment. *)
Theorem modify_no_lost_update s ts1 fn cur clean rev n ts2 x m s' t' :
  reachable cfg (s, ts1 ++ MoWrite fn cur clean rev n :: ts2) ->
  truthful cfg s (MoWrite fn cur clean rev n) (Wrote x (Some m)) ->
  exec cfg (Wrote x (Some m)) s (MoWrite fn cur clean rev n) = Some (s', t') ->
  exists old, current (bucket s) = Some old /\ current (bucket s') = Some (transformed fn old) /\
    (forall ps, fn = Adding ps -> ids (transformed fn old) = ids old ∪ ids ps) /\
    (forall ps, fn = Removing ps -> ids (transformed fn old) = ids old ∖ ids ps).
Proof.
  intros [G T]%reachable_source_Inv Tr E. apply Forall_middle in T as [T _]. cbn in G.
  pose proof Tr as (W & F & K & B & _). exists cur. split; [by eapply modify_condition; [apply G| |]|].
  split; [|split; intros ps ->; [apply AddPartitions_ids|apply RemovePartitions_ids]].
  assert (bucket s' = bucket s ++ [m]) as ->.
  { cbn in E. destruct x; [|case_match]; by injection E as <- <-. }
  destruct T as (_ & [V J] & C & _). unfold current, live. rewrite last_msg_snoc, decide_True by done. cbn.
  unfold is_put. rewrite B. unfold msg_parts. rewrite B. cbn [write_data]. rewrite Decode_Encode by done. by rewrite C.
Qed.

(** ** Listeners *)

Definition heard s : Prop :=
  silent s = false -> Forall (λ x, l_signal x = true \/ l_seen x = partitions s) (listeners s).

Lemma heard_same s s' :
  heard s -> partitions s' = partitions s -> listeners s' = listeners s -> silent s' = silent s -> heard s'.
Proof. unfold heard. by intros A -> -> ->. Qed.

Lemma heard_signalled s : heard (signal_all s).
Proof. intros _. cbn. apply Forall_fmap, Forall_forall. by left. Qed.

Lemma applyLocal_heard ps rev n s : heard s -> heard (applyLocal ps rev n s).1.
Proof.
  intros A. unfold applyLocal, applyLocalLocked. case_decide; [done|].
  destruct (partitionsEqual (partitions s) (sorted ps)); cbn; [done|]. destruct n; [apply heard_signalled|done].
Qed.

Lemma applyReconcileReset_heard ps rev b g s : heard s -> heard (applyReconcileReset ps rev b g s).1.
Proof. intros A. unfold applyReconcileReset. apply applyLocal_heard. by case_decide. Qed.

Lemma applyEmpty_heard r s : heard s -> heard (applyEmptyPreservingKnown r s).
Proof. intros A. unfold applyEmptyPreservingKnown. repeat (case_match; [done|]). apply heard_signalled. Qed.

Lemma note_heard now e s : heard s -> heard (noteBucketUnavailable cfg now e s).1.
Proof. intros A. destruct (note_unavailable now e s) as (a & b & n & ->). done. Qed.

Hint Resolve applyLocal_heard applyReconcileReset_heard applyEmpty_heard note_heard : core.

Lemma exec_heard ch s t s' t' : exec cfg ch s t = Some (s', t') -> heard s -> heard s'.
Proof.
  intros E A. unfold exec, exec_watch, exec_rebind, exec_loop, exec_reconcile, exec_entry, exec_update, exec_refresh, exec_modify, go in E.
  repeat case_match; simplify_eq; eauto.
  all: try match goal with
    | E : applyLocal ?ps ?r ?n ?s = (_, _) |- _ => pose proof (applyLocal_heard ps r n s A) as B; rewrite E in B; done
    | E : applyReconcileReset ?ps ?r ?b ?g ?s = (_, _) |- _ =>
        pose proof (applyReconcileReset_heard ps r b g s A) as B; rewrite E in B; done
    end.
  by apply (applyEmpty_heard false).
Qed.

(** C18. Listeners learn of every change, except when an [Update] has lost a race.
    In every interleaving, as long as no [Update] has replaced the list while it
    refreshed its revision after a lost race, every listener has a signal waiting,
    or the list is the one it was when the listener registered or last took a
    signal. *)
Theorem listeners_signalled s ts :
  reachable cfg (s, ts) -> silent s = false ->
  Forall (λ x, l_signal x = true \/ l_seen x = partitions s) (listeners s).
Proof.
  change (reachable cfg (s, ts) -> heard (s, ts).1). generalize (s, ts). clear s ts.
  induction 1 as [l now x s O Tr E|x y R IH S].
  - intros _. unfold Start, applyLocalLocked in E. apply bind_Some in E as (s1 & E & [= <-]).
    destruct x; [apply bind_Some in E as (ps & _ & E)|]; repeat case_match; simplify_eq; constructor.
  - destruct S as [s ts1 t ts2 ch s' t' _ E|s ts m F|s ts t C|s ts _|s ts i|s ts i l _ _|s ts]; cbn in *; try done.
    + by eapply exec_heard.
    + intros Q. cbn in *. apply Forall_app. split; [by apply IH|]. constructor; [by right|done].
    + intros Q. cbn in *. by apply Forall_delete, IH.
    + intros Q. cbn in *. specialize (IH Q). apply Forall_alter; [done|]. intros ? _ _. by right.
    + intros _. constructor.
Qed.

(** ** Reconciliation *)

(** Actions of the reconciliation while nobody else acts and every read of the
    bucket succeeds. *)
Definition answered (ch : choice) : Prop :=
  match ch with Go | Got _ (Ok _) => True | Got _ (Err e) => Is e JsErrKeyNotFound = true | _ => False end.

Definition alone (x y : NatsKV * thread) : Prop :=
  exists ch, answered ch /\ truthful cfg x.1 x.2 ch /\ exec cfg ch x.1 x.2 = Some y.

(** The pass comes to its end, and [Q] holds there. *)
Definition ends_with (Q : NatsKV -> Prop) (x : NatsKV * thread) : Prop :=
  (exists s', rtc alone x (s', RcIdle)) /\ forall s', rtc alone x (s', RcIdle) -> Q s'.

Lemma ends_idle (Q : NatsKV -> Prop) s : Q s -> ends_with Q (s, RcIdle).
Proof.
  intros q. split; [by exists s|]. intros s' R. apply rtc_inv in R as [[= <-]|(y & (ch & A & _ & E) & _)]; [done|].
  by destruct ch.
Qed.

Lemma ends_step (Q : NatsKV -> Prop) x : x.2 <> RcIdle -> (exists y, alone x y) -> (forall y, alone x y -> ends_with Q y) -> ends_with Q x.
Proof.
  intros N [y A] F. split.
  - destruct (F y A) as [[s' R] _]. exists s'. by eapply rtc_l.
  - intros s' R. apply rtc_inv in R as [->|(z & A' & R)]; [done|]. by apply (F z A').
Qed.

(** An action that reads nothing. *)
Lemma ends_go (Q : NatsKV -> Prop) s t y :
  t <> RcIdle -> exec cfg Go s t = Some y -> (forall now x, exec cfg (Got now x) s t = None) -> ends_with Q y -> ends_with Q (s, t).
Proof.
  intros N E G D. apply ends_step; [done|by exists y, Go|]. intros z (ch & A & _ & E').
  destruct ch; try done; cbn in E'; [congruence|]. by rewrite G in E'.
Qed.

(** Agreement with the bucket. *)
Definition agrees l (ps : list Partition) s : Prop :=
  bucket s = l /\ partitions s = sorted ps /\
  forall m, live l (key cfg) = Some m -> revision s = m_rev m /\ known s = true.

Lemma agrees_accepted m ps s s' :
  live (bucket s) (key cfg) = Some m -> bucket s' = bucket s -> partitions s' = sorted ps -> revision s' = m_rev m ->
  known s' = true -> agrees (bucket s) ps s'.
Proof. intros L B P R K. split; [done|]. split; [done|]. intros m' L'. rewrite L in L'. by injection L' as <-. Qed.

Lemma apply_agrees m ps s s0 :
  live (bucket s) (key cfg) = Some m -> bucket s0 = bucket s -> (revision s0 <= m_rev m)%Z ->
  ends_with (agrees (bucket s) ps)
    (let '(s', accepted) := applyLocal ps (m_rev m) true s0 in
     (if (accepted : bool) then markReconcileApplied (m_rev m) (m_time m) s' else s', RcIdle)).
Proof.
  intros L B R. destruct (applyLocal_accepted ps (m_rev m) true s0) as (s' & -> & P & R' & K & _ & B' & _).
  { apply bool_decide_eq_true. by right. }
  apply ends_idle. eapply agrees_accepted; cbn; eauto. congruence.
Qed.

Lemma got_current s t ch m :
  answered ch -> truthful cfg s t ch -> live (bucket s) (key cfg) = Some m -> ch = Go \/ exists now, ch = Got now (Ok (entry_of m)).
Proof.
  intros A Tr L. destruct ch as [|now [e|e]| | | | | | |]; try done; [by left| |].
  - destruct Tr as (m' & L' & ->). rewrite L in L'. injection L' as <-. right. eauto.
  - exfalso. cbn in A, Tr. rewrite Tr in L by done. done.
Qed.

Lemma check_ends m v ps s :
  (0 < m_rev m)%Z -> live (bucket s) (key cfg) = Some m -> m_body m = Put v -> Decode v = Some ps ->
  ends_with (agrees (bucket s) ps) (s, RcCheck ps (entry_of m)).
Proof.
  intros P L B D. destruct (decide (revision s <= m_rev m)%Z) as [C|C].
  - eapply ends_go; [done|cbn; rewrite decide_True by (by right); reflexivity|done|].
    eapply ends_go; [done| |done|by apply (apply_agrees m ps s s)]. cbn. by destruct (applyLocal _ _ _ _).
  - eapply ends_go; [done|cbn; rewrite decide_False by lia; reflexivity|done|].
    apply ends_step; [done|exists (s, RcReset ps (entry_of m) (revision s) (applyGen s)), (Got 0 (Ok (entry_of m)))|].
    { split; [done|]. split; [by exists m|]. cbn. rewrite B, D. rewrite decide_True by lia. done. }
    intros y (ch & A & Tr & E). destruct (got_current _ _ _ _ A Tr L) as [->|[now ->]]; [done|].
    cbn in E. rewrite B, D in E. rewrite decide_True in E by lia. injection E as <-.
    set (s0 := set_state (partitions s) 0 (applyGen s) (known s) s).
    eapply ends_go; [done| |done|apply (apply_agrees m ps s s0); [done|done|cbn; lia]].
    cbn. unfold applyReconcileReset. rewrite decide_True by done. by destruct (applyLocal _ _ _ _).
Qed.

(** The skip of an entry that was applied before is right: the list is still its. *)
Lemma skip_agrees s l m v ps :
  good s -> (l = bucket s /\ cleared s = false) \/ replaced (bucket s) l ->
  live l (key cfg) = Some m -> m_body m = Put v -> Decode v = Some ps ->
  reconcileKnown s = true -> m_rev m = reconcileRev s -> m_time m = reconcileCreated s ->
  partitions s = sorted ps /\ revision s = m_rev m /\ known s = true.
Proof.
  intros [O Lo M] Bk L B D Mk Mr Mt. destruct (M Mk) as (K & R & (m0 & [M0 _] & _ & T0) & C).
  destruct (live_elem _ _ _ L) as [Ml Kl]. destruct Bk as [[-> Cl]|[_ Y]].
  - unfold local_ok in Lo. rewrite K in Lo. destruct Lo as (ps0 & E0 & _).
    assert (entry_at (bucket s) (m_rev m) ps) as E by (exists m; unfold msg_parts; by rewrite B).
    assert (revision s = m_rev m) as Er.
    { destruct E0 as (m1 & M1 & R1 & _). unfold live in L. destruct (last_msg (bucket s) (key cfg)) as [m'|] eqn:LM; [|done].
      assert (m' = m) as -> by (cbn in L; by case_match; simplify_eq).
      pose proof (last_msg_max _ _ _ O LM M1). lia. }
    split; [|done]. apply C; [done|]. by rewrite Er.
  - specialize (Y m0 m M0 Ml). lia.
Qed.

(** A pass that finds an entry. *)
Lemma pass_present s m v ps :
  (0 < m_rev m)%Z -> live (bucket s) (key cfg) = Some m -> m_body m = Put v -> Decode v = Some ps ->
  (reconcileKnown s = true -> m_rev m = reconcileRev s -> m_time m = reconcileCreated s ->
    partitions s = sorted ps /\ revision s = m_rev m /\ known s = true) ->
  ends_with (agrees (bucket s) ps) (s, RcGet).
Proof.
  intros P L B D K. set (skip := reconcileKnown s && bool_decide (m_rev m = reconcileRev s) && bool_decide (m_time m = reconcileCreated s)).
  assert (E0 : forall now, exec cfg (Got now (Ok (entry_of m))) s RcGet =
    Some (noteBucketAvailable s, if skip then RcIdle else RcCheck ps (entry_of m))).
  { intros now. unfold skip. cbn. rewrite B, D. by case_match. }
  apply ends_step; [done|by eexists _, (Got 0 (Ok (entry_of m))); split; [done|]; split; [exists m|apply E0]|].
  intros y (ch & A & Tr & E). destruct (got_current _ _ _ _ A Tr L) as [->|[now ->]]; [done|].
  change (exec cfg (Got now (Ok (entry_of m))) s RcGet = Some y) in E. rewrite E0 in E. injection E as <-.
  destruct skip eqn:Sk; [|by apply (check_ends m v ps (noteBucketAvailable s))].
  unfold skip in Sk. rewrite !andb_true_iff, !bool_decide_eq_true in Sk. destruct Sk as [[S1 S2] S3].
  destruct (K S1 S2 S3) as (Hp & Hr & Hk). apply ends_idle. eapply agrees_accepted; eauto.
Qed.

(** A pass that finds none. *)
Lemma pass_absent s :
  live (bucket s) (key cfg) = None -> (known s = false -> partitions s = []) ->
  ends_with (agrees (bucket s) []) (s, RcGet).
Proof.
  intros L K. apply ends_step; [done| |].
  { eexists (noteBucketAvailable s, RcEmpty), (Got 0 (Err (mkError [JsErrKeyNotFound] ""))).
    split; [reflexivity|]. split; [by intros _|reflexivity]. }
  intros y (ch & A & Tr & E). destruct ch as [|now [e|e]| | | | | | |]; try done.
  { destruct Tr as (m & L' & _). cbn in L'. by rewrite L in L'. }
  cbn in A, E. rewrite A in E. injection E as <-.
  eapply ends_go; [done|reflexivity|done|]. apply ends_idle. unfold agrees. rewrite sorted_nil, L.
  split; [|split; [|done]]; unfold applyEmptyPreservingKnown; cbn; destruct (known s); cbn; try done; try (by apply K);
    destruct (partitionsEqual (partitions s) []) eqn:Q; cbn; try done. by apply partitionsEqual_spec in Q.
Qed.


(** ** Incarnations of the bucket *)

(** The messages of all of them. *)
Definition history (past : list (list msg)) s : list msg := concat past ++ bucket s.

(** What is left of the invariant when the bucket may be replaced. *)
Definition served_ok l s : Prop :=
  if known s then exists ps, entry_at l (revision s) ps /\ (partitions s = sorted ps \/ partitions s = [])
  else revision s = 0%Z /\ partitions s = [].

Definition knows l t : Prop :=
  match t with
  | WtApply m => message l m
  | RcCheck ps e | RcApply ps e | RcReset ps e _ _ => read_entry l ps e
  | UpEnter ps => Forall json_text ps
  | UpRead ps _ | UpWrite ps _ _ _ | UpRefresh ps _ | UpEmpty ps _ => kept ps
  | UpApply ps rev => entry_at l rev ps
  | UpRefreshed ps cur rev _ => kept ps /\ entry_at l rev cur
  | MoFetch fn _ => text_fn fn
  | MoWrite fn _ clean _ _ => text_fn fn /\ kept clean
  | MoApply clean rev => entry_at l rev clean
  | _ => True
  end.

Definition proper l : Prop := Forall (λ m, m_body m <> Expired /\ (0 < m_rev m)%Z) l.

Lemma proper_pos l rev ps : proper l -> entry_at l rev ps -> (0 < rev)%Z.
Proof. intros F (m & [M _] & <- & _). unfold proper in F. rewrite Forall_forall in F. by apply F. Qed.

Lemma knows_app l l' t : knows l t -> knows (l ++ l') t.
Proof. destruct t; cbn; unfold read_entry, entry_at; naive_solver eauto using message_app. Qed.

Lemma served_app l l' s : served_ok l s -> served_ok (l ++ l') s.
Proof. unfold served_ok. destruct (known s); [|done]. intros (ps & E & Q). eauto using entry_at_app. Qed.

(** At most one message is added. *)
Definition extends l l' : Prop := l' = l \/ exists m, l' = l ++ [m] /\ fresh_msg l m.

(** The outcome of an action: what is served is kept, and the revision goes back
    only by a reset. *)
Definition served_action past s t s' t' : Prop :=
  served_ok (history past s') s' /\ knows (history past s') t' /\ extends (bucket s) (bucket s') /\
  ((revision s <= revision s')%Z \/
   exists ps e, t = RcReset ps e (revision s) (applyGen s) /\ partitions s' = sorted ps /\ revision s' = e_revision e).

Lemma served_same past s t t' : served_ok (history past s) s -> knows (history past s) t' -> served_action past s t s t'.
Proof. intros G K. split; [done|]. split; [done|]. split; [by left|left; lia]. Qed.

Lemma served_note past s s' t t' :
  served_ok (history past s) s -> knows (history past s) t' -> (exists a b n, s' = set_missing a b n s) ->
  served_action past s t s' t'.
Proof. intros G K (a & b & n & ->). apply (served_same past s t t'); done. Qed.

Lemma served_apply past ps rev n s t t' :
  proper (history past s) -> served_ok (history past s) s -> entry_at (history past s) rev ps ->
  knows (history past s) t' -> served_action past s t (applyLocal ps rev n s).1 t'.
Proof.
  intros F G E K. pose proof (proper_pos _ _ _ F E) as P. destruct (accepts rev s) eqn:A.
  - destruct (applyLocal_accepted ps rev n s A) as (s' & -> & Q1 & Q2 & Q3 & _ & Q5 & _). cbn.
    apply bool_decide_eq_true in A. unfold served_action, history. rewrite Q5. fold (history past s).
    split; [unfold served_ok; rewrite Q3, Q2, Q1; eauto|]. split; [done|].
    split; [by left|left; lia].
  - rewrite applyLocal_dropped by done. by apply served_same.
Qed.

Lemma marked past s t s' t' rev created (b : bool) :
  served_action past s t s' t' -> served_action past s t (if b then markReconcileApplied rev created s' else s') t'.
Proof. by destruct b. Qed.

Lemma served_reset past ps e baseline gen s :
  proper (history past s) -> served_ok (history past s) s -> read_entry (history past s) ps e ->
  served_action past s (RcReset ps e baseline gen) (applyReconcileReset ps (e_revision e) baseline gen s).1 RcIdle.
Proof.
  intros F G R. pose proof (read_entry_at _ _ _ R) as E. pose proof (proper_pos _ _ _ F E) as P.
  unfold applyReconcileReset. case_decide as C; [|by apply served_apply]. destruct C as [<- <-].
  set (s0 := set_state (partitions s) 0 (applyGen s) (known s) s).
  destruct (applyLocal_accepted ps (e_revision e) true s0) as (s' & -> & Q1 & Q2 & Q3 & _ & Q5 & _).
  { apply bool_decide_eq_true. right. cbn. lia. }
  cbn. unfold served_action, history. rewrite Q5. change (bucket s0) with (bucket s). fold (history past s).
  split; [unfold served_ok; rewrite Q3, Q2, Q1; eauto|]. split; [done|].
  split; [by left|]. right. by exists ps, e.
Qed.

Lemma served_empty past r s t t' rc :
  served_ok (history past s) s -> knows (history past s) t' -> rc = None \/ (exists a b c, rc = Some (a, b, c)) ->
  let s' := applyEmptyPreservingKnown r s in
  served_action past s t (match rc with Some (a, b, c) => set_reconcile a b c s' | None => s' end) t'.
Proof.
  intros G K R. assert (served_action past s t (applyEmptyPreservingKnown r s) t') as A.
  { unfold applyEmptyPreservingKnown. destruct (known s) eqn:Kn; cbn; [|by apply served_same].
    destruct (partitionsEqual (partitions s) []); [by apply served_same|]. unfold served_action, history. cbn.
    fold (history past s). split; [|split; [done|split; [by left|left; lia]]].
    unfold served_ok in *. cbn. rewrite Kn in *. destruct G as (ps & E & _). eauto. }
  cbn. by destruct R as [->|(a & b & c & ->)].
Qed.

Lemma history_read past s m v ps :
  live (bucket s) (key cfg) = Some m -> e_value (entry_of m) = v -> Decode v = Some ps -> read_entry (history past s) ps (entry_of m).
Proof.
  intros L V D. destruct (live_read _ _ _ _ L V D) as (m' & v' & [M K] & R). exists m', v'. split; [|done].
  split; [|done]. unfold history. set_solver.
Qed.

Lemma served_land past s t x landed t' :
  served_ok (history past s) s -> truthful cfg s t (Wrote x landed) -> (forall m, landed = Some m -> knows (history past s ++ [m]) t') ->
  (landed = None -> knows (history past s) t') -> served_action past s t (land landed s) t'.
Proof.
  intros G Tr T1 T2. unfold land. destruct landed as [m|]; cbn.
  - destruct Tr as (_ & Fr & _). unfold served_action, history. cbn. rewrite app_assoc. fold (history past s). split; [by apply (served_app _ [m] s)|].
    split; [by apply T1|]. split; [right; by exists m|left; cbn; lia].
  - rewrite app_nil_r. replace (set_bucket (bucket s) s) with s by (by destruct s). apply served_same; auto.
Qed.

Lemma exec_watch_served past ch s t s' t' :
  proper (history past s) -> served_ok (history past s) s -> knows (history past s) t -> truthful cfg s t ch ->
  exec_watch ch s t = Some (s', t') -> served_action past s t s' t'.
Proof.
  intros F G T Tr E. unfold exec_watch, go in E. repeat case_match; simplify_eq; cbn in T, Tr;
    try (by apply served_same).
  all: try (apply served_same; [done|]; destruct Tr; split; [unfold history; set_solver|done]).
  all: apply served_apply; [done|done| |done]; exists m; unfold msg_parts.
  all: match goal with B : m_body _ = _ |- _ => rewrite B end; try done.
  exfalso. unfold proper in F. rewrite Forall_forall in F. by apply (F m (proj1 T)).
Qed.

Lemma exec_reconcile_served past ch s t s' t' :
  served_ok (history past s) s -> truthful cfg s t ch -> exec_reconcile cfg ch s t = Some (s', t') -> served_action past s t s' t'.
Proof.
  intros G Tr E. unfold exec_reconcile, go in E. repeat case_match; simplify_eq; cbn in Tr;
    try (by apply served_note; eauto).
  - destruct Tr as (m & L & ->). apply served_note; [done| |eauto]. cbn. by eapply history_read.
  - apply (served_empty past false s RcEmpty RcIdle (Some (reconcileRev s, reconcileCreated s, false))); [done|done|].
    right. eauto.
Qed.

Lemma exec_entry_served past ch s t s' t' :
  proper (history past s) -> served_ok (history past s) s -> knows (history past s) t -> truthful cfg s t ch ->
  exec_entry cfg ch s t = Some (s', t') -> served_action past s t s' t'.
Proof.
  intros F G T Tr E. unfold exec_entry, go in E. destruct t; try done; destruct ch; try done; cbn in T, Tr.
  - case_decide; taken E; by apply served_same.
  - pose proof (served_apply past ps (e_revision e) true s (RcApply ps e) RcIdle F G (read_entry_at _ _ _ T) I) as A.
    destruct (applyLocal ps (e_revision e) true s) as [s2 acc]. taken E. by apply marked.
  - destruct x as [e|e]; [|case_match; taken E; [by apply served_same|apply served_note; eauto]].
    destruct (Decode (e_value e)) as [ps|] eqn:D; [|taken E; by apply served_same].
    destruct Tr as (m & L & ->). case_decide; taken E; (apply served_same; [done|]); by eapply history_read.
  - pose proof (served_reset past ps e baseline gen s F G T) as A.
    destruct (applyReconcileReset ps (e_revision e) baseline gen s) as [s2 acc]. taken E. by apply marked.
Qed.

Lemma landed_history past s t m rev ps :
  truthful cfg s t (Wrote (Ok rev) (Some m)) -> write_data t = Encode ps -> kept ps -> entry_at (history past s ++ [m]) rev ps.
Proof.
  intros Tr D K. destruct (landed_entry s t m rev ps Tr D K) as (m' & [M Km] & R). exists m'. split; [|done].
  split; [unfold history; set_solver|done].
Qed.

Lemma exec_update_served past ch s t s' t' :
  proper (history past s) -> served_ok (history past s) s -> knows (history past s) t -> truthful cfg s t ch ->
  exec_update cfg ch s t = Some (s', t') -> served_action past s t s' t'.
Proof.
  intros F G T Tr E. unfold exec_update, go in E. destruct t; try done; destruct ch; try done; cbn in T.
  - destruct (validateAndDedupe ps) as [clean|] eqn:V; taken E; [|by apply served_same].
    apply validateAndDedupe_ok in V as [-> V]. by apply served_same.
  - case_decide; taken E; by apply served_same.
  - destruct x as [rev'|e]; [|destruct (isCASConflict e)]; taken E; eapply served_land; eauto; try done.
    + intros m ->. cbn. by eapply landed_history.
    + intros ->. done.
  - taken E. by apply served_apply.
Qed.

Lemma exec_refresh_served past ch s t s' t' :
  proper (history past s) -> served_ok (history past s) s -> knows (history past s) t -> truthful cfg s t ch ->
  exec_refresh ch s t = Some (s', t') -> served_action past s t s' t'.
Proof.
  intros F G T Tr E. unfold exec_refresh, go in E. destruct t; try done; destruct ch; try done; cbn in T.
  - destruct x as [e|e]; [|case_match; taken E; by apply served_same].
    destruct (Decode (e_value e)) as [cur|] eqn:D; taken E; [|by apply served_same]. apply served_same; [done|]. split; [done|].
    destruct Tr as (m & L & ->). apply read_entry_at. by eapply history_read.
  - taken E. apply (served_empty past true s (UpEmpty ps attempt) _ None); auto.
  - taken E. destruct T as [T1 T2]. by apply served_apply.
Qed.

Lemma exec_modify_served past ch s t s' t' :
  proper (history past s) -> served_ok (history past s) s -> knows (history past s) t -> truthful cfg s t ch ->
  exec_modify cfg ch s t = Some (s', t') -> served_action past s t s' t'.
Proof.
  intros F G T Tr E. unfold exec_modify, go in E. destruct t; try done; destruct ch; try done; cbn in T.
  - case_decide; taken E. by apply served_same.
  - case_decide; [done|]. destruct x as [e|e].
    + destruct (Decode (e_value e)) as [cur|] eqn:D; [|taken E; by apply served_same].
      destruct (validateAndDedupe (transformed fn cur)) as [clean|] eqn:V; taken E; [|by apply served_same].
      apply validateAndDedupe_ok in V as [-> V]. apply served_same; [done|]. split; [done|].
      split; [done|by apply T, (Decode_text _ _ D)].
    + destruct (Is e JsErrKeyNotFound); [|taken E; by apply served_same].
      destruct (validateAndDedupe (transformed fn [])) as [clean|] eqn:V; taken E; [|by apply served_same].
      apply validateAndDedupe_ok in V as [-> V]. apply served_same; [done|]. split; [done|]. split; [done|by apply T].
  - destruct T as (T & K).
    destruct x as [rev'|e]; [|destruct (isCASConflict e)]; taken E; eapply served_land; eauto; try done.
    + intros m ->. cbn. by eapply landed_history.
    + intros ->. done.
  - taken E. by apply served_apply.
Qed.

Lemma exec_served past ch s t s' t' :
  proper (history past s) -> served_ok (history past s) s -> knows (history past s) t -> truthful cfg s t ch ->
  exec cfg ch s t = Some (s', t') -> served_action past s t s' t'.
Proof.
  intros F G T Tr. unfold exec. destruct t; try done;
    eauto using exec_watch_served, exec_reconcile_served, exec_entry_served, exec_update_served, exec_refresh_served, exec_modify_served.
  - intros E. unfold exec_rebind, go in E. repeat case_match; simplify_eq; first [by apply served_same|apply served_note; eauto].
  - intros E. unfold exec_loop, go in E. repeat case_match; simplify_eq; by apply served_same.
Qed.
Record Served past s (ts : list thread) : Prop := {
  sv_stream : stream_ok (bucket s);
  sv_proper : proper (history past s);
  sv_served : served_ok (history past s) s;
  sv_knows : Forall (knows (history past s)) ts;
}.

Lemma reachable_Served s ts : reachable cfg (s, ts) -> Served [] s ts.
Proof.
  intros [[O L _] T]%reachable_source_Inv. constructor; [exact O|apply O|exact L|]. eapply Forall_impl; [exact T|].
  intros t. unfold history. destruct t; cbn; naive_solver.
Qed.

Lemma fresh_proper l m : fresh_msg l m -> proper [m].
Proof. intros (B & P & _). by repeat constructor. Qed.

Lemma all_know l l' ts : Forall (knows l) ts -> Forall (knows (l ++ l')) ts.
Proof. intros F. eapply Forall_impl; [exact F|]. intros t. apply knows_app. Qed.

Lemma step_Served past x y :
  step cfg x y -> Served past x.1 x.2 ->
  Served past y.1 y.2 /\
  ((revision x.1 <= revision y.1)%Z \/
   exists ps e, RcReset ps e (revision x.1) (applyGen x.1) ∈ x.2 /\ partitions y.1 = sorted ps /\ revision y.1 = e_revision e).
Proof.
  destruct 1 as [s ts1 t ts2 ch s' t' Tr E|s ts m F|s ts t C|s ts _|s ts i|s ts i l _ _|s ts]; intros [O Pr G T]; cbn in *.
  - apply Forall_middle in T as [T Ts].
    destruct (exec_served past ch s t s' t' Pr G T Tr E) as (G' & T' & X & R).
    assert (exists l, history past s' = history past s ++ l /\ proper l /\ stream_ok (bucket s')) as (l & Eh & Pl & O').
    { unfold history. destruct X as [->|(m & -> & F)]; [exists []; by rewrite app_nil_r; split; [|split; [constructor|]]|].
      exists [m]. rewrite app_assoc. eauto using fresh_proper, stream_snoc. }
    split; [constructor; [done|rewrite Eh; by apply Forall_app|done|]|].
    + apply Forall_middle. split; [done|]. rewrite Eh. by apply all_know.
    + destruct R as [R|(ps & e & -> & R)]; [by left|]. right. exists ps, e. split; [set_solver|done].
  - split; [|left; cbn; lia].
    constructor; unfold history; cbn; [by apply stream_snoc|..]; rewrite app_assoc; fold (history past s).
    + apply Forall_app. split; [done|by eapply fresh_proper].
    + by apply (served_app _ [m] s).
    + by apply all_know.
  - split; [|left; lia]. constructor; [done|done|done|]. constructor; [|done].
    destruct t as [| | | | | | | | | |ps| | | | | | |fn n| | |]; try done. by destruct n.
  - split; [by constructor|left; cbn; lia].
  - split; [by constructor|left; cbn; lia].
  - split; [by constructor|left; cbn; lia].
  - split; [by constructor|left; cbn; lia].
Qed.

Lemma life_step_Served x y :
  life_step cfg x y -> Served x.1 x.2.1 x.2.2 ->
  Served y.1 y.2.1 y.2.2 /\
  ((revision x.2.1 <= revision y.2.1)%Z \/
   exists ps e, RcReset ps e (revision x.2.1) (applyGen x.2.1) ∈ x.2.2 /\ partitions y.2.1 = sorted ps /\
     revision y.2.1 = e_revision e).
Proof.
  destruct 1 as [past c c' S|past s ts l [Ol _]|past s ts1 ts2 m M K]; cbn.
  - by apply step_Served.
  - intros [O Pr G T]. split; [|left; cbn; lia].
    assert (history (past ++ [bucket s]) (set_bucket l s) = history past s ++ l) as Eh.
    { unfold history. rewrite concat_app. cbn. by rewrite app_nil_r. }
    constructor; [done|rewrite Eh..]; [apply Forall_app; split; [done|apply Ol]|by apply (served_app _ l s)|by apply all_know].
  - intros [O Pr G T]. split; [|left; lia]. constructor; [done|done|done|]. apply Forall_middle in T as [_ T].
    apply Forall_middle. split; [|done]. split; [unfold history; set_solver|done].
Qed.

Lemma lives_Served x : lives cfg x -> Served x.1 x.2.1 x.2.2.
Proof. induction 1 as [[s ts] R|x y L IH S]; [by apply reachable_Served|by apply (life_step_Served x y)]. Qed.

(** Before the first replacement these are the executions on one bucket. *)
Lemma lives_unreplaced x : lives cfg x -> x.1 = [] -> reachable cfg x.2.
Proof.
  induction 1 as [c R|x y L IH S]; [done|].
  destruct S as [past c c' S|past s ts l _|past s ts1 ts2 m M K]; cbn in *; intros E.
  - eapply reachable_step; [by apply IH|done].
  - by destruct past.
  - rewrite E in M. cbn in M. by apply not_elem_of_nil in M.
Qed.

End safety.

(** ** Executions *)

Section runs.
Context `{SortFunc, PartCodecLaws} (cfg : source_config).

(** What may happen next: a local action of a goroutine, the true answer to its
    read or write, a delivery of the watcher, a write of another process, a call,
    and the doings of a listener. *)
Inductive event :=
| Act (i : nat) (ch : choice) | Ask (i : nat) | Commit (i : nat) | Deliver (i n : nat)
| Write (b : body) | Call (t : thread) | Listen | Take (i : nat).

Definition stamp (l : list msg) (b : body) : msg :=
  mkMsg (last_seq l + 1) (key cfg) (foldr (λ m, Z.max (m_time m)) 0%Z l) b None.

Definition may_write (t : thread) (l : list msg) : bool :=
  match t with
  | UpWrite _ rev true _ => bool_decide (last_rev l (key cfg) = rev)
  | UpWrite _ _ false _ => bool_decide (is_Some (live l (key cfg)) -> False)
  | MoWrite _ _ _ rev _ =>
      if decide (rev = 0%Z) then bool_decide (is_Some (live l (key cfg)) -> False) else bool_decide (last_rev l (key cfg) = rev)
  | _ => false
  end.

Definition reply (s : NatsKV) (t : thread) (ev : event) : option (nat * choice) :=
  match ev with
  | Act i ch => match ch with Go | Closed | Tick _ => Some (i, ch) | _ => None end
  | Ask i =>
      Some (i, Got 0 match live (bucket s) (key cfg) with
                     | Some m => Ok (entry_of m)
                     | None => Err (mkError [JsErrKeyNotFound] "")
                     end)
  | Commit i =>
      Some (i, if may_write t (bucket s) then
                 let m := stamp (bucket s) (Put (write_data t)) in Wrote (Ok (m_rev m)) (Some m)
               else Wrote (Err (mkError [JsErrKeyExists] "")) None)
  | Deliver i n => m ← bucket s !! n; if decide (m_key m = key cfg) then Some (i, Delivered (Some m)) else None
  | _ => None
  end.

Definition perform (x : config) (ev : event) : option config :=
  let '(s, ts) := x in
  match ev with
  | Act i _ | Ask i | Commit i | Deliver i _ =>
      t ← ts !! i; '(i, ch) ← reply s t ev; '(s', t') ← exec cfg ch s t; Some (s', <[i := t']> ts)
  | Write b => match b with Expired => None | _ => Some (set_bucket (bucket s ++ [stamp (bucket s) b]) s, ts) end
  | Call t => Some (s, t :: ts)
  | Listen => if running s then Some (Watch s, ts) else None
  | Take i => l ← listeners s !! i; if l_signal l then Some (take_signal i s, ts) else None
  end.

Definition execute (evs : list event) (x : config) : option config := foldl (λ o ev, x ← o; perform x ev) (Some x) evs.

Definition event_ok (ev : event) : Prop := match ev with Call t => call t | _ => True end.

Lemma stamp_fresh l b : stream_ok l -> b <> Expired -> fresh_msg l (stamp l b).
Proof.
  intros [_ F] B. split; [done|]. cbn. assert (forall m, m ∈ l -> m_rev m <= last_seq l /\ m_time m <= foldr (λ m, Z.max (m_time m)) 0%Z l)%Z as A.
  { clear. induction l as [|x l IH]; intros m M; [by apply not_elem_of_nil in M|]. unfold last_seq in *. cbn.
    apply elem_of_cons in M as [->|M]; [lia|]. specialize (IH m M). lia. }
  split; [|apply Forall_forall; intros m M; specialize (A m M); lia].
  clear. induction l as [|x l IH]; unfold last_seq in *; cbn; lia.
Qed.

Lemma may_write_spec t l : may_write t l = true <-> write_condition cfg t l.
Proof.
  assert (forall k, bool_decide (is_Some (live l k) -> False) = true <-> live l k = None) as A.
  { intros k. rewrite bool_decide_eq_true. unfold is_Some. destruct (live l k); naive_solver. }
  destruct t; cbn; try done.
  - destruct kn; [by rewrite bool_decide_eq_true|apply A].
  - case_decide; [apply A|by rewrite bool_decide_eq_true].
Qed.

Lemma reply_truthful s t ev i ch : stream_ok (bucket s) -> reply s t ev = Some (i, ch) -> truthful cfg s t ch.
Proof.
  intros O E. destruct ev as [j ch'|j|j|j n| | | |]; cbn in E; try done.
  - destruct ch'; by simplify_eq.
  - injection E as <- <-. destruct (live (bucket s) (key cfg)) as [m|] eqn:L; cbn; [by exists m|done].
  - injection E as <- <-. destruct (may_write t (bucket s)) eqn:W; cbn.
    + split; [by apply may_write_spec|]. split; [by apply stamp_fresh|done].
    + intros _ C. apply may_write_spec in C. congruence.
  - apply bind_Some in E as (m & L & E). case_decide; simplify_eq. split; [by eapply list_elem_of_lookup_2|done].
Qed.

Lemma perform_source_step x ev y :
  stream_ok (bucket x.1) -> event_ok ev -> perform x ev = Some y -> step cfg x y.
Proof.
  destruct x as [s ts]. intros O Ok E. destruct ev as [j ch|j|j|j n|b|t| |j]; cbn [perform] in E.
  1-4: apply bind_Some in E as (t & L & ([i ch'] & Ry & ([s' t'] & Ex & [= <-])%bind_Some)%bind_Some);
    pose proof (reply_truthful _ _ _ _ _ O Ry) as Tr;
    (assert (i = j) as -> by (cbn in Ry; try apply bind_Some in Ry as (? & _ & Ry); repeat case_match; by simplify_eq));
    rewrite <- (take_drop_middle _ _ _ L) at 1; rewrite insert_take_drop by (by eapply lookup_lt_Some);
    by eapply step_thread.
  - destruct b; simplify_eq; apply step_write; by apply stamp_fresh.
  - injection E as <-. by apply step_call.
  - destruct (running s) eqn:R; simplify_eq. by apply step_watch.
  - apply bind_Some in E as (l & L & E). destruct (l_signal l) eqn:S; simplify_eq. by eapply step_take.
Qed.

Lemma execute_source_reachable evs x y :
  reachable cfg x -> Forall event_ok evs -> execute evs x = Some y -> reachable cfg y.
Proof.
  unfold execute. revert x. induction evs as [|ev evs IH]; intros x R F; cbn; [by intros [= <-]|].
  apply Forall_cons in F as [Ok F]. destruct (perform x ev) as [z|] eqn:P; cbn.
  - apply IH; [|done]. eapply reachable_step; [done|]. eapply perform_source_step; [|done..].
    by apply (reachable_source_Inv cfg x R).
  - clear. intros E. exfalso. induction evs; auto; done.
Qed.

Lemma execute_lives past evs x y :
  lives cfg (past, x) -> Forall event_ok evs -> execute evs x = Some y -> lives cfg (past, y).
Proof.
  unfold execute. revert x. induction evs as [|ev evs IH]; intros x R F; cbn; [by intros [= <-]|].
  apply Forall_cons in F as [Ok F]. destruct (perform x ev) as [z|] eqn:P; cbn.
  - apply IH; [|done]. eapply lives_step; [done|]. apply life_same. eapply perform_source_step; [|done..].
    by apply (lives_Served cfg _ R).
  - clear. intros E. exfalso. induction evs; auto; done.
Qed.
End runs.

(** ** A concrete source *)

(** Partitions with a key of one character, written as that character. *)
Definition toy_partition (c : ascii) : Partition := mkPartition [String c ""] 1 "".

Fixpoint toy_Unmarshal (s : string) : list Partition :=
  match s with EmptyString => [] | String c s => toy_partition c :: toy_Unmarshal s end.

Fixpoint toy_Marshal (ps : list Partition) : string :=
  match ps with
  | mkPartition [String c EmptyString] _ _ :: ps => String c (toy_Marshal ps)
  | _ => ""
  end.

#[local] Instance toy_codec : PartCodec := {|
  json_Marshal := toy_Marshal;
  json_Unmarshal s := Some (toy_Unmarshal s);
  json_text p := exists c, p = toy_partition c;
  gzip_Write s := String (ascii_of_nat 31) (String (ascii_of_nat 139) (String (ascii_of_nat 8) s));
  gzip_NewReader s := is_gzip s;
  io_ReadAll s := match s with String _ (String _ (String _ s')) => Some s' | _ => None end;
|}.

#[local] Instance toy_codec_laws : PartCodecLaws.
Proof.
  split; try done.
  - intros ps T. cbn. f_equal. induction T as [|p ps [c ->] T IH]; [done|]. cbn. by rewrite IH.
  - intros s ps. cbn. intros [= <-]. induction s as [|c s IH]; cbn; constructor; [by exists c|done].
  - intros s. by eexists _, _.
Qed.

#[local] Existing Instance stable_sort.

Definition demo_cfg : source_config := NewNatsKV "p" None false None false.

Definition toy_list (s : string) : list Partition := toy_Unmarshal s.
Definition toy_put (s : string) : body := Put (Encode (toy_list s)).

(** A source started on an empty bucket. *)
Definition demo_start : config :=
  (default (new_source []) (Start (Err (mkError [JsErrKeyNotFound] "")) true (new_source [])), [WtLoop; RcIdle]).

Lemma demo_start_reachable : reachable demo_cfg demo_start.
Proof. apply (reachable_start demo_cfg [] 0 (Err (mkError [JsErrKeyNotFound] ""))); [by repeat constructor|done|by vm_compute]. Qed.

Definition demo_end (evs : list event) : config := default demo_start (execute demo_cfg evs demo_start).

Lemma source_demo_end_reachable evs :
  Forall event_ok evs -> is_Some (execute demo_cfg evs demo_start) -> reachable demo_cfg (demo_end evs).
Proof.
  intros F [y E]. unfold demo_end. rewrite E. by apply (execute_source_reachable demo_cfg evs demo_start); [apply demo_start_reachable| |].
Qed.

Lemma toy_list_text s : Forall json_text (toy_list s).
Proof. by apply (json_decoded s). Qed.

(** Another process writes two lists and the watcher delivers the first; then a
    call of [AddPartitions] reads the second. *)
Definition demo_add : list event :=
  [Write (toy_put "ba"); Deliver 0 0; Act 0 Go; Write (toy_put "bac"); Call (MoFetch (Adding (toy_list "cd")) 0); Ask 0].

Lemma demo_add_ok : Forall event_ok demo_add.
Proof.
  repeat constructor. intros ps T. apply Forall_app. split; [done|]. generalize (list_to_set (C := gset string) (CanonicalID <$> ps)).
  intros seen. cbn. repeat case_decide; repeat constructor; by eexists.
Qed.

Definition demo_added : config := demo_end demo_add.

Lemma demo_added_state :
  is_Some (execute demo_cfg demo_add demo_start) /\
  demo_added = (demo_added.1, [MoWrite (Adding (toy_list "cd")) (toy_list "bac") (toy_list "bacd") 2 0; WtLoop; RcIdle]) /\
  partitions demo_added.1 = toy_list "ab" /\ revision demo_added.1 = 1%Z /\ known demo_added.1 = true /\
  silent demo_added.1 = false /\ cleared demo_added.1 = false.
Proof. split; [eexists; vm_compute; reflexivity|]. vm_compute. repeat split. Qed.

Lemma demo_added_reachable : reachable demo_cfg demo_added.
Proof. apply source_demo_end_reachable; [apply demo_add_ok|apply demo_added_state]. Qed.

(** The call's write lands. *)
Definition demo_add_write : thread := MoWrite (Adding (toy_list "cd")) (toy_list "bac") (toy_list "bacd") 2 0.
Definition demo_add_msg : msg := stamp demo_cfg (bucket demo_added.1) (Put (write_data demo_add_write)).

Lemma demo_add_exec :
  reply demo_cfg demo_added.1 demo_add_write (Commit 0) = Some (0, Wrote (Ok 3%Z) (Some demo_add_msg)) /\
  exec demo_cfg (Wrote (Ok 3%Z) (Some demo_add_msg)) demo_added.1 demo_add_write =
    Some (land (Some demo_add_msg) demo_added.1, MoApply (toy_list "bacd") 3).
Proof. split; vm_compute; reflexivity. Qed.

Lemma modify_no_lost_update_witness :
  exists old, current demo_cfg (bucket demo_added.1) = Some old /\
    current demo_cfg (bucket (land (Some demo_add_msg) demo_added.1)) = Some (AddPartitions (toy_list "cd") old).
Proof.
  destruct (modify_no_lost_update demo_cfg demo_added.1 [] (Adding (toy_list "cd")) (toy_list "bac") (toy_list "bacd") 2 0
    [WtLoop; RcIdle] (Ok 3%Z) demo_add_msg (land (Some demo_add_msg) demo_added.1) (MoApply (toy_list "bacd") 3))
    as (old & O & N & _).
  - destruct demo_added_state as (_ & E & _). cbn [app]. fold demo_add_write. unfold demo_add_write. rewrite <- E.
    exact demo_added_reachable.
  - apply (reply_truthful demo_cfg demo_added.1 demo_add_write (Commit 0) 0).
    + apply (reachable_source_Inv demo_cfg demo_added demo_added_reachable).
    + apply demo_add_exec.
  - apply demo_add_exec.
  - exists old. exact (conj O N).
Defined.

(** A listener is signalled by the watcher's delivery. *)
Definition demo_listen : list event := [Listen; Write (toy_put "ba"); Deliver 0 0; Act 0 Go].

Lemma demo_listen_state :
  is_Some (execute demo_cfg demo_listen demo_start) /\ silent (demo_end demo_listen).1 = false /\
  listeners (demo_end demo_listen).1 = [mkListener true []].
Proof. split; [eexists; vm_compute; reflexivity|]. vm_compute. done. Qed.

Lemma listeners_signalled_witness :
  Forall (λ x, l_signal x = true \/ l_seen x = partitions (demo_end demo_listen).1) (listeners (demo_end demo_listen).1).
Proof.
  apply (listeners_signalled demo_cfg (demo_end demo_listen).1 (demo_end demo_listen).2).
  - rewrite <- surjective_pairing. apply source_demo_end_reachable; [by repeat constructor|apply demo_listen_state].
  - apply demo_listen_state.
Defined.

(** The bucket of [demo_added] is deleted and created again with another list. *)
Definition demo_recreated : list msg := [mkMsg 1 "p" 7 (toy_put "zy") None].

Lemma demo_recreated_ok :
  replaced (bucket demo_added.1) demo_recreated /\ current demo_cfg demo_recreated = Some (toy_list "zy").
Proof.
  split; [|vm_compute; reflexivity]. split; [by repeat constructor|]. intros m m' M ->%list_elem_of_singleton. revert M.
  assert (Forall (λ m, m_time m < 7)%Z (bucket demo_added.1)) as F by (vm_compute; by repeat constructor).
  rewrite Forall_forall in F. apply F.
Qed.


(** The bucket is replaced after its second list was served; the reconciliation finds
    the entry of the new one below the revision it knows, twice. *)
Definition demo_second : list event :=
  [Write (toy_put "ba"); Write (toy_put "bac"); Deliver 0 1; Act 0 Go].
Definition demo_reset : list event := [Act 1 (Tick true); Ask 1; Act 1 Go; Ask 1].

Definition demo_replaced : config := (set_bucket demo_recreated (demo_end demo_second).1, (demo_end demo_second).2).
Definition demo_confirmed : config := default demo_start (execute demo_cfg demo_reset demo_replaced).
Definition demo_after_reset : config := default demo_start (perform demo_cfg demo_confirmed (Act 1 Go)).
Definition demo_past : list (list msg) := [bucket (demo_end demo_second).1].

Lemma demo_confirmed_lives : lives demo_cfg (demo_past, demo_confirmed).
Proof.
  apply (execute_lives demo_cfg demo_past demo_reset demo_replaced); [|by repeat constructor|vm_compute; reflexivity].
  eapply lives_step; [apply lives_start, (source_demo_end_reachable demo_second)|].
  - by repeat constructor.
  - eexists. vm_compute. reflexivity.
  - rewrite (surjective_pairing (demo_end demo_second)). apply (life_replace demo_cfg [] _ _ demo_recreated).
    split; [by repeat constructor|]. intros m m' M ->%list_elem_of_singleton. revert M.
    assert (Forall (λ m, m_time m < 7)%Z (bucket (demo_end demo_second).1)) as F by (vm_compute; by repeat constructor).
    rewrite Forall_forall in F. apply F.
Qed.

Lemma demo_reset_step : life_step demo_cfg (demo_past, demo_confirmed) (demo_past, demo_after_reset).
Proof.
  apply life_same, (perform_source_step demo_cfg demo_confirmed (Act 1 Go)); [|done|vm_compute; reflexivity].
  apply (lives_Served demo_cfg _ demo_confirmed_lives).
Qed.


(** ** Where the promises stop *)

(** Another process writes the very list an [Update] is about to write. The
    [Update] loses the race, takes over the list without a signal while it
    refreshes its revision, and its second attempt changes nothing. The watcher
    delivers both messages and a reconciliation passes: the listener is never
    told. *)
Definition demo_update_race : list event :=
  [Listen; Write (toy_put "a"); Deliver 0 0; Act 0 Go; Take 0; Call (UpEnter (toy_list "ab")); Act 0 Go; Act 0 Go;
   Write (toy_put "ab"); Commit 0; Ask 0; Act 0 Go; Act 0 Go; Commit 0; Act 0 Go;
   Deliver 1 1; Act 1 Go; Deliver 1 2; Act 1 Go; Act 2 (Tick true); Ask 2; Act 2 Go; Act 2 Go].

Theorem update_race_hides_change :
  exists s, reachable demo_cfg (s, [Returned None; WtLoop; RcIdle]) /\
    partitions s = toy_list "ab" /\ listeners s = [mkListener false (toy_list "a")].
Proof.
  assert (is_Some (execute demo_cfg demo_update_race demo_start)) as R by (eexists; vm_compute; reflexivity).
  apply source_demo_end_reachable in R; [|by repeat constructor; eexists].
  assert (demo_end demo_update_race = ((demo_end demo_update_race).1, [Returned None; WtLoop; RcIdle])) as E by (vm_compute; reflexivity).
  rewrite E in R. exists (demo_end demo_update_race).1. split; [exact R|]. clear R E. vm_compute. repeat split.
Qed.

(** The key is deleted, and the refresh of an [Update] that lost its race finds
    nothing. Before it clears the list, the key is written again, and watcher and
    reconciliation apply the new list. Now the list is cleared, the [Update] gives
    up, and every further reconciliation skips the entry it has applied before. *)
Definition demo_once : source_config := NewNatsKV "p" None false (Some 1%Z) false.

Definition demo_late_refresh : list event :=
  [Write (toy_put "a"); Deliver 0 0; Act 0 Go; Call (UpEnter (toy_list "b")); Act 0 Go; Act 0 Go;
   Write Del; Commit 0; Ask 0;
   Write (toy_put "c"); Deliver 1 2; Act 1 Go; Act 2 (Tick true); Ask 2; Act 2 Go; Act 2 Go;
   Act 0 Go; Act 0 Go; Act 2 (Tick true); Ask 2].

Theorem late_refresh_hides_list :
  exists s, reachable demo_once (s, [Returned (Some ErrUpdateRetryExhausted); WtLoop; RcIdle]) /\
    partitions s = [] /\ current demo_once (bucket s) = Some (toy_list "c") /\ revision s = 3%Z /\
    exec demo_once (Got 0 (Ok (entry_of (mkMsg 3 "p" 0 (toy_put "c") None)))) s RcGet = Some (noteBucketAvailable s, RcIdle).
Proof.
  set (x := default demo_start (execute demo_once demo_late_refresh demo_start)).
  assert (reachable demo_once x) as R.
  { apply (execute_source_reachable demo_once demo_late_refresh demo_start); [|by repeat constructor; eexists|vm_compute; reflexivity].
    apply (reachable_start demo_once [] 0 (Err (mkError [JsErrKeyNotFound] ""))); [by repeat constructor|done|by vm_compute]. }
  assert (x = (x.1, [Returned (Some ErrUpdateRetryExhausted); WtLoop; RcIdle])) as E by (vm_compute; reflexivity).
  rewrite E in R. exists x.1. split; [exact R|]. clear R E. vm_compute. repeat split.
Qed.

(** The key is deleted and the watcher has not delivered the deletion. An [Update]
    that nobody competes with uses up its attempts: the refresh keeps the revision
    from before the deletion. *)
Definition demo_after_delete : list event :=
  [Write (toy_put "a"); Deliver 0 0; Act 0 Go; Write Del; Call (UpEnter (toy_list "b")); Act 0 Go] ++
  concat (replicate 5 [Act 0 Go; Commit 0; Ask 0; Act 0 Go]) ++ [Act 0 Go].

Theorem update_fails_after_delete :
  exists s, reachable demo_cfg (s, [Returned (Some ErrUpdateRetryExhausted); WtLoop; RcIdle]) /\ length (bucket s) = 2.
Proof.
  assert (is_Some (execute demo_cfg demo_after_delete demo_start)) as R by (eexists; vm_compute; reflexivity).
  apply source_demo_end_reachable in R; [|by repeat constructor; eexists].
  assert (demo_end demo_after_delete = ((demo_end demo_after_delete).1, [Returned (Some ErrUpdateRetryExhausted); WtLoop; RcIdle]))
    as E by (vm_compute; reflexivity).
  rewrite E in R. exists (demo_end demo_after_delete).1. split; [exact R|]. clear R E. vm_compute. repeat split.
Qed.
