(* ===== verification/Effects.v ===== *)
(** * Programs over an interface of operations

    Code that calls its surroundings is a tree of operations; what an operation
    may answer, and what it does to the state shared with other goroutines, is a
    relation. Between two operations of a program the other goroutines may act.
    [wp] proves what holds whatever they do within [rely]. [traces] are the runs
    of a program by itself, with the answers that [ans] admits, and [always]
    proves what holds of all of them. [run] executes a program against a handler
    of its operations. *)
From S2P Require Import Prelude.

Inductive prog (O : Type -> Type) (A : Type) : Type :=
| Ret (a : A)
| Vis {X : Type} (o : O X) (k : X -> prog O A).
Arguments Ret {O A} a.
Arguments Vis {O A X} o k.

Fixpoint bind {O A B} (f : A -> prog O B) (m : prog O A) : prog O B :=
  match m with
  | Ret a => f a
  | Vis o k => Vis o (λ x, bind f (k x))
  end.

#[export] Instance prog_ret O : MRet (prog O) := λ A, Ret.
#[export] Instance prog_bind O : MBind (prog O) := λ A B f m, bind f m.

Definition trigger {O : Type -> Type} {X} (o : O X) : prog O X := Vis o Ret.

Section reasoning.
Context {O : Type -> Type} {S : Type} (effect : forall X, O X -> S -> X -> S -> Prop).
Context (Inv : S -> Prop) (rely : relation S).

Fixpoint wp {A} (m : prog O A) (Φ : A -> S -> Prop) (s : S) : Prop :=
  match m with
  | Ret a => forall s1, rely s s1 -> Inv s1 -> Φ a s1
  | Vis o k => forall s1 x s2,
      rely s s1 -> Inv s1 -> effect _ o s1 x s2 -> Inv s2 /\ wp (k x) Φ s2
  end.

Context `{!PreOrder rely}.

Lemma pwp_rely {A} (m : prog O A) Φ s s' : wp m Φ s -> rely s s' -> wp m Φ s'.
Proof using PreOrder0.
  destruct m as [a|X o k]; cbn [wp].
  - intros H L s1 L1. apply H. by etrans.
  - intros H L s1 x s2 L1. apply H. by etrans.
Qed.

Lemma pwp_bind {A B} (m : prog O A) (f : A -> prog O B) Φ s :
  Inv s -> wp m (λ a, wp (f a) Φ) s -> wp (m ≫= f) Φ s.
Proof using PreOrder0.
  revert s. induction m as [a|X o k IH]; intros s I H; cbn [wp] in H.
  - by apply H.
  - intros s1 x s2 L I1 E. destruct (H s1 x s2 L I1 E) as [I2 W]. split; [done|]. by apply IH.
Qed.

Lemma pwp_mono {A} (m : prog O A) (Φ Ψ : A -> S -> Prop) s :
  wp m Φ s -> (forall a s1, Inv s1 -> Φ a s1 -> Ψ a s1) -> wp m Ψ s.
Proof using.
  intros H M. revert s H. induction m as [a|X o k IH]; intros s H; cbn [wp] in *.
  - intros s1 L I. by apply M; [|apply H].
  - intros s1 x s2 L I1 E. destruct (H s1 x s2 L I1 E) as [I2 W]. split; [done|]. by apply IH.
Qed.

Lemma pwp_ret {A} (a : A) (Φ : A -> S -> Prop) s :
  (forall s1, rely s s1 -> Inv s1 -> Φ a s1) -> wp (Ret a) Φ s.
Proof using. done. Qed.

(** An operation in front of a program. *)
Lemma pwp_op {X A} (o : O X) (f : X -> prog O A) Φ s :
  (forall s1 x s2, rely s s1 -> Inv s1 -> effect X o s1 x s2 -> Inv s2 /\ wp (f x) Φ s2) ->
  wp (trigger o ≫= f) Φ s.
Proof using. intros H. exact H. Qed.
End reasoning.

(** ** Runs of one program *)

Section traces.
Context {O : Type -> Type} {Ev : Type} (observe : forall X, O X -> X -> list Ev) (ans : forall X, O X -> X -> Prop).

Inductive traces {A} : prog O A -> list Ev -> A -> Prop :=
| traces_ret a : traces (Ret a) [] a
| traces_op X (o : O X) k x tr a :
    ans X o x -> traces (k x) tr a -> traces (Vis o k) (observe X o x ++ tr) a.

Fixpoint always {A} (m : prog O A) (Φ : list Ev -> A -> Prop) : Prop :=
  match m with
  | Ret a => Φ [] a
  | Vis o k => forall x, ans _ o x -> always (k x) (λ tr, Φ (observe _ o x ++ tr))
  end.

Lemma always_traces {A} (m : prog O A) Φ tr a : always m Φ -> traces m tr a -> Φ tr a.
Proof.
  intros H T. revert Φ H. induction T as [a|X o k x tr a Hx T IH]; intros Φ H; [done|]. by apply (IH (λ tr, Φ (observe X o x ++ tr))), H.
Qed.

(** A program whose operations are all answered ends. *)
Lemma traces_exist {A} (m : prog O A) : (forall X (o : O X), exists x, ans X o x) -> exists tr a, traces m tr a.
Proof.
  intros Total. induction m as [a|X o k IH]; [by do 2 eexists; constructor|].
  destruct (Total X o) as [x Hx]. destruct (IH x) as (tr & a & T). do 2 eexists. by econstructor.
Qed.

Lemma always_mono {A} (m : prog O A) (Φ Ψ : list Ev -> A -> Prop) :
  always m Φ -> (forall tr a, Φ tr a -> Ψ tr a) -> always m Ψ.
Proof. revert Φ Ψ. induction m as [a|X o k IH]; intros Φ Ψ H M; cbn in *; [by apply M|]. intros x Hx. eapply IH; [by apply H|]. auto. Qed.

Lemma always_bind {A B} (m : prog O A) (f : A -> prog O B) Φ :
  always m (λ tr a, always (f a) (λ tr', Φ (tr ++ tr'))) -> always (m ≫= f) Φ.
Proof.
  revert Φ. induction m as [a|X o k IH]; intros Φ H; cbn in *; [done|]. intros x Hx. apply IH.
  eapply always_mono; [by apply H|]. intros tr a H'. cbn beta. eapply always_mono; [exact H'|]. intros tr' b. by rewrite app_assoc.
Qed.

Lemma always_op {X A} (o : O X) (f : X -> prog O A) Φ :
  (forall x, ans X o x -> always (f x) (λ tr, Φ (observe X o x ++ tr))) -> always (trigger o ≫= f) Φ.
Proof. intros H. exact H. Qed.
End traces.

(** ** Execution *)

Section run.
Context {O : Type -> Type} {S : Type} (handle : forall X, O X -> S -> X * S).

Fixpoint run {A} (m : prog O A) (s : S) : A * S :=
  match m with
  | Ret a => (a, s)
  | Vis o k => let xs := handle _ o s in run (k xs.1) xs.2
  end.

Lemma run_bind {A B} (m : prog O A) (f : A -> prog O B) s : run (m ≫= f) s = let as' := run m s in run (f as'.1) as'.2.
Proof. revert s. induction m as [a|X o k IH]; intros s; [done|]. apply IH. Qed.

Lemma run_op {X A} (o : O X) (f : X -> prog O A) s : run (trigger o ≫= f) s = let xs := handle X o s in run (f xs.1) xs.2.
Proof. done. Qed.

Context {Ev : Type} (observe : forall X, O X -> X -> list Ev) (ans : forall X, O X -> X -> Prop).

Fixpoint events {A} (m : prog O A) (s : S) : list Ev :=
  match m with
  | Ret _ => []
  | Vis o k => let xs := handle _ o s in observe _ o xs.1 ++ events (k xs.1) xs.2
  end.

(** An execution is one of the runs. *)
Lemma run_traces {A} (m : prog O A) s :
  (forall X (o : O X) s, ans X o (handle X o s).1) -> traces observe ans m (events m s) (run m s).1.
Proof. intros H. revert s. induction m as [a|X o k IH]; intros s; [constructor|]. cbn. econstructor; [apply H|apply IH]. Qed.
End run.
