(* ===== verification/Recovery.v ===== *)
(** * Recovery of a deleted consumer (internal/recovery)

    The checkpoint and epoch fence, the burst detector, the configuration of a
    recreated consumer and the controller that decides when to recreate it. The
    controller's atomics are shared with goroutines that acknowledge messages
    late, so each access is an operation ([op]); its other fields belong to the
    goroutine of the consumption loop and are passed along. *)
From S2P Require Import Prelude Nats Effects.

(** ** Strategies and consumer configurations (strategy.go, config.go) *)

Inductive Strategy := Disabled | FromNew | FromLastProcessed | FromBeginning.

#[export] Instance Strategy_eq_dec : EqDecision Strategy.
Proof. solve_decision. Defined.

Inductive DeliverPolicy := DeliverAllPolicy | DeliverNewPolicy | DeliverByStartSequencePolicy.

#[export] Instance DeliverPolicy_eq_dec : EqDecision DeliverPolicy.
Proof. solve_decision. Defined.

(** The fields of [jetstream.ConsumerConfig] that recovery reads or writes; the
    durable's name stands for all it leaves alone. *)
Record ConsumerConfig := mkCC {
  Durable : string;
  Deliver : DeliverPolicy;
  OptStartSeq : Z;
  OptStartTime : option Z;
}.

Definition BuildConfig (base : ConsumerConfig) (strategy : Strategy) (checkpoint : Z)
    (recreatedSinceLastBuild : bool) : ConsumerConfig * string :=
  let cfg p n := mkCC (Durable base) p n None in
  match strategy with
  | FromNew => (cfg DeliverNewPolicy 0%Z, "")
  | FromLastProcessed =>
      if decide (0 < checkpoint)%Z then
        (cfg DeliverByStartSequencePolicy (uwrap64 (checkpoint + 1)), "")
      else if recreatedSinceLastBuild then
        (cfg DeliverAllPolicy 0%Z, "stream_recreated_replay_from_start")
      else (cfg DeliverNewPolicy 0%Z, "fallback_no_checkpoint")
  | FromBeginning => (cfg DeliverAllPolicy 0%Z, "")
  | Disabled => (cfg DeliverNewPolicy 0%Z, "unsupported_strategy_fallback")
  end.

(** ** Error classes (classify.go) *)

Inductive ErrorClass := ErrorTransient | ErrorConsumerGone | ErrorNeedsConfirm | ErrorGracefulExit.

Definition ClassifyError (err : option go_error) : ErrorClass :=
  match err with
  | None => ErrorGracefulExit
  | Some e =>
      if Is e JsErrMsgIteratorClosed || Is e ContextCanceled then ErrorGracefulExit
      else if IsConsumerGone err then ErrorConsumerGone
      else if Is e JsErrNoHeartbeat then ErrorNeedsConfirm
      else ErrorTransient
  end.

Inductive Action := ActionContinue | ActionBackoff | ActionExit | ActionStreamMissing.

(** ** Burst detection (burst.go) *)

Record BurstDetector := mkBurst {
  failures : list Z;
  window : Z;
  threshold : Z;
}.

Definition defaultBurstThreshold : Z := 3.

Definition defaultBurstWindow (fetchTimeout threshold : Z) : Z :=
  wrap64 (wrap64 (fetchTimeout * wrap64 (threshold + 1)) + 3000000000).

Definition NewBurstDetector (window threshold : Z) : BurstDetector := mkBurst [] window threshold.

(** [sort.Search]: the binary search on [lo, hi), with one unit of fuel per
    element. *)
Fixpoint search (fuel : nat) (f : nat -> bool) (lo hi : nat) : nat :=
  match fuel with
  | 0 => lo
  | S fuel =>
      if decide (lo < hi) then
        let h := (lo + hi) / 2 in
        if f h then search fuel f lo h else search fuel f (S h) hi
      else lo
  end.

Definition TrimTimes (times : list Z) (cutoff : Z) : list Z :=
  let idx := search (length times) (λ i, match times !! i with Some t => bool_decide (cutoff <= t)%Z | None => true end)
    0 (length times) in
  drop idx times.

Definition Record_ (now : Z) (bd : BurstDetector) : BurstDetector * bool :=
  let fs := TrimTimes (failures bd ++ [now]) (now - window bd) in
  (mkBurst fs (window bd) (threshold bd), bool_decide (threshold bd <= Z.of_nat (length fs))%Z).

Definition Reset (bd : BurstDetector) : BurstDetector := mkBurst [] (window bd) (threshold bd).

(** ** Operations *)

(** A message as the client sees it; [m_inc] numbers the incarnation of the
    stream it was stored in, which no code can read. [m_seq] is what
    [Metadata] parses. *)
Record message := mkMessage { m_inc : nat; m_seq : option Z }.

Definition handle := nat.

(** The operations of the consumption loop and of acknowledging goroutines: the
    controller's atomics first, then the clock, the context, the JetStream
    client, the callbacks of the caller and the random numbers. A compare-and-swap
    loop that raises the checkpoint is one operation; the message and the epoch
    of an advance are there for the record only. [CallHandler] starts the
    handler, with the epoch of the wrapper when the message is tracked, and
    [HandlerReturn] is its answer. *)
Inductive op : Type -> Type :=
| EpochLoad : op Z
| EpochAdd : op unit
| CheckpointValue : op Z
| CheckpointSeed (floor : Z) : op unit
| CheckpointAdvance (seq : Z) (m : message) (epoch : Z) : op unit
| CheckpointReset : op unit
| FlagSet : op unit
| FlagSwap : op bool
| CtxErr : op (option go_error)
| Now : op Z
| Sleep (d : Z) : op (option go_error)
| RandInt64N (n : Z) : op Z
| Float64Bits : op Z
| LimiterWait : op (option go_error)
| Info (h : handle) : op (res go_error Z)
| Create (cfg : ConsumerConfig) : op (res go_error handle)
| MakeIterator (h : option handle) : op (option go_error)
| Next : op (res go_error message)
| StopIterator : op unit
| PullSuppressed : op bool
| CallHandler (m : message) (tracked : option Z) : op unit
| HandlerReturn : op (option go_error)
| AckMsg (m : message) : op (option go_error)
| NakMsg (m : message) : op unit
| Hook : op (option go_error)
| OnStreamRecreated : op unit
| OnPermanentFailure (e : go_error) : op unit.

Notation prog := (Effects.prog op).
Notation call := (@trigger op _).

(** ** Controller (controller.go) *)

Record Controller := mkController {
  strategy : Strategy;
  burst : BurstDetector;
  inProgress : bool;
  lastRecoveryTime : option Z;
  minRecoveryInterval : Z;
}.

Definition defaultRecoveryMinInterval : Z := 500000000.

Record ControllerConfig := mkControllerConfig {
  cc_strategy : Strategy;
  cc_fetchTimeout : Z;
  cc_burstThreshold : Z;
  cc_burstWindow : Z;
}.

Definition NewController (cfg : ControllerConfig) : option Controller :=
  if decide (cc_strategy cfg = Disabled) then None
  else
    let threshold := if decide (cc_burstThreshold cfg <= 0)%Z then defaultBurstThreshold else cc_burstThreshold cfg in
    let window :=
      if decide (cc_burstWindow cfg <= 0)%Z then defaultBurstWindow (cc_fetchTimeout cfg) threshold
      else cc_burstWindow cfg in
    Some (mkController (cc_strategy cfg) (NewBurstDetector window threshold) false None defaultRecoveryMinInterval).

Definition set_burst (b : BurstDetector) (c : Controller) : Controller :=
  mkController (strategy c) b (inProgress c) (lastRecoveryTime c) (minRecoveryInterval c).
Definition set_inProgress (b : bool) (c : Controller) : Controller :=
  mkController (strategy c) (burst c) b (lastRecoveryTime c) (minRecoveryInterval c).
Definition recovered (t : Z) (c : Controller) : Controller :=
  mkController (strategy c) (Reset (burst c)) (inProgress c) (Some t) (minRecoveryInterval c).

(** [fmt.Errorf] with the stream-missing sentinel around a cause. Where the code
    also prints the name of the stream the text leaves it out. *)
Definition missing (e : go_error) : go_error :=
  mkError (ErrStreamMissing :: wraps e) ("stream missing (operator-driven recovery): " +:+ Nats.message e).

Definition InfoFunc := prog (res go_error Z).
Definition RecreateFunc := ConsumerConfig -> prog (res go_error handle).

(** *** Checkpoint and epoch fence *)

Definition Advance (m : message) (epoch : Z) : prog unit :=
  match m_seq m with
  | None => Ret ()
  | Some seq => call (CheckpointAdvance seq m epoch)
  end.

Definition AdvanceCheckpoint (c : option Controller) (m : message) (epoch : Z) : prog unit :=
  match c with
  | None => Ret ()
  | Some _ =>
      cur ← call EpochLoad;
      if decide (epoch <> cur) then Ret () else Advance m epoch
  end.

(** [trackingMsg.Ack] and [DoubleAck] *)
Definition tracking_Ack (c : Controller) (m : message) (epoch : Z) : prog (option go_error) :=
  err ← call (AckMsg m);
  match err with
  | None => _ ← AdvanceCheckpoint (Some c) m epoch; Ret None
  | Some _ => Ret err
  end.

Definition WrapForTracking (c : option Controller) : prog (option Z) :=
  match c with
  | Some c => if decide (strategy c <> FromLastProcessed) then Ret None else e ← call EpochLoad; Ret (Some e)
  | None => Ret None
  end.

Definition Dispatch (c : option Controller) (m : message) (manualAck : bool) : prog unit :=
  if manualAck then
    w ← WrapForTracking c;
    _ ← call (CallHandler m w);
    _ ← call HandlerReturn;
    Ret ()
  else
    epoch ← match c with Some _ => call EpochLoad | None => Ret 0%Z end;
    _ ← call (CallHandler m None);
    err ← call HandlerReturn;
    match err with
    | Some _ => call (NakMsg m)
    | None =>
        ackErr ← call (AckMsg m);
        match ackErr with
        | None => AdvanceCheckpoint c m epoch
        | Some _ => Ret ()
        end
    end.

Definition SeedCheckpoint (c : option Controller) (infoFn : InfoFunc) : prog unit :=
  match c with
  | None => Ret ()
  | Some c =>
      if decide (strategy c <> FromLastProcessed) then Ret ()
      else
        info ← infoFn;
        match info with
        | Err _ => Ret ()
        | Ok floor => if decide (0 < floor)%Z then call (CheckpointSeed floor) else Ret ()
        end
  end.

Definition HandleStreamRecreated (c : option Controller) (infoFn : InfoFunc) : prog unit :=
  match c with
  | None => Ret ()
  | Some _ =>
      _ ← call EpochAdd;
      _ ← call CheckpointReset;
      _ ← SeedCheckpoint c infoFn;
      call FlagSet
  end.

(** *** Recreating the consumer *)

Definition RebuildAfterStreamRecreated (c : option Controller) (baseCfg : ConsumerConfig) (recreate : RecreateFunc) :
    prog (option Controller * res go_error handle) :=
  match c with
  | None => Ret (None, Err (mkError [] "recovery: nil controller cannot rebuild after stream recreate"))
  | Some c =>
      checkpoint ← call CheckpointValue;
      recreated ← call FlagSwap;
      let cfg := (BuildConfig baseCfg (strategy c) checkpoint recreated).1 in
      r ← recreate cfg;
      match r with
      | Err e =>
          ctxErr ← call CtxErr;
          Ret (Some c, Err match ctxErr with Some e' => e' | None => missing e end)
      | Ok newCons => t ← call Now; Ret (Some (recovered t c), Ok newCons)
      end
  end.

(** The body of [recover] once it is marked in progress. *)
Definition recover_locked (c : Controller) (baseCfg : ConsumerConfig) (recreate : RecreateFunc) :
    prog (Controller * res go_error (option handle)) :=
  ctxErr ← call CtxErr;
  if ctxErr is Some _ then Ret (c, Ok None)
  else
    now ← call Now;
    if match lastRecoveryTime c with
       | Some t => bool_decide (time_sub now t < minRecoveryInterval c)%Z
       | None => false
       end
    then Ret (c, Ok None)
    else
      checkpoint ← call CheckpointValue;
      let recoverCfg := (BuildConfig baseCfg (strategy c) checkpoint false).1 in
      ctxErr ← call CtxErr;
      if ctxErr is Some _ then Ret (c, Ok None)
      else
        r ← recreate recoverCfg;
        match r with
        | Err e => Ret (c, if IsStreamNotFound (Some e) then Err (missing e) else Ok None)
        | Ok newCons => t ← call Now; Ret (recovered t c, Ok (Some newCons))
        end.

Definition recover (c : Controller) (baseCfg : ConsumerConfig) (recreate : RecreateFunc) :
    prog (Controller * res go_error (option handle)) :=
  if inProgress c then Ret (c, Ok None)
  else
    r ← recover_locked (set_inProgress true c) baseCfg recreate;
    Ret (set_inProgress false r.1, r.2).

Definition probeConsumerGone (infoFn : InfoFunc) : prog (bool * option go_error) :=
  info ← infoFn;
  let err := match info with Err e => Some e | Ok _ => None end in
  Ret (IsConsumerNotFound err, err).

(** What [Classify] makes of the result of [recover]. *)
Definition recover_action (r : Controller * res go_error (option handle)) :
    Controller * Action * option handle * option go_error :=
  match r.2 with
  | Err e => (r.1, ActionStreamMissing, None, Some e)
  | Ok (Some newCons) => (r.1, ActionContinue, Some newCons, None)
  | Ok None => (r.1, ActionBackoff, None, None)
  end.

Definition Classify (c : Controller) (err : option go_error) (infoFn : InfoFunc) (baseCfg : ConsumerConfig)
    (recreate : RecreateFunc) : prog (Controller * Action * option handle * option go_error) :=
  match ClassifyError err with
  | ErrorGracefulExit => Ret (c, ActionExit, None, None)
  | ErrorConsumerGone => r ← recover c baseCfg recreate; Ret (recover_action r)
  | ErrorNeedsConfirm =>
      now ← call Now;
      let '(b, reached) := Record_ now (burst c) in
      let c := set_burst b c in
      if negb reached then Ret (c, ActionBackoff, None, None)
      else
        probe ← probeConsumerGone infoFn;
        if negb probe.1 then
          Ret match probe.2 with
              | Some e => if IsStreamNotFound (Some e) then (c, ActionStreamMissing, None, Some (missing e))
                          else (c, ActionBackoff, None, None)
              | None => (c, ActionBackoff, None, None)
              end
        else r ← recover c baseCfg recreate; Ret (recover_action r)
  | ErrorTransient => Ret (c, ActionBackoff, None, None)
  end.
