(* ===== verification/PartitionConsumer.v ===== *)
(** * The consumption loop of a partition (internal/durable/partition_consumer.go)

    One goroutine per subject creates an iterator under a retry envelope, pulls
    and dispatches messages, and on failure lets the recovery controller
    recreate the consumer or, when the whole stream is gone, asks the operator's
    hook. The loop is a program over the operations of [Recovery.op]; a round is
    one pass of its outer loop or of the loop over the messages. *)
From S2P Require Import Prelude Nats Float64 Effects Retry Recovery.

(** ** Configuration and state *)

Record RetryConfig := mkRetry { Base : Z; Multiplier : float64; Max : Z }.

Record partitionConsumerConfig := mkPCConfig {
  FetchTimeout : Z;
  ManualAck : bool;
  RecoveryStrategy : Strategy;
  Retry_ : RetryConfig;
  IteratorEscalationWindow : Z;
  IteratorEscalationThreshold : Z;
  RecoveryRetry : Retry.Config;
  hasOnPermanentFailure : bool;
  hasStreamMissingHook : bool;
  hasOnStreamRecreated : bool;
  hasLimiter : bool;
  hasHandler : bool;
}.

Definition DefaultIteratorEscalationWindow : Z := 60000000000.
Definition DefaultIteratorEscalationThreshold : Z := 3.
Definition DefaultRecoveryMaxAttempts : Z := 8.
Definition DefaultRecoveryBaseBackoff : Z := 500000000.

(** The fields only the goroutine of the loop writes. *)
Record partitionConsumer := mkPC {
  config : partitionConsumerConfig;
  consumerConfig : ConsumerConfig;
  consumer : option handle;
  iterFailureTimes : list Z;
  lastEscalation : option Z;
  streamMissingFailures : Z;
  recovery : option Controller;
  retryPrev : Z;
}.

Definition recovery_defaults (r : Retry.Config) : Retry.Config :=
  let attempts := if decide (MaxAttempts r <= 0)%Z then DefaultRecoveryMaxAttempts else MaxAttempts r in
  let base := if decide (BaseBackoff r <= 0)%Z then DefaultRecoveryBaseBackoff else BaseBackoff r in
  let max := if decide (MaxBackoff r < base)%Z then base else MaxBackoff r in
  mkRetryConfig base max attempts (Jitter r).

Definition newPartitionConsumer (cfg : partitionConsumerConfig) (cc : ConsumerConfig) (cons : option handle) :
    partitionConsumer :=
  let cfg := mkPCConfig (FetchTimeout cfg) (ManualAck cfg) (RecoveryStrategy cfg) (Retry_ cfg)
    (IteratorEscalationWindow cfg) (IteratorEscalationThreshold cfg) (recovery_defaults (RecoveryRetry cfg))
    (hasOnPermanentFailure cfg) (hasStreamMissingHook cfg) (hasOnStreamRecreated cfg) (hasLimiter cfg) (hasHandler cfg) in
  mkPC cfg cc cons [] None 0 (NewController (mkControllerConfig (RecoveryStrategy cfg) (FetchTimeout cfg) 0 0)) 0.

Definition set_consumer (h : handle) (pc : partitionConsumer) : partitionConsumer :=
  mkPC (config pc) (consumerConfig pc) (Some h) (iterFailureTimes pc) (lastEscalation pc)
    (streamMissingFailures pc) (recovery pc) (retryPrev pc).
Definition set_escalation (ts : list Z) (last : option Z) (pc : partitionConsumer) : partitionConsumer :=
  mkPC (config pc) (consumerConfig pc) (consumer pc) ts last (streamMissingFailures pc) (recovery pc) (retryPrev pc).
Definition set_failures (n : Z) (pc : partitionConsumer) : partitionConsumer :=
  mkPC (config pc) (consumerConfig pc) (consumer pc) (iterFailureTimes pc) (lastEscalation pc) n (recovery pc) (retryPrev pc).
Definition set_recovery (c : option Controller) (pc : partitionConsumer) : partitionConsumer :=
  mkPC (config pc) (consumerConfig pc) (consumer pc) (iterFailureTimes pc) (lastEscalation pc)
    (streamMissingFailures pc) c (retryPrev pc).
Definition set_retryPrev (d : Z) (pc : partitionConsumer) : partitionConsumer :=
  mkPC (config pc) (consumerConfig pc) (consumer pc) (iterFailureTimes pc) (lastEscalation pc)
    (streamMissingFailures pc) (recovery pc) d.

(** A fresh consumer is bound: the escalation counters start over. *)
Definition adopt (h : handle) (pc : partitionConsumer) : partitionConsumer :=
  set_failures 0 (set_escalation [] None (set_consumer h pc)).

(** [atomic.Int32] *)
Definition wrap32 (z : Z) : Z := (z + 2 ^ 31) `mod` 2 ^ 32 - 2 ^ 31.

Section loop.
(** The conversion of a float outside the range of an integer depends on the
    platform. *)
Context (float_to_int : float64 -> Z).

(** ** Backoff (backoff.go) *)

Definition jitterBackoff (prev base : Z) (mult : float64) (capDur : Z) : prog Z :=
  let base := if decide (base <= 0)%Z then 50000000%Z else base in
  let mult := if f64_ltb mult (f64_of_Z 1) then f64_of_Z 1 else mult in
  if decide (0 < capDur < base)%Z then Ret capDur
  else if decide (prev <= 0)%Z then Ret (if decide (0 < capDur < base)%Z then capDur else base)
  else
    let maxDuration := wrap64 (f64_to_int64 float_to_int (f64_mul (f64_of_Z prev) mult) - base) in
    let maxDuration := if decide (maxDuration <= 0)%Z then base else maxDuration in
    jitter ← call (RandInt64N maxDuration);
    let next := wrap64 (base + jitter) in
    Ret (if decide (0 < capDur < next)%Z then capDur else next).

Definition delayWithBackoffOrExit (pc : partitionConsumer) : prog (partitionConsumer * bool) :=
  let r := Retry_ (config pc) in
  delay ← jitterBackoff (retryPrev pc) (Base r) (Multiplier r) (Max r);
  ctxErr ← call (Sleep delay);
  Ret (set_retryPrev delay pc, if ctxErr is Some _ then true else false).

(** ** Consumers *)

Definition limiter_wait (pc : partitionConsumer) : prog (option go_error) :=
  if hasLimiter (config pc) then call LimiterWait else Ret None.

Definition consumerInfoFn (pc : partitionConsumer) : InfoFunc :=
  match consumer pc with
  | None => Ret (Err (mkError [] "no consumer"))
  | Some h => call (Info h)
  end.

Definition recreateFn (pc : partitionConsumer) : RecreateFunc := λ cfg,
  err ← limiter_wait pc;
  match err with
  | Some e => Ret (Err e)
  | None => call (Create cfg)
  end.

(** [i] counts the attempts made, out of three. *)
Fixpoint ensureConsumer_loop (n : nat) (pc : partitionConsumer) (i : Z) (lastErr : go_error) : prog (res go_error handle) :=
  match n with
  | 0 => Ret (Err (mkError (wraps lastErr) ("failed after 3 attempts: " +:+ Nats.message lastErr)))
  | S n =>
      ctxErr ← call CtxErr;
      match ctxErr with
      | Some e => Ret (Err e)
      | None =>
          err ← limiter_wait pc;
          match err with
          | Some e => Ret (Err e)
          | None =>
              r ← call (Create (consumerConfig pc));
              match r with
              | Ok h => Ret (Ok h)
              | Err e =>
                  if IsStreamNotFound (Some e) then Ret (Err e)
                  else if decide (i < 2)%Z then
                    delay ← jitterBackoff (i * 50000000) 50000000 (f64_of_Z 2) 200000000;
                    slept ← call (Sleep delay);
                    match slept with
                    | Some e' => Ret (Err e')
                    | None => ensureConsumer_loop n pc (i + 1) e
                    end
                  else ensureConsumer_loop n pc (i + 1) e
              end
          end
      end
  end.

Definition ensureConsumer (pc : partitionConsumer) : prog (res go_error handle) :=
  ensureConsumer_loop 3 pc 0 (mkError [] "").

Definition maybeEscalateIteratorFailures (pc : partitionConsumer) : prog (partitionConsumer * option go_error) :=
  let window := if decide (IteratorEscalationWindow (config pc) <= 0)%Z then DefaultIteratorEscalationWindow
                else IteratorEscalationWindow (config pc) in
  let threshold := if decide (IteratorEscalationThreshold (config pc) <= 0)%Z then DefaultIteratorEscalationThreshold
                   else IteratorEscalationThreshold (config pc) in
  now ← call Now;
  let times := TrimTimes (iterFailureTimes pc ++ [now]) (now - window) in
  let canEscalate := bool_decide (threshold <= Z.of_nat (length times))%Z &&
    match lastEscalation pc with None => true | Some last => bool_decide (window <= time_sub now last)%Z end in
  if negb canEscalate then Ret (set_escalation times (lastEscalation pc) pc, None)
  else
    let pc := set_escalation times (Some now) pc in
    healthy ← match consumer pc with
              | None => Ret false
              | Some h => info ← call (Info h); Ret (if info is Ok _ then true else false)
              end;
    if (healthy : bool) then Ret (set_failures 0 pc, None)
    else
      r ← ensureConsumer pc;
      Ret match r with
          | Err e => (pc, if IsStreamNotFound (Some e) then Some e else None)
          | Ok h => (set_failures 0 (set_consumer h pc), None)
          end.

(** ** The stream-missing detour *)

Definition handleStreamMissing (pc : partitionConsumer) : prog (option go_error) :=
  if hasStreamMissingHook (config pc) then
    hookErr ← call Hook;
    match hookErr with
    | Some e => Ret (Some (missing e))
    | None =>
        _ ← HandleStreamRecreated (recovery pc) (consumerInfoFn pc);
        _ ← if hasOnStreamRecreated (config pc) then call OnStreamRecreated else Ret ();
        Ret None
    end
  else Ret (Some (mkError [ErrStreamMissing] "stream missing (operator-driven recovery)")).

Definition rebuildAfterStreamMissing (pc : partitionConsumer) : prog (partitionConsumer * res go_error handle) :=
  err ← handleStreamMissing pc;
  match err with
  | Some e => Ret (pc, Err e)
  | None =>
      '(c, r) ← RebuildAfterStreamRecreated (recovery pc) (consumerConfig pc) (recreateFn pc);
      let pc := set_recovery c pc in
      Ret match r with
          | Err e => (pc, Err e)
          | Ok newCons => (adopt newCons pc, Ok newCons)
          end
  end.

Definition permanent_failure (pc : partitionConsumer) (e : go_error) : prog unit :=
  if hasOnPermanentFailure (config pc) then call (OnPermanentFailure e) else Ret ().

Definition handleStreamMissingFailure (pc : partitionConsumer) (detourErr : go_error) : prog (partitionConsumer * bool) :=
  let count := wrap32 (streamMissingFailures pc + 1) in
  let pc := set_failures count pc in
  let maxAttempts := if decide (MaxAttempts (RecoveryRetry (config pc)) <= 0)%Z then DefaultRecoveryMaxAttempts
                     else MaxAttempts (RecoveryRetry (config pc)) in
  if decide (maxAttempts <= count)%Z then _ ← permanent_failure pc detourErr; Ret (pc, true)
  else delayWithBackoffOrExit pc.

Definition runStreamMissingDetour (pc : partitionConsumer) : prog (partitionConsumer * option go_error) :=
  '(pc, r) ← rebuildAfterStreamMissing pc;
  match r with
  | Err e => Ret (pc, Some e)
  | Ok newCons => err ← call (MakeIterator (Some newCons)); Ret (pc, err)
  end.

(** ** The iterator-creation envelope *)

(** The work function of one attempt. *)
Definition iterator_work (pc : partitionConsumer) : prog (partitionConsumer * option go_error) :=
  err ← call (MakeIterator (consumer pc));
  match err with
  | None => Ret (pc, None)
  | Some _ =>
      '(pc, escErr) ← maybeEscalateIteratorFailures pc;
      match escErr with
      | Some e => if IsStreamNotFound (Some e) then runStreamMissingDetour pc else Ret (pc, err)
      | None => Ret (pc, err)
      end
  end.

(** [Envelope.Run] with the work function above, the default classification and
    the callback on exhaustion. *)
Fixpoint envelope_loop (fuel : nat) (cfg : Retry.Config) (pc : partitionConsumer) (attempt : Z) (lastErr : go_error) :
    prog (partitionConsumer * Retry.result (E := go_error)) :=
  match fuel with
  | 0 => _ ← permanent_failure pc lastErr; Ret (pc, Exhausted)
  | S fuel =>
      ctxErr ← call CtxErr;
      match ctxErr with
      | Some e => Ret (pc, Failed e)
      | None =>
          '(pc, err) ← iterator_work pc;
          match err with
          | None => Ret (pc, Success)
          | Some e =>
              if decide (attempt = MaxAttempts cfg) then _ ← permanent_failure pc e; Ret (pc, Exhausted)
              else
                bits ← call Float64Bits;
                slept ← call (Sleep (backoffFor float_to_int cfg attempt bits));
                match slept with
                | Some e' => Ret (pc, Failed e')
                | None => envelope_loop fuel cfg pc (attempt + 1) e
                end
          end
      end
  end.

(** The budget is the fuel; [None] is a panic of [retry.New]. *)
Definition runIteratorEnvelope (pc : partitionConsumer) : prog (partitionConsumer * option (Retry.result (E := go_error))) :=
  match Retry.New (RecoveryRetry (config pc)) with
  | None => Ret (pc, None)
  | Some cfg =>
      '(pc, r) ← envelope_loop (Z.to_nat (MaxAttempts cfg)) cfg pc 1 (mkError [] "");
      Ret (pc, Some r)
  end.

(** ** Failures of a running iterator *)

Definition handleIteratorFailure (pc : partitionConsumer) (iterErr : go_error) : prog (partitionConsumer * bool) :=
  match recovery pc with
  | None =>
      '(pc, escErr) ← maybeEscalateIteratorFailures pc;
      match escErr with
      | Some e => if IsStreamNotFound (Some e) then handleStreamMissingFailure pc (missing e) else delayWithBackoffOrExit pc
      | None => delayWithBackoffOrExit pc
      end
  | Some c =>
      '(c, action, newCons, _) ← Classify c (Some iterErr) (consumerInfoFn pc) (consumerConfig pc) (recreateFn pc);
      let pc := set_recovery (Some c) pc in
      match action with
      | ActionExit => Ret (pc, true)
      | ActionStreamMissing =>
          '(pc, r) ← rebuildAfterStreamMissing pc;
          match r with
          | Err e => handleStreamMissingFailure pc e
          | Ok _ => Ret (pc, false)
          end
      | ActionContinue =>
          match newCons with
          | None => Ret (pc, false)
          | Some h =>
              let pc := adopt h pc in
              _ ← SeedCheckpoint (recovery pc) (consumerInfoFn pc);
              Ret (set_retryPrev 0 pc, false)
          end
      | ActionBackoff => delayWithBackoffOrExit pc
      end
  end.

(** ** The loop *)

Inductive phase := Starting | Creating | Pulling.
Inductive next := Goto (p : phase) | Exit | Panic.

(** The outer loop. *)
Definition create_round (pc : partitionConsumer) : prog (partitionConsumer * next) :=
  ctxErr ← call CtxErr;
  match ctxErr with
  | Some _ => Ret (pc, Exit)
  | None =>
      suppressed ← call PullSuppressed;
      if (suppressed : bool) then
        slept ← call (Sleep 150000000);
        Ret (pc, if slept is Some _ then Exit else Goto Creating)
      else
        '(pc, r) ← runIteratorEnvelope pc;
        Ret (pc, match r with
                 | None => Panic
                 | Some Success => Goto Pulling
                 | Some _ => Exit
                 end)
  end.

(** [processIterator], and what the outer loop does with its result. *)
Definition pull_round (pc : partitionConsumer) : prog (partitionConsumer * next) :=
  ctxErr ← call CtxErr;
  match ctxErr with
  | Some _ => _ ← call StopIterator; Ret (pc, Exit)
  | None =>
      r ← call Next;
      match r with
      | Err e =>
          _ ← call StopIterator;
          if Is e JsErrMsgIteratorClosed || Is e ContextCanceled then Ret (set_retryPrev 0 pc, Goto Creating)
          else
            '(pc, exit) ← handleIteratorFailure pc e;
            Ret (pc, if (exit : bool) then Exit else Goto Creating)
      | Ok m =>
          _ ← if hasHandler (config pc) then Dispatch (recovery pc) m (ManualAck (config pc)) else call (NakMsg m);
          Ret (pc, Goto Pulling)
      end
  end.

Definition round (p : phase) (pc : partitionConsumer) : prog (partitionConsumer * next) :=
  match p with
  | Starting => _ ← SeedCheckpoint (recovery pc) (consumerInfoFn pc); Ret (pc, Goto Creating)
  | Creating => create_round pc
  | Pulling => pull_round pc
  end.
End loop.
