(* ===== verification/ConsumerSystem.v ===== *)
(** * A consumption loop among late acknowledgements

    The loop of one partition runs beside the goroutines in which handlers
    acknowledge messages they were handed earlier, and beside the operator who
    may replace the stream. [world] is what they share: the controller's
    atomics, the JetStream stream and the record of what happened. *)
From S2P Require Import Prelude Nats Float64 Effects Retry Recovery PartitionConsumer.

(** ** The shared world *)

(** What a consumer was asked for, the incarnation of the stream when the
    current epoch began, the incarnation now, and whether a fenced-out
    acknowledgement had raised the checkpoint. *)
Record build := mkBuild { b_cfg : ConsumerConfig; b_base : nat; b_inc : nat; b_late : bool }.

(** [epoch], [checkpoint], [flag]: the atomics of the controller. [inc] numbers
    the incarnations of the stream; [iter_inc] is the one in which the iterator
    was created. The rest is history: the incarnation at each epoch, what was
    acknowledged, which ack floors the server reported, the messages handed out
    under a tracking wrapper with its epoch, whether the checkpoint was reset in
    this epoch, whether an acknowledgement of an earlier epoch raised it since,
    the consumers asked for, and the permanent failures reported. *)
Record world := mkWorld {
  epoch : Z;
  checkpoint : Z;
  flag : bool;
  clock : Z;
  inc : nat;
  iter_inc : nat;
  eras : list nat;
  acked : list (nat * Z);
  floors : list (nat * Z);
  handed : list (message * Z);
  clean : bool;
  late : bool;
  built : list build;
  permanents : list go_error;
}.

Definition world0 (i : nat) (t : Z) : world := mkWorld 0 0 false t i i [i] [] [] [] true false [] [].

(** The incarnation of the stream when the current epoch began. *)
Definition base (w : world) : nat := default 0 (last (eras w)).

Definition set_checkpoint (c : Z) (cl lt : bool) (w : world) : world :=
  mkWorld (epoch w) c (flag w) (clock w) (inc w) (iter_inc w) (eras w) (acked w) (floors w) (handed w) cl lt
    (built w) (permanents w).
Definition set_flag (b : bool) (w : world) : world :=
  mkWorld (epoch w) (checkpoint w) b (clock w) (inc w) (iter_inc w) (eras w) (acked w) (floors w) (handed w)
    (clean w) (late w) (built w) (permanents w).
Definition bump (w : world) : world :=
  mkWorld (uwrap64 (epoch w + 1)) (checkpoint w) (flag w) (clock w) (inc w) (iter_inc w) (eras w ++ [inc w])
    (acked w) (floors w) (handed w) false (late w) (built w) (permanents w).
Definition set_clock (t : Z) (w : world) : world :=
  mkWorld (epoch w) (checkpoint w) (flag w) t (inc w) (iter_inc w) (eras w) (acked w) (floors w) (handed w)
    (clean w) (late w) (built w) (permanents w).
Definition set_incs (i j : nat) (w : world) : world :=
  mkWorld (epoch w) (checkpoint w) (flag w) (clock w) i j (eras w) (acked w) (floors w) (handed w)
    (clean w) (late w) (built w) (permanents w).
Definition set_history (a f : list (nat * Z)) (h : list (message * Z)) (w : world) : world :=
  mkWorld (epoch w) (checkpoint w) (flag w) (clock w) (inc w) (iter_inc w) (eras w) a f h
    (clean w) (late w) (built w) (permanents w).
Definition set_reports (b : list build) (p : list go_error) (w : world) : world :=
  mkWorld (epoch w) (checkpoint w) (flag w) (clock w) (inc w) (iter_inc w) (eras w) (acked w) (floors w) (handed w)
    (clean w) (late w) b p.

(** ** What the operations do *)

(** Which answers the documentation allows: atomics answer their value, the
    clock does not go back, random numbers are in range, a message that an
    iterator yields was stored in the stream after the iterator was created. *)
Definition truthful {X} (o : op X) : world -> X -> bool :=
  match o in op X return world -> X -> bool with
  | EpochLoad => λ w x, bool_decide (x = epoch w)
  | CheckpointValue => λ w x, bool_decide (x = checkpoint w)
  | FlagSwap => λ w x, Bool.eqb x (flag w)
  | Now => λ w x, bool_decide (clock w <= x)%Z
  | RandInt64N n => λ _ x, bool_decide (0 <= x < n)%Z
  | Float64Bits => λ _ x, bool_decide (0 <= x < 2 ^ 53)%Z
  | Next => λ w x, match x with Ok m => bool_decide (iter_inc w <= m_inc m <= inc w) | Err _ => true end
  | _ => λ _ _, true
  end.

Definition apply {X} (o : op X) : world -> X -> world :=
  match o in op X return world -> X -> world with
  | EpochAdd => λ w _, bump w
  | CheckpointSeed f => λ w _, set_checkpoint (Z.max (checkpoint w) f) (clean w) (late w) w
  | CheckpointAdvance seq m e => λ w _,
      set_checkpoint (Z.max (checkpoint w) seq) (clean w)
        (late w || (bool_decide (checkpoint w < seq)%Z && bool_decide (e <> epoch w))) w
  | CheckpointReset => λ w _, set_checkpoint 0 true false w
  | FlagSet => λ w _, set_flag true w
  | FlagSwap => λ w _, set_flag false w
  | Now => λ w x, set_clock x w
  | Info h => λ w x, match x with Ok f => set_history (acked w) (floors w ++ [(inc w, f)]) (handed w) w | Err _ => w end
  | Create cfg => λ w _, set_reports (built w ++ [mkBuild cfg (base w) (inc w) (late w)]) (permanents w) w
  | MakeIterator h => λ w x, match x with None => set_incs (inc w) (inc w) w | Some _ => w end
  | CallHandler m t => λ w _, match t with Some e => set_history (acked w) (floors w) (handed w ++ [(m, e)]) w | None => w end
  | AckMsg m => λ w x,
      match x, m_seq m with
      | None, Some s => set_history (acked w ++ [(m_inc m, s)]) (floors w) (handed w) w
      | _, _ => w
      end
  | OnPermanentFailure e => λ w _, set_reports (built w) (permanents w ++ [e]) w
  | _ => λ w _, w
  end.

Definition effect (X : Type) (o : op X) (w : world) (x : X) (w' : world) : Prop :=
  truthful o w x = true /\ w' = apply o w x.

(** ** Executions *)

Inductive loop :=
| At (p : phase) (pc : partitionConsumer)
| Running (m : prog (partitionConsumer * next))
| Exited
| Panicked.

Definition after (r : partitionConsumer * next) : loop :=
  match r.2 with
  | Goto p => At p r.1
  | Exit => Exited
  | Panic => Panicked
  end.

Section system.
Context (float_to_int : float64 -> Z).

(** A message under a tracking wrapper may be acknowledged at any time, also
    more than once, by goroutines of the caller. The stream may be replaced at
    any time. *)
Inductive step : world * loop * list (prog (option go_error)) -> world * loop * list (prog (option go_error)) -> Prop :=
| step_begin w p pc ts : step (w, At p pc, ts) (w, Running (round float_to_int p pc), ts)
| step_op w X (o : op X) k x w' ts :
    effect X o w x w' -> step (w, Running (Vis o k), ts) (w', Running (k x), ts)
| step_end w r ts : step (w, Running (Ret r), ts) (w, after r, ts)
| step_ack w l c m e ts : (m, e) ∈ handed w -> step (w, l, ts) (w, l, ts ++ [tracking_Ack c m e])
| step_acking w l X (o : op X) k x w' ts1 ts2 :
    effect X o w x w' -> step (w, l, ts1 ++ Vis o k :: ts2) (w', l, ts1 ++ k x :: ts2)
| step_replace w l ts : step (w, l, ts) (set_incs (S (inc w)) (iter_inc w) w, l, ts).

Definition reachable (pc : partitionConsumer) (i : nat) (t : Z) : world * loop * list (prog (option go_error)) -> Prop :=
  rtc step (world0 i t, At Starting pc, []).
End system.

(** ** A runner for schedules *)

Inductive answer :=
| AUnit | AZ (z : Z) | ABool (b : bool) | AErr (e : option go_error)
| ANum (r : res go_error Z) | AHandle (r : res go_error handle) | AMsg (r : res go_error message).

Definition decode {X} (o : op X) : answer -> option X :=
  match o in op X return answer -> option X with
  | EpochLoad | CheckpointValue | Now | RandInt64N _ | Float64Bits => λ a, match a with AZ z => Some z | _ => None end
  | FlagSwap | PullSuppressed => λ a, match a with ABool b => Some b | _ => None end
  | CtxErr | Sleep _ | LimiterWait | MakeIterator _ | HandlerReturn | AckMsg _ | Hook =>
      λ a, match a with AErr e => Some e | _ => None end
  | Info _ => λ a, match a with ANum r => Some r | _ => None end
  | Create _ => λ a, match a with AHandle r => Some r | _ => None end
  | Next => λ a, match a with AMsg r => Some r | _ => None end
  | EpochAdd | CheckpointSeed _ | CheckpointAdvance _ _ _ | CheckpointReset | FlagSet | StopIterator
  | CallHandler _ _ | NakMsg _ | OnStreamRecreated | OnPermanentFailure _ =>
      λ a, match a with AUnit => Some () | _ => None end
  end.

(** One operation of a program with this answer. *)
Definition exec {A} (a : answer) (w : world) (m : prog A) : option (world * prog A) :=
  match m with
  | Ret _ => None
  | Vis o k => x ← decode o a; if truthful o w x then Some (apply o w x, k x) else None
  end.

Inductive action := Do (a : answer) | Turn | LateAck (n : nat) (c : Controller) | Acking (n : nat) (a : answer) | Replace.

Definition perform (float_to_int : float64 -> Z) (act : action) (s : world * loop * list (prog (option go_error))) :
    option (world * loop * list (prog (option go_error))) :=
  let '(w, l, ts) := s in
  match act with
  | Turn =>
      match l with
      | At p pc => Some (w, Running (round float_to_int p pc), ts)
      | Running (Ret r) => Some (w, after r, ts)
      | _ => None
      end
  | Do a =>
      match l with
      | Running m => '(w', m') ← exec a w m; Some (w', Running m', ts)
      | _ => None
      end
  | LateAck n c => '(m, e) ← handed w !! n; Some (w, l, ts ++ [tracking_Ack c m e])
  | Acking n a => m ← ts !! n; '(w', m') ← exec a w m; Some (w', l, <[n := m']> ts)
  | Replace => Some (set_incs (S (inc w)) (iter_inc w) w, l, ts)
  end.

Fixpoint execute (float_to_int : float64 -> Z) (acts : list action) (s : world * loop * list (prog (option go_error))) :
    option (world * loop * list (prog (option go_error))) :=
  match acts with
  | [] => Some s
  | a :: acts => s' ← perform float_to_int a s; execute float_to_int acts s'
  end.

Lemma exec_effect {A} a w (m : prog A) w' m' :
  exec a w m = Some (w', m') -> exists X (o : op X) k x, m = Vis o k /\ effect X o w x w' /\ m' = k x.
Proof.
  destruct m as [|X o k]; [done|]. cbn. destruct (decode o a) as [x|]; [|done]. cbn.
  destruct (truthful o w x) eqn:T; [|done]. intros [= <- <-]. by exists X, o, k, x.
Qed.

Lemma perform_consumer_step f act s s' : perform f act s = Some s' -> step f s s'.
Proof.
  destruct s as [[w l] ts]. destruct act as [a| |n c|n a|]; cbn.
  - destruct l as [|m| |]; try done. destruct (exec a w m) as [[w' m']|] eqn:E; [|done]. cbn. intros [= <-].
    apply exec_effect in E as (X & o & k & x & -> & H & ->). by constructor.
  - destruct l as [p pc|[r|]| |]; intros [= <-]; constructor.
  - destruct (handed w !! n) as [[m e]|] eqn:E; [|done]. cbn. intros [= <-]. apply (step_ack f w l c).
    by apply list_elem_of_lookup_2 in E.
  - destruct (ts !! n) as [m|] eqn:L; [|done]. cbn. destruct (exec a w m) as [[w' m']|] eqn:E; [|done]. cbn. intros [= <-].
    apply exec_effect in E as (X & o & k & x & -> & H & ->).
    rewrite <- (take_drop_middle _ _ _ L) at 1. rewrite (insert_take_drop _ n (k x)) by by eapply lookup_lt_Some.
    by constructor.
  - intros [= <-]. constructor.
Qed.

Lemma executed_reachable f acts s s' s0 : rtc (step f) s0 s -> execute f acts s = Some s' -> rtc (step f) s0 s'.
Proof.
  revert s. induction acts as [|a acts IH]; intros s R; cbn; [by intros [= <-]|].
  destruct (perform f a s) as [s1|] eqn:E; [|done]. cbn. apply IH. eapply rtc_r; [exact R|]. by eapply perform_consumer_step.
Qed.
