(* ===== verification/ConsumerSafety.v ===== *)
(** * Where a recreated consumer resumes

    The epoch fence of internal/recovery/controller.go in all interleavings of
    ConsumerSystem: what the checkpoint vouches for, and with which start
    sequence consumers are asked for. *)
From S2P Require Import Prelude Nats Float64 Effects Retry Recovery PartitionConsumer ConsumerSystem.

(** ** The invariant *)

(** The epoch counter has not wrapped around. *)
Definition small (w : world) : Prop := (Z.of_nat (length (eras w)) <= 2 ^ 64)%Z.

(** The sequence was acknowledged, or reported as ack floor, in the incarnation
    [i] of the stream. *)
Definition known (w : world) (i : nat) (c : Z) : Prop := (i, c) ∈ acked w \/ (i, c) ∈ floors w.

Definition vouched (w : world) (b : nat) (c : Z) : Prop := exists i, b <= i /\ known w i c.

(** The message was stored in the stream no earlier than its epoch began. *)
Definition tracked (w : world) (m : message) (e : Z) : Prop :=
  m_inc m <= inc w /\ exists k era, eras w !! k = Some era /\ e = uwrap64 (Z.of_nat k) /\ era <= m_inc m.

(** A consumer that starts at a sequence starts right after a known one. *)
Definition starts_after_known (w : world) (cfg : ConsumerConfig) (b i : nat) : Prop :=
  (0 < OptStartSeq cfg)%Z -> exists j c, b <= j <= i /\ known w j c /\ OptStartSeq cfg = uwrap64 (c + 1).

Definition build_ok (w : world) (b : build) : Prop :=
  b_late b = false -> starts_after_known w (b_cfg b) (b_base b) (b_inc b).

Record Inv (w : world) : Prop := {
  inv_eras : eras w <> [];
  inv_epoch : epoch w = uwrap64 (Z.of_nat (length (eras w)) - 1);
  inv_base : base w <= inc w;
  inv_known i c : known w i c -> i <= inc w;
  inv_handed m e : (m, e) ∈ handed w -> tracked w m e;
  inv_checkpoint : small w -> clean w = true -> (0 < checkpoint w)%Z -> late w = false -> vouched w (base w) (checkpoint w);
  inv_built : small w -> Forall (build_ok w) (built w);
}.

(** ** What only grows *)

Record later (w w' : world) : Prop := {
  later_inc : inc w <= inc w';
  later_eras : eras w `prefix_of` eras w';
  later_acked : acked w `prefix_of` acked w';
  later_floors : floors w `prefix_of` floors w';
}.

(** What the loop's goroutine may rely on between two of its operations. *)
Record steady (w w' : world) : Prop := {
  steady_later : later w w';
  steady_eras : eras w' = eras w;
  steady_clean : clean w' = clean w;
  steady_iter : iter_inc w' = iter_inc w;
  steady_late : late w = true -> late w' = true;
}.

#[export] Instance later_po : PreOrder later.
Proof.
  split; [by split|]. intros w1 w2 w3 [] []. split; [lia|by etrans..].
Qed.

#[export] Instance steady_po : PreOrder steady.
Proof.
  split; [by split|]. intros w1 w2 w3 [] []. split; [by etrans|congruence..|auto].
Qed.

Lemma known_later w w' i c : later w w' -> known w i c -> known w' i c.
Proof. unfold known. intros [_ _ [a ->] [f ->]]. rewrite !elem_of_app. tauto. Qed.

Lemma vouched_later w w' b c : later w w' -> vouched w b c -> vouched w' b c.
Proof. intros L (i & Hi & K). exists i. split; [done|]. by eapply known_later. Qed.

Lemma tracked_later w w' m e : later w w' -> tracked w m e -> tracked w' m e.
Proof.
  intros L (Hi & k & era & Ek & Ee & Hm). split; [destruct L; lia|]. exists k, era. split; [|done].
  eapply prefix_lookup_Some; [done|]. by destruct L.
Qed.

Lemma build_ok_later w w' b : later w w' -> build_ok w b -> build_ok w' b.
Proof.
  intros L H Lt S. destruct (H Lt S) as (j & c & Hj & K & E). exists j, c. split_and!; try done; try lia. by eapply known_later.
Qed.

Lemma small_later w w' : later w w' -> small w' -> small w.
Proof. intros [_ P _ _] H. apply prefix_length in P. unfold small in *. lia. Qed.

Lemma steady_base w w' : steady w w' -> base w' = base w.
Proof. intros [_ E _ _ _]. unfold base. by rewrite E. Qed.

(** An epoch that equals the current one is the current one. *)
Lemma tracked_current w m e : Inv w -> small w -> tracked w m e -> e = epoch w -> base w <= m_inc m.
Proof.
  intros I Sm (_ & k & era & Ek & -> & Hm) E. rewrite (inv_epoch w I) in E. unfold small in Sm.
  pose proof (lookup_lt_Some _ _ _ Ek) as Hk. unfold uwrap64 in E. rewrite !Z.mod_small in E by lia.
  assert (k = pred (length (eras w))) as -> by lia. unfold base. rewrite last_lookup, Ek. done.
Qed.

(** ** One operation *)

(** What has to hold when an operation is performed, for the invariant. *)
Definition allowed {X} (o : op X) (w : world) : Prop :=
  match o with
  | CheckpointSeed f => vouched w (base w) f
  | CheckpointAdvance seq m e => tracked w m e /\ known w (m_inc m) seq
  | Create cfg => small w -> late w = false -> starts_after_known w cfg (base w) (inc w)
  | CallHandler m (Some e) => tracked w m e
  | AckMsg m => m_inc m <= inc w
  | _ => True
  end.

Lemma effect_later X (o : op X) w x w' : effect X o w x w' -> later w w'.
Proof.
  intros [_ ->]. destruct o; cbn [apply]; repeat case_match; split; cbn; try done; by apply prefix_app_r.
Qed.

Lemma last_snoc_default {A} (d : A) l x : default d (last (l ++ [x])) = x.
Proof. by rewrite last_snoc. Qed.

Lemma effect_Inv X (o : op X) w x w' : Inv w -> allowed o w -> effect X o w x w' -> Inv w'.
Proof.
  intros I A E. pose proof (effect_later _ _ _ _ _ E) as L. destruct E as [T ->].
  assert (small (apply o w x) -> Forall (build_ok (apply o w x)) (built w)) as B.
  { intros Sm. eapply Forall_impl; [apply (inv_built w I); by eapply small_later|]. intros b. by apply build_ok_later. }
  assert (forall m e, (m, e) ∈ handed w -> tracked (apply o w x) m e) as H.
  { intros m e Hm. eapply tracked_later; [done|]. by apply (inv_handed w I). }
  pose proof (inv_eras w I) as Ne. pose proof (inv_epoch w I) as Ep. pose proof (inv_base w I) as Ba. pose proof (inv_known w I) as Kn.
  pose proof (inv_checkpoint w I) as C.
  destruct o; cbn [apply allowed] in *; try done.
  - (* EpochAdd *) split; cbn; try done.
    + by destruct (eras w).
    + rewrite Ep, length_app. cbn. unfold uwrap64. rewrite Z.add_mod_idemp_l by lia. f_equal. lia.
    + unfold base. cbn. by rewrite last_snoc_default.
  - (* CheckpointSeed *) split; cbn; try done. intros Sm Cl P Lt.
    destruct (Z.max_spec (checkpoint w) floor) as [[_ ->]|[_ E]]; [done|]. rewrite E in P |- *. by apply C.
  - (* CheckpointAdvance *) split; cbn; try done. intros Sm Cl P Lt. apply orb_false_iff in Lt as [Lt Rs].
    destruct (Z.max_spec (checkpoint w) seq) as [[Lq ->]|[_ E]].
    + rewrite bool_decide_true in Rs by done. cbn in Rs. apply bool_decide_eq_false, dec_stable in Rs.
      exists (m_inc m). split; [|by apply A]. apply (tracked_current w m epoch); [done..|apply A|done].
    + rewrite E in P |- *. by apply C.
  - (* Info *) destruct x as [f|e]; [|done]. split; cbn; try done.
    + intros i c [K|K]; cbn in K; [by eapply Kn; left|]. apply elem_of_app in K as [K|K%list_elem_of_singleton]; [by eapply Kn; right|].
      by injection K as -> ->.
    + intros Sm Cl P Lt. by eapply vouched_later; [|apply C].
  - (* Create *) split; cbn; try done. intros Sm. apply Forall_app. split; [by apply B|]. apply Forall_singleton.
    intros Lt. by apply A.
  - (* MakeIterator *) destruct x; [done|]. by split.
  - (* CallHandler *) destruct tracked0 as [e|]; [|done]. split; cbn; try done.
    intros m' e' [?|Hm%list_elem_of_singleton]%elem_of_app; [by apply H|]. by injection Hm as -> ->.
  - (* AckMsg *) destruct x; [done|]. destruct (m_seq m) as [s|]; [|done]. split; cbn; try done.
    + intros i c [K|K]; cbn in K; [|by eapply Kn; right]. apply elem_of_app in K as [K|K%list_elem_of_singleton]; [by eapply Kn; left|].
      by injection K as -> ->.
    + intros Sm Cl P Lt. by eapply vouched_later; [|apply C].
Qed.

(** ** Acknowledging goroutines *)

Notation wp_ack := (wp effect Inv later).
Notation wp_loop := (wp effect Inv steady).

(** The three operations in which a tracked message is acknowledged and the
    checkpoint advanced, for either kind of goroutine. *)
Lemma wp_advance (rely : relation world) c m e (Φ : unit -> world -> Prop) w :
  (forall w w', rely w w' -> later w w') ->
  (forall w1 w2 seq, known w1 (m_inc m) seq -> m_seq m = Some seq ->
     apply (CheckpointAdvance seq m e) w1 () = w2 -> rely w1 w2) ->
  Transitive rely ->
  tracked w m e -> (forall seq, m_seq m = Some seq -> known w (m_inc m) seq) ->
  (forall w', rely w w' -> Inv w' -> Φ () w') ->
  wp effect Inv rely (AdvanceCheckpoint (Some c) m e) Φ w.
Proof.
  intros RL Adv Tr Tk Kn Post w1 cur w2 R1 I1 [Tc ->]. split; [done|].
  cbn [apply mbind prog_bind bind]. case_decide; [intros w3 R3 I3; apply Post; [by etrans|done]|].
  unfold Advance. destruct (m_seq m) as [seq|] eqn:Sq; [|intros w3 R3 I3; apply Post; [by etrans|done]].
  intros w3 [] w4 R3 I3 E. assert (later w w3) as L by by (etrans; apply RL).
  assert (known w3 (m_inc m) seq) as K by by (eapply known_later; [done|apply Kn]).
  assert (Inv w4) as I4.
  { eapply effect_Inv; [exact I3| |exact E]. split; [by eapply tracked_later|done]. }
  split; [done|]. intros w5 R5 I5. apply Post; [|done]. etrans; [exact R1|]. etrans; [exact R3|].
  etrans; [|exact R5]. destruct E as [_ ->]. by eapply Adv.
Qed.

Lemma tracking_Ack_wp c m e w : tracked w m e -> wp_ack (tracking_Ack c m e) (λ _ _, True) w.
Proof.
  intros Tk w1 err w2 L1 I1 E. pose proof (effect_later _ _ _ _ _ E) as L2.
  assert (tracked w2 m e) as Tk2 by by (eapply tracked_later, Tk; etrans).
  assert (Inv w2) as I2. { eapply effect_Inv; [exact I1| |exact E]. cbn. by eapply tracked_later in Tk as [? _]. }
  split; [done|]. destruct err as [err|]; [by intros w3 _ _|]. apply pwp_bind; [apply _|done|].
  eapply (wp_advance later); [done| |apply _|done| |].
  - intros w3 w4 seq _ _ <-. by eapply (effect_later _ (CheckpointAdvance seq m e) w3 ()).
  - intros seq Sq. destruct E as [_ ->]. cbn [apply]. rewrite Sq. left. cbn. set_solver.
  - by intros w' _ _ w3 _ _.
Qed.

(** The operations of an acknowledging goroutine do not disturb the loop. *)
Definition gentle {X} (o : op X) : bool :=
  match o with
  | EpochAdd | CheckpointReset | MakeIterator _ => false
  | _ => true
  end.

Lemma gentle_steady X (o : op X) w x w' : gentle o = true -> effect X o w x w' -> steady w w'.
Proof.
  intros G E. split; [by eapply effect_later|..]; destruct E as [_ ->]; destruct o; try done; cbn [apply];
    repeat case_match; try done. cbn. by intros ->.
Qed.

(** ** The loop *)

(** A part of the loop that starts and ends with a checkpoint of this epoch, run
    where [P] holds. *)
Definition keeps {A} (P : world -> Prop) (m : prog A) (Φ : A -> world -> Prop) : Prop :=
  forall w, Inv w -> clean w = true -> P w -> wp_loop m (λ a w', clean w' = true /\ Φ a w') w.

Definition lasting (P : world -> Prop) : Prop := forall w w', steady w w' -> P w -> P w'.

Lemma keeps_ret {A} P (a : A) (Φ : A -> world -> Prop) :
  lasting P -> (forall w, Inv w -> P w -> Φ a w) -> keeps P (Ret a) Φ.
Proof. intros LP H w I C Pw w1 S I1. split; [by rewrite (steady_clean _ _ S)|]. apply H; [done|by eapply LP]. Qed.

Lemma keeps_bind {A B} P Q (m : prog A) (f : A -> prog B) Φ :
  keeps P m Q -> (forall a, keeps (Q a) (f a) Φ) -> keeps P (m ≫= f) Φ.
Proof.
  intros Hm Hf w I C Pw. apply pwp_bind; [apply _|done|]. eapply pwp_mono; [by apply Hm|].
  intros a w1 I1 [C1 Pa]. by apply Hf.
Qed.

Lemma keeps_mono {A} (P P' : world -> Prop) (m : prog A) (Φ Ψ : A -> world -> Prop) :
  keeps P m Φ -> (forall w, Inv w -> P' w -> P w) -> (forall a w, Inv w -> Φ a w -> Ψ a w) -> keeps P' m Ψ.
Proof.
  intros Hm HP M w I C Pw. eapply pwp_mono; [apply Hm; auto|]. intros a w1 I1 [C1 H]. split; [done|by apply M].
Qed.

(** Operations that need nothing and leave the epoch and its checkpoint alone. *)
Definition plain {X} (o : op X) : bool :=
  match o with
  | CheckpointSeed _ | CheckpointAdvance _ _ _ | Create _ | CallHandler _ (Some _) | AckMsg _ => false
  | _ => gentle o
  end.

(** A gentle operation, where what it needs holds. *)
Lemma keeps_gentle {X} P (o : op X) :
  gentle o = true -> lasting P -> (forall w, Inv w -> P w -> allowed o w) -> keeps P (call o) (λ _, P).
Proof.
  intros G LP Al w I C Pw w1 x w2 S I1 E. assert (P w1) as P1 by by eapply LP.
  split; [eapply effect_Inv; [exact I1|by apply Al|exact E]|]. apply gentle_steady in E as S2; [|done].
  intros w3 S3 I3. assert (steady w w3) as S4 by by (etrans; [|exact S3]; etrans).
  split; [by rewrite (steady_clean _ _ S4)|by eapply LP].
Qed.

Lemma plain_gentle {X} (o : op X) : plain o = true -> gentle o = true /\ forall w, allowed o w.
Proof. destruct o; try done. by destruct tracked0. Qed.

Lemma keeps_plain {X} P (o : op X) : plain o = true -> lasting P -> keeps P (call o) (λ _, P).
Proof. intros [G Al]%plain_gentle LP. by apply keeps_gentle. Qed.

Lemma keeps_plain_bind {X A} P (o : op X) (f : X -> prog A) Φ :
  plain o = true -> lasting P -> (forall x, keeps P (f x) Φ) -> keeps P (call o ≫= f) Φ.
Proof. intros Pl LP Hf. eapply keeps_bind; [by apply keeps_plain|done]. Qed.

Lemma lasting_and P Q : lasting P -> lasting Q -> lasting (λ w, P w /\ Q w).
Proof. intros HP HQ w w' S [? ?]. split; [by eapply HP|by eapply HQ]. Qed.

Lemma lasting_pure (φ : Prop) : lasting (λ _, φ).
Proof. by intros w w' _. Qed.

(** The iterator, if there is one, was created in this epoch. *)
Definition iterating (w : world) : Prop := base w <= iter_inc w.

Lemma lasting_iterating : lasting iterating.
Proof. intros w w' S. unfold iterating. by rewrite (steady_base _ _ S), (steady_iter _ _ S). Qed.

(** A configuration a consumer may be asked for. *)
Definition askable (cfg : ConsumerConfig) (w : world) : Prop :=
  small w -> late w = false -> starts_after_known w cfg (base w) (inc w).

Lemma lasting_askable cfg : lasting (askable cfg).
Proof.
  intros w w' S H Sm Lt Ps. destruct H as (j & c & Hj & K & E).
  - eapply small_later; [apply S|done].
  - destruct (late w) eqn:Lw; [|done]. apply (steady_late _ _ S) in Lw. congruence.
  - done.
  - exists j, c. rewrite (steady_base _ _ S). pose proof (later_inc _ _ (steady_later _ _ S)).
    split_and!; try done; try lia. eapply known_later; [apply S|done].
Qed.

Lemma askable_zero cfg w : (OptStartSeq cfg <= 0)%Z -> askable cfg w.
Proof. intros H _ _ ?. lia. Qed.

#[export] Hint Resolve lasting_and lasting_pure lasting_iterating lasting_askable : parti.

(** What [BuildConfig] makes of the current checkpoint may be asked for. *)
Lemma BuildConfig_askable w bc st r : Inv w -> clean w = true -> askable (BuildConfig bc st (checkpoint w) r).1 w.
Proof.
  intros I C Sm Lt. unfold BuildConfig. destruct st; try by (intros ?%Z.lt_irrefl).
  case_decide as D; [|destruct r; by intros ?%Z.lt_irrefl].
  cbn. intros _. destruct (inv_checkpoint w I Sm C D Lt) as (i & Hi & K). exists i, (checkpoint w).
  split_and!; try done. by eapply inv_known.
Qed.

(** ** The controller *)

(** A reported ack floor belongs to the incarnation it was reported in. *)
Definition reported (info : res go_error Z) (w : world) : Prop :=
  match info with Ok f => vouched w (base w) f | Err _ => True end.

Lemma lasting_reported info : lasting (reported info).
Proof.
  intros w w' S. destruct info as [f|]; [|done]. cbn. rewrite (steady_base _ _ S). eapply vouched_later, S.
Qed.
#[export] Hint Resolve lasting_reported : parti.

Lemma Info_keeps P h : lasting P -> keeps P (call (Info h)) (λ info w, P w /\ reported info w).
Proof.
  intros LP w I C Pw w1 info w2 S1 I1 E. apply gentle_steady in E as S2; [|done].
  split; [by (eapply effect_Inv; [exact I1| |exact E])|]. intros w3 S3 I3.
  assert (steady w w3) as S by by (etrans; [|exact S3]; etrans).
  split_and!; [by rewrite (steady_clean _ _ S)|by eapply LP|]. eapply lasting_reported; [exact S3|].
  destruct info as [f|]; [|done]. destruct E as [_ ->]. exists (inc w1). split; [apply (inv_base w1 I1)|]. right. cbn. set_solver.
Qed.

Lemma consumerInfoFn_keeps P pc : lasting P -> keeps P (consumerInfoFn pc) (λ info w, P w /\ reported info w).
Proof.
  intros LP. unfold consumerInfoFn. destruct (consumer pc); [by apply Info_keeps|]. apply keeps_ret; [done|]. done.
Qed.

Lemma SeedCheckpoint_keeps P c pc : lasting P -> keeps P (SeedCheckpoint c (consumerInfoFn pc)) (λ _, P).
Proof.
  intros LP. unfold SeedCheckpoint. destruct c as [c|]; [|by apply keeps_ret]. case_decide; [by apply keeps_ret|].
  eapply keeps_bind; [by apply consumerInfoFn_keeps|]. intros [f|e]; [|apply keeps_ret; auto with parti; tauto].
  case_decide; [|apply keeps_ret; auto with parti; tauto].
  eapply keeps_mono; [apply keeps_gentle|..]; [done|by apply lasting_and; [exact LP|apply (lasting_reported (Ok f))]|..]; cbn; tauto.
Qed.

Lemma HandleStreamRecreated_keeps c pc : keeps (λ _, True) (HandleStreamRecreated c (consumerInfoFn pc)) (λ _ _, True).
Proof.
  unfold HandleStreamRecreated. destruct c as [c|]; [|apply keeps_ret; auto with parti].
  intros w I C _ w1 [] w2 S1 I1 E1. assert (Inv w2) as I2 by by (eapply effect_Inv; [exact I1| |exact E1]). split; [done|].
  intros w3 [] w4 S3 I3 E3. assert (Inv w4) as I4 by by (eapply effect_Inv; [exact I3| |exact E3]). split; [done|].
  assert (clean w4 = true) as C4 by by destruct E3 as [_ ->].
  eapply (keeps_bind (λ _, True)); [by apply SeedCheckpoint_keeps; auto with parti|intros []; by apply keeps_plain; auto with parti|done..].
Qed.

Lemma recreateFn_keeps P pc cfg : lasting P -> (forall w, P w -> askable cfg w) -> keeps P (recreateFn pc cfg) (λ _, P).
Proof.
  intros LP As. unfold recreateFn, limiter_wait. eapply (keeps_bind P (λ _, P)).
  { destruct (hasLimiter _); [by apply keeps_plain|by apply keeps_ret]. }
  intros [e|]; [by apply keeps_ret|]. apply keeps_gentle; [done..|]. intros w _. apply As.
Qed.

(** The checkpoint is read and a configuration built from it. *)
Definition from_checkpoint (bc : ConsumerConfig) (st : Strategy) (c : Z) (w : world) : Prop :=
  forall r, askable (BuildConfig bc st c r).1 w.

Lemma lasting_from_checkpoint bc st c : lasting (from_checkpoint bc st c).
Proof. intros w w' S H r. eapply lasting_askable; [done|apply H]. Qed.
#[export] Hint Resolve lasting_from_checkpoint : parti.

Lemma CheckpointValue_keeps P bc st :
  lasting P -> keeps P (call CheckpointValue) (λ c w, P w /\ from_checkpoint bc st c w).
Proof.
  intros LP w I C Pw w1 c w2 S1 I1 [T ->]. split; [done|]. intros w3 S3 I3.
  assert (steady w w3) as S by by etrans. split_and!; [by rewrite (steady_clean _ _ S)|by eapply LP|].
  eapply lasting_from_checkpoint; [exact S3|]. cbn in T. apply bool_decide_eq_true in T as ->. intros r.
  by apply (BuildConfig_askable w1); [|rewrite (steady_clean _ _ S1)].
Qed.

Lemma recover_locked_keeps P c bc pc :
  lasting P -> keeps P (recover_locked c bc (recreateFn pc)) (λ _, P).
Proof.
  intros LP. unfold recover_locked. apply keeps_plain_bind; [done..|]. intros [e|]; [by apply keeps_ret|].
  apply keeps_plain_bind; [done..|]. intros now. case_match; [by apply keeps_ret|].
  eapply keeps_bind; [by apply (CheckpointValue_keeps P bc (strategy c))|]. intros cp. cbn beta.
  assert (lasting (λ w, P w /\ from_checkpoint bc (strategy c) cp w)) as L by auto with parti.
  apply keeps_plain_bind; [done..|]. intros [e|]; [apply keeps_ret; tauto|].
  eapply keeps_bind; [apply recreateFn_keeps; [exact L|by intros w [_ Fc]; apply Fc]|]. intros [h|e]; cbn beta.
  - apply keeps_plain_bind; [done..|]. intros t. apply keeps_ret; tauto.
  - apply keeps_ret; tauto.
Qed.

Lemma recover_keeps P c bc pc : lasting P -> keeps P (recover c bc (recreateFn pc)) (λ _, P).
Proof.
  intros LP. unfold recover. destruct (inProgress c); [by apply keeps_ret|].
  eapply keeps_bind; [by apply recover_locked_keeps|]. intros r. by apply keeps_ret.
Qed.

Lemma Classify_keeps P c err pc : lasting P ->
  keeps P (Classify c err (consumerInfoFn pc) (consumerConfig pc) (recreateFn pc)) (λ _, P).
Proof.
  intros LP. unfold Classify. assert (keeps P (r ← recover c (consumerConfig pc) (recreateFn pc); Ret (recover_action r)) (λ _, P)).
  { eapply keeps_bind; [by apply recover_keeps|]. intros r. by apply keeps_ret. }
  destruct (ClassifyError err); [by apply keeps_ret|done| |by apply keeps_ret].
  apply keeps_plain_bind; [done..|]. intros now. destruct (Record_ now (burst c)) as [b reached]. cbn zeta.
  destruct reached; cbn [negb]; [|by apply keeps_ret].
  eapply (keeps_bind _ (λ _, P)).
  { unfold probeConsumerGone. eapply keeps_bind; [by apply consumerInfoFn_keeps|]. intros info. cbn beta.
    apply keeps_ret; [auto with parti|tauto]. }
  intros probe. destruct (negb probe.1); [by apply keeps_ret|].
  eapply keeps_bind; [by apply recover_keeps|]. intros r. by apply keeps_ret.
Qed.

Lemma Rebuild_keeps P c bc pc : lasting P -> keeps P (RebuildAfterStreamRecreated c bc (recreateFn pc)) (λ _, P).
Proof.
  intros LP. unfold RebuildAfterStreamRecreated. destruct c as [c|]; [|by apply keeps_ret].
  eapply keeps_bind; [by apply (CheckpointValue_keeps P bc (strategy c))|]. intros cp. cbn beta.
  assert (lasting (λ w, P w /\ from_checkpoint bc (strategy c) cp w)) as L by auto with parti.
  apply keeps_plain_bind; [done..|]. intros r.
  eapply keeps_bind; [apply recreateFn_keeps; [exact L|by intros w [_ Fc]; apply Fc]|]. intros [h|e]; cbn beta;
    (apply keeps_plain_bind; [done..|]; intros t; apply keeps_ret; tauto).
Qed.

(** ** The partition consumer *)

(** The consumer the loop was configured with names no start sequence. *)
Definition fits (pc : partitionConsumer) : Prop := (OptStartSeq (consumerConfig pc) <= 0)%Z.

Notation fitting := (λ r (_ : world), fits r.1).

Lemma MakeIterator_keeps h : keeps (λ _, True) (call (MakeIterator h)) (λ err w, err = None -> iterating w).
Proof.
  intros w I C _ w1 err w2 S1 I1 E. assert (Inv w2) as I2 by by (eapply effect_Inv; [exact I1| |exact E]). split; [done|].
  intros w3 S3 I3. assert (clean w2 = clean w1) as C2 by (destruct E as [_ ->]; by destruct err).
  split; [by rewrite (steady_clean _ _ S3), C2, (steady_clean _ _ S1)|]. intros ->.
  eapply lasting_iterating; [exact S3|]. destruct E as [_ ->]. apply (inv_base w1 I1).
Qed.

Section loop.
Context (float_to_int : float64 -> Z).

Lemma jitterBackoff_keeps P prev b mult cap : lasting P -> keeps P (jitterBackoff float_to_int prev b mult cap) (λ _, P).
Proof.
  intros LP. unfold jitterBackoff. generalize (if decide (b <= 0)%Z then 50000000%Z else b). intros b'.
  destruct (decide (0 < cap < b')%Z); [by apply keeps_ret|]. destruct (decide (prev <= 0)%Z); [by apply keeps_ret|].
  apply keeps_plain_bind; [done..|]. intros j. by apply keeps_ret.
Qed.

Lemma delay_keeps pc : fits pc -> keeps (λ _, True) (delayWithBackoffOrExit float_to_int pc) fitting.
Proof.
  intros F. unfold delayWithBackoffOrExit. eapply keeps_bind; [apply jitterBackoff_keeps; auto with parti|].
  intros d. apply keeps_plain_bind; [done|auto with parti|]. intros e. apply keeps_ret; auto with parti.
Qed.

Lemma ensureConsumer_keeps n pc i e : fits pc -> keeps (λ _, True) (ensureConsumer_loop float_to_int n pc i e) (λ _ _, True).
Proof.
  intros F. revert i e. induction n as [|n IH]; intros i e; cbn [ensureConsumer_loop]; [apply keeps_ret; auto with parti|].
  apply keeps_plain_bind; [done|auto with parti|]. intros [e1|]; [apply keeps_ret; auto with parti|].
  eapply keeps_bind.
  { unfold limiter_wait. instantiate (1 := λ _ _, True). destruct (hasLimiter _); [apply keeps_plain|apply keeps_ret]; auto with parti. }
  intros [e1|]; [apply keeps_ret; auto with parti|].
  eapply keeps_bind; [apply (keeps_gentle (λ _, True)); auto with parti; by intros w _ _; apply askable_zero|].
  intros [h|e1]; [apply keeps_ret; auto with parti|]. case_match; [apply keeps_ret; auto with parti|]. case_decide; [|apply IH].
  eapply keeps_bind; [apply jitterBackoff_keeps; auto with parti|]. intros d.
  apply keeps_plain_bind; [done|auto with parti|]. intros [e2|]; [apply keeps_ret; auto with parti|apply IH].
Qed.

Lemma escalate_keeps pc : fits pc -> keeps (λ _, True) (maybeEscalateIteratorFailures float_to_int pc) fitting.
Proof.
  intros F. unfold maybeEscalateIteratorFailures. apply keeps_plain_bind; [done|auto with parti|]. intros now. cbn zeta.
  destruct (negb _); [apply keeps_ret; auto with parti|].
  eapply (keeps_bind _ (λ _ _, True)).
  { cbn [consumer set_escalation]. destruct (consumer pc); [|apply keeps_ret; auto with parti]. apply keeps_plain_bind; [done|auto with parti|]. intros r.
    apply keeps_ret; auto with parti. }
  intros [|]; [apply keeps_ret; auto with parti|].
  eapply keeps_bind; [by apply ensureConsumer_keeps|]. intros [h|e]; apply keeps_ret; auto with parti.
Qed.

Lemma handleStreamMissing_keeps pc : keeps (λ _, True) (handleStreamMissing pc) (λ _ _, True).
Proof.
  unfold handleStreamMissing. case_match; [|apply keeps_ret; auto with parti].
  apply keeps_plain_bind; [done|auto with parti|]. intros [e|]; [apply keeps_ret; auto with parti|].
  eapply keeps_bind; [apply HandleStreamRecreated_keeps|]. intros []. eapply (keeps_bind _ (λ _ _, True)).
  { case_match; [apply keeps_plain|apply keeps_ret]; auto with parti. }
  intros []. apply keeps_ret; auto with parti.
Qed.

Lemma rebuild_keeps pc : fits pc -> keeps (λ _, True) (rebuildAfterStreamMissing pc) fitting.
Proof.
  intros F. unfold rebuildAfterStreamMissing. eapply keeps_bind; [apply handleStreamMissing_keeps|].
  intros [e|]; [apply keeps_ret; auto with parti|].
  eapply keeps_bind; [apply (Rebuild_keeps (λ _, True)); auto with parti|].
  intros [c [h|e]]; apply keeps_ret; auto with parti.
Qed.

Lemma permanent_failure_keeps pc e : keeps (λ _, True) (permanent_failure pc e) (λ _ _, True).
Proof. unfold permanent_failure. case_match; [apply keeps_plain|apply keeps_ret]; auto with parti. Qed.

Lemma missing_failure_keeps pc e : fits pc -> keeps (λ _, True) (handleStreamMissingFailure float_to_int pc e) fitting.
Proof.
  intros F. unfold handleStreamMissingFailure. case_decide; [|by apply delay_keeps].
  eapply keeps_bind; [apply permanent_failure_keeps|]. intros []. apply keeps_ret; auto with parti.
Qed.

(** After a successful attempt the iterator belongs to this epoch. *)
Definition attempted (r : partitionConsumer * option go_error) (w : world) : Prop :=
  fits r.1 /\ (r.2 = None -> iterating w).

Lemma lasting_attempted r : lasting (attempted r).
Proof. intros w w' S [F H]. split; [done|]. intros E. eapply lasting_iterating; [done|auto]. Qed.
#[local] Hint Resolve lasting_attempted : parti.

Lemma MakeIterator_attempted pc h :
  fits pc -> keeps (λ _, True) (err ← call (MakeIterator h); Ret (pc, err)) attempted.
Proof.
  intros F. eapply keeps_bind; [apply MakeIterator_keeps|]. intros err. cbn beta. apply keeps_ret; [|by split].
  intros w w' S H E. eapply lasting_iterating; [done|auto].
Qed.

Lemma iterator_work_keeps pc : fits pc -> keeps (λ _, True) (iterator_work float_to_int pc) attempted.
Proof.
  intros F. unfold iterator_work. eapply keeps_bind; [apply MakeIterator_keeps|]. intros [e|]; cbn beta.
  2: { apply keeps_ret; [|by split; auto]. intros w w' S H E. eapply lasting_iterating; [done|auto]. }
  eapply (keeps_mono (λ _, True)); [|done|done].
  eapply keeps_bind; [by apply escalate_keeps|]. intros [pc' escErr]. cbn [fst].
  assert (keeps (λ _, fits pc') (Ret (pc', Some e)) attempted) by (apply keeps_ret; [auto with parti|by split]).
  destruct escErr as [e'|]; [|done]. case_match; [|done].
  intros w I C F'. revert w I C F'. change (keeps (λ _, fits pc') (runStreamMissingDetour pc') attempted).
  unfold runStreamMissingDetour. eapply (keeps_bind _ fitting).
  { intros w I C F'. by apply rebuild_keeps. }
  intros [pc2 [h|e2]]; cbn [fst]; [|apply keeps_ret; [auto with parti|by split]].
  intros w I C F2. by apply MakeIterator_attempted.
Qed.

Definition enveloped (r : partitionConsumer * Retry.result (E := go_error)) (w : world) : Prop :=
  fits r.1 /\ (r.2 = Success -> iterating w).

Lemma lasting_enveloped r : lasting (enveloped r).
Proof. intros w w' S [F H]. split; [done|]. intros E. eapply lasting_iterating; [done|auto]. Qed.
#[local] Hint Resolve lasting_enveloped : parti.

Lemma envelope_keeps n cfg pc a e : fits pc -> keeps (λ _, True) (envelope_loop float_to_int n cfg pc a e) enveloped.
Proof.
  revert pc a e. induction n as [|n IH]; intros pc a e F; cbn [envelope_loop].
  { eapply keeps_bind; [apply permanent_failure_keeps|]. intros []. apply keeps_ret; [auto with parti|by split]. }
  apply keeps_plain_bind; [done|auto with parti|]. intros [e1|]; [apply keeps_ret; [auto with parti|by split]|].
  eapply keeps_bind; [by apply iterator_work_keeps|]. intros [pc' [e1|]].
  2: { apply keeps_ret; [auto with parti|]. intros w I [F' H]. split; [done|]. intros _. by apply H. }
  eapply (keeps_mono (λ _, fits pc')); [|by intros w _ [? _]|done]. case_decide.
  { intros w I C F'. eapply keeps_bind; [apply permanent_failure_keeps| |done..]. intros [].
    apply keeps_ret; [auto with parti|by split]. }
  apply keeps_plain_bind; [done|auto with parti|]. intros bits. apply keeps_plain_bind; [done|auto with parti|].
  intros [e2|]; [apply keeps_ret; [auto with parti|by split]|]. intros w I C F'. by apply IH.
Qed.

Lemma handleIteratorFailure_keeps pc e : fits pc -> keeps (λ _, True) (handleIteratorFailure float_to_int pc e) fitting.
Proof.
  intros F. unfold handleIteratorFailure. destruct (recovery pc) as [c|].
  2: { eapply keeps_bind; [by apply escalate_keeps|]. intros [pc' escErr] w I C F'. cbn in F'.
       destruct escErr as [e'|]; [case_match|]; [by apply missing_failure_keeps|by apply delay_keeps..]. }
  eapply keeps_bind; [apply (Classify_keeps (λ _, True)); auto with parti|]. intros [[[c' action] newCons] err]. cbn zeta.
  destruct action; [|by apply delay_keeps|apply keeps_ret; auto with parti|].
  - destruct newCons as [h|]; [|apply keeps_ret; auto with parti].
    eapply keeps_bind; [apply SeedCheckpoint_keeps; auto with parti|]. intros []. apply keeps_ret; auto with parti.
  - eapply keeps_bind; [by apply rebuild_keeps|]. intros [pc' [h|e']]; [apply keeps_ret; auto with parti|].
    intros w I C F'. by apply missing_failure_keeps.
Qed.

(** *** Dispatch *)

(** The loop may dispatch this message in this epoch. *)
Definition current (m : message) (w : world) : Prop := base w <= m_inc m <= inc w /\ iterating w.

Lemma lasting_current m : lasting (current m).
Proof.
  intros w w' S [B It]. split; [|by eapply lasting_iterating]. rewrite (steady_base _ _ S).
  pose proof (later_inc _ _ (steady_later _ _ S)). lia.
Qed.

Lemma lasting_tracked m e : lasting (λ w, tracked w m e).
Proof. intros w w' S. eapply tracked_later, S. Qed.
#[local] Hint Resolve lasting_current lasting_tracked : parti.

Lemma EpochLoad_keeps m : keeps (current m) (call EpochLoad) (λ e w, current m w /\ tracked w m e).
Proof.
  intros w I C Cu w1 e w2 S1 I1 [T ->]. split; [done|]. intros w3 S3 I3. cbn in S3.
  assert (steady w w3) as S by by etrans. assert (current m w1) as Cu1 by by eapply lasting_current.
  split_and!; [by rewrite (steady_clean _ _ S)|by eapply lasting_current|]. eapply tracked_later; [apply S3|].
  split; [apply Cu1|]. cbn in T. apply bool_decide_eq_true in T as ->. rewrite (inv_epoch w1 I1).
  exists (pred (length (eras w1))), (base w1). pose proof (inv_eras w1 I1) as Ne. split_and!; [|f_equal; destruct (eras w1); [done|cbn; lia]|apply Cu1].
  unfold base. rewrite <- last_lookup. destruct (last (eras w1)) eqn:E; [done|]. by apply last_None in E.
Qed.

Lemma Advance_keeps c m e :
  keeps (λ w, current m w /\ tracked w m e) (err ← call (AckMsg m);
    match err with None => AdvanceCheckpoint (Some c) m e | Some _ => Ret () end) (λ _, iterating).
Proof.
  intros w I C [Cu Tk] w1 err w2 S1 I1 E. assert (steady w1 w2) as S2 by by eapply gentle_steady, E.
  assert (steady w w2) as S by by etrans. assert (current m w2) as Cu2 by by eapply lasting_current.
  assert (Inv w2) as I2. { eapply effect_Inv; [exact I1| |exact E]. by eapply lasting_current in Cu as [[_ ?] _]. }
  split; [done|]. assert (clean w2 = true) as C2 by by rewrite (steady_clean _ _ S).
  assert (forall w3, steady w2 w3 -> Inv w3 -> clean w3 = true /\ iterating w3) as Post.
  { intros w3 S3 _. split; [by rewrite (steady_clean _ _ S3)|]. eapply lasting_iterating; [done|]. apply Cu2. }
  destruct err as [err|]; [exact Post|]. apply (wp_advance steady).
  - by intros ? ? [].
  - intros w3 w4 seq _ _ <-. by eapply (gentle_steady _ (CheckpointAdvance seq m e) w3 ()).
  - apply _.
  - by eapply lasting_tracked.
  - intros seq Sq. destruct E as [_ ->]. cbn [apply]. rewrite Sq. left. cbn. set_solver.
  - done.
Qed.

Lemma Dispatch_keeps c m manual : keeps (current m) (Dispatch c m manual) (λ _, iterating).
Proof.
  unfold Dispatch. destruct manual.
  - unfold WrapForTracking. eapply (keeps_bind _ (λ t w, current m w /\ forall e, t = Some e -> tracked w m e)).
    { destruct c as [c|]; [|apply keeps_ret; auto with parti; by split]. case_decide; [apply keeps_ret; auto with parti; by split|].
      eapply keeps_bind; [apply EpochLoad_keeps|]. intros e. cbn beta. apply keeps_ret; [auto with parti|].
      intros w _ [Cu Tk]. split; [done|]. by intros ? [= <-]. }
    intros t. cbn beta. eapply keeps_bind.
    { apply (keeps_gentle (λ w, current m w /\ forall e, t = Some e -> tracked w m e)); [done| |].
      - intros w w' S [Cu Tk]. split; [by eapply lasting_current|]. intros e E. eapply lasting_tracked; [done|auto].
      - intros w _ [_ Tk]. destruct t; cbn; auto. }
    intros []. apply (keeps_mono (current m) _ _ (λ _, iterating)); [|by intros w _ [? _]|done].
    apply keeps_plain_bind; [done|auto with parti|]. intros r. apply keeps_ret; [auto with parti|]. by intros w _ [_ ?].
  - eapply (keeps_bind _ (λ e w, current m w /\ (is_Some c -> tracked w m e))).
    { destruct c; [|apply keeps_ret; [auto with parti|]; intros w _ Cu; split; [done|by intros []]].
      eapply keeps_mono; [apply EpochLoad_keeps|done|]. naive_solver. }
    intros e. cbn beta. assert (lasting (λ w, current m w /\ (is_Some c -> tracked w m e))) as L.
    { intros w w' S [Cu Tk]. split; [by eapply lasting_current|]. intros Sc. eapply lasting_tracked; [done|auto]. }
    apply keeps_plain_bind; [done..|]. intros []. apply keeps_plain_bind; [done..|]. intros [err|].
    { eapply keeps_mono; [by apply keeps_plain|done|]. by intros [] w _ [[_ ?] _]. }
    destruct c as [c|].
    + eapply keeps_mono; [apply Advance_keeps| |done]. intros w _ [? ?]. split; [done|]. naive_solver.
    + apply (keeps_mono (current m) _ _ (λ _, iterating)); [|by intros w _ [? _]|done].
      eapply keeps_bind; [apply (keeps_gentle (current m)); auto with parti; by intros w _ [[_ ?] _]|].
      intros [e'|]; (apply keeps_ret; [auto with parti|]; by intros w _ [_ ?]).
Qed.

(** *** Rounds *)

(** What holds between two rounds. *)
Definition ready (p : phase) (w : world) : Prop := match p with Pulling => iterating w | _ => True end.

Definition arrived (r : partitionConsumer * next) (w : world) : Prop :=
  fits r.1 /\ match r.2 with Goto p => ready p w | _ => True end.

Lemma lasting_arrived r : lasting (arrived r).
Proof. intros w w' S [F H]. split; [done|]. destruct r as [pc [[]| |]]; try done. by eapply lasting_iterating. Qed.
#[local] Hint Resolve lasting_arrived : parti.

Lemma Next_keeps : keeps iterating (call Next) (λ r w, match r with Ok m => current m w | Err _ => True end).
Proof.
  intros w I C It w1 r w2 S1 I1 [T ->]. split; [done|]. intros w3 S3 I3. cbn in S3. assert (steady w w3) as S by by etrans.
  split; [by rewrite (steady_clean _ _ S)|]. destruct r as [m|]; [|done]. eapply lasting_current; [exact S3|].
  eapply lasting_iterating in It; [|exact S1]. cbn in T. apply bool_decide_eq_true in T. split; [|done]. unfold iterating in It. lia.
Qed.

Lemma pull_round_keeps pc : fits pc -> keeps iterating (pull_round float_to_int pc) arrived.
Proof.
  intros F. unfold pull_round. apply keeps_plain_bind; [done|auto with parti|]. intros [e|].
  { apply keeps_plain_bind; [done|auto with parti|]. intros []. apply keeps_ret; [auto with parti|by split]. }
  eapply keeps_bind; [apply Next_keeps|]. intros [m|e]; cbn beta iota.
  - eapply (keeps_bind _ (λ _, iterating)).
    { case_match; [apply Dispatch_keeps|]. eapply keeps_mono; [apply (keeps_plain (current m)); auto with parti|done|].
      by intros [] w _ [_ ?]. }
    intros []. apply keeps_ret; [auto with parti|by split].
  - apply keeps_plain_bind; [done|auto with parti|]. intros []. case_match; [apply keeps_ret; [auto with parti|by split]|].
    eapply keeps_bind; [by apply handleIteratorFailure_keeps|]. intros [pc' exit]. apply keeps_ret; [auto with parti|].
    intros w _ F'. split; [done|]. by destruct exit.
Qed.

Lemma runIteratorEnvelope_keeps pc : fits pc ->
  keeps (λ _, True) (runIteratorEnvelope float_to_int pc) (λ r w, fits r.1 /\ (r.2 = Some Success -> iterating w)).
Proof.
  intros F. unfold runIteratorEnvelope. destruct (Retry.New _); [|apply keeps_ret; [auto with parti|by split]].
  eapply keeps_bind; [by apply envelope_keeps|]. intros [pc' r]. apply keeps_ret; [auto with parti|].
  intros w _ [F' H]. split; [done|]. intros [= ->]. by apply H.
Qed.

Lemma create_round_keeps pc : fits pc -> keeps (λ _, True) (create_round float_to_int pc) arrived.
Proof.
  intros F. unfold create_round. apply keeps_plain_bind; [done|auto with parti|].
  intros [e|]; [apply keeps_ret; [auto with parti|by split]|].
  apply keeps_plain_bind; [done|auto with parti|]. intros [|].
  { apply keeps_plain_bind; [done|auto with parti|]. intros s. apply keeps_ret; [auto with parti|]. split; [done|]. by destruct s. }
  eapply keeps_bind; [by apply runIteratorEnvelope_keeps|]. intros [pc' r]. cbn beta iota. apply keeps_ret.
  - intros w w' S [F' H]. split; [done|]. intros E. eapply lasting_iterating; [done|by apply H].
  - intros w _ [F' H]. split; [done|]. destruct r as [[]|]; cbn; try done. by apply H.
Qed.

Lemma round_keeps p pc : fits pc -> keeps (ready p) (round float_to_int p pc) arrived.
Proof.
  intros F. destruct p; [|by apply create_round_keeps|by apply pull_round_keeps]. cbn [round].
  eapply keeps_bind; [apply (SeedCheckpoint_keeps (λ _, True)); auto with parti|]. intros []. apply keeps_ret; [auto with parti|by split].
Qed.

(** ** All interleavings *)

Definition loop_ok (l : loop) (w : world) : Prop :=
  match l with
  | At p pc => clean w = true /\ fits pc /\ ready p w
  | Running m => wp_loop m (λ r w', clean w' = true /\ arrived r w') w
  | Exited | Panicked => True
  end.

Definition consistent (s : world * loop * list (prog (option go_error))) : Prop :=
  Inv s.1.1 /\ loop_ok s.1.2 s.1.1 /\ Forall (λ m, wp_ack m (λ _ _, True) s.1.1) s.2.

Lemma loop_ok_steady l w w' : steady w w' -> loop_ok l w -> loop_ok l w'.
Proof.
  intros S. destruct l as [p pc|m| |]; cbn; try done.
  - intros (C & F & R). rewrite (steady_clean _ _ S). split_and!; try done. destruct p; try done. by eapply lasting_iterating.
  - intros W. eapply pwp_rely; [apply _|exact W|done].
Qed.

Lemma acks_later (ts : list (prog (option go_error))) w w' :
  later w w' -> Forall (λ m, wp_ack m (λ _ _, True) w) ts -> Forall (λ m, wp_ack m (λ _ _, True) w') ts.
Proof. intros L F. eapply Forall_impl; [exact F|]. intros m W. eapply pwp_rely; [apply _|exact W|done]. Qed.

(** The operations an acknowledging goroutine can be at. *)
Fixpoint gently {A} (m : prog A) : Prop :=
  match m with
  | Ret _ => True
  | Vis o k => gentle o = true /\ forall x, gently (k x)
  end.

Lemma tracking_Ack_gently c m e : gently (tracking_Ack c m e).
Proof.
  split; [done|]. intros [err|]; [done|]. split; [done|]. intros cur. cbn. case_decide; [done|].
  unfold Advance. by destruct (m_seq m).
Qed.

Lemma Inv_replace w : Inv w -> Inv (set_incs (S (inc w)) (iter_inc w) w) /\ steady w (set_incs (S (inc w)) (iter_inc w) w).
Proof.
  intros I. assert (steady w (set_incs (S (inc w)) (iter_inc w) w)) as St.
  { split; cbn; try done. split; cbn; auto. }
  split; [|done]. pose proof (steady_later _ _ St) as L. destruct I as [Ne Ep Ba Kn Ha Ck Bu]. split; cbn; try done.
  - etrans; [exact Ba|]. lia.
  - intros i c K. apply Kn in K. lia.
  - intros m e Hm. eapply tracked_later; [exact L|by apply Ha].
Qed.

Lemma consumer_step_consistent s s' :
  step float_to_int s s' -> consistent s /\ Forall gently s.2 -> consistent s' /\ Forall gently s'.2.
Proof.
  unfold consistent. intros St [(I & Lo & Ak) Ge]. destruct St as [w p pc ts|w X o k x w' ts E|w r ts|w l c m e ts H|w l X o k x w' ts1 ts2 E|w l ts]; cbn [fst snd loop_ok] in *.
  - destruct Lo as (C & F & R). split_and!; try done. by apply round_keeps.
  - destruct (Lo w x w' (reflexivity w) I E) as [I' W]. split_and!; try done. eapply acks_later; [by eapply effect_later|done].
  - split_and!; try done. destruct (Lo w (reflexivity w) I) as (C & F & A). unfold after. by destruct r as [pc [p| |]].
  - split; [|by apply Forall_app; split; [|apply Forall_singleton, tracking_Ack_gently]].
    split_and!; try done. apply Forall_app. split; [done|]. apply Forall_singleton, tracking_Ack_wp. by apply (inv_handed w I).
  - rewrite !Forall_app, !Forall_cons in *. destruct Ak as (A1 & A & A2), Ge as (G1 & [G Gk] & G2).
    destruct (A w x w' (reflexivity w) I E) as [I' W]. pose proof (effect_later _ _ _ _ _ E) as L.
    split_and!; try done; try by eapply acks_later.
    eapply loop_ok_steady; [by eapply gentle_steady|done].
  - destruct (Inv_replace w I) as [I' S]. split_and!; try done; [by eapply loop_ok_steady|].
    eapply acks_later; [apply S|done].
Qed.
End loop.

Lemma Inv_world0 i t : Inv (world0 i t).
Proof.
  split; cbn; try done; try (by intros ? ? []%elem_of_nil); try (intros; lia).
  - intros j c [[]%elem_of_nil|[]%elem_of_nil].
Qed.

Lemma consumer_reachable_Inv float_to_int pc i t s : fits pc -> reachable float_to_int pc i t s -> Inv s.1.1.
Proof.
  intros F R. enough (consistent s /\ Forall gently s.2) as [[I _] _] by done. revert R.
  apply (rtc_ind_r (λ s, consistent s /\ Forall gently s.2)).
  - split; [|constructor]. split_and!; [apply Inv_world0|done|constructor].
  - intros s1 s2 _ St. by apply (consumer_step_consistent float_to_int).
Qed.

(** C19. A recreated consumer resumes after something that was processed in its
    own stream. In every interleaving of a partition's consumption loop with
    late acknowledgements and with replacements of the stream by anyone: when a
    consumer is asked for with a start sequence, that is one above a sequence
    acknowledged by this worker, or reported as the durable's ack floor, in an
    incarnation of the stream no older than the last recreation the loop
    handled; unless an acknowledgement fenced out by the epoch had raised the
    checkpoint, which [late_ack_passes_fence] shows can happen. So if the stream
    was not replaced behind the loop's back, the sequence belongs to the very
    stream the consumer is created on. *)
Theorem resumes_after_processed float_to_int cfg cc h i t w l ts b :
  (OptStartSeq cc <= 0)%Z ->
  reachable float_to_int (newPartitionConsumer cfg cc h) i t (w, l, ts) -> small w ->
  b ∈ built w -> b_late b = false -> (0 < OptStartSeq (b_cfg b))%Z ->
  exists j c, b_base b <= j <= b_inc b /\ known w j c /\ OptStartSeq (b_cfg b) = uwrap64 (c + 1) /\
    (b_inc b = b_base b -> j = b_inc b).
Proof.
  intros F R Sm Hb Lt Ps. apply consumer_reachable_Inv in R as I; [|done].
  pose proof (inv_built _ I Sm) as B. rewrite Forall_forall in B. destruct (B b Hb Lt Ps) as (j & c & Hj & K & E).
  exists j, c. split_and!; try done; try lia.
Qed.

(** ** Executions *)

Definition plain_retry : RetryConfig := mkRetry 200000000 (f64_const 16 10) 5000000000.
Definition toy_config (manual hook : bool) : partitionConsumerConfig :=
  mkPCConfig 5000000000 manual FromLastProcessed plain_retry 60000000000 3 (mkRetryConfig 500000000 30000000000 8 (f64_of_Z 0))
    true hook false false true.
Definition toy_base : ConsumerConfig := mkCC "worker_p1" DeliverAllPolicy 0 None.
Definition toy (manual hook : bool) : partitionConsumer := newPartitionConsumer (toy_config manual hook) toy_base (Some 0).

Definition ok : action := Do (AErr None).
Definition unit_ : action := Do AUnit.
Definition gone : go_error := mkError [JsErrConsumerDeleted] "consumer deleted".
Definition no_stream : go_error := mkError [JsErrStreamNotFound] "stream not found".
Definition timeout : go_error := mkError [NatsErrTimeout] "timeout".

(** Seeding with this ack floor, creating an iterator, and pulling from it. *)
Definition start_pulling (floor : Z) : list action :=
  [Turn; Do (ANum (Ok floor))] ++ (if decide (0 < floor)%Z then [unit_] else []) ++ [Turn].
Definition create_iterator : list action := [Turn; ok; Do (ABool false); ok; ok; Turn].

(** A pull that finds the consumer deleted, up to the answer to its creation. *)
Definition consumer_lost (t checkpoint : Z) : list action :=
  [Turn; ok; Do (AMsg (Err gone)); unit_; ok; Do (AZ t); Do (AZ checkpoint); ok].

Definition run (manual hook : bool) (acts : list action) : option world :=
  s ← execute (λ _, 0%Z) acts (world0 0 0, At Starting (toy manual hook), []); Some s.1.1.

Lemma run_of_consumer_reachable manual hook acts w :
  run manual hook acts = Some w -> exists l ts, reachable (λ _, 0%Z) (toy manual hook) 0 0 (w, l, ts).
Proof.
  unfold run. destruct (execute _ _ _) as [[[w' l] ts]|] eqn:E; [|done]. intros [= <-]. exists l, ts.
  eapply executed_reachable; [|exact E]. apply rtc_refl.
Qed.

Lemma run_shows manual hook acts (P : world -> Prop) :
  match run manual hook acts with Some w => P w | None => False end ->
  exists w l ts, reachable (λ _, 0%Z) (toy manual hook) 0 0 (w, l, ts) /\ P w.
Proof.
  destruct (run manual hook acts) as [w|] eqn:E; [|done]. intros HP.
  destruct (run_of_consumer_reachable _ _ _ _ E) as (l & ts & R). by exists w, l, ts.
Qed.

(** What was asked for: policy, start sequence, incarnation at the epoch's
    beginning and now, lateness. *)
Definition summary (b : build) : DeliverPolicy * Z * nat * nat * bool :=
  (Deliver (b_cfg b), OptStartSeq (b_cfg b), b_base b, b_inc b, b_late b).

Definition resumes : list action :=
  start_pulling 41 ++ create_iterator ++ consumer_lost 1 41 ++ [Do (AHandle (Ok 1))].

Lemma resumes_after_processed_witness :
  exists w b, run false true resumes = Some w /\ b ∈ built w /\ OptStartSeq (b_cfg b) = 42%Z /\
    exists j c, b_base b <= j <= b_inc b /\ known w j c /\ 42%Z = uwrap64 (c + 1) /\ (b_inc b = b_base b -> j = b_inc b).
Proof.
  destruct (run false true resumes) as [w|] eqn:E; [|by vm_compute in E].
  pose proof (run_of_consumer_reachable _ _ _ _ E) as (l & ts & R). vm_compute in E. injection E as <-.
  eexists _, _. split; [reflexivity|]. split; [left|]. split; [reflexivity|].
  refine (resumes_after_processed (λ _, 0%Z) (toy_config false true) toy_base (Some 0) 0 0 _ l ts _ _ R _ _ _ _).
  - vm_compute. discriminate.
  - vm_compute. discriminate.
  - left.
  - reflexivity.
  - reflexivity.
Defined.

(** The stream is found missing, the hook recreates it, and the controller starts
    a new epoch; [between] happens between the reset and the seeding. *)
Definition stream_lost (t checkpoint : Z) (between : list action) : list action :=
  consumer_lost t checkpoint ++ [Do (AHandle (Err no_stream)); Replace; ok; unit_; unit_] ++ between ++
  [Do (ANum (Ok 0%Z)); unit_].

(** The epoch is compared and the checkpoint raised in two steps: an
    acknowledgement that passed the comparison before the stream was recreated
    raises the checkpoint after its reset, and the consumer of the fresh stream
    is created behind the sequence of the old one. *)
Definition late_ack : list action :=
  start_pulling 0 ++ create_iterator ++
  [Turn; ok; Do (AMsg (Ok (mkMessage 0 (Some 100%Z)))); Do (AZ 0); unit_; ok; Turn] ++
  [LateAck 0 (mkController FromLastProcessed (NewBurstDetector 0 3) false None 0); Acking 0 (AErr None); Acking 0 (AZ 0)] ++
  stream_lost 1 0 [Acking 0 AUnit] ++ [Do (AZ 100); Do (ABool true); Do (AHandle (Ok 1))].

Lemma late_ack_passes_fence :
  exists w l ts, reachable (λ _, 0%Z) (toy true true) 0 0 (w, l, ts) /\
    last (summary <$> built w) = Some (DeliverByStartSequencePolicy, 101%Z, 1, 1, true) /\ acked w = [(0, 100%Z)].
Proof. apply (run_shows _ _ late_ack). by vm_compute. Qed.

(** The rebuild after a recreated stream consumes its flag before it knows
    whether the consumer was created. When the creation fails once, the next
    recovery finds no checkpoint and no flag and asks for new messages only: what
    the fresh stream already holds is skipped. *)
Definition rebuild_fails_once : list action :=
  start_pulling 41 ++ create_iterator ++
  stream_lost 1 41 [] ++ [Do (AZ 0); Do (ABool true); Do (AHandle (Err timeout)); ok; ok; Turn] ++
  create_iterator ++ consumer_lost 2 0 ++ [Do (AHandle (Ok 1))].

Lemma failed_rebuild_skips_fresh_stream :
  exists w l ts, reachable (λ _, 0%Z) (toy false true) 0 0 (w, l, ts) /\
    summary <$> built w = [(DeliverByStartSequencePolicy, 42%Z, 0, 0, false);
      (DeliverAllPolicy, 0%Z, 1, 1, false); (DeliverNewPolicy, 0%Z, 1, 1, false)].
Proof. apply (run_shows _ _ rebuild_fails_once). by vm_compute. Qed.

(** Every partition has its own controller. When another one's hook recreated the
    stream first, this one only sees its consumer deleted and recreates it behind
    the sequence of the old stream. *)
Definition replaced_by_other : list action :=
  start_pulling 41 ++ create_iterator ++ [Replace] ++ consumer_lost 1 41 ++ [Do (AHandle (Ok 1))].

Lemma replaced_stream_resumes_at_old_sequence :
  exists w l ts, reachable (λ _, 0%Z) (toy false true) 0 0 (w, l, ts) /\
    summary <$> built w = [(DeliverByStartSequencePolicy, 42%Z, 0, 1, false)] /\ floors w = [(0, 41%Z)].
Proof. apply (run_shows _ _ replaced_by_other). by vm_compute. Qed.

(** The checkpoint is the highest acknowledged sequence: a message below it whose
    handler failed and that awaits redelivery is behind the start sequence of the
    recreated consumer. *)
Definition nak_then_ack : list action :=
  start_pulling 0 ++ create_iterator ++
  [Turn; ok; Do (AMsg (Ok (mkMessage 0 (Some 4%Z)))); Do (AZ 0); unit_; Do (AErr (Some timeout)); unit_; Turn] ++
  [Turn; ok; Do (AMsg (Ok (mkMessage 0 (Some 5%Z)))); Do (AZ 0); unit_; ok; ok; Do (AZ 0); unit_; Turn] ++
  consumer_lost 1 5 ++ [Do (AHandle (Ok 1))].

Lemma failed_message_skipped :
  exists w l ts, reachable (λ _, 0%Z) (toy false true) 0 0 (w, l, ts) /\
    summary <$> built w = [(DeliverByStartSequencePolicy, 6%Z, 0, 0, false)] /\ acked w = [(0, 5%Z)].
Proof. apply (run_shows _ _ nak_then_ack). by vm_compute. Qed.
