(* ===== verification/ConsumerLoop.v ===== *)
(** * What the recovery controller and the consumption loop decide

    Properties of the loop by itself, whatever it is answered: when a burst of
    heartbeat failures is reported, when a consumer is recreated, and that a lost
    stream is reported once, within the budget. *)
From S2P Require Import Prelude Nats Float64 Effects Retry Recovery PartitionConsumer.

(** ** The burst detector *)

Lemma search_least fuel f lo hi :
  hi - lo <= fuel -> lo <= hi -> (forall i j, i <= j -> f i = true -> f j = true) ->
  lo <= search fuel f lo hi <= hi /\
  (forall i, lo <= i < search fuel f lo hi -> f i = false) /\ (search fuel f lo hi < hi -> f (search fuel f lo hi) = true).
Proof.
  revert lo hi. induction fuel as [|fuel IH]; intros lo hi Hf Hl Mono; cbn [search].
  { split_and!; [lia..|]. intros. lia. }
  case_decide; [|split_and!; intros; lia].
  assert (lo <= (lo + hi) / 2 < hi) as Hh.
  { split; [apply Nat.div_le_lower_bound|apply Nat.div_lt_upper_bound]; lia. }
  destruct (f ((lo + hi) / 2)) eqn:E.
  - destruct (IH lo ((lo + hi) / 2)) as (B & N & L); [lia..|done|]. split_and!; [lia..|exact N|].
    intros _. destruct (decide (search fuel f lo ((lo + hi) / 2) < (lo + hi) / 2)) as [|G]; [by apply L|].
    replace (search fuel f lo ((lo + hi) / 2)) with ((lo + hi) / 2) by lia. done.
  - destruct (IH (S ((lo + hi) / 2)) hi) as (B & N & L); [lia..|done|]. split_and!; [lia..| |exact L].
    intros i Hi. destruct (decide (i <= (lo + hi) / 2)) as [Le|]; [|apply N; lia].
    destruct (f i) eqn:Ei; [|done]. by rewrite (Mono i _ Le Ei) in E.
Qed.

Lemma times_lookup_le (l : list Z) i j x y :
  StronglySorted Z.le l -> i <= j -> l !! i = Some x -> l !! j = Some y -> (x <= y)%Z.
Proof.
  intros S. revert i j. induction S as [|a l S IH F]; intros i j Hij Hx Hy; [done|].
  destruct i as [|i], j as [|j]; cbn in *; simplify_eq; try lia.
  - rewrite Forall_forall in F. apply F. by eapply list_elem_of_lookup_2.
  - eapply (IH i j); [lia|done..].
Qed.

Lemma TrimTimes_filter times cutoff :
  StronglySorted Z.le times -> TrimTimes times cutoff = filter (λ t, cutoff <= t)%Z times.
Proof.
  intros S. unfold TrimTimes. set (f := λ i, _).
  destruct (search_least (length times) f 0 (length times)) as (B & N & L); [lia..| |].
  { unfold f. intros i j Hij. destruct (times !! i) as [x|] eqn:Ex; [rewrite bool_decide_eq_true|].
    - destruct (times !! j) as [y|] eqn:Ey; [|done]. rewrite bool_decide_eq_true. pose proof (times_lookup_le _ _ _ _ _ S Hij Ex Ey). lia.
    - apply lookup_ge_None in Ex. by rewrite lookup_ge_None_2 by lia. }
  cbn zeta. set (r := search _ f 0 _) in *. rewrite <- (take_drop r times) at 2. rewrite filter_app.
  rewrite filter_none, filter_all; [done|..]; apply Forall_lookup; intros i x Hx.
  - rewrite lookup_drop in Hx. assert (r < length times) as Hr by (apply lookup_lt_Some in Hx; lia).
    destruct (lookup_lt_is_Some_2 _ _ Hr) as [y Hy]. apply L in Hr. unfold f in Hr. rewrite Hy, bool_decide_eq_true in Hr.
    pose proof (times_lookup_le times r (r + i) y x S ltac:(lia) Hy Hx). lia.
  - apply lookup_take_Some in Hx as [Hx Hi]. specialize (N i ltac:(lia)). unfold f in N. rewrite Hx, bool_decide_eq_false in N. done.
Qed.

(** The detector after failures at these times. *)
Definition records (bd : BurstDetector) (ts : list Z) : BurstDetector := foldl (λ bd t, (Record_ t bd).1) bd ts.

Lemma filter_snoc_window (ts : list Z) (now a : Z) (w : Z) :
  StronglySorted Z.le (ts ++ [now]) -> (a <= now)%Z ->
  filter (λ t, now - w <= t)%Z (filter (λ t, a - w <= t)%Z ts ++ [now]) = filter (λ t, now - w <= t)%Z (ts ++ [now]).
Proof.
  intros S Ha. rewrite !filter_app, list_filter_filter. f_equal. apply list_filter_iff. intros t. lia.
Qed.

Lemma records_failures w th ts :
  StronglySorted Z.le ts -> (0 <= w)%Z ->
  let bd := records (NewBurstDetector w th) ts in
  window bd = w /\ threshold bd = th /\
  failures bd = match last ts with Some now => filter (λ t, now - w <= t)%Z ts | None => [] end.
Proof.
  intros S Hw. unfold records. induction ts as [|now ts IH] using rev_ind; [done|].
  rewrite foldl_app, last_snoc. cbn [foldl]. apply StronglySorted_snoc in S as [S F].
  destruct (IH S) as (Ew & Et & Ef). cbn zeta. set (bd := foldl _ _ ts) in *. unfold Record_. cbn [fst window threshold failures].
  split_and!; [done..|]. rewrite Ef, Ew.
  assert (StronglySorted Z.le (ts ++ [now])) as S' by by apply StronglySorted_snoc.
  destruct (last ts) as [a|] eqn:L.
  - assert (a <= now)%Z. { rewrite Forall_forall in F. apply F. by apply last_Some_elem_of. }
    rewrite TrimTimes_filter; [by apply filter_snoc_window|]. apply StronglySorted_snoc. split; [by apply StronglySorted_filter|].
    apply Forall_forall. intros t [_ Ht]%list_elem_of_filter. rewrite Forall_forall in F. by apply F.
  - apply last_None in L as ->. cbn [app]. by apply TrimTimes_filter.
Qed.

(** A burst is reported exactly when it is one. For failures recorded at times
    that do not go back since the last reset, the detector answers true if and
    only if at least [threshold] of them, the new one included, lie within the
    window before it; the entries it keeps are exactly those. The binary search
    that trims the entries is part of the statement. *)
Theorem burst_exact w th ts now :
  StronglySorted Z.le (ts ++ [now]) -> (0 <= w)%Z ->
  let '(bd, reached) := Record_ now (records (NewBurstDetector w th) ts) in
  failures bd = filter (λ t, now - w <= t)%Z (ts ++ [now]) /\
  (reached = true <-> (th <= Z.of_nat (length (filter (λ t, now - w <= t)%Z (ts ++ [now]))))%Z).
Proof.
  intros S Hw. pose proof (records_failures w th (ts ++ [now]) S Hw) as (_ & _ & E). rewrite last_snoc in E.
  unfold records in E. rewrite foldl_app in E. cbn [foldl] in E.
  pose proof S as S'. apply StronglySorted_snoc in S' as [S' _]. destruct (records_failures w th ts S' Hw) as (_ & Et & _).
  fold (records (NewBurstDetector w th) ts) in E. set (bd := records _ ts) in *. unfold Record_ in *. cbn [fst failures] in E |- *.
  rewrite E, Et. split; [done|]. by rewrite bool_decide_eq_true.
Qed.

Lemma burst_exact_witness :
  failures (Record_ 30 (records (NewBurstDetector 20 3) [1; 11; 12]%Z)).1 = [11; 12; 30]%Z /\
  (Record_ 30 (records (NewBurstDetector 20 3) [1; 11; 12]%Z)).2 = true.
Proof.
  pose proof (burst_exact 20 3 [1; 11; 12]%Z 30) as H.
  destruct (Record_ 30 (records (NewBurstDetector 20 3) [1; 11; 12]%Z)) as [bd reached] eqn:E.
  destruct H as [F R]; [repeat constructor; vm_compute; discriminate|lia|]. cbn [fst snd]. split; [rewrite F; by vm_compute|]. apply R. by vm_compute.
Defined.

(** ** What a run shows *)

Inductive event :=
| EvNow (t : Z)
| EvInfo (r : res go_error Z)
| EvCheckpoint (n : Z)
| EvCreate (cfg : ConsumerConfig) (r : res go_error handle)
| EvHook (r : option go_error)
| EvPermanent (e : go_error).

Definition observe (X : Type) (o : op X) : X -> list event :=
  match o in op X return X -> list event with
  | Now => λ t, [EvNow t]
  | Info _ => λ r, [EvInfo r]
  | CheckpointValue => λ n, [EvCheckpoint n]
  | Create cfg => λ r, [EvCreate cfg r]
  | Hook => λ r, [EvHook r]
  | OnPermanentFailure e => λ _, [EvPermanent e]
  | _ => λ _, []
  end.

(** Any answer at all, except that the rate limiter reports no missing stream. *)
Definition any (X : Type) (o : op X) : X -> Prop :=
  match o in op X return X -> Prop with
  | LimiterWait => λ x, IsStreamNotFound x = false
  | _ => λ _, True
  end.

Definition creates (tr : list event) : list (ConsumerConfig * res go_error handle) :=
  omap (λ ev, match ev with EvCreate cfg r => Some (cfg, r) | _ => None end) tr.
Definition permanents (tr : list event) : list go_error :=
  omap (λ ev, match ev with EvPermanent e => Some e | _ => None end) tr.

(** The cooldown since the last recovery is over. *)
Definition cooled (c : Controller) (t : Z) : Prop :=
  match lastRecoveryTime c with Some t0 => (minRecoveryInterval c <= time_sub t t0)%Z | None => True end.

(** *** Recreation *)

(** Every creation follows the cooldown, asks for what the checkpoint says, and is
    the only one. *)
Definition creates_ok (c : Controller) (bc : ConsumerConfig) (tr : list event) : Prop :=
  length (creates tr) <= 1 /\
  forall cfg r, EvCreate cfg r ∈ tr ->
    (exists t, EvNow t ∈ tr /\ cooled c t) /\
    exists n, EvCheckpoint n ∈ tr /\ cfg = (BuildConfig bc (strategy c) n false).1.

Definition recovers (c : Controller) (bc : ConsumerConfig) (tr : list event) (r : Controller * res go_error (option handle)) : Prop :=
  creates_ok c bc tr /\
  match r.2 with
  | Ok (Some h) => (exists cfg, EvCreate cfg (Ok h) ∈ tr) /\ (exists t, lastRecoveryTime r.1 = Some t) /\ failures (burst r.1) = []
  | Ok None => lastRecoveryTime r.1 = lastRecoveryTime c
  | Err e => Is e ErrStreamMissing = true /\ lastRecoveryTime r.1 = lastRecoveryTime c /\
      exists cfg e', EvCreate cfg (Err e') ∈ tr /\ IsStreamNotFound (Some e') = true
  end.

Lemma missing_Is e : Is (missing e) ErrStreamMissing = true.
Proof. apply bool_decide_eq_true. left. Qed.

(** A run without creations. *)
Definition uncreative (tr : list event) : Prop := Forall (λ ev, match ev with EvCreate _ _ => False | _ => True end) tr.

Lemma uncreative_creates tr : uncreative tr -> creates tr = [] /\ forall cfg r, ~ EvCreate cfg r ∈ tr.
Proof.
  unfold uncreative. intros F. split; [|by intros cfg r H; rewrite Forall_forall in F; apply F in H]. by induction F as [|[] tr H F IH].
Qed.

Lemma no_creates_ok c bc tr : uncreative tr -> creates_ok c bc tr.
Proof. intros [E N]%uncreative_creates. split; [rewrite E; cbn; lia|]. intros cfg r H. by apply N in H. Qed.

Lemma one_creates_ok c bc now n r tr :
  cooled c now -> uncreative tr ->
  creates_ok c bc (EvNow now :: EvCheckpoint n :: EvCreate (BuildConfig bc (strategy c) n false).1 r :: tr).
Proof.
  intros Cd U. destruct (uncreative_creates tr U) as [E N]. split.
  - change (length ((((BuildConfig bc (strategy c) n false).1, r)) :: creates tr) <= 1). by rewrite E.
  - intros cfg r' H. split; [exists now; split; [left|done]|]. exists n. split; [right; left|].
    rewrite !elem_of_cons in H. destruct H as [|[|[H|H]]]; try done; [by injection H|by apply N in H].
Qed.

Lemma recreateFn_creates pc cfg :
  always observe any (recreateFn pc cfg) (λ tr r, tr = [EvCreate cfg r] \/ (tr = [] /\ exists e, r = Err e /\ IsStreamNotFound (Some e) = false)).
Proof.
  unfold recreateFn, limiter_wait. destruct (hasLimiter _); [|by intros r _; left].
  intros [e|] H; [right; by eauto|by intros r _; left].
Qed.

Lemma recover_recovers c bc pc : always observe any (recover c bc (recreateFn pc)) (recovers c bc).
Proof.
  unfold recover. destruct (inProgress c) eqn:P; [by split; [apply no_creates_ok; constructor|]|]. apply always_bind.
  unfold recover_locked. intros [e|] _; [by split; [apply no_creates_ok; constructor|]|]. intros now _.
  cbn [mbind prog_bind bind lastRecoveryTime minRecoveryInterval strategy set_inProgress].
  destruct (match lastRecoveryTime c with Some t => _ | None => false end) eqn:Co;
    [by split; [apply no_creates_ok; repeat constructor|]|].
  intros n _. intros [e|] _; [by split; [apply no_creates_ok; repeat constructor|]|].
  cbn [mbind prog_bind bind]. apply always_bind. eapply always_mono; [apply recreateFn_creates|].
  assert (cooled c now) as Cd. { unfold cooled. destruct (lastRecoveryTime c); [|done]. apply bool_decide_eq_false in Co. lia. }
  intros tr r [->|(-> & e & -> & Ns)].
  2: { cbn [always observe app]. rewrite Ns. split; [|done]. apply no_creates_ok. repeat constructor. }
  destruct r as [h|e].
  - intros t _. split; [apply one_creates_ok; [done|repeat constructor]|]. cbn. split_and!; [|by eexists|done].
    eexists. right. right. left.
  - cbn [always observe app]. destruct (IsStreamNotFound (Some e)) eqn:Sn; (split; [apply one_creates_ok; [done|constructor]|]); [|done].
    cbn. split_and!; [apply missing_Is|done|]. eexists _, e. split; [right; right; left|done].
Qed.

(** What [Classify] is answered and returns; the parts are explained below. *)
Definition classified (pc : partitionConsumer) (c : Controller) (err : go_error) (tr : list event)
    (out : Controller * Action * option handle * option go_error) : Prop :=
  let '(c', action, h, e) := out in
  length (creates tr) <= 1 /\
  (forall cfg r, EvCreate cfg r ∈ tr ->
    (IsConsumerGone (Some err) = true \/
     (Is err JsErrNoHeartbeat = true /\ exists t e', EvNow t ∈ tr /\ (Record_ t (burst c)).2 = true /\
        EvInfo (Err e') ∈ tr /\ IsConsumerNotFound (Some e') = true)) /\
    (exists t, EvNow t ∈ tr /\ cooled c t) /\
    exists n, EvCheckpoint n ∈ tr /\ cfg = (BuildConfig (consumerConfig pc) (strategy c) n false).1) /\
  match action with
  | ActionContinue => exists cfg n t, h = Some n /\ EvCreate cfg (Ok n) ∈ tr /\ lastRecoveryTime c' = Some t /\ failures (burst c') = []
  | ActionStreamMissing => lastRecoveryTime c' = lastRecoveryTime c /\
      exists e1 e2, e = Some e1 /\ Is e1 ErrStreamMissing = true /\ IsStreamNotFound (Some e2) = true /\
        (EvInfo (Err e2) ∈ tr \/ exists cfg, EvCreate cfg (Err e2) ∈ tr)
  | ActionExit => tr = [] /\ c' = c /\ (Is err JsErrMsgIteratorClosed = true \/ Is err ContextCanceled = true)
  | ActionBackoff => h = None /\ e = None /\ lastRecoveryTime c' = lastRecoveryTime c
  end.

Definition justified (c : Controller) (err : go_error) (tr : list event) : Prop :=
  IsConsumerGone (Some err) = true \/
  (Is err JsErrNoHeartbeat = true /\ exists t e', EvNow t ∈ tr /\ (Record_ t (burst c)).2 = true /\
     EvInfo (Err e') ∈ tr /\ IsConsumerNotFound (Some e') = true).

(** Recovery after [tr], which justifies it. *)
Lemma recover_classified pc c0 c err tr :
  strategy c = strategy c0 -> lastRecoveryTime c = lastRecoveryTime c0 -> minRecoveryInterval c = minRecoveryInterval c0 ->
  uncreative tr -> justified c0 err tr ->
  always observe any (r ← recover c (consumerConfig pc) (recreateFn pc); Ret (recover_action r))
    (λ tr', classified pc c0 err (tr ++ tr')).
Proof.
  intros Es El Em U J. apply always_bind. eapply always_mono; [apply recover_recovers|]. intros tr' [c' r] [[L Cr] R].
  destruct (uncreative_creates tr U) as [E N]. cbn [always]. rewrite app_nil_r. unfold recover_action. cbn [fst snd] in *.
  assert (length (creates (tr ++ tr')) <= 1) as L'. { unfold creates in *. by rewrite omap_app, E. }
  assert (forall cfg r, EvCreate cfg r ∈ tr ++ tr' -> justified c0 err (tr ++ tr') /\
    (exists t, EvNow t ∈ tr ++ tr' /\ cooled c0 t) /\
    exists n, EvCheckpoint n ∈ tr ++ tr' /\ cfg = (BuildConfig (consumerConfig pc) (strategy c0) n false).1) as Cr'.
  { intros cfg x [H|H]%elem_of_app; [by apply N in H|]. destruct (Cr cfg x H) as [(t & Ht & Cd) (n & Hn & ->)]. split_and!.
    - destruct J as [J|(Hb & t' & e' & J)]; [by left|right]. split; [done|]. exists t', e'. rewrite !elem_of_app. tauto.
    - exists t. rewrite elem_of_app. split; [by right|]. unfold cooled in *. by rewrite <- El, <- Em.
    - exists n. rewrite elem_of_app, Es. by split; [right|]. }
  destruct r as [[h|]|e]; (split; [exact L'|]; split; [exact Cr'|]).
  - destruct R as ((cfg & H) & (t & Et) & F). exists cfg, h, t. rewrite elem_of_app. auto.
  - by rewrite R.
  - destruct R as (Im & Et & cfg & e' & H & Sn). split; [by rewrite Et|]. exists e, e'. split_and!; try done.
    right. exists cfg. rewrite elem_of_app. by right.
Qed.

Lemma backoff_classified pc c c' err tr :
  uncreative tr -> lastRecoveryTime c' = lastRecoveryTime c -> classified pc c err tr (c', ActionBackoff, None, None).
Proof.
  intros [E N]%uncreative_creates L. split; [rewrite E; cbn; lia|]. split; [|done]. intros cfg r H. by apply N in H.
Qed.

Lemma consumerInfoFn_shows pc (Φ : list event -> res go_error Z -> Prop) :
  (forall info, Φ [EvInfo info] info) -> (forall e, IsConsumerNotFound (Some e) = false -> IsStreamNotFound (Some e) = false -> Φ [] (Err e)) ->
  always observe any (consumerInfoFn pc) Φ.
Proof. intros H1 H2. unfold consumerInfoFn. destruct (consumer pc); [by intros info _; apply H1|by apply H2]. Qed.

Lemma Classify_classified pc c err :
  always observe any (Classify c (Some err) (consumerInfoFn pc) (consumerConfig pc) (recreateFn pc)) (classified pc c err).
Proof.
  unfold Classify. cbn [ClassifyError]. destruct (Is err JsErrMsgIteratorClosed || Is err ContextCanceled) eqn:Cl.
  { split; [cbn; lia|]. split; [by intros cfg r []%elem_of_nil|]. split_and!; try done. by apply orb_true_iff in Cl. }
  destruct (IsConsumerGone (Some err)) eqn:G; [by apply (recover_classified pc c c err []); try done; [constructor|left]|].
  destruct (Is err JsErrNoHeartbeat) eqn:Hb; [|by apply backoff_classified; [constructor|]].
  intros now _. cbn [mbind prog_bind bind]. destruct (Record_ now (burst c)) as [b reached] eqn:R.
  destruct reached; cbn [negb]; [|by apply backoff_classified; [repeat constructor|]].
  apply always_bind. unfold probeConsumerGone. apply always_bind. apply consumerInfoFn_shows.
  - intros info. cbn [always]. destruct (IsConsumerNotFound _) eqn:Nf; cbn [negb fst snd].
    + apply (recover_classified pc c (set_burst b c) err [EvNow now; EvInfo info]); [done..|repeat constructor|].
      destruct info as [f|e]; [done|]. right. split; [done|]. exists now, e. rewrite R. set_solver.
    + destruct info as [f|e]; [by apply backoff_classified; [repeat constructor|]|].
      destruct (IsStreamNotFound (Some e)) eqn:Sn; [|by apply backoff_classified; [repeat constructor|]].
      split; [cbn; lia|]. split; [intros cfg r H; cbn in H; set_solver|]. split; [done|]. exists (missing e), e.
      split_and!; try done. left. cbn. set_solver.
  - intros e Nf Sn. cbn [always fst snd]. rewrite Nf. cbn [negb]. rewrite Sn. by apply backoff_classified; [repeat constructor|].
Qed.

(** C24. A consumer is recreated only when it is gone, and at most once per
    failure. Whatever a failed pull and the calls of [Classify] answer: a
    creation is attempted only if the failure was "consumer deleted", or a
    heartbeat failure that completed a burst and whose probe answered "consumer
    not found"; only after the cooldown since the last recovery; and with the
    configuration the strategy derives from the checkpoint as read. The action
    returned says what happened: continue with the created consumer, the error
    class wraps the stream-missing sentinel exactly when the server said the
    stream is gone, exit without a call for a closed iterator, and otherwise back
    off with the time of the last recovery unchanged. *)
Theorem recreation_is_warranted pc c err tr c' action h e :
  traces observe any (Classify c (Some err) (consumerInfoFn pc) (consumerConfig pc) (recreateFn pc)) tr (c', action, h, e) ->
  length (creates tr) <= 1 /\
  (forall cfg r, EvCreate cfg r ∈ tr ->
    (IsConsumerGone (Some err) = true \/
     (Is err JsErrNoHeartbeat = true /\ exists t e', EvNow t ∈ tr /\ (Record_ t (burst c)).2 = true /\
        EvInfo (Err e') ∈ tr /\ IsConsumerNotFound (Some e') = true)) /\
    (exists t, EvNow t ∈ tr /\ cooled c t) /\
    exists n, EvCheckpoint n ∈ tr /\ cfg = (BuildConfig (consumerConfig pc) (strategy c) n false).1) /\
  match action with
  | ActionContinue => exists cfg n t, h = Some n /\ EvCreate cfg (Ok n) ∈ tr /\ lastRecoveryTime c' = Some t /\ failures (burst c') = []
  | ActionStreamMissing => lastRecoveryTime c' = lastRecoveryTime c /\
      exists e1 e2, e = Some e1 /\ Is e1 ErrStreamMissing = true /\ IsStreamNotFound (Some e2) = true /\
        (EvInfo (Err e2) ∈ tr \/ exists cfg, EvCreate cfg (Err e2) ∈ tr)
  | ActionExit => tr = [] /\ c' = c /\ (Is err JsErrMsgIteratorClosed = true \/ Is err ContextCanceled = true)
  | ActionBackoff => h = None /\ e = None /\ lastRecoveryTime c' = lastRecoveryTime c
  end.
Proof. intros T. exact (always_traces _ _ _ _ _ _ (Classify_classified pc c err) T). Qed.

Definition loop_config : partitionConsumerConfig :=
  mkPCConfig 5000000000 false FromLastProcessed (mkRetry 200000000 (f64_const 16 10) 5000000000) 60000000000 3
    (mkRetryConfig 500000000 30000000000 8 (f64_of_Z 0)) true false false false true.
Definition loop_pc : partitionConsumer := newPartitionConsumer loop_config (mkCC "worker_p1" DeliverAllPolicy 0 None) (Some 0).
Definition loop_controller : Controller := mkController FromLastProcessed (NewBurstDetector 23000000000 3) false None 500000000.
Definition deleted : go_error := mkError [JsErrConsumerDeleted] "consumer deleted".

Lemma recreation_is_warranted_witness :
  exists tr, creates tr = [(mkCC "worker_p1" DeliverByStartSequencePolicy 8 None, Ok 1)] /\ length (creates tr) <= 1.
Proof.
  assert (traces observe any (Classify loop_controller (Some deleted) (consumerInfoFn loop_pc) (consumerConfig loop_pc) (recreateFn loop_pc))
    [EvNow 5; EvCheckpoint 7; EvCreate (mkCC "worker_p1" DeliverByStartSequencePolicy 8 None) (Ok 1); EvNow 6]
    (recovered 6 loop_controller, ActionContinue, Some 1, None)) as T.
  { apply (traces_op observe any _ CtxErr _ None); [exact I|]. apply (traces_op observe any _ Now _ 5%Z); [exact I|].
    apply (traces_op observe any _ CheckpointValue _ 7%Z); [exact I|]. apply (traces_op observe any _ CtxErr _ None); [exact I|].
    apply (traces_op observe any _ (Create _) _ (Ok 1)); [exact I|]. apply (traces_op observe any _ Now _ 6%Z); [exact I|].
    apply traces_ret. }
  exists [EvNow 5; EvCheckpoint 7; EvCreate (mkCC "worker_p1" DeliverByStartSequencePolicy 8 None) (Ok 1); EvNow 6].
  split; [reflexivity|]. exact (proj1 (recreation_is_warranted _ _ _ _ _ _ _ _ T)).
Defined.

(** ** Runs of the loop *)

Inductive outcome := Going (p : phase) (pc : partitionConsumer) | Left | Crashed.

Section rounds.
Context (float_to_int : float64 -> Z) (ans : forall X, op X -> X -> Prop).

(** At most [n] rounds of the loop. *)
Inductive rounds : nat -> phase -> partitionConsumer -> list event -> outcome -> Prop :=
| rounds_none p pc : rounds 0 p pc [] (Going p pc)
| rounds_more n p pc tr pc' p' tr' out :
    traces observe ans (round float_to_int p pc) tr (pc', Goto p') -> rounds n p' pc' tr' out -> rounds (S n) p pc (tr ++ tr') out
| rounds_exit n p pc tr pc' : traces observe ans (round float_to_int p pc) tr (pc', Exit) -> rounds (S n) p pc tr Left
| rounds_panic n p pc tr pc' : traces observe ans (round float_to_int p pc) tr (pc', Panic) -> rounds (S n) p pc tr Crashed.

Lemma rounds_exist n p pc : (forall X (o : op X), exists x, ans X o x) -> exists tr out, rounds n p pc tr out.
Proof.
  intros Total. revert p pc. induction n as [|n IH]; intros p pc; [by do 2 eexists; constructor|].
  destruct (traces_exist observe ans (round float_to_int p pc) Total) as (tr & [pc' [p'| |]] & T).
  - destruct (IH p' pc') as (tr' & out & R). do 2 eexists. by eapply rounds_more.
  - do 2 eexists. by eapply rounds_exit.
  - do 2 eexists. by eapply rounds_panic.
Qed.
End rounds.

(** *** Programs that report no permanent failure *)

Fixpoint silently {A} (m : prog A) (P : A -> Prop) : Prop :=
  match m with
  | Ret a => P a
  | Vis o k => match o with OnPermanentFailure _ => False | _ => True end /\ forall x, silently (k x) P
  end.

Lemma silently_mono {A} (m : prog A) (P Q : A -> Prop) : silently m P -> (forall a, P a -> Q a) -> silently m Q.
Proof. intros H M. induction m as [a|X o k IH]; cbn in *; [by apply M|]. destruct H as [Ho H]. split; [done|]. intros x. apply IH, H. Qed.

Lemma silently_bind {A B} (m : prog A) (f : A -> prog B) (P : A -> Prop) Q :
  silently m P -> (forall a, P a -> silently (f a) Q) -> silently (m ≫= f) Q.
Proof. intros H Hf. induction m as [a|X o k IH]; cbn in *; [by apply Hf|]. destruct H as [Ho H]. split; [done|]. intros x. apply IH, H. Qed.

Lemma silently_any {A} (m : prog A) (P : A -> Prop) : silently m P -> silently m (λ _, True).
Proof. intros H. by eapply silently_mono. Qed.

Lemma silently_always {A} ans (m : prog A) (P : A -> Prop) :
  silently m P -> always observe ans m (λ tr a, permanents tr = [] /\ P a).
Proof.
  induction m as [a|X o k IH]; intros H; cbn in *; [by split|]. destruct H as [Ho H]. intros x _.
  eapply always_mono; [apply IH, H|]. intros tr a [E Pa]. split; [|done]. unfold permanents in *. rewrite omap_app, E, app_nil_r. by destruct o.
Qed.

(** Results whose consumer kept its configuration. *)
Definition same_config {A} (pc : partitionConsumer) (r : partitionConsumer * A) : Prop := config r.1 = config pc.

Section silent.
Context (float_to_int : float64 -> Z).

Lemma jitterBackoff_silent prev b mult cap : silently (jitterBackoff float_to_int prev b mult cap) (λ _, True).
Proof.
  unfold jitterBackoff. generalize (if decide (b <= 0)%Z then 50000000%Z else b). intros b'.
  destruct (decide (0 < cap < b')%Z); [done|]. by destruct (decide (prev <= 0)%Z).
Qed.

Lemma delay_silent pc : silently (delayWithBackoffOrExit float_to_int pc) (same_config pc).
Proof. unfold delayWithBackoffOrExit. eapply silently_bind; [apply jitterBackoff_silent|]. done. Qed.

Lemma recreateFn_silent pc cfg : silently (recreateFn pc cfg) (λ _, True).
Proof. unfold recreateFn, limiter_wait. destruct (hasLimiter _); cbn; [|done]. split; [done|]. by intros [e|]. Qed.

Lemma consumerInfoFn_silent pc : silently (consumerInfoFn pc) (λ _, True).
Proof. unfold consumerInfoFn. by destruct (consumer pc). Qed.

Lemma SeedCheckpoint_silent c pc : silently (SeedCheckpoint c (consumerInfoFn pc)) (λ _, True).
Proof.
  unfold SeedCheckpoint. destruct c; [|done]. case_decide; [done|].
  eapply silently_bind; [apply consumerInfoFn_silent|]. intros [f|e] _; [|done]. by case_decide.
Qed.

Lemma ensureConsumer_silent n pc i e : silently (ensureConsumer_loop float_to_int n pc i e) (λ _, True).
Proof.
  revert i e. induction n as [|n IH]; intros i e; [done|]. cbn [ensureConsumer_loop]. split; [done|]. intros [e1|]; [done|].
  eapply (silently_bind _ _ (λ _, True)); [unfold limiter_wait; by destruct (hasLimiter _)|]. intros [e1|] _; [done|].
  split; [done|]. intros [h|e1]; [done|]. cbn [mbind prog_bind bind]. destruct (IsStreamNotFound (Some e1)); [done|]. case_decide; [|apply IH].
  eapply silently_bind; [apply jitterBackoff_silent|]. intros d _. split; [done|]. intros [e2|]; [done|]. apply IH.
Qed.

Lemma escalate_silent pc : silently (maybeEscalateIteratorFailures float_to_int pc) (same_config pc).
Proof.
  unfold maybeEscalateIteratorFailures. split; [done|]. intros now. cbn [mbind prog_bind bind]. destruct (negb _); [done|].
  eapply (silently_bind _ _ (λ _, True)); [cbn [consumer set_escalation]; by destruct (consumer pc)|]. intros [|] _; [done|].
  eapply silently_bind; [apply ensureConsumer_silent|]. by intros [h|e] _.
Qed.

Lemma rebuild_silent pc : silently (rebuildAfterStreamMissing pc) (same_config pc).
Proof.
  unfold rebuildAfterStreamMissing. eapply (silently_bind _ _ (λ _, True)).
  - unfold handleStreamMissing. destruct (hasStreamMissingHook _); [|done]. split; [done|]. intros [e|]; [done|].
    eapply (silently_bind _ _ (λ _, True)); [|intros [] _; by destruct (hasOnStreamRecreated _)].
    unfold HandleStreamRecreated. destruct (recovery pc); [|done]. do 2 (split; [done|]; intros []).
    eapply silently_bind; [apply SeedCheckpoint_silent|]. done.
  - intros [e|] _; [done|]. eapply (silently_bind _ _ (λ _, True)); [|by intros [c [h|e]] _].
    unfold RebuildAfterStreamRecreated. destruct (recovery pc); [|done]. do 2 (split; [done|]; intros ?).
    eapply silently_bind; [apply recreateFn_silent|]. by intros [h|e] _.
Qed.

Lemma Classify_silent c err pc :
  silently (Classify c err (consumerInfoFn pc) (consumerConfig pc) (recreateFn pc)) (λ _, True).
Proof.
  assert (forall c, silently (r ← recover c (consumerConfig pc) (recreateFn pc); Ret (recover_action r)) (λ _, True)) as R.
  { intros c0. apply (silently_bind _ _ (λ _, True)); [|done]. unfold recover. destruct (inProgress c0); [done|].
    eapply (silently_bind _ _ (λ _, True)); [|done]. split; [done|]. intros [e|]; [done|]. split; [done|]. intros now.
    cbn [mbind prog_bind bind]. case_match; [done|]. split; [done|]. intros n. split; [done|]. intros [e|]; [done|].
    cbn [mbind prog_bind bind]. eapply silently_bind; [apply recreateFn_silent|]. by intros [h|e] _. }
  unfold Classify. destruct (ClassifyError err); try done. split; [done|]. intros now. cbn [mbind prog_bind bind].
  destruct (Record_ now (burst c)) as [b [|]]; cbn [negb]; [|done].
  eapply (silently_bind _ _ (λ _, True)); [unfold probeConsumerGone; eapply silently_bind; [apply consumerInfoFn_silent|done]|].
  intros probe _. destruct (negb probe.1); [done|apply R].
Qed.

Lemma iterator_work_silent pc : silently (iterator_work float_to_int pc) (same_config pc).
Proof.
  split; [done|]. intros [e|]; [|done]. cbn [mbind prog_bind bind]. eapply silently_bind; [apply escalate_silent|].
  intros [pc1 [e1|]] E1; [|done]. destruct (IsStreamNotFound (Some e1)); [|done]. unfold runStreamMissingDetour.
  eapply silently_bind; [apply rebuild_silent|]. intros [pc2 [h|e2]] E2; unfold same_config in *; cbn [fst] in *.
  - split; [done|]. intros r. cbn. congruence.
  - cbn. congruence.
Qed.

Lemma Dispatch_silent c m manual : silently (Dispatch c m manual) (λ _, True).
Proof.
  unfold Dispatch. destruct manual.
  - eapply (silently_bind _ _ (λ _, True)); [|done]. unfold WrapForTracking. destruct c; [|done]. by case_decide.
  - eapply (silently_bind _ _ (λ _, True)); [by destruct c|]. intros e _. split; [done|]. intros []. split; [done|].
    intros [err|]; [done|]. split; [done|]. intros [err|]; [done|]. cbn [mbind prog_bind bind]. destruct c; [|done].
    split; [done|]. intros cur. cbn [mbind prog_bind bind]. case_decide; [done|]. unfold Advance. by destruct (m_seq m).
Qed.
End silent.

(** *** A permanent failure is the last thing reported *)

Definition reports {A} (final : A -> Prop) (tr : list event) (a : A) : Prop :=
  permanents tr = [] \/ (final a /\ exists tr' e, tr = tr' ++ [EvPermanent e] /\ permanents tr' = []).

Section reporting.
Context (float_to_int : float64 -> Z) (ans : forall X, op X -> X -> Prop).
Notation always := (always observe ans).

Lemma reports_app {A} (F : A -> Prop) tr tr' a : permanents tr = [] -> reports F tr' a -> reports F (tr ++ tr') a.
Proof.
  unfold permanents. intros E [E'|(Fa & l & e & -> & E')]; [left; unfold permanents in *; by rewrite omap_app, E, E'|right].
  split; [done|]. exists (tr ++ l), e. unfold permanents in *. by rewrite omap_app, E, E', <- app_assoc.
Qed.

Lemma reports_bind {A B} (m : prog A) (f : A -> prog B) (P : A -> Prop) (Q F : B -> Prop) :
  silently m P -> (forall a, P a -> always (f a) (λ tr b, Q b /\ reports F tr b)) ->
  always (m ≫= f) (λ tr b, Q b /\ reports F tr b).
Proof.
  intros S H. apply always_bind. eapply always_mono; [by apply silently_always|]. intros tr a [E Pa]. cbn beta.
  eapply always_mono; [by apply H|]. intros tr' b [Qb R]. split; [done|by apply reports_app].
Qed.

Lemma reports_silent {A} (m : prog A) (Q F : A -> Prop) : silently m Q -> always m (λ tr a, Q a /\ reports F tr a).
Proof. intros S. eapply always_mono; [by apply silently_always|]. intros tr a [E Qa]. split; [done|by left]. Qed.

Lemma permanent_failure_reports {A} pc e (a : A) (Q F : A -> Prop) :
  Q a -> F a -> always (_ ← permanent_failure pc e; Ret a) (λ tr a, Q a /\ reports F tr a).
Proof.
  intros Qa Fa. unfold permanent_failure. destruct (hasOnPermanentFailure _); cbn; [|by split; [|left]].
  intros [] _. split; [done|right]. split; [done|]. by exists [], e.
Qed.

Lemma missing_failure_reports pc e :
  always (handleStreamMissingFailure float_to_int pc e) (λ tr r, same_config pc r /\ reports (λ r, r.2 = true) tr r).
Proof.
  unfold handleStreamMissingFailure. cbn zeta. destruct (decide (_ <= wrap32 _)%Z); [by apply permanent_failure_reports|].
  apply reports_silent, (delay_silent float_to_int (set_failures _ pc)).
Qed.

Lemma same_config_trans {A B} pc (r : partitionConsumer * A) (r' : partitionConsumer * B) :
  same_config pc r -> same_config r.1 r' -> same_config pc r'.
Proof. unfold same_config. congruence. Qed.

Lemma envelope_reports n cfg pc a e :
  always (envelope_loop float_to_int n cfg pc a e) (λ tr r, same_config pc r /\ reports (λ r, r.2 = Exhausted) tr r).
Proof.
  revert pc a e. induction n as [|n IH]; intros pc a e; cbn [envelope_loop]; [by apply permanent_failure_reports|].
  apply (reports_bind (call CtxErr) _ (λ _, True)); [done|]. intros [e1|] _; [by split; [|left]|].
  eapply reports_bind; [apply iterator_work_silent|]. intros [pc1 [e1|]] E1; [|by split; [|left]].
  destruct (decide (a = MaxAttempts cfg)); [by apply permanent_failure_reports|].
  apply (reports_bind (call Float64Bits) _ (λ _, True)); [done|]. intros bits _.
  apply (reports_bind (call (Sleep _)) _ (λ _, True)); [done|]. intros [e2|] _; [by split; [|left]|].
  eapply always_mono; [apply IH|]. intros tr r [E2 R]. split; [|done]. by eapply same_config_trans.
Qed.

Lemma handleIteratorFailure_reports pc e :
  always (handleIteratorFailure float_to_int pc e) (λ tr r, same_config pc r /\ reports (λ r, r.2 = true) tr r).
Proof.
  unfold handleIteratorFailure. destruct (recovery pc) as [c|].
  - eapply reports_bind; [apply Classify_silent|]. intros [[[c' action] newCons] err] _. cbn zeta.
    destruct action; [| |by split; [|left]|].
    + destruct newCons as [h|]; [|by split; [|left]]. eapply reports_bind; [apply SeedCheckpoint_silent|]. intros [] _. by split; [|left].
    + apply reports_silent, (delay_silent float_to_int (set_recovery (Some c') pc)).
    + eapply reports_bind; [apply rebuild_silent|]. intros [pc1 [h|e1]] E1; [by split; [|left]|].
      eapply always_mono; [apply missing_failure_reports|]. intros tr r [E2 R]. split; [|done]. by eapply (same_config_trans _ (pc1, ())).
  - eapply reports_bind; [apply escalate_silent|]. intros [pc1 escErr] E1.
    assert (always (delayWithBackoffOrExit float_to_int pc1) (λ tr r, same_config pc r /\ reports (λ r, r.2 = true) tr r)) as D.
    { apply reports_silent. eapply silently_mono; [apply delay_silent|]. intros r E2. by eapply (same_config_trans _ (pc1, ())). }
    destruct escErr as [e1|]; [|done]. destruct (IsStreamNotFound (Some e1)); [|done].
    eapply always_mono; [apply missing_failure_reports|]. intros tr r [E2 R]. split; [|done]. by eapply (same_config_trans _ (pc1, ())).
Qed.

(** The retry configuration is one [retry.New] accepts. *)
Definition accepted (pc : partitionConsumer) : Prop := is_Some (Retry.New (RecoveryRetry (config pc))).

Lemma round_reports p pc : accepted pc ->
  always (round float_to_int p pc) (λ tr r, (same_config pc r /\ r.2 <> Panic) /\ reports (λ r, r.2 = Exit) tr r).
Proof.
  intros [cfg Ec]. destruct p; cbn [round].
  - eapply reports_bind; [apply SeedCheckpoint_silent|]. intros [] _. by split; [|left].
  - unfold create_round. apply (reports_bind (call CtxErr) _ (λ _, True)); [done|]. intros [e|] _; [by split; [|left]|].
    apply (reports_bind (call PullSuppressed) _ (λ _, True)); [done|]. intros [|] _.
    { apply (reports_bind (call (Sleep _)) _ (λ _, True)); [done|]. intros s _. split; [split; [done|by destruct s]|by left]. }
    unfold runIteratorEnvelope. rewrite Ec. apply always_bind. apply always_bind. eapply always_mono; [apply envelope_reports|].
    intros tr [pc1 r] [E1 R]. cbn. rewrite !app_nil_r. split; [by destruct r|]. destruct R as [|(Fa & X)]; [by left|right].
    cbn in Fa. by rewrite Fa.
  - unfold pull_round. apply (reports_bind (call CtxErr) _ (λ _, True)); [done|]. intros [e|] _.
    { apply (reports_bind (call StopIterator) _ (λ _, True)); [done|]. intros [] _. by split; [|left]. }
    apply (reports_bind (call Next) _ (λ _, True)); [done|]. intros [m|e] _.
    + eapply (reports_bind _ _ (λ _, True)); [destruct (hasHandler _); [apply Dispatch_silent|done]|]. intros [] _. by split; [|left].
    + apply (reports_bind (call StopIterator) _ (λ _, True)); [done|]. intros [] _.
      destruct (_ || _); [by split; [|left]|].
      apply always_bind. eapply always_mono; [apply handleIteratorFailure_reports|]. intros tr [pc1 exit] [E1 R].
      cbn. rewrite app_nil_r. split; [by destruct exit|]. destruct R as [|(Fa & X)]; [by left|right]. cbn in Fa. by rewrite Fa.
Qed.

Lemma rounds_reports n p pc tr out : accepted pc -> rounds float_to_int ans n p pc tr out ->
  out <> Crashed /\ reports (λ o, o = Left) tr out.
Proof.
  intros A R. induction R as [p pc|n p pc tr pc' p' tr' out T R IH|n p pc tr pc' T|n p pc tr pc' T].
  - split; [done|by left].
  - destruct (always_traces _ _ _ _ _ _ (round_reports p pc A) T) as [[E _] [P|(Fa & _)]]; [|done].
    destruct IH as [N R']; [unfold accepted in *; by rewrite E|]. split; [done|by apply reports_app].
  - destruct (always_traces _ _ _ _ _ _ (round_reports p pc A) T) as [_ [P|(_ & X)]]; (split; [done|]); [by left|by right].
  - by destruct (always_traces _ _ _ _ _ _ (round_reports p pc A) T) as [[_ N] _].
Qed.
End reporting.

Lemma newPartitionConsumer_accepted cfg cc h : accepted (newPartitionConsumer cfg cc h).
Proof.
  unfold accepted, newPartitionConsumer, recovery_defaults. cbn [config RecoveryRetry]. unfold Retry.New.
  cbn [MaxAttempts BaseBackoff MaxBackoff]. unfold DefaultRecoveryMaxAttempts, DefaultRecoveryBaseBackoff.
  repeat case_decide; try lia; by eexists.
Qed.

(** C25. A consumption loop never panics on its retry envelope and reports a
    permanent failure at most once, as the last thing it does. For every
    configuration, after any number of rounds and whatever the server, the hook,
    the handlers and the context answer: if the callback for permanent failures
    was called, it was called once, nothing was asked of the server after it, and
    the loop has exited. *)
Theorem permanent_failure_once float_to_int ans cfg cc h n tr out :
  rounds float_to_int ans n Starting (newPartitionConsumer cfg cc h) tr out ->
  out <> Crashed /\
  (permanents tr = [] \/ (out = Left /\ exists tr' e, tr = tr' ++ [EvPermanent e] /\ permanents tr' = [])).
Proof. intros R. eapply rounds_reports; [apply newPartitionConsumer_accepted|exact R]. Qed.

(** ** A lost stream *)

(** The answers while the stream is gone and nobody recreates it: creating a
    consumer fails, the hook fails, a pull reports the consumer gone; iterators open,
    nothing suppresses pulls, the context is not cancelled. [T] is a time before all
    of it. *)
Definition lost (T : Z) (X : Type) (o : op X) : X -> Prop :=
  match o in op X return X -> Prop with
  | CtxErr | Sleep _ | LimiterWait | MakeIterator _ => λ x, x = None
  | PullSuppressed => λ x, x = false
  | Now => λ t, (T <= t)%Z
  | Next => λ x, exists e, x = Err e /\ ClassifyError (Some e) = ErrorConsumerGone
  | Create _ => λ x, exists e, x = Err e /\ IsStreamNotFound (Some e) = true
  | Hook => λ x, exists e, x = Some e
  | _ => λ _, True
  end.

Lemma lost_answers T X (o : op X) : exists x, lost T X o x.
Proof.
  destruct o; cbn; try (by eexists); try (by exists None); try (by exists 0%Z); try (by exists ()); try (by exists T); try (by exists (Ok 0%Z)); try (by exists true).
  - exists (Err (mkError [JsErrStreamNotFound] "")). by eexists.
  - exists (Err (mkError [JsErrConsumerDeleted] "")). by eexists.
  - exists (Some (mkError [] "")). by eexists.
Qed.

(** The loop with its controller, [n] failures counted so far, and no recovery
    that would still be cooling down. *)
Record losing (T n : Z) (pc : partitionConsumer) : Prop := {
  losing_failures : streamMissingFailures pc = n;
  losing_accepted : accepted pc;
  losing_recovery : exists c, recovery pc = Some c /\ inProgress c = false /\ forall t, (T <= t)%Z -> cooled c t;
}.

Section lost.
Context (float_to_int : float64 -> Z) (T : Z).
Notation always := (always observe (lost T)).

Lemma lost_create n pc : losing T n pc -> always (create_round float_to_int pc) (λ tr r, permanents tr = [] /\ r = (pc, Goto Pulling)).
Proof.
  intros [_ [cfg Ec] _]. unfold create_round. intros ? ->. cbn [mbind prog_bind bind]. intros ? ->. cbn [mbind prog_bind bind].
  unfold runIteratorEnvelope. rewrite Ec. assert (exists k, Z.to_nat (MaxAttempts cfg) = S k) as [k ->].
  { unfold Retry.New in Ec. repeat case_decide; try done. injection Ec as <-. exists (pred (Z.to_nat (MaxAttempts (RecoveryRetry (config pc))))). lia. }
  cbn [envelope_loop]. intros ? ->. intros ? ->. done.
Qed.

Lemma lost_recreate pc cfg : always (recreateFn pc cfg) (λ tr r, permanents tr = [] /\ exists e, r = Err e /\ IsStreamNotFound (Some e) = true).
Proof.
  unfold recreateFn, limiter_wait. destruct (hasLimiter _); cbn [always mbind prog_bind bind]; [intros ? ->|]; by intros r (e & -> & Sn); cbn; eauto.
Qed.

Lemma lost_recover c bc pc : inProgress c = false -> (forall t, (T <= t)%Z -> cooled c t) ->
  always (recover c bc (recreateFn pc)) (λ tr r, permanents tr = [] /\ exists e, r = (c, Err e) /\ Is e ErrStreamMissing = true).
Proof.
  intros P Cd. assert (set_inProgress false (set_inProgress true c) = c) as Ec by (destruct c; unfold set_inProgress; cbn in *; by subst).
  unfold recover. rewrite P. apply always_bind. unfold recover_locked. intros ? ->. intros now Hn.
  cbn [mbind prog_bind bind lastRecoveryTime minRecoveryInterval strategy set_inProgress].
  destruct (match lastRecoveryTime c with Some t => _ | None => false end) eqn:Co.
  { exfalso. specialize (Cd now Hn). unfold cooled in Cd. destruct (lastRecoveryTime c); [|done]. apply bool_decide_eq_true in Co. lia. }
  intros n _. intros ? ->. cbn [mbind prog_bind bind]. apply always_bind. eapply always_mono; [apply lost_recreate|].
  intros tr r (E & e & -> & Sn). cbn [always fst snd]. rewrite Sn, Ec. split; [|by exists (missing e); rewrite missing_Is].
  unfold permanents in *. cbn. by rewrite !app_nil_r.
Qed.

Lemma lost_rebuild pc : always (rebuildAfterStreamMissing pc) (λ tr r, permanents tr = [] /\ exists e, r = (pc, Err e) /\ Is e ErrStreamMissing = true).
Proof.
  unfold rebuildAfterStreamMissing, handleStreamMissing. destruct (hasStreamMissingHook _).
  - intros x (e & ->). cbn. split; [done|]. exists (missing e). by rewrite missing_Is.
  - cbn. split; [done|]. by eexists.
Qed.

(** One failed detour: counted, or the last one. *)
Definition counted (pc : partitionConsumer) (n : Z) (tr : list event) (r : partitionConsumer * next) : Prop :=
  ((n + 1 < MaxAttempts (RecoveryRetry (config pc)))%Z /\ permanents tr = [] /\ r.2 = Goto Creating /\ losing T (n + 1) r.1 /\ config r.1 = config pc) \/
  ((MaxAttempts (RecoveryRetry (config pc)) <= n + 1)%Z /\ r.2 = Exit /\ exists e, permanents tr = [e] /\ Is e ErrStreamMissing = true).

Lemma lost_failure n pc e : losing T n pc -> hasOnPermanentFailure (config pc) = true -> (0 <= n < 2 ^ 31 - 1)%Z ->
  Is e ErrStreamMissing = true ->
  always (handleStreamMissingFailure float_to_int pc e)
    (λ tr r, counted pc n tr (r.1, if r.2 then Exit else Goto Creating)).
Proof.
  intros [En A R] Hp Hn Ie. unfold handleStreamMissingFailure. cbn zeta.
  assert (wrap32 (streamMissingFailures pc + 1) = n + 1)%Z as ->. { rewrite En. unfold wrap32. rewrite Z.mod_small; lia. }
  assert ((MaxAttempts (RecoveryRetry (config pc)) <= 0)%Z -> False) as Pos.
  { unfold accepted, Retry.New in A. intros H. rewrite decide_True in A by done. by destruct A. }
  cbn [config set_failures]. destruct (decide (MaxAttempts (RecoveryRetry (config pc)) <= 0)%Z) as [L|_]; [by destruct (Pos L)|].
  destruct (decide (_ <= n + 1)%Z) as [Ge|Lt].
  - unfold permanent_failure. cbn [config set_failures]. rewrite Hp. intros [] _. right. split_and!; try done. by exists e.
  - unfold delayWithBackoffOrExit. apply always_bind. eapply always_mono; [apply silently_always, jitterBackoff_silent|].
    intros tr d [E _] ? ->. cbn [always mbind prog_bind bind fst snd]. left. split_and!; try done; try lia.
    unfold permanents in *. by rewrite omap_app, E.
Qed.

Lemma lost_pull n pc : losing T n pc -> hasOnPermanentFailure (config pc) = true -> (0 <= n < 2 ^ 31 - 1)%Z ->
  always (pull_round float_to_int pc) (counted pc n).
Proof.
  intros L Hp Hn. destruct L as [En A (c & Ec & Ip & Cd)] eqn:EL. clear EL. unfold pull_round. intros ? ->.
  intros r (e & -> & Cl). intros [] _. cbn [mbind prog_bind bind].
  destruct (Is e JsErrMsgIteratorClosed || Is e ContextCanceled) eqn:Cx; [by cbn [ClassifyError] in Cl; rewrite Cx in Cl|].
  apply always_bind. unfold handleIteratorFailure. rewrite Ec. apply always_bind. unfold Classify. rewrite Cl.
  apply always_bind. eapply always_mono; [by apply lost_recover|]. intros tr1 r1 (E1 & e1 & -> & I1). cbn [always recover_action fst snd].
  rewrite app_nil_r. apply always_bind. eapply always_mono; [apply lost_rebuild|]. intros tr2 r2 (E2 & e2 & -> & I2).
  assert (losing T n (set_recovery (Some c) pc)) as L' by (split; [done..|by exists c]).
  eapply always_mono; [by apply (lost_failure n)|]. intros tr3 [pc3 exit] H3. cbn [always observe app].
  assert (permanents (tr1 ++ tr2 ++ tr3) = permanents tr3) as Ep. { unfold permanents in *. by rewrite !omap_app, E1, E2. }
  rewrite !app_nil_r. unfold counted in *. rewrite Ep. exact H3.
Qed.

Lemma lost_rounds k n pc m tr out :
  losing T n pc -> hasOnPermanentFailure (config pc) = true -> (0 <= n < 2 ^ 31 - 1)%Z ->
  Z.of_nat k = (MaxAttempts (RecoveryRetry (config pc)) - n)%Z -> (0 < k) -> (MaxAttempts (RecoveryRetry (config pc)) < 2 ^ 31)%Z ->
  rounds float_to_int (lost T) m Creating pc tr out -> 2 * k <= m ->
  out = Left /\ exists e, permanents tr = [e] /\ Is e ErrStreamMissing = true.
Proof.
  revert n pc m tr. induction k as [|k IH]; intros n pc m tr L Hp Hn Hk Pk Mx R Hm; [lia|].
  inversion R as [|m1 p pc0 tr1 pc1 p1 tr1' out1 T1 R1|m1 p pc0 tr1 pc1 T1|m1 p pc0 tr1 pc1 T1]; subst; [lia|..];
    apply (always_traces _ _ _ _ _ _ (lost_create n pc L)) in T1 as [E1 [= -> ?]]; try done. subst p1.
  inversion R1 as [|m2 p pc0 tr2 pc2 p2 tr2' out2 T2 R2|m2 p pc0 tr2 pc2 T2|m2 p pc0 tr2 pc2 T2]; subst; [lia|..];
    apply (always_traces _ _ _ _ _ _ (lost_pull n pc L Hp Hn)) in T2;
    destruct T2 as [(Lt & E2 & G & L2 & Ecf)|(Ge & G & e & E2 & Ie)]; cbn in G; try done.
  - injection G as ->. cbn [fst] in L2, Ecf. destruct (IH (n + 1)%Z pc2 m2 tr2') as (-> & e & Ee & Ie); try done; try (rewrite Ecf; done || lia); try lia.
    split; [done|]. exists e. unfold permanents in *. by rewrite !omap_app, E1, E2, Ee.
  - split; [done|]. exists e. unfold permanents in *. by rewrite omap_app, E1, E2.
Qed.
End lost.

(** C20. A lost stream is reported within the budget, if the server says so. From the
    time [T] on, let every pull return an error classified as consumer gone, every
    creation of a consumer fail with stream not found, the hook be absent or fail,
    iterators open, pulls not be suppressed, and limiter and sleeps return
    uncancelled; and let the loop have a callback for permanent failures, and its
    controller no recovery in progress or cooling down. Then a loop that counted [n]
    failures so far exits after at most [2 (MaxAttempts - n)] rounds, and has then
    called the callback exactly once, with an error that wraps the stream-missing
    sentinel; and the loop does run these rounds, whatever it asks. A loop whose
    pulls only report missing heartbeats is not covered. *)
Theorem lost_stream_is_reported float_to_int T n pc m :
  losing T n pc -> hasOnPermanentFailure (config pc) = true ->
  (0 <= n < MaxAttempts (RecoveryRetry (config pc)))%Z -> (MaxAttempts (RecoveryRetry (config pc)) < 2 ^ 31)%Z ->
  (2 * (MaxAttempts (RecoveryRetry (config pc)) - n) <= Z.of_nat m)%Z ->
  (exists tr out, rounds float_to_int (lost T) m Creating pc tr out) /\
  forall tr out, rounds float_to_int (lost T) m Creating pc tr out ->
    out = Left /\ exists e, permanents tr = [e] /\ Is e ErrStreamMissing = true.
Proof.
  intros L Hp Hn Mx Hm. split; [apply rounds_exist, lost_answers|]. intros tr out R. eapply (lost_rounds float_to_int T (Z.to_nat (MaxAttempts (RecoveryRetry (config pc)) - n)) n); try done; lia.
Qed.

(** *** Witnesses *)

Definition one_attempt : partitionConsumer :=
  newPartitionConsumer
    (mkPCConfig 5000000000 false FromLastProcessed (mkRetry 200000000 (f64_const 16 10) 5000000000) 60000000000 3
       (mkRetryConfig 500000000 30000000000 1 (f64_of_Z 0)) true false false false true)
    (mkCC "worker_p1" DeliverAllPolicy 0 None) (Some 0).
Definition stream_gone : go_error := mkError [JsErrStreamNotFound] "stream not found".

(** The next operation is answered with [v]. *)
Ltac answer v :=
  match goal with
  | |- traces ?obs ?ans ?m ?tr ?a =>
      let m' := eval hnf in m in
      match m' with
      | Vis ?o ?k => change (traces obs ans (Vis o k) tr a); eapply (traces_op obs ans _ o k v)
      end
  end.

(** A round that creates the iterator, and one that finds the stream gone. *)
Lemma lost_create_trace : exists tr, traces observe (lost 0) (round (λ _, 0%Z) Creating one_attempt) tr (one_attempt, Goto Pulling).
Proof.
  eexists. answer (None : option go_error); [reflexivity|]. answer false; [reflexivity|].
  answer (None : option go_error); [reflexivity|]. answer (None : option go_error); [reflexivity|]. apply traces_ret.
Qed.

Lemma lost_pull_trace : exists tr pc, traces observe (lost 0) (round (λ _, 0%Z) Pulling one_attempt) tr (pc, Exit).
Proof.
  eexists _, _. answer (None : option go_error); [reflexivity|]. answer (Err deleted : res go_error message); [by eexists|].
  answer tt; [exact I|]. answer (None : option go_error); [reflexivity|]. answer 0%Z; [vm_compute; discriminate|]. answer 7%Z; [exact I|].
  answer (None : option go_error); [reflexivity|]. answer (Err stream_gone : res go_error handle); [by eexists|]. answer tt; [exact I|].
  apply traces_ret.
Qed.

Lemma losing_one_attempt : losing 0 0 one_attempt.
Proof. split; [reflexivity|by eexists|]. by eexists. Qed.

Lemma lost_stream_is_reported_witness :
  exists tr, rounds (λ _, 0%Z) (lost 0) 2 Creating one_attempt tr Left /\
    exists e, permanents tr = [e] /\ Is e ErrStreamMissing = true.
Proof.
  destruct lost_create_trace as [tr1 T1], lost_pull_trace as (tr2 & pc & T2).
  assert (rounds (λ _, 0%Z) (lost 0) 2 Creating one_attempt (tr1 ++ tr2) Left) as R.
  { eapply rounds_more; [exact T1|]. eapply rounds_exit, T2. }
  exists (tr1 ++ tr2). split; [exact R|].
  refine (proj2 (proj2 (lost_stream_is_reported (λ _, 0%Z) 0 0 one_attempt 2 losing_one_attempt _ _ _ _) (tr1 ++ tr2) Left R));
    vm_compute; try (split; discriminate || reflexivity); try discriminate; reflexivity.
Defined.

Lemma starting_trace : exists tr, traces observe (lost 0) (round (λ _, 0%Z) Starting one_attempt) tr (one_attempt, Goto Creating).
Proof. eexists. answer (Ok 0%Z : res go_error Z); [exact I|]. apply traces_ret. Qed.

Lemma permanent_failure_once_witness :
  exists tr e, rounds (λ _, 0%Z) (lost 0) 3 Starting one_attempt tr Left /\ EvPermanent e ∈ tr /\
    (permanents tr = [] \/ (Left = Left /\ exists tr' e, tr = tr' ++ [EvPermanent e] /\ permanents tr' = [])).
Proof.
  destruct starting_trace as [tr0 T0], lost_create_trace as [tr1 T1], lost_pull_trace as (tr2 & pc & T2).
  assert (rounds (λ _, 0%Z) (lost 0) 3 Starting one_attempt (tr0 ++ tr1 ++ tr2) Left) as R.
  { eapply rounds_more; [exact T0|]. eapply rounds_more; [exact T1|]. eapply rounds_exit, T2. }
  pose proof (lost_rounds (λ _, 0%Z) 0 1 0 one_attempt 2 (tr1 ++ tr2) Left losing_one_attempt) as L.
  destruct L as (_ & e & E & _); try done; try lia. { eapply rounds_more; [exact T1|]. eapply rounds_exit, T2. }
  exists (tr0 ++ tr1 ++ tr2), e. split; [exact R|]. split.
  - rewrite elem_of_app. right. assert (e ∈ permanents (tr1 ++ tr2)) as H by (rewrite E; left).
    apply list_elem_of_omap in H as ([] & H & He); simplify_eq. exact H.
  - exact (proj2 (permanent_failure_once (λ _, 0%Z) (lost 0) _ _ _ 3 _ Left R)).
Defined.
