(* ===== verification/Subjects.v ===== *)
(** * Subjects and durable names (internal/dynamicbuild/builder.go)

    How a partition becomes the subject and the durable consumer of its loop,
    and back. Templates are rendered by text/template, of which the code relies
    on the rendering of one placeholder in plain text ([SubjectTemplate]). *)
From S2P Require Import Prelude Resolver Partition Pattern.

(** ** Rendering *)

(** [Parse] fails or gives the rendering of a [PartitionID], which may fail. *)
Class SubjectTemplate := Parse : string -> option (string -> option string).

(** Plain text around the one placeholder. *)
Definition plain_template (pre suf : string) : Prop :=
  Index (pre +:+ partitionPlaceholder +:+ suf) "{{" = Some (String.length pre) /\ Index suf "{{" = None.

Class SubjectTemplateLaws `{SubjectTemplate} : Prop := {
  Parse_plain pre suf : plain_template pre suf ->
    exists f, Parse (pre +:+ partitionPlaceholder +:+ suf) = Some f /\ forall id, f id = Some (pre +:+ id +:+ suf);
}.

Inductive build_err := ErrParseTemplate | ErrPartitionNoKeys | ErrExecuteTemplate.

#[export] Instance build_err_eq_dec : EqDecision build_err.
Proof. solve_decision. Defined.

Definition renderSubject (tmpl : string -> option string) (p : Partition) : res build_err string :=
  if decide (length (Keys p) = 0) then Err ErrPartitionNoKeys
  else match tmpl (SubjectKey p) with Some s => Ok s | None => Err ErrExecuteTemplate end.

Fixpoint render_all (tmpl : string -> option string) (ps : list Partition) (m : gset string) : res build_err (gset string) :=
  match ps with
  | [] => Ok m
  | p :: ps' =>
      match renderSubject tmpl p with
      | Err e => Err e
      | Ok subj => render_all tmpl ps' ({[subj]} ∪ m)
      end
  end.

Definition BuildSubjects `{SubjectTemplate} (subjectTemplate : string) (ps : list Partition) : res build_err (list string) :=
  if decide (length ps = 0) then Ok []
  else
    match Parse subjectTemplate with
    | None => Err ErrParseTemplate
    | Some tmpl => (λ m, sort_strings (elements m)) <$> render_all tmpl ps ∅
    end.

Definition ExtractPartitionIDFromSubject (subject prefix suffix : string) : option string :=
  if bool_decide (prefix = "") && bool_decide (suffix = "") then None
  else if negb (String.prefix prefix subject) || negb (HasSuffix subject suffix) then None
  else
    let start := String.length prefix in
    let end_ := (String.length subject - String.length suffix)%nat in
    if decide (end_ < start)%nat then None else Some (str_take (end_ - start) (str_drop start subject)).

(** ** Durable names *)

Definition between (lo hi : N) (c : ascii) : bool := bool_decide (lo <= N_of_ascii c <= hi)%N.

(** [IsAllowedConsumerRune] of a one-byte rune: letters, digits, dash, underscore. *)
Definition IsAllowedConsumerRune (c : ascii) : bool :=
  between 97 122 c || between 65 90 c || between 48 57 c || bool_decide (c = "-"%char) || bool_decide (c = "_"%char).

(** The width of the rune at the head, as a range over a string decodes it: a
    well-formed UTF-8 sequence, or one byte. *)
Definition continues (s : string) (n : nat) : bool :=
  match String.get n s with Some c => between 128 191 c | None => false end.
Definition second_ok (a : ascii) (s : string) : bool :=
  match String.get 1 s with
  | None => false
  | Some b =>
      if bool_decide (N_of_ascii a = 224)%N then between 160 191 b
      else if bool_decide (N_of_ascii a = 237)%N then between 128 159 b
      else if bool_decide (N_of_ascii a = 240)%N then between 144 191 b
      else if bool_decide (N_of_ascii a = 244)%N then between 128 143 b
      else between 128 191 b
  end.
Definition rune_width (a : ascii) (s : string) : nat :=
  if between 194 223 a && second_ok a s then 2
  else if between 224 239 a && second_ok a s && continues s 2 then 3
  else if between 240 244 a && second_ok a s && continues s 2 && continues s 3 then 4
  else 1.

(** One unit of fuel per byte. *)
Fixpoint sanitize (fuel : nat) (name : string) : string :=
  match fuel, name with
  | S fuel, String a rest =>
      if IsAllowedConsumerRune a then String a (sanitize fuel rest)
      else String "_" (sanitize fuel (str_drop (rune_width a name) name))
  | _, _ => ""
  end.

Definition SanitizeConsumerName (name : string) : string := sanitize (String.length name) name.

Definition hex_char (n : Z) : ascii :=
  ascii_of_N (if decide (n < 10)%Z then 48 + Z.to_N n else 87 + Z.to_N n).

(** The last [n] hexadecimal digits, as [%016x] prints them. *)
Fixpoint hex_digits (n : nat) (z : Z) (acc : string) : string :=
  match n with
  | 0 => acc
  | S n => hex_digits n (z `div` 16) (String (hex_char (z `mod` 16)) acc)
  end.

Definition PerSubjectDurableName `{Xxh3} (consumerPrefix subject partitionPrefix partitionSuffix : string) : string :=
  let partID :=
    match ExtractPartitionIDFromSubject subject partitionPrefix partitionSuffix with
    | Some id => if decide (id = "") then subject else id
    | None => subject
    end in
  let s := SanitizeConsumerName partID in
  consumerPrefix +:+ "_" +:+ str_take 50 s +:+ "_" +:+ hex_digits 16 (HashString subject) "".

(** ** Facts about names *)

Lemma hex_char_inj a b : (0 <= a < 16)%Z -> (0 <= b < 16)%Z -> hex_char a = hex_char b -> a = b.
Proof.
  intros Ha Hb E. apply (f_equal N_of_ascii) in E. unfold hex_char in E.
  repeat case_decide; rewrite (N_ascii_embedding (_ + Z.to_N a)), (N_ascii_embedding (_ + Z.to_N b)) in E by lia; lia.
Qed.

Lemma hex_char_allowed a : (0 <= a < 16)%Z -> IsAllowedConsumerRune (hex_char a) = true.
Proof.
  intros Ha. assert (a ∈ seqZ 0 16) as H by (apply elem_of_seqZ; lia). vm_compute in H.
  repeat (apply elem_of_cons in H as [->|H]; [reflexivity|]). by apply elem_of_nil in H.
Qed.

Lemma hex_digits_app n z acc : hex_digits n z acc = hex_digits n z "" +:+ acc.
Proof.
  revert z acc. induction n as [|n IH]; intros z acc; [done|]. cbn [hex_digits]. rewrite IH, (IH _ (String _ "")).
  by rewrite string_app_assoc.
Qed.

Lemma hex_digits_length n z : String.length (hex_digits n z "") = n.
Proof.
  revert z. induction n as [|n IH]; intros z; [done|]. cbn [hex_digits]. rewrite hex_digits_app, string_length_app, IH. cbn. lia.
Qed.

Lemma hex_digits_inj n a b :
  (0 <= a < 16 ^ Z.of_nat n)%Z -> (0 <= b < 16 ^ Z.of_nat n)%Z -> hex_digits n a "" = hex_digits n b "" -> a = b.
Proof.
  revert a b. induction n as [|n IH]; intros a b Ha Hb E; [cbn in *; lia|].
  cbn [hex_digits] in E. rewrite hex_digits_app, (hex_digits_app _ _ (String _ "")) in E.
  apply string_app_inj_length in E as [E1 E2]; [|by rewrite !hex_digits_length]. injection E2 as E2.
  apply hex_char_inj in E2; [|apply Z.mod_pos_bound; lia..].
  rewrite Nat2Z.inj_succ, Z.pow_succ_r in Ha, Hb by lia.
  apply IH in E1; [|split; [apply Z.div_pos; lia|apply Z.div_lt_upper_bound; lia]..].
  rewrite (Z.div_mod a 16), (Z.div_mod b 16) by lia. congruence.
Qed.

Fixpoint all_allowed (s : string) : bool :=
  match s with EmptyString => true | String a s' => IsAllowedConsumerRune a && all_allowed s' end.

Lemma all_allowed_app a b : all_allowed (a +:+ b) = all_allowed a && all_allowed b.
Proof. induction a as [|c a IH]; [done|]. rewrite string_app_cons. cbn. by rewrite IH, andb_assoc. Qed.

Lemma sanitize_allowed fuel s : all_allowed (sanitize fuel s) = true.
Proof.
  revert s. induction fuel as [|fuel IH]; intros [|a s]; try done. cbn [sanitize].
  destruct (IsAllowedConsumerRune a) eqn:E; cbn [all_allowed]; [by rewrite E, IH|by rewrite IH].
Qed.

Lemma str_take_allowed n s : all_allowed s = true -> all_allowed (str_take n s) = true.
Proof.
  revert s. induction n as [|n IH]; intros [|a s]; try done. cbn. rewrite !andb_true_iff. intros [-> H]. by rewrite IH.
Qed.

Lemma str_take_length n s : String.length (str_take n s) <= n.
Proof. revert s. induction n as [|n IH]; intros [|a s]; cbn; try lia. specialize (IH s). lia. Qed.

Lemma hex_digits_allowed n z : all_allowed (hex_digits n z "") = true.
Proof.
  revert z. induction n as [|n IH]; intros z; [done|]. cbn [hex_digits]. rewrite hex_digits_app, all_allowed_app, IH. cbn.
  rewrite hex_char_allowed; [done|]. apply Z.mod_pos_bound. lia.
Qed.

(** Durable names. For every subject and template the name of its durable
    consumer has only characters NATS accepts, provided the configured prefix
    has, and at most 68 characters more than the prefix, whatever bytes the
    partition keys contain; and two subjects with different hashes never share a
    durable, whatever sanitising and truncation make of their partition parts. *)
Theorem durable_names `{Xxh3} pre s t tp ts :
  let name x := PerSubjectDurableName pre x tp ts in
  (0 <= HashString s < 2 ^ 64)%Z -> (0 <= HashString t < 2 ^ 64)%Z ->
  all_allowed (name s) = all_allowed pre /\
  String.length (name s) <= String.length pre + 68 /\
  (HashString s <> HashString t -> name s <> name t).
Proof.
  intros name Hs Ht. unfold name, PerSubjectDurableName. generalize (match ExtractPartitionIDFromSubject s tp ts with
    Some id => if decide (id = "") then s else id | None => s end) as a. generalize (match ExtractPartitionIDFromSubject t tp ts with
    Some id => if decide (id = "") then t else id | None => t end) as b. intros b a. split_and!.
  - rewrite !all_allowed_app, hex_digits_allowed, str_take_allowed by apply sanitize_allowed. by rewrite !andb_true_r.
  - rewrite !string_length_app, hex_digits_length. pose proof (str_take_length 50 (SanitizeConsumerName a)). change (String.length "_") with 1. lia.
  - intros N E. apply N. apply (hex_digits_inj 16); [lia..|].
    rewrite <- !string_app_assoc in E. pose proof (f_equal String.length E) as L. rewrite !string_length_app, !hex_digits_length in L.
    by apply string_app_inj_length in E as [_ ?]; [|rewrite !string_length_app; lia].
Qed.

(** ** Round trip *)

Lemma concat_dots_cons k k' ks : String.concat "." (k :: k' :: ks) = k +:+ String "." (String.concat "." (k' :: ks)).
Proof. done. Qed.

(** Keys without dots can be read back from their subject key. *)
Lemma concat_dots_inj ks ks' :
  ks <> [] -> ks' <> [] -> Forall (λ k, contains_char "." k = false) ks -> Forall (λ k, contains_char "." k = false) ks' ->
  String.concat "." ks = String.concat "." ks' -> ks = ks'.
Proof.
  revert ks'. induction ks as [|k ks IH]; intros ks' N N' F F' E; [done|]. destruct ks' as [|k' ks']; [done|].
  apply Forall_cons in F as [Fk F], F' as [Fk' F'].
  destruct ks as [|a ks], ks' as [|b ks']; rewrite ?concat_dots_cons in E.
  - cbn in E. by rewrite E.
  - cbn [String.concat] in E. rewrite E, contains_char_app in Fk. cbn in Fk. by rewrite orb_true_r in Fk.
  - cbn [String.concat] in E. rewrite <- E, contains_char_app in Fk'. cbn in Fk'. by rewrite orb_true_r in Fk'.
  - apply string_app_inj_sep in E as [-> E]; [|done..]. f_equal. by apply IH.
Qed.

Lemma SubjectKey_inj p q : Validate p = None -> Validate q = None -> SubjectKey p = SubjectKey q -> CanonicalID p = CanonicalID q.
Proof.
  rewrite !Validate_ok. intros (N & F & _) (N' & F' & _). unfold SubjectKey. rewrite !decide_False by (by rewrite length_zero_iff_nil).
  intros E. unfold CanonicalID. rewrite (concat_dots_inj (Keys p) (Keys q)); [done..| | |done]; eapply Forall_impl; try done; by intros k (? & ? & ?).
Qed.

Lemma string_take_drop_app a b : str_take (String.length a) (a +:+ b) = a /\ str_drop (String.length a) (a +:+ b) = b.
Proof. split; [apply str_take_app|apply str_drop_app]. Qed.

Lemma prefix_framed pre s : String.prefix pre (pre +:+ s) = true.
Proof. rewrite <- (string_app_nil_r pre) at 1. rewrite string_prefix_app. by destruct s. Qed.

(** Cutting the framing parts off a framed text. *)
Lemma cut_framed pre id suf :
  String.prefix pre (pre +:+ id +:+ suf) = true /\ HasSuffix (pre +:+ id +:+ suf) suf = true /\
  (String.length (pre +:+ id +:+ suf) - String.length suf = String.length pre + String.length id)%nat /\
  str_take (String.length id) (str_drop (String.length pre) (pre +:+ id +:+ suf)) = id.
Proof.
  assert (String.length (pre +:+ id +:+ suf) - String.length suf = String.length pre + String.length id)%nat as L.
  { rewrite !string_length_app. lia. }
  split_and!.
  - apply prefix_framed.
  - unfold HasSuffix. apply andb_true_iff. split; apply bool_decide_eq_true; [rewrite !string_length_app; lia|].
    by rewrite L, <- string_length_app, <- string_app_assoc, str_drop_app.
  - done.
  - by rewrite str_drop_app, str_take_app.
Qed.

Lemma extract_framed pre id suf : (pre <> "" \/ suf <> "") -> ExtractPartitionIDFromSubject (pre +:+ id +:+ suf) pre suf = Some id.
Proof.
  intros N. unfold ExtractPartitionIDFromSubject. destruct (cut_framed pre id suf) as (P & S & L & T).
  rewrite P, S, L. cbn [negb orb]. replace (bool_decide (pre = "") && bool_decide (suf = "")) with false
    by (destruct N; [rewrite (bool_decide_false (pre = "")) by done|rewrite (bool_decide_false (suf = "")) by done; rewrite andb_false_r]; done).
  rewrite decide_False by lia. by replace (_ + _ - _)%nat with (String.length id) by lia; rewrite T.
Qed.

Lemma gate_extract_framed g pre id suf :
  subjPrefix g = pre -> subjSuffix g = suf -> extractPartitionID g (pre +:+ id +:+ suf) = Some id.
Proof.
  intros Ep Es. unfold extractPartitionID. rewrite Ep, Es. destruct (cut_framed pre id suf) as (P & S & L & T).
  rewrite P, S, L. cbn [negb orb]. rewrite decide_False by lia. by replace (_ + _ - _)%nat with (String.length id) by lia; rewrite T.
Qed.

Lemma Index_prefix s sub : String.prefix sub s = true -> Index s sub = Some 0.
Proof. destruct s; cbn [Index]; by intros ->. Qed.

(** The placeholder of a plain template is where its first braces are. *)
Lemma Index_placeholder pre suf :
  Index (pre +:+ partitionPlaceholder +:+ suf) "{{" = Some (String.length pre) ->
  Index (pre +:+ partitionPlaceholder +:+ suf) partitionPlaceholder = Some (String.length pre).
Proof.
  induction pre as [|a pre IH].
  { intros _. apply Index_prefix, (prefix_framed partitionPlaceholder). }
  rewrite string_app_cons. set (rest := pre +:+ partitionPlaceholder +:+ suf) in *. cbn [Index String.length].
  destruct (String.prefix "{{" (String a rest)) eqn:P; [done|]. intros E.
  assert (String.prefix partitionPlaceholder (String a rest) = false) as ->.
  { apply not_true_iff_false. intros [r Er]%prefix_app. rewrite Er in P. by vm_compute in P. }
  destruct (Index rest "{{") eqn:I; [|done]. cbn in E. injection E as ->. by rewrite IH.
Qed.

Lemma ParseSubjectTemplateParts_plain pre suf : plain_template pre suf ->
  ParseSubjectTemplateParts (pre +:+ partitionPlaceholder +:+ suf) = Some (pre, suf).
Proof.
  intros [I _]. unfold ParseSubjectTemplateParts. rewrite Index_placeholder by done. cbn [mbind option_bind].
  rewrite str_take_app, <- string_app_assoc, <- string_length_app, str_drop_app. done.
Qed.

Section round_trip.
Context `{SubjectTemplateLaws}.
Context (pre suf : string) (Plain : plain_template pre suf).
Local Notation tmpl := (pre +:+ partitionPlaceholder +:+ suf).

Lemma render_all_ok f ps m :
  (forall id, f id = Some (pre +:+ id +:+ suf)) -> Forall (λ p, Keys p <> []) ps ->
  render_all f ps m = Ok (list_to_set ((λ p, pre +:+ SubjectKey p +:+ suf) <$> ps) ∪ m).
Proof.
  intros Hf F. revert m. induction F as [|p ps Hp F IH]; intros m; cbn [render_all].
  { f_equal. set_solver. }
  unfold renderSubject. rewrite decide_False by (by rewrite length_zero_iff_nil). rewrite Hf, IH. f_equal. set_solver.
Qed.

Lemma BuildSubjects_ok ps : Forall (λ p, Keys p <> []) ps ->
  BuildSubjects tmpl ps = Ok (sort_strings (elements (list_to_set ((λ p, pre +:+ SubjectKey p +:+ suf) <$> ps) : gset string))).
Proof using H0 Plain.
  intros F. unfold BuildSubjects. case_decide as E; [apply length_zero_iff_nil in E as ->; done|].
  destruct (Parse_plain pre suf Plain) as (f & -> & Hf). rewrite (render_all_ok f) by done. cbn. do 3 f_equal. set_solver.
Qed.
End round_trip.

(** C26. Every valid partition set has one subject per partition, and everyone reads
    the same partition back from it. For a plain template with some text around
    the placeholder and a valid partition set: subject generation succeeds with
    exactly the subjects of the partitions, sorted and as many as there are
    partitions; and from the subject of a partition, the helper behind durable
    names and pull gating and the processing gate both extract the key under
    which the handoff stores the partition's claim. *)
Theorem subjects_round_trip `{SubjectTemplateLaws} pre suf ps :
  plain_template pre suf -> (pre <> "" \/ suf <> "") -> ValidatePartitions ps = None ->
  exists subs, BuildSubjects (pre +:+ partitionPlaceholder +:+ suf) ps = Ok subs /\
    length subs = length ps /\ Sorted String.le subs /\
    (forall s, s ∈ subs <-> exists p, p ∈ ps /\ s = pre +:+ SubjectKey p +:+ suf) /\
    forall p, ExtractPartitionIDFromSubject (pre +:+ SubjectKey p +:+ suf) pre suf = Some (SubjectKey p) /\
      forall w cfg now g, newProcessingGate w (pre +:+ partitionPlaceholder +:+ suf) cfg now = Some g ->
        extractPartitionID g (pre +:+ SubjectKey p +:+ suf) = Some (SubjectKey p).
Proof.
  intros Plain N V. apply validate_from_ok in V as (V & D & _). eexists. split.
  { apply BuildSubjects_ok; [done|]. eapply Forall_impl; [exact V|]. by intros p [? _]%Validate_ok. }
  split_and!.
  - rewrite length_sort_strings. rewrite <- (length_fmap (λ p, pre +:+ SubjectKey p +:+ suf) ps).
    rewrite elements_list_to_set; [done|]. clear N Plain. induction ps as [|p ps IH]; [constructor|].
    rewrite fmap_cons in D |- *. apply NoDup_cons in D as [Np D]. apply Forall_cons in V as [Vp V]. constructor; [|by apply IH].
    rewrite list_elem_of_fmap. intros (q & E & Hq). apply Np, list_elem_of_fmap. exists q. split; [|done].
    rewrite Forall_forall in V. apply SubjectKey_inj; [done|by apply V|].
    apply (inj (String.append pre)) in E. apply (f_equal (λ s, str_take (String.length s - String.length suf) s)) in E.
    rewrite !string_length_app in E. replace (String.length (SubjectKey p) + String.length suf - String.length suf)%nat with (String.length (SubjectKey p)) in E by lia.
    replace (String.length (SubjectKey q) + String.length suf - String.length suf)%nat with (String.length (SubjectKey q)) in E by lia.
    by rewrite !str_take_app in E.
  - apply sort_strings_sorted.
  - intros s. rewrite elem_of_sort_strings, elem_of_elements, elem_of_list_to_set, list_elem_of_fmap. naive_solver.
  - intros p. split; [by apply extract_framed|]. intros w cfg now g G. unfold newProcessingGate in G. rewrite ParseSubjectTemplateParts_plain in G by done.
    cbn in G. injection G as <-. by apply gate_extract_framed.
Qed.

(** A renderer for templates with one placeholder. *)
Definition toy_Parse : SubjectTemplate := λ t,
  match ParseSubjectTemplateParts t with
  | Some (pre, suf) => Some (λ id, Some (pre +:+ id +:+ suf))
  | None => None
  end.

Lemma toy_Parse_laws : @SubjectTemplateLaws toy_Parse.
Proof.
  split. intros pre suf P. unfold Parse, toy_Parse. rewrite ParseSubjectTemplateParts_plain by done. by eexists.
Qed.

Definition orders_partitions : list Partition := [mkPartition ["eu"; "7"] 100 ""; mkPartition ["eu"; "12"] 100 ""].

Lemma subjects_round_trip_witness :
  @BuildSubjects toy_Parse "orders.{{.PartitionID}}" orders_partitions = Ok ["orders.eu.12"; "orders.eu.7"] /\
  exists subs, @BuildSubjects toy_Parse ("orders." +:+ partitionPlaceholder +:+ "") orders_partitions = Ok subs /\ length subs = 2.
Proof.
  split; [reflexivity|].
  destruct (@subjects_round_trip toy_Parse toy_Parse_laws "orders." "" orders_partitions) as (subs & E & L & _).
  - split; reflexivity.
  - left. discriminate.
  - reflexivity.
  - exists subs. split; [exact E|]. exact L.
Defined.

(** With the bare placeholder as template, which validation accepts, the helper
    extracts nothing while the processing gate extracts the partition. *)
Lemma bare_template_not_extracted id :
  ParseSubjectTemplateParts partitionPlaceholder = Some ("", "") /\
  ExtractPartitionIDFromSubject id "" "" = None /\
  forall g, subjPrefix g = "" -> subjSuffix g = "" -> extractPartitionID g id = Some id.
Proof.
  split_and!; [reflexivity..|]. intros g Ep Es. rewrite <- (string_app_nil_r id) at 1.
  by rewrite <- (string_app_nil_l (id +:+ "")), (gate_extract_framed g "" id "").
Qed.

Definition toy_hash : Xxh3 := {| HashString := λ s, Z.of_nat (String.length s); HashStringSeed _ _ := 0%Z; HashSeed _ _ := 0%Z; Sum64 _ := 0%Z |}.

Lemma durable_names_witness :
  @PerSubjectDurableName toy_hash "w" "o.a" "o." "" <> @PerSubjectDurableName toy_hash "w" "o.a!" "o." "".
Proof.
  destruct (@durable_names toy_hash "w" "o.a" "o.a!" "o." "") as (_ & _ & N); [vm_compute; split; discriminate || reflexivity..|].
  apply N. vm_compute. discriminate.
Defined.
