(* ===== verification/WorkerConsumer.v ===== *)
(** * The consumers of a worker (internal/durable/worker_consumer.go)

    One consumption loop per assigned subject. [UpdateWorkerConsumer] and [Close]
    hold the update lock for their whole duration, so each is one function on
    the state; what the server and the waits answer is given by the caller. A
    loop is recorded when its goroutine is started and marked when it is told to
    stop, or when it ends by itself, which may happen at any time. *)
From S2P Require Import Prelude Resolver Handoff Partition Pattern Wire Subjects.

(** ** State *)

Record config := mkWCConfig {
  ConsumerPrefix : string;
  SubjectTemplate_ : string;
  MaxConcurrentSubjects : Z;
  AllowWorkerIDChange : bool;
  ProcessingGate : option ProcessingGateConfig;
  PullGatingEnabled : bool;
  hasOwnershipResolver : bool;
  HandoffBucketName : string;
}.

(** [gate_of] is the worker ID of the processing gate around the handler, if the
    handler is wrapped; [stopped] is set by [Stop]; [exited] when [Run] has returned
    by itself, after a failure it reports as permanent. *)
Record subject_loop := mkLoop {
  loop_subject : string;
  loop_durable : string;
  loop_partition : string;
  gate_of : option string;
  stopped : bool;
  exited : bool;
}.

Definition running (l : subject_loop) : bool := negb (stopped l) && negb (exited l).

(** [subjects] names loops by their place in [loops], all loops ever started. *)
Record workerConsumer := mkWC {
  closed : bool;
  wc_workerID : string;
  subjects : gmap string nat;
  loops : list subject_loop;
  gateResolver : bool;
  gateWired : bool;
}.

Inductive update_err :=
| ErrConsumerStopped
| ErrWorkerIDRequired
| ErrWorkerIDMutation
| ErrBuildSubjects (e : build_err)
| ErrMaxSubjectsExceeded
| ErrStopContext | ErrStopTimeout
| ErrCreateConsumer (subject : string)
| ErrCreateGate
| ErrEnsureBucket | ErrStartResolver.

(** How the wait for stopping loops ended. *)
Inductive wait := AllStopped | ContextDone | TimedOut.

(** What an update is answered: which subjects' consumers could be created, and
    how the wait ended. *)
Record answers := mkAnswers { ensured : string -> bool; waited : wait }.

Section worker_consumer.
Context `{Hash : Xxh3, Templ : SubjectTemplate} (cfg : config).

Definition parts : string * string := default ("", "") (ParseSubjectTemplateParts (SubjectTemplate_ cfg)).

Definition validateUpdateParams (wc : workerConsumer) (workerID : string) : option update_err :=
  if decide (workerID = "") then Some ErrWorkerIDRequired
  else if bool_decide (wc_workerID wc <> "") && bool_decide (wc_workerID wc <> workerID) && negb (AllowWorkerIDChange cfg)
  then Some ErrWorkerIDMutation
  else None.

Definition setWorkerIDAndSnapshot (workerID : string) (wc : workerConsumer) : workerConsumer * gset string :=
  (mkWC (closed wc) workerID (subjects wc) (loops wc) (gateResolver wc) (gateWired wc), dom (subjects wc)).

Definition computeSubjectDiff (subs : list string) (existing : gset string) : list string * list string :=
  (filter (λ s, s ∉ existing) subs, elements (existing ∖ list_to_set subs)).

Definition stop_loop (id : nat) (ls : list subject_loop) : list subject_loop :=
  match ls !! id with
  | Some l => <[id := mkLoop (loop_subject l) (loop_durable l) (loop_partition l) (gate_of l) true (exited l)]> ls
  | None => ls
  end.

Definition stop_error (w : wait) : option update_err :=
  match w with AllStopped => None | ContextDone => Some ErrStopContext | TimedOut => Some ErrStopTimeout end.

(** The loops are stopped and their entries deleted, however the wait ends. *)
Definition removeSubjectLoops (w : wait) (toRemove : list string) (wc : workerConsumer) : workerConsumer * option update_err :=
  if decide (toRemove = []) then (wc, None)
  else
    let ids := omap (λ s, subjects wc !! s) toRemove in
    (mkWC (closed wc) (wc_workerID wc) (foldr delete (subjects wc) toRemove) (foldr stop_loop (loops wc) ids)
       (gateResolver wc) (gateWired wc), stop_error w).

Definition getEffectiveResolver (wc : workerConsumer) : bool := hasOwnershipResolver cfg || gateResolver wc.

(** Whether the handler is wrapped: gate enabled and a resolver to ask. *)
Definition gated (wc : workerConsumer) : bool :=
  match ProcessingGate cfg with Some g => Enabled g && getEffectiveResolver wc | None => false end.

Definition addSubjectLoop (ans : answers) (workerID subject : string) (wc : workerConsumer) : workerConsumer * option update_err :=
  let durable := PerSubjectDurableName (ConsumerPrefix cfg) subject parts.1 parts.2 in
  if negb (ensured ans subject) then (wc, Some (ErrCreateConsumer subject))
  else if gated wc && bool_decide (ParseSubjectTemplateParts (SubjectTemplate_ cfg) = None) then (wc, Some ErrCreateGate)
  else
    let partitionID := default "" (ExtractPartitionIDFromSubject subject parts.1 parts.2) in
    let l := mkLoop subject durable partitionID (if gated wc then Some workerID else None) false false in
    (mkWC (closed wc) (wc_workerID wc) (<[subject := length (loops wc)]> (subjects wc)) (loops wc ++ [l])
       (gateResolver wc) (gateWired wc || gated wc), None).

Fixpoint add_loops (ans : answers) (workerID : string) (toAdd : list string) (wc : workerConsumer) : workerConsumer * option update_err :=
  match toAdd with
  | [] => (wc, None)
  | s :: toAdd =>
      match addSubjectLoop ans workerID s wc with
      | (wc, Some e) => (wc, Some e)
      | (wc, None) => add_loops ans workerID toAdd wc
      end
  end.

Definition UpdateWorkerConsumer (ans : answers) (workerID : string) (ps : list Partition) (wc : workerConsumer) :
    workerConsumer * option update_err :=
  if closed wc then (wc, Some ErrConsumerStopped)
  else match validateUpdateParams wc workerID with
  | Some e => (wc, Some e)
  | None =>
    match BuildSubjects (SubjectTemplate_ cfg) ps with
    | Err e => (wc, Some (ErrBuildSubjects e))
    | Ok subs =>
      if decide (0 < MaxConcurrentSubjects cfg < Z.of_nat (length subs))%Z then (wc, Some ErrMaxSubjectsExceeded)
      else
        let '(wc, existing) := setWorkerIDAndSnapshot workerID wc in
        let '(toAdd, toRemove) := computeSubjectDiff subs existing in
        match removeSubjectLoops (waited ans) toRemove wc with
        | (wc, Some e) => (wc, Some e)
        | (wc, None) => add_loops ans workerID toAdd wc
        end
    end
  end.

Definition stopGateResolver (wc : workerConsumer) : workerConsumer :=
  mkWC (closed wc) (wc_workerID wc) (subjects wc) (loops wc) false (gateWired wc).

Definition Close (w : wait) (wc : workerConsumer) : workerConsumer * option update_err :=
  let wc := stopGateResolver (mkWC true (wc_workerID wc) (subjects wc) (loops wc) (gateResolver wc) (gateWired wc)) in
  (mkWC (closed wc) (wc_workerID wc) ∅ (foldr stop_loop (loops wc) (map_to_list (subjects wc)).*2) (gateResolver wc) (gateWired wc),
   match w with ContextDone => Some ErrStopContext | _ => None end).

Definition WorkerSubjects (wc : workerConsumer) : list string := sort_strings (elements (dom (subjects wc))).

(** Whether to hold back a pull: [owner_of] is the resolver's answer. *)
Definition shouldSuppressPull (owner_of : string -> option (string * HandoffState)) (wc : workerConsumer) (partitionID : string) : bool :=
  if negb (PullGatingEnabled cfg) then false
  else if negb (getEffectiveResolver wc) then false
  else
    match owner_of partitionID with
    | None => true
    | Some (owner, state) =>
        if bool_decide (owner <> wc_workerID wc) then true
        else negb (match ProcessingGate cfg with
                   | Some g => bool_decide (state ∈ AllowedStates g)
                   | None => bool_decide (state = HandoffStateStable)
                   end)
    end.

Definition Capabilities (wc : workerConsumer) : Z := if gateWired wc then CapProcessingGate else 0%Z.

(** The resolver of the gate: the configured one, or one on the handoff bucket. *)
Definition ensureGateResolver (bucket_ok start_ok : bool) (wc : workerConsumer) : res update_err workerConsumer :=
  let with_resolver := mkWC (closed wc) (wc_workerID wc) (subjects wc) (loops wc) true (gateWired wc) in
  match ProcessingGate cfg with
  | None => Ok wc
  | Some g =>
      if negb (Enabled g) then Ok wc
      else if hasOwnershipResolver cfg then Ok with_resolver
      else if decide (HandoffBucketName cfg = "") then Ok wc
      else if gateResolver wc then Ok wc
      else if negb bucket_ok then Err ErrEnsureBucket
      else if negb start_ok then Err ErrStartResolver
      else Ok with_resolver
  end.

(** After the checks of the configuration and its template have passed. *)
Definition NewWorkerConsumer (bucket_ok start_ok : bool) : res update_err workerConsumer :=
  ensureGateResolver bucket_ok start_ok (mkWC false "" ∅ [] false false).

(** ** Executions *)

(** The goroutine of a loop ends; nothing else notices. *)
Definition exit_loop (id : nat) (wc : workerConsumer) : workerConsumer :=
  mkWC (closed wc) (wc_workerID wc) (subjects wc)
    (alter (λ l, mkLoop (loop_subject l) (loop_durable l) (loop_partition l) (gate_of l) (stopped l) true) id (loops wc))
    (gateResolver wc) (gateWired wc).

Inductive wc_step : workerConsumer -> workerConsumer -> Prop :=
| step_exit id wc : wc_step wc (exit_loop id wc)
| step_update ans w ps wc : wc_step wc (UpdateWorkerConsumer ans w ps wc).1
| step_close w wc : wc_step wc (Close w wc).1.

(** ** The invariant *)

(** The loops that were not told to stop are exactly those the map names, so no
    subject has two. *)
Record WF (wc : workerConsumer) : Prop := {
  wf_live s id : subjects wc !! s = Some id -> exists l, loops wc !! id = Some l /\ loop_subject l = s /\ stopped l = false;
  wf_known id l : loops wc !! id = Some l -> stopped l = false -> subjects wc !! loop_subject l = Some id;
}.

Lemma stop_loop_lookup id i ls :
  stop_loop id ls !! i = (λ l, if decide (i = id) then mkLoop (loop_subject l) (loop_durable l) (loop_partition l) (gate_of l) true (exited l) else l) <$> ls !! i.
Proof.
  unfold stop_loop. destruct (ls !! id) as [l|] eqn:E.
  - destruct (decide (i = id)) as [->|N]; [rewrite list_lookup_insert_eq by by eapply lookup_lt_Some|rewrite list_lookup_insert_ne by done].
    + by rewrite E.
    + by destruct (ls !! i).
  - destruct (decide (i = id)) as [->|N]; [by rewrite E|by destruct (ls !! i)].
Qed.

Lemma stop_loops_lookup ids i ls :
  foldr stop_loop ls ids !! i =
  (λ l, if decide (i ∈ ids) then mkLoop (loop_subject l) (loop_durable l) (loop_partition l) (gate_of l) true (exited l) else l) <$> ls !! i.
Proof.
  induction ids as [|id ids IH]; cbn [foldr].
  { destruct (ls !! i); [|done]. cbn. by rewrite decide_False by apply not_elem_of_nil. }
  rewrite stop_loop_lookup, IH. destruct (ls !! i) as [l|]; [|done]. cbn. f_equal.
  destruct (decide (i ∈ ids)) as [H1|H1], (decide (i = id)) as [H2|H2]; cbn.
  - by rewrite decide_True by by right.
  - by rewrite decide_True by by right.
  - by rewrite decide_True by (subst; left).
  - rewrite decide_False; [done|]. by intros [|]%elem_of_cons.
Qed.

Lemma stop_loops_nil ids : foldr stop_loop [] ids = [].
Proof. induction ids as [|id ids IH]; cbn [foldr]; [done|]. by rewrite IH. Qed.

Lemma delete_all_lookup (m : gmap string nat) ks s : foldr delete m ks !! s = if decide (s ∈ ks) then None else m !! s.
Proof.
  induction ks as [|k ks IH]; cbn [foldr]; [by rewrite decide_False by apply not_elem_of_nil|].
  destruct (decide (s = k)) as [->|N]; [rewrite lookup_delete_eq, decide_True by left; done|].
  rewrite lookup_delete_ne, IH by done. destruct (decide (s ∈ ks)); [by rewrite decide_True by by right|].
  rewrite decide_False; [done|]. by intros [|]%elem_of_cons.
Qed.

(** Stopping the loops of some subjects and forgetting them. *)
Lemma WF_remove wc wc' (ks : list string) (ids : list nat) :
  WF wc -> (forall id, id ∈ ids <-> exists s, s ∈ ks /\ subjects wc !! s = Some id) ->
  (forall s, subjects wc' !! s = if decide (s ∈ ks) then None else subjects wc !! s) ->
  loops wc' = foldr stop_loop (loops wc) ids -> WF wc'.
Proof.
  intros [Lv Kn] Ids Es El. split.
  - intros s id. rewrite Es. destruct (decide (s ∈ ks)) as [|N]; [done|]. intros E. destruct (Lv s id E) as (l & Hl & Hs & St).
    exists l. split_and!; try done. rewrite El, stop_loops_lookup, Hl. cbn. rewrite decide_False; [done|].
    intros (s' & Hs' & E')%Ids. destruct (Lv s' id E') as (l' & Hl' & Hs'' & _). congruence.
  - intros id l. rewrite El, stop_loops_lookup. destruct (loops wc !! id) as [l0|] eqn:L0; [|done]. cbn.
    destruct (decide (id ∈ ids)) as [|N]; intros [= <-]; [done|]. intros St. pose proof (Kn id l0 L0 St) as K.
    rewrite Es, decide_False; [done|]. intros Hk. apply N, Ids. eauto.
Qed.

Lemma WF_add wc s l wc' :
  WF wc -> subjects wc !! s = None -> loop_subject l = s -> stopped l = false ->
  subjects wc' = <[s := length (loops wc)]> (subjects wc) -> loops wc' = loops wc ++ [l] -> WF wc'.
Proof.
  intros [Lv Kn] Ns Hs St Es El. split.
  - intros s' id. rewrite Es, El. destruct (decide (s = s')) as [<-|N].
    + rewrite lookup_insert_eq. intros [= <-]. exists l. by rewrite lookup_app_r, Nat.sub_diag by done.
    + rewrite lookup_insert_ne by done. intros E. destruct (Lv s' id E) as (l' & Hl & ? & ?). exists l'. split; [|done]. by apply lookup_app_l_Some.
  - intros id l'. rewrite Es, El. intros Hl St'. apply lookup_app_Some in Hl as [Hl|[Ge Hl]].
    + pose proof (Kn id l' Hl St') as K. rewrite lookup_insert_ne; [done|]. congruence.
    + apply list_lookup_singleton_Some in Hl as [Z <-]. rewrite Hs, lookup_insert_eq. f_equal. lia.
Qed.

Lemma removeSubjectLoops_spec w ks wc :
  let wc' := (removeSubjectLoops w ks wc).1 in
  (WF wc -> WF wc') /\ (forall s, subjects wc' !! s = if decide (s ∈ ks) then None else subjects wc !! s) /\
  closed wc' = closed wc /\ wc_workerID wc' = wc_workerID wc.
Proof.
  unfold removeSubjectLoops. case_decide as E; cbn zeta.
  { subst ks. by split_and!. }
  split_and!; try done; cbn [fst subjects]; [|intros s; apply delete_all_lookup].
  intros W. eapply (WF_remove wc _ ks _ W); [|intros s; apply delete_all_lookup|done].
  intros id. rewrite list_elem_of_omap. done.
Qed.

(** The loops a failed or successful series of additions leaves. *)
Record added (todo : list string) (workerID : string) (wc wc' : workerConsumer) : Prop := {
  added_wf : WF wc -> WF wc';
  added_keeps s id : subjects wc !! s = Some id -> subjects wc' !! s = Some id;
  added_only s : is_Some (subjects wc' !! s) -> is_Some (subjects wc !! s) \/ s ∈ todo;
  added_same : closed wc' = closed wc /\ wc_workerID wc' = wc_workerID wc;
  added_loops id l : loops wc' !! id = Some l -> loops wc !! id = Some l \/ gate_of l = None \/ gate_of l = Some workerID;
  added_prefix id l : loops wc !! id = Some l -> loops wc' !! id = Some l;
  added_new s id : subjects wc' !! s = Some id -> subjects wc !! s = None ->
    exists l, loops wc' !! id = Some l /\ running l = true;
}.

Lemma addSubjectLoop_added ans w s wc wc' e :
  subjects wc !! s = None -> addSubjectLoop ans w s wc = (wc', e) ->
  added [s] w wc wc' /\ (e = None -> is_Some (subjects wc' !! s)).
Proof.
  intros Ns. unfold addSubjectLoop. destruct (negb (ensured ans s)); [intros [= <- <-]; split; [split; auto; congruence|done]|].
  destruct (_ && _); [intros [= <- <-]; split; [split; auto; congruence|done]|]. cbn zeta. intros [= <- <-]. split; [split|]; cbn; try done.
  - intros W. eapply (WF_add wc s); [exact W|exact Ns| | |reflexivity|reflexivity]; done.
  - intros s' id E. rewrite lookup_insert_ne; congruence.
  - intros s' [id E]. destruct (decide (s = s')) as [<-|N]; [right; left|]. rewrite lookup_insert_ne in E by done. left. by eexists.
  - intros id l [Hl|[_ Hl]]%lookup_app_Some; [by left|right]. apply list_lookup_singleton_Some in Hl as [_ <-]. cbn.
    destruct (gated wc); auto.
  - intros id l Hl. by apply lookup_app_l_Some.
  - intros s' id. destruct (decide (s = s')) as [<-|N]; [|rewrite lookup_insert_ne by done; congruence].
    rewrite lookup_insert_eq. intros [= <-] _. eexists. by rewrite lookup_app_r, Nat.sub_diag by done.
  - rewrite lookup_insert_eq. by eexists.
Qed.

Lemma add_loops_added ans w todo wc wc' e :
  NoDup todo -> Forall (λ s, subjects wc !! s = None) todo -> add_loops ans w todo wc = (wc', e) ->
  added todo w wc wc' /\ (e = None -> Forall (λ s, is_Some (subjects wc' !! s)) todo).
Proof.
  revert wc. induction todo as [|s todo IH]; intros wc D F; cbn [add_loops]; [intros [= <- <-]; split; [split; auto; congruence|constructor]|].
  apply NoDup_cons in D as [Ns D]. apply Forall_cons in F as [Fs F].
  destruct (addSubjectLoop ans w s wc) as [wc1 e1] eqn:E1. apply addSubjectLoop_added in E1 as [A1 S1]; [|done].
  destruct e1 as [e1|].
  { intros [= <- <-]. split; [|done]. destruct A1 as [A B C D' G G1 G2]. split; try done. intros s' H. destruct (C s' H) as [|H']; [by left|].
    right. apply list_elem_of_singleton in H' as ->. left. }
  intros E. apply IH in E as [A2 S2]; [|done|].
  2: { rewrite Forall_forall in F |- *. intros s' Hs'. destruct (subjects wc1 !! s') eqn:E'; [|done].
       destruct (added_only _ _ _ _ A1 s') as [[? Hw]|H']; [by eexists| |].
       - by rewrite F in Hw.
       - apply list_elem_of_singleton in H' as ->. done. }
  split.
  - destruct A1, A2. split; eauto.
    + intros s' H. destruct (added_only1 s' H) as [H'|]; [|right; by right]. destruct (added_only0 s' H') as [|H'']; [by left|].
      right. apply list_elem_of_singleton in H'' as ->. left.
    + destruct added_same0, added_same1. split; congruence.
    + intros id l Hl. destruct (added_loops1 id l Hl) as [Hl'|]; [|by right]. by apply added_loops0.
    + intros s' id Hs Hn. destruct (subjects wc1 !! s') as [id'|] eqn:E'; [|by eapply added_new1].
      destruct (added_new0 s' id' E' Hn) as (l & Hl & Rl). apply added_keeps1 in E'. simplify_eq. eauto.
  - intros He. constructor; [|by apply S2]. destruct (S1 eq_refl) as [id Hid]. exists id. by apply (added_keeps _ _ _ _ A2).
Qed.

Lemma BuildSubjects_NoDup t ps subs : BuildSubjects t ps = Ok subs -> NoDup subs.
Proof.
  unfold BuildSubjects. case_decide; [intros [= <-]; constructor|]. destruct (Parse t); [|done].
  destruct (render_all o ps ∅) as [m|]; [|done]. cbn. intros [= <-]. rewrite sort_strings_perm. apply NoDup_elements.
Qed.

(** The state in which additions start, and what they are. *)
Definition prepared (w : string) (ans : answers) (subs : list string) (wc : workerConsumer) : workerConsumer :=
  (removeSubjectLoops (waited ans) (computeSubjectDiff subs (dom (subjects wc))).2 (setWorkerIDAndSnapshot w wc).1).1.

Lemma prepared_spec w ans subs wc :
  (WF wc -> WF (prepared w ans subs wc)) /\
  (forall s, subjects (prepared w ans subs wc) !! s = if decide (s ∈ subs) then subjects wc !! s else None) /\
  closed (prepared w ans subs wc) = closed wc /\ wc_workerID (prepared w ans subs wc) = w.
Proof.
  unfold prepared. destruct (removeSubjectLoops_spec (waited ans) (computeSubjectDiff subs (dom (subjects wc))).2 (setWorkerIDAndSnapshot w wc).1)
    as (W & S & C & I). split_and!; try done.
  - intros [Lv Kn]. apply W. by split.
  - intros s. rewrite S. cbn [computeSubjectDiff snd setWorkerIDAndSnapshot fst subjects].
    destruct (decide (s ∈ subs)) as [Hs|Hs].
    + rewrite decide_False; [done|]. rewrite elem_of_elements. set_solver.
    + destruct (subjects wc !! s) eqn:E; [|by destruct (decide _)]. rewrite decide_True; [done|].
      rewrite elem_of_elements, elem_of_difference, elem_of_dom, elem_of_list_to_set. split; [by eexists|done].
Qed.

(** An update that got past its checks. *)
Lemma Update_unfold ans w ps wc wc' e :
  UpdateWorkerConsumer ans w ps wc = (wc', e) ->
  (wc' = wc /\ is_Some e) \/
  exists subs, BuildSubjects (SubjectTemplate_ cfg) ps = Ok subs /\ closed wc = false /\ validateUpdateParams wc w = None /\
    ~ (0 < MaxConcurrentSubjects cfg < Z.of_nat (length subs))%Z /\
    ((wc' = prepared w ans subs wc /\ is_Some e) \/
     (added (computeSubjectDiff subs (dom (subjects wc))).1 w (prepared w ans subs wc) wc' /\
      (e = None -> Forall (λ s, is_Some (subjects wc' !! s)) (computeSubjectDiff subs (dom (subjects wc))).1))).
Proof.
  unfold UpdateWorkerConsumer. destruct (closed wc) eqn:C; [intros [= <- <-]; left; split; [done|by eexists]|].
  destruct (validateUpdateParams wc w) eqn:V; [intros [= <- <-]; left; split; [done|by eexists]|].
  destruct (BuildSubjects _ ps) as [subs|] eqn:B; [|intros [= <- <-]; left; split; [done|by eexists]].
  case_decide as M; [intros [= <- <-]; left; split; [done|by eexists]|]. intros E. right. exists subs. split_and!; try done.
  cbn [setWorkerIDAndSnapshot computeSubjectDiff] in E.
  pose proof (prepared_spec w ans subs wc) as (_ & Ps & _). unfold prepared in Ps |- *. cbn [setWorkerIDAndSnapshot computeSubjectDiff fst snd] in Ps |- *.
  destruct (removeSubjectLoops _ _ _) as [wc1 [e1|]]; [injection E as <- <-; left; split; [done|by eexists]|right].
  apply add_loops_added in E; [done|apply NoDup_filter; by eapply BuildSubjects_NoDup|].
  apply Forall_forall. intros s [Ne Hs]%list_elem_of_filter. cbn [fst] in Ps. rewrite Ps, decide_True by done. by apply not_elem_of_dom.
Qed.

Lemma prepared_loops w ans subs wc id l :
  loops (prepared w ans subs wc) !! id = Some l -> stopped l = false -> loops wc !! id = Some l.
Proof.
  unfold prepared, removeSubjectLoops. case_decide; [done|]. cbn [fst loops setWorkerIDAndSnapshot]. rewrite stop_loops_lookup.
  destruct (loops wc !! id) as [l0|]; [|done]. cbn. by destruct (decide _); intros [= <-].
Qed.

(** A subject that stays assigned keeps its loop. *)
Lemma prepared_keeps w ans subs wc s id l :
  WF wc -> subjects wc !! s = Some id -> s ∈ subs -> loops wc !! id = Some l -> loops (prepared w ans subs wc) !! id = Some l.
Proof.
  intros [Lv _] Hs Hin Hl. unfold prepared, removeSubjectLoops. case_decide; [done|]. cbn [fst loops setWorkerIDAndSnapshot].
  rewrite stop_loops_lookup, Hl. cbn. rewrite decide_False; [done|].
  intros (s' & Hs' & E')%list_elem_of_omap. cbn in Hs'. rewrite elem_of_elements in Hs'.
  destruct (Lv s id Hs) as (l1 & Hl1 & E1 & _), (Lv s' id E') as (l2 & Hl2 & E2 & _). set_solver.
Qed.

Lemma prepared_no_loops w ans subs wc : loops (prepared w ans subs wc) = [] -> loops wc = [].
Proof.
  unfold prepared, removeSubjectLoops. case_decide; [done|]. cbn [fst loops setWorkerIDAndSnapshot]. intros E.
  destruct (loops wc) as [|l ls] eqn:El; [done|]. pose proof (stop_loops_lookup (omap (λ s, subjects (setWorkerIDAndSnapshot w wc).1 !! s)
    (computeSubjectDiff subs (dom (subjects wc))).2) 0 (l :: ls)) as L. cbn [setWorkerIDAndSnapshot fst subjects] in L, E. by rewrite E in L.
Qed.

Record Inv (wc : workerConsumer) : Prop := {
  inv_wf : WF wc;
  inv_closed : closed wc = true -> subjects wc = ∅;
  inv_cap : (0 < MaxConcurrentSubjects cfg)%Z -> (Z.of_nat (size (subjects wc)) <= MaxConcurrentSubjects cfg)%Z;
  inv_fresh : wc_workerID wc = "" -> loops wc = [];
  inv_gate id l : AllowWorkerIDChange cfg = false -> loops wc !! id = Some l -> stopped l = false ->
    gate_of l = None \/ gate_of l = Some (wc_workerID wc);
}.

Lemma size_subjects (m : gmap string nat) (subs : list string) :
  (forall s, is_Some (m !! s) -> s ∈ subs) -> size m <= length subs.
Proof.
  intros Sub. rewrite <- size_dom. trans (size (list_to_set subs : gset string)); [|apply size_list_to_set_le].
  apply subseteq_size. intros s Hs. apply elem_of_list_to_set, Sub. by apply elem_of_dom.
Qed.

Lemma Update_Inv ans w ps wc : Inv wc -> Inv (UpdateWorkerConsumer ans w ps wc).1.
Proof.
  intros I. destruct (UpdateWorkerConsumer ans w ps wc) as [wc' e] eqn:E. cbn [fst].
  apply Update_unfold in E as [[-> _]|(subs & B & C & V & M & E)]; [done|].
  destruct (prepared_spec w ans subs wc) as (Pw & Ps & Pc & Pi). pose proof (inv_wf wc I) as W.
  unfold validateUpdateParams in V. destruct (decide (w = "")) as [|Nw]; [done|].
  assert (forall id l, AllowWorkerIDChange cfg = false -> loops (prepared w ans subs wc) !! id = Some l -> stopped l = false ->
    gate_of l = None \/ gate_of l = Some w) as G.
  { intros id l Al Hl St. apply prepared_loops in Hl; [|done]. destruct (inv_gate wc I id l Al Hl St) as [|Hg]; [by left|right].
    rewrite Hg. f_equal. rewrite Al in V. cbn [negb] in V. rewrite andb_true_r in V.
    destruct (decide (wc_workerID wc = "")) as [E0|N0]; [apply (inv_fresh wc I) in E0; by rewrite E0 in Hl|].
    rewrite bool_decide_true in V by done. cbn [andb] in V. destruct (decide (wc_workerID wc = w)) as [|N1]; [done|]. by rewrite bool_decide_true in V. }
  destruct E as [[-> _]|[A _]].
  - split; [by apply Pw|congruence| |by rewrite Pi|by rewrite Pi]. intros Mx.
    assert (size (subjects (prepared w ans subs wc)) <= length subs); [|lia]. apply size_subjects. intros s [id Hs]. rewrite Ps in Hs. by case_decide.
  - destruct (added_same _ _ _ _ A) as [Ac Ai]. split.
    + by apply (added_wf _ _ _ _ A), Pw.
    + congruence.
    + intros Mx. assert (size (subjects wc') <= length subs); [|lia]. apply size_subjects. intros s Hs.
      apply (added_only _ _ _ _ A) in Hs as [[id Hs]|Hs]; [rewrite Ps in Hs; by case_decide|]. by apply list_elem_of_filter in Hs as [_ ?].
    + congruence.
    + rewrite Ai, Pi. intros id l Al Hl St. apply (added_loops _ _ _ _ A) in Hl as [Hl|]; [|done]. by eapply G.
Qed.

Lemma Close_Inv w wc : Inv wc -> Inv (Close w wc).1.
Proof.
  intros I. assert (WF (Close w wc).1) as W.
  { eapply (WF_remove wc _ (map_to_list (subjects wc)).*1 _ (inv_wf wc I)); [| |reflexivity].
    - intros id. rewrite list_elem_of_fmap. setoid_rewrite list_elem_of_fmap. split.
      + intros ([s id'] & -> & Hs). exists s. split; [by exists (s, id')|by apply elem_of_map_to_list].
      + intros (s & ([s' id'] & -> & Hs) & E). exists (s', id). split; [done|]. by apply elem_of_map_to_list.
    - intros s. cbn [Close fst subjects stopGateResolver]. rewrite lookup_empty. destruct (decide _) as [|N]; [done|].
      destruct (subjects wc !! s) as [id|] eqn:E; [|done]. destruct N. apply list_elem_of_fmap. exists (s, id). split; [done|]. by apply elem_of_map_to_list. }
  split; [done|done|intros ?; cbn; rewrite map_size_empty; lia| |]; cbn [Close fst loops wc_workerID stopGateResolver].
  - intros E. rewrite (inv_fresh wc I E). apply stop_loops_nil.
  - intros id l Al Hl St. rewrite stop_loops_lookup in Hl. destruct (loops wc !! id) as [l0|] eqn:L0; [|done]. cbn in Hl.
    destruct (decide _) as [|]; injection Hl as <-; [done|]. by eapply (inv_gate wc I).
Qed.

Lemma exit_lookup id wc i :
  loops (exit_loop id wc) !! i =
  (λ l, if decide (i = id) then mkLoop (loop_subject l) (loop_durable l) (loop_partition l) (gate_of l) (stopped l) true else l)
    <$> loops wc !! i.
Proof.
  cbn [exit_loop loops]. destruct (decide (i = id)) as [->|N].
  - by rewrite list_lookup_alter_eq.
  - rewrite list_lookup_alter_ne by done. by destruct (loops wc !! i).
Qed.

Lemma exit_Inv id wc : Inv wc -> Inv (exit_loop id wc).
Proof.
  intros [[Lv Kn] C M F G]. split; [split|done|done| |].
  - intros s i Hs. destruct (Lv s i Hs) as (l & Hl & E & St). rewrite exit_lookup, Hl. cbn. eexists. split; [done|].
    by destruct (decide _).
  - intros i l. rewrite exit_lookup. destruct (loops wc !! i) as [l0|] eqn:L0; [|done]. cbn. intros [= <-] St.
    assert (stopped l0 = false) as St0 by by destruct (decide _). pose proof (Kn i l0 L0 St0). by destruct (decide _).
  - intros E. cbn. by rewrite (F E).
  - intros i l A. rewrite exit_lookup. destruct (loops wc !! i) as [l0|] eqn:L0; [|done]. cbn. intros [= <-] St.
    assert (stopped l0 = false) as St0 by by destruct (decide _). pose proof (G i l0 A L0 St0). by destruct (decide _).
Qed.

Lemma New_Inv b st wc : (0 <= MaxConcurrentSubjects cfg)%Z -> NewWorkerConsumer b st = Ok wc -> Inv wc.
Proof.
  intros M E. assert (exists r, wc = mkWC false "" ∅ [] r false) as [r ->].
  { unfold NewWorkerConsumer, ensureGateResolver in E. cbn zeta in E. repeat case_match; simplify_eq; by eexists. }
  split; [by split|done|by intros _; cbn; rewrite map_size_empty|done|done].
Qed.

Lemma wc_reachable_Inv b st wc0 wc :
  (0 <= MaxConcurrentSubjects cfg)%Z -> NewWorkerConsumer b st = Ok wc0 -> rtc wc_step wc0 wc -> Inv wc.
Proof.
  intros M N. apply (rtc_ind_r Inv); [by eapply New_Inv|]. intros wc1 wc2 _ St I.
  destruct St; [by apply exit_Inv|by apply Update_Inv|by apply Close_Inv].
Qed.


Lemma add_loops_succeeds ans w todo wc :
  is_Some (ParseSubjectTemplateParts (SubjectTemplate_ cfg)) -> (forall s, ensured ans s = true) ->
  exists wc', add_loops ans w todo wc = (wc', None).
Proof.
  intros [pr Pr] En. revert wc. induction todo as [|s todo IH]; intros wc; cbn [add_loops]; [by eexists|].
  unfold addSubjectLoop. rewrite En, Pr. cbn [negb]. rewrite bool_decide_false, andb_false_r by done. apply IH.
Qed.

Lemma Update_succeeds ans w ps wc subs :
  closed wc = false -> w <> "" -> wc_workerID wc = w -> BuildSubjects (SubjectTemplate_ cfg) ps = Ok subs ->
  ~ (0 < MaxConcurrentSubjects cfg < Z.of_nat (length subs))%Z ->
  is_Some (ParseSubjectTemplateParts (SubjectTemplate_ cfg)) -> waited ans = AllStopped -> (forall s, ensured ans s = true) ->
  exists wc', UpdateWorkerConsumer ans w ps wc = (wc', None).
Proof.
  intros C Nw Ew B M Pr Wt En. unfold UpdateWorkerConsumer, validateUpdateParams. rewrite C, decide_False, Ew by done.
  rewrite (bool_decide_false (w <> w)) by (by intros []). rewrite andb_false_r. cbn [andb]. rewrite B, decide_False by done.
  cbn [setWorkerIDAndSnapshot computeSubjectDiff]. unfold removeSubjectLoops. rewrite Wt. case_decide; by apply add_loops_succeeds.
Qed.

(** A failed update does no harm and can be repeated. When an update of a
    reachable consumer fails: if it was refused before it began (closed, worker
    ID, subject rendering, cap) nothing changed; otherwise every subject that was
    tracked and is assigned again still has the same live loop, and nothing is
    tracked that is neither tracked before nor assigned now; and repeating the
    update, when consumers can be created and loops stop, succeeds. *)
Theorem failed_update_repeatable b st wc0 wc ans w ps wc' e :
  NewWorkerConsumer b st = Ok wc0 -> rtc wc_step wc0 wc -> (0 <= MaxConcurrentSubjects cfg)%Z ->
  UpdateWorkerConsumer ans w ps wc = (wc', Some e) ->
  wc' = wc \/
  exists subs, BuildSubjects (SubjectTemplate_ cfg) ps = Ok subs /\ Inv wc' /\
    (forall s id, subjects wc !! s = Some id -> s ∈ subs -> subjects wc' !! s = Some id /\
       exists l, loops wc' !! id = Some l /\ stopped l = false) /\
    (forall s, is_Some (subjects wc' !! s) -> is_Some (subjects wc !! s) \/ s ∈ subs) /\
    (is_Some (ParseSubjectTemplateParts (SubjectTemplate_ cfg)) -> forall ans', waited ans' = AllStopped -> (forall s, ensured ans' s = true) ->
       exists wc'', UpdateWorkerConsumer ans' w ps wc' = (wc'', None)).
Proof.
  intros N R M E. pose proof (wc_reachable_Inv b st wc0 wc M N R) as I.
  pose proof (Update_Inv ans w ps wc I) as I'. rewrite E in I'. cbn [fst] in I'.
  apply Update_unfold in E as [[-> _]|(subs & B & C & V & Mx & E)]; [by left|right]. exists subs.
  destruct (prepared_spec w ans subs wc) as (_ & Ps & Pc & Pi).
  assert (w <> "") as Nw by (unfold validateUpdateParams in V; by case_decide).
  assert ((forall s id, subjects wc !! s = Some id -> s ∈ subs -> subjects wc' !! s = Some id) /\
    (forall s, is_Some (subjects wc' !! s) -> is_Some (subjects wc !! s) \/ s ∈ subs) /\ closed wc' = false /\ wc_workerID wc' = w) as (Keep & Only & Cl & Id).
  { assert (forall s, is_Some (subjects (prepared w ans subs wc) !! s) -> is_Some (subjects wc !! s) \/ s ∈ subs) as Po.
    { intros s Hs. rewrite Ps in Hs. destruct (decide (s ∈ subs)); [by right|by left]. }
    destruct E as [[-> _]|[A _]].
    - split_and!; [|done|congruence|done]. intros s id Hs Hin. by rewrite Ps, decide_True.
    - destruct (added_same _ _ _ _ A). split_and!; [| |congruence..].
      + intros s id Hs Hin. apply (added_keeps _ _ _ _ A). by rewrite Ps, decide_True.
      + intros s Hs. apply (added_only _ _ _ _ A) in Hs as [Hs|Hs]; [by apply Po|right]. by apply list_elem_of_filter in Hs as [_ ?]. }
  split_and!; try done.
  - intros s id Hs Hin. pose proof (Keep s id Hs Hin) as K. split; [done|].
    destruct (wf_live _ (inv_wf _ I') s id K) as (l & Hl & _ & St). by exists l.
  - intros Pr ans' Wt En. by eapply Update_succeeds.
Qed.
End worker_consumer.

(** ** Witnesses *)

Definition toy_config : config :=
  mkWCConfig "w" "orders.{{.PartitionID}}" 2 true (Some (mkGateConfig true [HandoffStateStable] 0 [])) true true "".
Definition toy_answers : answers := mkAnswers (λ _, true) AllStopped.
Definition toy_new : workerConsumer := mkWC false "" ∅ [] true false.
Definition toy_update := @UpdateWorkerConsumer toy_hash toy_Parse toy_config.
Definition toy_p (k : string) : Partition := mkPartition [k] 100 "".
Definition toy_first : workerConsumer := (toy_update toy_answers "w-0" [toy_p "a"; toy_p "b"] toy_new).1.


(** The consumer of c cannot be created: b goes on, and the retry succeeds. *)
Definition toy_refused : answers := mkAnswers (λ s, negb (String.eqb s "orders.c")) AllStopped.

Lemma failed_update_repeatable_witness :
  exists wc, toy_update toy_refused "w-0" [toy_p "b"; toy_p "c"] toy_first = (wc, Some (ErrCreateConsumer "orders.c")) /\
    exists wc', toy_update toy_answers "w-0" [toy_p "b"; toy_p "c"] wc = (wc', None).
Proof.
  destruct (toy_update toy_refused "w-0" [toy_p "b"; toy_p "c"] toy_first) as [wc e] eqn:E.
  assert (e = Some (ErrCreateConsumer "orders.c")) as -> by (change e with (wc, e).2; rewrite <- E; vm_compute; reflexivity).
  assert (subjects wc !! "orders.a" = None) as A by (change wc with (wc, Some (ErrCreateConsumer "orders.c")).1; rewrite <- E; vm_compute; reflexivity).
  destruct (@failed_update_repeatable toy_hash toy_Parse toy_config true true toy_new toy_first toy_refused "w-0" [toy_p "b"; toy_p "c"] wc (ErrCreateConsumer "orders.c"))
    as [->|(subs & _ & _ & _ & _ & Again)];
    [reflexivity|apply rtc_once; exact (step_update toy_config toy_answers "w-0" [toy_p "a"; toy_p "b"] toy_new)|vm_compute; discriminate|exact E|vm_compute in A; discriminate A|].
  exists wc. split; [reflexivity|]. apply Again; [vm_compute; by eexists|reflexivity|reflexivity].
Defined.

(** With [AllowWorkerIDChange], a loop kept across a change of the worker ID keeps
    the gate of the old ID, which refuses messages of partitions the new ID owns. *)
Lemma id_change_keeps_old_gate :
  let wc := (toy_update toy_answers "w-1" [toy_p "a"; toy_p "b"] toy_first).1 in
  (toy_update toy_answers "w-1" [toy_p "a"; toy_p "b"] toy_first).2 = None /\ wc_workerID wc = "w-1" /\
  gate_of <$> filter (λ l, stopped l = false) (loops wc) = [Some "w-0"; Some "w-0"].
Proof. vm_compute. split_and!; reflexivity. Qed.

(** With the bare placeholder as template no pull is ever allowed: the partition
    asked for is the empty one, whatever is owned. *)
Lemma bare_template_never_pulls `{Hash : Xxh3, Templ : SubjectTemplate} cfg ans w s wc wc' owner_of :
  SubjectTemplate_ cfg = partitionPlaceholder -> PullGatingEnabled cfg = true -> hasOwnershipResolver cfg = true ->
  addSubjectLoop cfg ans w s wc = (wc', None) -> owner_of "" = None ->
  exists l, last (loops wc') = Some l /\ loop_subject l = s /\ shouldSuppressPull cfg owner_of wc' (loop_partition l) = true.
Proof.
  intros T P O A N. unfold addSubjectLoop, parts in A. rewrite T in A. change (ParseSubjectTemplateParts partitionPlaceholder) with (Some ("", "")) in A.
  cbn [default fst snd] in A. destruct (negb _); [done|]. rewrite bool_decide_false, andb_false_r in A by done. injection A as <-.
  eexists. split; [apply last_snoc|]. split; [done|]. unfold shouldSuppressPull, getEffectiveResolver. rewrite P, O. cbn [negb orb loop_partition default].
  change (ExtractPartitionIDFromSubject s "" "") with (@None string). cbn. by rewrite N.
Qed.

(** A loop that gave up stays tracked, so an update with the same partitions reports
    success and starts nothing. *)
Lemma exited_loop_not_restarted :
  let wc := (toy_update toy_answers "w-0" [toy_p "a"; toy_p "b"] (exit_loop 0 toy_first)).1 in
  (toy_update toy_answers "w-0" [toy_p "a"; toy_p "b"] (exit_loop 0 toy_first)).2 = None /\
  WorkerSubjects wc = ["orders.a"; "orders.b"] /\ loop_subject <$> filter (λ l, running l = true) (loops wc) = ["orders.b"].
Proof. vm_compute. split_and!; reflexivity. Qed.
