(* ===== verification/WorkerMonitor.v ===== *)
(** * The worker monitor (internal/assignment/worker_monitor.go)

    The leader learns of joining and leaving workers from their heartbeat keys. A
    watcher delivers every write of a key; refreshes of workers that are known to
    be alive are suppressed, everything else starts a debounced check, and a
    ticker checks in any case. A check scans the bucket, so the watcher decides
    only when to look. Sessions of the watcher follow one another; their state
    starts empty, except for the label fingerprints, which the monitor keeps. *)
From S2P Require Import Prelude Nats Partition Float64 Wire Publisher Pattern.

(** ** State *)

Record config := mkMonitorConfig { hbPrefix : string; hbTTL : Z }.

Inductive operation := KeyValuePut | KeyValueDelete | KeyValuePurge.

#[export] Instance operation_eq_dec : EqDecision operation.
Proof. solve_decision. Defined.

Record entry := mkEntry { key : string; op_of : operation; value : string }.

Definition suppressionHolidayFactor : Z := 3.
Definition debounce_delay : Z := 100000000.
Definition workerWatcherBaseBackoff : Z := 2000000000.
Definition workerWatcherMaxBackoff : Z := 30000000000.

(** The locals of a session; [None] is the zero time, and a timer is the time at
    which it fires, if it is running. *)
Record watch := mkWatch {
  lastSeen : gmap string Z;
  unsuppressedUntil : option Z;
  suppressedCount : Z;
  pendingCheck : bool;
  debounceTimer : option Z;
}.

Definition new_watch : watch := mkWatch ∅ None 0 false None.

Section monitor.
Context `{W : Wire, Hash : Xxh3} (cfg : config).

(** ** Scans *)

Definition worker_of_key (k : string) : option string :=
  if decide (String.length (hbPrefix cfg) + 1 < String.length k /\ str_take (String.length (hbPrefix cfg)) k = hbPrefix cfg)
  then Some (str_drop (String.length (hbPrefix cfg) + 1) k)
  else None.

Definition GetActiveWorkers (keys : res go_error (list string)) : res go_error (list string) :=
  match keys with
  | Err e => if no_keys_found e then Ok [] else Err e
  | Ok ks => Ok (omap worker_of_key ks)
  end.

(** What the reads of [GetHeartbeats] answer: [expired i] is the error of the
    pass's context before the [i]-th key, [get] the value of a key. *)
Fixpoint heartbeats_loop (expired : nat -> option go_error) (get : string -> res go_error string) (i : nat) (ks : list string)
    (out : gmap string Heartbeat) : gmap string Heartbeat * option go_error :=
  match expired i with
  | Some e => (out, Some e)
  | None =>
      match ks with
      | [] => (out, None)
      | k :: ks =>
          heartbeats_loop expired get (S i) ks
            match worker_of_key k, get k with
            | Some w, Ok v => if DecodeHeartbeat v is Ok hb then <[w := hb]> out else out
            | _, _ => out
            end
      end
  end.

Definition GetHeartbeats (keys : res go_error (list string)) (expired : nat -> option go_error) (get : string -> res go_error string) :
    gmap string Heartbeat * option go_error :=
  match keys with
  | Err e => if no_keys_found e then (∅, expired 0) else (∅, Some e)
  | Ok ks => heartbeats_loop expired get 0 ks ∅
  end.

(** ** The watcher *)

Definition classifyPutSuppressed (k : string) (now : Z) (w : watch) : watch * bool :=
  let suppress :=
    match lastSeen w !! k with
    | Some prev => bool_decide (time_sub now prev < hbTTL cfg)%Z &&
        match unsuppressedUntil w with Some until => bool_decide (until < now)%Z | None => true end
    | None => false
    end in
  (mkWatch (<[k := now]> (lastSeen w)) (unsuppressedUntil w) (if suppress then uwrap64 (suppressedCount w + 1) else suppressedCount w)
     (pendingCheck w) (debounceTimer w), suppress).

Definition newline : string := String (ascii_of_nat 10) EmptyString.

Definition labelFingerprint (labels : list string) : Z :=
  match labels with
  | [] => 0
  | _ => let fp := Sum64 (String.concat newline labels) in if decide (fp = 0)%Z then 1 else fp
  end.

(** The callback for label changes is called exactly when the result is true. *)
Definition checkLabelChange (k v : string) (labelFP : gmap string Z) : gmap string Z * bool :=
  match DecodeHeartbeat v with
  | Err _ => (labelFP, false)
  | Ok hb =>
      let fp := labelFingerprint (Labels hb) in
      (<[k := fp]> labelFP, match labelFP !! k with Some prev => bool_decide (prev <> fp) | None => false end)
  end.

Definition dropLabelFingerprint (k : string) (labelFP : gmap string Z) : gmap string Z := delete k labelFP.

Definition sweepExpired (now : Z) (w : watch) : watch * bool :=
  if decide (hbTTL cfg = 0)%Z then (w, false)
  else
    let kept := filter (λ x : string * Z, time_sub now x.2 < hbTTL cfg)%Z (lastSeen w) in
    let flagged := bool_decide (kept <> lastSeen w) in
    (mkWatch kept (if flagged then Some (now + wrap64 (suppressionHolidayFactor * hbTTL cfg))%Z else unsuppressedUntil w)
       (suppressedCount w) (pendingCheck w) (debounceTimer w), flagged).

(** An entry of the watcher: the new state, the fingerprints, and whether it
    calls for a check. *)
Definition classify (now : Z) (e : entry) (w : watch) (labelFP : gmap string Z) : watch * gmap string Z * bool :=
  let '(w, labelFP, trigger) :=
    match op_of e with
    | KeyValuePut =>
        let '(w, suppressed) := classifyPutSuppressed (key e) now w in
        let '(labelFP, changed) := checkLabelChange (key e) (value e) labelFP in
        (w, labelFP, negb suppressed || changed)
    | _ =>
        (mkWatch (delete (key e) (lastSeen w)) (unsuppressedUntil w) (suppressedCount w) (pendingCheck w) (debounceTimer w),
         dropLabelFingerprint (key e) labelFP, true)
    end in
  let '(w, flagged) := sweepExpired now w in
  (w, labelFP, trigger || flagged).

Definition arm_check (now : Z) (trigger : bool) (w : watch) : watch :=
  if trigger && negb (pendingCheck w)
  then mkWatch (lastSeen w) (unsuppressedUntil w) (suppressedCount w) true (Some (now + debounce_delay)%Z)
  else w.

(** ** The monitor *)

(** [checks] are the sets of workers and the fingerprints at which this session
    of the watcher checked, the last one first, down to those it began with;
    [received] are its entries, the last one first, [dirty] is the time of the first one since the
    last check that called for one. These and [polls] are records only. *)
Record monitor := mkMonitor {
  labelFP : gmap string Z;
  session : option watch;
  backoff : Z;
  clock : Z;
  checks : list (gset string * gmap string Z);
  received : list (Z * entry);
  dirty : option Z;
  polls : nat;
}.

Definition NewWorkerMonitor (t : Z) : monitor := mkMonitor ∅ None workerWatcherBaseBackoff t [] [] None 0.

Inductive arm := Entry (e : entry) | Marker | Timer.

(** One turn of the session's loop. *)
Definition processWatcherEvents (now : Z) (a : arm) (w : watch) (m : monitor) : monitor :=
  match a with
  | Marker => mkMonitor (labelFP m) (Some w) (backoff m) now (checks m) (received m) (dirty m) (polls m)
  | Entry e =>
      let '(w', fps, trigger) := classify now e w (labelFP m) in
      mkMonitor fps (Some (arm_check now trigger w')) (backoff m) now (checks m) ((now, e) :: received m)
        (if trigger && bool_decide (dirty m = None) then Some now else dirty m) (polls m)
  | Timer =>
      let w' := mkWatch (lastSeen w) (unsuppressedUntil w) (suppressedCount w) false None in
      if pendingCheck w then
        mkMonitor (labelFP m) (Some w') (backoff m) now ((dom (lastSeen w), labelFP m) :: checks m) (received m) None (polls m)
      else mkMonitor (labelFP m) (Some w') (backoff m) now (checks m) (received m) (dirty m) (polls m)
  end.

(** The delay before the next session: the backoff times 1 up to 30 percent off. *)
Definition retry_delay (float_to_int : float64 -> Z) (f : float64) (b : Z) : Z :=
  let low := f64_sub (f64_of_Z 1) (f64_const 3 10) in
  let high := f64_add (f64_of_Z 1) (f64_const 3 10) in
  f64_to_int64 float_to_int (f64_mul (f64_of_Z b) (f64_add low (f64_mul f (f64_sub high low)))).

Definition next_backoff (b : Z) : Z := Z.min (wrap64 (b * 2)) workerWatcherMaxBackoff.

(** Sessions start, receive what the watcher delivers, and end when the channel
    closes, after which the backoff has grown; the polling ticker checks on the
    side. Time does not go back, and a timer fires when it is due. *)
Inductive step (m : monitor) : monitor -> Prop :=
| step_watch t :
    session m = None -> (clock m <= t)%Z ->
    step m (mkMonitor (labelFP m) (Some new_watch) (backoff m) t [(∅, labelFP m)] [] None (polls m))
| step_arm w t a :
    session m = Some w -> (clock m <= t)%Z ->
    match a with Timer => from_option (λ d, d <= t)%Z False (debounceTimer w) | _ => True end ->
    step m (processWatcherEvents t a w m)
| step_failed t :
    (clock m <= t)%Z ->
    step m (mkMonitor (labelFP m) None (next_backoff (backoff m)) t (checks m) (received m) (dirty m) (polls m))
| step_poll t :
    (clock m <= t)%Z ->
    step m (mkMonitor (labelFP m) (session m) (backoff m) t (checks m) (received m) (dirty m) (S (polls m))).

Definition reachable (t : Z) : monitor -> Prop := rtc step (NewWorkerMonitor t).

(** ** What the entries received say *)

Definition put (t : Z) (e : entry) (seen : gmap string Z) : gmap string Z :=
  match op_of e with KeyValuePut => <[key e := t]> seen | _ => delete (key e) seen end.

Fixpoint seen (h : list (Z * entry)) : gmap string Z :=
  match h with [] => ∅ | (t, e) :: h => put t e (seen h) end.

Definition now_of (h : list (Z * entry)) : Z := match h with [] => 0 | (t, _) :: _ => t end.

(** The workers whose last heartbeat is less than the TTL old. *)
Definition alive (now : Z) (h : list (Z * entry)) : gmap string Z := filter (λ x : string * Z, now - x.2 < hbTTL cfg)%Z (seen h).

(** The other workers whose heartbeat has expired since the entry before. *)
Definition expiring (now : Z) (e : entry) (h : list (Z * entry)) : gmap string Z :=
  filter (λ x : string * Z, x.1 <> key e /\ ~ (now - x.2 < hbTTL cfg)%Z) (alive (now_of h) h).

(** Until when refreshes are not suppressed: three TTLs from the last expiry. *)
Fixpoint holiday (h : list (Z * entry)) : option Z :=
  match h with
  | [] => None
  | (t, e) :: h => if decide (expiring t e h = ∅) then holiday h else Some (t + wrap64 (suppressionHolidayFactor * hbTTL cfg))%Z
  end.

(** An entry calls for a check when it is not a refresh of a worker that is
    alive, when it changes labels, when another worker has expired, or when
    nothing is suppressed. *)
Definition calls_for_check (now : Z) (e : entry) (h : list (Z * entry)) (fps : gmap string Z) : Prop :=
  op_of e <> KeyValuePut \/
  alive now h !! key e = None \/
  (checkLabelChange (key e) (value e) fps).2 = true \/
  expiring now e h <> ∅ \/
  from_option (λ until, now <= until)%Z False (holiday h).

Context (ttl_positive : (0 < hbTTL cfg)%Z) (ttl_int64 : (hbTTL cfg < 2 ^ 63)%Z).

Lemma time_sub_ttl now t : (time_sub now t < hbTTL cfg <-> now - t < hbTTL cfg)%Z.
Proof using ttl_int64 ttl_positive. unfold time_sub. lia. Qed.

(** What [w] has to do with the entries received. *)
Definition tracks (h : list (Z * entry)) (w : watch) : Prop :=
  lastSeen w = alive (now_of h) h /\ unsuppressedUntil w = holiday h.

Lemma put_at_ne t e m i : i <> key e -> put t e m !! i = m !! i.
Proof using. intros N. unfold put. destruct (op_of e); [by rewrite lookup_insert_ne|by rewrite lookup_delete_ne..]. Qed.

Lemma put_at t e m m' : put t e m !! key e = put t e m' !! key e.
Proof using. unfold put. destruct (op_of e); [by rewrite !lookup_insert_eq|by rewrite !lookup_delete_eq..]. Qed.

(** A sweep after the entry has been put into the map. *)
Lemma sweep_alive now e h :
  (now_of h <= now)%Z ->
  filter (λ x : string * Z, time_sub now x.2 < hbTTL cfg)%Z (put now e (alive (now_of h) h)) = alive now ((now, e) :: h).
Proof using ttl_int64 ttl_positive.
  intros L. apply map_eq. intros i. apply option_eq. intros t. unfold alive. cbn [seen].
  rewrite !map_lookup_filter_Some. cbn [snd]. rewrite time_sub_ttl. destruct (decide (i = key e)) as [->|N].
  - by rewrite (put_at now e _ (seen h)).
  - rewrite !put_at_ne, map_lookup_filter_Some by done. cbn [snd]. split; [tauto|]. intros [E ?]. split_and!; try done. lia.
Qed.

Lemma sweep_flags now e h :
  filter (λ x : string * Z, time_sub now x.2 < hbTTL cfg)%Z (put now e (alive (now_of h) h)) = put now e (alive (now_of h) h) <->
  expiring now e h = ∅.
Proof using ttl_int64 ttl_positive.
  unfold expiring. rewrite map_empty_filter. split.
  - intros E i t Hi [Ne Ex]. cbn in Ne, Ex. rewrite <- (put_at_ne now e) in Hi by done. rewrite <- E in Hi.
    apply map_lookup_filter_Some in Hi as [_ Hi]. cbn in Hi. by rewrite time_sub_ttl in Hi.
  - intros F. apply map_filter_id. intros i t Hi. cbn. apply time_sub_ttl. destruct (decide (i = key e)) as [->|N].
    + unfold put in Hi. destruct (op_of e); [rewrite lookup_insert_eq in Hi; injection Hi as <-; lia|by rewrite lookup_delete_eq in Hi..].
    + rewrite put_at_ne in Hi by done. specialize (F i t Hi). cbn in F. destruct (decide (now - t < hbTTL cfg)%Z); [done|]. by destruct F.
Qed.

(** The map after the first half of [classify]. *)
Lemma sweep_spec now e h w :
  lastSeen w = put now e (alive (now_of h) h) -> unsuppressedUntil w = holiday h -> (now_of h <= now)%Z ->
  tracks ((now, e) :: h) (sweepExpired now w).1 /\
  ((sweepExpired now w).2 = true <-> expiring now e h <> ∅) /\
  pendingCheck (sweepExpired now w).1 = pendingCheck w /\ debounceTimer (sweepExpired now w).1 = debounceTimer w.
Proof using ttl_int64 ttl_positive.
  intros E U L. unfold sweepExpired. rewrite decide_False by lia. rewrite E. pose proof (sweep_flags now e h) as F.
  assert (tracks ((now, e) :: h) (mkWatch (alive now ((now, e) :: h)) (holiday ((now, e) :: h)) (suppressedCount w) (pendingCheck w) (debounceTimer w))) as T
    by done.
  cbn zeta. rewrite !sweep_alive in * by done. cbn [holiday] in T. destruct (decide (expiring now e h = ∅)) as [Ex|Ex].
  - rewrite bool_decide_false by (intros N; by apply N, F). rewrite U. by split_and!.
  - rewrite bool_decide_true by (intros N; by apply Ex, F). by split_and!.
Qed.

Lemma alive_lookup now h k : (now_of h <= now)%Z ->
  alive now h !! k = (alive (now_of h) h !! k) ≫= (λ t, if decide (now - t < hbTTL cfg)%Z then Some t else None).
Proof using.
  intros L. unfold alive. apply option_eq. intros t. rewrite bind_Some. setoid_rewrite map_lookup_filter_Some. cbn [snd]. split.
  - intros [E ?]. exists t. split_and!; try done; [lia|]. by rewrite decide_True.
  - intros (t' & [E _] & D). case_decide; [|done]. by injection D as ->.
Qed.

(** The sweep at the end of [classify]. *)
Ltac sweeping e h w' flagged T F P D :=
  match goal with
  | Es : lastSeen _ = _, Op : op_of e = _ |- context [sweepExpired ?now ?x] =>
      destruct (sweep_spec now e h x) as (T & F & P & D); [cbn; by rewrite Es; unfold put; rewrite Op|done|done|];
      destruct (sweepExpired now x) as [w' flagged]
  end.

Lemma classify_spec now e h w fps :
  tracks h w -> (now_of h <= now)%Z ->
  let '(w', fps', trigger) := classify now e w fps in
  tracks ((now, e) :: h) w' /\ (trigger = true <-> calls_for_check now e h fps) /\
  pendingCheck w' = pendingCheck w /\ debounceTimer w' = debounceTimer w /\
  fps' = match op_of e with KeyValuePut => (checkLabelChange (key e) (value e) fps).1 | _ => delete (key e) fps end.
Proof using ttl_int64 ttl_positive.
  intros [Es Eu] L. unfold classify. destruct (op_of e) eqn:Op.
  2, 3: sweeping e h w' flagged T F P D; cbn in *; split_and!; try done; split; [intros _; left; congruence|done].
  unfold classifyPutSuppressed. set (suppress := match lastSeen w !! key e with Some _ => _ | None => _ end).
  destruct (checkLabelChange (key e) (value e) fps) as [fps1 changed] eqn:Ec.
  sweeping e h w' flagged T F P D. cbn in T, F, P, D. split_and!; try done. unfold calls_for_check. rewrite Ec, <- F, orb_true_iff, orb_true_iff, negb_true_iff. cbn [snd].
  assert (suppress = true <-> is_Some (alive now h !! key e) /\ ~ from_option (λ until, now <= until)%Z False (holiday h)) as Sp.
  { subst suppress. rewrite Es, Eu, (alive_lookup now) by done. destruct (alive (now_of h) h !! key e) as [t|]; cbn [mbind option_bind]; [|split; [done|by intros [[? [=]] _]]].
    rewrite andb_true_iff, bool_decide_eq_true, time_sub_ttl. destruct (decide (now - t < hbTTL cfg)%Z) as [Lt|Ge]; [|split; [lia|by intros [[? [=]] _]]].
    destruct (holiday h) as [u|]; cbn; [rewrite bool_decide_eq_true|]; split; [intros [_ ?]; split; [by eexists|lia]|lia|intros _; split; [by eexists|tauto]|done]. }
  destruct suppress; [destruct Sp as [[A H] _]; [done|]; destruct A as [t A]; rewrite A|destruct Sp as [_ Sp]].
  - split; [intros [[?|?]|?]; [done|tauto..]|]. intros [?|[?|[?|[?|?]]]]; try done; tauto.
  - split; [|tauto]. intros _. destruct (alive now h !! key e) as [t|] eqn:A; [|tauto].
    destruct (holiday h) as [u|]; cbn in *; [|by discriminate Sp; eauto].
    destruct (decide (now <= u)%Z); [tauto|]. discriminate Sp. by eauto.
Qed.

(** ** Entries that call for no check change nothing *)

Lemma quiet_alive now e h fps : (now_of h <= now)%Z ->
  ~ calls_for_check now e h fps -> dom (alive now ((now, e) :: h)) = dom (alive (now_of h) h).
Proof using ttl_int64 ttl_positive.
  unfold calls_for_check. intros L N. destruct (op_of e) eqn:Op; [|by destruct N; left..].
  destruct (alive now h !! key e) as [t|] eqn:A; [|by destruct N; right; left].
  destruct (decide (expiring now e h = ∅)) as [Ex|]; [|by destruct N; auto].
  rewrite <- sweep_alive by done. apply sweep_flags in Ex. rewrite Ex. unfold put. rewrite Op, dom_insert_L.
  rewrite alive_lookup in A by done. apply bind_Some in A as (t' & A & _). apply elem_of_dom_2 in A. set_solver.
Qed.

Lemma quiet_labels k v fps :
  (checkLabelChange k v fps).2 = false -> (forall hb, DecodeHeartbeat v = Ok hb -> k ∈ dom fps) -> (checkLabelChange k v fps).1 = fps.
Proof using.
  unfold checkLabelChange. destruct (DecodeHeartbeat v) as [hb|]; [|done]. cbn. intros E Kn. specialize (Kn hb eq_refl).
  apply elem_of_dom in Kn as [prev Kn]. rewrite Kn in E. apply bool_decide_eq_false, dec_stable in E. subst prev. by apply insert_id.
Qed.

(** ** Invariant *)

Definition decodes (x : Z * entry) : Prop := op_of x.2 = KeyValuePut -> exists hb, DecodeHeartbeat (value x.2) = Ok hb.

Record Inv (m : monitor) (w : watch) : Prop := {
  inv_tracks : tracks (received m) w;
  inv_clock : (now_of (received m) <= clock m)%Z;
  inv_labels : Forall decodes (received m) -> dom (lastSeen w) ⊆ dom (labelFP m);
  inv_checked : exists ws fps rest, checks m = (ws, fps) :: rest /\
    (pendingCheck w = false -> dom (lastSeen w) = ws /\ (Forall decodes (received m) -> labelFP m = fps));
  inv_timer : match dirty m with
              | Some d => pendingCheck w = true /\ debounceTimer w = Some (d + debounce_delay)%Z
              | None => pendingCheck w = false /\ debounceTimer w = None
              end;
}.

Lemma arm_check_same now tr w : lastSeen (arm_check now tr w) = lastSeen w /\ unsuppressedUntil (arm_check now tr w) = unsuppressedUntil w.
Proof using. unfold arm_check. by destruct (_ && _). Qed.

(** Labels of tracked workers are known. *)
Lemma entry_labels now e h w fps w' fps' tr :
  classify now e w fps = (w', fps', tr) -> tracks h w -> (now_of h <= now)%Z -> Forall decodes ((now, e) :: h) ->
  dom (lastSeen w) ⊆ dom fps -> dom (lastSeen w') ⊆ dom fps'.
Proof using ttl_int64 ttl_positive.
  intros E T L D Sub. pose proof (classify_spec now e h w fps T L) as C. rewrite E in C. destruct C as ([Es _] & _ & _ & _ & Ef).
  apply Forall_cons in D as [De _]. rewrite Es. cbn [now_of]. rewrite <- sweep_alive by done. etrans; [apply dom_filter_subseteq|].
  destruct T as [<- _]. subst fps'. unfold put. destruct (op_of e) eqn:Op; [|rewrite !dom_delete_L; set_solver..].
  destruct (De Op) as [hb Dh]. cbn in Dh. unfold checkLabelChange. rewrite Dh. cbn. rewrite !dom_insert_L. set_solver.
Qed.

Lemma entry_Inv now e m w : Inv m w -> (clock m <= now)%Z ->
  exists w', session (processWatcherEvents now (Entry e) w m) = Some w' /\ Inv (processWatcherEvents now (Entry e) w m) w'.
Proof using ttl_int64 ttl_positive.
  intros [T L Lb (ws & fps & rest & Ec & Q) Tm] Hn. cbn [processWatcherEvents].
  pose proof (classify_spec now e (received m) w (labelFP m) T ltac:(lia)) as C.
  destruct (classify now e w (labelFP m)) as [[w' fps'] tr] eqn:Ecl. destruct C as (T' & Tr & P & D & Ef). eexists. split; [reflexivity|].
  destruct (arm_check_same now tr w') as [As Au].
  split; cbn [received clock labelFP checks dirty].
  - destruct T'. split; congruence.
  - cbn. lia.
  - intros Dc. rewrite As. eapply entry_labels; [exact Ecl|exact T|lia|exact Dc|]. apply Lb. by apply Forall_cons in Dc as [_ ?].
  - exists ws, fps, rest. split; [done|]. unfold arm_check. rewrite P. destruct tr.
    { destruct (pendingCheck w) eqn:Pw; cbn; [|done]. intros Pf. congruence. }
    cbn [andb]. rewrite P. intros Pf. destruct (Q Pf) as [Qd Qf].
    assert (~ calls_for_check now e (received m) (labelFP m)) as N by (intros N; by apply Tr in N).
    destruct T as [Es _], T' as [Es' _]. split.
    + rewrite Es'. cbn [now_of]. rewrite (quiet_alive now e (received m) (labelFP m)) by (done || lia). congruence.
    + intros Dc. pose proof Dc as [De Dr]%Forall_cons. rewrite <- (Qf Dr). subst fps'.
      unfold calls_for_check in N. destruct (op_of e) eqn:Op; [|by destruct N; left..]. apply quiet_labels.
      * destruct (_.2) eqn:Ch; [|done]. destruct N. auto.
      * intros _ _. apply Lb; [done|]. rewrite Es. destruct (alive now (received m) !! key e) as [t|] eqn:A; [|by destruct N; auto].
        rewrite (alive_lookup now) in A by lia. apply bind_Some in A as (? & A & _). by eapply elem_of_dom_2.
  - unfold arm_check. rewrite P. destruct (dirty m) as [d|]; destruct Tm as [Pw Tw]; rewrite Pw; destruct tr; cbn; split; try done; congruence.
Qed.

Lemma step_keeps_session m m' : step m m' -> (0 <= clock m)%Z -> (forall w, session m = Some w -> Inv m w) ->
  (0 <= clock m')%Z /\ forall w, session m' = Some w -> Inv m' w.
Proof using ttl_int64 ttl_positive.
  intros St Z0 I. destruct St as [t Es Ht|w t a Es Ht En|t Ht|t Ht].
  - split; [cbn; lia|]. intros w [= <-]. split; cbn; try done; [lia|]. by exists ∅, (labelFP m), [].
  - specialize (I w Es). split; [destruct a; cbn; [by destruct (classify _ _ _ _) as [[? ?] ?]; cbn; lia|lia|by destruct (pendingCheck w); cbn; lia]|].
    destruct a as [e| |].
    + destruct (entry_Inv t e m w I Ht) as (w' & E & I'). intros w2 E2. by replace w2 with w' by congruence.
    + intros w' [= <-]. destruct I. split; try done. cbn. lia.
    + destruct I as [T L Lb C Tm]. cbn [processWatcherEvents]. destruct (pendingCheck w) eqn:P; intros w' [= <-].
      * split; cbn; try done; [lia|]. eexists _, _, _. split; [done|]. done.
      * destruct (dirty m) eqn:Dm; [by destruct Tm|]. destruct C as (ws & fps & rest & Ec & Q). split; cbn; try done; [lia|].
        exists ws, fps, rest. split; [done|]. auto.
  - split; [cbn; lia|done].
  - split; [cbn; lia|]. intros w Es. destruct (I w Es). split; try done. cbn. lia.
Qed.

Lemma reachable_session t m : (0 <= t)%Z -> reachable t m -> (0 <= clock m)%Z /\ forall w, session m = Some w -> Inv m w.
Proof using ttl_int64 ttl_positive.
  intros Ht. apply (rtc_ind_r (λ m, (0 <= clock m)%Z /\ forall w, session m = Some w -> Inv m w)); [done|].
  intros m1 m2 _ St [Z0 I]. by eapply step_keeps_session.
Qed.

(** ** Theorems *)

(** C13. No change of the fleet goes unchecked. In every execution of the monitor,
    over any number of watcher sessions, a running session tracks exactly the
    workers whose last write it received is a heartbeat less than the TTL old;
    while no check is pending these are the workers at its last check, down to
    none at its start, and, if the payloads it received decode, the label
    fingerprints are those at that check; and from the first entry on that called
    for a check the timer is set to 100 milliseconds after that entry, and firing
    it checks with the current workers and labels. *)
Theorem changes_are_checked t m w :
  (0 <= t)%Z -> reachable t m -> session m = Some w ->
  lastSeen w = alive (now_of (received m)) (received m) /\
  (exists ws fps rest, checks m = (ws, fps) :: rest /\
     (pendingCheck w = false -> dom (lastSeen w) = ws /\ (Forall decodes (received m) -> labelFP m = fps))) /\
  (pendingCheck w = true <-> is_Some (dirty m)) /\
  forall d, dirty m = Some d -> debounceTimer w = Some (d + debounce_delay)%Z /\
    forall t', (clock m <= t')%Z -> (d + debounce_delay <= t')%Z ->
      exists m' w', step m m' /\ session m' = Some w' /\ pendingCheck w' = false /\
        checks m' = (dom (lastSeen w), labelFP m) :: checks m.
Proof using ttl_int64 ttl_positive.
  intros Ht R Es. destruct (reachable_session t m Ht R) as [_ I]. destruct (I w Es) as [[T _] L Lb C Tm]. split_and!; try done.
  - destruct (dirty m); destruct Tm as [-> _]; split; try done; by intros [? ?].
  - intros d Ed. rewrite Ed in Tm. destruct Tm as [P D]. split; [done|]. intros t' Hc Hd.
    eexists _, _. split; [apply (step_arm m w t' Timer); [done|done|by rewrite D]|]. cbn [processWatcherEvents]. rewrite P. by split_and!.
Qed.

(** C14. The watcher checks when it has to, and only then. In every reachable state
    of a session an entry calls for a check if and only if it is a deletion, the
    heartbeat of a worker that was not alive, a heartbeat with other labels than
    the last one, or any entry when another worker's heartbeat expired since the
    entry before or within three TTLs of such an expiry. *)
Theorem watch_triggers_exactly t m w now e :
  (0 <= t)%Z -> reachable t m -> session m = Some w -> (clock m <= now)%Z ->
  (classify now e w (labelFP m)).2 = true <-> calls_for_check now e (received m) (labelFP m).
Proof using ttl_int64 ttl_positive.
  intros Ht R Es Hn. destruct (reachable_session t m Ht R) as [_ I]. destruct (I w Es) as [T L _ _ _].
  pose proof (classify_spec now e (received m) w (labelFP m) T ltac:(lia)) as C. destruct (classify _ _ _ _) as [[? ?] ?]. apply C.
Qed.
End monitor.

(** *** Scans *)

(** A scan finds exactly the workers whose heartbeat keys are listed. *)
Lemma scan_finds_workers cfg ws :
  Forall (λ w, w <> "") ws -> GetActiveWorkers cfg (Ok ((λ w, hbPrefix cfg +:+ "." +:+ w) <$> ws)) = Ok ws.
Proof.
  intros F. cbn [GetActiveWorkers]. f_equal. induction F as [|w ws Hw _ IH]; [done|]. cbn [fmap list_fmap omap list_omap].
  unfold worker_of_key at 1. rewrite decide_True.
  - rewrite <- string_app_assoc. replace (String.length (hbPrefix cfg) + 1) with (String.length (hbPrefix cfg +:+ ".")) by (by rewrite string_length_app).
    rewrite str_drop_app. f_equal. exact IH.
  - rewrite str_take_app, !string_length_app. split; [|done]. destruct w; [done|]. cbn. lia.
Qed.

(** The client answers that there are no keys when the context ends before the
    first one. [GetHeartbeats] reports that as an error, [GetActiveWorkers] as an
    empty fleet. *)
Lemma expired_scan_is_empty_fleet `{Wire} cfg e get :
  let timed_out := mkError [JsErrNoKeysFound] "nats: no keys found" in
  GetActiveWorkers cfg (Err timed_out) = Ok [] /\ GetHeartbeats cfg (Err timed_out) (λ _, Some e) get = (∅, Some e).
Proof. done. Qed.

(** *** Witnesses *)

Definition toy_heartbeats : Wire := {|
  marshal_payload _ := ""; marshal_commit _ := ""; unmarshal_commit _ := None; marshal_commit_log _ := ""; unmarshal_commit_log _ := None;
  marshal_assignment _ := ""; unmarshal_assignment _ := None;
  unmarshal_heartbeat := λ s, Some (mkHeartbeat "a" 1 1 [s] 0 0 0 0 false 0 0);
  parse_RFC3339Nano _ := None; parse_RFC3339 _ := None; sha256 s := s; gzip s := s; gunzip := Some;
|}.
Definition toy_sum : Xxh3 := {| HashString := λ s, Z.of_nat (String.length s); HashStringSeed _ _ := 0%Z; HashSeed _ _ := 0%Z; Sum64 s := Z.of_nat (String.length s) |}.
Definition toy_cfg : config := mkMonitorConfig "hb" 15000000000.
Definition toy_join : entry := mkEntry "hb.a" KeyValuePut "{gpu".

(** A session that has received the first heartbeat of a worker. *)
Definition toy_session : monitor :=
  @processWatcherEvents toy_heartbeats toy_sum toy_cfg 1 (Entry toy_join) new_watch
    (mkMonitor ∅ (Some new_watch) workerWatcherBaseBackoff 0 [(∅, ∅)] [] None 0).
Definition toy_watch : watch := mkWatch {["hb.a" := 1%Z]} None 0 true (Some (1 + debounce_delay)%Z).

Lemma toy_session_reachable : @reachable toy_heartbeats toy_sum toy_cfg 0 toy_session.
Proof.
  eapply rtc_l; [apply (step_watch toy_cfg _ 0); [reflexivity|cbn; lia]|]. apply rtc_once.
  apply (@step_arm toy_heartbeats toy_sum toy_cfg _ new_watch 1 (Entry toy_join)); [reflexivity|cbn; lia|exact I].
Qed.

Lemma changes_are_checked_witness :
  session toy_session = Some toy_watch /\ debounceTimer toy_watch = Some (1 + debounce_delay)%Z /\
  exists m', @step toy_heartbeats toy_sum toy_cfg toy_session m' /\ exists rest, checks m' = ({["hb.a"]}, labelFP toy_session) :: rest.
Proof.
  assert (session toy_session = Some toy_watch) as Es by (vm_compute; reflexivity).
  destruct (@changes_are_checked toy_heartbeats toy_sum toy_cfg ltac:(reflexivity) ltac:(reflexivity) 0 toy_session toy_watch)
    as (_ & _ & _ & D); [lia|exact toy_session_reachable|exact Es|].
  destruct (D 1%Z) as [T S]; [vm_compute; reflexivity|]. split; [exact Es|]. split; [exact T|].
  destruct (S (1 + debounce_delay)%Z) as (m' & w' & St & _ & _ & C); [vm_compute; discriminate|lia|].
  exists m'. split; [exact St|]. exists (checks toy_session). rewrite C. do 2 f_equal.
Defined.

Lemma watch_triggers_exactly_witness :
  (@classify toy_heartbeats toy_sum toy_cfg 2 (mkEntry "hb.a" KeyValueDelete "") toy_watch (labelFP toy_session)).2 = true.
Proof.
  apply (@watch_triggers_exactly toy_heartbeats toy_sum toy_cfg ltac:(reflexivity) ltac:(reflexivity) 0 toy_session toy_watch);
    [lia|exact toy_session_reachable|vm_compute; reflexivity|vm_compute; discriminate|]. left. discriminate.
Defined.

(** A refresh of a live worker within the TTL, with the same labels, is left alone. *)
Example refresh_is_suppressed :
  (@classify toy_heartbeats toy_sum toy_cfg 5000000000 toy_join toy_watch (labelFP toy_session)).2 = false.
Proof. vm_compute. reflexivity. Qed.
