(* ===== verification/Provision.v ===== *)
(** * Provisioning (provision/)

    [Plan] compares a declared configuration with the live streams and buckets
    and lists actions; [Apply] executes them, re-reading each resource first. Both
    are programs over the JetStream API; what the server answers, and what other
    operators do in between, is up to the environment. Of the detail of a drift
    finding the names of the fields are kept, not the values printed with them, and
    the messages of the errors are shortened. *)
From S2P Require Import Prelude Nats Effects Partition Pattern.

(** ** JetStream configurations *)

Inductive StorageType := FileStorage | MemoryStorage.
Inductive RetentionPolicy := LimitsPolicy | InterestPolicy | WorkQueuePolicy.
Inductive DiscardPolicy := DiscardOld | DiscardNew.

#[export] Instance StorageType_eq_dec : EqDecision StorageType.
Proof. solve_decision. Defined.
#[export] Instance RetentionPolicy_eq_dec : EqDecision RetentionPolicy.
Proof. solve_decision. Defined.
#[export] Instance DiscardPolicy_eq_dec : EqDecision DiscardPolicy.
Proof. solve_decision. Defined.

(** The fields provisioning only copies. *)
Record copied := mkCopied {
  Placement : option string;
  RePublish : option string;
  Mirror : option string;
  Sources : list string;
  Compression : bool;
  DeleteMarkerTTL : Z;
}.

Record StreamConfig := mkStream {
  Name : string;
  s_Description : string;
  Subjects : list string;
  Retention : RetentionPolicy;
  MaxMsgs : Z;
  s_MaxBytes : Z;
  Discard : DiscardPolicy;
  MaxAge : Z;
  MaxMsgsPerSubject : Z;
  MaxMsgSize : Z;
  s_Storage : StorageType;
  s_Replicas : Z;
  s_copied : copied;
  s_Metadata : gmap string string;
}.

Record KeyValueConfig := mkKV {
  Bucket : string;
  Description : string;
  MaxValueSize : Z;
  History : Z;
  TTL : Z;
  MaxBytes : Z;
  Storage : StorageType;
  Replicas : Z;
  kv_copied : copied;
  Metadata : gmap string string;
}.

Definition no_copied : copied := mkCopied None None None [] false 0.
Definition kvStreamPrefix : string := "KV_".

(** ** Configuration (config.go, policy.go) *)

Definition PolicyWarn : string := "warn".
Definition PolicyAdopt : string := "adopt".
Definition PolicySafeUpdate : string := "safe-update".
Definition PolicyForce : string := "force".

Definition policyReconcilesMutable (p : string) : bool := bool_decide (p = PolicySafeUpdate) || bool_decide (p = PolicyForce).
Definition policyRecreatesImmutable (p : string) : bool := bool_decide (p = PolicyForce).

Record ControlPlaneConfig := mkControlPlane {
  StableIDBucket : string;
  ElectionBucket : string;
  HeartbeatBucket : string;
  AssignmentBucket : string;
  HandoffBucket : string;
  WorkerIDTTL : Z;
  ElectionTimeout : Z;
  HeartbeatTTL : Z;
  AssignmentTTL : Z;
  HandoffTTL : Z;
  EnableTwoPhaseHandoff : bool;
  cp_Replicas : Z;
  cp_AllowDeleteRecreate : bool;
}.

Record PartitionSourceConfig := mkPartitionSource {
  ps_Bucket : string;
  ps_Key : string;
  ps_Replicas : Z;
  ps_Storage : string;
  ps_History : Z;
  ps_MaxValueSize : Z;
  ps_TTL : Z;
  ps_AllowDeleteRecreate : bool;
}.

Record StreamCfg := mkStreamCfg {
  sc_Name : string;
  sc_Subjects : list string;
  sc_Retention : string;
  sc_Storage : string;
  sc_Discard : string;
  sc_Replicas : Z;
  sc_MaxAge : Z;
  sc_MaxBytes : Z;
  sc_MaxMsgs : Z;
  sc_Description : string;
  sc_AllowDeleteRecreate : bool;
}.

Record Config := mkConfig {
  APIVersion : string;
  Instance_ : string;
  Policy : string;
  ControlPlane : option ControlPlaneConfig;
  PartitionSource : option PartitionSourceConfig;
  Streams : list StreamCfg;
}.

(** ** Defaults and validation (validate.go) *)

Definition or_default (d s : string) : string := if decide (s = "") then d else s.

Definition normalize_control_plane (cp : ControlPlaneConfig) : ControlPlaneConfig :=
  mkControlPlane (or_default "parti-stableid" (StableIDBucket cp)) (or_default "parti-election" (ElectionBucket cp))
    (or_default "parti-heartbeat" (HeartbeatBucket cp)) (or_default "parti-assignment" (AssignmentBucket cp))
    (or_default "parti-handoff" (HandoffBucket cp)) (WorkerIDTTL cp) (ElectionTimeout cp) (HeartbeatTTL cp) (AssignmentTTL cp)
    (HandoffTTL cp) (EnableTwoPhaseHandoff cp) (cp_Replicas cp) (cp_AllowDeleteRecreate cp).

Definition normalize_partition_source (ps : PartitionSourceConfig) : PartitionSourceConfig :=
  mkPartitionSource (ps_Bucket ps) (ps_Key ps) (ps_Replicas ps) (or_default "file" (ps_Storage ps))
    (if decide (ps_History ps = 0)%Z then 1 else ps_History ps) (ps_MaxValueSize ps) (ps_TTL ps) (ps_AllowDeleteRecreate ps).

Definition normalize_stream (s : StreamCfg) : StreamCfg :=
  mkStreamCfg (sc_Name s) (sc_Subjects s) (or_default "limits" (sc_Retention s)) (or_default "file" (sc_Storage s))
    (or_default "old" (sc_Discard s)) (sc_Replicas s) (sc_MaxAge s) (sc_MaxBytes s) (sc_MaxMsgs s) (sc_Description s)
    (sc_AllowDeleteRecreate s).

Definition invalid (text : string) : go_error := mkError [ErrInvalidConfig] text.

Definition normalize (cfg : Config) : res go_error Config :=
  if decide (APIVersion cfg <> "parti.io/v1") then Err (invalid "apiVersion is not supported")
  else Ok (mkConfig (APIVersion cfg) (Instance_ cfg) (or_default PolicyWarn (Policy cfg))
    (normalize_control_plane <$> ControlPlane cfg) (normalize_partition_source <$> PartitionSource cfg) (normalize_stream <$> Streams cfg)).

Definition validateControlPlane (cp : ControlPlaneConfig) : option go_error :=
  if decide (StableIDBucket cp = "") then Some (invalid "controlPlane.stableIdBucket")
  else if decide (ElectionBucket cp = "") then Some (invalid "controlPlane.electionBucket")
  else if decide (HeartbeatBucket cp = "") then Some (invalid "controlPlane.heartbeatBucket")
  else if decide (AssignmentBucket cp = "") then Some (invalid "controlPlane.assignmentBucket")
  else if EnableTwoPhaseHandoff cp && bool_decide (HandoffBucket cp = "") then Some (invalid "controlPlane.handoffBucket")
  else if decide (WorkerIDTTL cp <= 0)%Z then Some (invalid "controlPlane.workerIdTtl")
  else if decide (ElectionTimeout cp <= 0)%Z then Some (invalid "controlPlane.electionTimeout")
  else if decide (HeartbeatTTL cp <= 0)%Z then Some (invalid "controlPlane.heartbeatTtl")
  else if decide (AssignmentTTL cp < 0)%Z then Some (invalid "controlPlane.assignmentTtl")
  else if EnableTwoPhaseHandoff cp && bool_decide (HandoffTTL cp <= 0)%Z then Some (invalid "controlPlane.handoffTtl")
  else if decide (cp_Replicas cp < 0)%Z then Some (invalid "controlPlane.replicas")
  else None.

Definition validatePartitionSource (ps : PartitionSourceConfig) : option go_error :=
  if decide (ps_Bucket ps = "") then Some (invalid "partitionSource.bucket")
  else if decide (ps_Key ps = "") then Some (invalid "partitionSource.key")
  else if decide (ps_Storage ps <> "file" /\ ps_Storage ps <> "memory") then Some (invalid "partitionSource.storage")
  else if decide (ps_Replicas ps < 0)%Z then Some (invalid "partitionSource.replicas")
  else if decide (ps_MaxValueSize ps < 0)%Z then Some (invalid "partitionSource.maxValueSize")
  else if decide (ps_TTL ps < 0)%Z then Some (invalid "partitionSource.ttl")
  else None.

Definition bytes (l : list nat) : string := foldr (λ n s, String (ascii_of_nat n) s) "" l.

(** The characters [unicode.IsSpace] accepts, in UTF-8. *)
Definition spaces : list string :=
  bytes <$> ([[9]; [10]; [11]; [12]; [13]; [32]; [194; 133]; [194; 160]; [225; 154; 128]] ++
             ((λ n, [226; 128; n]) <$> (seq 128 11 ++ [168; 169; 175])) ++ [[226; 129; 159]; [227; 128; 128]]).

Fixpoint has_space (s : string) : bool :=
  match s with
  | EmptyString => false
  | String _ s' => existsb (λ x, String.prefix x s) spaces || has_space s'
  end.

Fixpoint validateStreams (seen : gset string) (ss : list StreamCfg) : option go_error :=
  match ss with
  | [] => None
  | s :: ss =>
      if decide (sc_Name s = "") then Some (invalid "streams.name")
      else if decide (sc_Name s ∈ seen) then Some (invalid "streams.name is a duplicate")
      else if decide (sc_Subjects s = []) then Some (invalid "streams.subjects")
      else if existsb (λ x, bool_decide (x = "") || has_space x) (sc_Subjects s) then Some (invalid "streams.subjects")
      else if decide (sc_Retention s ∉ ["limits"; "workqueue"; "interest"]) then Some (invalid "streams.retention")
      else if decide (sc_Storage s ∉ ["file"; "memory"]) then Some (invalid "streams.storage")
      else if decide (sc_Discard s ∉ ["old"; "new"]) then Some (invalid "streams.discard")
      else if decide (sc_Replicas s < 0)%Z then Some (invalid "streams.replicas")
      else if decide (sc_MaxAge s < 0)%Z then Some (invalid "streams.maxAge")
      else if decide (sc_MaxBytes s < 0)%Z then Some (invalid "streams.maxBytes")
      else if decide (sc_MaxMsgs s < 0)%Z then Some (invalid "streams.maxMsgs")
      else validateStreams ({[sc_Name s]} ∪ seen) ss
  end.

Definition validateResolved (cfg : Config) : option go_error :=
  if decide (Policy cfg ∉ [PolicyWarn; PolicyAdopt; PolicySafeUpdate; PolicyForce]) then Some (invalid "policy is not recognized")
  else match ControlPlane cfg ≫= validateControlPlane with
  | Some e => Some e
  | None => match PartitionSource cfg ≫= validatePartitionSource with
            | Some e => Some e
            | None => validateStreams ∅ (Streams cfg)
            end
  end.

(** ** Ownership markers (marker.go) *)

Definition MarkerManagedKey : string := "parti.io/managed".
Definition MarkerComponentKey : string := "parti.io/component".
Definition MarkerInstanceKey : string := "parti.io/instance".
Definition MarkerManagedValue : string := "v1".

Definition ComponentControlPlaneID : string := "control-plane:id".
Definition ComponentControlPlaneElection : string := "control-plane:election".
Definition ComponentControlPlaneHeartbeat : string := "control-plane:heartbeat".
Definition ComponentControlPlaneAssignment : string := "control-plane:assignment".
Definition ComponentControlPlaneHandoff : string := "control-plane:handoff".
Definition ComponentPartitionSource : string := "partition-source".
Definition ComponentDynamicConsumer : string := "dynamic-consumer".
Definition ComponentStream : string := "stream".
Definition ComponentUnknown : string := "unknown".

Definition components : list string :=
  [ComponentControlPlaneID; ComponentControlPlaneElection; ComponentControlPlaneHeartbeat; ComponentControlPlaneAssignment;
   ComponentControlPlaneHandoff; ComponentPartitionSource; ComponentDynamicConsumer; ComponentStream].

Record MarkerInfo := mkMarker { Managed : string; Component : string; MarkerInstance : string }.

Definition IsManaged (m : MarkerInfo) : bool := bool_decide (Managed m <> "").

(** Reading a missing key of a map gives the empty string. *)
Definition value_of (md : gmap string string) (k : string) : string := default "" (md !! k).

Definition ParseMarker (md : gmap string string) : MarkerInfo :=
  let managed := value_of md MarkerManagedKey in
  let component := value_of md MarkerComponentKey in
  mkMarker managed
    (if decide (managed = "") then "" else if decide (component ∈ components) then component else ComponentUnknown)
    (value_of md MarkerInstanceKey).

Definition BuildMarker (component instance : string) : gmap string string :=
  let m := {[MarkerManagedKey := MarkerManagedValue; MarkerComponentKey := component]} in
  if decide (instance = "") then m else <[MarkerInstanceKey := instance]> m.

Definition mergeMarkerMetadata (live : gmap string string) (component instance : string) : gmap string string :=
  let merged := BuildMarker component instance ∪ live in
  if decide (instance = "") then delete MarkerInstanceKey merged else merged.

Definition mergeUpdateKVMetadata (live : gmap string string) (instance : string) : gmap string string :=
  let merged := <[MarkerManagedKey := MarkerManagedValue]> live in
  if decide (instance = "") then delete MarkerInstanceKey merged else <[MarkerInstanceKey := instance]> merged.

Definition keysAddedOrChanged (live merged : gmap string string) : list string :=
  sort_strings (elements (filter (λ k, live !! k <> merged !! k) (dom live ∪ dom merged))).

(** ** Comparisons (kvequal.go, plan_streams.go) *)

Definition normalizeReplicas (r : Z) : Z := if decide (r = 0)%Z then 1 else r.
Definition normalizeMaxValueSize (s : Z) : Z := if decide (s = 0)%Z then -1 else s.
Definition normalizeStreamLimit (v : Z) : Z := if decide (v = 0)%Z then -1 else v.

Definition kvConfigsEqual (a b : KeyValueConfig) : bool :=
  bool_decide (normalizeReplicas (Replicas a) = normalizeReplicas (Replicas b)) &&
  bool_decide (normalizeMaxValueSize (MaxValueSize a) = normalizeMaxValueSize (MaxValueSize b)) &&
  bool_decide (TTL a = TTL b) && bool_decide (Metadata a = Metadata b) && bool_decide (History a = History b) &&
  bool_decide (Storage a = Storage b).

Definition historyFromStream (n : Z) : Z := Z.max 0 (Z.min 255 n).

(** [strings.TrimPrefix] *)
Definition TrimPrefix (s prefix : string) : string := if String.prefix prefix s then str_drop (String.length prefix) s else s.

Definition streamConfigToKVConfig (sc : StreamConfig) : KeyValueConfig :=
  mkKV (TrimPrefix (Name sc) kvStreamPrefix) (s_Description sc) (MaxMsgSize sc) (historyFromStream (MaxMsgsPerSubject sc)) (MaxAge sc)
    (s_MaxBytes sc) (s_Storage sc) (s_Replicas sc) (s_copied sc) (s_Metadata sc).

Definition streamConfigsEqual (a b : StreamConfig) : bool :=
  bool_decide (sort_strings (Subjects a) = sort_strings (Subjects b)) &&
  bool_decide (s_Storage a = s_Storage b) && bool_decide (Retention a = Retention b) && bool_decide (Discard a = Discard b) &&
  bool_decide (normalizeReplicas (s_Replicas a) = normalizeReplicas (s_Replicas b)) && bool_decide (MaxAge a = MaxAge b) &&
  bool_decide (normalizeStreamLimit (s_MaxBytes a) = normalizeStreamLimit (s_MaxBytes b)) &&
  bool_decide (normalizeStreamLimit (MaxMsgs a) = normalizeStreamLimit (MaxMsgs b)) &&
  bool_decide (s_Description a = s_Description b) && bool_decide (s_Metadata a = s_Metadata b).

Definition storageTypeFromString (s : string) : StorageType := if decide (s = "memory") then MemoryStorage else FileStorage.
Definition retentionPolicyFromString (s : string) : RetentionPolicy :=
  if decide (s = "workqueue") then WorkQueuePolicy else if decide (s = "interest") then InterestPolicy else LimitsPolicy.
Definition discardPolicyFromString (s : string) : DiscardPolicy := if decide (s = "new") then DiscardNew else DiscardOld.

(** ** Targets (plan.go, partition_source.go, plan_streams.go) *)

Record controlPlaneSpec := mkSpec { component : string; bucket : string; ttl : Z; storage : StorageType; replicas : Z }.

Definition buildControlPlaneSpecs (cp : ControlPlaneConfig) : list controlPlaneSpec :=
  [mkSpec ComponentControlPlaneID (StableIDBucket cp) (WorkerIDTTL cp) FileStorage (cp_Replicas cp);
   mkSpec ComponentControlPlaneElection (ElectionBucket cp) (ElectionTimeout cp) MemoryStorage (cp_Replicas cp);
   mkSpec ComponentControlPlaneHeartbeat (HeartbeatBucket cp) (HeartbeatTTL cp) MemoryStorage (cp_Replicas cp);
   mkSpec ComponentControlPlaneAssignment (AssignmentBucket cp) (AssignmentTTL cp) FileStorage (cp_Replicas cp)] ++
  (if EnableTwoPhaseHandoff cp then [mkSpec ComponentControlPlaneHandoff (HandoffBucket cp) 0 FileStorage (cp_Replicas cp)] else []).

(** internal/kvbuckets *)
Definition BuildKeyValueConfig (bucket : string) (ttl : Z) (storage : StorageType) : KeyValueConfig :=
  mkKV bucket "" 0 1 (if decide (0 < ttl)%Z then ttl else 0) 0 storage 0 no_copied ∅.

Definition newCreateKV (spec : controlPlaneSpec) (instance : string) : KeyValueConfig :=
  let kv := BuildKeyValueConfig (bucket spec) (ttl spec) (storage spec) in
  mkKV (Bucket kv) (Description kv) (MaxValueSize kv) (History kv) (TTL kv) (MaxBytes kv) (Storage kv)
    (if decide (0 < replicas spec)%Z then replicas spec else Replicas kv) (kv_copied kv) (BuildMarker (component spec) instance).

Definition wantedControlPlaneKV (spec : controlPlaneSpec) (instance : string) (live : KeyValueConfig) : KeyValueConfig :=
  mkKV (Bucket live) (Description live) (MaxValueSize live) 1 (ttl spec) (MaxBytes live) (storage spec) (replicas spec) (kv_copied live)
    (mergeMarkerMetadata (Metadata live) (component spec) instance).

Definition buildControlPlaneUpdateTarget (spec : controlPlaneSpec) (instance : string) (before : KeyValueConfig) : KeyValueConfig :=
  mkKV (Bucket before) (Description before) (MaxValueSize before) (History before) (ttl spec) (MaxBytes before) (Storage before)
    (replicas spec) (kv_copied before) (mergeUpdateKVMetadata (Metadata before) instance).

Definition buildPartitionSourceKVConfig (ps : PartitionSourceConfig) : KeyValueConfig :=
  mkKV (ps_Bucket ps) "" (ps_MaxValueSize ps) (ps_History ps) (if decide (0 < ps_TTL ps)%Z then ps_TTL ps else 0) 0
    (storageTypeFromString (ps_Storage ps)) (ps_Replicas ps) no_copied ∅.

Definition createPartitionSource (ps : PartitionSourceConfig) (instance : string) : KeyValueConfig :=
  let kv := buildPartitionSourceKVConfig ps in
  mkKV (Bucket kv) (Description kv) (MaxValueSize kv) (History kv) (TTL kv) (MaxBytes kv) (Storage kv) (Replicas kv) (kv_copied kv)
    (BuildMarker ComponentPartitionSource instance).

Definition wantedPartitionSourceKV (ps : PartitionSourceConfig) (instance : string) (live : KeyValueConfig) : KeyValueConfig :=
  mkKV (Bucket live) (Description live) (ps_MaxValueSize ps) (ps_History ps) (ps_TTL ps) (MaxBytes live)
    (storageTypeFromString (ps_Storage ps)) (ps_Replicas ps) (kv_copied live)
    (mergeMarkerMetadata (Metadata live) ComponentPartitionSource instance).

Definition buildPartitionSourceUpdateTarget (ps : PartitionSourceConfig) (instance : string) (before : KeyValueConfig) : KeyValueConfig :=
  mkKV (Bucket before) (Description before) (ps_MaxValueSize ps) (History before) (ps_TTL ps) (MaxBytes before) (Storage before)
    (ps_Replicas ps) (kv_copied before) (mergeUpdateKVMetadata (Metadata before) instance).

Definition buildStreamConfig (s : StreamCfg) (instance : string) : StreamConfig :=
  mkStream (sc_Name s) (sc_Description s) (sc_Subjects s) (retentionPolicyFromString (sc_Retention s)) (normalizeStreamLimit (sc_MaxMsgs s))
    (normalizeStreamLimit (sc_MaxBytes s)) (discardPolicyFromString (sc_Discard s)) (sc_MaxAge s) 0 0 (storageTypeFromString (sc_Storage s))
    (sc_Replicas s) no_copied (BuildMarker ComponentStream instance).

Definition wantedStreamConfig (s : StreamCfg) (instance : string) (live : StreamConfig) : StreamConfig :=
  mkStream (Name live) (sc_Description s) (sc_Subjects s) (retentionPolicyFromString (sc_Retention s)) (normalizeStreamLimit (sc_MaxMsgs s))
    (normalizeStreamLimit (sc_MaxBytes s)) (discardPolicyFromString (sc_Discard s)) (sc_MaxAge s) (MaxMsgsPerSubject live) (MaxMsgSize live)
    (storageTypeFromString (sc_Storage s)) (sc_Replicas s) (s_copied live) (mergeMarkerMetadata (s_Metadata live) ComponentStream instance).

Definition buildStreamUpdateTarget (s : StreamCfg) (instance : string) (live : StreamConfig) : StreamConfig :=
  mkStream (Name live) (sc_Description s) (sc_Subjects s) (Retention live) (normalizeStreamLimit (sc_MaxMsgs s))
    (normalizeStreamLimit (sc_MaxBytes s)) (discardPolicyFromString (sc_Discard s)) (sc_MaxAge s) (MaxMsgsPerSubject live) (MaxMsgSize live)
    (s_Storage live) (sc_Replicas s) (s_copied live) (mergeUpdateKVMetadata (s_Metadata live) instance).

(** ** Drift (drift_builder.go) *)

Definition SeverityInformational : string := "informational".
Definition SeverityDriftMutable : string := "drift-mutable".
Definition SeverityDriftImmutable : string := "drift-immutable".
Definition SeverityAdopted : string := "adopted".

Definition KindControlPlaneKV : string := "control-plane-kv".
Definition KindPartitionSource : string := "partition-source-kv".
Definition KindApplicationStream : string := "application-stream".

Record DriftFinding := mkFinding { Severity : string; d_Kind : string; d_Name : string; Detail : list string }.

Record driftBuilder := mkDrift { mutable : list string; immutable : list string }.

Definition addImmutable (differs : bool) (field : string) (b : driftBuilder) : driftBuilder :=
  if differs then mkDrift (mutable b) (immutable b ++ [field]) else b.
Definition addMutable (differs : bool) (field : string) (b : driftBuilder) : driftBuilder :=
  if differs then mkDrift (mutable b ++ [field]) (immutable b) else b.

Definition findings (kind name : string) (b : driftBuilder) : list DriftFinding :=
  (if decide (immutable b = []) then [] else [mkFinding SeverityDriftImmutable kind name (immutable b)]) ++
  (if decide (mutable b = []) then [] else [mkFinding SeverityDriftMutable kind name (mutable b)]).

Definition no_drift : driftBuilder := mkDrift [] [].

(** The two answers every classifier gives before it looks at fields. *)
Definition classify (kind name component : string) (md : gmap string string) (in_sync : bool) (drift : driftBuilder) : list DriftFinding :=
  if negb (IsManaged (ParseMarker md)) then [mkFinding SeverityAdopted kind name ["component"; "reason"]]
  else if in_sync then [mkFinding SeverityInformational kind name ["component"]]
  else findings kind name drift.

Definition classifyControlPlaneDrift (spec : controlPlaneSpec) (info : StreamConfig) (instance : string) : list DriftFinding :=
  let marker := ParseMarker (s_Metadata info) in
  let live := streamConfigToKVConfig info in
  let wanted := wantedControlPlaneKV spec instance live in
  classify KindControlPlaneKV (bucket spec) (component spec) (s_Metadata info) (kvConfigsEqual wanted live)
   (addImmutable (bool_decide (Component marker <> component spec)) "component"
   (addMutable (bool_decide (MarkerInstance marker <> instance)) "instance"
   (addMutable (bool_decide (Managed marker <> MarkerManagedValue)) "managed"
   (addMutable (bool_decide (normalizeReplicas (Replicas live) <> normalizeReplicas (Replicas wanted))) "replicas"
   (addMutable (bool_decide (TTL live <> TTL wanted)) "ttl"
   (addImmutable (bool_decide (History live <> History wanted)) "history"
   (addImmutable (bool_decide (Storage live <> Storage wanted)) "storage" no_drift))))))).

Definition classifyPartitionSourceDrift (ps : PartitionSourceConfig) (info : StreamConfig) (instance : string) : list DriftFinding :=
  let marker := ParseMarker (s_Metadata info) in
  let live := streamConfigToKVConfig info in
  let wanted := wantedPartitionSourceKV ps instance live in
  classify KindPartitionSource (ps_Bucket ps) ComponentPartitionSource (s_Metadata info) (kvConfigsEqual wanted live)
   (addMutable (bool_decide (MarkerInstance marker <> instance)) "instance"
   (addImmutable (bool_decide (Component marker <> ComponentPartitionSource)) "component"
   (addMutable (bool_decide (Managed marker <> MarkerManagedValue)) "managed"
   (addMutable (bool_decide (TTL live <> TTL wanted)) "ttl"
   (addMutable (bool_decide (normalizeMaxValueSize (MaxValueSize live) <> normalizeMaxValueSize (MaxValueSize wanted))) "maxValueSize"
   (addMutable (bool_decide (normalizeReplicas (Replicas live) <> normalizeReplicas (Replicas wanted))) "replicas"
   (addImmutable (bool_decide (History live <> History wanted)) "history"
   (addImmutable (bool_decide (Storage live <> Storage wanted)) "storage" no_drift)))))))).

Definition routeStreamFieldDrift (live wanted : StreamConfig) (marker : MarkerInfo) (instance : string) (b : driftBuilder) : driftBuilder :=
   addImmutable (bool_decide (Component marker <> ComponentStream)) "component"
   (addMutable (bool_decide (MarkerInstance marker <> instance)) "instance"
   (addMutable (bool_decide (Managed marker <> MarkerManagedValue)) "managed"
   (addMutable (bool_decide (s_Description live <> s_Description wanted)) "description"
   (addMutable (bool_decide (normalizeStreamLimit (MaxMsgs live) <> normalizeStreamLimit (MaxMsgs wanted))) "maxMsgs"
   (addMutable (bool_decide (normalizeStreamLimit (s_MaxBytes live) <> normalizeStreamLimit (s_MaxBytes wanted))) "maxBytes"
   (addMutable (bool_decide (MaxAge live <> MaxAge wanted)) "maxAge"
   (addMutable (bool_decide (normalizeReplicas (s_Replicas live) <> normalizeReplicas (s_Replicas wanted))) "replicas"
   (addMutable (bool_decide (Discard live <> Discard wanted)) "discard"
   (addMutable (bool_decide (sort_strings (Subjects live) <> sort_strings (Subjects wanted))) "subjects"
   (addImmutable (bool_decide (Retention live <> Retention wanted)) "retention"
   (addImmutable (bool_decide (s_Storage live <> s_Storage wanted)) "storage" b))))))))))).

Definition classifyStreamDrift (s : StreamCfg) (live : StreamConfig) (instance : string) : list DriftFinding :=
  let wanted := wantedStreamConfig s instance live in
  classify KindApplicationStream (sc_Name s) ComponentStream (s_Metadata live) (streamConfigsEqual wanted live)
    (routeStreamFieldDrift live wanted (ParseMarker (s_Metadata live)) instance no_drift).

Definition immutableFindingDetail (fs : list DriftFinding) : option (list string) :=
  Detail <$> head (filter (λ f, Severity f = SeverityDriftImmutable) fs).

Definition missingUnderAdoptFinding (kind name : string) : DriftFinding := mkFinding SeverityInformational kind name ["reason"].

(** ** Actions (types.go) *)

Inductive resource :=
| ResCreateKV (cfg : KeyValueConfig)
| ResUpdateKV (before after : KeyValueConfig)
| ResStampMarker (bucket : string) (merged : gmap string string) (keys : list string)
| ResRecreateKV (before after : KeyValueConfig) (drift : list string)
| ResCreateStream (cfg : StreamConfig)
| ResUpdateStream (before after : StreamConfig)
| ResStampStream (stream : string) (merged : gmap string string) (keys : list string)
| ResRecreateStream (before after : StreamConfig) (drift : list string).

Definition ActionCreateKV : string := "create-kv".
Definition ActionUpdateKV : string := "update-kv".
Definition ActionStampMarker : string := "stamp-marker".
Definition ActionRecreateKV : string := "recreate-kv".
Definition ActionCreateStream : string := "create-stream".
Definition ActionUpdateStream : string := "update-stream".
Definition ActionStampStreamMarker : string := "stamp-stream-marker".
Definition ActionRecreateStream : string := "recreate-stream".

Record PlannedAction := mkAction { Kind : string; a_Name : string; Resource : resource }.

Record PlanResult := mkPlan { Actions : list PlannedAction; Drift : list DriftFinding }.

(** ** The JetStream API *)

(** [Lookup] is [js.Stream], [Info] the call of [Info] on its result. [Probe] is
    the live validation, which only reads. *)
Inductive op : Type -> Type :=
| CtxErr : op (option go_error)
| Probe : op (option go_error)
| Lookup (name : string) : op (option go_error)
| Info (name : string) : op (res go_error StreamConfig)
| CreateKeyValue (cfg : KeyValueConfig) : op (option go_error)
| UpdateKeyValue (cfg : KeyValueConfig) : op (option go_error)
| DeleteKeyValue (bucket : string) : op (option go_error)
| CreateStream (cfg : StreamConfig) : op (option go_error)
| UpdateStream (cfg : StreamConfig) : op (option go_error)
| DeleteStream (name : string) : op (option go_error).

Notation prog := (Effects.prog op).
Notation call := (@trigger op _).

(** ** Plan *)

Definition newStampMarkerAction (bucket component instance : string) (live : StreamConfig) : PlannedAction :=
  let merged := mergeMarkerMetadata (s_Metadata live) component instance in
  mkAction ActionStampMarker bucket (ResStampMarker bucket merged (keysAddedOrChanged (s_Metadata live) merged)).

Definition newStampStreamMarkerAction (name instance : string) (live : StreamConfig) : PlannedAction :=
  let merged := mergeMarkerMetadata (s_Metadata live) ComponentStream instance in
  mkAction ActionStampStreamMarker name (ResStampStream name merged (keysAddedOrChanged (s_Metadata live) merged)).

(** What the planning of one resource adds, or the error it ends with. *)
Notation planned := (list PlannedAction * list DriftFinding)%type.

Definition wrap_error (text : string) (e : go_error) : go_error := mkError (wraps e) (text +:+ Nats.message e).

(** Find a resource and hand it to [found], or say it is missing. *)
Definition inspect (name : string) (missing : planned) (found : StreamConfig -> planned) : prog (res go_error planned) :=
  err ← call (Lookup name);
  match err with
  | Some e => Ret (if Is e JsErrStreamNotFound then Ok missing else Err (wrap_error ("provision: lookup " +:+ name +:+ ": ") e))
  | None =>
      info ← call (Info name);
      Ret match info with Err e => Err (wrap_error ("provision: info " +:+ name +:+ ": ") e) | Ok sc => Ok (found sc) end
  end.

Section plan.
Context (cfg : Config).

Definition plan_bucket_found (kind_findings : list DriftFinding) (allow : bool) (name component : string) (after : KeyValueConfig)
    (target : KeyValueConfig -> KeyValueConfig) (info : StreamConfig) : planned :=
  let marked := IsManaged (ParseMarker (s_Metadata info)) in
  let before := streamConfigToKVConfig info in
  let update := if policyReconcilesMutable (Policy cfg) && marked && negb (kvConfigsEqual before (target before))
                then [mkAction ActionUpdateKV name (ResUpdateKV before (target before))] else [] in
  let stamp := if bool_decide (Policy cfg = PolicyAdopt) && negb marked then [newStampMarkerAction name component (Instance_ cfg) info] else [] in
  match immutableFindingDetail kind_findings with
  | Some drift =>
      if policyRecreatesImmutable (Policy cfg) && marked && allow
      then ([mkAction ActionRecreateKV name (ResRecreateKV before after drift)], kind_findings)
      else (update ++ stamp, kind_findings)
  | None => (update ++ stamp, kind_findings)
  end.

Definition plan_missing (kind name : string) (create : PlannedAction) : planned :=
  if decide (Policy cfg = PolicyAdopt) then ([], [missingUnderAdoptFinding kind name]) else ([create], []).

Definition planControlPlane_one (cp : ControlPlaneConfig) (spec : controlPlaneSpec) : prog (res go_error planned) :=
  inspect (kvStreamPrefix +:+ bucket spec)
    (plan_missing KindControlPlaneKV (bucket spec) (mkAction ActionCreateKV (bucket spec) (ResCreateKV (newCreateKV spec (Instance_ cfg)))))
    (λ info, plan_bucket_found (classifyControlPlaneDrift spec info (Instance_ cfg)) (cp_AllowDeleteRecreate cp) (bucket spec) (component spec)
       (newCreateKV spec (Instance_ cfg)) (buildControlPlaneUpdateTarget spec (Instance_ cfg)) info).

(** Plan the resources of a list, looking at the context before each. *)
Fixpoint plan_each {A} (one : A -> prog (res go_error planned)) (l : list A) : prog (res go_error planned) :=
  match l with
  | [] => Ret (Ok ([], []))
  | x :: l =>
      ctxErr ← call CtxErr;
      match ctxErr with
      | Some e => Ret (Err e)
      | None =>
          r ← one x;
          match r with
          | Err e => Ret (Err e)
          | Ok (as1, ds1) =>
              rest ← plan_each one l;
              Ret match rest with Err e => Err e | Ok (as2, ds2) => Ok (as1 ++ as2, ds1 ++ ds2) end
          end
      end
  end.

Definition planControlPlane (cp : ControlPlaneConfig) : prog (res go_error planned) :=
  plan_each (planControlPlane_one cp) (buildControlPlaneSpecs cp).

Definition planPartitionSource (ps : PartitionSourceConfig) : prog (res go_error planned) :=
  inspect (kvStreamPrefix +:+ ps_Bucket ps)
    (plan_missing KindPartitionSource (ps_Bucket ps)
       (mkAction ActionCreateKV (ps_Bucket ps) (ResCreateKV (createPartitionSource ps (Instance_ cfg)))))
    (λ info, plan_bucket_found (classifyPartitionSourceDrift ps info (Instance_ cfg)) (ps_AllowDeleteRecreate ps) (ps_Bucket ps)
       ComponentPartitionSource (createPartitionSource ps (Instance_ cfg)) (buildPartitionSourceUpdateTarget ps (Instance_ cfg)) info).

Definition plan_stream_found (s : StreamCfg) (live : StreamConfig) : planned :=
  let fs := classifyStreamDrift s live (Instance_ cfg) in
  let marked := IsManaged (ParseMarker (s_Metadata live)) in
  let target := buildStreamUpdateTarget s (Instance_ cfg) live in
  let update := if policyReconcilesMutable (Policy cfg) && marked && negb (streamConfigsEqual live target)
                then [mkAction ActionUpdateStream (sc_Name s) (ResUpdateStream live target)] else [] in
  let stamp := if bool_decide (Policy cfg = PolicyAdopt) && negb marked then [newStampStreamMarkerAction (sc_Name s) (Instance_ cfg) live] else [] in
  match immutableFindingDetail fs with
  | Some drift =>
      if policyRecreatesImmutable (Policy cfg) && marked && sc_AllowDeleteRecreate s
      then ([mkAction ActionRecreateStream (sc_Name s) (ResRecreateStream live (buildStreamConfig s (Instance_ cfg)) drift)], fs)
      else (update ++ stamp, fs)
  | None => (update ++ stamp, fs)
  end.

Definition planStreams_one (s : StreamCfg) : prog (res go_error planned) :=
  inspect (sc_Name s)
    (plan_missing KindApplicationStream (sc_Name s)
       (mkAction ActionCreateStream (sc_Name s) (ResCreateStream (buildStreamConfig s (Instance_ cfg)))))
    (plan_stream_found s).

Definition planStreams : prog (res go_error planned) := plan_each planStreams_one (Streams cfg).

(** A cancelled context wins over the error of a step. *)
Definition runPlanStep (step : prog (res go_error planned)) : prog (res go_error planned) :=
  r ← step;
  match r with
  | Err e => ctxErr ← call CtxErr; Ret (Err (default e ctxErr))
  | Ok x => Ret (Ok x)
  end.
End plan.

(** [slices.SortStableFunc] *)
Fixpoint insert_by {A} (le : A -> A -> bool) (x : A) (l : list A) : list A :=
  match l with
  | [] => [x]
  | y :: l' => if le x y then x :: l else y :: insert_by le x l'
  end.
Definition sort_by {A} (le : A -> A -> bool) (l : list A) : list A := foldr (insert_by le) [] l.

Definition kind_name_le (a b : string * string) : bool :=
  if decide (a.1 = b.1) then bool_decide (String.le a.2 b.2) else bool_decide (String.le a.1 b.1).

Definition sortActions (l : list PlannedAction) : list PlannedAction :=
  sort_by (λ a b, kind_name_le (Kind a, a_Name a) (Kind b, a_Name b)) l.
Definition sortDrift (l : list DriftFinding) : list DriftFinding :=
  sort_by (λ a b, kind_name_le (d_Kind a, d_Name a) (d_Kind b, d_Name b)) l.

(** The steps of a plan on a resolved configuration. *)
Definition plan_steps (cfg : Config) : list (prog (res go_error planned)) :=
  (match ControlPlane cfg with Some cp => [planControlPlane cfg cp] | None => [] end) ++
  (match PartitionSource cfg with Some ps => [planPartitionSource cfg ps] | None => [] end) ++
  (match Streams cfg with [] => [] | _ => [planStreams cfg] end).

Fixpoint run_steps (steps : list (prog (res go_error planned))) (acc : planned) : prog (res go_error planned) :=
  match steps with
  | [] => Ret (Ok acc)
  | s :: steps =>
      r ← runPlanStep s;
      match r with
      | Err e => Ret (Err e)
      | Ok (actions, drift) => run_steps steps (acc.1 ++ actions, acc.2 ++ drift)
      end
  end.

Definition plan_resolved (cfg : Config) : prog (res go_error PlanResult) :=
  r ← run_steps (plan_steps cfg) ([], []);
  Ret match r with Err e => Err e | Ok (actions, drift) => Ok (mkPlan (sortActions actions) (sortDrift drift)) end.

Definition resolve (cfg : Config) : res go_error Config :=
  match normalize cfg with
  | Err e => Err e
  | Ok cfg => match validateResolved cfg with Some e => Err e | None => Ok cfg end
  end.

Definition Plan (cfg : Config) : prog (res go_error PlanResult) :=
  ctxErr ← call CtxErr;
  match ctxErr with
  | Some e => Ret (Err e)
  | None => match resolve cfg with Err e => Ret (Err e) | Ok cfg => plan_resolved cfg end
  end.

(** ** Reports (types.go) *)

Definition SkipReasonContextCancelled : string := "context-cancelled".
Definition SkipReasonPriorError : string := "prior-error".

Record ExecutedAction := mkExecuted { x_Kind : string; x_Name : string; Raced : bool }.
Record SkippedAction := mkSkipped { k_Kind : string; k_Name : string; Reason : string }.
Record ResourceError := mkResourceError { r_Kind : string; r_Name : string; Error : string }.

Record Report := mkReport {
  Executed : list ExecutedAction;
  Skipped : list SkippedAction;
  Errors : list ResourceError;
  Aborted : bool;
}.

Definition newReport : Report := mkReport [] [] [] false.

Definition appendSkipped (report : Report) (actions : list PlannedAction) (reason : string) : Report :=
  mkReport (Executed report) (Skipped report ++ ((λ a, mkSkipped (Kind a) (a_Name a) reason) <$> actions)) (Errors report) (Aborted report).

(** ** Re-reading (apply_reread.go) *)

Definition cancelled (e : go_error) : bool := Is e ContextCanceled || Is e ContextDeadlineExceeded.

Definition StreamInfo (name : string) : prog (res go_error StreamConfig) :=
  err ← call (Lookup name);
  match err with
  | Some e => Ret (Err e)
  | None => call (Info name)
  end.

Definition reReadForUpdate (name : string) (missingErr : go_error) : prog (res go_error StreamConfig) :=
  info ← StreamInfo name;
  Ret match info with
      | Err e => Err (if Is e JsErrStreamNotFound then missingErr else if cancelled e then e else wrap_error ("re-read " +:+ name +:+ ": ") e)
      | Ok sc => Ok sc
      end.

(** [Ok None] is the answer for a resource that is gone. *)
Definition reReadForRecreate (name : string) (notFoundErrs : list sentinel) : prog (res go_error (option StreamConfig)) :=
  info ← StreamInfo name;
  Ret match info with
      | Err e => if existsb (Is e) notFoundErrs then Ok None
                 else Err (if cancelled e then e else wrap_error ("re-read " +:+ name +:+ ": ") e)
      | Ok sc => Ok (Some sc)
      end.

(** ** Executing an action (apply.go, apply_update.go, apply_stream.go, apply_recreate.go) *)

(** The outcome of an action: what is reported as executed, or an error. *)
Definition outcome : Type := res go_error ExecutedAction.

Definition executed (raced : bool) (a : PlannedAction) : outcome := Ok (mkExecuted (Kind a) (a_Name a) raced).
Definition plain (text : string) : go_error := mkError [] text.
Definition wrong_resource (a : PlannedAction) : outcome := Err (plain (Kind a +:+ " action has wrong Resource type: " +:+ a_Name a)).

Definition applyCreateKVAction (action : PlannedAction) : prog outcome :=
  match Resource action with
  | ResCreateKV kvCfg =>
      err ← call (CreateKeyValue kvCfg);
      Ret match err with
          | None => executed false action
          | Some e => if Is e JsErrBucketExists || Is e JsErrStreamNameAlreadyInUse then executed true action else Err e
          end
  | _ => Ret (wrong_resource action)
  end.

Definition applyCreateStreamAction (action : PlannedAction) : prog outcome :=
  match Resource action with
  | ResCreateStream cfg =>
      err ← call (CreateStream cfg);
      Ret match err with
          | None => executed false action
          | Some e => if Is e JsErrStreamNameAlreadyInUse then executed true action else Err e
          end
  | _ => Ret (wrong_resource action)
  end.

(** The answer to the write of an update or a stamp. *)
Definition written (action : PlannedAction) (vanished : sentinel) (missingErr : go_error) (text : string) (err : option go_error) : outcome :=
  match err with
  | None => executed false action
  | Some e => if Is e vanished then Err missingErr else if cancelled e then Err e else Err (wrap_error text e)
  end.

Definition bucketMissingBeforeUpdate (b : string) : go_error := plain ("bucket-missing-before-update: " +:+ kvStreamPrefix +:+ b +:+ " no longer exists").
Definition bucketMissingBeforeStamp (b : string) : go_error := plain ("bucket-missing-before-stamp: " +:+ kvStreamPrefix +:+ b +:+ " no longer exists").
Definition streamMissingBeforeUpdate (n : string) : go_error := plain ("stream-missing-before-update: " +:+ n +:+ " no longer exists").
Definition streamMissingBeforeStamp (n : string) : go_error := plain ("stream-missing-before-stamp: " +:+ n +:+ " no longer exists").
Definition stale_before : go_error := plain "stale-before: live state changed since plan; re-run plan".

Section apply.
Context (cfg : Config).

Definition cpSpecs : gmap string controlPlaneSpec :=
  match ControlPlane cfg with
  | Some cp => foldl (λ m spec, <[bucket spec := spec]> m) ∅ (buildControlPlaneSpecs cp)
  | None => ∅
  end.

Definition streamCfgs : gmap string StreamCfg := foldl (λ m s, <[sc_Name s := s]> m) ∅ (Streams cfg).

Definition buildUpdateKVTargetForBucket (b : string) (live : KeyValueConfig) : res go_error KeyValueConfig :=
  match cpSpecs !! b with
  | Some spec => Ok (buildControlPlaneUpdateTarget spec (Instance_ cfg) live)
  | None =>
      match PartitionSource cfg with
      | Some ps => if decide (ps_Bucket ps = b) then Ok (buildPartitionSourceUpdateTarget ps (Instance_ cfg) live)
                   else Err (plain "update-kv target is not described by the resolved config")
      | None => Err (plain "update-kv target is not described by the resolved config")
      end
  end.

Definition applyUpdateKVAction (action : PlannedAction) : prog outcome :=
  match Resource action with
  | ResUpdateKV before _ =>
      info ← reReadForUpdate (kvStreamPrefix +:+ a_Name action) (bucketMissingBeforeUpdate (a_Name action));
      match info with
      | Err e => Ret (Err e)
      | Ok sc =>
          let live := streamConfigToKVConfig sc in
          match buildUpdateKVTargetForBucket (a_Name action) live with
          | Err e => Ret (Err e)
          | Ok target =>
              if kvConfigsEqual live target then Ret (executed true action)
              else if negb (kvConfigsEqual live before) then Ret (Err stale_before)
              else err ← call (UpdateKeyValue target);
                   Ret (written action JsErrBucketNotFound (bucketMissingBeforeUpdate (a_Name action)) ("update " +:+ kvStreamPrefix +:+ a_Name action +:+ ": ") err)
          end
      end
  | _ => Ret (wrong_resource action)
  end.

Definition stampMarkerComponent (b : string) : res go_error string :=
  match cpSpecs !! b with
  | Some spec => Ok (component spec)
  | None =>
      match PartitionSource cfg with
      | Some ps => if decide (ps_Bucket ps = b) then Ok ComponentPartitionSource
                   else Err (plain "stamp-marker target is not described by the resolved config")
      | None => Err (plain "stamp-marker target is not described by the resolved config")
      end
  end.

Definition with_metadata (kv : KeyValueConfig) (md : gmap string string) : KeyValueConfig :=
  mkKV (Bucket kv) (Description kv) (MaxValueSize kv) (History kv) (TTL kv) (MaxBytes kv) (Storage kv) (Replicas kv) (kv_copied kv) md.

Definition with_stream_metadata (sc : StreamConfig) (md : gmap string string) : StreamConfig :=
  mkStream (Name sc) (s_Description sc) (Subjects sc) (Retention sc) (MaxMsgs sc) (s_MaxBytes sc) (Discard sc) (MaxAge sc)
    (MaxMsgsPerSubject sc) (MaxMsgSize sc) (s_Storage sc) (s_Replicas sc) (s_copied sc) md.

Definition applyStampMarkerAction (action : PlannedAction) : prog outcome :=
  match Resource action with
  | ResStampMarker _ _ _ =>
      match stampMarkerComponent (a_Name action) with
      | Err e => Ret (Err e)
      | Ok component =>
          info ← reReadForUpdate (kvStreamPrefix +:+ a_Name action) (bucketMissingBeforeStamp (a_Name action));
          match info with
          | Err e => Ret (Err e)
          | Ok sc =>
              let live := streamConfigToKVConfig sc in
              let target := with_metadata live (mergeMarkerMetadata (Metadata live) component (Instance_ cfg)) in
              if kvConfigsEqual live target then Ret (executed true action)
              else err ← call (UpdateKeyValue target);
                   Ret (written action JsErrBucketNotFound (bucketMissingBeforeStamp (a_Name action)) ("stamp " +:+ kvStreamPrefix +:+ a_Name action +:+ ": ") err)
          end
      end
  | _ => Ret (wrong_resource action)
  end.

Definition applyUpdateStreamAction (action : PlannedAction) : prog outcome :=
  match Resource action with
  | ResUpdateStream before _ =>
      info ← reReadForUpdate (a_Name action) (streamMissingBeforeUpdate (a_Name action));
      match info with
      | Err e => Ret (Err e)
      | Ok live =>
          match streamCfgs !! a_Name action with
          | None => Ret (Err (plain "update-stream target is not described by the resolved config"))
          | Some s =>
              let target := buildStreamUpdateTarget s (Instance_ cfg) live in
              if streamConfigsEqual live target then Ret (executed true action)
              else if negb (streamConfigsEqual live before) then Ret (Err stale_before)
              else err ← call (UpdateStream target);
                   Ret (written action JsErrStreamNotFound (streamMissingBeforeUpdate (a_Name action)) ("update " +:+ a_Name action +:+ ": ") err)
          end
      end
  | _ => Ret (wrong_resource action)
  end.

Definition applyStampStreamMarkerAction (action : PlannedAction) : prog outcome :=
  match Resource action with
  | ResStampStream _ _ _ =>
      info ← reReadForUpdate (a_Name action) (streamMissingBeforeStamp (a_Name action));
      match info with
      | Err e => Ret (Err e)
      | Ok live =>
          let target := with_stream_metadata live (mergeMarkerMetadata (s_Metadata live) ComponentStream (Instance_ cfg)) in
          if streamConfigsEqual live target then Ret (executed true action)
          else err ← call (UpdateStream target);
               Ret (written action JsErrStreamNotFound (streamMissingBeforeStamp (a_Name action)) ("stamp " +:+ a_Name action +:+ ": ") err)
      end
  | _ => Ret (wrong_resource action)
  end.

Definition recreateInterruptedAfterDelete (kind name : string) (cause : go_error) : go_error :=
  mkError [ErrRecreateInterrupted] ("recreate interrupted after delete: " +:+ kind +:+ " " +:+ name +:+ " was deleted but the recreate did not complete (cause: " +:+ Nats.message cause +:+ ")").

Definition recreateCreateOnlyError (kind name : string) (e : go_error) : outcome :=
  if cancelled e then Err e else Err (wrap_error ("create " +:+ kind +:+ " " +:+ name +:+ ": ") e).

Definition kvImmutableDriftPresent (live after : KeyValueConfig) : bool :=
  bool_decide (Storage live <> Storage after) || bool_decide (History live <> History after) ||
  bool_decide (value_of (Metadata live) MarkerComponentKey <> value_of (Metadata after) MarkerComponentKey).

Definition streamImmutableDriftPresent (live after : StreamConfig) : bool :=
  bool_decide (s_Storage live <> s_Storage after) || bool_decide (Retention live <> Retention after) ||
  bool_decide (value_of (s_Metadata live) MarkerComponentKey <> value_of (s_Metadata after) MarkerComponentKey).

(** The create step: [gone] says that no delete came before it. *)
Definition recreated (action : PlannedAction) (gone : bool) (filled : list sentinel) (err : option go_error) : outcome :=
  match err with
  | None => executed false action
  | Some e =>
      if existsb (Is e) filled then executed true action
      else if gone then recreateCreateOnlyError (Kind action) (a_Name action) e
      else Err (recreateInterruptedAfterDelete (Kind action) (a_Name action) e)
  end.

Definition applyRecreateKVAction (action : PlannedAction) : prog outcome :=
  match Resource action with
  | ResRecreateKV _ after _ =>
      let create gone := err ← call (CreateKeyValue after);
                         Ret (recreated action gone [JsErrBucketExists; JsErrStreamNameAlreadyInUse] err) in
      info ← reReadForRecreate (kvStreamPrefix +:+ a_Name action) [JsErrStreamNotFound; JsErrBucketNotFound];
      match info with
      | Err e => Ret (Err e)
      | Ok None => create true
      | Ok (Some sc) =>
          if negb (kvImmutableDriftPresent (streamConfigToKVConfig sc) after) then Ret (executed true action)
          else err ← call (DeleteKeyValue (a_Name action));
               match err with
               | Some e => Ret (Err (if cancelled e then e else wrap_error ("delete " +:+ kvStreamPrefix +:+ a_Name action +:+ ": ") e))
               | None => create false
               end
      end
  | _ => Ret (wrong_resource action)
  end.

Definition applyRecreateStreamAction (action : PlannedAction) : prog outcome :=
  match Resource action with
  | ResRecreateStream _ after _ =>
      let create gone := err ← call (CreateStream after);
                         Ret (recreated action gone [JsErrStreamNameAlreadyInUse] err) in
      info ← reReadForRecreate (a_Name action) [JsErrStreamNotFound];
      match info with
      | Err e => Ret (Err e)
      | Ok None => create true
      | Ok (Some sc) =>
          if negb (streamImmutableDriftPresent sc after) then Ret (executed true action)
          else err ← call (DeleteStream (a_Name action));
               match err with
               | Some e => Ret (Err (if cancelled e then e else wrap_error ("delete " +:+ a_Name action +:+ ": ") e))
               | None => create false
               end
      end
  | _ => Ret (wrong_resource action)
  end.

(** [None] for a kind it does not know. *)
Definition dispatch (action : PlannedAction) : option (prog outcome) :=
  let kind := Kind action in
  if decide (kind = ActionCreateKV) then Some (applyCreateKVAction action)
  else if decide (kind = ActionUpdateKV) then Some (applyUpdateKVAction action)
  else if decide (kind = ActionStampMarker) then Some (applyStampMarkerAction action)
  else if decide (kind = ActionCreateStream) then Some (applyCreateStreamAction action)
  else if decide (kind = ActionUpdateStream) then Some (applyUpdateStreamAction action)
  else if decide (kind = ActionStampStreamMarker) then Some (applyStampStreamMarkerAction action)
  else if decide (kind = ActionRecreateKV) then Some (applyRecreateKVAction action)
  else if decide (kind = ActionRecreateStream) then Some (applyRecreateStreamAction action)
  else None.

(** [inl] is the report to go on with, [inr] the one to return. *)
Definition foldActionResult (report : Report) (action : PlannedAction) (later : list PlannedAction) (r : outcome) :
    Report + Report * option go_error :=
  match r with
  | Ok executed => inl (mkReport (Executed report ++ [executed]) (Skipped report) (Errors report) (Aborted report))
  | Err e =>
      if cancelled e
      then inr (appendSkipped (mkReport (Executed report) (Skipped report) (Errors report) true) (action :: later) SkipReasonContextCancelled, Some e)
      else inr (appendSkipped (mkReport (Executed report) (Skipped report)
                  (Errors report ++ [mkResourceError (Kind action) (a_Name action) (Nats.message e)]) (Aborted report)) later SkipReasonPriorError,
                Some (wrap_error ("provision: apply " +:+ Kind action +:+ " " +:+ a_Name action +:+ ": ") e))
  end.

Fixpoint apply_actions (actions : list PlannedAction) (report : Report) : prog (Report * option go_error) :=
  match actions with
  | [] => Ret (report, None)
  | action :: later =>
      ctxErr ← call CtxErr;
      match ctxErr with
      | Some e =>
          Ret (appendSkipped (mkReport (Executed report) (Skipped report) (Errors report) true) actions SkipReasonContextCancelled, Some e)
      | None =>
          match dispatch action with
          | None =>
              let e := plain ("provision: apply: unsupported action kind " +:+ Kind action) in
              Ret (appendSkipped (mkReport (Executed report) (Skipped report)
                     (Errors report ++ [mkResourceError (Kind action) (a_Name action) (Nats.message e)]) (Aborted report)) later SkipReasonPriorError,
                   Some e)
          | Some run =>
              r ← run;
              match foldActionResult report action later r with
              | inl report => apply_actions later report
              | inr out => Ret out
              end
          end
      end
  end.

Definition applyPlan (plan : PlanResult) : prog (Report * option go_error) := apply_actions (Actions plan) newReport.
End apply.

(** [Report{}] is the report of a run that ends before the first action. *)
Definition Apply (cfg : Config) : prog (Report * option go_error) :=
  match resolve cfg with
  | Err e => Ret (newReport, Some e)
  | Ok resolved =>
      err ← call Probe;
      match err with
      | Some e => Ret (newReport, Some e)
      | None =>
          p ← Plan resolved;
          match p with
          | Err e => Ret (newReport, Some e)
          | Ok plan => applyPlan resolved plan
          end
      end
  end.
