(* ===== verification/ProvisionSafety.v ===== *)
(** * What provisioning may touch (provision/)

    A run of [Apply] is a sequence of the answers it gets and of the writes it
    makes. The answers are arbitrary, so that other operators may change the
    server between any two calls. [permitted] says, for each policy, what a write
    may be after the events before it. *)
From S2P Require Import Prelude Nats Effects Pattern Provision.

(** ** Events *)

Inductive event :=
| Absent (name : string)
| Seen (name : string) (sc : StreamConfig)
| CreatedKV (cfg : KeyValueConfig)
| UpdatedKV (cfg : KeyValueConfig)
| DeletedKV (bucket : string)
| CreatedStream (cfg : StreamConfig)
| UpdatedStream (cfg : StreamConfig)
| DeletedStream (name : string).

Definition no_such (e : go_error) : bool := Is e JsErrStreamNotFound || Is e JsErrBucketNotFound.

(** A write is observed whatever the server answers to it. *)
Definition observe (X : Type) (o : op X) : X -> list event :=
  match o in op X return X -> list event with
  | CtxErr | Probe => λ _, []
  | Lookup n => λ err, match err with Some e => if no_such e then [Absent n] else [] | None => [] end
  | Info n => λ info, match info with Err e => if no_such e then [Absent n] else [] | Ok sc => [Seen n sc] end
  | CreateKeyValue c => λ _, [CreatedKV c]
  | UpdateKeyValue c => λ _, [UpdatedKV c]
  | DeleteKeyValue b => λ _, [DeletedKV b]
  | CreateStream c => λ _, [CreatedStream c]
  | UpdateStream c => λ _, [UpdatedStream c]
  | DeleteStream n => λ _, [DeletedStream n]
  end.

(** All the server promises here: a stream found by name has that name. *)
Definition answers (X : Type) (o : op X) : X -> Prop :=
  match o in op X return X -> Prop with
  | Info n => λ info, match info with Ok sc => Name sc = n | Err _ => True end
  | _ => λ _, True
  end.

(** ** What an update leaves alone *)

Definition parti_keys : list string := [MarkerManagedKey; MarkerComponentKey; MarkerInstanceKey].

(** [md'] differs from [md] at most in Parti's own keys. *)
Definition keeps_foreign (md md' : gmap string string) : Prop := forall k, k ∉ parti_keys -> md' !! k = md !! k.

(** Everything of a bucket that an update must leave alone. *)
Definition keeps_kv (live c : KeyValueConfig) : Prop :=
  Description c = Description live /\ MaxBytes c = MaxBytes live /\ kv_copied c = kv_copied live /\
  Storage c = Storage live /\ History c = History live /\ keeps_foreign (Metadata live) (Metadata c).

Definition keeps_stream (live c : StreamConfig) : Prop :=
  s_copied c = s_copied live /\ MaxMsgsPerSubject c = MaxMsgsPerSubject live /\ MaxMsgSize c = MaxMsgSize live /\
  s_Storage c = s_Storage live /\ Retention c = Retention live /\ keeps_foreign (s_Metadata live) (s_Metadata c).

Definition managed (md : gmap string string) : Prop := IsManaged (ParseMarker md) = true.
Definition same_component (md md' : gmap string string) : Prop := md' !! MarkerComponentKey = md !! MarkerComponentKey.

(** ** Facts about targets *)

Lemma TrimPrefix_app p s : TrimPrefix (p +:+ s) p = s.
Proof. unfold TrimPrefix. rewrite <- (string_app_nil_r p) at 1. rewrite string_prefix_app. replace (String.prefix "" s) with true by (by destruct s). apply str_drop_app. Qed.

Lemma merge_update_keeps md inst : keeps_foreign md (mergeUpdateKVMetadata md inst).
Proof.
  intros k N. unfold mergeUpdateKVMetadata, parti_keys in *. rewrite !not_elem_of_cons in N. destruct N as (? & ? & ? & _).
  case_decide; by simplify_map_eq.
Qed.

Lemma merge_marker_keeps md c inst : keeps_foreign md (mergeMarkerMetadata md c inst).
Proof.
  intros k N. unfold mergeMarkerMetadata, BuildMarker, parti_keys in *. rewrite !not_elem_of_cons in N. destruct N as (? & ? & ? & _).
  case_decide; rewrite ?lookup_delete_ne by done; apply lookup_union_r; by simplify_map_eq.
Qed.

Lemma merge_update_component md inst : same_component md (mergeUpdateKVMetadata md inst).
Proof. unfold same_component, mergeUpdateKVMetadata. case_decide; by simplify_map_eq. Qed.

Lemma kvConfigsEqual_metadata a b : kvConfigsEqual a b = true -> Metadata a = Metadata b.
Proof. unfold kvConfigsEqual. rewrite !andb_true_iff, !bool_decide_eq_true. tauto. Qed.

Lemma streamConfigsEqual_metadata a b : streamConfigsEqual a b = true -> s_Metadata a = s_Metadata b.
Proof. unfold streamConfigsEqual. rewrite !andb_true_iff, !bool_decide_eq_true. tauto. Qed.

Lemma reconciles_policy p : policyReconcilesMutable p = true -> p = PolicySafeUpdate \/ p = PolicyForce.
Proof. unfold policyReconcilesMutable. by rewrite orb_true_iff, !bool_decide_eq_true. Qed.

(** ** The rules *)

Section rules.
Context (cfg : Config).

(** The buckets the configuration declares, with the flag that allows to delete. *)
Inductive declared_kv : KeyValueConfig -> bool -> Prop :=
| declared_control_plane cp spec :
    ControlPlane cfg = Some cp -> spec ∈ buildControlPlaneSpecs cp ->
    declared_kv (newCreateKV spec (Instance_ cfg)) (cp_AllowDeleteRecreate cp)
| declared_partition_source ps :
    PartitionSource cfg = Some ps -> declared_kv (createPartitionSource ps (Instance_ cfg)) (ps_AllowDeleteRecreate ps).

Inductive declared_stream : StreamConfig -> bool -> Prop :=
| declared_stream_cfg s : s ∈ Streams cfg -> declared_stream (buildStreamConfig s (Instance_ cfg)) (sc_AllowDeleteRecreate s).

Definition permitted (before : list event) (e : event) : Prop :=
  match e with
  | Absent _ | Seen _ _ => True
  | CreatedKV c =>
      Policy cfg <> PolicyAdopt /\ (exists allow, declared_kv c allow) /\
      (Absent (kvStreamPrefix +:+ Bucket c) ∈ before \/ DeletedKV (Bucket c) ∈ before)
  | CreatedStream c =>
      Policy cfg <> PolicyAdopt /\ (exists allow, declared_stream c allow) /\ (Absent (Name c) ∈ before \/ DeletedStream (Name c) ∈ before)
  | UpdatedKV c =>
      exists sc, last before = Some (Seen (kvStreamPrefix +:+ Bucket c) sc) /\
      let live := streamConfigToKVConfig sc in keeps_kv live c /\
      (Policy cfg = PolicyAdopt /\ c = with_metadata live (Metadata c) \/
       (Policy cfg = PolicySafeUpdate \/ Policy cfg = PolicyForce) /\ managed (s_Metadata sc) /\ same_component (s_Metadata sc) (Metadata c))
  | UpdatedStream c =>
      exists live, last before = Some (Seen (Name c) live) /\ keeps_stream live c /\
      (Policy cfg = PolicyAdopt /\ c = with_stream_metadata live (s_Metadata c) \/
       (Policy cfg = PolicySafeUpdate \/ Policy cfg = PolicyForce) /\ managed (s_Metadata live) /\ same_component (s_Metadata live) (s_Metadata c))
  | DeletedKV b =>
      Policy cfg = PolicyForce /\ exists after, declared_kv after true /\ Bucket after = b /\
      (exists sc, Seen (kvStreamPrefix +:+ b) sc ∈ before /\ managed (s_Metadata sc)) /\
      exists sc, last before = Some (Seen (kvStreamPrefix +:+ b) sc) /\ kvImmutableDriftPresent (streamConfigToKVConfig sc) after = true
  | DeletedStream n =>
      Policy cfg = PolicyForce /\ exists after, declared_stream after true /\ Name after = n /\
      (exists sc, Seen n sc ∈ before /\ managed (s_Metadata sc)) /\
      exists sc, last before = Some (Seen n sc) /\ streamImmutableDriftPresent sc after = true
  end.

Definition all_permitted (tr : list event) : Prop := forall before e after, tr = before ++ e :: after -> permitted before e.

(** ** Reasoning about runs *)

Definition effect (X : Type) (o : op X) (s : list event) (x : X) (s2 : list event) : Prop := answers X o x /\ s2 = s ++ observe X o x.

Notation WP := (wp effect all_permitted eq).

Lemma all_permitted_nil : all_permitted [].
Proof. intros before e after E. by destruct before. Qed.

Lemma all_permitted_snoc tr e : all_permitted tr -> permitted tr e -> all_permitted (tr ++ [e]).
Proof.
  intros A P before x after E. destruct after as [|y after _] using rev_ind.
  - by apply app_inj_tail in E as [<- <-].
  - rewrite app_comm_cons, app_assoc in E. apply app_inj_tail in E as [-> _]. by eapply A.
Qed.

Lemma run_permitted {A} (m : prog A) Φ s tr a :
  all_permitted s -> WP m Φ s -> traces observe answers m tr a -> all_permitted (s ++ tr) /\ Φ a (s ++ tr).
Proof.
  intros I W T. revert s I W. induction T as [a|X o k x tr a Hx T IH]; intros s I W; cbn [wp] in W.
  - rewrite app_nil_r. split; [done|]. by apply W.
  - destruct (W s x (s ++ observe X o x) eq_refl I) as [I' W']; [done|]. rewrite app_assoc. by apply IH.
Qed.

(** The events of the past stay. *)
Lemma wp_grows {A} (m : prog A) Φ s : WP m Φ s -> WP m (λ a s', Φ a s' /\ s `prefix_of` s') s.
Proof.
  enough (forall s0, s0 `prefix_of` s -> WP m Φ s -> WP m (λ a s', Φ a s' /\ s0 `prefix_of` s') s) as H by (intros; by apply H).
  intros s0. revert s. induction m as [a|X o k IH]; intros s P W; cbn [wp] in *.
  - intros s1 <- I. split; [by apply W|done].
  - intros s1 x s2 <- I E. destruct (W s x s2 eq_refl I E) as [I2 W2]. split; [done|]. apply IH; [|done].
    destruct E as [_ ->]. etrans; [exact P|]. apply prefix_app_r; done.
Qed.

(** An operation whose event, if it has one, is permitted. *)
Lemma wp_observed {X A} (o : op X) (f : X -> prog A) Φ s :
  (forall x, answers X o x -> Forall (permitted s) (observe X o x) /\ length (observe X o x) <= 1) ->
  all_permitted s ->
  (forall x, answers X o x -> all_permitted (s ++ observe X o x) -> WP (f x) Φ (s ++ observe X o x)) ->
  WP (trigger o ≫= f) Φ s.
Proof.
  intros P I W. apply pwp_op. intros s1 x s2 <- _ [Hx ->]. destruct (P x Hx) as [F L].
  enough (all_permitted (s ++ observe X o x)) by eauto.
  destruct (observe X o x) as [|e [|]]; [by rewrite app_nil_r|apply all_permitted_snoc; [done|by inversion F]|cbn in L; lia].
Qed.

Lemma wp_done {A} (a : A) (Φ : A -> list event -> Prop) s : Φ a s -> WP (Ret a) Φ s.
Proof. intros H. apply pwp_ret. by intros ? <- _. Qed.

(** ** Plans *)

(** What a planned action may rely on. *)
Definition justified (s : list event) (a : PlannedAction) : Prop :=
  match Resource a with
  | ResCreateKV c =>
      Policy cfg <> PolicyAdopt /\ (exists allow, declared_kv c allow) /\ Absent (kvStreamPrefix +:+ Bucket c) ∈ s
  | ResCreateStream c => Policy cfg <> PolicyAdopt /\ (exists allow, declared_stream c allow) /\ Absent (Name c) ∈ s
  | ResUpdateKV before _ => policyReconcilesMutable (Policy cfg) = true /\ managed (Metadata before)
  | ResUpdateStream before _ => policyReconcilesMutable (Policy cfg) = true /\ managed (s_Metadata before)
  | ResStampMarker _ _ _ | ResStampStream _ _ _ => Policy cfg = PolicyAdopt
  | ResRecreateKV _ after _ =>
      Policy cfg = PolicyForce /\ declared_kv after true /\ Bucket after = a_Name a /\
      exists sc, Seen (kvStreamPrefix +:+ a_Name a) sc ∈ s /\ managed (s_Metadata sc)
  | ResRecreateStream _ after _ =>
      Policy cfg = PolicyForce /\ declared_stream after true /\ Name after = a_Name a /\
      exists sc, Seen (a_Name a) sc ∈ s /\ managed (s_Metadata sc)
  end.

Lemma justified_mono s s' a : s `prefix_of` s' -> justified s a -> justified s' a.
Proof. intros [k ->]. unfold justified. destruct (Resource a); set_solver. Qed.

Lemma all_justified_mono s s' l : s `prefix_of` s' -> Forall (justified s) l -> Forall (justified s') l.
Proof. intros P F. eapply Forall_impl; [exact F|]. intros a. by apply justified_mono. Qed.

Definition plans (m : prog (res go_error planned)) : Prop :=
  forall s, all_permitted s -> WP m (λ r s', forall pl, r = Ok pl -> Forall (justified s') pl.1) s.

Lemma plans_inspect name missing found :
  (forall s, Absent name ∈ s -> Forall (justified s) missing.1) ->
  (forall s sc, Seen name sc ∈ s -> Forall (justified s) (found sc).1) ->
  plans (inspect name missing found).
Proof.
  intros M F s I. unfold inspect. apply wp_observed; [|done|].
  { intros [e|] _; cbn; [destruct (no_such e); cbn|]; auto using Forall_nil_2 with lia. split; [by constructor|lia]. }
  intros [e|] _ I1; cbn [observe].
  - apply wp_done. intros pl. destruct (Is e JsErrStreamNotFound) eqn:N; [|done]. intros [= <-]. apply M.
    unfold no_such. rewrite N. set_solver.
  - rewrite app_nil_r. apply wp_observed; [|done|].
    { intros [sc|e] _; cbn; [|destruct (no_such e)]; (split; [repeat constructor|cbn; lia]). }
    intros [sc|e] _ I2; cbn [observe]; apply wp_done; [|done]. intros pl [= <-]. apply F. set_solver.
Qed.

Lemma plans_each {A} (one : A -> prog (res go_error planned)) l : (forall x, x ∈ l -> plans (one x)) -> plans (plan_each one l).
Proof.
  induction l as [|x l IH]; intros H s I; cbn [plan_each].
  { apply wp_done. intros pl [= <-]. constructor. }
  apply wp_observed; [by repeat constructor|done|]. intros [e|] _ I1; [by apply wp_done|].
  apply pwp_bind; [exact _|done|]. eapply pwp_mono; [apply H; [set_solver|done]|]. intros [[as1 ds1]|e] s1 I2 F1; [|by apply wp_done].
  apply pwp_bind; [exact _|done|]. eapply pwp_mono; [apply wp_grows, IH; [set_solver|done]|].
  intros [[as2 ds2]|e] s2 I3 [F2 P]; apply wp_done; [|done]. intros pl [= <-]. apply Forall_app. split; [|by apply (F2 (as2, ds2))].
  eapply all_justified_mono; [exact P|]. by apply (F1 (as1, ds1)).
Qed.

Lemma plans_missing kind name create s :
  (Policy cfg <> PolicyAdopt -> justified s create) -> Forall (justified s) (plan_missing cfg kind name create).1.
Proof. intros H. unfold plan_missing. case_decide; cbn; constructor; [by apply H|constructor]. Qed.

Lemma plans_bucket_found fs allow name component after target sc s :
  declared_kv after allow -> Bucket after = name -> Seen (kvStreamPrefix +:+ name) sc ∈ s ->
  Forall (justified s) (plan_bucket_found cfg fs allow name component after target sc).1.
Proof.
  intros D B S. unfold plan_bucket_found.
  match goal with |- context [?u ++ ?v] => assert (Forall (justified s) (u ++ v)) as U end.
  { apply Forall_app. split; (match goal with |- context [if ?b then _ else _] => destruct b eqn:E end; [|constructor]);
      repeat constructor; apply andb_true_iff in E as [E M]; [by apply andb_true_iff in E as [? ?]..|]. cbn. by apply bool_decide_eq_true in E. }
  destruct (immutableFindingDetail fs); [|exact U]. destruct (policyRecreatesImmutable _ && _ && _) eqn:E; [|exact U].
  apply andb_true_iff in E as [[E M]%andb_true_iff ->]. apply bool_decide_eq_true in E. repeat constructor; eauto.
Qed.

Lemma plans_stream_found st sc s :
  st ∈ Streams cfg -> Seen (sc_Name st) sc ∈ s -> Forall (justified s) (plan_stream_found cfg st sc).1.
Proof.
  intros D S. unfold plan_stream_found.
  match goal with |- context [?u ++ ?v] => assert (Forall (justified s) (u ++ v)) as U end.
  { apply Forall_app. split; (match goal with |- context [if ?b then _ else _] => destruct b eqn:E end; [|constructor]);
      repeat constructor; apply andb_true_iff in E as [E M]; [by apply andb_true_iff in E as [? ?]..|]. cbn. by apply bool_decide_eq_true in E. }
  destruct (immutableFindingDetail _); [|exact U]. destruct (policyRecreatesImmutable _ && _ && _) eqn:E; [|exact U].
  apply andb_true_iff in E as [[E M]%andb_true_iff A]. apply bool_decide_eq_true in E. repeat constructor; eauto.
  cbn. rewrite <- A. by constructor.
Qed.

Lemma plans_control_plane cp : ControlPlane cfg = Some cp -> plans (planControlPlane cfg cp).
Proof.
  intros C. apply plans_each. intros spec In. apply plans_inspect; intros s.
  - intros A. apply plans_missing. intros P. split; [done|]. split; [|done]. eexists. by econstructor.
  - intros sc S. apply plans_bucket_found; [by econstructor|done..].
Qed.

Lemma plans_partition_source ps : PartitionSource cfg = Some ps -> plans (planPartitionSource cfg ps).
Proof.
  intros C. apply plans_inspect; intros s.
  - intros A. apply plans_missing. intros P. split; [done|]. split; [|done]. eexists. by econstructor.
  - intros sc S. apply plans_bucket_found; [by econstructor|done..].
Qed.

Lemma plans_streams : plans (planStreams cfg).
Proof.
  apply plans_each. intros st In. apply plans_inspect; intros s.
  - intros A. apply plans_missing. intros P. split; [done|]. split; [|done]. eexists. by econstructor.
  - intros sc S. by apply plans_stream_found.
Qed.

Lemma plans_steps : Forall plans (plan_steps cfg).
Proof.
  unfold plan_steps. repeat apply Forall_app_2.
  - destruct (ControlPlane cfg) eqn:E; [|constructor]. apply Forall_singleton. by apply plans_control_plane.
  - destruct (PartitionSource cfg) eqn:E; [|constructor]. apply Forall_singleton. by apply plans_partition_source.
  - destruct (Streams cfg); [constructor|]. apply Forall_singleton, plans_streams.
Qed.

Lemma plans_run_step m : plans m -> plans (runPlanStep m).
Proof.
  intros P s I. apply pwp_bind; [exact _|done|]. eapply pwp_mono; [by apply P|]. intros [pl|e] s1 I1 F; [by apply wp_done|].
  apply wp_observed; [by repeat constructor|done|]. intros e' _ _. by apply wp_done.
Qed.

Lemma plans_run_steps steps acc s :
  Forall plans steps -> all_permitted s -> Forall (justified s) acc.1 ->
  WP (run_steps steps acc) (λ r s', forall pl, r = Ok pl -> Forall (justified s') pl.1) s.
Proof.
  intros F. revert acc s. induction F as [|m steps P F IH]; intros acc s I A; cbn [run_steps].
  { apply wp_done. by intros pl [= <-]. }
  apply pwp_bind; [exact _|done|]. eapply pwp_mono; [apply wp_grows; by apply plans_run_step|].
  intros [[as1 ds1]|e] s1 I1 [F1 G]; [|by apply wp_done]. apply IH; [done|]. cbn. apply Forall_app.
  split; [by eapply all_justified_mono|by apply (F1 (as1, ds1))].
Qed.

Lemma insert_by_perm {A} le (x : A) l : insert_by le x l ≡ₚ x :: l.
Proof. induction l as [|y l IH]; cbn; [done|]. destruct (le x y); [done|]. rewrite IH. apply perm_swap. Qed.

Lemma sort_by_perm {A} le (l : list A) : sort_by le l ≡ₚ l.
Proof. induction l as [|x l IH]; cbn; [done|]. unfold sort_by in IH. by rewrite insert_by_perm, IH. Qed.

Lemma plan_resolved_justified s :
  all_permitted s -> WP (plan_resolved cfg) (λ r s', forall pl, r = Ok pl -> Forall (justified s') (Actions pl)) s.
Proof.
  intros I. apply pwp_bind; [exact _|done|]. eapply pwp_mono; [apply plans_run_steps; [apply plans_steps|done|constructor]|].
  intros [[actions drift]|e] s1 I1 F; apply wp_done; [|done]. intros pl [= <-]. cbn. unfold sortActions. rewrite sort_by_perm.
  by apply (F (actions, drift)).
Qed.

(** ** Actions *)

Definition acts {A} (m : prog A) : Prop := forall s, all_permitted s -> WP m (λ _ _, True) s.

(** A write at the end of an action. *)
Lemma wp_write {X A} (o : op X) (f : X -> prog A) Φ s e :
  (forall x, observe X o x = [e]) -> permitted s e -> all_permitted s ->
  (forall x, all_permitted (s ++ [e]) -> WP (f x) Φ (s ++ [e])) -> WP (trigger o ≫= f) Φ s.
Proof.
  intros E P I W. apply wp_observed; [intros x _; rewrite E; split; [by constructor|done]|done|]. intros x _. rewrite E. apply W.
Qed.

Lemma wp_StreamInfo {A} name (f : res go_error StreamConfig -> prog A) Φ s :
  all_permitted s ->
  (forall e s', all_permitted s' -> (no_such e = true -> Absent name ∈ s') -> s `prefix_of` s' -> WP (f (Err e)) Φ s') ->
  (forall sc, Name sc = name -> all_permitted (s ++ [Seen name sc]) -> WP (f (Ok sc)) Φ (s ++ [Seen name sc])) ->
  WP (StreamInfo name ≫= f) Φ s.
Proof.
  intros I WE WO. apply pwp_bind; [exact _|done|]. apply wp_observed; [|done|].
  { intros [e|] _; cbn; [destruct (no_such e)|]; (split; [repeat constructor|cbn; lia]). }
  intros [e|] _ I1; cbn [observe].
  - apply wp_done, WE; [done| |by apply prefix_app_r]. intros ->. set_solver.
  - rewrite app_nil_r. cbn [observe] in I1. change (call (Info name)) with (call (Info name) ≫= Ret). apply wp_observed; [|done|].
    { intros [sc|e] _; cbn; [|destruct (no_such e)]; (split; [repeat constructor|cbn; lia]). }
    intros [sc|e] N I2; cbn [observe]; apply wp_done; [by apply WO|]. apply WE; [done| |by apply prefix_app_r]. intros ->. set_solver.
Qed.

Definition acts_on (a : PlannedAction) (m : prog outcome) : Prop :=
  forall s, all_permitted s -> justified s a -> WP m (λ _ _, True) s.

Lemma acts_create_kv a : acts_on a (applyCreateKVAction a).
Proof.
  intros s I J. unfold applyCreateKVAction. unfold justified in J. destruct (Resource a) as [c| | | | | | |]; try by apply wp_done.
  eapply wp_write; [done| |done|by intros; apply wp_done]. cbn. destruct J as (? & ? & ?). eauto.
Qed.

Lemma acts_create_stream a : acts_on a (applyCreateStreamAction a).
Proof.
  intros s I J. unfold applyCreateStreamAction. unfold justified in J. destruct (Resource a) as [| | | |c| | |]; try by apply wp_done.
  eapply wp_write; [done| |done|by intros; apply wp_done]. cbn. destruct J as (? & ? & ?). eauto.
Qed.

Lemma update_target_keeps b live target :
  buildUpdateKVTargetForBucket cfg b live = Ok target ->
  Bucket target = Bucket live /\ keeps_kv live target /\ same_component (Metadata live) (Metadata target).
Proof.
  unfold buildUpdateKVTargetForBucket. intros H.
  assert (exists spec, target = buildControlPlaneUpdateTarget spec (Instance_ cfg) live \/
          exists ps, target = buildPartitionSourceUpdateTarget ps (Instance_ cfg) live) as (spec & [->|[ps ->]]).
  { destruct (cpSpecs cfg !! b) as [spec|]; [exists spec; left; by simplify_eq|]. exists (mkSpec "" "" 0 FileStorage 0).
    destruct (PartitionSource cfg) as [ps|]; [|done]. case_decide; [|done]. right. exists ps. by simplify_eq. }
  all: repeat split; first [apply merge_update_component | apply merge_update_keeps].
Qed.

Lemma acts_update_kv a : acts_on a (applyUpdateKVAction cfg a).
Proof.
  intros s I J. unfold applyUpdateKVAction. unfold justified in J. destruct (Resource a) as [|before ?| | | | | |]; try by apply wp_done.
  destruct J as [P M]. apply pwp_bind; [exact _|done|]. apply wp_StreamInfo; [done|intros; by apply wp_done, wp_done|].
  intros sc N I'. apply wp_done. destruct (buildUpdateKVTargetForBucket _ _ _) as [target|e] eqn:T; [|by apply wp_done].
  apply update_target_keeps in T as (B & K & C). destruct (kvConfigsEqual _ target); [by apply wp_done|].
  destruct (kvConfigsEqual _ before) eqn:E; [|by apply wp_done]. apply kvConfigsEqual_metadata in E. cbn in E.
  eapply wp_write; [done| |done|by intros; apply wp_done]. exists sc. rewrite last_snoc, B. cbn. rewrite N, TrimPrefix_app.
  split; [done|]. split; [done|]. right. cbn in C. rewrite E in C |- *. split; [by apply reconciles_policy|done].
Qed.

Lemma acts_stamp_kv a : acts_on a (applyStampMarkerAction cfg a).
Proof.
  intros s I J. unfold applyStampMarkerAction. unfold justified in J. destruct (Resource a) as [| |? ? ?| | | | |]; try by apply wp_done.
  destruct (stampMarkerComponent _ _) as [c|e]; [|by apply wp_done].
  apply pwp_bind; [exact _|done|]. apply wp_StreamInfo; [done|intros; by apply wp_done, wp_done|].
  intros sc N I'. apply wp_done. destruct (kvConfigsEqual _ _); [by apply wp_done|].
  eapply wp_write; [done| |done|by intros; apply wp_done]. exists sc. rewrite last_snoc. cbn. rewrite N, TrimPrefix_app.
  split; [done|]. split; [|by left]. repeat split; cbn. apply merge_marker_keeps.
Qed.

Lemma acts_update_stream a : acts_on a (applyUpdateStreamAction cfg a).
Proof.
  intros s I J. unfold applyUpdateStreamAction. unfold justified in J. destruct (Resource a) as [| | | | |before ?| |]; try by apply wp_done.
  destruct J as [P M]. apply pwp_bind; [exact _|done|]. apply wp_StreamInfo; [done|intros; by apply wp_done, wp_done|].
  intros sc N I'. apply wp_done. destruct (streamCfgs cfg !! _) as [st|]; [|by apply wp_done].
  destruct (streamConfigsEqual sc (buildStreamUpdateTarget _ _ _)); [by apply wp_done|].
  destruct (streamConfigsEqual sc before) eqn:E; [|by apply wp_done]. apply streamConfigsEqual_metadata in E.
  eapply wp_write; [done| |done|by intros; apply wp_done]. exists sc. rewrite last_snoc. cbn. rewrite N.
  split; [done|]. split; [repeat split; apply merge_update_keeps|]. right. split; [by apply reconciles_policy|].
  split; [by rewrite E|apply merge_update_component].
Qed.

Lemma acts_stamp_stream a : acts_on a (applyStampStreamMarkerAction cfg a).
Proof.
  intros s I J. unfold applyStampStreamMarkerAction. unfold justified in J. destruct (Resource a) as [| | | | | |? ? ?|]; try by apply wp_done.
  apply pwp_bind; [exact _|done|]. apply wp_StreamInfo; [done|intros; by apply wp_done, wp_done|].
  intros sc N I'. apply wp_done. destruct (streamConfigsEqual _ _); [by apply wp_done|].
  eapply wp_write; [done| |done|by intros; apply wp_done]. exists sc. rewrite last_snoc. cbn. rewrite N.
  split; [done|]. split; [|by left]. repeat split; cbn. apply merge_marker_keeps.
Qed.

Lemma acts_recreate_kv a : acts_on a (applyRecreateKVAction a).
Proof.
  intros s I J. unfold applyRecreateKVAction. destruct (Resource a) as [| | |before after drift| | | |] eqn:R; try by apply wp_done.
  unfold justified in J. rewrite R in J. destruct J as (P & D & B & sc0 & S & M).
  assert (PolicyForce <> PolicyAdopt) as NA by done. rewrite <- P in NA.
  apply pwp_bind; [exact _|done|]. apply wp_StreamInfo; [done| |].
  - intros e s' I' H _. apply wp_done. destruct (existsb _ _) eqn:X; [|by apply wp_done].
    eapply wp_write; [done| |done|by intros; apply wp_done]. cbn. rewrite B. split; [done|]. split; [eauto|]. left. apply H.
    cbn in X. rewrite orb_false_r in X. exact X.
  - intros sc N I'. apply wp_done. destruct (kvImmutableDriftPresent _ after) eqn:X; [|by apply wp_done]. cbn [negb].
    eapply wp_write; [done| |done|].
    { cbn. split; [done|]. exists after. rewrite last_snoc. split; [done|]. split; [done|]. split; [exists sc0; set_solver|eauto]. }
    intros [e|] I2; [by apply wp_done|]. eapply wp_write; [done| |done|by intros; apply wp_done].
    cbn. rewrite B. split; [done|]. split; [eauto|]. right. set_solver.
Qed.

Lemma acts_recreate_stream a : acts_on a (applyRecreateStreamAction a).
Proof.
  intros s I J. unfold applyRecreateStreamAction. destruct (Resource a) as [| | | | | | |before after drift] eqn:R; try by apply wp_done.
  unfold justified in J. rewrite R in J. destruct J as (P & D & B & sc0 & S & M).
  assert (PolicyForce <> PolicyAdopt) as NA by done. rewrite <- P in NA.
  apply pwp_bind; [exact _|done|]. apply wp_StreamInfo; [done| |].
  - intros e s' I' H _. apply wp_done. destruct (existsb _ _) eqn:X; [|by apply wp_done].
    eapply wp_write; [done| |done|by intros; apply wp_done]. cbn. rewrite B. split; [done|]. split; [eauto|]. left. apply H.
    cbn in X. rewrite orb_false_r in X. unfold no_such. by rewrite X.
  - intros sc N I'. apply wp_done. destruct (streamImmutableDriftPresent _ after) eqn:X; [|by apply wp_done]. cbn [negb].
    eapply wp_write; [done| |done|].
    { cbn. split; [done|]. exists after. rewrite last_snoc. split; [done|]. split; [done|]. split; [exists sc0; set_solver|eauto]. }
    intros [e|] I2; [by apply wp_done|]. eapply wp_write; [done| |done|by intros; apply wp_done].
    cbn. rewrite B. split; [done|]. split; [eauto|]. right. set_solver.
Qed.

Lemma acts_dispatch a m : dispatch cfg a = Some m -> acts_on a m.
Proof.
  unfold dispatch. repeat case_decide; intros [= <-];
    auto using acts_create_kv, acts_update_kv, acts_stamp_kv, acts_create_stream, acts_update_stream, acts_stamp_stream, acts_recreate_kv, acts_recreate_stream.
Qed.

Lemma acts_all actions report s : all_permitted s -> Forall (justified s) actions -> WP (apply_actions cfg actions report) (λ _ _, True) s.
Proof.
  revert report s. induction actions as [|a l IH]; intros report s I F; cbn [apply_actions]; [by apply wp_done|]. inversion F as [|? ? J F']; subst.
  apply wp_observed; [by repeat constructor|done|]. intros [e|] _ _; [by apply wp_done|]. cbn [observe]. rewrite app_nil_r.
  destruct (dispatch cfg a) as [m|] eqn:D; [|by apply wp_done]. apply acts_dispatch in D.
  apply pwp_bind; [exact _|done|]. eapply pwp_mono; [apply wp_grows; by apply D|]. intros r s1 I1 [_ G].
  destruct (foldActionResult report a l r) as [report'|out]; [|by apply wp_done]. apply IH; [done|]. by eapply all_justified_mono.
Qed.
End rules.

(** Resolving a resolved configuration changes nothing. *)
Lemma or_default_idem d s : or_default d (or_default d s) = or_default d s.
Proof. unfold or_default. repeat case_decide; congruence. Qed.

Lemma resolve_idem cfg resolved : resolve cfg = Ok resolved -> resolve resolved = Ok resolved.
Proof.
  unfold resolve, normalize. case_decide as V; [done|]. set (r := mkConfig _ _ _ _ _ _). destruct (validateResolved r) eqn:E; [done|]. intros [= <-].
  cbn. case_decide; [done|]. replace (mkConfig _ _ _ _ _ _) with r; [by rewrite E|]. unfold r. f_equal.
  - by rewrite or_default_idem.
  - destruct (ControlPlane cfg); [|done]. cbn. unfold normalize_control_plane. cbn. by rewrite !or_default_idem.
  - destruct (PartitionSource cfg); [|done]. cbn. unfold normalize_partition_source. cbn. rewrite or_default_idem. do 2 f_equal. by repeat case_decide.
  - rewrite <- list_fmap_compose. apply list_fmap_ext. intros i x _. unfold compose, normalize_stream. cbn. by rewrite !or_default_idem.
Qed.

(** C22. Whatever the server answers and whoever else writes to it, every write of
    [Apply] is one its policy allows. A bucket or stream is created only if the
    configuration declares it, it was missing or has just been deleted, and the
    policy is not adopt. Under adopt an update only changes Parti's own metadata
    keys of what was just read. Under safe-update and force it is made only to a
    marked resource and keeps its component, storage, history and retention.
    A resource is deleted only under force, if it is declared with
    allowDeleteRecreate, was seen marked when the plan was made, and at the re-read
    before the deletion differs in an immutable field from what is declared; that it
    is still marked then is not checked, see [unmarked_stream_deleted]. *)
Theorem apply_respects_policy cfg resolved tr out :
  resolve cfg = Ok resolved -> traces observe answers (Apply cfg) tr out ->
  forall before e after, tr = before ++ e :: after -> permitted resolved before e.
Proof.
  intros R T. enough (wp effect (all_permitted resolved) eq (Apply cfg) (λ _ _, True) []) as W.
  { exact (proj1 (run_permitted resolved _ _ _ _ _ (all_permitted_nil resolved) W T)). }
  unfold Apply. rewrite R. apply wp_observed; [by repeat constructor|apply all_permitted_nil|]. intros [e|] _ I; [by apply wp_done|]. cbn [observe] in *.
  apply pwp_bind; [exact _|done|]. unfold Plan. apply wp_observed; [by repeat constructor|done|]. intros [e|] _ I1; [by apply wp_done, wp_done|].
  rewrite (resolve_idem _ _ R). eapply pwp_mono; [by apply plan_resolved_justified|]. intros [pl|e] s1 I2 J; [|by apply wp_done].
  apply acts_all; [done|]. by apply J.
Qed.

(** ** A stream under force *)

(** A server with one stream; [later] is what another operator puts in its place after the first read. *)
Definition one_stream (X : Type) (o : op X) (s : option StreamConfig * option StreamConfig) : X * (option StreamConfig * option StreamConfig) :=
  match o in op X return X * (option StreamConfig * option StreamConfig) with
  | Lookup _ => (if s.1 then None else Some (mkError [JsErrStreamNotFound] "stream not found"), s)
  | Info n => (match s.1 with
               | Some sc => Ok (mkStream n (s_Description sc) (Subjects sc) (Retention sc) (MaxMsgs sc) (s_MaxBytes sc) (Discard sc) (MaxAge sc)
                                 (MaxMsgsPerSubject sc) (MaxMsgSize sc) (s_Storage sc) (s_Replicas sc) (s_copied sc) (s_Metadata sc))
               | None => Err (mkError [JsErrStreamNotFound] "stream not found")
               end, match s.2 with Some sc => (Some sc, None) | None => s end)
  | CreateStream c | UpdateStream c => (None, (Some c, None))
  | DeleteStream _ => (None, (None, None))
  | CtxErr | Probe | CreateKeyValue _ | UpdateKeyValue _ | DeleteKeyValue _ => (None, s)
  end.

Definition orders : StreamCfg := mkStreamCfg "ORDERS" ["orders.>"] "" "file" "" 0 0 0 0 "" true.
Definition orders_config : Config := mkConfig "parti.io/v1" "prod" "force" None None [orders].

(** The stream in memory instead of in files, with Parti's marker and without. *)
Definition orders_live (md : gmap string string) : StreamConfig :=
  mkStream "ORDERS" "" ["orders.>"] LimitsPolicy (-1) (-1) DiscardOld 0 0 0 MemoryStorage 1 no_copied md.
Definition orders_marked : StreamConfig := orders_live (BuildMarker ComponentStream "prod").
Definition orders_foreign : StreamConfig := orders_live ∅.

Lemma one_stream_answers X (o : op X) s : answers X o (one_stream X o s).1.
Proof. destruct o; cbn; try done. by destruct s.1. Qed.

Lemma apply_respects_policy_witness :
  permitted (mkConfig "parti.io/v1" "prod" "force" None None [normalize_stream orders])
    [Seen "ORDERS" orders_marked; Seen "ORDERS" orders_marked] (DeletedStream "ORDERS").
Proof.
  refine (apply_respects_policy orders_config _ (events one_stream observe (Apply orders_config) (Some orders_marked, None)) _ _ _ _ _ _ _).
  - vm_compute. reflexivity.
  - apply (run_traces one_stream observe answers). apply one_stream_answers.
  - vm_compute. reflexivity.
Defined.

(** The marker is looked at in the plan only: a stream that lost its marker since then, or another
    one in its place, is deleted all the same. *)
Lemma unmarked_stream_deleted :
  exists after out, traces observe answers (Apply orders_config)
    ([Seen "ORDERS" orders_marked; Seen "ORDERS" orders_foreign; DeletedStream "ORDERS"] ++ after) out /\ ~ managed (s_Metadata orders_foreign).
Proof.
  pose proof (run_traces one_stream observe answers (Apply orders_config) (Some orders_marked, Some orders_foreign) one_stream_answers) as T.
  eexists _, _. split; [|done]. refine (eq_ind _ (λ tr, traces observe answers (Apply orders_config) tr _) T _ _). vm_compute. reflexivity.
Qed.
