(* ===== verification/ProvisionConvergence.v ===== *)
(** * Provisioning converges (provision/)

    On a server that carries out what it is asked, [Apply] executes its whole plan
    and the next [Plan] has nothing left to do. [Server] states what the server
    and the client library do with a configuration: they store it up to the
    defaults the comparisons of the package allow for, and they may add metadata
    of their own. *)
From S2P Require Import Prelude Nats Effects Pattern Provision ProvisionSafety.

(** ** Servers *)

Definition same_marker (md md' : gmap string string) : Prop := forall k, k ∈ parti_keys -> md' !! k = md !! k.

Record reflects_kv (c : KeyValueConfig) (sc : StreamConfig) : Prop := {
  rk_name : Name sc = kvStreamPrefix +:+ Bucket c;
  rk_ttl : MaxAge sc = TTL c;
  rk_replicas : normalizeReplicas (s_Replicas sc) = normalizeReplicas (Replicas c);
  rk_size : normalizeMaxValueSize (MaxMsgSize sc) = normalizeMaxValueSize (MaxValueSize c);
  rk_storage : s_Storage sc = Storage c;
  rk_history : (1 <= History c <= 64)%Z -> MaxMsgsPerSubject sc = History c;
  rk_marker : same_marker (Metadata c) (s_Metadata sc);
}.

Record reflects_stream (c sc : StreamConfig) : Prop := {
  rs_name : Name sc = Name c;
  rs_description : s_Description sc = s_Description c;
  rs_subjects : Subjects sc ≡ₚ Subjects c;
  rs_retention : Retention sc = Retention c;
  rs_msgs : normalizeStreamLimit (MaxMsgs sc) = normalizeStreamLimit (MaxMsgs c);
  rs_bytes : normalizeStreamLimit (s_MaxBytes sc) = normalizeStreamLimit (s_MaxBytes c);
  rs_discard : Discard sc = Discard c;
  rs_age : MaxAge sc = MaxAge c;
  rs_replicas : normalizeReplicas (s_Replicas sc) = normalizeReplicas (s_Replicas c);
  rs_storage : s_Storage sc = s_Storage c;
  rs_marker : same_marker (s_Metadata c) (s_Metadata sc);
}.

(** What is stored for a request, given what was there. *)
Class Server := {
  store_kv : option StreamConfig -> KeyValueConfig -> StreamConfig;
  store_stream : option StreamConfig -> StreamConfig -> StreamConfig;
  store_kv_reflects old c : reflects_kv c (store_kv old c);
  store_stream_reflects old c : reflects_stream c (store_stream old c);
}.

Notation live_streams := (gmap string StreamConfig).

Definition no_stream : go_error := mkError [JsErrStreamNotFound] "stream not found".
Definition no_bucket : go_error := mkError [JsErrBucketNotFound] "bucket not found".
Definition bucket_exists : go_error := mkError [JsErrBucketExists] "bucket name already in use".
Definition stream_exists : go_error := mkError [JsErrStreamNameAlreadyInUse] "stream name already in use".

Section server.
Context {SV : Server}.

Definition create (n : string) (taken : go_error) (sc : StreamConfig) (s : live_streams) : option go_error * live_streams :=
  match s !! n with Some _ => (Some taken, s) | None => (None, <[n := sc]> s) end.
Definition update (n : string) (missing : go_error) (store : StreamConfig -> StreamConfig) (s : live_streams) : option go_error * live_streams :=
  match s !! n with Some old => (None, <[n := store old]> s) | None => (Some missing, s) end.
Definition remove (n : string) (missing : go_error) (s : live_streams) : option go_error * live_streams :=
  match s !! n with Some _ => (None, delete n s) | None => (Some missing, s) end.

Definition serve (X : Type) (o : op X) (s : live_streams) : X * live_streams :=
  match o in op X return X * live_streams with
  | CtxErr | Probe => (None, s)
  | Lookup n => (if s !! n then None else Some no_stream, s)
  | Info n => (match s !! n with Some sc => Ok sc | None => Err no_stream end, s)
  | CreateKeyValue c => create (kvStreamPrefix +:+ Bucket c) bucket_exists (store_kv None c) s
  | UpdateKeyValue c => update (kvStreamPrefix +:+ Bucket c) no_bucket (λ old, store_kv (Some old) c) s
  | DeleteKeyValue b => remove (kvStreamPrefix +:+ b) no_bucket s
  | CreateStream c => create (Name c) stream_exists (store_stream None c) s
  | UpdateStream c => update (Name c) no_stream (λ old, store_stream (Some old) c) s
  | DeleteStream n => remove n no_stream s
  end.
End server.

(** ** Markers *)

Definition marker_set (inst : string) (md : gmap string string) : Prop :=
  md !! MarkerManagedKey = Some MarkerManagedValue /\ md !! MarkerInstanceKey = if decide (inst = "") then None else Some inst.

Lemma BuildMarker_set c inst : marker_set inst (BuildMarker c inst).
Proof. unfold marker_set, BuildMarker. case_decide; by simplify_map_eq. Qed.

Lemma mergeUpdate_set md inst : marker_set inst (mergeUpdateKVMetadata md inst).
Proof. unfold marker_set, mergeUpdateKVMetadata. case_decide; by simplify_map_eq. Qed.

(** Exactly the metadata an update leaves as they are. *)
Lemma marker_set_fixed md inst : mergeUpdateKVMetadata md inst = md <-> marker_set inst md.
Proof.
  split; [intros <-; apply mergeUpdate_set|]. intros [M I]. unfold mergeUpdateKVMetadata. rewrite insert_id by done.
  case_decide; [by apply delete_id|by apply insert_id].
Qed.

Lemma same_marker_set md md' inst : same_marker md md' -> marker_set inst md -> marker_set inst md'.
Proof. intros S [M I]. by split; rewrite S by (unfold parti_keys; set_solver). Qed.

Lemma same_marker_component md md' : same_marker md md' -> value_of md' MarkerComponentKey = value_of md MarkerComponentKey.
Proof. intros S. unfold value_of. by rewrite S by (unfold parti_keys; set_solver). Qed.

Lemma marker_set_managed md inst : marker_set inst md -> managed md.
Proof. intros [M _]. unfold managed, IsManaged, ParseMarker, value_of. cbn. by rewrite M. Qed.

Lemma marker_set_parsed md inst : marker_set inst md -> Managed (ParseMarker md) = MarkerManagedValue /\ MarkerInstance (ParseMarker md) = inst.
Proof. intros [M I]. unfold ParseMarker, value_of. cbn. rewrite M, I. by case_decide. Qed.

Lemma mergeMarker_managed md c inst : managed (mergeMarkerMetadata md c inst).
Proof.
  unfold managed, IsManaged, ParseMarker, value_of, mergeMarkerMetadata, BuildMarker. cbn.
  case_decide; by rewrite ?lookup_delete_ne, lookup_union_l', lookup_insert by done.
Qed.

Lemma same_marker_managed md md' : same_marker md md' -> managed md -> managed md'.
Proof. intros S. unfold managed, IsManaged, ParseMarker, value_of. cbn. by rewrite S by (unfold parti_keys; set_solver). Qed.

(** The component a marked resource is parsed to is the wanted one exactly if it carries it. *)
Lemma parsed_component md c : managed md -> c ∈ components -> Component (ParseMarker md) = c <-> value_of md MarkerComponentKey = c.
Proof.
  assert (ComponentUnknown ∉ components) as U by (by apply (bool_decide_unpack _)).
  unfold managed, IsManaged, ParseMarker. cbn. intros M%bool_decide_eq_true C. case_decide as E; [done|]. case_decide as K; [done|].
  by split; intros <-.
Qed.

(** ** Drift *)

Definition present {A} (o : option A) : bool := if o then true else false.

Definition severity_free (sev : string) (fs : list DriftFinding) : Prop := Forall (λ f, Severity f <> sev) fs.

Lemma findings_immutable kind name b : present (immutableFindingDetail (findings kind name b)) = negb (bool_decide (immutable b = [])).
Proof. unfold findings, immutableFindingDetail. destruct (immutable b), (mutable b); reflexivity. Qed.

Lemma no_immutable_finding fs : present (immutableFindingDetail fs) = false -> severity_free SeverityDriftImmutable fs.
Proof.
  intros G. apply Forall_forall. intros f In S. unfold immutableFindingDetail in G.
  assert (f ∈ filter (λ f, Severity f = SeverityDriftImmutable) fs) as In' by by apply list_elem_of_filter.
  destruct (filter _ _); [by apply elem_of_nil in In'|done].
Qed.

Lemma findings_mutable kind name b : mutable b = [] -> severity_free SeverityDriftMutable (findings kind name b).
Proof. unfold findings. intros ->. destruct (immutable b); repeat constructor. done. Qed.

Lemma immutable_addImmutable p f b : bool_decide (immutable (addImmutable p f b) = []) = bool_decide (immutable b = []) && negb p.
Proof. destruct p; cbn; [|by rewrite andb_true_r]. rewrite andb_false_r. apply bool_decide_eq_false. by destruct (immutable b). Qed.

Lemma immutable_addMutable p f b : bool_decide (immutable (addMutable p f b) = []) = bool_decide (immutable b = []).
Proof. by destruct p. Qed.

Lemma mutable_addMutable p f b : p = false -> mutable b = [] -> mutable (addMutable p f b) = [].
Proof. by intros ->. Qed.

Lemma mutable_addImmutable p f b : mutable b = [] -> mutable (addImmutable p f b) = [].
Proof. by destruct p. Qed.

Lemma classify_present kind name c md in_sync drift :
  managed md -> (in_sync = true -> immutable drift = []) ->
  present (immutableFindingDetail (classify kind name c md in_sync drift)) = negb (bool_decide (immutable drift = [])).
Proof.
  unfold managed, classify. intros -> H. cbn [negb]. destruct in_sync; [by rewrite H|]. apply findings_immutable.
Qed.

Lemma classify_mutable kind name c md in_sync drift :
  managed md -> mutable drift = [] -> severity_free SeverityDriftMutable (classify kind name c md in_sync drift).
Proof. unfold managed, classify. intros -> H. cbn [negb]. destruct in_sync; [by repeat constructor|]. by apply findings_mutable. Qed.

Lemma classify_unmarked kind name c md in_sync drift :
  ~ managed md -> Forall (λ f, Severity f = SeverityAdopted) (classify kind name c md in_sync drift).
Proof. unfold managed, classify. destruct (IsManaged _); [done|]. by repeat constructor. Qed.

(** What [kvConfigsEqual] compares. *)
Lemma kvConfigsEqual_spec a b :
  kvConfigsEqual a b = true <->
  normalizeReplicas (Replicas a) = normalizeReplicas (Replicas b) /\ normalizeMaxValueSize (MaxValueSize a) = normalizeMaxValueSize (MaxValueSize b) /\
  TTL a = TTL b /\ Metadata a = Metadata b /\ History a = History b /\ Storage a = Storage b.
Proof. unfold kvConfigsEqual. rewrite !andb_true_iff, !bool_decide_eq_true. tauto. Qed.

Lemma mergeMarker_component md c inst : value_of (mergeMarkerMetadata md c inst) MarkerComponentKey = c.
Proof.
  unfold value_of, mergeMarkerMetadata, BuildMarker.
  case_decide; rewrite ?lookup_delete_ne by done; by rewrite lookup_union_l', ?lookup_insert_ne, ?lookup_insert by (simplify_map_eq; done).
Qed.

Lemma kvImmutableDriftPresent_false live after :
  kvImmutableDriftPresent live after = false <->
  Storage live = Storage after /\ History live = History after /\
  value_of (Metadata live) MarkerComponentKey = value_of (Metadata after) MarkerComponentKey.
Proof.
  unfold kvImmutableDriftPresent. rewrite !orb_false_iff, !bool_decide_eq_false. split; [intros [[? ?] ?]|intros (? & ? & ?)]; split_and!; tauto || by apply dec_stable.
Qed.

Lemma BuildMarker_component c inst : value_of (BuildMarker c inst) MarkerComponentKey = c.
Proof. unfold value_of, BuildMarker. case_decide; by simplify_map_eq. Qed.

(** The immutable drift of a bucket, as the classifiers record it. *)
Lemma kv_immutable_drift kind name c' (sc : StreamConfig) (wanted create : KeyValueConfig) c drift :
  let live := streamConfigToKVConfig sc in
  managed (s_Metadata sc) -> c ∈ components -> Storage wanted = Storage create -> History wanted = History create ->
  value_of (Metadata wanted) MarkerComponentKey = c -> value_of (Metadata create) MarkerComponentKey = c ->
  bool_decide (immutable drift = []) =
    negb (bool_decide (Storage live <> Storage wanted)) && negb (bool_decide (History live <> History wanted)) &&
    negb (bool_decide (Component (ParseMarker (s_Metadata sc)) <> c)) ->
  present (immutableFindingDetail (classify kind name c' (s_Metadata sc) (kvConfigsEqual wanted live) drift)) = kvImmutableDriftPresent live create.
Proof.
  intros live M C ES EH EW EC D. rewrite classify_present; [|done|].
  - rewrite D, !negb_andb, !negb_involutive, ES, EH. unfold kvImmutableDriftPresent. f_equal. apply bool_decide_ext. rewrite EC.
    by rewrite parsed_component.
  - rewrite kvConfigsEqual_spec. intros (_ & _ & _ & EM & EH' & ES'). apply (bool_decide_eq_true_1 (immutable drift = [])). rewrite D, ES', EH'.
    replace (Component _) with c; [by rewrite !bool_decide_eq_false_2 by tauto|]. symmetry. apply parsed_component; [done..|]. by rewrite <- EW, EM.
Qed.

Ltac drift_fields := rewrite ?immutable_addImmutable, ?immutable_addMutable, ?immutable_addImmutable, ?immutable_addMutable.

(** ** Buckets *)

Section buckets.
Context (cfg : Config).

(** What planning needs to know of a declared bucket. *)
Record bucket_decl := mkDecl {
  d_kind : string;
  d_name : string;
  d_component : string;
  d_allow : bool;
  d_create : KeyValueConfig;
  d_target : KeyValueConfig -> KeyValueConfig;
  d_classify : StreamConfig -> list DriftFinding;
}.

Definition control_decl (cp : ControlPlaneConfig) (spec : controlPlaneSpec) : bucket_decl :=
  mkDecl KindControlPlaneKV (bucket spec) (component spec) (cp_AllowDeleteRecreate cp) (newCreateKV spec (Instance_ cfg))
    (buildControlPlaneUpdateTarget spec (Instance_ cfg)) (λ sc, classifyControlPlaneDrift spec sc (Instance_ cfg)).

Definition source_decl (ps : PartitionSourceConfig) : bucket_decl :=
  mkDecl KindPartitionSource (ps_Bucket ps) ComponentPartitionSource (ps_AllowDeleteRecreate ps) (createPartitionSource ps (Instance_ cfg))
    (buildPartitionSourceUpdateTarget ps (Instance_ cfg)) (λ sc, classifyPartitionSourceDrift ps sc (Instance_ cfg)).

Definition create_action (d : bucket_decl) : PlannedAction := mkAction ActionCreateKV (d_name d) (ResCreateKV (d_create d)).

Definition plan_found (d : bucket_decl) (sc : StreamConfig) : planned :=
  plan_bucket_found cfg (d_classify d sc) (d_allow d) (d_name d) (d_component d) (d_create d) (d_target d) sc.

Definition plan_bucket (d : bucket_decl) (live : option StreamConfig) : planned :=
  match live with
  | None => plan_missing cfg (d_kind d) (d_name d) (create_action d)
  | Some sc => plan_found d sc
  end.

Record decl_ok (d : bucket_decl) : Prop := {
  ok_bucket : Bucket (d_create d) = d_name d;
  ok_history : (1 <= History (d_create d) <= 64)%Z;
  ok_metadata : Metadata (d_create d) = BuildMarker (d_component d) (Instance_ cfg);
  ok_target_bucket b : Bucket (d_target d b) = Bucket b;
  ok_target_ttl b : TTL (d_target d b) = TTL (d_create d);
  ok_target_replicas b : normalizeReplicas (Replicas (d_target d b)) = normalizeReplicas (Replicas (d_create d));
  ok_target_size : (forall b, MaxValueSize (d_target d b) = MaxValueSize b) \/ (forall b, MaxValueSize (d_target d b) = MaxValueSize (d_create d));
  ok_target_storage b : Storage (d_target d b) = Storage b;
  ok_target_history b : History (d_target d b) = History b;
  ok_target_metadata b : Metadata (d_target d b) = mergeUpdateKVMetadata (Metadata b) (Instance_ cfg);
  ok_immutable sc : managed (s_Metadata sc) ->
    present (immutableFindingDetail (d_classify d sc)) = kvImmutableDriftPresent (streamConfigToKVConfig sc) (d_create d);
  ok_mutable sc : managed (s_Metadata sc) -> let live := streamConfigToKVConfig sc in
    kvConfigsEqual live (d_target d live) = true -> severity_free SeverityDriftMutable (d_classify d sc);
  ok_unmarked sc : ~ managed (s_Metadata sc) -> Forall (λ f, Severity f = SeverityAdopted) (d_classify d sc);
}.

Lemma control_specs_ok cp spec :
  spec ∈ buildControlPlaneSpecs cp -> validateControlPlane cp = None ->
  (0 <= ttl spec)%Z /\ (0 <= replicas spec)%Z /\ component spec ∈ components.
Proof.
  intros In V. unfold validateControlPlane in V. repeat (case_decide; [done|]). destruct (_ && _); [done|]. repeat (case_decide; [done|]).
  destruct (EnableTwoPhaseHandoff cp && _); [done|]. case_decide; [done|]. unfold buildControlPlaneSpecs in In.
  rewrite elem_of_app, !elem_of_cons in In. destruct In as [[->|[->|[->|[->|In]]]]|In]; cbn.
  5: by apply elem_of_nil in In.
  5: destruct (EnableTwoPhaseHandoff cp); [|by apply elem_of_nil in In]; apply list_elem_of_singleton in In as ->; cbn.
  all: split_and!; [lia|lia|by apply (bool_decide_unpack _)].
Qed.

Lemma control_ok cp spec :
  spec ∈ buildControlPlaneSpecs cp -> validateControlPlane cp = None -> decl_ok (control_decl cp spec).
Proof.
  intros In V. destruct (control_specs_ok cp spec In V) as (T & R & C). split; cbn; try done.
  - intros _. case_decide; lia.
  - intros _. case_decide; [done|]. f_equal. lia.
  - by left.
  - intros sc M. unfold classifyControlPlaneDrift. eapply kv_immutable_drift; [done|exact C|done|done|apply mergeMarker_component|apply BuildMarker_component|].
    repeat drift_fields. done.
  - intros sc M. rewrite kvConfigsEqual_spec. cbn. intros (ER & _ & ET & EM & _). symmetry in EM. apply marker_set_fixed, marker_set_parsed in EM as [EM EI].
    apply classify_mutable; [done|]. apply mutable_addImmutable. repeat first [apply mutable_addImmutable|apply mutable_addMutable]; try done.
    all: apply bool_decide_eq_false; tauto.
  - intros sc M. by apply classify_unmarked.
Qed.

Lemma source_ok ps : validatePartitionSource ps = None -> (1 <= ps_History ps <= 64)%Z -> decl_ok (source_decl ps).
Proof.
  intros V H. assert (0 <= ps_TTL ps)%Z as T by (unfold validatePartitionSource in V; repeat (case_decide; [done|]); lia). split; cbn; try done.
  - intros _. case_decide; lia.
  - by right.
  - intros sc M. unfold classifyPartitionSourceDrift.
    apply (kv_immutable_drift _ _ _ _ _ _ ComponentPartitionSource); [done|by apply (bool_decide_unpack _)|done|done|apply mergeMarker_component|apply BuildMarker_component|].
    repeat drift_fields. done.
  - intros sc M. rewrite kvConfigsEqual_spec. cbn. intros (ER & ES & ET & EM & _). symmetry in EM. apply marker_set_fixed, marker_set_parsed in EM as [EM EI].
    apply classify_mutable; [done|]. repeat first [apply mutable_addImmutable|apply mutable_addMutable]; try done.
    all: apply bool_decide_eq_false; tauto.
  - intros sc M. by apply classify_unmarked.
Qed.

(** ** A bucket once its action is done *)

Section settled.
Context (d : bucket_decl) (OK : decl_ok d).

(** The three branches of the planning of a bucket. *)
Lemma plan_found_actions sc :
  let live := streamConfigToKVConfig sc in
  (plan_found d sc).1 =
  if IsManaged (ParseMarker (s_Metadata sc)) then
    if policyRecreatesImmutable (Policy cfg) && d_allow d && kvImmutableDriftPresent live (d_create d)
    then [mkAction ActionRecreateKV (d_name d) (ResRecreateKV live (d_create d) (default [] (immutableFindingDetail (d_classify d sc))))]
    else if policyReconcilesMutable (Policy cfg) && negb (kvConfigsEqual live (d_target d live))
    then [mkAction ActionUpdateKV (d_name d) (ResUpdateKV live (d_target d live))] else []
  else if bool_decide (Policy cfg = PolicyAdopt) then [newStampMarkerAction (d_name d) (d_component d) (Instance_ cfg) sc] else [].
Proof using OK.
  unfold plan_found, plan_bucket_found. cbv zeta. destruct (IsManaged _) eqn:M.
  - rewrite <- (ok_immutable _ OK sc M). rewrite !andb_true_r, andb_false_r, app_nil_r. destruct (immutableFindingDetail _); cbn [present default].
    + rewrite andb_true_r. by destruct (policyRecreatesImmutable _ && _).
    + by rewrite andb_false_r.
  - rewrite !andb_false_r, andb_true_r. cbn [app andb]. by destruct (immutableFindingDetail _).
Qed.

Lemma target_reached sc :
  marker_set (Instance_ cfg) (s_Metadata sc) -> MaxAge sc = TTL (d_create d) ->
  normalizeReplicas (s_Replicas sc) = normalizeReplicas (Replicas (d_create d)) ->
  (forall b, MaxValueSize (d_target d b) = MaxValueSize b) \/
  normalizeMaxValueSize (MaxMsgSize sc) = normalizeMaxValueSize (MaxValueSize (d_target d (streamConfigToKVConfig sc))) ->
  kvConfigsEqual (streamConfigToKVConfig sc) (d_target d (streamConfigToKVConfig sc)) = true.
Proof using OK.
  intros MS T R S. apply kvConfigsEqual_spec. cbn.
  rewrite (ok_target_replicas _ OK), (ok_target_ttl _ OK), (ok_target_metadata _ OK), (ok_target_history _ OK), (ok_target_storage _ OK).
  split_and!; [done| |done|symmetry; by apply marker_set_fixed|done|done]. destruct S as [E|E]; [by rewrite E|done].
Qed.

Lemma immutable_kept sc :
  s_Storage sc = Storage (d_create d) -> MaxMsgsPerSubject sc = History (d_create d) ->
  value_of (s_Metadata sc) MarkerComponentKey = value_of (Metadata (d_create d)) MarkerComponentKey ->
  kvImmutableDriftPresent (streamConfigToKVConfig sc) (d_create d) = false.
Proof using OK.
  intros S H C. apply kvImmutableDriftPresent_false. cbn. split_and!; [done| |done]. rewrite H. pose proof (ok_history _ OK).
  unfold historyFromStream. lia.
Qed.

Lemma created_settled sc : reflects_kv (d_create d) sc -> (plan_found d sc).1 = [].
Proof using OK.
  intros R. rewrite plan_found_actions.
  assert (marker_set (Instance_ cfg) (s_Metadata sc)) as MS.
  { eapply same_marker_set; [apply (rk_marker _ _ R)|]. rewrite (ok_metadata _ OK). apply BuildMarker_set. }
  pose proof (marker_set_managed _ _ MS) as M. unfold managed in M. rewrite M, immutable_kept, andb_false_r.
  2: apply R. 2: apply R, OK. 2: by apply same_marker_component, R.
  rewrite target_reached, andb_false_r; [done|done|apply R..|]. destruct (ok_target_size _ OK) as [E|E]; [by left|right].
  rewrite E. apply R.
Qed.

Lemma updated_settled old sc :
  let live := streamConfigToKVConfig old in
  policyRecreatesImmutable (Policy cfg) && d_allow d && kvImmutableDriftPresent live (d_create d) = false ->
  reflects_kv (d_target d live) sc -> (plan_found d sc).1 = [].
Proof using OK.
  intros live G R. rewrite plan_found_actions.
  assert (marker_set (Instance_ cfg) (s_Metadata sc)) as MS.
  { eapply same_marker_set; [apply (rk_marker _ _ R)|]. rewrite (ok_target_metadata _ OK). apply mergeUpdate_set. }
  pose proof (marker_set_managed _ _ MS) as M. unfold managed in M. rewrite M.
  replace (policyRecreatesImmutable _ && _ && _) with false.
  - rewrite target_reached, andb_false_r; [done|done| | |].
    + by rewrite (rk_ttl _ _ R), (ok_target_ttl _ OK).
    + by rewrite (rk_replicas _ _ R), (ok_target_replicas _ OK).
    + destruct (ok_target_size _ OK) as [E|E]; [by left|right]. by rewrite (rk_size _ _ R), !E.
  - symmetry. destruct (policyRecreatesImmutable _ && _); cbn [andb] in *; [|done]. apply kvImmutableDriftPresent_false in G as (GS & GH & GC).
    apply immutable_kept.
    + by rewrite (rk_storage _ _ R), (ok_target_storage _ OK).
    + rewrite (rk_history _ _ R), (ok_target_history _ OK); [done|]. rewrite (ok_target_history _ OK), GH. apply OK.
    + rewrite (same_marker_component _ _ (rk_marker _ _ R)), (ok_target_metadata _ OK), <- GC. unfold value_of.
      by rewrite (merge_update_component (Metadata live) (Instance_ cfg)).
Qed.

Lemma adopted_settled sc : Policy cfg = PolicyAdopt -> managed (s_Metadata sc) -> (plan_found d sc).1 = [].
Proof using OK. intros P M. rewrite plan_found_actions. unfold managed in M. by rewrite M, P. Qed.

(** A bucket with nothing left to do has no drift the policy could repair. *)
Lemma settled_in_sync sc :
  (plan_found d sc).1 = [] ->
  (policyReconcilesMutable (Policy cfg) = true -> severity_free SeverityDriftMutable (d_classify d sc)) /\
  (policyRecreatesImmutable (Policy cfg) && d_allow d = true -> severity_free SeverityDriftImmutable (d_classify d sc)).
Proof using OK.
  rewrite plan_found_actions. destruct (IsManaged _) eqn:M.
  - destruct (policyRecreatesImmutable _ && d_allow d && _) eqn:G; [done|]. destruct (_ && negb _) eqn:U; [done|]. intros _. split.
    + intros P. rewrite P in U. cbn in U. apply negb_false_iff in U. by apply (ok_mutable _ OK).
    + intros A. rewrite A in G. cbn [andb] in G. rewrite <- (ok_immutable _ OK sc M) in G. by apply no_immutable_finding.
  - intros _. assert (~ managed (s_Metadata sc)) as N by (unfold managed; by rewrite M).
    pose proof (ok_unmarked _ OK sc N) as F. split; intros _; (eapply Forall_impl; [exact F|]); intros f E; by rewrite E.
Qed.
End settled.
End buckets.

(** ** Streams *)

Section streams.
Context (cfg : Config) (st : StreamCfg).

Definition stream_create : StreamConfig := buildStreamConfig st (Instance_ cfg).
Definition stream_target (live : StreamConfig) : StreamConfig := buildStreamUpdateTarget st (Instance_ cfg) live.

Definition plan_stream (live : option StreamConfig) : planned :=
  match live with
  | None => plan_missing cfg KindApplicationStream (sc_Name st) (mkAction ActionCreateStream (sc_Name st) (ResCreateStream stream_create))
  | Some sc => plan_stream_found cfg st sc
  end.

Lemma streamConfigsEqual_spec a b :
  streamConfigsEqual a b = true <->
  sort_strings (Subjects a) = sort_strings (Subjects b) /\ s_Storage a = s_Storage b /\ Retention a = Retention b /\ Discard a = Discard b /\
  normalizeReplicas (s_Replicas a) = normalizeReplicas (s_Replicas b) /\ MaxAge a = MaxAge b /\
  normalizeStreamLimit (s_MaxBytes a) = normalizeStreamLimit (s_MaxBytes b) /\ normalizeStreamLimit (MaxMsgs a) = normalizeStreamLimit (MaxMsgs b) /\
  s_Description a = s_Description b /\ s_Metadata a = s_Metadata b.
Proof. unfold streamConfigsEqual. rewrite !andb_true_iff, !bool_decide_eq_true. tauto. Qed.

Lemma streamImmutableDriftPresent_false live after :
  streamImmutableDriftPresent live after = false <->
  s_Storage live = s_Storage after /\ Retention live = Retention after /\
  value_of (s_Metadata live) MarkerComponentKey = value_of (s_Metadata after) MarkerComponentKey.
Proof.
  unfold streamImmutableDriftPresent. rewrite !orb_false_iff, !bool_decide_eq_false. split; [intros [[? ?] ?]|intros (? & ? & ?)]; split_and!; tauto || by apply dec_stable.
Qed.

Lemma stream_immutable sc :
  managed (s_Metadata sc) ->
  present (immutableFindingDetail (classifyStreamDrift st sc (Instance_ cfg))) = streamImmutableDriftPresent sc stream_create.
Proof.
  intros M. unfold classifyStreamDrift. set (drift := routeStreamFieldDrift _ _ _ _ _).
  assert (ComponentStream ∈ components) as C by by apply (bool_decide_unpack _).
  assert (bool_decide (immutable drift = []) = negb (streamImmutableDriftPresent sc stream_create)) as D.
  { unfold drift, routeStreamFieldDrift, streamImmutableDriftPresent. repeat drift_fields. rewrite !negb_orb. cbn [s_Storage Retention wantedStreamConfig stream_create].
    f_equal. f_equal. apply bool_decide_ext. change (s_Metadata stream_create) with (BuildMarker ComponentStream (Instance_ cfg)).
    by rewrite BuildMarker_component, parsed_component. }
  rewrite classify_present; [by rewrite D, negb_involutive|done|]. rewrite streamConfigsEqual_spec. cbn. intros (_ & ES & ER & _ & _ & _ & _ & _ & _ & EM).
  apply (bool_decide_eq_true_1 (immutable drift = [])). rewrite D. apply negb_true_iff, streamImmutableDriftPresent_false. cbn.
  split_and!; [done..|]. by rewrite <- EM, mergeMarker_component, BuildMarker_component.
Qed.

Lemma stream_mutable sc :
  managed (s_Metadata sc) -> streamConfigsEqual sc (stream_target sc) = true ->
  severity_free SeverityDriftMutable (classifyStreamDrift st sc (Instance_ cfg)).
Proof.
  intros M. rewrite streamConfigsEqual_spec. cbn. intros (ES & _ & _ & ED & ER & EA & EB & EN & EE & EM). symmetry in EM.
  apply marker_set_fixed, marker_set_parsed in EM as [EM EI]. apply classify_mutable; [done|]. unfold routeStreamFieldDrift.
  repeat first [apply mutable_addImmutable|apply mutable_addMutable]; try done. all: apply bool_decide_eq_false; cbn; tauto.
Qed.

Lemma stream_found_actions sc :
  (plan_stream_found cfg st sc).1 =
  if IsManaged (ParseMarker (s_Metadata sc)) then
    if policyRecreatesImmutable (Policy cfg) && sc_AllowDeleteRecreate st && streamImmutableDriftPresent sc stream_create
    then [mkAction ActionRecreateStream (sc_Name st)
            (ResRecreateStream sc stream_create (default [] (immutableFindingDetail (classifyStreamDrift st sc (Instance_ cfg)))))]
    else if policyReconcilesMutable (Policy cfg) && negb (streamConfigsEqual sc (stream_target sc))
    then [mkAction ActionUpdateStream (sc_Name st) (ResUpdateStream sc (stream_target sc))] else []
  else if bool_decide (Policy cfg = PolicyAdopt) then [newStampStreamMarkerAction (sc_Name st) (Instance_ cfg) sc] else [].
Proof.
  unfold plan_stream_found. cbv zeta. destruct (IsManaged _) eqn:M.
  - rewrite <- (stream_immutable sc M). rewrite !andb_true_r, andb_false_r, app_nil_r. destruct (immutableFindingDetail _); cbn [present default].
    + rewrite andb_true_r. by destruct (policyRecreatesImmutable _ && _).
    + by rewrite andb_false_r.
  - rewrite !andb_false_r, andb_true_r. cbn [app andb]. by destruct (immutableFindingDetail _).
Qed.

(** [c] asks for what the configuration declares, up to the immutable fields. *)
Lemma stream_target_reached c sc :
  reflects_stream c sc -> marker_set (Instance_ cfg) (s_Metadata c) -> (c = stream_create \/ exists old, c = stream_target old) ->
  streamConfigsEqual sc (stream_target sc) = true.
Proof.
  intros R MS H. apply streamConfigsEqual_spec.
  assert (Subjects c = sc_Subjects st /\ Discard c = discardPolicyFromString (sc_Discard st) /\ s_Replicas c = sc_Replicas st /\ MaxAge c = sc_MaxAge st /\
    s_MaxBytes c = normalizeStreamLimit (sc_MaxBytes st) /\ MaxMsgs c = normalizeStreamLimit (sc_MaxMsgs st) /\ s_Description c = sc_Description st)
    as (ES & ED & ER & EA & EB & EN & EE) by (destruct H as [->|[old ->]]; done).
  cbn. rewrite <- ES, <- ED, <- ER, <- EA, <- EB, <- EN, <- EE. split_and!; try apply R; try done.
  - apply sort_strings_unique, R.
  - symmetry. apply marker_set_fixed. eapply same_marker_set; [apply R|done].
Qed.

Lemma created_stream_settled sc : reflects_stream stream_create sc -> (plan_stream_found cfg st sc).1 = [].
Proof.
  intros R. rewrite stream_found_actions. pose proof (BuildMarker_set ComponentStream (Instance_ cfg)) as MS.
  pose proof (marker_set_managed _ _ (same_marker_set _ _ _ (rs_marker _ _ R) MS)) as M. unfold managed in M. rewrite M.
  rewrite (proj2 (streamImmutableDriftPresent_false _ _)), andb_false_r.
  2: { split_and!; [apply R..|]. by apply same_marker_component, R. }
  rewrite (stream_target_reached _ _ R MS), andb_false_r; [done|by left].
Qed.

Lemma updated_stream_settled old sc :
  policyRecreatesImmutable (Policy cfg) && sc_AllowDeleteRecreate st && streamImmutableDriftPresent old stream_create = false ->
  reflects_stream (stream_target old) sc -> (plan_stream_found cfg st sc).1 = [].
Proof.
  intros G R. rewrite stream_found_actions. pose proof (mergeUpdate_set (s_Metadata old) (Instance_ cfg)) as MS.
  pose proof (marker_set_managed _ _ (same_marker_set _ _ _ (rs_marker _ _ R) MS)) as M. unfold managed in M. rewrite M.
  replace (policyRecreatesImmutable _ && _ && _) with false.
  - rewrite (stream_target_reached _ _ R MS), andb_false_r; [done|]. right. by exists old.
  - symmetry. destruct (policyRecreatesImmutable _ && _); cbn [andb] in *; [|done]. apply streamImmutableDriftPresent_false in G as (GS & GR & GC).
    apply streamImmutableDriftPresent_false. split_and!; [by rewrite (rs_storage _ _ R)|by rewrite (rs_retention _ _ R)|].
    rewrite (same_marker_component _ _ (rs_marker _ _ R)), <- GC. unfold value_of. cbn. by rewrite (merge_update_component (s_Metadata old) (Instance_ cfg)).
Qed.

Lemma adopted_stream_settled sc : Policy cfg = PolicyAdopt -> managed (s_Metadata sc) -> (plan_stream_found cfg st sc).1 = [].
Proof. intros P M. rewrite stream_found_actions. unfold managed in M. by rewrite M, P. Qed.

Lemma settled_stream_in_sync sc :
  (plan_stream_found cfg st sc).1 = [] -> let fs := classifyStreamDrift st sc (Instance_ cfg) in
  (policyReconcilesMutable (Policy cfg) = true -> severity_free SeverityDriftMutable fs) /\
  (policyRecreatesImmutable (Policy cfg) && sc_AllowDeleteRecreate st = true -> severity_free SeverityDriftImmutable fs).
Proof.
  rewrite stream_found_actions. cbv zeta. destruct (IsManaged _) eqn:M.
  - destruct (policyRecreatesImmutable _ && sc_AllowDeleteRecreate st && _) eqn:G; [done|]. destruct (_ && negb _) eqn:U; [done|]. intros _. split.
    + intros P. rewrite P in U. cbn in U. apply negb_false_iff in U. by apply stream_mutable.
    + intros A. rewrite A in G. cbn [andb] in G. rewrite <- (stream_immutable sc M) in G. by apply no_immutable_finding.
  - intros _. assert (~ managed (s_Metadata sc)) as N by (unfold managed; by rewrite M).
    pose proof (classify_unmarked KindApplicationStream (sc_Name st) ComponentStream (s_Metadata sc)
      (streamConfigsEqual (wantedStreamConfig st (Instance_ cfg) sc) sc) (routeStreamFieldDrift sc (wantedStreamConfig st (Instance_ cfg) sc) (ParseMarker (s_Metadata sc)) (Instance_ cfg) no_drift) N) as F.
    split; intros _; (eapply Forall_impl; [exact F|]); intros f E; by rewrite E.
Qed.
End streams.

(** ** Everything a configuration declares *)

Inductive declared := DBucket (d : bucket_decl) | DStream (st : StreamCfg).

Definition stream_name (d : declared) : string :=
  match d with DBucket d => kvStreamPrefix +:+ d_name d | DStream st => sc_Name st end.

Definition declared_list (cfg : Config) : list declared :=
  match ControlPlane cfg with Some cp => (λ spec, DBucket (control_decl cfg cp spec)) <$> buildControlPlaneSpecs cp | None => [] end ++
  match PartitionSource cfg with Some ps => [DBucket (source_decl cfg ps)] | None => [] end ++
  (DStream <$> Streams cfg).

Definition plan_for (cfg : Config) (d : declared) (live : option StreamConfig) : planned :=
  match d with DBucket d => plan_bucket cfg d live | DStream st => plan_stream cfg st live end.

(** Each resource of its own, and a history the client library accepts. *)
Record provisionable (cfg : Config) : Prop := {
  distinct_names : NoDup (stream_name <$> declared_list cfg);
  history_range ps : PartitionSource cfg = Some ps -> (1 <= ps_History ps <= 64)%Z;
}.

Definition planned_all (cfg : Config) (s : live_streams) (ds : list declared) : planned :=
  (concat ((λ d, (plan_for cfg d (s !! stream_name d)).1) <$> ds), concat ((λ d, (plan_for cfg d (s !! stream_name d)).2) <$> ds)).

Definition join (p q : planned) : planned := (p.1 ++ q.1, p.2 ++ q.2).

Lemma planned_all_app cfg s ds1 ds2 : planned_all cfg s (ds1 ++ ds2) = join (planned_all cfg s ds1) (planned_all cfg s ds2).
Proof. unfold planned_all, join. cbn. by rewrite !fmap_app, !concat_app. Qed.

Section runs.
Context {SV : Server} (cfg : Config).

Lemma run_inspect name missing found s :
  run serve (inspect name missing found) s = (Ok match s !! name with None => missing | Some sc => found sc end, s).
Proof. unfold inspect. rewrite run_op. cbn [serve fst snd]. destruct (s !! name) as [sc|] eqn:E; [|done]. rewrite run_op. cbn. by rewrite E. Qed.

Lemma run_each {A} (one : A -> prog (res go_error planned)) (res_of : A -> declared) l s :
  (forall x, run serve (one x) s = (Ok (plan_for cfg (res_of x) (s !! stream_name (res_of x))), s)) ->
  run serve (plan_each one l) s = (Ok (planned_all cfg s (res_of <$> l)), s).
Proof.
  intros H. induction l as [|x l IH]; [done|]. cbn [plan_each]. rewrite run_op. cbn [serve fst snd]. rewrite run_bind, H. cbn [fst snd].
  destruct (plan_for cfg (res_of x) _) as [as1 ds1] eqn:E. cbv beta iota zeta. rewrite run_bind, IH. cbn. unfold planned_all. cbn. by rewrite E.
Qed.

Lemma run_step m s p : run serve m s = (Ok p, s) -> run serve (runPlanStep m) s = (Ok p, s).
Proof. intros H. unfold runPlanStep. by rewrite run_bind, H. Qed.

Lemma run_run_steps steps ps acc s :
  Forall2 (λ m p, run serve m s = (Ok p, s)) steps ps -> run serve (run_steps steps acc) s = (Ok (foldl join acc ps), s).
Proof.
  intros F. revert acc. induction F as [|m p steps ps H F IH]; intros acc; [done|]. cbn [run_steps]. rewrite run_bind, (run_step _ _ _ H). cbn [fst snd].
  destruct p as [as1 ds1]. by rewrite IH.
Qed.

Lemma run_control cp s :
  run serve (planControlPlane cfg cp) s = (Ok (planned_all cfg s ((λ spec, DBucket (control_decl cfg cp spec)) <$> buildControlPlaneSpecs cp)), s).
Proof.
  apply (run_each _ (λ spec, DBucket (control_decl cfg cp spec))). intros spec. unfold planControlPlane_one. rewrite run_inspect. cbn. by destruct (s !! _).
Qed.

Lemma run_source ps s : run serve (planPartitionSource cfg ps) s = (Ok (planned_all cfg s [DBucket (source_decl cfg ps)]), s).
Proof.
  unfold planPartitionSource. rewrite run_inspect. unfold planned_all. cbn. rewrite !app_nil_r, <- surjective_pairing. by destruct (s !! _).
Qed.

Lemma run_streams s : run serve (planStreams cfg) s = (Ok (planned_all cfg s (DStream <$> Streams cfg)), s).
Proof. apply run_each. intros x. unfold planStreams_one. rewrite run_inspect. cbn. by destruct (s !! _). Qed.

(** The resources, step by step. *)
Definition decl_groups : list (list declared) :=
  match ControlPlane cfg with Some cp => [(λ spec, DBucket (control_decl cfg cp spec)) <$> buildControlPlaneSpecs cp] | None => [] end ++
  match PartitionSource cfg with Some ps => [[DBucket (source_decl cfg ps)]] | None => [] end ++
  match Streams cfg with [] => [] | _ => [DStream <$> Streams cfg] end.

Lemma decl_groups_concat : concat decl_groups = declared_list cfg.
Proof.
  unfold decl_groups, declared_list. rewrite !concat_app. repeat f_equal.
  - destruct (ControlPlane cfg); [|done]. cbn. by rewrite app_nil_r.
  - by destruct (PartitionSource cfg).
  - destruct (Streams cfg); [done|]. cbn. by rewrite app_nil_r.
Qed.

Lemma run_groups s : Forall2 (λ m p, run serve m s = (Ok p, s)) (plan_steps cfg) (planned_all cfg s <$> decl_groups).
Proof.
  unfold plan_steps, decl_groups. rewrite !fmap_app. repeat apply Forall2_app.
  - destruct (ControlPlane cfg); repeat constructor. apply run_control.
  - destruct (PartitionSource cfg); repeat constructor. apply run_source.
  - pose proof (run_streams s). destruct (Streams cfg); repeat constructor. done.
Qed.

Lemma foldl_join acc s gs : foldl join acc (planned_all cfg s <$> gs) = join acc (planned_all cfg s (concat gs)).
Proof.
  revert acc. induction gs as [|g gs IH]; intros acc; cbn.
  - destruct acc. unfold join. cbn. by rewrite !app_nil_r.
  - rewrite IH, planned_all_app. unfold join. cbn. by rewrite !app_assoc.
Qed.

Lemma run_plan s :
  let p := planned_all cfg s (declared_list cfg) in
  run serve (plan_resolved cfg) s = (Ok (mkPlan (sortActions p.1) (sortDrift p.2)), s).
Proof.
  unfold plan_resolved. rewrite run_bind, (run_run_steps _ _ _ _ (run_groups s)), foldl_join, decl_groups_concat.
  by destruct (planned_all cfg s (declared_list cfg)).
Qed.
End runs.

(** ** Looking declared resources up by name *)

Lemma foldl_insert_notin {A} (key : A -> string) l (m : gmap string A) k :
  k ∉ key <$> l -> foldl (λ m x, <[key x := x]> m) m l !! k = m !! k.
Proof.
  revert m. induction l as [|x l IH]; intros m N; cbn in *; [done|]. apply not_elem_of_cons in N as [N1 N2]. rewrite IH by done. by rewrite lookup_insert_ne.
Qed.

Lemma foldl_insert_in {A} (key : A -> string) l (m : gmap string A) x :
  NoDup (key <$> l) -> x ∈ l -> foldl (λ m x, <[key x := x]> m) m l !! key x = Some x.
Proof.
  revert m. induction l as [|y l IH]; intros m N In; [by apply elem_of_nil in In|]. cbn in *. apply NoDup_cons in N as [N1 N2].
  apply elem_of_cons in In as [->|In]; [|by apply IH]. rewrite foldl_insert_notin by done. apply lookup_insert_eq.
Qed.

Lemma NoDup_fmap_app_l {A B} (f : A -> B) l1 l2 : NoDup (f <$> (l1 ++ l2)) -> NoDup (f <$> l1).
Proof. rewrite fmap_app, NoDup_app. tauto. Qed.

Lemma NoDup_fmap_app_r {A B} (f : A -> B) l1 l2 : NoDup (f <$> (l1 ++ l2)) -> NoDup (f <$> l2).
Proof. rewrite fmap_app, NoDup_app. tauto. Qed.

Lemma NoDup_fmap_inj_on {A B} (f : A -> B) l x y : NoDup (f <$> l) -> x ∈ l -> y ∈ l -> f x = f y -> x = y.
Proof.
  intros N [i Hi]%list_elem_of_lookup [j Hj]%list_elem_of_lookup E.
  assert (i = j) as -> by (eapply (NoDup_lookup (f <$> l)); [done|rewrite list_lookup_fmap, Hi; cbn; by rewrite E|by rewrite list_lookup_fmap, Hj]). congruence.
Qed.

Section lookups.
Context (cfg : Config) (N : NoDup (stream_name <$> declared_list cfg)).

Lemma cpSpecs_control cp spec : ControlPlane cfg = Some cp -> spec ∈ buildControlPlaneSpecs cp -> cpSpecs cfg !! bucket spec = Some spec.
Proof using N.
  intros E In. unfold cpSpecs. rewrite E. apply foldl_insert_in; [|done]. unfold declared_list in N. rewrite E in N.
  apply NoDup_fmap_app_l in N. rewrite <- list_fmap_compose in N. eapply (NoDup_fmap_1 (λ b, kvStreamPrefix +:+ b)). by rewrite <- list_fmap_compose.
Qed.

Lemma cpSpecs_source ps : PartitionSource cfg = Some ps -> cpSpecs cfg !! ps_Bucket ps = None.
Proof using N.
  intros E. unfold cpSpecs. destruct (ControlPlane cfg) as [cp|] eqn:EC; [|done]. rewrite foldl_insert_notin; [done|]. intros (spec & ES & In)%list_elem_of_fmap.
  unfold declared_list in N. rewrite E, EC, fmap_app in N. apply NoDup_app in N as (_ & D & _).
  apply (D (kvStreamPrefix +:+ ps_Bucket ps)).
  - apply list_elem_of_fmap. exists (DBucket (control_decl cfg cp spec)). split; [cbn; by rewrite ES|]. apply list_elem_of_fmap. by exists spec.
  - cbn. left.
Qed.

Lemma streamCfgs_declared st : st ∈ Streams cfg -> streamCfgs cfg !! sc_Name st = Some st.
Proof using N.
  intros In. unfold streamCfgs. apply foldl_insert_in; [|done]. unfold declared_list in N. do 2 apply NoDup_fmap_app_r in N.
  by rewrite <- list_fmap_compose in N.
Qed.

(** The two sources of a declared bucket. *)
Lemma declared_bucket d :
  DBucket d ∈ declared_list cfg ->
  (exists cp spec, ControlPlane cfg = Some cp /\ spec ∈ buildControlPlaneSpecs cp /\ d = control_decl cfg cp spec) \/
  (exists ps, PartitionSource cfg = Some ps /\ d = source_decl cfg ps).
Proof using.
  unfold declared_list. rewrite !elem_of_app. intros [In|[In|In]].
  - left. destruct (ControlPlane cfg) as [cp|]; [|by apply elem_of_nil in In]. apply list_elem_of_fmap in In as (spec & [= ->] & In). by exists cp, spec.
  - right. destruct (PartitionSource cfg) as [ps|]; [|by apply elem_of_nil in In]. apply list_elem_of_singleton in In as [= ->]. by exists ps.
  - by apply list_elem_of_fmap in In as (? & ? & _).
Qed.

Lemma declared_streams st : DStream st ∈ declared_list cfg -> st ∈ Streams cfg.
Proof using.
  unfold declared_list. rewrite !elem_of_app. intros [In|[In|In]].
  - destruct (ControlPlane cfg); [|by apply elem_of_nil in In]. by apply list_elem_of_fmap in In as (? & ? & _).
  - destruct (PartitionSource cfg); [|by apply elem_of_nil in In]. by apply list_elem_of_singleton in In.
  - by apply list_elem_of_fmap in In as (? & [= ->] & In).
Qed.

Lemma declared_target d live : DBucket d ∈ declared_list cfg -> buildUpdateKVTargetForBucket cfg (d_name d) live = Ok (d_target d live).
Proof using N.
  intros [(cp & spec & E & In & ->)|(ps & E & ->)]%declared_bucket; unfold buildUpdateKVTargetForBucket; cbn.
  - by rewrite (cpSpecs_control _ _ E In).
  - rewrite (cpSpecs_source _ E), E. by case_decide.
Qed.

Lemma declared_component d : DBucket d ∈ declared_list cfg -> stampMarkerComponent cfg (d_name d) = Ok (d_component d).
Proof using N.
  intros [(cp & spec & E & In & ->)|(ps & E & ->)]%declared_bucket; unfold stampMarkerComponent; cbn.
  - by rewrite (cpSpecs_control _ _ E In).
  - rewrite (cpSpecs_source _ E), E. by case_decide.
Qed.
End lookups.

Lemma declared_ok cfg d : provisionable cfg -> validateResolved cfg = None -> DBucket d ∈ declared_list cfg -> decl_ok cfg d.
Proof.
  intros P V In. unfold validateResolved in V. case_decide; [done|].
  destruct (declared_bucket cfg d In) as [(cp & spec & E & InS & ->)|(ps & E & ->)].
  - rewrite E in V. cbn in V. apply control_ok; [done|]. by destruct (validateControlPlane cp).
  - apply source_ok; [|by apply (history_range _ P)]. destruct (ControlPlane cfg ≫= validateControlPlane); [done|]. rewrite E in V. cbn in V.
    by destruct (validatePartitionSource ps).
Qed.

(** ** Executing the action of a resource *)

Definition named (s : live_streams) : Prop := forall n sc, s !! n = Some sc -> Name sc = n.

Section steps.
Context {SV : Server} (cfg : Config).

(** The action does its work and leaves the resource [d] with nothing to do. *)
Definition does_work (d : declared) (a : PlannedAction) (s : live_streams) : Prop :=
  exists m sc, dispatch cfg a = Some m /\ run serve m s = (executed false a, <[stream_name d := sc]> s) /\
  Name sc = stream_name d /\ (plan_for cfg d (Some sc)).1 = [].

Lemma run_reRead name e s sc : s !! name = Some sc -> run serve (reReadForUpdate name e) s = (Ok sc, s).
Proof.
  intros E. unfold reReadForUpdate, StreamInfo. rewrite run_bind, run_op. cbn [serve fst snd]. rewrite E. cbn. by rewrite E.
Qed.

Lemma run_reReadForRecreate name nf s sc : s !! name = Some sc -> run serve (reReadForRecreate name nf) s = (Ok (Some sc), s).
Proof.
  intros E. unfold reReadForRecreate, StreamInfo. rewrite run_bind, run_op. cbn [serve fst snd]. rewrite E. cbn. by rewrite E.
Qed.

Lemma run_create_kv c f s :
  s !! (kvStreamPrefix +:+ Bucket c) = None ->
  run serve (call (CreateKeyValue c) ≫= λ err, Ret (f err)) s = (f None : outcome, <[kvStreamPrefix +:+ Bucket c := store_kv None c]> s).
Proof. intros E. rewrite run_op. cbn [serve]. unfold create. by rewrite E. Qed.

Lemma run_update_kv c f s old :
  s !! (kvStreamPrefix +:+ Bucket c) = Some old ->
  run serve (call (UpdateKeyValue c) ≫= λ err, Ret (f err)) s = (f None : outcome, <[kvStreamPrefix +:+ Bucket c := store_kv (Some old) c]> s).
Proof. intros E. rewrite run_op. cbn [serve]. unfold update. by rewrite E. Qed.

Lemma run_create_stream c f s :
  s !! Name c = None -> run serve (call (CreateStream c) ≫= λ err, Ret (f err)) s = (f None : outcome, <[Name c := store_stream None c]> s).
Proof. intros E. rewrite run_op. cbn [serve]. unfold create. by rewrite E. Qed.

Lemma run_update_stream c f s old :
  s !! Name c = Some old ->
  run serve (call (UpdateStream c) ≫= λ err, Ret (f err)) s = (f None : outcome, <[Name c := store_stream (Some old) c]> s).
Proof. intros E. rewrite run_op. cbn [serve]. unfold update. by rewrite E. Qed.

Section bucket.
Context (d : bucket_decl) (OK : decl_ok cfg d) (s : live_streams).
Notation name := (kvStreamPrefix +:+ d_name d).

Lemma work_create_kv : s !! name = None -> does_work (DBucket d) (create_action d) s.
Proof using OK.
  intros E. eexists _, _. split; [reflexivity|]. cbn [applyCreateKVAction create_action Resource]. rewrite run_create_kv by by rewrite (ok_bucket _ _ OK).
  rewrite (ok_bucket _ _ OK). split; [done|]. split; [by rewrite (rk_name _ _ (store_kv_reflects _ _)), (ok_bucket _ _ OK)|].
  apply created_settled; [done|apply store_kv_reflects].
Qed.

Lemma work_recreate_kv sc drift before :
  s !! name = Some sc -> kvImmutableDriftPresent (streamConfigToKVConfig sc) (d_create d) = true ->
  does_work (DBucket d) (mkAction ActionRecreateKV (d_name d) (ResRecreateKV before (d_create d) drift)) s.
Proof using OK.
  intros E D. eexists _, _. split; [reflexivity|]. cbn [applyRecreateKVAction Resource a_Name]. rewrite run_bind, (run_reReadForRecreate _ _ _ _ E).
  cbn [fst snd]. rewrite D. cbn [negb]. rewrite run_op. cbn [serve]. unfold remove. rewrite E. cbn [fst snd].
  rewrite run_create_kv by (rewrite (ok_bucket _ _ OK); apply lookup_delete_eq). rewrite (ok_bucket _ _ OK), insert_delete_eq.
  split; [done|]. split; [by rewrite (rk_name _ _ (store_kv_reflects _ _)), (ok_bucket _ _ OK)|].
  apply created_settled; [done|apply store_kv_reflects].
Qed.

Lemma kvConfigsEqual_refl a : kvConfigsEqual a a = true.
Proof using. by apply kvConfigsEqual_spec. Qed.

Context (Ns : named s) (N : NoDup (stream_name <$> declared_list cfg)) (In : DBucket d ∈ declared_list cfg).

Lemma live_bucket sc : s !! name = Some sc -> Bucket (streamConfigToKVConfig sc) = d_name d.
Proof using Ns. intros E. cbn. by rewrite (Ns _ _ E), TrimPrefix_app. Qed.

Lemma work_update_kv sc :
  let live := streamConfigToKVConfig sc in
  s !! name = Some sc -> kvConfigsEqual live (d_target d live) = false ->
  policyRecreatesImmutable (Policy cfg) && d_allow d && kvImmutableDriftPresent live (d_create d) = false ->
  does_work (DBucket d) (mkAction ActionUpdateKV (d_name d) (ResUpdateKV live (d_target d live))) s.
Proof using All.
  intros live E D G. assert (Bucket (d_target d live) = d_name d) as B by (rewrite (ok_target_bucket _ _ OK); by apply live_bucket).
  eexists _, _. split; [reflexivity|]. cbn [applyUpdateKVAction Resource a_Name]. rewrite run_bind, (run_reRead _ _ _ _ E). cbn [fst snd].
  rewrite declared_target by done. fold live. rewrite D, kvConfigsEqual_refl. cbn [negb]. rewrite (run_update_kv _ _ _ sc) by by rewrite B.
  rewrite B. split; [done|]. split; [by rewrite (rk_name _ _ (store_kv_reflects _ _)), B|].
  eapply updated_settled; [done|exact G|apply store_kv_reflects].
Qed.

Lemma work_stamp_kv sc :
  s !! name = Some sc -> ~ managed (s_Metadata sc) -> Policy cfg = PolicyAdopt ->
  does_work (DBucket d) (newStampMarkerAction (d_name d) (d_component d) (Instance_ cfg) sc) s.
Proof using All.
  intros E M P. set (live := streamConfigToKVConfig sc).
  set (target := with_metadata live (mergeMarkerMetadata (Metadata live) (d_component d) (Instance_ cfg))).
  assert (Bucket target = d_name d) as B by by apply (live_bucket sc).
  eexists _, _. split; [reflexivity|]. cbn [applyStampMarkerAction newStampMarkerAction Resource a_Name]. rewrite declared_component by done.
  rewrite run_bind, (run_reRead _ _ _ _ E). cbn [fst snd]. fold live. fold target.
  replace (kvConfigsEqual live target) with false.
  2: { symmetry. apply not_true_iff_false. intros EQ%kvConfigsEqual_metadata. apply M. change (managed (Metadata live)). rewrite EQ. apply mergeMarker_managed. }
  rewrite (run_update_kv _ _ _ sc) by by rewrite B. rewrite B. split; [done|]. split; [by rewrite (rk_name _ _ (store_kv_reflects _ _)), B|].
  apply adopted_settled; [done..|]. eapply same_marker_managed; [apply (rk_marker _ _ (store_kv_reflects _ _))|]. apply mergeMarker_managed.
Qed.

(** A bucket has at most one action, and that does the work. *)
Lemma bucket_work a l : (plan_for cfg (DBucket d) (s !! name)).1 = a :: l -> l = [] /\ does_work (DBucket d) a s.
Proof using All.
  destruct (s !! name) as [sc|] eqn:E; cbn.
  - rewrite plan_found_actions by done. destruct (IsManaged _) eqn:M.
    + destruct (policyRecreatesImmutable _ && d_allow d && _) eqn:G.
      * intros [= <- <-]. split; [done|]. apply andb_true_iff in G as [_ G]. by eapply work_recreate_kv.
      * destruct (policyReconcilesMutable _ && _) eqn:U; [|done]. intros [= <- <-]. split; [done|].
        apply andb_true_iff in U as [_ U%negb_true_iff]. by apply work_update_kv.
    + case_bool_decide as P; [|done]. intros [= <- <-]. split; [done|]. apply work_stamp_kv; [done| |done]. unfold managed. by rewrite M.
  - unfold plan_missing. case_decide; [done|]. intros [= <- <-]. split; [done|]. by apply work_create_kv.
Qed.
End bucket.

Section stream.
Context (st : StreamCfg) (s : live_streams).

Lemma work_create_stream :
  s !! sc_Name st = None -> does_work (DStream st) (mkAction ActionCreateStream (sc_Name st) (ResCreateStream (stream_create cfg st))) s.
Proof using.
  intros E. eexists _, _. split; [reflexivity|]. cbn [applyCreateStreamAction Resource]. rewrite run_create_stream by done.
  split; [done|]. split; [by rewrite (rs_name _ _ (store_stream_reflects _ _))|]. apply created_stream_settled, store_stream_reflects.
Qed.

Lemma work_recreate_stream sc drift before :
  s !! sc_Name st = Some sc -> streamImmutableDriftPresent sc (stream_create cfg st) = true ->
  does_work (DStream st) (mkAction ActionRecreateStream (sc_Name st) (ResRecreateStream before (stream_create cfg st) drift)) s.
Proof using.
  intros E D. eexists _, _. split; [reflexivity|]. cbn [applyRecreateStreamAction Resource a_Name]. rewrite run_bind, (run_reReadForRecreate _ _ _ _ E).
  cbn [fst snd]. rewrite D. cbn [negb]. rewrite run_op. cbn [serve]. unfold remove. rewrite E. cbn [fst snd].
  rewrite run_create_stream by apply lookup_delete_eq. rewrite insert_delete_eq.
  split; [done|]. split; [by rewrite (rs_name _ _ (store_stream_reflects _ _))|]. apply created_stream_settled, store_stream_reflects.
Qed.

Context (Ns : named s) (N : NoDup (stream_name <$> declared_list cfg)) (In : st ∈ Streams cfg).

Lemma work_update_stream sc :
  s !! sc_Name st = Some sc -> streamConfigsEqual sc (stream_target cfg st sc) = false ->
  policyRecreatesImmutable (Policy cfg) && sc_AllowDeleteRecreate st && streamImmutableDriftPresent sc (stream_create cfg st) = false ->
  does_work (DStream st) (mkAction ActionUpdateStream (sc_Name st) (ResUpdateStream sc (stream_target cfg st sc))) s.
Proof using All.
  intros E D G. assert (Name (stream_target cfg st sc) = sc_Name st) as B by apply (Ns _ _ E).
  eexists _, _. split; [reflexivity|]. cbn [applyUpdateStreamAction Resource a_Name]. rewrite run_bind, (run_reRead _ _ _ _ E). cbn [fst snd].
  rewrite (streamCfgs_declared cfg N st In). fold (stream_target cfg st sc). rewrite D.
  rewrite (proj2 (streamConfigsEqual_spec sc sc)) by done. cbn [negb]. rewrite (run_update_stream _ _ _ sc) by by rewrite B.
  rewrite B. split; [done|]. split; [by rewrite (rs_name _ _ (store_stream_reflects _ _)), B|].
  eapply updated_stream_settled; [exact G|apply store_stream_reflects].
Qed.

Lemma work_stamp_stream sc :
  s !! sc_Name st = Some sc -> ~ managed (s_Metadata sc) -> Policy cfg = PolicyAdopt ->
  does_work (DStream st) (newStampStreamMarkerAction (sc_Name st) (Instance_ cfg) sc) s.
Proof using All.
  intros E M P. set (target := with_stream_metadata sc (mergeMarkerMetadata (s_Metadata sc) ComponentStream (Instance_ cfg))).
  assert (Name target = sc_Name st) as B by apply (Ns _ _ E).
  eexists _, _. split; [reflexivity|]. cbn [applyStampStreamMarkerAction newStampStreamMarkerAction Resource a_Name].
  rewrite run_bind, (run_reRead _ _ _ _ E). cbn [fst snd]. fold target. replace (streamConfigsEqual sc target) with false.
  2: { symmetry. apply not_true_iff_false. intros EQ%streamConfigsEqual_metadata. apply M. rewrite EQ. apply mergeMarker_managed. }
  rewrite (run_update_stream _ _ _ sc) by by rewrite B. rewrite B. split; [done|]. split; [by rewrite (rs_name _ _ (store_stream_reflects _ _)), B|].
  apply adopted_stream_settled; [done|]. eapply same_marker_managed; [apply (rs_marker _ _ (store_stream_reflects _ _))|]. apply mergeMarker_managed.
Qed.

Lemma stream_work a l : (plan_for cfg (DStream st) (s !! sc_Name st)).1 = a :: l -> l = [] /\ does_work (DStream st) a s.
Proof using All.
  destruct (s !! sc_Name st) as [sc|] eqn:E; cbn.
  - rewrite stream_found_actions by done. destruct (IsManaged _) eqn:M.
    + destruct (policyRecreatesImmutable _ && sc_AllowDeleteRecreate st && _) eqn:G.
      * intros [= <- <-]. split; [done|]. apply andb_true_iff in G as [_ G]. by eapply work_recreate_stream.
      * destruct (policyReconcilesMutable _ && _) eqn:U; [|done]. intros [= <- <-]. split; [done|].
        apply andb_true_iff in U as [_ U%negb_true_iff]. by apply work_update_stream.
    + case_bool_decide as P; [|done]. intros [= <- <-]. split; [done|]. apply work_stamp_stream; [done| |done]. unfold managed. by rewrite M.
  - unfold plan_missing. case_decide; [done|]. intros [= <- <-]. split; [done|]. by apply work_create_stream.
Qed.
End stream.

(** ** The whole plan *)

Context (P : provisionable cfg) (V : validateResolved cfg = None).

Lemma declared_work d a l s :
  named s -> d ∈ declared_list cfg -> (plan_for cfg d (s !! stream_name d)).1 = a :: l -> l = [] /\ does_work d a s.
Proof using P V.
  intros Ns In. pose proof (distinct_names _ P) as N. destruct d as [d|st]; cbn [stream_name].
  - apply bucket_work; [|done..]. by apply declared_ok.
  - apply stream_work; [done..|]. by apply declared_streams.
Qed.

Definition reported (a : PlannedAction) : ExecutedAction := mkExecuted (Kind a) (a_Name a) false.

(** The actions of a list of resources, each with its resource. *)
Lemma run_actions (l : list (PlannedAction * declared)) report s :
  named s -> NoDup (stream_name ∘ snd <$> l) ->
  Forall (λ ad, ad.2 ∈ declared_list cfg /\ (plan_for cfg ad.2 (s !! stream_name ad.2)).1 = [ad.1]) l ->
  exists s', run serve (apply_actions cfg (l.*1) report) s =
    ((mkReport (Executed report ++ (reported ∘ fst <$> l)) (Skipped report) (Errors report) (Aborted report), None), s') /\
  named s' /\ Forall (λ ad, (plan_for cfg ad.2 (s' !! stream_name ad.2)).1 = []) l /\
  forall n, n ∉ (stream_name ∘ snd <$> l) -> s' !! n = s !! n.
Proof using P V.
  revert report s. induction l as [|[a d] l IH]; intros report s Ns N F.
  { exists s. cbn. rewrite app_nil_r. split; [by destruct report|]. split; [done|]. by split. }
  cbn in N. apply NoDup_cons in N as [N1 N2]. inversion F as [|? ? [In E] F']; subst. cbn [fst snd] in In, E.
  destruct (declared_work d a [] s Ns In E) as (_ & m & sc & D & R & Nsc & S).
  destruct (IH (mkReport (Executed report ++ [reported a]) (Skipped report) (Errors report) (Aborted report)) (<[stream_name d := sc]> s))
    as (s' & R' & Ns' & F2 & O).
  - intros n x. destruct (decide (n = stream_name d)) as [->|NE]; [rewrite lookup_insert_eq; by intros [= <-]|rewrite lookup_insert_ne by done; apply Ns].
  - done.
  - rewrite Forall_forall in F' |- *. intros ad InL. rewrite lookup_insert_ne; [by apply F'|]. intros EQ. apply N1. apply list_elem_of_fmap. by exists ad.
  - exists s'. split; [|split; [done|split]].
    + cbn [fmap list_fmap apply_actions fst]. rewrite run_op. cbn [serve fst snd]. rewrite D, run_bind, R.
      etrans; [exact R'|]. cbn. by rewrite <- app_assoc.
    + constructor; [|done]. cbn. rewrite O, lookup_insert_eq by done. done.
    + intros n N. cbn in N. apply not_elem_of_cons in N as [NE N]. rewrite O by done. by rewrite lookup_insert_ne.
Qed.

(** The resources that have an action, with it. *)
Definition with_action (s : live_streams) : list (PlannedAction * declared) :=
  omap (λ d, (λ a, (a, d)) <$> head (plan_for cfg d (s !! stream_name d)).1) (declared_list cfg).

Lemma with_action_actions s : named s -> (with_action s).*1 = (planned_all cfg s (declared_list cfg)).1.
Proof using P V SV.
  intros Ns. unfold with_action, planned_all. cbn [fst].
  enough (forall ds, ds ⊆ declared_list cfg -> (omap (λ d, (λ a, (a, d)) <$> head (plan_for cfg d (s !! stream_name d)).1) ds).*1 =
    concat ((λ d, (plan_for cfg d (s !! stream_name d)).1) <$> ds)) as H by by apply H.
  intros ds Sub. induction ds as [|d ds IH]; [done|]. cbn. rewrite <- IH by set_solver.
  destruct (plan_for cfg d _).1 as [|a l] eqn:E; [done|]. cbn.
  destruct (declared_work d a l s Ns) as [-> _]; [set_solver|done|done].
Qed.

Lemma with_action_spec s ad :
  named s -> ad ∈ with_action s -> ad.2 ∈ declared_list cfg /\ (plan_for cfg ad.2 (s !! stream_name ad.2)).1 = [ad.1].
Proof using P V SV.
  intros Ns (d & In & E)%list_elem_of_omap. destruct (plan_for cfg d _).1 as [|a l] eqn:PE; [done|]. cbn in E. simplify_eq. cbn.
  destruct (declared_work d a l s Ns In PE) as [-> _]. done.
Qed.

Lemma with_action_names s : stream_name ∘ snd <$> with_action s `sublist_of` (stream_name <$> declared_list cfg).
Proof using.
  unfold with_action. induction (declared_list cfg) as [|d ds IH]; cbn; [constructor|].
  destruct (head _); cbn; [by apply sublist_skip|by apply sublist_cons].
Qed.

Lemma run_whole_plan s :
  named s -> exists s', run serve (applyPlan cfg (mkPlan (sortActions (planned_all cfg s (declared_list cfg)).1) (sortDrift (planned_all cfg s (declared_list cfg)).2))) s =
    ((mkReport (reported <$> sortActions (planned_all cfg s (declared_list cfg)).1) [] [] false, None), s') /\
  named s' /\ Forall (λ d, (plan_for cfg d (s' !! stream_name d)).1 = []) (declared_list cfg) /\
  forall n, n ∉ (stream_name <$> declared_list cfg) -> s' !! n = s !! n.
Proof using P V.
  intros Ns. assert (sortActions (planned_all cfg s (declared_list cfg)).1 ≡ₚ map fst (with_action s)) as (l & El & Pl)%Permutation_map_inv.
  { change (map fst (with_action s)) with ((with_action s).*1). rewrite with_action_actions by done. apply sort_by_perm. }
  assert (NoDup (stream_name ∘ snd <$> l)) as Nl.
  { rewrite <- Pl. eapply sublist_NoDup; [apply (distinct_names _ P)|apply with_action_names]. }
  destruct (run_actions l newReport s Ns Nl) as (s' & R & Ns' & F & O).
  { apply Forall_forall. intros ad In. apply with_action_spec; [done|]. by rewrite Pl. }
  exists s'. split_and!; [|done| |].
  - unfold applyPlan. cbn [Actions]. rewrite El. etrans; [exact R|]. cbn. rewrite list_fmap_compose. done.
  - rewrite Forall_forall in F. apply Forall_forall. intros d In. destruct (plan_for cfg d (s !! stream_name d)).1 as [|a l'] eqn:E.
    + rewrite O; [done|]. intros (ad & EN & InL)%list_elem_of_fmap. rewrite <- Pl in InL. destruct (with_action_spec s ad Ns InL) as [InD EP].
      rewrite (NoDup_fmap_inj_on stream_name (declared_list cfg) d ad.2) in E; [by rewrite EP in E|apply P|done..].
    + apply (F (a, d)). rewrite <- Pl. apply list_elem_of_omap. exists d. split; [done|]. by rewrite E.
  - intros n Nn. apply O. intros In. apply Nn. eapply elem_of_sublist; [|apply (with_action_names s)]. by rewrite Pl.
Qed.

(** Once nothing is planned, no drift is left that the policy repairs. *)
Definition allows_all : Prop :=
  (forall cp, ControlPlane cfg = Some cp -> cp_AllowDeleteRecreate cp = true) /\
  (forall ps, PartitionSource cfg = Some ps -> ps_AllowDeleteRecreate ps = true) /\
  Forall (λ st, sc_AllowDeleteRecreate st = true) (Streams cfg).

Lemma missing_in_sync sev kind name a : sev <> SeverityInformational -> severity_free sev (plan_missing cfg kind name a).2.
Proof using. intros NE. unfold plan_missing. case_decide; repeat constructor. by intros <-. Qed.

Lemma nothing_planned_in_sync d live :
  d ∈ declared_list cfg -> (plan_for cfg d live).1 = [] ->
  (policyReconcilesMutable (Policy cfg) = true -> severity_free SeverityDriftMutable (plan_for cfg d live).2) /\
  (Policy cfg = PolicyForce -> allows_all -> severity_free SeverityDriftImmutable (plan_for cfg d live).2).
Proof using P V.
  intros In. destruct live as [sc|]; [|intros _; destruct d; cbn; split; intros; by apply missing_in_sync].
  destruct d as [d|st]; cbn.
  - intros E. assert ((plan_found cfg d sc).2 = d_classify d sc) as -> by (unfold plan_found, plan_bucket_found; by destruct (immutableFindingDetail _), (_ && _ && _)).
    destruct (settled_in_sync cfg d (declared_ok cfg d P V In) sc E) as [H1 H2]. split; [done|]. intros PF (A1 & A2 & _). apply H2. rewrite PF. change (d_allow d = true).
    destruct (declared_bucket cfg d In) as [(cp & spec & EC & _ & ->)|(ps & EP & ->)]; cbn; eauto.
  - intros E. assert ((plan_stream_found cfg st sc).2 = classifyStreamDrift st sc (Instance_ cfg)) as ->
      by (unfold plan_stream_found; by destruct (immutableFindingDetail _), (_ && _ && _)).
    destruct (settled_stream_in_sync cfg st sc E) as [H1 H2]. split; [done|]. intros PF (_ & _ & A3). apply H2. rewrite PF. change (sc_AllowDeleteRecreate st = true).
    rewrite Forall_forall in A3. apply A3. by apply declared_streams.
Qed.
End steps.

(** C23. On a server that carries out its requests, and for resources of different
    names, [Apply] executes every action of the plan, skips none and reports no
    error; streams that are not declared stay as they are; and the next [Plan] has
    no action left, whatever the policy. Under safe-update and force no mutable
    drift is left either, and under force, where every resource allows it, no
    immutable drift. *)
Theorem apply_converges {SV : Server} cfg resolved s :
  resolve cfg = Ok resolved -> provisionable resolved -> named s ->
  exists plan s' drift,
    run serve (Plan cfg) s = (Ok plan, s) /\
    run serve (Apply cfg) s = ((mkReport (reported <$> Actions plan) [] [] false, None), s') /\
    run serve (Plan cfg) s' = (Ok (mkPlan [] drift), s') /\
    (forall n, n ∉ (stream_name <$> declared_list resolved) -> s' !! n = s !! n) /\
    (policyReconcilesMutable (Policy resolved) = true -> severity_free SeverityDriftMutable drift) /\
    (Policy resolved = PolicyForce -> allows_all resolved -> severity_free SeverityDriftImmutable drift).
Proof.
  intros R P Ns. assert (validateResolved resolved = None) as V.
  { unfold resolve in R. destruct (normalize cfg) as [r|]; [|done]. destruct (validateResolved r) eqn:E; [done|]. by simplify_eq. }
  assert (forall s, run serve (Plan cfg) s = run serve (plan_resolved resolved) s) as EP by (intros; unfold Plan; rewrite run_op; cbn; by rewrite R).
  destruct (run_whole_plan resolved P V s Ns) as (s' & RA & Ns' & F & O). eexists _, s', _. split_and!; [by rewrite EP, run_plan| | |exact O| |].
  - unfold Apply. rewrite R, run_op. cbn [serve fst snd]. rewrite run_bind. unfold Plan. rewrite (resolve_idem _ _ R), run_op. cbn [serve fst snd].
    rewrite run_plan. exact RA.
  - rewrite EP, run_plan. assert ((planned_all resolved s' (declared_list resolved)).1 = []) as ->; [|done].
    cbn. apply concat_nil_Forall. apply Forall_fmap. exact F.
  - intros PM. unfold severity_free, sortDrift. rewrite sort_by_perm. apply Forall_concat, Forall_fmap. rewrite Forall_forall in F. apply Forall_forall.
    intros d In. by apply nothing_planned_in_sync; [..|apply F|].
  - intros PF AA. unfold severity_free, sortDrift. rewrite sort_by_perm. apply Forall_concat, Forall_fmap. rewrite Forall_forall in F. apply Forall_forall.
    intros d In. by apply nothing_planned_in_sync; [..|apply F| |].
Qed.

(** ** An environment *)

(** A server that fills in defaults and adds a metadata key of its own. *)
Definition plain_kv (_ : option StreamConfig) (c : KeyValueConfig) : StreamConfig :=
  mkStream (kvStreamPrefix +:+ Bucket c) (Description c) ["$KV." +:+ Bucket c +:+ ".>"] LimitsPolicy (-1) (MaxBytes c) DiscardNew (TTL c) (History c)
    (normalizeMaxValueSize (MaxValueSize c)) (Storage c) (normalizeReplicas (Replicas c)) (kv_copied c) (<["_nats.ver" := "2.12.0"]> (Metadata c)).

Definition plain_stream (_ : option StreamConfig) (c : StreamConfig) : StreamConfig :=
  mkStream (Name c) (s_Description c) (Subjects c) (Retention c) (normalizeStreamLimit (MaxMsgs c)) (normalizeStreamLimit (s_MaxBytes c)) (Discard c)
    (MaxAge c) (-1) (-1) (s_Storage c) (normalizeReplicas (s_Replicas c)) (s_copied c) (<["_nats.ver" := "2.12.0"]> (s_Metadata c)).

Lemma added_key_keeps_marker md : same_marker md (<["_nats.ver" := "2.12.0"]> md).
Proof. intros k K. apply lookup_insert_ne. intros <-. by apply (bool_decide_pack _) in K. Qed.

Lemma normalizers_idem :
  (forall r, normalizeReplicas (normalizeReplicas r) = normalizeReplicas r) /\
  (forall v, normalizeMaxValueSize (normalizeMaxValueSize v) = normalizeMaxValueSize v) /\
  (forall v, normalizeStreamLimit (normalizeStreamLimit v) = normalizeStreamLimit v).
Proof. unfold normalizeReplicas, normalizeMaxValueSize, normalizeStreamLimit. split_and!; intros; by repeat case_decide. Qed.

Definition plain_server : Server.
Proof.
  refine {| store_kv := plain_kv; store_stream := plain_stream |}; intros old c; destruct normalizers_idem as (IR & IV & IL);
    split; cbn; auto using added_key_keeps_marker.
Defined.

Definition env_control (shared : bool) : ControlPlaneConfig :=
  mkControlPlane "" "" "" (if shared then "parti-stableid" else "") "" 30000000000 10000000000 15000000000 0 60000000000 true 3 true.
Definition env_config (policy : string) (shared : bool) : Config :=
  mkConfig "parti.io/v1" "prod" policy (Some (env_control shared)) (Some (mkPartitionSource "partitions" "all" 3 "" 5 0 0 true)) [orders].

(** The worker-id bucket kept in memory, a heartbeat bucket with another TTL, a partition source without a marker. *)
Definition env_live : live_streams :=
  let kv (b : string) c t st := plain_kv None (mkKV b "" 0 1 t 0 st 3 no_copied c) in
  list_to_map ((λ sc, (Name sc, sc)) <$>
    [kv "parti-stableid" (BuildMarker ComponentControlPlaneID "prod") 30000000000%Z MemoryStorage;
     kv "parti-heartbeat" (BuildMarker ComponentControlPlaneHeartbeat "prod") 5000000000%Z MemoryStorage;
     kv "partitions" ∅ 0%Z FileStorage; orders_marked]).

Lemma env_named : named env_live.
Proof. intros n sc E. apply elem_of_list_to_map_2 in E. by apply list_elem_of_fmap in E as (x & [= -> ->] & _). Qed.

Lemma apply_converges_witness :
  exists plan s' drift,
    run (@serve plain_server) (Apply (env_config "force" false)) env_live = ((mkReport (reported <$> Actions plan) [] [] false, None), s') /\
    run (@serve plain_server) (Plan (env_config "force" false)) s' = (Ok (mkPlan [] drift), s') /\
    severity_free SeverityDriftMutable drift.
Proof.
  destruct (apply_converges (SV := plain_server) (env_config "force" false) (mkConfig "parti.io/v1" "prod" "force" (Some (normalize_control_plane (env_control false)))
    (Some (mkPartitionSource "partitions" "all" 3 "file" 5 0 0 true)) [normalize_stream orders]) env_live) as (plan & s' & drift & _ & A & B & _ & M & _).
  - vm_compute. reflexivity.
  - split; [apply (bool_decide_unpack _); vm_compute; exact I|]. by intros ps [= <-].
  - exact env_named.
  - exists plan, s', drift. split; [exact A|]. split; [exact B|]. exact (M eq_refl).
Defined.

(** Only the bucket with immutable drift is recreated, not the control plane as a set. *)
Lemma one_bucket_recreated :
  match (run (@serve plain_server) (Plan (env_config "force" false)) env_live).1 with
  | Ok plan => (λ a, (Kind a, a_Name a)) <$> Actions plan =
      [(ActionCreateKV, "parti-assignment"); (ActionCreateKV, "parti-election"); (ActionCreateKV, "parti-handoff");
       (ActionRecreateKV, "parti-stableid"); (ActionRecreateStream, "ORDERS"); (ActionUpdateKV, "parti-heartbeat")]
  | Err _ => False
  end.
Proof. vm_compute. reflexivity. Qed.

(** Validation accepts two components in one bucket, and then every run deletes the bucket of the one before. *)
Lemma shared_bucket_never_settles :
  let apply s := (run (@serve plain_server) (Apply (env_config "force" true)) s).2 in
  let recreated s := match (run (@serve plain_server) (Plan (env_config "force" true)) s).1 with
                     | Ok plan => a_Name <$> filter (λ a, Kind a = ActionRecreateKV) (Actions plan)
                     | Err _ => []
                     end in
  recreated (apply env_live) = ["parti-stableid"] /\ recreated (apply (apply env_live)) = ["parti-stableid"].
Proof. vm_compute. split; reflexivity. Qed.
